(* ===== verification/_CoqProject ===== *)
-Q . S2P
Prelude.v
Crc32.v
LogEntry.v
LogReader.v
Index.v
FileSys.v
Segment.v
Store.v
Merge.v
Wp.v
Repr.v
StoreOps.v
Recovery.v
Opening.v
Durable.v
Session.v
MergeOps.v
Promote.v
Compaction.v
Refine.v
Restart.v
Invariant.v
Faults.v
ShortWrite.v
Bounds.v
AfterCrash.v
CrashOps.v
SilentCut.v
MergeFaults.v
MergeCrash.v
MergeRecovery.v
ResetCrash.v
Sample.v
Snapshot.v
Backup.v
Iter.v
IterOps.v
SnapshotOps.v
BackupOps.v
Codec.v
Fixed.v
Float64.v
Cache.v
Batch.v
Bloom.v
Popcount.v
BloomFloat.v
Keydir.v
Ttl.v
Flock.v
FlockFile.v
FlockOps.v
Config.v
Stats.v
Cli.v
CliOps.v
Demo.v
DemoOps.v
LogTheorems.v
CrashTheorems.v
ViewTheorems.v
UtilTheorems.v
StoreTheorems.v
