(* ===== verification/Prelude.v ===== *)
(** * Verification of the bitcask key/value engine

    This library models the Go program under [src/] and proves what makes it
    correct, together with the places where it is not.

    ** The program

    [bitcask] keeps an append-only log of records in numbered segment files
    ([internal/log]) and an index in memory from each key to the place of its
    latest record ([internal/index]).  The store ([internal/store]) appends a
    record for every [Put] and [Delete], reads values back through the index,
    starts a new segment when the active one is large, rewrites the live records
    into one segment on [Merge] and writes the index next to it as a hint file.
    [Open] rebuilds the index from the hint file if there is one, and by scanning
    the log otherwise.  Iterators, snapshots and backups are built on the store;
    [main.go] is a command line around it, and [example/main.go] a demonstration.
    The other packages under [internal/]
    (bloom filter, LRU cache, write batch, key directory, TTL manager, lock file,
    statistics, configuration, codec) stand alone: the store does not call them.

    ** How it is modelled

    A Go function is an executable definition with the same name.  Its outcome is
    a [res]: a value, an error, or a panic (slices and indices are checked as Go
    checks them).  Code with state is in the monad [M St A := St -> St * res A],
    where a state changed before an error stays changed.  Integers are [Z] with
    the wrap-around of their width written out ([u32], [u64], [i64]), bytes are
    [list byte], maps are [gmap]s; the order in which Go visits a map is the
    class [GoRange], so theorems hold for every order.  [io.Reader] and
    [io.Writer] are the record [ioReader] and the class [Writer], whose contract
    is [WriterSpec].  A mutex makes a method one atomic step, except in [Flock].
    Floats are binary64 numbers of [SpecFloat].

    The operating system ([FileSys]) has directories, inodes, and names for
    inodes, so that hard links and deleted open files behave as they do.  Every
    system call takes its outcome from a list of faults ([FNone], [FFail],
    [FShort n]); [no_faults] is the empty list.  Segment objects are mutable and
    shared, so they live in a heap next to the file system ([World]); a store
    method runs on the pair of the world and the store object ([State]).

    ** Files and what they model

    - [Prelude] (this file): errors, [res], the monad, readers and writers, bytes,
      big-endian integers, byte order of strings, shared lemmas and automation.
    - [Crc32]: [hash/crc32] (IEEE), and that it detects bursts.
    - [LogEntry], [LogReader], [Segment]: internal/log/entry.go, reader.go,
      segment.go.  [Index]: internal/index/index.go with the hint codec.
    - [FileSys]: the calls of package [os] that the sources use.
    - [Store], [Merge]: internal/store/store.go and merge.go.  [Iter]: iter.go.
      [Snapshot]: snapshot.go, and [Restore] of backup.go.  [Backup]: the rest of it,
      against the interface [Archiver] of the tar and gzip writers.
    - [Codec], [Cache], [Batch], [Bloom], [Keydir], [Ttl], [Stats], [Config]: the
      package of that name under internal/.  [Fixed]: the fixed-width and float
      helpers of codec; [BloomFloat]: the floating-point part of bloom, both over
      [Float64].
    - [Flock]: internal/flock as system-call steps of concurrent processes;
      [FlockFile]: the same package function by function, with the file's text,
      the retry loop and the queries.
    - [Cli]: main.go.  [Demo]: example/main.go.

    The proofs about the store are in layers.
    - [Repr]: the invariant [Inv] between a state and the contents [G] of its
      segments, and the map [abs G index] a store represents ([Rep] in [StoreOps]).
    - [StoreOps]: what [Put], [Delete], [Get], [Count] and rotation do to it.
    - [Recovery], [Opening]: scanning a log, closing and opening.
    - [Durable], [Session]: the index is the replay of the log ([Durable]), and
      whole sessions of writes.
    - [MergeOps], [Promote], [Compaction], [Restart]: [Merge] step by step, and
      opening with the hint file.
    - [Refine]: the simulation of a finite map.  [Invariant]: the transition system
      of a store that is called, closed and reopened, and what holds in all its
      states.  Its steps assume room for what they write; [Bounds] derives that
      room from the number of the client's calls and the bytes of their records.
      [Faults]: particular failing system calls.  [ShortWrite]: a store whose
      active file has grown past the size its object knows.
    - [Wp]: weakest preconditions for the monad, one rule per combinator and one
      per system call with any outcome.  [CrashOps]: writes under any faults.
      [AfterCrash]: opening what a write leaves; [SilentCut]: writing and opening
      behind a cut that was taken for the end.  [MergeFaults], [MergeCrash],
      [MergeRecovery]: [Merge] with live keys under any faults and opening what it
      leaves; [ResetCrash]: the same without live keys.
    - [IterOps], [SnapshotOps], [BackupOps], [CliOps], [DemoOps], [FlockOps],
      [Popcount]: the lemmas of the component they are named after.
    - [Sample]: concrete stores on which the theorems are instantiated.

    ** The theorems

    - [StoreTheorems]: the store refines a finite map under any sequence of calls,
      compactions included; every reachable store is well formed; the client's
      calls and bytes bound the sizes and ids of a store, so that its integers do
      not overflow; acknowledged writes survive restarts; [Merge] keeps the map
      and leaves one segment without garbage; failing system calls, torn logs.
      Also what goes wrong: writes after a compaction are lost by a restart, since
      [Open] prefers the stale hint file to the log; a short write makes the next
      record unreadable; after a [Merge] with a key of more than 16 MiB, which the
      hint file cannot carry, [Open] fails.
    - [CrashTheorems]: what the next [Open] finds after a write to a store that
      has not been compacted, or after a [Merge], whose system calls fail
      anywhere.  After a write it is the old map, the new one, or a refusal; after
      a [Merge] with live keys the map or a refusal; after a [Merge] without live
      keys the map of the segments that are left, in which deleted keys may be
      back.  And a record cut right behind its header makes the log unreadable two
      restarts later.
    - [LogTheorems]: framing, streaming, corruption detection, segment names, and
      the hint file round trip with its limits.
    - [ViewTheorems]: which methods a closed store refuses and which go on
      answering; iterators list the map in order ([Prefix] selects by
      suffix); a snapshot opens as the same map but shares later writes; backup
      and restore; the command line is a persistent map; the example program
      prints what it should.
    - [UtilTheorems]: varints, zig-zag, integers and floats as bytes, the LRU cache
      against a list of pairs, batch deduplication, no false negatives of the
      bloom filter, its serialisation and bit counting, key directory and TTL
      files, expiry, mutual exclusion of the lock file and the race in [Release],
      a session with the lock file, waiting for the lock, validation of
      configurations against their documented ranges, a NaN included.

    ** Bounds and fuel

    A file holds fewer than [2^63] bytes ([FileSys.max_file]) and a segment id has
    ten digits ([max_id]); theorems about writing ask for room below both
    ([room], [bounded], [trace_fits], the steps of [reachable]), which
    [inputs_bound_the_store] derives for fewer than 10^10 calls.  [readable] records have at most [2^30]
    payload bytes, which is what the log reader accepts.  The loops without a
    structural argument take fuel: the record scan one more than the bytes of the
    stream (every record consumes at least one; [scan_stream_total]), binary
    search the length of the range ([search_loop_cut]), the cache's eviction loop
    the number of entries ([resize_loop_Ok]), a walk one more than the entries
    ([walk_all_Ok]), waiting for the lock [timeout / interval + 2] attempts, by
    which a positive interval has passed the deadline ([fuel_enough]).  The lemmas in parentheses show that it is never exhausted.

    ** What is not modelled

    Data races within one process (every method but those of [Flock] is atomic);
    what a power failure does to data that was written but not synced (a crash is
    the end of the process between system calls or within a write); the text of
    error messages beyond what is wrapped, standard error, and the formatting of
    what the example prints; the bytes of the tar and gzip formats; the JSON codec of
    [Config] and the text of times (parameters); [math.Log], [Exp] and [Pow]
    (parameters of [BloomFloat]) and the payload of a NaN (a parameter of
    [Fixed]); a lock retried with an interval of zero, which spins until the
    deadline.  Paths are pairs of a directory and a name; the names "." and ".."
    have no special meaning. *)
From Stdlib Require Export ZArith Lia.
From Stdlib Require Strings.Byte Strings.String.
From stdpp Require Export base tactics gmap sorting strings numbers list.

Open Scope Z_scope.

(** ** Bytes *)

Abbreviation byte := Corelib.Init.Byte.byte.
Abbreviation bytes := (list byte).

(** The unsigned value of a byte, and the conversion [byte(z)] of Go, which
    keeps the low eight bits. *)
Definition byteZ (b : byte) : Z := Z.of_N (Byte.to_N b).

Definition Zbyte (z : Z) : byte :=
  match Byte.of_N (Z.to_N (z mod 256)) with
  | Some b => b
  | None => Byte.x00
  end.

Definition blen {A} (l : list A) : Z := Z.of_nat (length l).

(** String literals of the source as byte strings. *)
Definition bs (s : string) : bytes := Strings.String.list_byte_of_string s.
Arguments bs s%_string_scope.

#[export] Instance byte_eq_dec : EqDecision byte := Byte.byte_eq_dec.

#[export] Instance byte_countable : Countable byte :=
  inj_countable Byte.to_N Byte.of_N Byte.of_to_N.

(** ** Machine integers

    Go's [uint32], [uint64] and [int64] conversions; [int] is 64 bits wide. *)
Definition u32 (z : Z) : Z := z mod 2 ^ 32.
Definition u64 (z : Z) : Z := z mod 2 ^ 64.
Definition i64 (z : Z) : Z := (z + 2 ^ 63) mod 2 ^ 64 - 2 ^ 63.

(** ** Big-endian integers ([encoding/binary.BigEndian])

    [be_put n v] is what [PutUint16/32/64] store for [n] = 2, 4, 8 and
    [be_get] what [Uint16/32/64] read. *)
Fixpoint be_put (n : nat) (v : Z) : bytes :=
  match n with
  | O => []
  | S n' => Zbyte (v / 256 ^ Z.of_nat n') :: be_put n' v
  end.

Fixpoint be_get (l : bytes) : Z :=
  match l with
  | [] => 0
  | b :: l' => byteZ b * 256 ^ blen l' + be_get l'
  end.

(** A Go [bool] stored in one byte: [if t { b[i] = 1 }]. *)
Definition flag_byte (t : bool) : byte := if t then Byte.x01 else Byte.x00.

(** ** The order of Go strings: bytewise lexicographic *)
Fixpoint bytes_leb (a b : bytes) : bool :=
  match a, b with
  | [], _ => true
  | _ :: _, [] => false
  | x :: a', y :: b' =>
      if byteZ x <? byteZ y then true
      else if byteZ x =? byteZ y then bytes_leb a' b' else false
  end.

Definition bytes_ltb (a b : bytes) : bool := negb (bytes_leb b a).

Definition bytes_le (a b : bytes) : Prop := bytes_leb a b = true.

#[export] Instance bytes_le_dec : RelDecision bytes_le :=
  fun a b => bool_eq_dec (bytes_leb a b) true.

(** [sort.Strings], and [sort.Slice] on distinct integers. *)
Definition sort_Strings (l : list bytes) : list bytes := merge_sort bytes_le l.
Definition sort_ints (l : list Z) : list Z := merge_sort Z.le l.

(** ** Errors

    A sentinel is an [errors.New] value, identified by its text (all sentinels
    of the program have different texts); [Errorf fmt e] is
    [fmt.Errorf(fmt, ..., e)] whose [%w] verb wraps [e].  The arguments of the
    other verbs are not kept. *)
Inductive error :=
  | errors_New (text : string)
  | Errorf (format : string) (wrapped : error).

Arguments errors_New text%_string_scope.
Arguments Errorf format%_string_scope wrapped.

#[export] Instance error_eq_dec : EqDecision error.
Proof. solve_decision. Defined.

Fixpoint errors_Is (e target : error) : bool :=
  bool_decide (e = target) ||
  match e with
  | errors_New _ => false
  | Errorf _ e' => errors_Is e' target
  end.

(** The outcome of a Go call: a value with a nil error, a non-nil error, or a
    run-time panic (index or slice bounds out of range). *)
Inductive res (A : Type) :=
  | Ok (a : A)
  | Err (e : error)
  | Panic.
Arguments Ok {A} a.
Arguments Err {A} e.
Arguments Panic {A}.

#[export] Instance res_ret : MRet res := fun A a => Ok a.
#[export] Instance res_bind : MBind res := fun A B f r =>
  match r with
  | Ok a => f a
  | Err e => Err e
  | Panic => Panic
  end.

Definition is_Ok {A} (r : res A) : Prop := exists a, r = Ok a.

(** [b[lo:hi]]: out of range it panics. *)
Definition slice {A} (lo hi : Z) (l : list A) : res (list A) :=
  if (0 <=? lo) && (lo <=? hi) && (hi <=? blen l)
  then Ok (take (Z.to_nat (hi - lo)) (drop (Z.to_nat lo) l))
  else Panic.

(** [b[lo:hi]] of an array, with constant bounds the compiler has checked. *)
Definition sub {A} (lo hi : nat) (l : list A) : list A := take (hi - lo) (drop lo l).

(** [b[i]]: out of range it panics. *)
Definition index {A} (i : Z) (l : list A) : res A :=
  if 0 <=? i then
    match l !! Z.to_nat i with
    | Some a => Ok a
    | None => Panic
    end
  else Panic.

(** ** A state and error monad *)
Definition M (St A : Type) : Type := St -> St * res A.

#[export] Instance M_ret {St} : MRet (M St) := fun A a s => (s, Ok a).
#[export] Instance M_bind {St} : MBind (M St) := fun A B f m s =>
  match m s with
  | (s', Ok a) => f a s'
  | (s', Err e) => (s', Err e)
  | (s', Panic) => (s', Panic)
  end.

(** A primitive action. *)
Definition act {St A} (f : St -> St * res A) : M St A := f.

Definition throw {St A} (e : error) : M St A := fun s => (s, Err e).
Definition lift_res {St A} (r : res A) : M St A := fun s => (s, r).
Definition get {St} : M St St := fun s => (s, Ok s).
Definition put {St} (s : St) : M St unit := fun _ => (s, Ok tt).
Definition modify {St} (f : St -> St) : M St unit := fun s => (f s, Ok tt).

(** [x, err := m] followed by a test of [err]: errors become values, panics do
    not. *)
Definition attempt {St A} (m : M St A) : M St (error + A) := fun s =>
  match m s with
  | (s', Ok a) => (s', Ok (inr a))
  | (s', Err e) => (s', Ok (inl e))
  | (s', Panic) => (s', Panic)
  end.

(** [if err != nil { return fmt.Errorf(fmt, err) }]. *)
Definition wrapping {St A} (fmt : string) (m : M St A) : M St A := fun s =>
  match m s with
  | (s', Err e) => (s', Err (Errorf fmt e))
  | r => r
  end.
Arguments wrapping {St A} fmt%_string_scope m.

(** [if err != nil { return fmt.Errorf("%w: ...: %v", sentinel, err) }]: the
    new error wraps the sentinel, not [err]. *)
Definition failing_as {St A} (e : error) (m : M St A) : M St A := fun s =>
  match m s with
  | (s', Err _) => (s', Err e)
  | r => r
  end.

(** [_ = m]: the error is dropped. *)
Definition ignore {St A} (m : M St A) : M St unit :=
  attempt m ≫= fun _ => mret tt.

(** [for _, a := range l { body }], stopping at the first error. *)
Fixpoint range_loop {St A} (l : list A) (body : A -> M St unit) : M St unit :=
  match l with
  | [] => mret tt
  | a :: l' => body a ≫= fun _ => range_loop l' body
  end.

(** Running a computation on a part of the state. *)
Definition zoom {St Sub A} (sel : St -> Sub) (upd : Sub -> St -> St)
    (m : M Sub A) : M St A := fun s =>
  match m (sel s) with
  | (sub, r) => (upd sub s, r)
  end.

(** ** Map iteration

    [for k, v := range m] visits a Go map in an order the language leaves
    open.  A class instance is one such choice; theorems hold for all of them. *)
Class GoRange (K : Type) `{Countable K} := {
  go_range : forall {V}, gmap K V -> list (K * V);
  go_range_perm : forall {V} (m : gmap K V), go_range m ≡ₚ map_to_list m;
}.

(** One such order, to run the definitions with. *)
Program Definition key_order {K : Type} `{Countable K} : GoRange K :=
  {| go_range := fun V m => map_to_list m |}.
Next Obligation. done. Qed.

(** ** Readers ([io.Reader])

    A reader is the bytes it will still deliver and the error it reports after
    them ([io.EOF] for a file or buffer read to its end). *)
Definition EOF : error := errors_New "EOF".
Definition ErrUnexpectedEOF : error := errors_New "unexpected EOF".

Record ioReader := MkIoReader { rem : bytes; rerr : error }.

(** [io.ReadFull(r, buf)] with [len(buf) = n]. *)
Definition ReadFull (n : Z) : M ioReader bytes := fun r =>
  if n <=? 0 then (r, Ok [])
  else if n <=? blen (rem r) then
    (MkIoReader (drop (Z.to_nat n) (rem r)) (rerr r), Ok (take (Z.to_nat n) (rem r)))
  else
    (MkIoReader [] (rerr r),
     Err (if bool_decide (rerr r = EOF)
          then (if bool_decide (rem r = []) then EOF else ErrUnexpectedEOF)
          else rerr r)).

(** ** Writers ([io.Writer])

    [w_Write b] writes [b] and returns the number of bytes written. *)
Class Writer (St : Type) := w_Write : bytes -> M St Z.

(** [bytes.Buffer] as a writer: it appends and never fails. *)
#[export] Instance Buffer_Writer : Writer bytes := fun b s => (s ++ b, Ok (blen b)).

(** The contract of a writer: from the state [emit a] that has taken the bytes
    [a], it takes [b] whole as long as there is room. *)
Class WriterSpec {St : Type} {W : Writer St} (emit : bytes -> St) (fits : bytes -> Prop) := {
  writer_fits_app : forall a b, fits (a ++ b) -> fits a;
  writer_emit : forall a b, fits (a ++ b) -> w_Write b (emit a) = (emit (a ++ b), Ok (blen b));
}.

#[export] Instance Buffer_WriterSpec : WriterSpec (fun a : bytes => a) (fun _ => True).
Proof. by split. Qed.

(** ** Lemmas *)

Create HintDb bitcask.
Create Rewrite HintDb blen.

Lemma blen_nonneg {A} (l : list A) : 0 <= blen l.
Proof. unfold blen; lia. Qed.

Lemma blen_app {A} (l k : list A) : blen (l ++ k) = blen l + blen k.
Proof. unfold blen; rewrite length_app; lia. Qed.

Lemma blen_cons {A} (a : A) l : blen (a :: l) = 1 + blen l.
Proof. unfold blen; cbn [length]; lia. Qed.

Lemma blen_nil {A} : blen (@nil A) = 0.
Proof. done. Qed.

Lemma blen_zero_inv {A} (l : list A) : blen l = 0 -> l = [].
Proof. unfold blen; destruct l; cbn [length]; [done | lia]. Qed.

Lemma to_nat_blen {A} (l : list A) : Z.to_nat (blen l) = length l.
Proof. unfold blen; lia. Qed.

Lemma byteZ_range b : 0 <= byteZ b < 256.
Proof.
  unfold byteZ. split; [lia|].
  pose proof (Byte.to_N_bounded b). lia.
Qed.

Lemma byteZ_inj b1 b2 : byteZ b1 = byteZ b2 -> b1 = b2.
Proof.
  unfold byteZ. intros H%N2Z.inj.
  pose proof (Byte.of_to_N b1) as H1. pose proof (Byte.of_to_N b2) as H2.
  rewrite H in H1. congruence.
Qed.

Lemma byteZ_Zbyte z : byteZ (Zbyte z) = z mod 256.
Proof.
  unfold Zbyte, byteZ. pose proof (Z.mod_pos_bound z 256 ltac:(lia)) as Hb.
  destruct (Byte.of_N _) as [b|] eqn:E.
  - rewrite (Byte.to_of_N _ E). lia.
  - apply Byte.of_N_None_iff in E. lia.
Qed.

Lemma Zbyte_byteZ b : Zbyte (byteZ b) = b.
Proof.
  apply byteZ_inj. rewrite byteZ_Zbyte. apply Z.mod_small, byteZ_range.
Qed.

Lemma u32_small z : 0 <= z < 2 ^ 32 -> u32 z = z.
Proof. apply Z.mod_small. Qed.

Lemma u64_small z : 0 <= z < 2 ^ 64 -> u64 z = z.
Proof. apply Z.mod_small. Qed.

Lemma i64_small z : - 2 ^ 63 <= z < 2 ^ 63 -> i64 z = z.
Proof. unfold i64. intros. rewrite Z.mod_small; lia. Qed.

Lemma u32_range z : 0 <= u32 z < 2 ^ 32.
Proof. apply Z.mod_pos_bound. lia. Qed.

Lemma u64_range z : 0 <= u64 z < 2 ^ 64.
Proof. apply Z.mod_pos_bound. lia. Qed.

Lemma i64_range z : - 2 ^ 63 <= i64 z < 2 ^ 63.
Proof. unfold i64. pose proof (Z.mod_pos_bound (z + 2 ^ 63) (2 ^ 64)). lia. Qed.

(** [int64(uint64(z))] is [z] for an int64 [z]. *)
Lemma i64_u64 z : i64 (u64 z) = i64 z.
Proof. unfold i64, u64. by rewrite Zplus_mod_idemp_l. Qed.

Lemma length_be_put n v : length (be_put n v) = n.
Proof. induction n; cbn; congruence. Qed.

Lemma blen_be_put n v : blen (be_put n v) = Z.of_nat n.
Proof. unfold blen. by rewrite length_be_put. Qed.

Lemma be_get_range l : 0 <= be_get l < 256 ^ blen l.
Proof.
  induction l as [|b l IH]; [done|]. cbn [be_get]. rewrite blen_cons.
  rewrite Z.pow_add_r by (pose proof (blen_nonneg l); lia).
  pose proof (byteZ_range b). nia.
Qed.

Lemma be_get_put n v : be_get (be_put n v) = v mod 256 ^ Z.of_nat n.
Proof.
  induction n as [|n IH]; [cbn; by rewrite Z.mod_1_r|].
  cbn [be_put be_get]. rewrite byteZ_Zbyte, blen_be_put, IH.
  replace (Z.of_nat (S n)) with (Z.of_nat n + 1) by lia.
  rewrite Z.pow_add_r by lia.
  rewrite Z.pow_1_r, Z.rem_mul_r by lia. ring.
Qed.

(** The high digits do not matter to [be_put]. *)
Lemma be_put_add n p v x :
  (n <= p)%nat -> be_put n (v * 256 ^ Z.of_nat p + x) = be_put n x.
Proof.
  induction n as [|n IH]; intros Hle; [done|].
  cbn [be_put]. rewrite IH by lia. f_equal.
  apply byteZ_inj. rewrite !byteZ_Zbyte.
  replace (v * 256 ^ Z.of_nat p)
    with ((v * 256 ^ (Z.of_nat p - Z.of_nat n - 1) * 256) * 256 ^ Z.of_nat n).
  - rewrite Z.div_add_l by lia. rewrite Z.add_comm. apply Z.mod_add; lia.
  - rewrite <- !Z.mul_assoc. f_equal.
    rewrite <- (Z.pow_succ_r 256) by lia. rewrite <- Z.pow_add_r by lia.
    f_equal. lia.
Qed.

Lemma be_put_get l : be_put (length l) (be_get l) = l.
Proof.
  induction l as [|b l IH]; [done|]. cbn [be_get length be_put].
  pose proof (be_get_range l) as Hr. unfold blen in *. f_equal.
  - apply byteZ_inj. rewrite byteZ_Zbyte.
    rewrite Z.div_add_l, (Z.div_small (be_get l)), Z.add_0_r by lia.
    apply Z.mod_small, byteZ_range.
  - by rewrite be_put_add.
Qed.

Lemma be_get_inj l1 l2 : length l1 = length l2 -> be_get l1 = be_get l2 -> l1 = l2.
Proof.
  intros Hl Hg. rewrite <- (be_put_get l1), <- (be_put_get l2). congruence.
Qed.

Lemma flag_byte_eqb t : bool_decide (flag_byte t = Byte.x01) = t.
Proof. by destruct t. Qed.

(** *** Lists *)

Lemma filter_all {A} (P : A -> Prop) `{!forall x, Decision (P x)} (l : list A) :
  Forall P l -> filter P l = l.
Proof.
  induction 1 as [|x l Hx _ IH]; [done|]. rewrite filter_cons_True by done. by rewrite IH.
Qed.

(** *** Slices *)

Lemma take_blen_app {A} (l k : list A) n :
  n = blen l -> take (Z.to_nat n) (l ++ k) = l.
Proof. intros ->. rewrite to_nat_blen. apply take_app_length. Qed.

Lemma drop_blen_app {A} (l k : list A) n :
  n = blen l -> drop (Z.to_nat n) (l ++ k) = k.
Proof. intros ->. rewrite to_nat_blen. apply drop_app_length. Qed.

(** The slice in the middle of a concatenation. *)
Lemma slice_app {A} (pre mid post : list A) lo hi :
  lo = blen pre -> hi = blen pre + blen mid ->
  slice lo hi (pre ++ mid ++ post) = Ok mid.
Proof.
  intros -> ->. unfold slice.
  pose proof (blen_nonneg pre). pose proof (blen_nonneg mid).
  pose proof (blen_nonneg post).
  rewrite !blen_app.
  destruct (Z.leb_spec 0 (blen pre)); [|lia].
  destruct (Z.leb_spec (blen pre) (blen pre + blen mid)); [|lia].
  destruct (Z.leb_spec (blen pre + blen mid) (blen pre + (blen mid + blen post)));
    [|lia].
  cbn. rewrite drop_blen_app by done.
  rewrite take_blen_app by lia. done.
Qed.

Lemma slice_Ok {A} lo hi (l : list A) :
  0 <= lo -> lo <= hi -> hi <= blen l ->
  slice lo hi l = Ok (take (Z.to_nat (hi - lo)) (drop (Z.to_nat lo) l)).
Proof.
  intros. unfold slice.
  destruct (Z.leb_spec 0 lo); [|lia]. destruct (Z.leb_spec lo hi); [|lia].
  destruct (Z.leb_spec hi (blen l)); [done|lia].
Qed.

Lemma slice_total {A} lo hi (l : list A) :
  0 <= lo -> lo <= hi -> hi <= blen l ->
  exists s, slice lo hi l = Ok s /\ blen s = hi - lo.
Proof.
  intros. rewrite slice_Ok by done. eexists; split; [done|].
  unfold blen in *. rewrite length_take, length_drop. lia.
Qed.

(** Reading a field out of a buffer laid out as consecutive fields. *)
Lemma sub_app {A} (pre mid post : list A) lo hi :
  lo = length pre -> hi = (length pre + length mid)%nat ->
  sub lo hi (pre ++ mid ++ post) = mid.
Proof.
  intros -> ->. unfold sub. rewrite drop_app_length.
  apply take_app_length'. lia.
Qed.

(** *** The monads *)

Lemma res_bind_Ok {A B} (r : res A) (f : A -> res B) b :
  r ≫= f = Ok b -> exists a, r = Ok a /\ f a = Ok b.
Proof. destruct r; cbn; [by eauto | done | done]. Qed.

Lemma M_bind_Ok {St A B} (m : M St A) (f : A -> M St B) s s' a :
  m s = (s', Ok a) -> (m ≫= f) s = f a s'.
Proof. intros H. unfold mbind, M_bind. by rewrite H. Qed.

Lemma M_bind_Err {St A B} (m : M St A) (f : A -> M St B) s s' e :
  m s = (s', Err e) -> (m ≫= f) s = (s', Err e).
Proof. intros H. unfold mbind, M_bind. by rewrite H. Qed.

Lemma M_bind_inv {St A B} (m : M St A) (f : A -> M St B) s s' b :
  (m ≫= f) s = (s', Ok b) -> exists s1 a, m s = (s1, Ok a) /\ f a s1 = (s', Ok b).
Proof.
  unfold mbind, M_bind. destruct (m s) as [s1 [a|e|]]; [|congruence|congruence].
  eauto.
Qed.

Lemma M_bind_assoc {St A B C} (m : M St A) (f : A -> M St B) (g : B -> M St C) s :
  ((m ≫= f) ≫= g) s = (m ≫= (fun a => f a ≫= g)) s.
Proof. unfold mbind, M_bind. by destruct (m s) as [? []]. Qed.

Lemma lift_bind_Ok {St A B} (r : res A) a (f : A -> M St B) s :
  r = Ok a -> (lift_res r ≫= f) s = f a s.
Proof. by intros ->. Qed.

Lemma attempt_Ok {St A} (m : M St A) s s' a :
  m s = (s', Ok a) -> attempt m s = (s', Ok (inr a)).
Proof. intros H. unfold attempt. by rewrite H. Qed.

Lemma attempt_Err {St A} (m : M St A) s s' e :
  m s = (s', Err e) -> attempt m s = (s', Ok (inl e)).
Proof. intros H. unfold attempt. by rewrite H. Qed.

Lemma ignore_Ok {St A} (m : M St A) s s' a :
  m s = (s', Ok a) -> ignore m s = (s', Ok tt).
Proof. intros H. unfold ignore. by rewrite (M_bind_Ok _ _ _ _ _ (attempt_Ok _ _ _ _ H)). Qed.

Lemma wrapping_Ok {St A} fmt (m : M St A) s s' a :
  m s = (s', Ok a) -> wrapping fmt m s = (s', Ok a).
Proof. intros H. unfold wrapping. by rewrite H. Qed.

Lemma failing_as_Ok {St A} e (m : M St A) s s' a :
  m s = (s', Ok a) -> failing_as e m s = (s', Ok a).
Proof. intros H. unfold failing_as. by rewrite H. Qed.

Lemma failing_as_Err {St A} e e' (m : M St A) s s' :
  m s = (s', Err e') -> failing_as e m s = (s', Err e).
Proof. intros H. unfold failing_as. by rewrite H. Qed.

Lemma range_loop_app {St A} (l k : list A) (body : A -> M St unit) s s' :
  range_loop l body s = (s', Ok tt) ->
  range_loop (l ++ k) body s = range_loop k body s'.
Proof.
  revert s. induction l as [|a l IH]; intros s H; cbn in *; [by injection H as ->|].
  apply M_bind_inv in H as (s1 & [] & Ha & Hl).
  rewrite (M_bind_Ok _ _ _ _ _ Ha). by apply IH.
Qed.

(** One step of a monadic computation whose first action is known. *)
Ltac mstep H := rewrite (M_bind_Ok _ _ _ _ _ H).

(** Invert every successful bind in the context. *)
Ltac inv_ok :=
  repeat match goal with
  | H : (_ ≫= _) _ = (_, Ok _) |- _ =>
      let s := fresh "s" in let a := fresh "a" in let Ha := fresh "Ha" in
      apply M_bind_inv in H as (s & a & Ha & H)
  | H : _ ≫= _ = Ok _ |- _ =>
      let a := fresh "a" in let Ha := fresh "Ha" in
      apply res_bind_Ok in H as (a & Ha & H)
  end.

(** *** Readers *)

Lemma ReadFull_app n l k e :
  0 <= n -> blen l = n -> ReadFull n (MkIoReader (l ++ k) e) = (MkIoReader k e, Ok l).
Proof.
  intros Hn Hl. unfold ReadFull. cbn [rem rerr].
  destruct (Z.leb_spec n 0).
  - assert (l = []) as -> by (apply blen_zero_inv; lia). done.
  - rewrite blen_app. pose proof (blen_nonneg k).
    destruct (Z.leb_spec n (blen l + blen k)); [|lia].
    by rewrite drop_blen_app, take_blen_app.
Qed.

(** The error of a [ReadFull] that finds only [l]. *)
Definition short_err (e : error) (l : bytes) : error :=
  if bool_decide (e = EOF)
  then (if bool_decide (l = []) then EOF else ErrUnexpectedEOF)
  else e.

Lemma ReadFull_short n l e :
  blen l < n -> ReadFull n (MkIoReader l e) = (MkIoReader [] e, Err (short_err e l)).
Proof.
  intros H. unfold ReadFull. cbn [rem rerr]. pose proof (blen_nonneg l).
  destruct (Z.leb_spec n 0); [lia|]. by destruct (Z.leb_spec n (blen l)); [lia|].
Qed.

(** A successful [ReadFull] splits the reader's bytes. *)
Lemma ReadFull_inv n r r' b :
  0 <= n -> ReadFull n r = (r', Ok b) ->
  rem r = b ++ rem r' /\ rerr r' = rerr r /\ blen b = n.
Proof.
  intros Hn. unfold ReadFull. destruct r as [l e]; cbn [rem rerr].
  destruct (Z.leb_spec n 0).
  - intros [= <- <-]. cbn. by rewrite blen_nil; repeat split; lia.
  - destruct (Z.leb_spec n (blen l)); [|intros [=]].
    intros [= <- <-]. cbn [rem rerr]. rewrite take_drop. repeat split; try done.
    unfold blen in *. rewrite length_take. lia.
Qed.

Lemma ReadFull_not_Panic n r : (ReadFull n r).2 <> Panic.
Proof. unfold ReadFull. by repeat case_match. Qed.

(** *** The byte-string order *)

Lemma bytes_leb_refl a : bytes_leb a a = true.
Proof.
  induction a as [|x a IH]; [done|]. cbn.
  by rewrite Z.ltb_irrefl, Z.eqb_refl.
Qed.

#[export] Instance bytes_le_trans : Transitive bytes_le.
Proof.
  unfold bytes_le. intros a. induction a as [|x a IH]; intros [|y b] [|z c]; cbn;
    try done.
  destruct (Z.ltb_spec (byteZ x) (byteZ y)), (Z.ltb_spec (byteZ y) (byteZ z)),
    (Z.ltb_spec (byteZ x) (byteZ z)), (Z.eqb_spec (byteZ x) (byteZ y)),
    (Z.eqb_spec (byteZ y) (byteZ z)), (Z.eqb_spec (byteZ x) (byteZ z));
    try done; try lia; eauto.
Qed.

#[export] Instance bytes_le_antisymm : AntiSymm (=) bytes_le.
Proof.
  unfold bytes_le. intros a. induction a as [|x a IH]; intros [|y b]; cbn; try done.
  destruct (Z.ltb_spec (byteZ x) (byteZ y)), (Z.ltb_spec (byteZ y) (byteZ x)),
    (Z.eqb_spec (byteZ x) (byteZ y)), (Z.eqb_spec (byteZ y) (byteZ x));
    try done; try lia; intros.
  f_equal; [by apply byteZ_inj | by apply IH].
Qed.

#[export] Instance bytes_le_total : Total bytes_le.
Proof.
  unfold bytes_le. intros a. induction a as [|x a IH]; intros [|y b]; cbn; auto.
  destruct (Z.ltb_spec (byteZ x) (byteZ y)), (Z.ltb_spec (byteZ y) (byteZ x)),
    (Z.eqb_spec (byteZ x) (byteZ y)), (Z.eqb_spec (byteZ y) (byteZ x)); auto; lia.
Qed.

#[export] Instance Zle_total : Total Z.le.
Proof. intros a b. lia. Qed.

#[export] Instance Zle_antisymm : AntiSymm (=) Z.le.
Proof. intros a b ??. lia. Qed.

(** Sorting does not depend on the order of the input: two lists with the same
    elements sort to the same list. *)
Lemma merge_sort_perm_eq {A} (R : relation A) `{!RelDecision R}
    `{!Transitive R} `{!Total R} `{!AntiSymm (=) R} (l k : list A) :
  l ≡ₚ k -> merge_sort R l = merge_sort R k.
Proof.
  intros H. apply (Sorted_unique R); try apply (Sorted_merge_sort R).
  by rewrite !merge_sort_Permutation.
Qed.

(** Inserting a list with distinct keys into a map. *)
Lemma foldl_insert_lookup {K A V} `{Countable K} (g : A -> K) (h : A -> V) (l : list A)
    (m : gmap K V) k v :
  NoDup (g <$> l) ->
  (foldl (fun m a => <[g a := h a]> m) m l) !! k = Some v <->
  (exists a, a ∈ l /\ g a = k /\ h a = v) \/ ((k ∉ g <$> l) /\ m !! k = Some v).
Proof.
  revert m. induction l as [|a l IH]; intros m Hnd; cbn [foldl].
  { split; [intros Hk; right; split; [by intros ?%elem_of_nil|done]|].
    intros [(a & Ha & _)|[_ Hk]]; [inversion Ha|done]. }
  rewrite fmap_cons in *. apply NoDup_cons in Hnd as [Ha Hnd]. rewrite IH by done.
  rewrite lookup_insert_Some. split.
  - intros [(b & Hb & Hg & Hh)|[Hk [[Hg Hh]|[Hg Hm]]]].
    + left. exists b. split_and!; [by right|done|done].
    + left. exists a. split_and!; [by left|done|done].
    + right. split; [|done]. apply not_elem_of_cons. split; [congruence|done].
  - intros [(b & Hb & Hg & Hh)|[Hk Hm]].
    + apply elem_of_cons in Hb as [->|Hb]; [|left; by exists b].
      right. split; [congruence|]. by left.
    + apply not_elem_of_cons in Hk as [Hne Hk]. right. split; [done|]. right.
      split; [congruence|done].
Qed.

(** A sorted list is the sorting of any permutation of it. *)
Lemma merge_sort_unique {A} (R : relation A) `{!RelDecision R}
    `{!Transitive R} `{!Total R} `{!AntiSymm (=) R} (l k : list A) :
  Sorted R l -> l ≡ₚ k -> merge_sort R k = l.
Proof.
  intros Hs H. apply (Sorted_unique R); [apply (Sorted_merge_sort R) | done |].
  by rewrite merge_sort_Permutation, H.
Qed.

#[export] Hint Resolve blen_nonneg byteZ_range u32_range u64_range i64_range : bitcask.
#[export] Hint Rewrite @blen_app @blen_cons @blen_nil blen_be_put : blen.

(** Lengths: push [blen] through the list operations, then [lia]. *)
Ltac blen_lia :=
  autorewrite with blen in *;
  repeat match goal with
  | |- context [blen ?l] =>
      lazymatch goal with
      | _ : 0 <= blen l |- _ => fail
      | _ => pose proof (blen_nonneg l)
      end
  end; lia.
