(* ===== verification/Crc32.v ===== *)
(** * CRC-32 (IEEE), as used by [log.Encode]/[log.Decode] and the codec package

    [hash/crc32] of the Go library, which the sources call: the reflected
    polynomial 0xedb88320, the 256-entry table, and the byte-at-a-time update.
    The second half proves what the framing relies on: the register update is
    injective, so an error burst confined to four consecutive bytes always
    changes the checksum. *)
From S2P Require Import Prelude.

Module Crc32.

(** [crc32.IEEE], the reversed polynomial. *)
Definition IEEE : Z := 0xedb88320.

(** One step of the table construction:
    [if crc&1 == 1 { crc = (crc >> 1) ^ poly } else { crc >>= 1 }]. *)
Definition crc_bit (c : Z) : Z :=
  if Z.odd c then Z.lxor (Z.shiftr c 1) IEEE else Z.shiftr c 1.

Definition table_entry (i : Z) : Z := Nat.iter 8 crc_bit i.

(** [crc = tab[byte(crc)^v] ^ (crc >> 8)]. *)
Definition crc_byte (c : Z) (v : byte) : Z :=
  Z.lxor (table_entry (Z.lxor (Z.land c 255) (byteZ v))) (Z.shiftr c 8).

Definition crc_loop (c : Z) (p : bytes) : Z := foldl crc_byte c p.

(** [^crc] on a uint32. *)
Definition not32 (c : Z) : Z := Z.lxor c (2 ^ 32 - 1).

(** [crc32.Update(crc, IEEETable, p)]. *)
Definition update (crc : Z) (p : bytes) : Z := not32 (crc_loop (not32 crc) p).

(** [crc32.ChecksumIEEE(data)]. *)
Definition ChecksumIEEE (data : bytes) : Z := update 0 data.

(** The check value of the CRC catalogue. *)
Example ChecksumIEEE_check : ChecksumIEEE (bs "123456789") = 0xcbf43926.
Proof. vm_compute. reflexivity. Qed.

(** ** Ranges *)

(** A nonnegative number is below [2^n] when its bits from [n] up are zero. *)
Lemma bits_bounded a n :
  0 <= n -> 0 <= a -> (forall i, n <= i -> Z.testbit a i = false) -> a < 2 ^ n.
Proof.
  intros Hn Ha Hb. destruct (Z.eq_dec a 0) as [->|]; [lia|].
  apply Z.log2_lt_pow2; [lia|]. destruct (Z.lt_ge_cases (Z.log2 a) n); [done|].
  pose proof (Z.bit_log2 a ltac:(lia)). rewrite Hb in *; [done|lia].
Qed.

Lemma testbit_high a n i : 0 <= a < 2 ^ n -> 0 <= n -> n <= i -> Z.testbit a i = false.
Proof.
  intros. rewrite <- (Z.mod_small a (2 ^ n)) by lia.
  apply Z.mod_pow2_bits_high. lia.
Qed.

Lemma lxor_range a b n :
  0 <= n -> 0 <= a < 2 ^ n -> 0 <= b < 2 ^ n -> 0 <= Z.lxor a b < 2 ^ n.
Proof.
  intros Hn Ha Hb. assert (0 <= Z.lxor a b) by (apply Z.lxor_nonneg; lia).
  split; [done|]. apply bits_bounded; [done|done|]. intros i Hi.
  by rewrite Z.lxor_spec, (testbit_high a n), (testbit_high b n).
Qed.

Lemma land_255 c : Z.land c 255 = c mod 2 ^ 8.
Proof. by rewrite <- Z.land_ones by lia. Qed.

Lemma index_range c v : 0 <= Z.lxor (Z.land c 255) (byteZ v) < 256.
Proof.
  apply (lxor_range _ _ 8); [lia| |apply byteZ_range].
  rewrite land_255. apply Z.mod_pos_bound; lia.
Qed.

(** The 256 indices of the table. *)
Definition indices : list Z := seqZ 0 256.

Lemma table_in_range i : 0 <= i < 256 -> 0 <= table_entry i < 2 ^ 32.
Proof.
  intros Hi.
  assert (Hall : forallb (fun j => (0 <=? table_entry j) && (table_entry j <? 2 ^ 32))
                  indices = true) by (vm_compute; reflexivity).
  rewrite forallb_forall in Hall.
  specialize (Hall i ltac:(apply list_elem_of_In, elem_of_seqZ; lia)).
  apply andb_true_iff in Hall as [?%Z.leb_le ?%Z.ltb_lt]. lia.
Qed.

(** The top bytes of the table entries are pairwise different, so the top byte
    of an entry determines its index. *)
Lemma table_top_inj i j :
  0 <= i < 256 -> 0 <= j < 256 ->
  Z.shiftr (table_entry i) 24 = Z.shiftr (table_entry j) 24 -> i = j.
Proof.
  intros Hi Hj He.
  assert (Hnd : NoDup ((fun k => Z.shiftr (table_entry k) 24) <$> indices)).
  { apply (bool_decide_unpack _). vm_compute. exact I. }
  assert (Hl : forall k, 0 <= k < 256 ->
    ((fun k => Z.shiftr (table_entry k) 24) <$> indices) !! Z.to_nat k
    = Some (Z.shiftr (table_entry k) 24)).
  { intros k Hk. rewrite list_lookup_fmap. unfold indices.
    rewrite lookup_seqZ_lt by lia. cbn [fmap option_fmap option_map]. by rewrite Z2Nat.id, Z.add_0_l by lia. }
  pose proof (NoDup_lookup _ (Z.to_nat i) (Z.to_nat j) _ Hnd (Hl i Hi)
    ltac:(rewrite Hl by done; by rewrite He)). lia.
Qed.

Lemma crc_byte_range c v : 0 <= c < 2 ^ 32 -> 0 <= crc_byte c v < 2 ^ 32.
Proof.
  intros Hc. apply lxor_range; [lia| apply table_in_range, index_range |].
  rewrite Z.shiftr_div_pow2 by lia.
  change (2 ^ 8) with 256. change (2 ^ 32) with 4294967296 in *.
  split; [apply Z.div_pos; lia | apply Z.div_lt_upper_bound; lia].
Qed.

Lemma crc_loop_range c p : 0 <= c < 2 ^ 32 -> 0 <= crc_loop c p < 2 ^ 32.
Proof.
  revert c. induction p as [|v p IH]; intros c Hc; [done|].
  cbn. by apply IH, crc_byte_range.
Qed.

Lemma not32_range c : 0 <= c < 2 ^ 32 -> 0 <= not32 c < 2 ^ 32.
Proof. intros. apply lxor_range; lia. Qed.

Lemma not32_involutive c : not32 (not32 c) = c.
Proof. unfold not32. by rewrite Z.lxor_assoc, Z.lxor_nilpotent, Z.lxor_0_r. Qed.

Lemma update_range crc p : 0 <= crc < 2 ^ 32 -> 0 <= update crc p < 2 ^ 32.
Proof. intros. by apply not32_range, crc_loop_range, not32_range. Qed.

Lemma ChecksumIEEE_range p : 0 <= ChecksumIEEE p < 2 ^ 32.
Proof. apply update_range. lia. Qed.

(** ** Injectivity *)

(** The low [8*k] bits of two registers may differ ([k <= 3]): equal high bits
    after a byte give the same table index and equal high bits before it. *)
Lemma crc_byte_back c c' v v' k :
  0 <= c < 2 ^ 32 -> 0 <= c' < 2 ^ 32 -> 0 <= k <= 3 ->
  Z.shiftr (crc_byte c v) (8 * k) = Z.shiftr (crc_byte c' v') (8 * k) ->
  Z.lxor (Z.land c 255) (byteZ v) = Z.lxor (Z.land c' 255) (byteZ v')
  /\ Z.shiftr c (8 * (k + 1)) = Z.shiftr c' (8 * (k + 1)).
Proof.
  intros Hc Hc' Hk He.
  assert (Hi : Z.lxor (Z.land c 255) (byteZ v) = Z.lxor (Z.land c' 255) (byteZ v')).
  { apply table_top_inj; try apply index_range.
    assert (Htop : forall x b, 0 <= x < 2 ^ 32 ->
      Z.shiftr (crc_byte x b) 24 = Z.shiftr (table_entry (Z.lxor (Z.land x 255) (byteZ b))) 24).
    { intros x b Hx. unfold crc_byte. rewrite Z.shiftr_lxor, Z.shiftr_shiftr by lia.
      rewrite (Z.shiftr_div_pow2 x), (Z.div_small x) by lia. by rewrite Z.lxor_0_r. }
    rewrite <- (Htop c v), <- (Htop c' v') by done.
    replace 24 with (8 * k + (24 - 8 * k)) by lia.
    rewrite <- !Z.shiftr_shiftr by lia. by rewrite He. }
  split; [done|].
  unfold crc_byte in He. rewrite Hi in He. rewrite !Z.shiftr_lxor in He.
  apply (f_equal (Z.lxor (Z.shiftr (table_entry
    (Z.lxor (Z.land c' 255) (byteZ v'))) (8 * k)))) in He.
  rewrite <- !Z.lxor_assoc, Z.lxor_nilpotent, !Z.lxor_0_l in He.
  rewrite !Z.shiftr_shiftr in He by lia. by replace (8 * (k + 1)) with (8 + 8 * k) by lia.
Qed.

Lemma shiftr_land_eq c c' :
  Z.shiftr c 8 = Z.shiftr c' 8 -> Z.land c 255 = Z.land c' 255 -> c = c'.
Proof.
  intros Hs Hl. rewrite !land_255 in Hl.
  rewrite !Z.shiftr_div_pow2 in Hs by lia.
  rewrite (Z.div_mod c (2 ^ 8)), (Z.div_mod c' (2 ^ 8)) by lia. congruence.
Qed.

Lemma lxor_cancel_r a b c : Z.lxor a c = Z.lxor b c -> a = b.
Proof.
  intros H. apply (f_equal (fun x => Z.lxor x c)) in H.
  by rewrite !Z.lxor_assoc, Z.lxor_nilpotent, !Z.lxor_0_r in H.
Qed.

Lemma lxor_cancel_l a b c : Z.lxor c a = Z.lxor c b -> a = b.
Proof. rewrite !(Z.lxor_comm c). apply lxor_cancel_r. Qed.

(** The register update is injective in the register. *)
Lemma crc_byte_inj c c' v :
  0 <= c < 2 ^ 32 -> 0 <= c' < 2 ^ 32 -> crc_byte c v = crc_byte c' v -> c = c'.
Proof.
  intros Hc Hc' He.
  destruct (crc_byte_back c c' v v 0 Hc Hc' ltac:(lia)) as [Hi Hs].
  { by rewrite !Z.shiftr_0_r. }
  apply shiftr_land_eq; [done|]. by apply lxor_cancel_r in Hi.
Qed.

Lemma crc_loop_inj c c' p :
  0 <= c < 2 ^ 32 -> 0 <= c' < 2 ^ 32 -> crc_loop c p = crc_loop c' p -> c = c'.
Proof.
  revert c c'. induction p as [|v p IH]; intros c c' Hc Hc' He; [done|].
  cbn in He. apply (crc_byte_inj _ _ v); [done..|].
  apply IH; [by apply crc_byte_range..|done].
Qed.

(** Two strings of the same length, at most four bytes, run from the same
    register to the same register only if they are equal.  The induction runs
    from the right, forgetting eight more bits of the registers at each byte. *)
Lemma crc_loop_burst_aux x y c k :
  length x = length y -> 0 <= c < 2 ^ 32 -> 0 <= k -> k + blen x <= 4 ->
  Z.shiftr (crc_loop c x) (8 * k) = Z.shiftr (crc_loop c y) (8 * k) -> x = y.
Proof.
  revert y k. induction x as [|a x IH] using rev_ind; intros y k Hl Hc Hk Hn He.
  { by destruct y. }
  destruct y as [|b y _] using rev_ind; [rewrite length_app in Hl; cbn in Hl; lia|].
  rewrite !length_app in Hl. cbn in Hl.
  unfold crc_loop in He. rewrite !foldl_app in He. cbn [foldl] in He.
  rewrite blen_app, blen_cons, blen_nil in Hn. pose proof (blen_nonneg x).
  apply crc_byte_back in He as [Hi Hs]; [|by apply crc_loop_range..|lia].
  assert (x = y) as <- by (apply (IH _ (k + 1)); [lia|done|lia|lia|done]).
  apply lxor_cancel_l, byteZ_inj in Hi. by subst.
Qed.

Lemma crc_loop_burst x y c :
  length x = length y -> 0 <= c < 2 ^ 32 -> blen x <= 4 ->
  crc_loop c x = crc_loop c y -> x = y.
Proof.
  intros. apply (crc_loop_burst_aux x y c 0); [done|done|lia|lia|].
  by rewrite !Z.shiftr_0_r.
Qed.

(** An error burst within four consecutive bytes changes the checksum. *)
Lemma ChecksumIEEE_burst pre x y post :
  length x = length y -> blen x <= 4 -> x <> y ->
  ChecksumIEEE (pre ++ x ++ post) <> ChecksumIEEE (pre ++ y ++ post).
Proof.
  intros Hl Hn Hne He. apply Hne. unfold ChecksumIEEE, update in He.
  apply (f_equal not32) in He. rewrite !not32_involutive in He.
  unfold crc_loop in He. rewrite !foldl_app in He. fold (crc_loop (not32 0) pre) in He.
  assert (Hr : 0 <= crc_loop (not32 0) pre < 2 ^ 32)
    by (apply crc_loop_range, not32_range; lia).
  apply crc_loop_inj in He; [|by apply crc_loop_range..].
  by apply crc_loop_burst in He.
Qed.

(** Running the update over a concatenation. *)
Lemma update_app crc a b : update crc (a ++ b) = update (update crc a) b.
Proof. unfold update, crc_loop. by rewrite not32_involutive, foldl_app. Qed.

End Crc32.

#[export] Hint Resolve Crc32.ChecksumIEEE_range : bitcask.
