(* ===== verification/LogEntry.v ===== *)
(** * Record framing: internal/log/entry.go

    A record is framed as [crc32:4][keylen:4][vallen:4][tombstone:1]
    [reserved:4][key][value].  [Encode] and [Decode] are translated with Go's
    slicing, whose bounds checks can panic; the lemmas give the outcome of
    [Decode] on every input. *)
From S2P Require Import Prelude Crc32.
Import Crc32.

Module LogEntry.

Definition ErrChecksum : error := errors_New "log: record checksum mismatch".
Definition ErrCorrupt : error := errors_New "log: corrupt or truncated record".

Definition headerSize : Z := 13.

Record Entry := MkEntry {
  Key : bytes;
  Value : bytes;
  Tombstone : bool;
  FileID : Z;
  Offset : Z;
  Size : Z;
}.

Record header := MkHeader {
  keyLen : Z;
  valueLen : Z;
  tombstone : bool;
}.

(** [var b [13]byte]: the last four bytes stay zero. *)
Definition encodeHeader (h : header) : bytes :=
  be_put 4 (keyLen h) ++ be_put 4 (valueLen h) ++ [flag_byte (tombstone h)]
  ++ replicate 4 Byte.x00.

Definition decodeHeader (b : bytes) : res header :=
  kl ← slice 0 4 b;
  vl ← slice 4 8 b;
  t ← index 8 b;
  mret {| keyLen := be_get kl; valueLen := be_get vl;
          tombstone := bool_decide (t = Byte.x01) |}.

Definition checksumPayload (h : header) (key value : bytes) : bytes :=
  encodeHeader h ++ key ++ value.

(** [header{keyLen: uint32(len(key)), valueLen: uint32(len(value)), ...}]. *)
Definition header_of (key value : bytes) (t : bool) : header :=
  {| keyLen := u32 (blen key); valueLen := u32 (blen value); tombstone := t |}.

Definition ComputeCRC (key value : bytes) (t : bool) : Z :=
  ChecksumIEEE (checksumPayload (header_of key value t) key value).

Definition Encode (key value : bytes) (t : bool) : bytes :=
  let body := checksumPayload (header_of key value t) key value in
  be_put 4 (ChecksumIEEE body) ++ body.

Definition Decode (data : bytes) : res Entry :=
  if blen data <? headerSize + 4 then Err ErrCorrupt
  else
    c ← slice 0 4 data;
    hb ← slice 4 (4 + headerSize) data;
    h ← decodeHeader hb;
    let total := i64 (headerSize + keyLen h + valueLen h) in
    if (total <? headerSize) || (blen data <? 4 + total) then Err ErrCorrupt
    else
      key ← slice (4 + headerSize) (4 + headerSize + keyLen h) data;
      value ← slice (4 + headerSize + keyLen h) (4 + total) data;
      if ChecksumIEEE (checksumPayload h key value) =? be_get c then
        Ok {| Key := key; Value := value; Tombstone := tombstone h;
              FileID := 0; Offset := 0; Size := 4 + total |}
      else Err ErrChecksum.

Definition frameSize (kl vl : Z) : Z := 4 + headerSize + kl + vl.

(** Lengths that fit the frame's uint32 fields. *)
Definition fits (key value : bytes) : Prop :=
  blen key < 2 ^ 32 /\ blen value < 2 ^ 32.

(** ** Layout *)

Lemma blen_encodeHeader h : blen (encodeHeader h) = headerSize.
Proof. unfold encodeHeader. by rewrite !blen_app, !blen_be_put. Qed.

Lemma blen_Encode key value t :
  blen (Encode key value t) = frameSize (blen key) (blen value).
Proof.
  unfold Encode, checksumPayload, frameSize.
  rewrite !blen_app, blen_be_put, blen_encodeHeader. lia.
Qed.

(** A header's fields are the two integers and the flag byte; the reserved
    bytes [r] are not read. *)
Lemma decodeHeader_split kl vl t r :
  blen kl = 4 -> blen vl = 4 ->
  decodeHeader (kl ++ vl ++ [t] ++ r)
  = Ok {| keyLen := be_get kl; valueLen := be_get vl;
          tombstone := bool_decide (t = Byte.x01) |}.
Proof.
  intros Hk Hv. unfold decodeHeader.
  pose proof (slice_app [] kl (vl ++ [t] ++ r) 0 4 eq_refl ltac:(by rewrite Hk)) as H1.
  rewrite app_nil_l in H1. rewrite H1. cbn [mbind res_bind].
  rewrite (slice_app kl vl ([t] ++ r)) by lia. cbn [mbind res_bind].
  assert (index 8 (kl ++ vl ++ [t] ++ r) = Ok t) as ->; [|done].
  unfold index. change (0 <=? 8) with true. cbv iota. unfold blen in *.
  rewrite lookup_app_r, lookup_app_r by lia.
  by replace (Z.to_nat 8 - length kl - length vl)%nat with 0%nat by lia.
Qed.

Lemma decodeHeader_encodeHeader h :
  0 <= keyLen h < 2 ^ 32 -> 0 <= valueLen h < 2 ^ 32 ->
  decodeHeader (encodeHeader h) = Ok h.
Proof.
  intros Hk Hv. unfold encodeHeader. rewrite decodeHeader_split by done.
  rewrite !be_get_put, flag_byte_eqb. destruct h; cbn in *.
  change (256 ^ Z.of_nat 4) with (2 ^ 32). by rewrite !Z.mod_small.
Qed.

(** Thirteen bytes always decode; the lengths are 32-bit. *)
Lemma decodeHeader_total hb :
  blen hb = headerSize ->
  exists h, decodeHeader hb = Ok h
            /\ 0 <= keyLen h < 2 ^ 32 /\ 0 <= valueLen h < 2 ^ 32.
Proof.
  intros Hl. assert (length hb = 13%nat) as Hn by (unfold blen, headerSize in Hl; lia).
  clear Hl. do 13 (destruct hb as [|? hb]; [done|]). destruct hb; [|done].
  eexists; split; [by apply (decodeHeader_split [_;_;_;_] [_;_;_;_] _ [_;_;_;_])|].
  cbn [keyLen valueLen]. change (2 ^ 32) with (256 ^ 4).
  split; apply (be_get_range [_;_;_;_]).
Qed.

(** ** Decode on every input *)

Lemma Decode_short data : blen data < 17 -> Decode data = Err ErrCorrupt.
Proof.
  intros H. unfold Decode, headerSize. by destruct (Z.ltb_spec (blen data) (13 + 4)); [|lia].
Qed.

(** With at least a header, [Decode] reads the header's lengths. *)
Lemma Decode_header c hb post h :
  blen c = 4 -> blen hb = headerSize -> decodeHeader hb = Ok h ->
  Decode (c ++ hb ++ post) =
    if blen post <? keyLen h + valueLen h then Err ErrCorrupt
    else
      let key := take (Z.to_nat (keyLen h)) post in
      let value := take (Z.to_nat (valueLen h)) (drop (Z.to_nat (keyLen h)) post) in
      if ChecksumIEEE (checksumPayload h key value) =? be_get c then
        Ok {| Key := key; Value := value; Tombstone := tombstone h;
              FileID := 0; Offset := 0; Size := frameSize (keyLen h) (valueLen h) |}
      else Err ErrChecksum.
Proof.
  intros Hc Hhb Hh.
  destruct (decodeHeader_total hb Hhb) as (h' & Hh' & Hk & Hv).
  rewrite Hh in Hh'. injection Hh' as <-.
  unfold Decode, headerSize in *. pose proof (blen_nonneg post).
  rewrite !blen_app, Hc, Hhb.
  destruct (Z.ltb_spec (4 + (13 + blen post)) (13 + 4)); [lia|].
  pose proof (slice_app [] c (hb ++ post) 0 4 eq_refl ltac:(by rewrite Hc)) as H1.
  rewrite app_nil_l in H1. rewrite H1. cbn [mbind res_bind].
  rewrite (slice_app c hb post) by lia. cbn [mbind res_bind].
  rewrite Hh. cbn [mbind res_bind]. rewrite i64_small by lia.
  destruct (Z.ltb_spec (13 + keyLen h + valueLen h) 13); [lia|]. cbn [orb].
  destruct (Z.ltb_spec (4 + (13 + blen post)) (4 + (13 + keyLen h + valueLen h))),
    (Z.ltb_spec (blen post) (keyLen h + valueLen h)); try lia; [done|].
  rewrite !slice_Ok by (rewrite ?blen_app; lia). cbn [mbind res_bind].
  assert (Hd : forall n, 0 <= n ->
    drop (Z.to_nat (4 + 13 + n)) (c ++ hb ++ post) = drop (Z.to_nat n) post).
  { intros n Hn. unfold blen in *. rewrite app_assoc, drop_app_ge;
      rewrite length_app; [f_equal|]; lia. }
  replace (4 + 13 + keyLen h - (4 + 13)) with (keyLen h) by lia.
  replace (4 + (13 + keyLen h + valueLen h) - (4 + 13 + keyLen h)) with (valueLen h) by lia.
  rewrite Hd by lia.
  replace (Z.to_nat (4 + 13)) with (Z.to_nat (4 + 13 + 0)) by lia.
  rewrite (Hd 0), drop_0 by lia. unfold frameSize, headerSize.
  by replace (4 + (13 + keyLen h + valueLen h)) with (4 + 13 + keyLen h + valueLen h) by lia.
Qed.

(** A frame whose declared lengths match its payload. *)
Lemma Decode_frame c hb key value post h :
  blen c = 4 -> blen hb = headerSize -> decodeHeader hb = Ok h ->
  keyLen h = blen key -> valueLen h = blen value ->
  Decode (c ++ hb ++ key ++ value ++ post) =
    if ChecksumIEEE (checksumPayload h key value) =? be_get c then
      Ok {| Key := key; Value := value; Tombstone := tombstone h;
            FileID := 0; Offset := 0; Size := frameSize (blen key) (blen value) |}
    else Err ErrChecksum.
Proof.
  intros Hc Hhb Hh Hk Hv. rewrite (Decode_header c hb _ h) by done.
  rewrite Hk, Hv, !blen_app. pose proof (blen_nonneg post).
  destruct (Z.ltb_spec (blen key + (blen value + blen post)) (blen key + blen value));
    [lia|].
  by rewrite drop_blen_app, !take_blen_app.
Qed.

(** Every byte string of at least 17 bytes is a crc, a header and a rest. *)
Lemma split_frame (data : bytes) :
  17 <= blen data ->
  exists c hb post, data = c ++ hb ++ post /\ blen c = 4 /\ blen hb = headerSize.
Proof.
  intros H. exists (take 4 data), (take 13 (drop 4 data)), (drop 13 (drop 4 data)).
  rewrite !take_drop. unfold blen, headerSize in *.
  rewrite !length_take, length_drop. repeat split; lia.
Qed.

Lemma header_of_range key value t :
  0 <= keyLen (header_of key value t) < 2 ^ 32
  /\ 0 <= valueLen (header_of key value t) < 2 ^ 32.
Proof. split; apply u32_range. Qed.

Lemma header_of_fits key value t :
  fits key value ->
  keyLen (header_of key value t) = blen key /\ valueLen (header_of key value t) = blen value.
Proof. intros [Hk Hv]. split; apply u32_small; split; try done; apply blen_nonneg. Qed.

Lemma decodeHeader_header_of key value t :
  decodeHeader (encodeHeader (header_of key value t)) = Ok (header_of key value t).
Proof. by destruct (header_of_range key value t); apply decodeHeader_encodeHeader. Qed.

(** The frame [Encode] writes. *)
Lemma Encode_app key value t post :
  Encode key value t ++ post =
    be_put 4 (ComputeCRC key value t) ++ encodeHeader (header_of key value t)
    ++ key ++ value ++ post.
Proof. unfold Encode, checksumPayload. by rewrite !app_assoc. Qed.

Lemma be_get_put_crc p : be_get (be_put 4 (ChecksumIEEE p)) = ChecksumIEEE p.
Proof. rewrite be_get_put. apply Z.mod_small, ChecksumIEEE_range. Qed.

Lemma Decode_Encode key value t post :
  fits key value ->
  Decode (Encode key value t ++ post)
  = Ok {| Key := key; Value := value; Tombstone := t; FileID := 0; Offset := 0;
          Size := frameSize (blen key) (blen value) |}.
Proof.
  intros Hf. destruct (header_of_fits key value t Hf) as [Hk Hv].
  rewrite Encode_app.
  rewrite (Decode_frame _ _ key value post (header_of key value t));
    [|done|apply blen_encodeHeader|apply decodeHeader_header_of|done|done].
  unfold ComputeCRC. by rewrite be_get_put_crc, Z.eqb_refl.
Qed.

(** [Decode] accepts a frame exactly when the recomputed header checks. *)
Lemma Decode_Ok_inv data e :
  Decode data = Ok e ->
  exists c hb post h,
    data = c ++ hb ++ Key e ++ Value e ++ post
    /\ blen c = 4 /\ blen hb = headerSize /\ decodeHeader hb = Ok h
    /\ keyLen h = blen (Key e) /\ valueLen h = blen (Value e)
    /\ tombstone h = Tombstone e /\ be_get c = ChecksumIEEE (checksumPayload h (Key e) (Value e))
    /\ Size e = frameSize (blen (Key e)) (blen (Value e)).
Proof.
  intros H. destruct (Z.lt_ge_cases (blen data) 17); [by rewrite Decode_short in H|].
  destruct (split_frame data) as (c & hb & post & -> & Hc & Hhb); [done|].
  destruct (decodeHeader_total hb Hhb) as (h & Hh & Hk & Hv).
  rewrite (Decode_header _ _ _ h) in H by done. cbv zeta in H.
  destruct (Z.ltb_spec (blen post) (keyLen h + valueLen h)); [done|].
  destruct (Z.eqb_spec (ChecksumIEEE (checksumPayload h
    (take (Z.to_nat (keyLen h)) post)
    (take (Z.to_nat (valueLen h)) (drop (Z.to_nat (keyLen h)) post)))) (be_get c))
    as [Hcrc|]; [|done].
  injection H as <-. cbn [Key Value Tombstone Size].
  exists c, hb, (drop (Z.to_nat (valueLen h)) (drop (Z.to_nat (keyLen h)) post)), h.
  rewrite !take_drop. unfold blen in *. rewrite !length_take, length_drop.
  unfold frameSize. repeat split; try done; lia.
Qed.

Lemma Decode_not_Panic data : Decode data <> Panic.
Proof.
  destruct (Z.lt_ge_cases (blen data) 17); [by rewrite Decode_short|].
  destruct (split_frame data) as (c & hb & post & -> & Hc & Hhb); [done|].
  destruct (decodeHeader_total hb Hhb) as (h & Hh & _).
  rewrite (Decode_header _ _ _ h) by done. cbv zeta. by repeat case_match.
Qed.

(** ** Truncation and corruption *)

(** A strict prefix of a frame is rejected as corrupt. *)
Lemma Decode_prefix key value t n :
  fits key value -> (n < length (Encode key value t))%nat ->
  Decode (take n (Encode key value t)) = Err ErrCorrupt.
Proof.
  intros Hf Hn. destruct (header_of_fits key value t Hf) as [Hk Hv].
  destruct (Nat.lt_ge_cases n 17) as [|Hge].
  { apply Decode_short. unfold blen. rewrite length_take. lia. }
  pose proof (Encode_app key value t []) as He. rewrite !app_nil_r in He.
  rewrite He in *. rewrite app_assoc in *.
  assert (Hl : length (be_put 4 (ComputeCRC key value t)
                ++ encodeHeader (header_of key value t)) = 17%nat).
  { pose proof (blen_encodeHeader (header_of key value t)) as Hb.
    unfold blen, headerSize in Hb. rewrite length_app, length_be_put. lia. }
  rewrite length_app, Hl in Hn. rewrite take_app_ge, Hl by lia.
  rewrite <- app_assoc.
  rewrite (Decode_header _ _ _ (header_of key value t));
    [|done|apply blen_encodeHeader|apply decodeHeader_header_of].
  rewrite Hk, Hv. unfold blen. rewrite length_take, length_app in *.
  case_match eqn:E; [done|]. apply Z.ltb_ge in E. lia.
Qed.

(** Where a burst [x] at or after position [length l] of [l ++ m] lies. *)
Lemma app_split_ge {A} (l m pre rest : list A) :
  l ++ m = pre ++ rest -> (length l <= length pre)%nat ->
  exists p, pre = l ++ p /\ m = p ++ rest.
Proof.
  intros He Hl. exists (drop (length l) pre).
  assert (Ht : l = take (length l) pre).
  { apply (f_equal (take (length l))) in He.
    by rewrite take_app_length, take_app_le in He. }
  assert (Hp : pre = l ++ drop (length l) pre) by (rewrite Ht at 1; by rewrite take_drop).
  split; [done|]. rewrite Hp, <- app_assoc in He. by apply app_inv_head in He.
Qed.

(** Where a prefix and a burst within the first [length l] positions lie. *)
Lemma app_split_le {A} (l m pre rest : list A) :
  l ++ m = pre ++ rest -> (length pre <= length l)%nat ->
  exists p, l = pre ++ p /\ rest = p ++ m.
Proof. intros He Hl. symmetry in He. by apply app_split_ge in He. Qed.

Lemma be_get_4_ne (c c' : bytes) : blen c = 4 -> blen c' = 4 -> c <> c' -> be_get c <> be_get c'.
Proof. unfold blen. intros ?? Hne Hg. apply Hne, be_get_inj; [lia|done]. Qed.

(** A burst of at most four bytes in the checksum field or in the payload of a
    frame is reported. *)
Lemma Decode_burst key value t pre x y q post :
  fits key value -> Encode key value t = pre ++ x ++ q ->
  length x = length y -> blen x <= 4 -> x <> y ->
  blen pre + blen x <= 4 \/ 17 <= blen pre ->
  Decode (pre ++ y ++ q ++ post) = Err ErrChecksum.
Proof.
  intros Hf He Hl Hx Hne Hpos. destruct (header_of_fits key value t Hf) as [Hk Hv].
  pose proof (Encode_app key value t []) as Ha. rewrite !app_nil_r in Ha.
  rewrite He in Ha. unfold blen in Hx, Hpos. destruct Hpos as [Hpos|Hpos].
  - rewrite (app_assoc pre) in Ha.
    symmetry in Ha.
    apply app_split_le in Ha as (c & Hc & ->); [|rewrite length_app, length_be_put; lia].
    rewrite <- !app_assoc.
    replace (pre ++ y ++ c ++ _) with ((pre ++ y ++ c)
      ++ encodeHeader (header_of key value t) ++ key ++ value ++ post)
      by (by rewrite <- !app_assoc).
    assert (Hcl : length (pre ++ y ++ c) = 4%nat).
    { apply (f_equal length) in Hc. rewrite length_be_put, !length_app in *. lia. }
    rewrite (Decode_frame _ _ _ _ _ (header_of key value t));
      [|unfold blen; lia|apply blen_encodeHeader|apply decodeHeader_header_of|done|done].
    case_match eqn:E; [|done]. exfalso. apply Z.eqb_eq in E.
    rewrite <- be_get_put_crc in E. apply be_get_inj in E; [|by rewrite length_be_put].
    unfold ComputeCRC in Hc. rewrite E, <- app_assoc in Hc.
    apply app_inv_head in Hc. apply app_inj_1 in Hc as [<- _]; [done|done].
  - (* in the payload *)
    rewrite (app_assoc (be_put _ _)) in Ha. symmetry in Ha. apply app_split_ge in Ha as (p & -> & Hp);
      [|rewrite length_app; pose proof (blen_encodeHeader (header_of key value t)) as Hb;
        unfold blen, headerSize in Hb; rewrite length_be_put; lia].
    rewrite <- !app_assoc.
    rewrite (Decode_header _ _ _ (header_of key value t));
      [|done|apply blen_encodeHeader|apply decodeHeader_header_of].
    assert (Hpl : length (p ++ y ++ q) = (Z.to_nat (keyLen (header_of key value t))
                  + Z.to_nat (valueLen (header_of key value t)))%nat).
    { rewrite Hk, Hv, !to_nat_blen, <- length_app, Hp, !length_app. lia. }
    case_match eqn:E.
    { apply Z.ltb_lt in E. unfold blen in *. rewrite !length_app in *. lia. }
    cbv zeta. case_match eqn:Ecrc; [|done]. exfalso. apply Z.eqb_eq in Ecrc.
    unfold ComputeCRC in Ecrc. rewrite be_get_put_crc in Ecrc. revert Ecrc.
    unfold checksumPayload. rewrite take_take_drop, <- Hpl.
    replace (p ++ y ++ q ++ post) with ((p ++ y ++ q) ++ post) by (by rewrite <- !app_assoc).
    rewrite take_app_length, Hp. intros Ecrc.
    apply (ChecksumIEEE_burst (encodeHeader (header_of key value t) ++ p) x y q Hl Hx Hne).
    by rewrite <- !app_assoc.
Qed.

(** The bytes [Decode] does not check: the reserved ones, and the flag byte up
    to being 1 or not. *)
Lemma Decode_flags key value t b r post :
  fits key value -> blen r = 4 -> (b = Byte.x01 <-> t = true) ->
  Decode (be_put 4 (ComputeCRC key value t) ++ be_put 4 (blen key)
          ++ be_put 4 (blen value) ++ [b] ++ r ++ key ++ value ++ post)
  = Decode (Encode key value t ++ post).
Proof.
  intros Hf Hr Hb. rewrite (Decode_Encode _ _ _ post Hf).
  destruct (header_of_fits key value t Hf) as [Hk Hv].
  assert (Ht : bool_decide (b = Byte.x01) = t).
  { destruct t; [by apply bool_decide_eq_true, Hb|].
    apply bool_decide_eq_false. intros H. by apply Hb in H. }
  replace (be_put 4 (blen key) ++ _) with
    ((be_put 4 (blen key) ++ be_put 4 (blen value) ++ [b] ++ r) ++ key ++ value ++ post)
    by (by rewrite <- !app_assoc).
  assert (Hd : decodeHeader (be_put 4 (blen key) ++ be_put 4 (blen value) ++ [b] ++ r)
               = Ok (header_of key value t)).
  { rewrite decodeHeader_split by done. rewrite !be_get_put, Ht. by destruct t. }
  rewrite (Decode_frame _ _ _ _ _ (header_of key value t));
    [|done| |exact Hd|done|done].
  - unfold ComputeCRC. by rewrite be_get_put_crc, Z.eqb_refl.
  - rewrite !blen_app, !blen_be_put, Hr. done.
Qed.

End LogEntry.
