(* ===== verification/LogReader.v ===== *)
(** * Streaming reader: internal/log/reader.go

    [Reader.Next] over an [io.Reader], with the outcome of a call on every
    stream that ends in [io.EOF], and the sequence of records a whole log
    yields. *)
From S2P Require Import Prelude Crc32 LogEntry.
Import Crc32 LogEntry.

Module LogReader.

Definition maxRecordPayload : Z := Z.shiftl 1 30.

Record Reader := MkReader { r : ioReader; pos : Z }.

Definition NewReader (rd : ioReader) : Reader := MkReader rd 0.

Definition Position (rd : Reader) : Z := pos rd.

(** [io.ReadFull(rd.r, buf)]. *)
Definition readFull (n : Z) : M Reader bytes :=
  zoom r (fun r' rd => MkReader r' (pos rd)) (ReadFull n).

Definition Next : M Reader Entry :=
  rd ← get;
  let offset := pos rd in
  hr ← attempt (readFull (4 + headerSize));
  match hr with
  | inl err =>
      if errors_Is err EOF then throw EOF
      else if errors_Is err ErrUnexpectedEOF then throw ErrCorrupt
      else throw err
  | inr head =>
      c ← lift_res (slice 0 4 head);
      hb ← lift_res (slice 4 (4 + headerSize) head);
      h ← lift_res (decodeHeader hb);
      let payloadLen := i64 (keyLen h + valueLen h) in
      if (payloadLen <? 0) || (maxRecordPayload <? payloadLen) then throw ErrCorrupt
      else
        br ← attempt (readFull payloadLen);
        match br with
        | inl err =>
            if errors_Is err ErrUnexpectedEOF then throw ErrCorrupt else throw err
        | inr body =>
            if negb (ChecksumIEEE (hb ++ body) =? be_get c) then throw ErrChecksum
            else
              key ← lift_res (slice 0 (keyLen h) body);
              value ← lift_res (slice (keyLen h) (blen body) body);
              let size := 4 + headerSize + payloadLen in
              rd' ← get;
              put (MkReader (r rd') (offset + size)) ≫= fun _ =>
              mret {| Key := key; Value := value; Tombstone := tombstone h;
                      FileID := 0; Offset := offset; Size := size |}
        end
  end.

(** A reader over the bytes [l] followed by the error [e], at position [p];
    [at_] is the case of a stream that ends cleanly. *)
Definition at_err (e : error) (p : Z) (l : bytes) : Reader := MkReader (MkIoReader l e) p.
Abbreviation at_ := (at_err EOF).

(** What [Next] makes of the error of a short body. *)
Definition body_err (e : error) (l : bytes) : error :=
  if errors_Is (short_err e l) ErrUnexpectedEOF then ErrCorrupt else short_err e l.

(** ** One call on every stream *)

Lemma Next_nil p : Next (at_ p []) = (at_ p [], Err EOF).
Proof. reflexivity. Qed.

Lemma Next_short p l :
  0 < blen l < 17 -> Next (at_ p l) = (at_ p [], Err ErrCorrupt).
Proof.
  intros [H0 H]. unfold Next, get, attempt, readFull, zoom, at_err, mbind, M_bind.
  cbn [r pos]. rewrite ReadFull_short by (unfold headerSize; lia).
  unfold short_err. rewrite (bool_decide_eq_true_2 (EOF = EOF)) by done.
  rewrite bool_decide_eq_false_2; [reflexivity|].
  intros ->. unfold blen in H0; cbn in H0; lia.
Qed.

(** With a whole header in the stream. *)
Lemma Next_header e p c hb post h :
  blen c = 4 -> blen hb = headerSize -> decodeHeader hb = Ok h ->
  Next (at_err e p (c ++ hb ++ post)) =
    let n := keyLen h + valueLen h in
    if maxRecordPayload <? n then (at_err e p post, Err ErrCorrupt)
    else if blen post <? n then (at_err e p [], Err (body_err e post))
    else
      let body := take (Z.to_nat n) post in
      let rest := drop (Z.to_nat n) post in
      if ChecksumIEEE (hb ++ body) =? be_get c then
        (at_err e (p + (4 + headerSize + n)) rest,
         Ok {| Key := take (Z.to_nat (keyLen h)) body;
               Value := drop (Z.to_nat (keyLen h)) body;
               Tombstone := tombstone h; FileID := 0; Offset := p;
               Size := 4 + headerSize + n |})
      else (at_err e p rest, Err ErrChecksum).
Proof.
  intros Hc Hhb Hh.
  destruct (decodeHeader_total hb Hhb) as (h' & Hh' & Hk & Hv).
  rewrite Hh in Hh'. injection Hh' as <-.
  assert (H17 : blen (c ++ hb) = 4 + headerSize) by (rewrite blen_app; lia).
  unfold Next, get, attempt, readFull, zoom, at_err, mbind, M_bind. cbn [r pos].
  rewrite app_assoc, ReadFull_app by (unfold headerSize in *; lia).
  pose proof (slice_app [] c hb 0 4 eq_refl ltac:(by rewrite Hc)) as H1.
  rewrite app_nil_l in H1. unfold lift_res. rewrite H1.
  pose proof (slice_app c hb [] 4 (4 + headerSize) ltac:(lia) ltac:(lia)) as H2.
  rewrite app_nil_r in H2. rewrite H2, Hh.
  rewrite i64_small by (unfold headerSize in *; lia).
  destruct (Z.ltb_spec (keyLen h + valueLen h) 0); [lia|]. cbn [orb]. cbv zeta.
  destruct (Z.ltb_spec maxRecordPayload (keyLen h + valueLen h)); [reflexivity|].
  destruct (Z.ltb_spec (blen post) (keyLen h + valueLen h)) as [Hs|Hs].
  { cbn [r pos]. rewrite ReadFull_short by done. unfold body_err. by case_match. }
  cbn [r pos]. rewrite <- (take_drop (Z.to_nat (keyLen h + valueLen h)) post) at 1.
  assert (Hbl : blen (take (Z.to_nat (keyLen h + valueLen h)) post) = keyLen h + valueLen h)
    by (unfold blen in *; rewrite length_take; lia).
  rewrite ReadFull_app by (done || lia).
  destruct (ChecksumIEEE _ =? be_get c); [|reflexivity]. cbn [negb].
  rewrite !slice_Ok by lia. cbn [r pos]. unfold put, mret, M_ret.
  rewrite Z.sub_0_r, drop_0. do 3 f_equal.
  apply take_ge. unfold blen in *. rewrite length_drop. lia.
Qed.

(** Without one, every call fails. *)
Lemma Next_no_header e p l :
  blen l < 17 -> exists rd' err, Next (at_err e p l) = (rd', Err err).
Proof.
  intros H. unfold Next, get, attempt, readFull, zoom, at_err, mbind, M_bind.
  cbn [r pos]. rewrite ReadFull_short by (unfold headerSize; lia).
  by repeat case_match; eauto.
Qed.

Lemma Next_not_Panic rd : (Next rd).2 <> Panic.
Proof.
  destruct rd as [[l e] p]. change (MkReader (MkIoReader l e) p) with (at_err e p l).
  destruct (Z.lt_ge_cases (blen l) 17) as [Hl|Hl].
  { by destruct (Next_no_header e p l Hl) as (? & ? & ->). }
  destruct (split_frame l Hl) as (c & hb & post & -> & Hc & Hhb).
  destruct (decodeHeader_total hb Hhb) as (h & Hh & _).
  rewrite (Next_header _ _ _ _ _ h) by done. cbv zeta. by repeat case_match.
Qed.

(** A successful call splits the stream: the record's frame, then the rest. *)
Lemma Next_Ok_inv err p l rd' e :
  Next (at_err err p l) = (rd', Ok e) ->
  exists c hb h rest,
    l = c ++ hb ++ Key e ++ Value e ++ rest
    /\ blen c = 4 /\ blen hb = headerSize /\ decodeHeader hb = Ok h
    /\ keyLen h = blen (Key e) /\ valueLen h = blen (Value e)
    /\ tombstone h = Tombstone e
    /\ be_get c = ChecksumIEEE (hb ++ Key e ++ Value e)
    /\ Offset e = p /\ Size e = frameSize (blen (Key e)) (blen (Value e))
    /\ rd' = at_err err (p + Size e) rest.
Proof.
  intros H. destruct (Z.lt_ge_cases (blen l) 17) as [Hl|Hl].
  { destruct (Next_no_header err p l Hl) as (? & ? & He). by rewrite He in H. }
  destruct (split_frame l Hl) as (c & hb & post & -> & Hc & Hhb).
  destruct (decodeHeader_total hb Hhb) as (h & Hh & Hk & Hv).
  rewrite (Next_header _ _ _ _ _ h) in H by done. cbv zeta in H.
  destruct (maxRecordPayload <? keyLen h + valueLen h); [done|].
  destruct (Z.ltb_spec (blen post) (keyLen h + valueLen h)) as [|Hpl]; [done|].
  destruct (Z.eqb_spec (ChecksumIEEE (hb ++ take (Z.to_nat (keyLen h + valueLen h)) post))
    (be_get c)) as [Hcrc|]; [|done].
  injection H as <- <-. cbn [Key Value Tombstone Offset Size].
  exists c, hb, h, (drop (Z.to_nat (keyLen h + valueLen h)) post).
  rewrite (app_assoc (take _ (take _ _))), take_drop, take_drop.
  unfold blen, frameSize in *.
  rewrite !length_take, !length_drop, !length_take.
  repeat split; try done; try lia.
Qed.

Lemma Next_consumes rd rd' e :
  Next rd = (rd', Ok e) -> (length (rem (r rd')) < length (rem (r rd)))%nat.
Proof.
  destruct rd as [[l err] p]. change (MkReader (MkIoReader l err) p) with (at_err err p l).
  intros (c & hb & h & rest & -> & Hc & _ & _ & _ & _ & _ & _ & _ & _ & ->)%Next_Ok_inv.
  cbn [r rem at_err]. rewrite !length_app. unfold blen in Hc. lia.
Qed.

(** ** Frames *)

(** A record as it was handed to [Append], and the bytes of a list of them. *)
Record log_record := MkRec { rkey : bytes; rvalue : bytes; rtomb : bool }.

Definition enc (x : log_record) : bytes := Encode (rkey x) (rvalue x) (rtomb x).

Definition frames (xs : list log_record) : bytes := concat (enc <$> xs).

(** The records a reader accepts: the payload is bounded by
    [maxRecordPayload] (which implies that both lengths fit in a uint32). *)
Definition readable (x : log_record) : Prop :=
  blen (rkey x) + blen (rvalue x) <= maxRecordPayload.

(** The entry [Next] returns for record [x] at offset [p]. *)
Definition entry_at (p : Z) (x : log_record) : Entry :=
  {| Key := rkey x; Value := rvalue x; Tombstone := rtomb x; FileID := 0;
     Offset := p; Size := blen (enc x) |}.

Fixpoint located (p : Z) (xs : list log_record) : list Entry :=
  match xs with
  | [] => []
  | x :: xs' => entry_at p x :: located (p + blen (enc x)) xs'
  end.

Lemma readable_fits x : readable x -> fits (rkey x) (rvalue x).
Proof.
  unfold readable, fits. change maxRecordPayload with (2 ^ 30).
  pose proof (blen_nonneg (rkey x)). pose proof (blen_nonneg (rvalue x)). lia.
Qed.

Lemma blen_enc x : blen (enc x) = frameSize (blen (rkey x)) (blen (rvalue x)).
Proof. unfold enc. by rewrite blen_Encode. Qed.

Lemma blen_enc_ge x : 17 <= blen (enc x).
Proof.
  rewrite blen_enc. unfold frameSize, headerSize.
  pose proof (blen_nonneg (rkey x)). pose proof (blen_nonneg (rvalue x)). lia.
Qed.

Lemma frames_app xs ys : frames (xs ++ ys) = frames xs ++ frames ys.
Proof. unfold frames. by rewrite fmap_app, concat_app. Qed.

Lemma frames_cons x xs : frames (x :: xs) = enc x ++ frames xs.
Proof. done. Qed.

Lemma frames_snoc xs x : frames (xs ++ [x]) = frames xs ++ enc x.
Proof. rewrite frames_app. unfold frames. cbn. by rewrite app_nil_r. Qed.

Lemma located_app p xs ys :
  located p (xs ++ ys) = located p xs ++ located (p + blen (frames xs)) ys.
Proof.
  revert p. induction xs as [|x xs IH]; intros p; cbn [located app].
  - change (blen (frames [])) with 0. by rewrite Z.add_0_r.
  - rewrite IH, frames_cons, blen_app. by rewrite Z.add_assoc.
Qed.

Lemma Next_frame e p x post :
  readable x ->
  Next (at_err e p (enc x ++ post)) = (at_err e (p + blen (enc x)) post, Ok (entry_at p x)).
Proof.
  intros Hr. pose proof (readable_fits x Hr) as Hf.
  destruct (header_of_fits _ _ (rtomb x) Hf) as [Hk Hv].
  unfold enc. rewrite Encode_app.
  rewrite (Next_header _ _ _ _ _ (header_of (rkey x) (rvalue x) (rtomb x)));
    [|done|apply blen_encodeHeader|apply decodeHeader_header_of].
  cbv zeta. rewrite Hk, Hv. unfold readable in Hr.
  destruct (Z.ltb_spec maxRecordPayload (blen (rkey x) + blen (rvalue x))); [lia|].
  rewrite (app_assoc (rkey x)), blen_app.
  destruct (Z.ltb_spec (blen (rkey x ++ rvalue x) + blen post)
    (blen (rkey x) + blen (rvalue x))) as [Hl|].
  { rewrite blen_app in Hl. pose proof (blen_nonneg post). lia. }
  rewrite drop_blen_app, !take_blen_app, drop_blen_app by (by rewrite ?blen_app).
  unfold ComputeCRC. rewrite be_get_put_crc. unfold checksumPayload.
  rewrite Z.eqb_refl. unfold entry_at, enc.
  rewrite blen_Encode. unfold frameSize. by rewrite !Z.add_assoc.
Qed.

(** ** Whole streams *)

(** [reads rd es rd' err]: calling [Next] repeatedly from [rd] returns the
    entries [es] and then the error [err], leaving [rd']. *)
Inductive reads : Reader -> list Entry -> Reader -> error -> Prop :=
  | reads_stop rd rd' err : Next rd = (rd', Err err) -> reads rd [] rd' err
  | reads_step rd rd1 e es rd' err :
      Next rd = (rd1, Ok e) -> reads rd1 es rd' err -> reads rd (e :: es) rd' err.

Lemma reads_total rd : exists es rd' err, reads rd es rd' err.
Proof.
  remember (length (rem (r rd))) as n eqn:Hn. revert rd Hn.
  induction n as [n IH] using lt_wf_ind. intros rd ->.
  destruct (Next rd) as [rd1 [e|err|]] eqn:E.
  - destruct (IH _ (Next_consumes _ _ _ E) rd1 eq_refl) as (es & rd' & err & H).
    eauto using reads.
  - eauto using reads.
  - by destruct (Next_not_Panic rd); rewrite E.
Qed.

Lemma reads_det rd es1 rd1 err1 es2 rd2 err2 :
  reads rd es1 rd1 err1 -> reads rd es2 rd2 err2 ->
  es1 = es2 /\ rd1 = rd2 /\ err1 = err2.
Proof.
  intros H. revert es2 rd2 err2.
  induction H as [rd rd' err H|rd rd' e es rd'' err H _ IH]; intros es2 rd2 err2 H2;
    inversion H2 as [? ? ? H3|? rd3 e3 es3 ? ? H3 H4]; subst;
    rewrite H in H3; simplify_eq; [done|].
  by destruct (IH _ _ _ H4) as (-> & -> & ->).
Qed.

Lemma reads_app p xs post es rd' err e :
  Forall readable xs ->
  reads (at_err e (p + blen (frames xs)) post) es rd' err ->
  reads (at_err e p (frames xs ++ post)) (located p xs ++ es) rd' err.
Proof.
  revert p. induction xs as [|x xs IH]; intros p Hr H.
  - change (blen (frames [])) with 0 in H. by rewrite Z.add_0_r in H.
  - inversion Hr; subst. rewrite frames_cons, <- app_assoc. cbn [located app].
    eapply reads_step; [by apply Next_frame|]. apply IH; [done|].
    by rewrite frames_cons, blen_app, Z.add_assoc in H.
Qed.

(** ** Truncation *)

(** A strict prefix of a frame at the end of a stream: [io.EOF] at a record
    boundary and, unlike every other cut, right after the header. *)
Lemma Next_prefix p x n :
  readable x -> (n < length (enc x))%nat ->
  Next (at_ p (take n (enc x)))
  = (at_ p [], Err (if bool_decide (n = 0%nat \/ n = 17%nat) then EOF else ErrCorrupt)).
Proof.
  intros Hr Hn. pose proof (readable_fits x Hr) as Hf.
  destruct (header_of_fits _ _ (rtomb x) Hf) as [Hk Hv].
  destruct (decide (n = 0%nat)) as [->|Hn0]; [apply Next_nil|].
  destruct (Nat.lt_ge_cases n 17) as [|Hge].
  { rewrite bool_decide_eq_false_2 by lia. apply Next_short.
    unfold blen. rewrite length_take. lia. }
  pose proof (Encode_app (rkey x) (rvalue x) (rtomb x) []) as He.
  rewrite !app_nil_r in He. unfold enc in *. rewrite He in *. rewrite app_assoc in *.
  assert (Hl : length (be_put 4 (ComputeCRC (rkey x) (rvalue x) (rtomb x))
                ++ encodeHeader (header_of (rkey x) (rvalue x) (rtomb x))) = 17%nat).
  { pose proof (blen_encodeHeader (header_of (rkey x) (rvalue x) (rtomb x))) as Hb.
    unfold blen, headerSize in Hb. rewrite length_app, length_be_put. lia. }
  rewrite length_app, Hl in Hn. rewrite take_app_ge, Hl by lia. rewrite <- app_assoc.
  rewrite (Next_header _ _ _ _ _ (header_of (rkey x) (rvalue x) (rtomb x)));
    [|done|apply blen_encodeHeader|apply decodeHeader_header_of].
  cbv zeta. rewrite Hk, Hv. unfold readable in Hr.
  destruct (Z.ltb_spec maxRecordPayload (blen (rkey x) + blen (rvalue x))); [lia|].
  destruct (Z.ltb_spec (blen (take (n - 17) (rkey x ++ rvalue x)))
    (blen (rkey x) + blen (rvalue x))) as [|Hl2].
  2:{ unfold blen in Hl2. rewrite length_take, length_app in *. lia. }
  f_equal. f_equal. unfold body_err, short_err.
  rewrite (bool_decide_eq_true_2 (EOF = EOF)) by done.
  destruct (decide (n = 17%nat)) as [->|Hn17]; [reflexivity|].
  rewrite (bool_decide_eq_false_2 (_ = [])), (bool_decide_eq_false_2 (_ \/ _)) by
    (rewrite <- ?length_zero_iff_nil, ?length_take; lia). reflexivity.
Qed.

(** ** Corruption *)

(** The frame of [x] with its flag byte and reserved bytes explicit. *)
Lemma enc_flags x :
  fits (rkey x) (rvalue x) ->
  enc x = be_put 4 (ComputeCRC (rkey x) (rvalue x) (rtomb x))
          ++ be_put 4 (blen (rkey x)) ++ be_put 4 (blen (rvalue x))
          ++ [flag_byte (rtomb x)] ++ replicate 4 Byte.x00 ++ rkey x ++ rvalue x.
Proof.
  intros Hf. destruct (header_of_fits _ _ (rtomb x) Hf) as [Hk Hv].
  unfold enc. pose proof (Encode_app (rkey x) (rvalue x) (rtomb x) []) as He.
  rewrite !app_nil_r in He. rewrite He. unfold encodeHeader. rewrite Hk, Hv.
  by rewrite <- !app_assoc.
Qed.

(** A stream whose length fields are those of [x] and whose flag byte,
    reserved bytes and payload are the bytes [tail]. *)
Lemma Next_tail e p c x tail post :
  readable x -> blen c = 4 -> blen tail = 5 + blen (rkey x) + blen (rvalue x) ->
  be_get c <> ChecksumIEEE (be_put 4 (blen (rkey x)) ++ be_put 4 (blen (rvalue x)) ++ tail) ->
  (Next (at_err e p (c ++ be_put 4 (blen (rkey x)) ++ be_put 4 (blen (rvalue x))
                     ++ tail ++ post))).2 = Err ErrChecksum.
Proof.
  intros Hr Hc Ht Hne. pose proof (readable_fits x Hr) as [Hk Hv].
  pose proof (blen_nonneg (rkey x)). pose proof (blen_nonneg (rvalue x)).
  assert (H5 : (5 <= length tail)%nat) by (unfold blen in *; lia).
  destruct tail as [|b1 [|b2 [|b3 [|b4 [|b5 tail]]]]]; try (cbn in H5; lia).
  set (hb := be_put 4 (blen (rkey x)) ++ be_put 4 (blen (rvalue x)) ++ [b1] ++ [b2;b3;b4;b5]).
  replace (be_put 4 (blen (rkey x)) ++ _) with (hb ++ tail ++ post)
    by (unfold hb; by rewrite <- !app_assoc).
  assert (Hd : exists t, decodeHeader hb = Ok (MkHeader (blen (rkey x)) (blen (rvalue x)) t)).
  { eexists. unfold hb. rewrite decodeHeader_split by done. rewrite !be_get_put.
    change (256 ^ Z.of_nat 4) with (2 ^ 32). by rewrite !Z.mod_small. }
  assert (Hhb : blen hb = headerSize) by (unfold hb; by rewrite !blen_app, !blen_be_put).
  destruct Hd as [t Hd]. rewrite (Next_header _ _ _ _ _ _ Hc Hhb Hd).
  cbn [keyLen valueLen]. cbv zeta. unfold readable in Hr.
  rewrite !blen_cons in Ht.
  destruct (Z.ltb_spec maxRecordPayload (blen (rkey x) + blen (rvalue x))); [lia|].
  rewrite blen_app. pose proof (blen_nonneg post).
  destruct (Z.ltb_spec (blen tail + blen post) (blen (rkey x) + blen (rvalue x))); [lia|].
  rewrite take_blen_app by lia.
  case_match eqn:E; [|done]. exfalso. apply Hne. apply Z.eqb_eq in E. rewrite <- E.
  unfold hb. by rewrite <- !app_assoc.
Qed.

(** A burst of at most four bytes anywhere outside the two length fields is
    reported, the reserved bytes included. *)
Lemma Next_burst e p x pre a b q post :
  readable x -> enc x = pre ++ a ++ q ->
  length a = length b -> blen a <= 4 -> a <> b ->
  blen pre + blen a <= 4 \/ 12 <= blen pre ->
  (Next (at_err e p (pre ++ b ++ q ++ post))).2 = Err ErrChecksum.
Proof.
  intros Hr He Hl Ha Hne Hpos. pose proof (readable_fits x Hr) as Hf.
  rewrite (enc_flags x Hf) in He.
  set (tail := [flag_byte (rtomb x)] ++ replicate 4 Byte.x00 ++ rkey x ++ rvalue x) in He.
  assert (Htl : blen tail = 5 + blen (rkey x) + blen (rvalue x)).
  { unfold tail, blen. rewrite !length_app, length_replicate. cbn [length]. lia. }
  assert (Hcrc : ComputeCRC (rkey x) (rvalue x) (rtomb x)
    = ChecksumIEEE (be_put 4 (blen (rkey x)) ++ be_put 4 (blen (rvalue x)) ++ tail)).
  { unfold ComputeCRC, checksumPayload, encodeHeader, tail.
    destruct (header_of_fits _ _ (rtomb x) Hf) as [-> ->]. by rewrite <- !app_assoc. }
  unfold blen in Ha, Hpos. destruct Hpos as [Hpos|Hpos].
  - rewrite (app_assoc pre) in He.
    apply app_split_le in He as (c & Hc & ->); [|rewrite length_app, length_be_put; lia].
    rewrite <- !app_assoc.
    assert (Hcl : length (pre ++ b ++ c) = 4%nat).
    { apply (f_equal length) in Hc. rewrite length_be_put, !length_app in *. lia. }
    pose proof (Next_tail e p (pre ++ b ++ c) x tail post Hr ltac:(unfold blen; lia) Htl) as Hn.
    rewrite <- !app_assoc in Hn. apply Hn. intros E.
    rewrite <- Hcrc in E. unfold ComputeCRC in E, Hc. rewrite <- be_get_put_crc in E.
    apply be_get_inj in E; [|by rewrite length_be_put].
    rewrite <- E, <- app_assoc in Hc. apply app_inv_head in Hc.
    apply app_inj_1 in Hc as [Hc _]; [congruence|done].
  - rewrite !app_assoc, <- (app_assoc pre) in He.
    apply app_split_ge in He as (p0 & -> & Hp);
      [|rewrite !length_app, !length_be_put; lia].
    rewrite <- !app_assoc.
    replace (p0 ++ b ++ q ++ post) with ((p0 ++ b ++ q) ++ post) by (by rewrite <- !app_assoc).
    apply Next_tail; [done|done| |].
    { rewrite <- Htl, Hp. unfold blen. rewrite !length_app. lia. }
    rewrite Hcrc, be_get_put_crc, Hp, !(app_assoc (be_put 4 (blen (rvalue x)))).
    rewrite !(app_assoc (be_put 4 (blen (rkey x)))).
    by apply ChecksumIEEE_burst.
Qed.
End LogReader.
