(* ===== verification/Index.v ===== *)
(** * In-memory index and hint file: internal/index/index.go

    The index is a map from keys to the location of their latest record.  The
    lock makes every method atomic, so a method is a function of the map.  The
    hint codec is translated over [io.Reader] and [io.Writer]. *)
From S2P Require Import Prelude.

Module Index.

Record Location := MkLocation {
  FileID : Z;
  Offset : Z;
  Size : Z;
  Tombstone : bool;
}.

Definition ErrHint : error := errors_New "index: malformed hint file".

(** [Index.m]. *)
Abbreviation Index := (gmap bytes Location).

Record KeyLocation := MkKeyLocation { Key : bytes; Loc : Location }.

(** Go's zero value, returned for an absent key. *)
Definition zero_location : Location := MkLocation 0 0 0 false.

Definition New : Index := ∅.

Definition Get (i : Index) (key : bytes) : Location * bool :=
  match i !! key with
  | Some loc => (loc, true)
  | None => (zero_location, false)
  end.

Definition Put (key : bytes) (loc : Location) (i : Index) : Index := <[key := loc]> i.

Definition PutLive (key : bytes) (fileID offset size : Z) (i : Index) : Index :=
  Put key (MkLocation fileID offset size false) i.

Definition MarkDelete (key : bytes) (i : Index) : Index * bool :=
  match i !! key with
  | None => (i, false)
  | Some loc =>
      (<[key := MkLocation (FileID loc) (Offset loc) (Size loc) true]> i, true)
  end.

Definition Delete (key : bytes) (i : Index) : Index := delete key i.

Definition Len (i : Index) : Z := Z.of_nat (size i).

Definition Keys (i : Index) : list bytes := sort_Strings (map_to_list i).*1.

(** The loop of [Range]; [fn] threads the variables the closure captures and
    says whether to go on. *)
Fixpoint range_keys {St : Type} (i : Index) (ks : list bytes)
    (fn : bytes -> Location -> St -> St * bool) (s : St) : St :=
  match ks with
  | [] => s
  | k :: ks' =>
      let loc := (Get i k).1 in
      let '(s', continue) := fn k loc s in
      if continue then range_keys i ks' fn s' else s'
  end.

Definition Range {St : Type} (i : Index) (fn : bytes -> Location -> St -> St * bool) (s : St) : St :=
  range_keys i (Keys i) fn s.

Definition LiveEntries (i : Index) : list KeyLocation :=
  Range i (fun key loc out =>
    (if Tombstone loc then out else out ++ [MkKeyLocation key loc], true)) [].

Definition Has (i : Index) (key : bytes) : bool := (Get i key).2.

(** ** The hint file *)

Definition hintEntrySize : nat := 4 + 8 + 8 + 8 + 1.

Definition hint_header (kl : KeyLocation) : bytes :=
  be_put 4 (u32 (blen (Key kl))) ++ be_put 8 (u64 (FileID (Loc kl)))
  ++ be_put 8 (u64 (Offset (Loc kl))) ++ be_put 8 (u64 (Size (Loc kl)))
  ++ [flag_byte (Tombstone (Loc kl))].

Section Writing.
Context {St : Type} `{!Writer St}.

Definition writeUint64 (v : Z) : M St unit :=
  w_Write (be_put 8 v) ≫= fun _ => mret tt.

Definition writeHintEntry (kl : KeyLocation) : M St unit :=
  failing_as (Errorf "%w: write header: %v" ErrHint) (w_Write (hint_header kl)) ≫= fun _ =>
  failing_as (Errorf "%w: write key: %v" ErrHint) (w_Write (Key kl)) ≫= fun _ =>
  mret tt.

Definition WriteHint (i : Index) : M St unit :=
  let all := Range i (fun key loc all => (all ++ [MkKeyLocation key loc], true)) [] in
  failing_as (Errorf "%w: write count: %v" ErrHint) (writeUint64 (u64 (blen all)))
    ≫= fun _ =>
  range_loop all writeHintEntry.
End Writing.

Definition readUint64 : M ioReader Z :=
  b ← ReadFull 8;
  mret (be_get b).

Definition readHintEntry : M ioReader KeyLocation :=
  b ← failing_as (Errorf "%w: read header: %v" ErrHint) (ReadFull (Z.of_nat hintEntrySize));
  let keyLen := be_get (sub 0 4 b) in
  let loc := {|
    FileID := i64 (be_get (sub 4 12 b));
    Offset := i64 (be_get (sub 12 20 b));
    Size := i64 (be_get (sub 20 28 b));
    Tombstone := bool_decide (b !! 28%nat = Some Byte.x01) |} in
  if Z.shiftl 1 24 <? keyLen then throw (Errorf "%w: absurd key length %d" ErrHint)
  else
    key ← failing_as (Errorf "%w: read key: %v" ErrHint) (ReadFull keyLen);
    mret (MkKeyLocation key loc).

(** [for n := uint64(0); n < count; n++ { ... next[kl.Key] = kl.Loc }]. *)
Fixpoint load_entries (count : nat) (next : Index) : M ioReader Index :=
  match count with
  | O => mret next
  | S count' =>
      kl ← readHintEntry;
      load_entries count' (<[Key kl := Loc kl]> next)
  end.

(** [LoadHint] replaces the receiver's map only when the whole file parses. *)
Definition LoadHint : M (ioReader * Index) unit :=
  let on_reader {A} (m : M ioReader A) :=
    zoom fst (fun r s => (r, s.2)) m : M (ioReader * Index) A in
  count ← on_reader (failing_as (Errorf "%w: read count: %v" ErrHint) readUint64);
  if Z.shiftl 1 28 <? count then throw (Errorf "%w: absurd entry count %d" ErrHint)
  else
    next ← on_reader (load_entries (Z.to_nat count) ∅);
    modify (fun s => (s.1, next)).

(** ** Keys and ranges *)

Lemma map_fst_is_Some {V} (m : gmap bytes V) k : k ∈ (map_to_list m).*1 <-> is_Some (m !! k).
Proof.
  rewrite list_elem_of_fmap. split.
  - intros ([k' v] & -> & H%elem_of_map_to_list). by exists v.
  - intros [v H]. exists (k, v). by rewrite elem_of_map_to_list.
Qed.

Lemma elem_of_Keys i k : k ∈ Keys i <-> is_Some (i !! k).
Proof.
  unfold Keys, sort_Strings. by rewrite merge_sort_Permutation, map_fst_is_Some.
Qed.

Lemma NoDup_Keys i : NoDup (Keys i).
Proof.
  unfold Keys, sort_Strings. rewrite merge_sort_Permutation. apply NoDup_fst_map_to_list.
Qed.

Lemma Sorted_Keys i : StronglySorted bytes_le (Keys i).
Proof. apply (StronglySorted_merge_sort bytes_le). Qed.

(** The order in which Go enumerates the map does not matter. *)
Lemma Keys_any_order i (l : list (bytes * Location)) :
  l ≡ₚ map_to_list i -> sort_Strings l.*1 = Keys i.
Proof. intros H. apply (merge_sort_perm_eq bytes_le). by rewrite H. Qed.

(** All tracked pairs, in key order. *)
Definition pairs (i : Index) : list KeyLocation :=
  (fun k => MkKeyLocation k (Get i k).1) <$> Keys i.

Lemma range_collect i ks (f : bytes -> Location -> bool) out :
  range_keys i ks (fun key loc out =>
    (if f key loc then out else out ++ [MkKeyLocation key loc], true)) out
  = out ++ filter (fun kl => f (Key kl) (Loc kl) = false)
             ((fun k => MkKeyLocation k (Get i k).1) <$> ks).
Proof.
  revert out. induction ks as [|k ks IH]; intros out; cbn [range_keys].
  - by rewrite app_nil_r.
  - rewrite IH, fmap_cons, filter_cons. cbn [Key Loc].
    destruct (f k (Get i k).1); case_decide; try done. by rewrite <- app_assoc.
Qed.

Lemma LiveEntries_filter i :
  LiveEntries i = filter (fun kl => Tombstone (Loc kl) = false) (pairs i).
Proof. exact (range_collect i (Keys i) (fun _ loc => Tombstone loc) []). Qed.

Lemma Range_all i :
  Range i (fun key loc all => (all ++ [MkKeyLocation key loc], true)) [] = pairs i.
Proof.
  etransitivity; [exact (range_collect i (Keys i) (fun _ _ => false) [])|].
  apply filter_all. by apply Forall_true.
Qed.

Lemma elem_of_pairs i kl : kl ∈ pairs i <-> i !! Key kl = Some (Loc kl).
Proof.
  unfold pairs. rewrite list_elem_of_fmap. split.
  - intros (k & -> & [loc Hk]%elem_of_Keys). cbn. unfold Get. by rewrite Hk.
  - intros H. exists (Key kl). unfold Get. rewrite H. split; [by destruct kl|].
    apply elem_of_Keys. by rewrite H.
Qed.

Lemma elem_of_LiveEntries i kl :
  kl ∈ LiveEntries i <-> i !! Key kl = Some (Loc kl) /\ Tombstone (Loc kl) = false.
Proof.
  rewrite LiveEntries_filter, list_elem_of_filter, elem_of_pairs. by split; intros [??].
Qed.

Lemma Key_pairs i : Key <$> pairs i = Keys i.
Proof.
  unfold pairs. rewrite <- list_fmap_compose. exact (list_fmap_id _).
Qed.

Lemma NoDup_LiveEntries i : NoDup (Key <$> LiveEntries i).
Proof.
  rewrite LiveEntries_filter.
  apply (sublist_NoDup _ (Keys i)); [apply NoDup_Keys|].
  rewrite <- Key_pairs. apply fmap_sublist, sublist_filter.
Qed.

Lemma Sorted_LiveKeys idx : StronglySorted bytes_le (Key <$> LiveEntries idx).
Proof.
  pose proof (Sorted_Keys idx) as Hs. rewrite <- Key_pairs in Hs.
  rewrite LiveEntries_filter. induction (pairs idx) as [|kl l IH]; [constructor|].
  rewrite fmap_cons in Hs. apply StronglySorted_inv in Hs as [Hs Hf]. specialize (IH Hs).
  rewrite filter_cons. case_decide; [|done]. rewrite fmap_cons. constructor; [done|].
  rewrite Forall_forall in *. intros k (kl' & -> & [_ Hin]%list_elem_of_filter)%list_elem_of_fmap.
  apply Hf, list_elem_of_fmap. eauto.
Qed.

(** Collecting the pairs back into a map. *)
Definition of_pairs (l : list KeyLocation) (i : Index) : Index :=
  foldl (fun m kl => <[Key kl := Loc kl]> m) i l.

Lemma of_pairs_lookup l i k :
  NoDup (Key <$> l) ->
  of_pairs l i !! k
  = match list_find (fun kl => Key kl = k) l with
    | Some (_, kl) => Some (Loc kl)
    | None => i !! k
    end.
Proof.
  revert i. induction l as [|kl l IH]; intros i Hnd; [done|].
  rewrite fmap_cons in Hnd. apply NoDup_cons in Hnd as [Hni Hnd].
  cbn [of_pairs foldl]. fold (of_pairs l (<[Key kl:=Loc kl]> i)). rewrite IH by done.
  cbn [list_find]. case_decide as Hk.
  - subst k. destruct (list_find (fun kl' => Key kl' = Key kl) l) as [[n kl']|] eqn:E.
    + exfalso. apply list_find_Some in E as (Hl & Heq & _). apply Hni.
      rewrite <- Heq. apply list_elem_of_fmap_2, (list_elem_of_lookup_2 _ _ _ Hl).
    + apply lookup_insert_eq.
  - destruct (list_find (fun kl' => Key kl' = k) l) as [[n kl']|]; cbn; [done|].
    by apply lookup_insert_ne.
Qed.

Lemma of_pairs_pairs i : of_pairs (pairs i) ∅ = i.
Proof.
  apply map_eq. intros k. rewrite of_pairs_lookup by (rewrite Key_pairs; apply NoDup_Keys).
  destruct (list_find _ (pairs i)) as [[n kl]|] eqn:E.
  - apply list_find_Some in E as (Hl & <- & _).
    symmetry. by apply elem_of_pairs, (list_elem_of_lookup_2 _ n).
  - apply list_find_None in E. rewrite lookup_empty. symmetry.
    destruct (i !! k) as [loc|] eqn:Ek; [|done]. exfalso.
    rewrite Forall_forall in E. apply (E (MkKeyLocation k loc)); [|done].
    by apply elem_of_pairs.
Qed.

(** ** Hint codec *)

(** The bytes [writeHintEntry] and [WriteHint] produce. *)
Definition entry_bytes (kl : KeyLocation) : bytes := hint_header kl ++ Key kl.

Definition hint_bytes (i : Index) : bytes :=
  be_put 8 (u64 (blen (pairs i))) ++ concat (entry_bytes <$> pairs i).

(** Writing a hint to any lawful writer emits [hint_bytes]. *)
Section Emitting.
Context {St : Type} {W : Writer St} (emit : bytes -> St) (fits : bytes -> Prop)
  `{HW : !WriterSpec emit fits}.

Lemma write_entries (l : list KeyLocation) out :
  fits (out ++ concat (entry_bytes <$> l)) ->
  range_loop l writeHintEntry (emit out) = (emit (out ++ concat (entry_bytes <$> l)), Ok tt).
Proof.
  revert out. induction l as [|kl l IH]; intros out Hf; cbn [range_loop].
  - by rewrite app_nil_r.
  - rewrite fmap_cons in *. cbn [concat] in *. rewrite app_assoc in Hf.
    rewrite (M_bind_Ok _ _ _ (emit (out ++ entry_bytes kl)) tt).
    + rewrite IH by done. by rewrite app_assoc.
    + apply writer_fits_app in Hf. unfold entry_bytes in *. rewrite app_assoc in *.
      pose proof (writer_fits_app _ _ Hf) as Hf0. unfold writeHintEntry.
      rewrite (M_bind_Ok _ _ _ _ _ (failing_as_Ok _ _ _ _ _ (writer_emit _ _ Hf0))).
      by rewrite (M_bind_Ok _ _ _ _ _ (failing_as_Ok _ _ _ _ _ (writer_emit _ _ Hf))).
Qed.

Lemma WriteHint_emit i out :
  fits (out ++ hint_bytes i) ->
  WriteHint i (emit out) = (emit (out ++ hint_bytes i), Ok tt).
Proof.
  unfold WriteHint. rewrite Range_all. unfold hint_bytes. rewrite app_assoc. intros Hf.
  pose proof (writer_fits_app _ _ Hf) as Hf0.
  rewrite (M_bind_Ok _ _ _ (emit (out ++ be_put 8 (u64 (blen (pairs i))))) tt).
  - by apply write_entries.
  - apply failing_as_Ok. unfold writeUint64.
    by rewrite (M_bind_Ok _ _ _ _ _ (writer_emit _ _ Hf0)).
Qed.
End Emitting.

(** What the codec can represent: int64 fields and keys of at most 16 MiB. *)
Definition in64 (z : Z) : Prop := - 2 ^ 63 <= z < 2 ^ 63.

Definition loc_ok (loc : Location) : Prop :=
  in64 (FileID loc) /\ in64 (Offset loc) /\ in64 (Size loc).

Definition max_hint_key : Z := 2 ^ 24.
Definition max_hint_count : Z := 2 ^ 28.

Definition kl_ok (kl : KeyLocation) : Prop :=
  blen (Key kl) <= max_hint_key /\ loc_ok (Loc kl).

Lemma blen_hint_header kl : blen (hint_header kl) = 29.
Proof. unfold hint_header. by rewrite !blen_app, !blen_be_put. Qed.

Lemma i64_be_get_put z : in64 z -> i64 (be_get (be_put 8 (u64 z))) = z.
Proof.
  intros Hz. rewrite be_get_put. change (256 ^ Z.of_nat 8) with (2 ^ 64).
  rewrite (Z.mod_small (u64 z)) by apply u64_range. by rewrite i64_u64, i64_small.
Qed.

(** The fields of a hint header, read back. *)
Lemma hint_header_fields kl :
  loc_ok (Loc kl) ->
  be_get (sub 0 4 (hint_header kl)) = u32 (blen (Key kl)) /\
  {| FileID := i64 (be_get (sub 4 12 (hint_header kl)));
     Offset := i64 (be_get (sub 12 20 (hint_header kl)));
     Size := i64 (be_get (sub 20 28 (hint_header kl)));
     Tombstone := bool_decide (hint_header kl !! 28%nat = Some Byte.x01) |} = Loc kl.
Proof.
  intros (Hf & Ho & Hs). unfold hint_header.
  set (k4 := be_put 4 _). set (f8 := be_put 8 _). set (o8 := be_put 8 _).
  set (s8 := be_put 8 _). set (t := flag_byte _).
  assert (sub 0 4 (k4 ++ f8 ++ o8 ++ s8 ++ [t]) = k4) as -> by done.
  assert (sub 4 12 (k4 ++ f8 ++ o8 ++ s8 ++ [t]) = f8) as -> by done.
  assert (sub 12 20 (k4 ++ f8 ++ o8 ++ s8 ++ [t]) = o8) as -> by done.
  assert (sub 20 28 (k4 ++ f8 ++ o8 ++ s8 ++ [t]) = s8) as -> by done.
  assert ((k4 ++ f8 ++ o8 ++ s8 ++ [t]) !! 28%nat = Some t) as -> by done.
  unfold k4, f8, o8, s8, t. rewrite !i64_be_get_put, be_get_put by done.
  rewrite (bool_decide_ext _ (flag_byte (Tombstone (Loc kl)) = Byte.x01)) by
    (split; congruence).
  rewrite flag_byte_eqb. split; [|by destruct (Loc kl)].
  apply Z.mod_small, u32_range.
Qed.

(** [readHintEntry] with a whole header in the stream. *)
Lemma readHintEntry_header kl e post :
  loc_ok (Loc kl) ->
  readHintEntry (MkIoReader (hint_header kl ++ post) e) =
    if max_hint_key <? u32 (blen (Key kl)) then
      (MkIoReader post e, Err (Errorf "%w: absurd key length %d" ErrHint))
    else
      match ReadFull (u32 (blen (Key kl))) (MkIoReader post e) with
      | (r', Ok key) => (r', Ok (MkKeyLocation key (Loc kl)))
      | (r', Err _) => (r', Err (Errorf "%w: read key: %v" ErrHint))
      | (r', Panic) => (r', Panic)
      end.
Proof.
  intros Hl. destruct (hint_header_fields kl Hl) as [Hk Hloc].
  unfold readHintEntry.
  rewrite (M_bind_Ok _ _ _ (MkIoReader post e) (hint_header kl)).
  2:{ apply failing_as_Ok, ReadFull_app; [done|apply blen_hint_header]. }
  cbv zeta. rewrite Hk, Hloc. change (Z.shiftl 1 24) with max_hint_key.
  destruct (max_hint_key <? u32 (blen (Key kl))); [done|].
  unfold mbind, M_bind, failing_as.
  by destruct (ReadFull _ _) as [? []].
Qed.

Lemma readHintEntry_entry kl e post :
  kl_ok kl ->
  readHintEntry (MkIoReader (entry_bytes kl ++ post) e) = (MkIoReader post e, Ok kl).
Proof.
  intros [Hk Hl]. unfold entry_bytes. rewrite <- app_assoc, readHintEntry_header by done.
  pose proof (blen_nonneg (Key kl)).
  rewrite u32_small by (unfold max_hint_key in *; lia).
  destruct (Z.ltb_spec max_hint_key (blen (Key kl))); [lia|].
  rewrite ReadFull_app by done. by destruct kl.
Qed.

Lemma load_entries_bytes l e post next :
  Forall kl_ok l ->
  load_entries (length l) next (MkIoReader (concat (entry_bytes <$> l) ++ post) e)
  = (MkIoReader post e, Ok (of_pairs l next)).
Proof.
  intros H. revert next. induction H as [|kl l Hkl _ IH]; intros next; [done|].
  rewrite fmap_cons. cbn [length load_entries concat]. rewrite <- app_assoc.
  rewrite (M_bind_Ok _ _ _ _ _ (readHintEntry_entry kl e _ Hkl)). apply IH.
Qed.

Lemma length_pairs i : length (pairs i) = size i.
Proof.
  rewrite <- (length_fmap Key), Key_pairs. unfold Keys, sort_Strings.
  rewrite merge_sort_Permutation, length_fmap. apply length_map_to_list.
Qed.

Lemma readUint64_put v post e :
  readUint64 (MkIoReader (be_put 8 (u64 v) ++ post) e) = (MkIoReader post e, Ok (u64 v)).
Proof.
  unfold readUint64. rewrite (M_bind_Ok _ _ _ _ _ (ReadFull_app 8 _ _ _ ltac:(done)
    (blen_be_put 8 (u64 v)))).
  rewrite be_get_put. change (256 ^ Z.of_nat 8) with (2 ^ 64).
  by rewrite (Z.mod_small (u64 v)) by apply u64_range.
Qed.

(** [LoadHint] once the count has been read. *)
Lemma LoadHint_count i j post e :
  Z.of_nat (size i) <= max_hint_count ->
  LoadHint (MkIoReader (be_put 8 (u64 (blen (pairs i))) ++ post) e, j) =
    match load_entries (length (pairs i)) ∅ (MkIoReader post e) with
    | (r', Ok next) => ((r', next), Ok tt)
    | (r', Err err) => ((r', j), Err err)
    | (r', Panic) => ((r', j), Panic)
    end.
Proof.
  intros Hs. unfold LoadHint. unfold mbind at 1, M_bind at 1, zoom at 1.
  cbn [fst snd]. rewrite (failing_as_Ok _ _ _ _ _ (readUint64_put _ _ _)).
  assert (Hb : blen (pairs i) = Z.of_nat (size i)) by (unfold blen; by rewrite length_pairs).
  change (Z.shiftl 1 28) with max_hint_count.
  rewrite u64_small by (unfold max_hint_count in *; lia).
  destruct (Z.ltb_spec max_hint_count (blen (pairs i))); [lia|].
  unfold mbind, M_bind, zoom. cbn [fst snd]. rewrite to_nat_blen.
  by destruct (load_entries _ ∅ _) as [? []].
Qed.

Lemma LoadHint_hint_bytes i j rest e :
  Forall kl_ok (pairs i) -> Z.of_nat (size i) <= max_hint_count ->
  LoadHint (MkIoReader (hint_bytes i ++ rest) e, j) = ((MkIoReader rest e, i), Ok tt).
Proof.
  intros Hk Hs. unfold hint_bytes. rewrite <- app_assoc, LoadHint_count by done.
  rewrite load_entries_bytes by done. by rewrite of_pairs_pairs.
Qed.

(** *** Truncated hint files *)

(** An error that wraps [ErrHint]. *)
Definition hint_error (e : error) : Prop := errors_Is e ErrHint = true.

Lemma readHintEntry_prefix kl n e :
  kl_ok kl -> (n < length (entry_bytes kl))%nat ->
  exists r' err, readHintEntry (MkIoReader (take n (entry_bytes kl)) e) = (r', Err err)
                 /\ hint_error err.
Proof.
  intros [Hk Hl] Hn. pose proof (blen_hint_header kl) as Hh. unfold blen in Hh.
  pose proof (blen_nonneg (Key kl)).
  destruct (Nat.lt_ge_cases n 29) as [Hlt|Hge].
  - assert (Hs : blen (take n (entry_bytes kl)) < Z.of_nat hintEntrySize).
    { unfold blen. rewrite length_take. unfold hintEntrySize. lia. }
    unfold readHintEntry. eexists _, _.
    by rewrite (M_bind_Err _ _ _ _ _ (failing_as_Err _ _ _ _ _ (ReadFull_short _ _ e Hs))).
  - unfold entry_bytes in *. rewrite length_app in Hn.
    rewrite take_app_ge, readHintEntry_header by (done || lia).
    rewrite u32_small by (unfold max_hint_key in *; lia).
    destruct (Z.ltb_spec max_hint_key (blen (Key kl))); [lia|].
    rewrite ReadFull_short by (unfold blen; rewrite length_take; lia).
    by eexists _, _.
Qed.

Lemma load_entries_prefix l n next e :
  Forall kl_ok l -> (n < length (concat (entry_bytes <$> l)))%nat ->
  exists r' err, load_entries (length l) next
                   (MkIoReader (take n (concat (entry_bytes <$> l))) e) = (r', Err err)
                 /\ hint_error err.
Proof.
  intros H. revert n next. induction H as [|kl l Hkl _ IH]; intros n next Hn.
  { cbn in Hn. lia. }
  rewrite fmap_cons in *. cbn [concat length load_entries] in *. rewrite length_app in Hn.
  destruct (Nat.lt_ge_cases n (length (entry_bytes kl))) as [Hlt|Hge].
  - rewrite take_app_le by lia.
    destruct (readHintEntry_prefix kl n e Hkl Hlt) as (r' & err & Hr & He).
    rewrite (M_bind_Err _ _ _ _ _ Hr). eauto.
  - rewrite take_app_ge by lia.
    rewrite (M_bind_Ok _ _ _ _ _ (readHintEntry_entry kl e _ Hkl)).
    apply IH. lia.
Qed.

Lemma LoadHint_prefix i j n e :
  Forall kl_ok (pairs i) -> Z.of_nat (size i) <= max_hint_count ->
  (n < length (hint_bytes i))%nat ->
  exists r' err, LoadHint (MkIoReader (take n (hint_bytes i)) e, j) = ((r', j), Err err)
                 /\ hint_error err.
Proof.
  intros Hk Hs Hn. unfold hint_bytes in *. rewrite length_app, length_be_put in Hn.
  destruct (Nat.lt_ge_cases n 8) as [Hlt|Hge].
  - set (l := take n _). assert (Hl : blen l < 8).
    { unfold l, blen. rewrite length_take. lia. }
    pose proof (failing_as_Err (Errorf "%w: read count: %v" ErrHint) _ _ _ _
      (M_bind_Err _ (fun b => mret (be_get b)) _ _ _ (ReadFull_short 8 l e Hl))) as Hr.
    eexists _, _. unfold LoadHint, mbind at 1, M_bind at 1, zoom at 1. cbn [fst].
    unfold readUint64. by rewrite Hr.
  - rewrite take_app_ge, length_be_put by (rewrite length_be_put; lia).
    rewrite LoadHint_count by done.
    destruct (load_entries_prefix (pairs i) (n - 8) ∅ e Hk ltac:(lia))
      as (r' & err & -> & He). eauto.
Qed.

(** *** Oversized keys *)

Lemma load_entries_oversized l next post e :
  Forall (fun kl => blen (Key kl) < 2 ^ 32 /\ loc_ok (Loc kl)) l ->
  Exists (fun kl => max_hint_key < blen (Key kl)) l ->
  exists r', load_entries (length l) next (MkIoReader (concat (entry_bytes <$> l) ++ post) e)
             = (r', Err (Errorf "%w: absurd key length %d" ErrHint)).
Proof.
  intros H. revert next. induction H as [|kl l [Hk Hl] _ IH]; intros next Hex.
  { inversion Hex. }
  rewrite fmap_cons. cbn [concat length load_entries]. rewrite <- app_assoc.
  destruct (Z.lt_ge_cases max_hint_key (blen (Key kl))) as [Hbig|Hle].
  - unfold entry_bytes at 1. rewrite <- app_assoc.
    pose proof (readHintEntry_header kl e
      (Key kl ++ concat (entry_bytes <$> l) ++ post) Hl) as Hr.
    rewrite u32_small in Hr by (pose proof (blen_nonneg (Key kl)); lia).
    destruct (Z.ltb_spec max_hint_key (blen (Key kl))); [|lia].
    rewrite (M_bind_Err _ _ _ _ _ Hr). eauto.
  - rewrite (M_bind_Ok _ _ _ _ _ (readHintEntry_entry kl e _ (conj Hle Hl))).
    apply IH. by inversion Hex; [lia|].
Qed.

Lemma LoadHint_oversized i j e :
  Forall (fun kl => blen (Key kl) < 2 ^ 32 /\ loc_ok (Loc kl)) (pairs i) ->
  Exists (fun kl => max_hint_key < blen (Key kl)) (pairs i) ->
  Z.of_nat (size i) <= max_hint_count ->
  exists r', LoadHint (MkIoReader (hint_bytes i) e, j)
             = ((r', j), Err (Errorf "%w: absurd key length %d" ErrHint)).
Proof.
  intros Hk Hex Hs. unfold hint_bytes. rewrite LoadHint_count by done.
  destruct (load_entries_oversized (pairs i) ∅ [] e Hk Hex) as (r' & Hr).
  rewrite app_nil_r in Hr. rewrite Hr. eauto.
Qed.
End Index.
