(* ===== verification/FileSys.v ===== *)
(** * The operating system the store runs on

    The [os] package calls of the sources, over a file system with inodes:
    directory entries name inodes, several names may share one, and an open
    file keeps its inode after the name is removed.  Every call takes its
    outcome from a list of faults chosen by the environment, so that error
    paths are executions like any other; the empty list means that no further
    call fails. *)
From S2P Require Import Prelude.

Module FileSys.

Definition ErrNotExist : error := errors_New "file does not exist".
Definition ErrInvalid : error := errors_New "invalid argument".
Definition EIO : error := errors_New "input/output error".
Definition EISDIR : error := errors_New "is a directory".
Definition EFBIG : error := errors_New "file too large".
Definition ENOTEMPTY : error := errors_New "directory not empty".
Definition EEXIST : error := errors_New "file exists".
Definition EPERM : error := errors_New "operation not permitted".
Definition ErrOffset : error := errors_New "negative offset".

(** What the environment does to one call: nothing, a failure without effect,
    or (for reads and writes) a failure after [n] bytes. *)
Inductive fault := FNone | FFail | FShort (n : nat).

Inductive dent := DFile (ino : nat) | DDir.

Record FS := MkFS {
  dirs : gset bytes;
  names : gmap (bytes * bytes) dent;  (* (directory, file name) *)
  data : gmap nat bytes;              (* inode contents *)
  next : nat;                         (* the next fresh inode *)
  faults : list fault;
}.

Definition set_names n (s : FS) := MkFS (dirs s) n (data s) (next s) (faults s).
Definition set_data d (s : FS) := MkFS (dirs s) (names s) d (next s) (faults s).

(** File sizes are int64. *)
Definition max_file : Z := 2 ^ 63 - 1.

Definition pop_fault : M FS fault := fun s =>
  match faults s with
  | [] => (s, Ok FNone)
  | x :: l => (MkFS (dirs s) (names s) (data s) (next s) l, Ok x)
  end.

Definition syscall {A} (m : M FS A) : M FS A :=
  x ← pop_fault;
  match x with
  | FNone => m
  | _ => throw EIO
  end.

Definition content (s : FS) (ino : nat) : bytes := default [] (data s !! ino).

(** [os.MkdirAll]. *)
Definition MkdirAll (dir : bytes) : M FS unit :=
  syscall (modify (fun s => MkFS ({[dir]} ∪ dirs s) (names s) (data s) (next s) (faults s))).

Definition by_name (a b : bytes * dent) : Prop := bytes_le a.1 b.1.

#[export] Instance by_name_dec : RelDecision by_name := fun a b => bytes_le_dec a.1 b.1.

(** [os.ReadDir]: the entries in file-name order. *)
Definition dir_entries (s : FS) (dir : bytes) : list (bytes * dent) :=
  merge_sort by_name
    (omap (fun '((d, n), e) => if bool_decide (d = dir) then Some (n, e) else None)
       (map_to_list (names s))).

Definition ReadDir (dir : bytes) : M FS (list (bytes * dent)) :=
  syscall (fun s =>
    if bool_decide (dir ∈ dirs s) then (s, Ok (dir_entries s dir)) else (s, Err ErrNotExist)).

(** Creating an empty file. *)
Definition create (dir name : bytes) : M FS nat := fun s =>
  (MkFS (dirs s) (<[(dir, name) := DFile (next s)]> (names s))
     (<[next s := []]> (data s)) (S (next s)) (faults s), Ok (next s)).

(** [os.OpenFile(path, O_RDWR|O_CREATE|O_APPEND)]. *)
Definition OpenAppend (dir name : bytes) : M FS nat :=
  syscall (fun s =>
    match names s !! (dir, name) with
    | Some (DFile ino) => (s, Ok ino)
    | Some DDir => (s, Err EISDIR)
    | None => if bool_decide (dir ∈ dirs s) then create dir name s else (s, Err ErrNotExist)
    end).

(** [os.Open].  A directory opens too, as an inode without contents; reading
    from it is what fails. *)
Definition Open (dir name : bytes) : M FS nat :=
  syscall (fun s =>
    match names s !! (dir, name) with
    | Some (DFile ino) => (s, Ok ino)
    | Some DDir => (MkFS (dirs s) (names s) (data s) (S (next s)) (faults s), Ok (next s))
    | None => (s, Err ErrNotExist)
    end).

(** [os.Create]: an existing file is truncated in place, keeping its inode. *)
Definition Create (dir name : bytes) : M FS nat :=
  syscall (fun s =>
    match names s !! (dir, name) with
    | Some (DFile ino) => (set_data (<[ino := []]> (data s)) s, Ok ino)
    | Some DDir => (s, Err EISDIR)
    | None => if bool_decide (dir ∈ dirs s) then create dir name s else (s, Err ErrNotExist)
    end).

(** [f.Stat().Size()]; the size a file system reports for a directory is taken
    to be 0. *)
Definition StatSize (ino : nat) : M FS Z := syscall (fun s => (s, Ok (blen (content s ino)))).

(** [f.Write(b)] at the end of the file.  [os.File.Write] returns a non-nil
    error whenever it writes less than [len(b)]. *)
Definition Write (ino : nat) (b : bytes) : M FS Z :=
  x ← pop_fault;
  match x with
  | FNone => act (fun s =>
      if max_file <? blen (content s ino) + blen b then (s, Err EFBIG)
      else (set_data (<[ino := content s ino ++ b]> (data s)) s, Ok (blen b)))
  | FFail => throw EIO
  | FShort n => act (fun s =>
      (set_data (<[ino := content s ino ++ take n b]> (data s)) s, Err EIO))
  end.

(** [f.ReadAt(b, off)] with [len(b) = n]. *)
Definition ReadAt (ino : nat) (n off : Z) : M FS bytes :=
  syscall (fun s =>
    if off <? 0 then (s, Err ErrOffset)
    else if bool_decide (data s !! ino = None) && (0 <? n) then (s, Err EISDIR)
    else
      let avail := drop (Z.to_nat off) (content s ino) in
      if blen avail <? n then (s, Err EOF) else (s, Ok (take (Z.to_nat n) avail))).

(** A freshly opened file as a stream of its bytes. *)
Definition stream (ino : nat) : M FS ioReader :=
  x ← pop_fault;
  act (fun s => (s, Ok match x with
    | FNone => MkIoReader (content s ino) (if bool_decide (data s !! ino = None) then EISDIR else EOF)
    | FFail => MkIoReader [] EIO
    | FShort n => MkIoReader (take n (content s ino)) EIO
    end)).

(** [f.Truncate(0)]. *)
Definition Truncate0 (ino : nat) : M FS unit :=
  syscall (modify (fun s => set_data (<[ino := []]> (data s)) s)).

(** [f.WriteAt(b, 0)] on a file opened without [O_APPEND]. *)
Definition WriteAt0 (ino : nat) (b : bytes) : M FS Z :=
  x ← pop_fault;
  let over n := modify (fun s =>
    set_data (<[ino := take n b ++ drop (length (take n b)) (content s ino)]> (data s)) s) in
  match x with
  | FNone => over (length b) ≫= fun _ => mret (blen b)
  | FFail => throw EIO
  | FShort n => over n ≫= fun _ => throw EIO
  end.

(** [n, _ := f.ReadAt(buf, 0)] followed by [buf[:n]], with [len(buf) = n]: what
    could be read, the error being dropped. *)
Definition ReadAtMost (ino : nat) (n : nat) : M FS bytes :=
  x ← pop_fault;
  act (fun s => (s, Ok match x with
    | FNone => take n (content s ino)
    | FFail => []
    | FShort k => take (Nat.min k n) (content s ino)
    end)).

Definition Sync (ino : nat) : M FS unit := syscall (mret tt).

Definition Close (ino : nat) : M FS unit := syscall (mret tt).

(** [os.Remove]: the inode survives in the files that have it open.  A directory
    is removed when it is empty. *)
Definition Remove (dir name : bytes) : M FS unit :=
  syscall (fun s =>
    match names s !! (dir, name) with
    | Some (DFile _) => (set_names (delete (dir, name) (names s)) s, Ok tt)
    | Some DDir =>
        let sub := dir ++ bs "/" ++ name in
        if bool_decide (dir_entries s sub = []) then
          (MkFS (dirs s ∖ {[sub]}) (delete (dir, name) (names s)) (data s) (next s) (faults s), Ok tt)
        else (s, Err ENOTEMPTY)
    | None => (s, Err ErrNotExist)
    end).

(** [os.Stat], for its error. *)
Definition Stat (dir name : bytes) : M FS unit :=
  syscall (fun s =>
    match names s !! (dir, name) with
    | Some _ => (s, Ok tt)
    | None => (s, Err ErrNotExist)
    end).

(** [os.Link]: the new name gets the inode of the old one. *)
Definition Link (sdir sname dir name : bytes) : M FS unit :=
  syscall (fun s =>
    match names s !! (sdir, sname), names s !! (dir, name) with
    | None, _ => (s, Err ErrNotExist)
    | Some DDir, _ => (s, Err EPERM)
    | Some (DFile _), Some _ => (s, Err EEXIST)
    | Some (DFile ino), None =>
        if bool_decide (dir ∈ dirs s) then
          (set_names (<[(dir, name) := DFile ino]> (names s)) s, Ok tt)
        else (s, Err ErrNotExist)
    end).

(** [os.ReadFile]. *)
Definition ReadFile (dir name : bytes) : M FS bytes :=
  ino ← Open dir name;
  rd ← stream ino;
  ignore (Close ino) ≫= fun _ =>
  if bool_decide (rerr rd = EOF) then mret (rem rd) else throw (rerr rd).

(** [os.WriteFile]: create or truncate, write, close; the write's error wins. *)
Definition WriteFile (dir name : bytes) (b : bytes) : M FS unit :=
  ino ← Create dir name;
  w ← attempt (Write ino b);
  c ← attempt (Close ino);
  match w, c with
  | inl e, _ => throw e
  | inr _, inl e => throw e
  | inr _, inr _ => mret tt
  end.

Definition IsNotExist (e : error) : bool := errors_Is e ErrNotExist.

Lemma content_Some s ino c : data s !! ino = Some c -> content s ino = c.
Proof. intros H. unfold content. by rewrite H. Qed.

(** ** Fault-free calls *)

Lemma pop_fault_none s : faults s = [] -> pop_fault s = (s, Ok FNone).
Proof. intros H. unfold pop_fault. by rewrite H. Qed.

Lemma syscall_none {A} (m : M FS A) s : faults s = [] -> syscall m s = m s.
Proof. intros H. unfold syscall. by rewrite (M_bind_Ok _ _ _ _ _ (pop_fault_none s H)). Qed.

Lemma Write_none ino b s :
  faults s = [] ->
  Write ino b s =
    if max_file <? blen (content s ino) + blen b then (s, Err EFBIG)
    else (set_data (<[ino := content s ino ++ b]> (data s)) s, Ok (blen b)).
Proof.
  intros H. unfold Write. by rewrite (M_bind_Ok _ _ _ _ _ (pop_fault_none s H)).
Qed.

Lemma stream_none ino c s :
  faults s = [] -> data s !! ino = Some c -> stream ino s = (s, Ok (MkIoReader c EOF)).
Proof.
  intros H Hc. unfold stream. rewrite (M_bind_Ok _ _ _ _ _ (pop_fault_none s H)).
  unfold act. by rewrite (content_Some _ _ _ Hc), Hc.
Qed.

(** Names that [os.Create] can create or truncate. *)
Definition creatable (s : FS) (path : bytes * bytes) : Prop :=
  match names s !! path with
  | Some (DFile _) => True
  | Some DDir => False
  | None => path.1 ∈ dirs s
  end.

(** An open file holding [out]. *)
Definition file_holds (s : FS) (ino : nat) (out : bytes) : FS :=
  set_data (<[ino := out]> (data s)) s.

Lemma Create_Ok s path : faults s = [] -> creatable s path ->
  exists s1 ino, Create path.1 path.2 s = (file_holds s1 ino [], Ok ino)
    /\ names s1 !! path = Some (DFile ino) /\ faults s1 = [].
Proof.
  destruct path as [d name]. cbn [fst snd]. intros Hq Hc. unfold Create, creatable in *.
  rewrite syscall_none by done. cbn [fst] in Hc.
  destruct (names s !! (d, name)) as [[ino|]|] eqn:E; [by exists s, ino|done|].
  rewrite bool_decide_eq_true_2 by done. unfold create.
  exists (MkFS (dirs s) (<[(d, name) := DFile (next s)]> (names s))
            (data s) (S (next s)) (faults s)), (next s).
  split_and!; [done| |done]. cbn [names]. apply lookup_insert_eq.
Qed.

Lemma WriteFile_Ok s path b : faults s = [] -> creatable s path -> blen b <= max_file ->
  exists s1 ino, WriteFile path.1 path.2 b s = (file_holds s1 ino b, Ok tt)
    /\ names s1 !! path = Some (DFile ino) /\ faults s1 = [].
Proof.
  intros Hq Hc Hb. destruct (Create_Ok s path Hq Hc) as (s1 & ino & Hcr & Hn & Hq1).
  exists s1, ino. split_and!; [|done|done]. unfold WriteFile. rewrite (M_bind_Ok _ _ _ _ _ Hcr).
  rewrite (M_bind_Ok _ _ _ (file_holds s1 ino b) (inr (blen b))).
  2:{ apply attempt_Ok. rewrite Write_none by done.
      rewrite (content_Some _ ino []) by apply lookup_insert_eq.
      rewrite blen_nil, Z.add_0_l, (proj2 (Z.ltb_ge _ _)) by lia. cbn [app].
      unfold file_holds, set_data. cbn. by rewrite insert_insert_eq. }
  rewrite (M_bind_Ok _ _ _ (file_holds s1 ino b) (inr tt)); [done|].
  apply attempt_Ok. unfold Close. by rewrite syscall_none.
Qed.

(** Reading back a file that a name leads to. *)
Lemma Open_file s path ino : faults s = [] -> names s !! path = Some (DFile ino) ->
  Open path.1 path.2 s = (s, Ok ino).
Proof.
  destruct path as [d n]. cbn [fst snd]. intros Hq Hn. unfold Open.
  by rewrite syscall_none, Hn.
Qed.

(** Reading a block that the file holds at [off]. *)
Lemma ReadAt_none ino n off s pre mid post :
  faults s = [] -> content s ino = pre ++ mid ++ post ->
  off = blen pre -> n = blen mid ->
  ReadAt ino n off s = (s, Ok mid).
Proof.
  intros Hf Hc -> ->. unfold ReadAt. rewrite syscall_none by done.
  pose proof (blen_nonneg pre). pose proof (blen_nonneg post).
  destruct (Z.ltb_spec (blen pre) 0); [lia|].
  assert (bool_decide (data s !! ino = None) && (0 <? blen mid) = false) as ->.
  { apply andb_false_iff. unfold content in Hc. destruct (data s !! ino); [by left|right].
    symmetry in Hc. apply app_nil in Hc as [_ [-> _]%app_nil]. done. }
  cbv zeta. rewrite Hc, drop_blen_app by done.
  rewrite blen_app. destruct (Z.ltb_spec (blen mid + blen post) (blen mid)); [lia|].
  by rewrite take_blen_app.
Qed.

Lemma elem_of_dir_entries s dir n e :
  (n, e) ∈ dir_entries s dir <-> names s !! (dir, n) = Some e.
Proof.
  unfold dir_entries. rewrite merge_sort_Permutation, list_elem_of_omap. split.
  - intros ([[d n'] e'] & H%elem_of_map_to_list & Hd). case_bool_decide; naive_solver.
  - intros H. exists ((dir, n), e). rewrite elem_of_map_to_list. split; [done|].
    by rewrite bool_decide_eq_true_2.
Qed.
End FileSys.
