(* ===== verification/Segment.v ===== *)
(** * Segment files: internal/log/segment.go

    A [Segment] object is mutable and shared by pointer (the store keeps one in
    its map and as the active segment), so segments live in a heap next to the
    file system. *)
From S2P Require Import Prelude LogEntry LogReader FileSys.
Import LogEntry LogReader.

Module Segment.

(** ** Segment names *)

Definition digit (n : Z) : byte := Zbyte (48 + n).

(** Decimal digits of a nonnegative integer; 20 digits suffice for 64 bits. *)
Fixpoint dec (fuel : nat) (n : Z) : bytes :=
  match fuel with
  | O => []
  | S fuel' => if n <? 10 then [digit n] else dec fuel' (n / 10) ++ [digit (n mod 10)]
  end.

Definition decimal (n : Z) : bytes := dec 20 n.

(** The verb [%d]. *)
Definition itoa (z : Z) : bytes :=
  if z <? 0 then bs "-" ++ decimal (- z) else decimal z.

(** Zero padding of the verb [%0wd]. *)
Definition pad (w : nat) (l : bytes) : bytes := replicate (w - length l) (digit 0) ++ l.

Definition SegmentName (fileID : Z) : bytes :=
  (if fileID <? 0 then bs "-" ++ pad 9 (decimal (- fileID)) else pad 10 (decimal fileID))
  ++ bs ".log".

(** [filepath.Join(dir, name)] is kept as the pair. *)
Definition SegmentPath (dir : bytes) (fileID : Z) : bytes * bytes := (dir, SegmentName fileID).

(** [filepath.Ext]: the suffix from the last dot of the last path element. *)
Fixpoint ext_rev (l acc : bytes) : bytes :=
  match l with
  | [] => []
  | c :: l' =>
      if bool_decide (c = Byte.x2f) then []
      else if bool_decide (c = Byte.x2e) then c :: acc
      else ext_rev l' (c :: acc)
  end.

Definition Ext (name : bytes) : bytes := ext_rev (rev name) [].

(** The digit loop of [ParseSegmentID]. *)
Fixpoint parse_digits (id : Z) (l : bytes) : option Z :=
  match l with
  | [] => Some id
  | c :: l' =>
      if (byteZ c <? 48) || (57 <? byteZ c) then None
      else parse_digits (id * 10 + (byteZ c - 48)) l'
  end.

(** [None] stands for the result [0, false]. *)
Definition ParseSegmentID (name : bytes) : option Z :=
  if negb (blen name =? blen (bs "0000000000.log"))
     || negb (bool_decide (Ext name = bs ".log"))
  then None
  else parse_digits 0 (take 10 name).

(** ** Segments *)

Record Segment := MkSegment {
  fileID : Z;
  path : bytes * bytes;
  f : option nat;   (* the open file's inode; [None] is a nil handle *)
  size : Z;
}.

Abbreviation ptr := nat.

Record World := MkWorld {
  fs : FileSys.FS;
  heap : gmap ptr Segment;
  hnext : ptr;
}.

Definition os {A} (m : M FileSys.FS A) : M World A :=
  zoom fs (fun s w => MkWorld s (heap w) (hnext w)) m.

Definition load (p : ptr) : M World Segment := fun w =>
  match heap w !! p with
  | Some s => (w, Ok s)
  | None => (w, Panic)
  end.

Definition store (p : ptr) (s : Segment) : M World unit :=
  modify (fun w => MkWorld (fs w) (<[p := s]> (heap w)) (hnext w)).

Definition alloc (s : Segment) : M World ptr := fun w =>
  (MkWorld (fs w) (<[hnext w := s]> (heap w)) (S (hnext w)), Ok (hnext w)).

(** A method call on a file handle; on a nil [*os.File] it returns
    [os.ErrInvalid]. *)
Definition on_file {A} (h : option nat) (m : nat -> M FileSys.FS A) : M World A :=
  match h with
  | Some ino => os (m ino)
  | None => throw FileSys.ErrInvalid
  end.

(** The common part of [NewSegment] and [OpenReadOnly]: stat the open file and
    build the object. *)
Definition open_segment (dir : bytes) (id : Z) (ino : nat) : M World ptr :=
  r ← attempt (os (FileSys.StatSize ino));
  match r with
  | inl err =>
      ignore (os (FileSys.Close ino)) ≫= fun _ =>
      throw (Errorf "log: stat segment %s: %w" err)
  | inr sz => alloc (MkSegment id (SegmentPath dir id) (Some ino) sz)
  end.

Definition NewSegment (dir : bytes) (id : Z) : M World ptr :=
  ino ← wrapping "log: open segment %s: %w" (os (FileSys.OpenAppend dir (SegmentName id)));
  open_segment dir id ino.

Definition OpenReadOnly (dir : bytes) (id : Z) : M World ptr :=
  ino ← wrapping "log: open segment %s: %w" (os (FileSys.Open dir (SegmentName id)));
  open_segment dir id ino.

Definition Path (p : ptr) : M World (bytes * bytes) := s ← load p; mret (path s).

Definition Size (p : ptr) : M World Z := s ← load p; mret (size s).

Definition File (p : ptr) : M World (option nat) := s ← load p; mret (f s).

(** The result is the record's offset and its size. *)
Definition Append (p : ptr) (key value : bytes) (t : bool) : M World (Z * Z) :=
  s ← load p;
  let buf := Encode key value t in
  let off := size s in
  n ← wrapping "log: append to segment %d: %w"
        (on_file (f s) (fun ino => FileSys.Write ino buf));
  if negb (n =? blen buf) then
    throw (errors_New "log: short write on segment %d: wrote %d of %d")
  else
    store p (MkSegment (fileID s) (path s) (f s) (size s + n)) ≫= fun _ =>
    mret (off, n).

Definition Sync (p : ptr) : M World unit :=
  s ← load p;
  wrapping "log: sync segment %d: %w" (on_file (f s) FileSys.Sync).

(** The handle is dropped even when closing it fails. *)
Definition Close (p : ptr) : M World unit :=
  s ← load p;
  match f s with
  | None => mret tt
  | Some ino =>
      r ← attempt (os (FileSys.Close ino));
      store p (MkSegment (fileID s) (path s) None (size s)) ≫= fun _ =>
      match r with
      | inl err => throw err
      | inr _ => mret tt
      end
  end.

Definition readRecordAt (ino : nat) (id offset : Z) : M World Entry :=
  head ← wrapping "log: read header at %d: %w"
           (os (FileSys.ReadAt ino (4 + headerSize) offset));
  hb ← lift_res (slice 4 (4 + headerSize) head);
  h ← lift_res (decodeHeader hb);
  let total := i64 (4 + headerSize + keyLen h + valueLen h) in
  buf ← wrapping "log: read record at %d: %w" (os (FileSys.ReadAt ino total offset));
  e ← lift_res (Decode buf);
  mret {| Key := Key e; Value := Value e; Tombstone := Tombstone e;
          FileID := id; Offset := offset; LogEntry.Size := LogEntry.Size e |}.

Definition ReadRecordAt (ino : nat) (id offset : Z) : M World Entry :=
  readRecordAt ino id offset.

Definition ReadAt (p : ptr) (offset : Z) : M World Entry :=
  s ← load p;
  match f s with
  | None => throw (errors_New "log: segment %d is closed")
  | Some ino => readRecordAt ino (fileID s) offset
  end.

(** ** Segment names: the [%010d] verb and its inverse *)

(** [n] decimal digits of [id], most significant first. *)
Fixpoint fixed (n : nat) (id : Z) : bytes :=
  match n with
  | O => []
  | S n' => fixed n' (id / 10) ++ [digit (id mod 10)]
  end.

Definition max_id : Z := 10 ^ 10.

Lemma length_fixed n id : length (fixed n id) = n.
Proof.
  revert id. induction n as [|n IH]; intros id; cbn; [done|].
  rewrite length_app, IH. cbn. lia.
Qed.

Lemma fixed_zero n : fixed n 0 = replicate n (digit 0).
Proof.
  induction n as [|n IH]; cbn [fixed]; [done|].
  change (0 / 10) with 0. change (0 mod 10) with 0. by rewrite IH, <- replicate_S_end.
Qed.

Lemma byteZ_digit d : 0 <= d < 10 -> byteZ (digit d) = 48 + d.
Proof. intros H. unfold digit. rewrite byteZ_Zbyte. apply Z.mod_small. lia. Qed.

Lemma dec_pad fuel n id :
  (0 < n <= fuel)%nat -> 0 <= id < 10 ^ Z.of_nat n ->
  pad n (dec fuel id) = fixed n id.
Proof.
  revert n id. induction fuel as [|fuel IH]; intros n id Hn Hid; [lia|].
  destruct n as [|n]; [lia|]. cbn [dec fixed].
  destruct (Z.ltb_spec id 10) as [Hlt|Hge].
  - rewrite (Z.div_small id), (Z.mod_small id), fixed_zero by lia.
    unfold pad. cbn [length]. by replace (S n - 1)%nat with n by lia.
  - destruct n as [|n]; [cbn in Hid; lia|].
    rewrite <- (IH (S n) (id / 10)); [|lia|].
    + unfold pad. rewrite length_app. cbn [length].
      rewrite app_assoc. do 2 f_equal. f_equal. lia.
    + split; [apply Z.div_pos; lia|].
      apply Z.div_lt_upper_bound; [lia|].
      rewrite Nat2Z.inj_succ, Z.pow_succ_r in Hid by lia. lia.
Qed.

Lemma SegmentName_fixed id :
  0 <= id < max_id -> SegmentName id = fixed 10 id ++ bs ".log".
Proof.
  intros H. unfold SegmentName, decimal.
  destruct (Z.ltb_spec id 0); [lia|]. by rewrite dec_pad by (unfold max_id in H; lia).
Qed.

Lemma parse_digits_app acc l k :
  parse_digits acc (l ++ k) =
  match parse_digits acc l with Some a => parse_digits a k | None => None end.
Proof.
  revert acc. induction l as [|c l IH]; intros acc; cbn; [done|]. by case_match.
Qed.

Lemma parse_digits_fixed n id :
  0 <= id < 10 ^ Z.of_nat n -> parse_digits 0 (fixed n id) = Some id.
Proof.
  revert id. induction n as [|n IH]; intros id Hid; cbn [fixed].
  { cbn in *. f_equal. lia. }
  rewrite Nat2Z.inj_succ, Z.pow_succ_r in Hid by lia.
  rewrite parse_digits_app, IH.
  2:{ split; [apply Z.div_pos; lia|]. apply Z.div_lt_upper_bound; lia. }
  cbn [parse_digits]. pose proof (Z.mod_pos_bound id 10 ltac:(lia)).
  rewrite byteZ_digit by done.
  destruct (Z.ltb_spec (48 + id mod 10) 48), (Z.ltb_spec 57 (48 + id mod 10)); cbn [orb];
    try lia. f_equal. pose proof (Z.div_mod id 10 ltac:(lia)). lia.
Qed.

Lemma parse_digits_inv l id :
  parse_digits 0 l = Some id -> 0 <= id < 10 ^ blen l /\ l = fixed (length l) id.
Proof.
  revert id. induction l as [|c l IH] using rev_ind; intros id H.
  { cbn in H. simplify_eq. done. }
  rewrite parse_digits_app in H.
  destruct (parse_digits 0 l) as [a|] eqn:E; [|done].
  destruct (IH a eq_refl) as [Ha Hl]. cbn [parse_digits] in H.
  destruct (Z.ltb_spec (byteZ c) 48), (Z.ltb_spec 57 (byteZ c)); cbn [orb] in H;
    simplify_eq.
  assert (blen (l ++ [c]) = blen l + 1) as -> by (by rewrite blen_app).
  rewrite Z.pow_add_r by (pose proof (blen_nonneg l); lia).
  split; [lia|]. rewrite length_app. cbn [length].
  replace (length l + 1)%nat with (S (length l)) by lia. cbn [fixed].
  rewrite Z.div_add_l, (Z.div_small (byteZ c - 48)), Z.add_0_r, <- Hl by lia.
  f_equal. f_equal. rewrite Z.add_comm, Z.mod_add, Z.mod_small by lia.
  unfold digit. replace (48 + (byteZ c - 48)) with (byteZ c) by lia.
  by rewrite Zbyte_byteZ.
Qed.

(** The extension of a name ending in ".log" after a slash-free stem. *)
Lemma ext_rev_suffix l acc e :
  ext_rev l acc = e -> e <> [] -> e `suffix_of` rev l ++ acc.
Proof.
  revert acc. induction l as [|c l IH]; intros acc He Hne; cbn in He; [done|].
  cbn [rev]. rewrite <- app_assoc. cbn [app].
  case_bool_decide; [done|]. case_bool_decide.
  - subst e. by exists (rev l).
  - by apply IH in He.
Qed.

Lemma Ext_suffix name e : Ext name = e -> e <> [] -> e `suffix_of` name.
Proof.
  unfold Ext. intros H Hne. apply ext_rev_suffix in H; [|done].
  by rewrite rev_involutive, app_nil_r in H.
Qed.

Lemma Ext_log stem : Ext (stem ++ bs ".log") = bs ".log".
Proof. unfold Ext. by rewrite rev_app_distr. Qed.

Lemma ParseSegmentID_spec name id :
  ParseSegmentID name = Some id <-> 0 <= id < max_id /\ name = SegmentName id.
Proof.
  unfold ParseSegmentID. split.
  - destruct (Z.eqb_spec (blen name) (blen (bs "0000000000.log"))) as [Hl|]; [|done].
    case_bool_decide as He; [|done]. cbn [negb orb]. intros Hp.
    apply Ext_suffix in He as [stem ->]; [|done].
    rewrite blen_app in Hl. change (blen (bs "0000000000.log")) with 14 in Hl.
    change (blen (bs ".log")) with 4 in Hl.
    assert (Hs : length stem = 10%nat) by (unfold blen in Hl; lia).
    rewrite take_app_length' in Hp by done.
    apply parse_digits_inv in Hp as [Hid Hst]. unfold blen in Hid. rewrite Hs in *.
    split; [exact Hid|]. by rewrite SegmentName_fixed, <- Hst.
  - intros [Hid ->]. rewrite SegmentName_fixed, Ext_log by done.
    rewrite bool_decide_eq_true_2 by done.
    rewrite take_app_length' by (by rewrite length_fixed).
    unfold blen at 1. rewrite length_app, length_fixed. cbn [negb orb].
    by apply parse_digits_fixed.
Qed.

Lemma SegmentName_inj id1 id2 :
  0 <= id1 < max_id -> 0 <= id2 < max_id ->
  SegmentName id1 = SegmentName id2 -> id1 = id2.
Proof.
  intros H1 H2 He.
  assert (Hp : ParseSegmentID (SegmentName id1) = Some id1) by (by apply ParseSegmentID_spec).
  rewrite He in Hp. assert (Hq : ParseSegmentID (SegmentName id2) = Some id2)
    by (by apply ParseSegmentID_spec). congruence.
Qed.

(** ** Fault-free segment operations *)

Definition no_faults (w : World) : Prop := FileSys.faults (fs w) = [].

Lemma os_Ok {A} (m : M FileSys.FS A) w s a :
  m (fs w) = (s, Ok a) -> os m w = (MkWorld s (heap w) (hnext w), Ok a).
Proof. intros H. unfold os, zoom. by rewrite H. Qed.

Lemma os_Ok_same {A} (m : M FileSys.FS A) w a :
  m (fs w) = (fs w, Ok a) -> os m w = (w, Ok a).
Proof. intros H. rewrite (os_Ok _ _ _ _ H). by destruct w. Qed.

Lemma os_Err_same {A} (m : M FileSys.FS A) w e :
  m (fs w) = (fs w, Err e) -> os m w = (w, Err e).
Proof. intros H. unfold os, zoom. rewrite H. by destruct w. Qed.

Lemma load_Ok p w sg : heap w !! p = Some sg -> load p w = (w, Ok sg).
Proof. intros H. unfold load. by rewrite H. Qed.

(** The world after appending [b] to segment [sg] at [p], whose file [ino]
    holds [c]. *)
Definition appended (w : World) (p : ptr) (sg : Segment) (ino : nat) (c b : bytes) : World :=
  MkWorld (FileSys.set_data (<[ino := c ++ b]> (FileSys.data (fs w))) (fs w))
    (<[p := MkSegment (fileID sg) (path sg) (f sg) (size sg + blen b)]> (heap w)) (hnext w).

Lemma Append_Ok w p sg ino c key value t :
  no_faults w -> heap w !! p = Some sg -> f sg = Some ino ->
  FileSys.data (fs w) !! ino = Some c ->
  blen c + blen (Encode key value t) <= FileSys.max_file ->
  Append p key value t w
  = (appended w p sg ino c (Encode key value t), Ok (size sg, blen (Encode key value t))).
Proof.
  intros Hf Hp Hino Hc Hroom. unfold Append.
  rewrite (M_bind_Ok _ _ _ _ _ (load_Ok _ _ _ Hp)). cbv zeta. rewrite Hino.
  unfold on_file. erewrite M_bind_Ok.
  2:{ apply wrapping_Ok, os_Ok. rewrite FileSys.Write_none by done.
      rewrite (FileSys.content_Some _ _ _ Hc).
      rewrite (proj2 (Z.ltb_ge _ _) Hroom). reflexivity. }
  rewrite Z.eqb_refl. cbn [negb]. by rewrite <- Hino.
Qed.

Lemma Sync_Ok w p sg ino :
  no_faults w -> heap w !! p = Some sg -> f sg = Some ino -> Sync p w = (w, Ok tt).
Proof.
  intros Hf Hp Hino. unfold Sync.
  rewrite (M_bind_Ok _ _ _ _ _ (load_Ok _ _ _ Hp)), Hino.
  apply wrapping_Ok, os_Ok_same. unfold FileSys.Sync. by rewrite FileSys.syscall_none.
Qed.

Lemma Size_Ok w p sg : heap w !! p = Some sg -> Size p w = (w, Ok (size sg)).
Proof. intros Hp. unfold Size. by rewrite (M_bind_Ok _ _ _ _ _ (load_Ok _ _ _ Hp)). Qed.

Lemma File_Ok w p sg : heap w !! p = Some sg -> File p w = (w, Ok (f sg)).
Proof. intros Hp. unfold File. by rewrite (M_bind_Ok _ _ _ _ _ (load_Ok _ _ _ Hp)). Qed.

(** The world after closing the segment at [p]. *)
Definition closed_at (w : World) (p : ptr) (sg : Segment) : World :=
  MkWorld (fs w) (<[p := MkSegment (fileID sg) (path sg) None (size sg)]> (heap w)) (hnext w).

Lemma Close_Ok w p sg ino :
  no_faults w -> heap w !! p = Some sg -> f sg = Some ino ->
  Close p w = (closed_at w p sg, Ok tt).
Proof.
  intros Hf Hp Hino. unfold Close.
  rewrite (M_bind_Ok _ _ _ _ _ (load_Ok _ _ _ Hp)), Hino.
  erewrite M_bind_Ok.
  2:{ apply attempt_Ok, os_Ok_same. unfold FileSys.Close.
      rewrite FileSys.syscall_none by done. reflexivity. }
  reflexivity.
Qed.

(** Reading back a frame stored at [off]. *)
Lemma readRecordAt_Ok w ino id off pre key value t post :
  no_faults w -> FileSys.content (fs w) ino = pre ++ Encode key value t ++ post ->
  off = blen pre -> fits key value ->
  readRecordAt ino id off w
  = (w, Ok {| Key := key; Value := value; Tombstone := t; FileID := id; Offset := off;
              LogEntry.Size := frameSize (blen key) (blen value) |}).
Proof.
  intros Hf Hc Ho Hfit. destruct (header_of_fits key value t Hfit) as [Hk Hv].
  pose proof (blen_nonneg key). pose proof (blen_nonneg value).
  pose proof (Encode_app key value t post) as He.
  set (c4 := be_put 4 (ComputeCRC key value t)) in *.
  set (hb := encodeHeader (header_of key value t)) in *.
  assert (Hhb : blen (c4 ++ hb) = 4 + headerSize)
    by (rewrite blen_app; unfold hb; by rewrite blen_encodeHeader).
  unfold readRecordAt. erewrite M_bind_Ok.
  2:{ apply wrapping_Ok, os_Ok_same.
      apply (FileSys.ReadAt_none _ _ _ _ pre (c4 ++ hb) (key ++ value ++ post));
        [done| |done|done].
      by rewrite Hc, He, <- !app_assoc. }
  pose proof (slice_app c4 hb [] 4 (4 + headerSize) eq_refl
    ltac:(unfold hb; by rewrite blen_encodeHeader)) as Hs.
  rewrite app_nil_r in Hs. rewrite (lift_bind_Ok _ _ _ _ Hs).
  rewrite (lift_bind_Ok _ _ _ _ (decodeHeader_header_of key value t)).
  destruct Hfit as [Hk32 Hv32]. cbv zeta. rewrite Hk, Hv.
  rewrite i64_small by (unfold headerSize; lia).
  erewrite M_bind_Ok.
  2:{ apply wrapping_Ok, os_Ok_same.
      apply (FileSys.ReadAt_none _ _ _ _ pre (Encode key value t) post); [done|done|done|].
      rewrite blen_Encode. by unfold frameSize. }
  pose proof (Decode_Encode key value t [] (conj Hk32 Hv32)) as Hd.
  rewrite app_nil_r in Hd. by rewrite (lift_bind_Ok _ _ _ _ Hd).
Qed.

(** Creating the file of a segment that has none. *)
Definition created (w : World) (d : bytes) (id : Z) : World :=
  MkWorld
    (FileSys.MkFS (FileSys.dirs (fs w))
       (<[(d, SegmentName id) := FileSys.DFile (FileSys.next (fs w))]> (FileSys.names (fs w)))
       (<[FileSys.next (fs w) := []]> (FileSys.data (fs w)))
       (S (FileSys.next (fs w))) (FileSys.faults (fs w)))
    (<[hnext w := MkSegment id (SegmentPath d id) (Some (FileSys.next (fs w))) 0]> (heap w))
    (S (hnext w)).

Lemma NewSegment_fresh w d id :
  no_faults w -> d ∈ FileSys.dirs (fs w) ->
  FileSys.names (fs w) !! (d, SegmentName id) = None ->
  NewSegment d id w = (created w d id, Ok (hnext w)).
Proof.
  intros Hf Hd Hn. unfold NewSegment. erewrite M_bind_Ok.
  2:{ apply wrapping_Ok, os_Ok. unfold FileSys.OpenAppend.
      rewrite FileSys.syscall_none, Hn by done.
      rewrite bool_decide_eq_true_2 by done. reflexivity. }
  unfold open_segment. erewrite M_bind_Ok.
  2:{ apply attempt_Ok, os_Ok_same. unfold FileSys.StatSize.
      rewrite FileSys.syscall_none by done.
      erewrite FileSys.content_Some by apply lookup_insert_eq. reflexivity. }
  reflexivity.
Qed.

(** Opening a segment whose file exists, for appending or for reading. *)
Definition opened (w : World) (d : bytes) (id : Z) (ino : nat) (c : bytes) : World :=
  MkWorld (fs w) (<[hnext w := MkSegment id (SegmentPath d id) (Some ino) (blen c)]> (heap w))
    (S (hnext w)).

Lemma open_segment_Ok w d id ino c :
  no_faults w -> FileSys.data (fs w) !! ino = Some c ->
  open_segment d id ino w = (opened w d id ino c, Ok (hnext w)).
Proof.
  intros Hf Hc. unfold open_segment. erewrite M_bind_Ok.
  2:{ apply attempt_Ok, os_Ok_same. unfold FileSys.StatSize.
      rewrite FileSys.syscall_none, (FileSys.content_Some _ _ _ Hc) by done. reflexivity. }
  reflexivity.
Qed.

Lemma NewSegment_existing w d id ino c :
  no_faults w -> FileSys.names (fs w) !! (d, SegmentName id) = Some (FileSys.DFile ino) ->
  FileSys.data (fs w) !! ino = Some c ->
  NewSegment d id w = (opened w d id ino c, Ok (hnext w)).
Proof.
  intros Hf Hn Hc. unfold NewSegment. erewrite M_bind_Ok.
  2:{ apply wrapping_Ok, os_Ok_same. unfold FileSys.OpenAppend.
      rewrite FileSys.syscall_none, Hn by done. reflexivity. }
  by apply open_segment_Ok.
Qed.

Lemma OpenReadOnly_existing w d id ino c :
  no_faults w -> FileSys.names (fs w) !! (d, SegmentName id) = Some (FileSys.DFile ino) ->
  FileSys.data (fs w) !! ino = Some c ->
  OpenReadOnly d id w = (opened w d id ino c, Ok (hnext w)).
Proof.
  intros Hf Hn Hc. unfold OpenReadOnly. erewrite M_bind_Ok.
  2:{ apply wrapping_Ok, os_Ok_same. unfold FileSys.Open.
      rewrite FileSys.syscall_none, Hn by done. reflexivity. }
  by apply open_segment_Ok.
Qed.
End Segment.
