(* ===== verification/Store.v ===== *)
(** * The store facade: internal/store/store.go and internal/store/merge.go

    The store's methods as state transformers over the world (file system and
    segment heap) and the [Store] record.  The store's mutex is held for the
    whole of every method, so a method is one atomic step. *)
From S2P Require Import Prelude LogEntry LogReader Index FileSys Segment.

Module Store.
Import Index Segment.

Definition ErrEmptyKey : error := errors_New "store: empty key".
Definition ErrClosed : error := errors_New "store: store is closed".

Definition hintFile : bytes := bs "hint.bin".

Record Options := MkOptions { SyncOnWrite : bool; MaxFileSize : Z }.

Definition DefaultOptions : Options := MkOptions false 0.

Record Store := MkStore {
  dir : bytes;
  opts : Options;
  index : Index;
  segments : gmap Z ptr;
  activeID : Z;
  active : option ptr;
  closed : bool;
}.

Definition set_index (i : Index) (s : Store) : Store :=
  MkStore (dir s) (opts s) i (segments s) (activeID s) (active s) (closed s).
Definition set_segments (m : gmap Z ptr) (s : Store) : Store :=
  MkStore (dir s) (opts s) (index s) m (activeID s) (active s) (closed s).
Definition set_active (id : Z) (p : option ptr) (s : Store) : Store :=
  MkStore (dir s) (opts s) (index s) (segments s) id p (closed s).
Definition set_closed (s : Store) : Store :=
  MkStore (dir s) (opts s) (index s) (segments s) (activeID s) (active s) true.

Record State := MkState { world : World; st : Store }.

(** Calls on the world from a store method, reading and updating [*s]. *)
Definition on_world {A} (m : M World A) : M State A :=
  zoom world (fun w x => MkState w (st x)) m.
Definition self : M State Store := fun x => (x, Ok (st x)).
Definition update (g : Store -> Store) : M State unit :=
  modify (fun x => MkState (world x) (g (st x))).

(** A method call through the pointer [s.active]; nil panics. *)
Definition on_active {A} (m : ptr -> M World A) : M State A :=
  s ← self;
  match active s with
  | Some p => on_world (m p)
  | None => lift_res Panic
  end.

(** ** Listing a directory *)

Definition segment_ids (entries : list (bytes * FileSys.dent)) : list Z :=
  omap (fun '(name, e) =>
    match e with
    | FileSys.DDir => None
    | FileSys.DFile _ => ParseSegmentID name
    end) entries.

Definition listSegments (d : bytes) : M World (list Z) :=
  entries ← wrapping "store: read dir %s: %w" (os (FileSys.ReadDir d));
  mret (sort_ints (segment_ids entries)).

(** ** Hint file *)

Definition readHintFile (d : bytes) : M World (option Index) :=
  r ← attempt (os (FileSys.Open d hintFile));
  match r with
  | inl err => if FileSys.IsNotExist err then mret None else throw err
  | inr ino =>
      rd ← os (FileSys.stream ino);
      let '((_, idx), res) := LoadHint (rd, New) in
      ignore (os (FileSys.Close ino)) ≫= fun _ =>
      lift_res res ≫= fun _ => mret (Some idx)
  end.

(** An [*os.File] as an [io.Writer]. *)
Definition file_writer (ino : nat) : Writer World := fun b => os (FileSys.Write ino b).

(** [if err := m; err != nil { _ = cleanup; return err }]. *)
Definition or_else {St A} (m : M St A) (cleanup : M St unit) : M St A :=
  r ← attempt m;
  match r with
  | inl err => ignore cleanup ≫= fun _ => throw err
  | inr a => mret a
  end.

Definition writeHintFile (d : bytes) (idx : Index) : M World unit :=
  ino ← wrapping "store: create hint %s: %w" (os (FileSys.Create d hintFile));
  or_else (@WriteHint World (file_writer ino) idx) (os (FileSys.Close ino)) ≫= fun _ =>
  or_else (os (FileSys.Sync ino)) (os (FileSys.Close ino)) ≫= fun _ =>
  os (FileSys.Close ino).

(** ** Scanning *)

(** The record loop of [scanIndex] for segment [id].  The number of records is
    bounded by the stream's length: [fuel] is one more than that, and running
    out of it is shown impossible below. *)
Fixpoint scan_loop (fuel : nat) (id : Z) (rd : LogReader.Reader) (idx : Index)
    : res Index :=
  match fuel with
  | O => Panic
  | S fuel' =>
      match LogReader.Next rd with
      | (rd', Ok e) =>
          scan_loop fuel' id rd'
            (Put (LogEntry.Key e)
               (MkLocation id (LogEntry.Offset e) (LogEntry.Size e) (LogEntry.Tombstone e)) idx)
      | (_, Err err) =>
          if errors_Is err EOF then Ok idx
          else Err (Errorf "store: scan segment %d: %w" err)
      | (_, Panic) => Panic
      end
  end.

Definition scan_stream (id : Z) (rd : ioReader) (idx : Index) : res Index :=
  scan_loop (S (length (rem rd))) id (LogReader.NewReader rd) idx.

(** A stream over a segment's handle; a nil handle fails on the first read. *)
Definition handle_stream (h : option nat) : M World ioReader :=
  match h with
  | Some ino => os (FileSys.stream ino)
  | None => mret (MkIoReader [] FileSys.ErrInvalid)
  end.

Definition scanIndex (ids : list Z) : M State unit :=
  range_loop ids (fun id =>
    s ← self;
    match segments s !! id with
    | None => lift_res Panic
    | Some p =>
        h ← on_world (File p);
        rd ← on_world (handle_stream h);
        (* entries indexed before an error stay in [s.index], but the store is
           then discarded by [Open] *)
        idx ← lift_res (scan_stream id rd (index s));
        update (set_index idx)
    end).

Section WithRange.
Context `{!GoRange Z}.

(** ** Closing *)

Fixpoint close_loop (l : list (Z * ptr)) (firstErr : option error)
    : M State (option error) :=
  match l with
  | [] => mret firstErr
  | (id, p) :: l' =>
      r ← attempt (on_world (Close p));
      update (fun s => set_segments (delete id (segments s)) s) ≫= fun _ =>
      close_loop l' (match r, firstErr with
                     | inl err, None => Some err
                     | _, _ => firstErr
                     end)
  end.

Definition closeSegmentsLocked : M State unit :=
  s ← self;
  firstErr ← close_loop (go_range (segments s)) None;
  update (set_active 0 None) ≫= fun _ =>
  match firstErr with
  | Some err => throw err
  | None => mret tt
  end.

Definition closeSegments : M State unit := closeSegmentsLocked.

Definition Close : M State unit :=
  s ← self;
  if closed s then mret tt
  else update set_closed ≫= fun _ => closeSegmentsLocked.

(** ** Opening *)

Definition open_loop (ids : list Z) : M State unit :=
  range_loop ids (fun id =>
    s ← self;
    p ← or_else
          (on_world (if bool_decide (Some id = list.last ids) then NewSegment (dir s) id
                     else OpenReadOnly (dir s) id))
          closeSegments;
    update (fun s => set_segments (<[id := p]> (segments s)) s)).

(** The hint file is preferred to the log. *)
Definition load_index (ids : list Z) : M State unit :=
  s ← self;
  r ← attempt (on_world (readHintFile (dir s)));
  match r with
  | inl herr =>
      ignore closeSegments ≫= fun _ => throw (Errorf "store: load hint: %w" herr)
  | inr (Some hintIdx) => update (set_index hintIdx)
  | inr None => or_else (scanIndex ids) closeSegments
  end.

(** Running a method on a new store object and returning the object. *)
Definition in_store (s : Store) (m : M State unit) : M World Store := fun w =>
  match m (MkState w s) with
  | (x, Ok _) => (world x, Ok (st x))
  | (x, Err e) => (world x, Err e)
  | (x, Panic) => (world x, Panic)
  end.

Definition OpenWithOptions (d : bytes) (o : Options) : M World Store :=
  wrapping "store: create dir %s: %w" (os (FileSys.MkdirAll d)) ≫= fun _ =>
  ids ← listSegments d;
  let s := MkStore d o New ∅ 0 None false in
  match list.last ids with
  | None =>
      p ← NewSegment d 1;
      mret (set_active 1 (Some p) (set_segments {[1 := p]} s))
  | Some last =>
      in_store s (
        open_loop ids ≫= fun _ =>
        update (fun s => set_active last (segments s !! last) s) ≫= fun _ =>
        load_index ids)
  end.

Definition Open (d : bytes) : M World Store := OpenWithOptions d DefaultOptions.

(** ** Rotation *)

Definition maxFileID (m : gmap Z ptr) : Z :=
  foldl (fun max '(id, _) => if max <? id then id else max) 0 (go_range m).

Definition rotate : M State unit :=
  s ← self;
  let newID := i64 (maxFileID (segments s) + 1) in
  seg ← on_world (NewSegment (dir s) newID);
  update (fun s => set_active newID (Some seg)
                     (set_segments (<[newID := seg]> (segments s)) s)).

(** ** Reading and writing *)

Definition Put (key value : bytes) : M State unit :=
  s ← self;
  if closed s then throw ErrClosed
  else if blen key =? 0 then throw ErrEmptyKey
  else
    r ← on_active (fun p => Append p key value false);
    let '(off, sz) := r in
    update (fun s => set_index
      (Index.Put key (MkLocation (activeID s) off sz false) (index s)) s) ≫= fun _ =>
    (if SyncOnWrite (opts s) then on_active Sync else mret tt) ≫= fun _ =>
    if 0 <? MaxFileSize (opts s) then
      n ← on_active Size;
      if MaxFileSize (opts s) <? n then rotate else mret tt
    else mret tt.

(** The result [nil, false] is [None]. *)
Definition Get (key : bytes) : M State (option bytes) :=
  s ← self;
  if closed s then throw ErrClosed
  else
    let '(loc, ok) := Index.Get (index s) key in
    if negb ok || Tombstone loc then mret None
    else
      match segments s !! FileID loc with
      | None => throw (errors_New "store: segment %d not open")
      | Some p =>
          e ← on_world (ReadAt p (Offset loc));
          mret (Some (LogEntry.Value e))
      end.

Definition Delete (key : bytes) : M State unit :=
  s ← self;
  if closed s then throw ErrClosed
  else if blen key =? 0 then throw ErrEmptyKey
  else
    r ← on_active (fun p => Append p key [] true);
    let '(off, sz) := r in
    update (fun s => set_index
      (Index.Put key (MkLocation (activeID s) off sz true) (index s)) s) ≫= fun _ =>
    if SyncOnWrite (opts s) then on_active Sync else mret tt.

Definition Count (s : Store) : Z := blen (LiveEntries (index s)).

Definition FileIDs (s : Store) : list Z := sort_ints (go_range (segments s)).*1.

Definition Dir (s : Store) : bytes := dir s.
End WithRange.
End Store.
