(* ===== verification/Merge.v ===== *)
(** * Compaction: internal/store/merge.go *)
From S2P Require Import Prelude LogEntry LogReader Index FileSys Segment Store.

Module Merge.
Import Index Segment Store.

(** [getReader]: one read-only handle per source segment, cached in [readers]. *)
Definition getReader (d : bytes) (id : Z) (readers : gmap Z nat) : M World (nat * gmap Z nat) :=
  match readers !! id with
  | Some ino => mret (ino, readers)
  | None =>
      ino ← os (FileSys.Open d (SegmentName id));
      mret (ino, <[id := ino]> readers)
  end.

(** The copy loop.  It returns the open readers, which a deferred function
    closes on every path, and the new index or the error. *)
Fixpoint merge_loop (d : bytes) (newSeg : ptr) (newID : Z) (live : list KeyLocation)
    (readers : gmap Z nat) (newIndex : Index) : M World (gmap Z nat * (error + Index)) :=
  match live with
  | [] => mret (readers, inr newIndex)
  | kl :: live' =>
      let fail readers err :=
        ignore (Segment.Close newSeg) ≫= fun _ => mret (readers, inl err) in
      rf ← attempt (getReader d (FileID (Loc kl)) readers);
      match rf with
      | inl err => fail readers (Errorf "store: open source segment %d: %w" err)
      | inr (ino, readers') =>
          re ← attempt (ReadRecordAt ino (FileID (Loc kl)) (Offset (Loc kl)));
          match re with
          | inl err => fail readers' (Errorf "store: read live key %q: %w" err)
          | inr e =>
              ra ← attempt (Append newSeg (LogEntry.Key e) (LogEntry.Value e) false);
              match ra with
              | inl err => fail readers' err
              | inr (off, sz) =>
                  merge_loop d newSeg newID live' readers'
                    (Index.Put (Key kl) (MkLocation newID off sz false) newIndex)
              end
          end
      end
  end.

Section WithRange.
Context `{!GoRange Z}.

(** [defer func() { for _, f := range readers { _ = f.Close() } }()]. *)
Definition close_readers (readers : gmap Z nat) : M World unit :=
  range_loop (go_range readers).*2 (fun ino => ignore (os (FileSys.Close ino))).

(** Closing a segment of the map and dropping it from the map. *)
Definition drop_segment (id : Z) : M State unit :=
  s ← self;
  (match segments s !! id with
   | Some p => ignore (on_world (Segment.Close p))
   | None => mret tt
   end) ≫= fun _ =>
  update (fun s => set_segments (delete id (segments s)) s).

(** [os.Remove], a missing file not being an error. *)
Definition remove_file (d name : bytes) (fmt : string) : M State unit :=
  r ← attempt (on_world (os (FileSys.Remove d name)));
  match r with
  | inl err => if FileSys.IsNotExist err then mret tt else throw (Errorf fmt err)
  | inr _ => mret tt
  end.

(** From the sync of the merged segment to the end of [Merge]. *)
Definition promote (newSeg : ptr) (newID : Z) (newIndex : Index) : M State unit :=
  or_else (on_world (Segment.Sync newSeg)) (on_world (Segment.Close newSeg)) ≫= fun _ =>
  s ← self;
  or_else (on_world (writeHintFile (dir s) newIndex)) (on_world (Segment.Close newSeg))
    ≫= fun _ =>
  range_loop (go_range (segments s)).*1 (fun id =>
    drop_segment id ≫= fun _ =>
    if id =? newID then mret tt
    else remove_file (dir s) (SegmentName id) "store: remove old segment %d: %w")
    ≫= fun _ =>
  update (fun s => set_index newIndex
                     (set_active newID (Some newSeg)
                        (set_segments (<[newID := newSeg]> (segments s)) s))).

Definition resetToEmpty : M State unit :=
  s ← self;
  range_loop (go_range (segments s)).*1 (fun id =>
    drop_segment id ≫= fun _ =>
    remove_file (dir s) (SegmentName id) "store: remove segment %d: %w") ≫= fun _ =>
  remove_file (dir s) hintFile "store: remove hint: %w" ≫= fun _ =>
  seg ← on_world (NewSegment (dir s) 1);
  update (fun s => set_index Index.New
                     (set_active 1 (Some seg)
                        (set_segments (<[1 := seg]> (segments s)) s))).

Definition Merge : M State unit :=
  s ← self;
  if closed s then throw ErrClosed
  else
    on_active Segment.Sync ≫= fun _ =>
    let live := LiveEntries (index s) in
    if bool_decide (length live = 0%nat) then resetToEmpty
    else
      let newID := i64 (maxFileID (segments s) + 1) in
      newSeg ← on_world (NewSegment (dir s) newID);
      rr ← on_world (merge_loop (dir s) newSeg newID live ∅ Index.New);
      let '(readers, r) := rr in
      res ← attempt (match r with
                     | inl err => throw err
                     | inr newIndex => promote newSeg newID newIndex
                     end);
      on_world (close_readers readers) ≫= fun _ =>
      match res with
      | inl err => throw err
      | inr _ => mret tt
      end.
End WithRange.
End Merge.
