(* ===== verification/Wp.v ===== *)
(** * Weakest preconditions for the state and error monad

    [wp m s Q] says that running [m] from [s] ends in a state and a result that
    satisfy [Q]; panics are results like any other, so [Q] has to exclude them.
    One rule per combinator turns the control flow of a Go function into cases,
    which is how executions with arbitrary failing system calls are covered. *)
From S2P Require Import Prelude LogEntry FileSys Segment Store.
Import Segment Store.

Module Wp.

Definition wp {St A : Type} (m : M St A) (s : St) (Q : St -> res A -> Prop) : Prop :=
  Q (m s).1 (m s).2.

Section Rules.
Context {St : Type}.
Implicit Types s : St.

Lemma wp_run {A} (m : M St A) s s' r (Q : St -> res A -> Prop) :
  m s = (s', r) -> Q s' r -> wp m s Q.
Proof. unfold wp. by intros ->. Qed.

Lemma wp_result {A} (m : M St A) s s' r (Q : St -> res A -> Prop) :
  wp m s Q -> m s = (s', r) -> Q s' r.
Proof. unfold wp. intros H E. by rewrite E in H. Qed.

Lemma wp_mono {A} (m : M St A) s (P Q : St -> res A -> Prop) :
  wp m s P -> (forall s' r, P s' r -> Q s' r) -> wp m s Q.
Proof. unfold wp. auto. Qed.

Lemma wp_ret {A} (a : A) s (Q : St -> res A -> Prop) : Q s (Ok a) -> wp (mret a) s Q.
Proof. done. Qed.

Lemma wp_throw {A} e s (Q : St -> res A -> Prop) : Q s (Err e) -> wp (throw e) s Q.
Proof. done. Qed.

(** What follows a bind sees a value; errors and panics pass through. *)
Definition bind_post {A B} (f : A -> M St B) (Q : St -> res B -> Prop) (s' : St) (r : res A) : Prop :=
  match r with
  | Ok a => wp (f a) s' Q
  | Err e => Q s' (Err e)
  | Panic => Q s' Panic
  end.

Lemma wp_bind {A B} (m : M St A) (f : A -> M St B) s (Q : St -> res B -> Prop) :
  wp m s (bind_post f Q) -> wp (m ≫= f) s Q.
Proof.
  unfold wp, mbind, M_bind. destruct (m s) as [s' [a|e|]]; done.
Qed.

Lemma wp_attempt {A} (m : M St A) s (Q : St -> res (error + A) -> Prop) :
  wp m s (fun s' r => match r with
                      | Ok a => Q s' (Ok (inr a))
                      | Err e => Q s' (Ok (inl e))
                      | Panic => Q s' Panic
                      end) ->
  wp (attempt m) s Q.
Proof. unfold wp, attempt. destruct (m s) as [s' [a|e|]]; done. Qed.

Lemma wp_ignore {A} (m : M St A) s (Q : St -> res unit -> Prop) :
  wp m s (fun s' r => r <> Panic /\ Q s' (Ok tt)) -> wp (ignore m) s Q.
Proof.
  unfold wp, ignore, mbind, M_bind, attempt. destruct (m s) as [s' [a|e|]]; naive_solver.
Qed.

Lemma wp_wrapping {A} fmt (m : M St A) s (Q : St -> res A -> Prop) :
  wp m s (fun s' r => match r with
                      | Err e => Q s' (Err (Errorf fmt e))
                      | _ => Q s' r
                      end) ->
  wp (wrapping fmt m) s Q.
Proof. unfold wp, wrapping. destruct (m s) as [s' [a|e|]]; done. Qed.

Lemma wp_failing_as {A} e (m : M St A) s (Q : St -> res A -> Prop) :
  wp m s (fun s' r => match r with
                      | Err _ => Q s' (Err e)
                      | _ => Q s' r
                      end) ->
  wp (failing_as e m) s Q.
Proof. unfold wp, failing_as. destruct (m s) as [s' [a|e'|]]; done. Qed.

Lemma wp_or_else {A} (m : M St A) (c : M St unit) s (Q : St -> res A -> Prop) :
  wp m s (fun s' r => match r with
                      | Ok a => Q s' (Ok a)
                      | Err e => wp c s' (fun s'' r' => r' <> Panic /\ Q s'' (Err e))
                      | Panic => Q s' Panic
                      end) ->
  wp (or_else m c) s Q.
Proof.
  intros H. apply wp_bind, wp_attempt. eapply wp_mono; [exact H|].
  intros s' [a|e|] Hr; cbn; [done| |done].
  apply wp_bind, wp_ignore. eapply wp_mono; [exact Hr|]. by intros s'' r' [? ?].
Qed.

(** A loop keeps an invariant that every round keeps, whatever it returns. *)
Lemma wp_range_loop {A} (l : list A) (body : A -> M St unit) s (I : list A -> St -> Prop)
    (Q : St -> res unit -> Prop) :
  I l s ->
  (forall a l' s', I (a :: l') s' ->
     wp (body a) s' (fun s'' r =>
       match r with Ok _ => I l' s'' | _ => Q s'' r end)) ->
  (forall s', I [] s' -> Q s' (Ok tt)) ->
  wp (range_loop l body) s Q.
Proof.
  intros Hl Hbody Hend. revert s Hl. induction l as [|a l IH]; intros s Hl; cbn [range_loop].
  { by apply wp_ret, Hend. }
  apply wp_bind. eapply wp_mono; [by apply Hbody|].
  intros s' [[]|e|] Hr; [by apply IH|done|done].
Qed.
End Rules.

Lemma wp_zoom {St Sub A} (sel : St -> Sub) (upd : Sub -> St -> St) (m : M Sub A) s
    (Q : St -> res A -> Prop) :
  wp m (sel s) (fun sub r => Q (upd sub s) r) -> wp (zoom sel upd m) s Q.
Proof. unfold wp, zoom. by destruct (m (sel s)). Qed.

Lemma wp_os {A} (m : M FileSys.FS A) w (Q : World -> res A -> Prop) :
  wp m (fs w) (fun s r => Q (MkWorld s (heap w) (hnext w)) r) -> wp (os m) w Q.
Proof. intros H. by apply (wp_zoom fs (fun s w => MkWorld s (heap w) (hnext w))). Qed.

Lemma wp_on_world {A} (m : M World A) x (Q : State -> res A -> Prop) :
  wp m (world x) (fun w r => Q (MkState w (st x)) r) -> wp (on_world m) x Q.
Proof. intros H. by apply (wp_zoom world (fun w x => MkState w (st x))). Qed.

Lemma wp_on_active {A} (m : ptr -> M World A) x p (Q : State -> res A -> Prop) :
  active (st x) = Some p ->
  wp (m p) (world x) (fun w r => Q (MkState w (st x)) r) -> wp (on_active m) x Q.
Proof.
  intros Hp H. apply wp_bind. unfold self, wp at 1. cbn. rewrite Hp. by apply wp_on_world.
Qed.

Lemma wp_self {B} (k : Store -> M State B) x (Q : State -> res B -> Prop) :
  wp (k (st x)) x Q -> wp (self ≫= k) x Q.
Proof. done. Qed.

Lemma wp_update {B} g (k : unit -> M State B) x (Q : State -> res B -> Prop) :
  wp (k tt) (MkState (world x) (g (st x))) Q -> wp (update g ≫= k) x Q.
Proof. done. Qed.

Lemma wp_load p w sg (Q : World -> res Segment -> Prop) :
  heap w !! p = Some sg -> Q w (Ok sg) -> wp (load p) w Q.
Proof. intros Hp H. eapply wp_run; [by apply load_Ok|done]. Qed.

(** ** Any fault at any system call *)

(** What the environment will do next does not matter to the files. *)
Definition refault (fl : list FileSys.fault) (s : FileSys.FS) : FileSys.FS :=
  FileSys.MkFS (FileSys.dirs s) (FileSys.names s) (FileSys.data s) (FileSys.next s) fl.

Definition refault_w (fl : list FileSys.fault) (w : World) : World :=
  MkWorld (refault fl (fs w)) (heap w) (hnext w).

Lemma refault_refault fl fl' s : refault fl (refault fl' s) = refault fl s.
Proof. done. Qed.

Lemma wp_pop s (Q : FileSys.FS -> res FileSys.fault -> Prop) :
  (forall fl x, Q (refault fl s) (Ok x)) -> wp FileSys.pop_fault s Q.
Proof.
  intros H. unfold wp, FileSys.pop_fault. destruct (FileSys.faults s) as [|x l] eqn:E.
  - replace s with (refault [] s) at 1 by (unfold refault; rewrite <- E; by destruct s). apply H.
  - apply (H l x).
Qed.

Lemma wp_syscall {A} (m : M FileSys.FS A) s (Q : FileSys.FS -> res A -> Prop) :
  (forall fl, Q (refault fl s) (Err FileSys.EIO)) ->
  (forall fl, wp m (refault fl s) Q) ->
  wp (FileSys.syscall m) s Q.
Proof.
  intros He Hm. apply wp_bind, wp_pop. intros fl [| |n]; cbn; [apply Hm|apply He|apply He].
Qed.

(** A write adds nothing, everything, or a part of the buffer and an error. *)
Lemma wp_Write ino b s (Q : FileSys.FS -> res Z -> Prop) :
  (forall fl e, Q (refault fl s) (Err e)) ->
  (forall fl n e, Q (FileSys.set_data (<[ino := FileSys.content s ino ++ take n b]> (FileSys.data s))
                       (refault fl s)) (Err e)) ->
  (forall fl, Q (FileSys.set_data (<[ino := FileSys.content s ino ++ b]> (FileSys.data s))
                   (refault fl s)) (Ok (blen b))) ->
  wp (FileSys.Write ino b) s Q.
Proof.
  intros He Hs Ho. apply wp_bind, wp_pop. intros fl [| |n]; cbn.
  - unfold act, wp. change (FileSys.content (refault fl s)) with (FileSys.content s).
    destruct (_ <? _); [apply He|apply Ho].
  - apply He.
  - apply Hs.
Qed.

(** Calls without effect on the files. *)
Lemma wp_silent {A} (m : M FileSys.FS A) s (Q : FileSys.FS -> res A -> Prop) :
  (forall s', (m s').1 = s' /\ (m s').2 <> Panic) ->
  (forall fl r, r <> Panic -> Q (refault fl s) r) ->
  wp (FileSys.syscall m) s Q.
Proof.
  intros Hm HQ. apply wp_syscall; intros fl; [by apply HQ|].
  unfold wp. destruct (Hm (refault fl s)) as [-> Hr]. by apply HQ.
Qed.

Lemma wp_fs_Close ino s (Q : FileSys.FS -> res unit -> Prop) :
  (forall fl r, r <> Panic -> Q (refault fl s) r) -> wp (FileSys.Close ino) s Q.
Proof. by apply wp_silent. Qed.

Lemma wp_fs_Sync ino s (Q : FileSys.FS -> res unit -> Prop) :
  (forall fl r, r <> Panic -> Q (refault fl s) r) -> wp (FileSys.Sync ino) s Q.
Proof. by apply wp_silent. Qed.

(** ** Segments *)

Lemma wp_Close p w sg (Q : World -> res unit -> Prop) :
  heap w !! p = Some sg ->
  (forall fl sg' r, r <> Panic ->
     Q (MkWorld (refault fl (fs w)) (<[p := sg']> (heap w)) (hnext w)) r) ->
  wp (Segment.Close p) w Q.
Proof.
  intros Hp HQ. apply wp_bind, (wp_load _ _ _ _ Hp). cbn. destruct (f sg) as [ino|].
  - apply wp_bind, wp_attempt, wp_os, wp_fs_Close. intros fl r Hr. destruct r as [[]|e|]; [| |done];
      apply wp_bind; cbn; by apply HQ.
  - apply wp_ret. replace w with (MkWorld (refault (FileSys.faults (fs w)) (fs w))
      (<[p := sg]> (heap w)) (hnext w)); [by apply HQ|].
    rewrite insert_id by done. by destruct w as [[]].
Qed.

Lemma wp_Sync p w sg ino (Q : World -> res unit -> Prop) :
  heap w !! p = Some sg -> f sg = Some ino ->
  (forall fl r, r <> Panic -> Q (refault_w fl w) r) -> wp (Segment.Sync p) w Q.
Proof.
  intros Hp Hf HQ. apply wp_bind, (wp_load _ _ _ _ Hp). cbn. rewrite Hf. cbn.
  apply wp_wrapping, wp_os, wp_fs_Sync. intros fl r Hr. destruct r; [|apply HQ|]; by try apply HQ.
Qed.

Lemma wp_Size p w sg (Q : World -> res Z -> Prop) :
  heap w !! p = Some sg -> Q w (Ok (size sg)) -> wp (Segment.Size p) w Q.
Proof. intros Hp HQ. by apply wp_bind, (wp_load _ _ _ _ Hp). Qed.

(** The file system after [b] has been added to the file [ino] holding [c]. *)
Definition grown (fl : list FileSys.fault) (w : World) (ino : nat) (c b : bytes) : FileSys.FS :=
  FileSys.set_data (<[ino := c ++ b]> (FileSys.data (fs w))) (refault fl (fs w)).

Lemma wp_Append p w sg ino c key value t (Q : World -> res (Z * Z) -> Prop) :
  let b := LogEntry.Encode key value t in
  heap w !! p = Some sg -> f sg = Some ino -> FileSys.data (fs w) !! ino = Some c ->
  (forall fl n e, Q (MkWorld (grown fl w ino c (take n b)) (heap w) (hnext w)) (Err e)) ->
  (forall fl, Q (MkWorld (grown fl w ino c b)
                   (<[p := MkSegment (fileID sg) (path sg) (f sg) (size sg + blen b)]> (heap w))
                   (hnext w)) (Ok (size sg, blen b))) ->
  wp (Segment.Append p key value t) w Q.
Proof.
  intros b Hp Hf Hc He Ho. apply wp_bind, (wp_load _ _ _ _ Hp). cbn. rewrite Hf. fold b.
  assert (Hcon : FileSys.content (fs w) ino = c) by by apply FileSys.content_Some.
  apply wp_bind, wp_wrapping, wp_os, wp_Write; rewrite ?Hcon; intros fl.
  - intros e. specialize (He fl 0%nat (Errorf "log: append to segment %d: %w" e)).
    unfold grown in He. rewrite take_0, app_nil_r, insert_id in He by done.
    exact He.
  - intros n e. apply (He fl n).
  - cbn [bind_post]. rewrite Z.eqb_refl. cbn [negb]. rewrite <- Hf. apply (Ho fl).
Qed.

(** Creating a segment may leave its file behind and still fail. *)
Lemma wp_NewSegment d id w (Q : World -> res ptr -> Prop) :
  d ∈ FileSys.dirs (fs w) -> FileSys.names (fs w) !! (d, SegmentName id) = None ->
  (forall fl e, Q (refault_w fl w) (Err e)) ->
  (forall fl e, Q (MkWorld (refault fl (fs (created w d id))) (heap w) (hnext w)) (Err e)) ->
  (forall fl, Q (refault_w fl (created w d id)) (Ok (hnext w))) ->
  wp (NewSegment d id) w Q.
Proof.
  intros Hd Hn He Hc Ho. apply wp_bind, wp_wrapping, wp_os, wp_syscall; intros fl.
  { apply He. }
  eapply wp_run.
  { cbn. rewrite Hn, bool_decide_eq_true_2 by done. reflexivity. }
  cbn. apply wp_bind, wp_attempt, wp_os, wp_syscall; intros fl'; cbn.
  - apply wp_bind, wp_ignore, wp_os, wp_fs_Close. intros fl2 r Hr. split; [done|].
    apply (Hc fl2).
  - unfold wp. cbn. unfold FileSys.content. cbn. rewrite lookup_insert_eq. apply (Ho fl').
Qed.
End Wp.
