(* ===== verification/Repr.v ===== *)
(** * Representation: what an open store means

    The abstract value of a store is a finite map from keys to values.  [Inv]
    relates a state (file system, segment objects, index) to the contents of
    its segments; [Rep] adds the abstract map; [Durable] is the stronger
    invariant under which a scan of the log rebuilds the index. *)
From S2P Require Import Prelude LogEntry LogReader Index FileSys Segment Store.
Import LogReader Index Segment Store.

Module Repr.

(** The contents of the segments: for each id the inode and the bytes. *)
Abbreviation Contents := (gmap Z (nat * bytes)).

(** ** Records at a location *)

(** Location [loc] holds a whole record of key [k] and value [v]. *)
Definition rec_val (G : Contents) (k : bytes) (loc : Location) (v : bytes) : Prop :=
  exists ino pre post,
    G !! FileID loc = Some (ino, pre ++ enc (MkRec k v (Tombstone loc)) ++ post)
    /\ Offset loc = blen pre /\ Index.Size loc = blen (enc (MkRec k v (Tombstone loc)))
    /\ LogEntry.fits k v.

(** The value stored at a location, by decoding the bytes there. *)
Definition value_at (G : Contents) (loc : Location) : option bytes :=
  '(_, c) ← G !! FileID loc;
  match LogEntry.Decode (drop (Z.to_nat (Offset loc)) c) with
  | Ok e => Some (LogEntry.Value e)
  | _ => None
  end.

(** The abstract map: the live keys with the values their locations hold. *)
Definition abs (G : Contents) (idx : Index) : gmap bytes bytes :=
  omap (fun loc => if Tombstone loc then None else value_at G loc) idx.

Lemma value_at_rec G k loc v : rec_val G k loc v -> value_at G loc = Some v.
Proof.
  intros (ino & pre & post & HG & Ho & _ & Hf). unfold value_at. rewrite HG.
  cbn [mbind option_bind]. rewrite Ho, drop_blen_app by done.
  unfold enc. cbn [rkey rvalue rtomb]. by rewrite LogEntry.Decode_Encode.
Qed.

(** Every indexed location holds a record of its key. *)
Definition idx_ok (G : Contents) (idx : Index) : Prop :=
  forall k loc, idx !! k = Some loc -> exists v, rec_val G k loc v.

Lemma abs_lookup G idx k :
  idx_ok G idx ->
  abs G idx !! k =
    match idx !! k with
    | Some loc => if Tombstone loc then None else value_at G loc
    | None => None
    end.
Proof. intros _. unfold abs. rewrite lookup_omap. by destruct (idx !! k). Qed.

Lemma abs_live G idx k loc :
  idx_ok G idx -> idx !! k = Some loc -> Tombstone loc = false ->
  exists v, rec_val G k loc v /\ abs G idx !! k = Some v.
Proof.
  intros Hi Hk Ht. destruct (Hi k loc Hk) as [v Hv]. exists v. split; [done|].
  rewrite abs_lookup, Hk, Ht by done. by eapply value_at_rec.
Qed.

(** Contents only ever grow at the end between compactions. *)
Definition grows (G G' : Contents) : Prop :=
  forall id ino c, G !! id = Some (ino, c) -> exists ino' b, G' !! id = Some (ino', c ++ b).

Lemma rec_val_grows G G' k loc v : grows G G' -> rec_val G k loc v -> rec_val G' k loc v.
Proof.
  intros Hg (ino & pre & post & HG & Hr). destruct (Hg _ _ _ HG) as (ino' & b & HG').
  exists ino', pre, (post ++ b). by rewrite <- !app_assoc in HG'.
Qed.

Lemma idx_ok_grows G G' idx : grows G G' -> idx_ok G idx -> idx_ok G' idx.
Proof. intros Hg Hi k loc Hk. destruct (Hi k loc Hk) as [v Hv]. eauto using rec_val_grows. Qed.

Lemma abs_grows G G' idx : grows G G' -> idx_ok G idx -> abs G' idx = abs G idx.
Proof.
  intros Hg Hi. apply map_eq. intros k.
  rewrite !abs_lookup by eauto using idx_ok_grows.
  destruct (idx !! k) as [loc|] eqn:E; [|done]. destruct (Tombstone loc); [done|].
  destruct (Hi k loc E) as [v Hv].
  rewrite (value_at_rec _ _ _ _ Hv). by eapply value_at_rec, rec_val_grows.
Qed.

Lemma grows_refl G : grows G G.
Proof. intros id ino c H. exists ino, []. by rewrite app_nil_r. Qed.

Lemma grows_insert G id ino c b :
  G !! id = Some (ino, c) -> grows G (<[id := (ino, c ++ b)]> G).
Proof.
  intros HG id' ino' c' H. destruct (decide (id = id')) as [<-|Hne].
  - exists ino, b. rewrite lookup_insert_eq. congruence.
  - exists ino', []. rewrite lookup_insert_ne, app_nil_r by done. done.
Qed.

Lemma grows_fresh G id x : G !! id = None -> grows G (<[id := x]> G).
Proof.
  intros HG id' ino' c' H. exists ino', []. rewrite app_nil_r, lookup_insert_ne; congruence.
Qed.

(** Indexing a record. *)
Lemma idx_ok_insert G idx k loc v :
  idx_ok G idx -> rec_val G k loc v -> idx_ok G (<[k := loc]> idx).
Proof.
  intros Hi Hr k' loc'. destruct (decide (k = k')) as [<-|Hne].
  - rewrite lookup_insert_eq. intros [= <-]. eauto.
  - rewrite lookup_insert_ne by done. apply Hi.
Qed.

Lemma abs_insert G idx k loc v :
  rec_val G k loc v ->
  abs G (<[k := loc]> idx)
  = if Tombstone loc then delete k (abs G idx) else <[k := v]> (abs G idx).
Proof.
  intros Hr. unfold abs. rewrite omap_insert.
  destruct (Tombstone loc); [done|]. by rewrite (value_at_rec _ _ _ _ Hr).
Qed.

(** ** The directory *)

Record disk (s : FileSys.FS) (d : bytes) (G : Contents) : Prop := {
  disk_dir : d ∈ FileSys.dirs s;
  disk_file : forall id ino c, G !! id = Some (ino, c) ->
    FileSys.names s !! (d, SegmentName id) = Some (FileSys.DFile ino)
    /\ FileSys.data s !! ino = Some c;
  disk_id : forall id, is_Some (G !! id) -> 0 <= id < max_id;
  disk_size : forall id ino c, G !! id = Some (ino, c) -> blen c <= FileSys.max_file;
  disk_all : forall name e id, FileSys.names s !! (d, name) = Some e ->
    ParseSegmentID name = Some id -> is_Some (G !! id);
  disk_inj : forall id1 id2 ino c1 c2,
    G !! id1 = Some (ino, c1) -> G !! id2 = Some (ino, c2) -> id1 = id2;
  disk_fresh : forall key ino, FileSys.names s !! key = Some (FileSys.DFile ino) ->
    (ino < FileSys.next s)%nat;
  disk_hint : forall e, FileSys.names s !! (d, hintFile) = Some e ->
    exists ino, e = FileSys.DFile ino /\ forall id c, G !! id <> Some (ino, c);
}.

(** The bytes of the hint file, when it exists. *)
Definition hint_data (s : FileSys.FS) (d : bytes) : option bytes :=
  match FileSys.names s !! (d, hintFile) with
  | Some (FileSys.DFile ino) => FileSys.data s !! ino
  | _ => None
  end.

(** No segment is stored under an id outside [G]. *)
Lemma disk_no_segment s d G id :
  disk s d G -> G !! id = None -> 0 <= id < max_id ->
  FileSys.names s !! (d, SegmentName id) = None.
Proof.
  intros Hd Hn Hid. destruct (FileSys.names s !! (d, SegmentName id)) as [e|] eqn:E; [|done].
  destruct (disk_all _ _ _ Hd _ _ id E) as [? ?]; [by apply ParseSegmentID_spec|]. congruence.
Qed.

(** What a segment name leads to is the file of a segment. *)
Lemma disk_segment_file s d G id e :
  disk s d G -> 0 <= id < max_id -> FileSys.names s !! (d, SegmentName id) = Some e ->
  is_Some (G !! id) /\ exists ino, e = FileSys.DFile ino.
Proof.
  intros Hd Hid He. destruct (disk_all _ _ _ Hd _ _ id He) as [[ino c] HG]; [by apply ParseSegmentID_spec|].
  split; [eauto|]. exists ino. destruct (disk_file _ _ _ Hd _ _ _ HG) as [Hn _]. congruence.
Qed.

Lemma disk_ino_fresh s d G id ino c :
  disk s d G -> G !! id = Some (ino, c) -> (ino < FileSys.next s)%nat.
Proof. intros Hd HG. by apply (disk_fresh _ _ _ Hd _ _ (proj1 (disk_file _ _ _ Hd _ _ _ HG))). Qed.

(** Appending to a segment file. *)
Lemma disk_append s d G id ino c b :
  disk s d G -> G !! id = Some (ino, c) -> blen (c ++ b) <= FileSys.max_file ->
  disk (FileSys.set_data (<[ino := c ++ b]> (FileSys.data s)) s) d
    (<[id := (ino, c ++ b)]> G).
Proof.
  intros Hd HG Hb.
  assert (Hold : forall id' ino' c', <[id := (ino, c ++ b)]> G !! id' = Some (ino', c') ->
    exists c0, G !! id' = Some (ino', c0)).
  { intros id' ino' c'. destruct (decide (id = id')) as [<-|Hne].
    - rewrite lookup_insert_eq. intros [= <- <-]. eauto.
    - rewrite lookup_insert_ne by done. eauto. }
  split; cbn [FileSys.dirs FileSys.names FileSys.data FileSys.next FileSys.set_data].
  - apply Hd.
  - intros id' ino' c' H. destruct (Hold _ _ _ H) as [c0 H0]. split.
    { by apply (disk_file _ _ _ Hd _ _ c0). }
    destruct (decide (id = id')) as [<-|Hne].
    + rewrite lookup_insert_eq in H. simplify_eq. apply lookup_insert_eq.
    + rewrite lookup_insert_ne in H by done. rewrite lookup_insert_ne.
      { by apply (disk_file _ _ _ Hd id'). }
      intros <-. apply Hne. by eapply (disk_inj _ _ _ Hd).
  - intros id' [[ino' c'] H]. destruct (Hold _ _ _ H) as [c0 H0].
    apply (disk_id _ _ _ Hd). eauto.
  - intros id' ino' c' H. destruct (decide (id = id')) as [<-|Hne].
    + rewrite lookup_insert_eq in H. by simplify_eq.
    + rewrite lookup_insert_ne in H by done. by apply (disk_size _ _ _ Hd id' ino').
  - intros name e id' Hn Hp. destruct (disk_all _ _ _ Hd _ _ _ Hn Hp) as [x Hx].
    destruct (decide (id = id')) as [<-|Hne].
    + rewrite lookup_insert_eq. eauto.
    + rewrite lookup_insert_ne by done. eauto.
  - intros id1 id2 ino' c1 c2 H1 H2.
    destruct (Hold _ _ _ H1) as [? ?], (Hold _ _ _ H2) as [? ?].
    by eapply (disk_inj _ _ _ Hd).
  - apply Hd.
  - intros e He. destruct (disk_hint _ _ _ Hd _ He) as (i & -> & Hi).
    exists i. split; [done|]. intros id' c' H. destruct (Hold _ _ _ H) as [c0 H0].
    by apply (Hi id' c0).
Qed.

(** Creating a segment file. *)
Lemma disk_create s d G id :
  disk s d G -> G !! id = None -> 0 <= id < max_id ->
  disk (FileSys.MkFS (FileSys.dirs s)
          (<[(d, SegmentName id) := FileSys.DFile (FileSys.next s)]> (FileSys.names s))
          (<[FileSys.next s := []]> (FileSys.data s))
          (S (FileSys.next s)) (FileSys.faults s)) d
    (<[id := (FileSys.next s, [])]> G).
Proof.
  intros Hd HG Hid.
  assert (Hlt : forall id' ino c, G !! id' = Some (ino, c) -> (ino < FileSys.next s)%nat)
    by (intros; by eapply disk_ino_fresh).
  split; cbn [FileSys.dirs FileSys.names FileSys.data FileSys.next].
  - apply Hd.
  - intros id' ino c H. destruct (decide (id = id')) as [<-|Hne].
    + rewrite lookup_insert_eq in H. simplify_eq. by rewrite !lookup_insert_eq.
    + rewrite lookup_insert_ne in H by done.
      destruct (disk_file _ _ _ Hd _ _ _ H) as [Hn Hc].
      pose proof (Hlt _ _ _ H).
      rewrite !lookup_insert_ne; [done|lia|].
      intros [= He]. apply Hne, SegmentName_inj; [done| |done].
      apply (disk_id _ _ _ Hd). eauto.
  - intros id' [x H]. destruct (decide (id = id')) as [<-|Hne]; [done|].
    rewrite lookup_insert_ne in H by done. apply (disk_id _ _ _ Hd). eauto.
  - intros id' ino c H. destruct (decide (id = id')) as [<-|Hne].
    + rewrite lookup_insert_eq in H. by simplify_eq.
    + rewrite lookup_insert_ne in H by done. by apply (disk_size _ _ _ Hd id' ino).
  - intros name e id' Hn Hp. destruct (decide (id = id')) as [<-|Hne].
    + rewrite lookup_insert_eq. eauto.
    + rewrite lookup_insert_ne by done. apply (disk_all _ _ _ Hd name e); [|done].
      apply ParseSegmentID_spec in Hp as [Hid' ->]. rewrite lookup_insert_ne in Hn; [done|].
      intros [= He]. by apply Hne, SegmentName_inj.
  - intros id1 id2 ino c1 c2 H1 H2.
    destruct (decide (id = id1)) as [<-|Hne1], (decide (id = id2)) as [<-|Hne2]; [done| | |];
      rewrite ?lookup_insert_eq, ?lookup_insert_ne in H1 by done;
      rewrite ?lookup_insert_eq, ?lookup_insert_ne in H2 by done.
    + simplify_eq. apply Hlt in H2. lia.
    + simplify_eq. apply Hlt in H1. lia.
    + by eapply (disk_inj _ _ _ Hd).
  - intros key ino H. destruct (decide ((d, SegmentName id) = key)) as [<-|Hne].
    + rewrite lookup_insert_eq in H. simplify_eq. lia.
    + rewrite lookup_insert_ne in H by done. apply (disk_fresh _ _ _ Hd) in H. lia.
  - intros e He. rewrite lookup_insert_ne in He.
    2:{ intros [= Hn]. apply (f_equal ParseSegmentID) in Hn.
        rewrite (proj2 (ParseSegmentID_spec _ id) (conj Hid eq_refl)) in Hn. done. }
    destruct (disk_hint _ _ _ Hd _ He) as (i & -> & Hi). exists i. split; [done|].
    intros id' c H. destruct (decide (id = id')) as [<-|Hne].
    + rewrite lookup_insert_eq in H. simplify_eq. apply (disk_fresh _ _ _ Hd) in He. lia.
    + rewrite lookup_insert_ne in H by done. by apply (Hi id' c).
Qed.
End Repr.
