(* ===== verification/StoreOps.v ===== *)
(** * The invariant of an open store, and the methods under it

    Fault-free executions of [Put], [Get], [Delete] and [rotate]: each is total
    under its resource bounds, preserves [Inv] and acts on the abstract map as
    the corresponding map operation. *)
From S2P Require Import Prelude LogEntry LogReader Index FileSys Segment Store Repr.
Import LogReader Index Segment Store Repr.

Module StoreOps.

(** The segment object of an open segment. *)
Definition segment_of (d : bytes) (id : Z) (ino : nat) (c : bytes) : Segment :=
  MkSegment id (SegmentPath d id) (Some ino) (blen c).

(** The store has exactly the segments of [G] open. *)
Definition opens (w : World) (s : Store) (G : Contents) : Prop :=
  forall id,
    match G !! id with
    | Some (ino, c) =>
        exists p, segments s !! id = Some p
                  /\ heap w !! p = Some (segment_of (dir s) id ino c) /\ (p < hnext w)%nat
    | None => segments s !! id = None
    end.

(** The active segment is the one with the largest id. *)
Definition active_ok (s : Store) (G : Contents) : Prop :=
  active s = segments s !! activeID s /\ is_Some (G !! activeID s)
  /\ forall id, is_Some (G !! id) -> id <= activeID s.

Record Inv (x : State) (G : Contents) : Prop := {
  inv_closed : closed (st x) = false;
  inv_disk : disk (fs (world x)) (dir (st x)) G;
  inv_opens : opens (world x) (st x) G;
  inv_active : active_ok (st x) G;
  inv_index : idx_ok G (index (st x));
}.

(** No further system call fails. *)
Definition quiet (x : State) : Prop := no_faults (world x).

(** State [x] represents the map [A]. *)
Definition Rep (x : State) (A : gmap bytes bytes) : Prop :=
  exists G, Inv x G /\ A = abs G (index (st x)).

(** ** Stepping through the monad *)

Lemma on_world_Ok {A} (m : M World A) x w a :
  m (world x) = (w, Ok a) -> on_world m x = (MkState w (st x), Ok a).
Proof. intros H. unfold on_world, zoom. by rewrite H. Qed.

Lemma on_world_Ok_same {A} (m : M World A) x a :
  m (world x) = (world x, Ok a) -> on_world m x = (x, Ok a).
Proof. intros H. rewrite (on_world_Ok _ _ _ _ H). by destruct x. Qed.

Lemma on_active_Ok {A} (m : ptr -> M World A) x p w a :
  active (st x) = Some p -> m p (world x) = (w, Ok a) ->
  on_active m x = (MkState w (st x), Ok a).
Proof.
  intros Hp Hm. unfold on_active. rewrite (M_bind_Ok _ _ x x (st x)) by done.
  rewrite Hp. by apply on_world_Ok.
Qed.

Lemma self_bind {A} (k : Store -> M State A) x : (self ≫= k) x = k (st x) x.
Proof. done. Qed.

Lemma update_bind {A} g (k : unit -> M State A) x :
  (update g ≫= k) x = k tt (MkState (world x) (g (st x))).
Proof. done. Qed.

(** ** The active segment *)

Lemma Inv_active x G :
  Inv x G ->
  exists p ino c,
    active (st x) = Some p /\ segments (st x) !! activeID (st x) = Some p
    /\ G !! activeID (st x) = Some (ino, c)
    /\ heap (world x) !! p = Some (segment_of (dir (st x)) (activeID (st x)) ino c).
Proof.
  intros HI. destruct (inv_active _ _ HI) as (Ha & [[ino c] HG] & _).
  pose proof (inv_opens _ _ HI (activeID (st x))) as Ho. rewrite HG in Ho.
  destruct Ho as (p & Hp & Hh & _). exists p, ino, c. by rewrite Ha, Hp.
Qed.

(** The size of the active segment. *)
Definition active_size (x : State) (G : Contents) : Z :=
  match G !! activeID (st x) with Some (_, c) => blen c | None => 0 end.

(** The state after writing a record to the active segment and indexing it. *)
Definition written (x : State) (p : ptr) (ino : nat) (c : bytes)
    (key value : bytes) (t : bool) : State :=
  let b := LogEntry.Encode key value t in
  MkState
    (appended (world x) p (segment_of (dir (st x)) (activeID (st x)) ino c) ino c b)
    (set_index (<[key := MkLocation (activeID (st x)) (blen c) (blen b) t]> (index (st x)))
       (st x)).

Lemma opens_append w s G p id ino c b :
  opens w s G -> G !! id = Some (ino, c) -> segments s !! id = Some p ->
  heap w !! p = Some (segment_of (dir s) id ino c) ->
  opens (appended w p (segment_of (dir s) id ino c) ino c b) s
    (<[id := (ino, c ++ b)]> G).
Proof.
  intros Ho HG Hp Hh id'. specialize (Ho id'). destruct (decide (id = id')) as [<-|Hne].
  - rewrite lookup_insert_eq. rewrite HG in Ho. destruct Ho as (p' & Hp' & _ & Hlt).
    exists p. simplify_eq. split; [done|]. cbn [appended heap hnext]. split; [|done].
    rewrite lookup_insert_eq. unfold segment_of. cbn. by rewrite blen_app.
  - rewrite lookup_insert_ne by done. destruct (G !! id') as [[ino' c']|]; [|done].
    destruct Ho as (p' & Hp' & Hh' & Hlt). exists p'. split; [done|].
    cbn [appended heap hnext]. split; [|done]. rewrite lookup_insert_ne; [done|].
    intros <-. rewrite Hh in Hh'. unfold segment_of in Hh'. simplify_eq.
Qed.

Lemma Inv_written x G p ino c key value t :
  Inv x G -> active (st x) = Some p -> segments (st x) !! activeID (st x) = Some p ->
  G !! activeID (st x) = Some (ino, c) ->
  heap (world x) !! p = Some (segment_of (dir (st x)) (activeID (st x)) ino c) ->
  LogEntry.fits key value ->
  blen c + blen (LogEntry.Encode key value t) <= FileSys.max_file ->
  let G' := <[activeID (st x) := (ino, c ++ LogEntry.Encode key value t)]> G in
  Inv (written x p ino c key value t) G'
  /\ abs G' (index (st (written x p ino c key value t)))
     = if t then delete key (abs G (index (st x))) else <[key := value]> (abs G (index (st x))).
Proof.
  intros HI Ha Hp HG Hh Hf Hroom G'. set (b := LogEntry.Encode key value t) in *.
  set (loc := MkLocation (activeID (st x)) (blen c) (blen b) t).
  assert (Hg : grows G G') by (by apply grows_insert).
  assert (Hr : rec_val G' key loc value).
  { exists ino, c, []. unfold G', enc, loc. cbn [FileID Tombstone Offset Index.Size].
    rewrite lookup_insert_eq, app_nil_r. done. }
  split.
  - split; cbn [written world st set_index closed dir segments activeID active index].
    + apply HI.
    + apply disk_append; [apply HI|done|]. by rewrite blen_app.
    + by apply (opens_append _ _ _ _ _ _ _ _ (inv_opens _ _ HI)).
    + destruct (inv_active _ _ HI) as (Hac & Hs & Hmax). split_and!; [done| |].
      * unfold G'. rewrite lookup_insert_eq. eauto.
      * intros id. destruct (decide (activeID (st x) = id)) as [<-|Hne]; [cbn; lia|].
        unfold G'. rewrite lookup_insert_ne by done. apply Hmax.
    + eapply idx_ok_insert; [|exact Hr]. eapply idx_ok_grows; [exact Hg|apply HI].
  - cbn [written st set_index index]. fold b. fold loc.
    rewrite (abs_insert _ _ _ _ _ Hr). cbn [loc Tombstone].
    by rewrite (abs_grows G G') by (done || apply HI).
Qed.

(** ** Appending through the active pointer *)

Lemma active_append_Ok x G p ino c key value t :
  Inv x G -> quiet x -> active (st x) = Some p ->
  G !! activeID (st x) = Some (ino, c) ->
  heap (world x) !! p = Some (segment_of (dir (st x)) (activeID (st x)) ino c) ->
  blen c + blen (LogEntry.Encode key value t) <= FileSys.max_file ->
  on_active (fun p => Append p key value t) x
  = (MkState (appended (world x) p (segment_of (dir (st x)) (activeID (st x)) ino c) ino c
                (LogEntry.Encode key value t)) (st x),
     Ok (blen c, blen (LogEntry.Encode key value t))).
Proof.
  intros HI Hq Ha HG Hh Hroom. apply (on_active_Ok _ _ p); [done|].
  rewrite (Append_Ok _ _ _ ino c _ _ _ Hq Hh); [done|done| |done].
  by apply (disk_file _ _ _ (inv_disk _ _ HI) (activeID (st x))).
Qed.

Lemma active_sync_Ok x G : Inv x G -> quiet x -> on_active Segment.Sync x = (x, Ok tt).
Proof.
  intros HI Hq. destruct (Inv_active x G HI) as (p & ino & c & Ha & _ & _ & Hh).
  rewrite (on_active_Ok _ _ p (world x) tt); [by destruct x|done|].
  by apply (Sync_Ok _ _ _ ino Hq Hh).
Qed.

Lemma active_size_Ok x G :
  Inv x G -> on_active Segment.Size x = (x, Ok (active_size x G)).
Proof.
  intros HI. destruct (Inv_active x G HI) as (p & ino & c & Ha & _ & HG & Hh).
  unfold active_size. rewrite HG. rewrite (on_active_Ok _ _ p (world x) (blen c));
    [by destruct x|done|]. by rewrite (Size_Ok _ _ _ Hh).
Qed.

(** ** Rotation *)

Section WithRange.
Context `{!GoRange Z}.

Lemma foldl_max_spec {A} (l : list (Z * A)) m :
  let r := foldl (fun max '(id, _) => if max <? id then id else max) m l in
  m <= r /\ (forall id a, (id, a) ∈ l -> id <= r) /\ (r = m \/ r ∈ l.*1).
Proof.
  revert m. induction l as [|[id a] l IH]; intros m; cbn.
  { split_and!; [lia| |by left]. intros ?? H. inversion H. }
  destruct (IH (if m <? id then id else m)) as (H1 & H2 & H3).
  split_and!.
  - destruct (Z.ltb_spec m id); lia.
  - intros id' a' [[= -> ->]|H]%elem_of_cons; [|by eapply H2].
    destruct (Z.ltb_spec m id); lia.
  - destruct H3 as [H3|H3]; [|right; by apply list_elem_of_further].
    destruct (Z.ltb_spec m id); [right; rewrite H3; left|by left].
Qed.

Lemma maxFileID_active x G : Inv x G -> maxFileID (segments (st x)) = activeID (st x).
Proof.
  intros HI. destruct (Inv_active x G HI) as (p & ino & c & _ & Hp & HG & _).
  destruct (inv_active _ _ HI) as (_ & _ & Hmax).
  pose proof (disk_id _ _ _ (inv_disk _ _ HI) (activeID (st x)) ltac:(eauto)).
  unfold maxFileID.
  destruct (foldl_max_spec (go_range (segments (st x))) 0) as (H0 & Hle & Hin).
  assert (Hel : forall id q, (id, q) ∈ go_range (segments (st x)) <->
                             segments (st x) !! id = Some q).
  { intros id q. rewrite go_range_perm. apply elem_of_map_to_list. }
  pose proof (Hle (activeID (st x)) p (proj2 (Hel _ _) Hp)).
  destruct Hin as [Hin|Hin]; [lia|].
  apply list_elem_of_fmap in Hin as ([id q] & Hid & Hq). apply Hel in Hq. cbn in Hid.
  specialize (Hmax id). pose proof (inv_opens _ _ HI id) as Ho.
  destruct (G !! id) as [[]|] eqn:E; [|congruence].
  specialize (Hmax ltac:(eauto)). lia.
Qed.

(** The state after rotating. *)
Definition rotated (x : State) : State :=
  let id := activeID (st x) + 1 in
  MkState (created (world x) (dir (st x)) id)
    (set_active id (Some (hnext (world x)))
       (set_segments (<[id := hnext (world x)]> (segments (st x))) (st x))).

Definition rotated_contents (x : State) (G : Contents) : Contents :=
  <[activeID (st x) + 1 := (FileSys.next (fs (world x)), [])]> G.

Lemma active_next_fresh x G : Inv x G -> G !! (activeID (st x) + 1) = None.
Proof.
  intros HI. destruct (inv_active _ _ HI) as (_ & _ & Hmax).
  destruct (G !! (activeID (st x) + 1)) as [y|] eqn:E; [|done].
  specialize (Hmax _ ltac:(eauto)). lia.
Qed.

Lemma next_id_ok x G :
  Inv x G -> activeID (st x) + 1 < max_id ->
  i64 (maxFileID (segments (st x)) + 1) = activeID (st x) + 1
  /\ 0 <= activeID (st x) + 1 < max_id.
Proof.
  intros HI Hid. rewrite (maxFileID_active x G HI).
  destruct (inv_active _ _ HI) as (_ & Hs & _).
  pose proof (disk_id _ _ _ (inv_disk _ _ HI) _ Hs). unfold max_id in *.
  split; [apply i64_small; lia|lia].
Qed.

(** Creating the segment after the active one. *)
Lemma new_segment_Ok x G :
  Inv x G -> quiet x -> activeID (st x) + 1 < max_id ->
  NewSegment (dir (st x)) (activeID (st x) + 1) (world x)
  = (created (world x) (dir (st x)) (activeID (st x) + 1), Ok (hnext (world x))).
Proof.
  intros HI Hq Hid. apply NewSegment_fresh; [done|apply HI|].
  apply (disk_no_segment _ _ G); [apply HI|by apply active_next_fresh|].
  by destruct (next_id_ok x G HI Hid).
Qed.

Lemma opens_created w s G id :
  opens w s G ->
  opens (created w (dir s) id) (set_segments (<[id := hnext w]> (segments s)) s)
    (<[id := (FileSys.next (fs w), [])]> G).
Proof.
  intros Ho id'. specialize (Ho id').
  cbn [created heap hnext dir segments set_segments].
  destruct (decide (id = id')) as [<-|Hne].
  - rewrite lookup_insert_eq. exists (hnext w).
    rewrite !lookup_insert_eq. split_and!; [done|done|lia].
  - rewrite !lookup_insert_ne by done. destruct (G !! id') as [[ino c]|]; [|done].
    destruct Ho as (p & Hp & Hh & Hlt). exists p.
    split_and!; [done| |lia]. rewrite lookup_insert_ne by lia. done.
Qed.

Lemma rotate_Ok x G :
  Inv x G -> quiet x -> activeID (st x) + 1 < max_id ->
  rotate x = (rotated x, Ok tt) /\ Inv (rotated x) (rotated_contents x G)
  /\ quiet (rotated x)
  /\ abs (rotated_contents x G) (index (st x)) = abs G (index (st x)).
Proof.
  intros HI Hq Hid. destruct (next_id_ok x G HI Hid) as [Hi64 Hrange].
  pose proof (active_next_fresh x G HI) as Hfresh.
  assert (Hg : grows G (rotated_contents x G)) by (by apply grows_fresh).
  split_and!; [| |done|by apply abs_grows, HI].
  - unfold rotate. rewrite self_bind, Hi64.
    rewrite (M_bind_Ok _ _ _ _ _ (on_world_Ok _ _ _ _ (new_segment_Ok x G HI Hq Hid))).
    done.
  - split; cbn [rotated world st set_active set_segments closed dir segments activeID
      active index].
    + apply HI.
    + apply disk_create; [apply HI|done|done].
    + apply (opens_created _ _ _ _ (inv_opens _ _ HI)).
    + split_and!; cbn [active activeID segments set_active set_segments].
      * by rewrite lookup_insert_eq.
      * unfold rotated_contents. rewrite lookup_insert_eq. eauto.
      * intros id. unfold rotated_contents.
        destruct (decide (activeID (st x) + 1 = id)) as [<-|Hne]; [lia|].
        rewrite lookup_insert_ne by done.
        intros H. apply (inv_active _ _ HI) in H. lia.
    + eapply idx_ok_grows; [exact Hg|apply HI].
Qed.

(** ** Writing *)

(** Resources for [k] more records of [n] bytes in all: the active file may not
    exceed the largest file size, and enough ten-digit ids must be left. *)
Definition room (x : State) (n k : Z) : Prop :=
  match active (st x) ≫= (fun p => heap (world x) !! p) with
  | Some sg => size sg + n <= FileSys.max_file
  | None => False
  end /\ activeID (st x) + k < max_id.

Lemma room_active x n k p ino c :
  room x n k -> active (st x) = Some p ->
  heap (world x) !! p = Some (segment_of (dir (st x)) (activeID (st x)) ino c) ->
  blen c + n <= FileSys.max_file /\ activeID (st x) + k < max_id.
Proof. intros [Hr Hid] Ha Hh. rewrite Ha in Hr. cbn in Hr. by rewrite Hh in Hr. Qed.

Lemma room_size x G n k :
  Inv x G -> room x n k <->
  active_size x G + n <= FileSys.max_file /\ activeID (st x) + k < max_id.
Proof.
  intros HI. destruct (Inv_active x G HI) as (p & ino & c & Ha & _ & HG & Hh).
  unfold room, active_size. rewrite HG, Ha. cbn. by rewrite Hh.
Qed.

(** What a write leaves: record [r] at the end of the active segment, indexed,
    and possibly a fresh empty active segment; nothing else. *)
Definition logged (x x' : State) (G G' : Contents) (r : log_record) : Prop :=
  exists ino c,
    let id := activeID (st x) in
    let G1 := <[id := (ino, c ++ enc r)]> G in
    G !! id = Some (ino, c)
    /\ index (st x')
       = <[rkey r := MkLocation id (blen c) (blen (enc r)) (rtomb r)]> (index (st x))
    /\ dir (st x') = dir (st x) /\ opts (st x') = opts (st x)
    /\ FileSys.names (fs (world x')) !! (dir (st x), hintFile)
       = FileSys.names (fs (world x)) !! (dir (st x), hintFile)
    /\ hint_data (fs (world x')) (dir (st x)) = hint_data (fs (world x)) (dir (st x))
    /\ (G' = G1 \/ exists ino', G' = <[id + 1 := (ino', [])]> G1).

(** Neither appending to a segment nor creating one changes the hint file. *)
Lemma hint_data_append x G p sg ino c b :
  Inv x G -> G !! activeID (st x) = Some (ino, c) ->
  hint_data (fs (appended (world x) p sg ino c b)) (dir (st x))
  = hint_data (fs (world x)) (dir (st x)).
Proof.
  intros HI HG. unfold hint_data.
  cbn [appended fs FileSys.set_data FileSys.names FileSys.data].
  destruct (FileSys.names (fs (world x)) !! (dir (st x), hintFile)) as [e|] eqn:E; [|done].
  destruct (disk_hint _ _ _ (inv_disk _ _ HI) _ E) as (i & -> & Hi).
  rewrite lookup_insert_ne; [done|]. intros <-. by apply Hi in HG.
Qed.

Lemma hint_name_ne (d : bytes) id : 0 <= id < max_id -> (d, SegmentName id) <> (d, hintFile).
Proof.
  intros Hid [= Hn]. apply (f_equal ParseSegmentID) in Hn.
  rewrite (proj2 (ParseSegmentID_spec _ id) (conj Hid eq_refl)) in Hn. done.
Qed.

Lemma hint_data_rotated x G :
  Inv x G -> activeID (st x) + 1 < max_id ->
  hint_data (fs (world (rotated x))) (dir (st x)) = hint_data (fs (world x)) (dir (st x)).
Proof.
  intros HI Hid. destruct (next_id_ok x G HI Hid) as [_ Hr]. unfold hint_data.
  cbn [rotated world created fs FileSys.names FileSys.data].
  rewrite lookup_insert_ne by (by apply hint_name_ne).
  destruct (FileSys.names (fs (world x)) !! (dir (st x), hintFile)) as [[i|]|] eqn:E; try done.
  apply (disk_fresh _ _ _ (inv_disk _ _ HI)) in E. rewrite lookup_insert_ne by lia. done.
Qed.

(** Whether a write that leaves [n] bytes in the active segment rotates. *)
Definition rotates (o : Options) (n : Z) : bool := (0 <? MaxFileSize o) && (MaxFileSize o <? n).

(** The tail of [Put] after the record has been indexed. *)
Lemma put_tail_Ok x G :
  Inv x G -> quiet x -> activeID (st x) + 1 < max_id ->
  ((if SyncOnWrite (opts (st x)) then on_active Segment.Sync else mret tt) ≫= fun _ =>
   if 0 <? MaxFileSize (opts (st x)) then
     n ← on_active Segment.Size;
     if MaxFileSize (opts (st x)) <? n then rotate else mret tt
   else mret tt) x
  = (if rotates (opts (st x)) (active_size x G) then rotated x else x, Ok tt).
Proof.
  intros HI Hq Hid. unfold rotates.
  rewrite (M_bind_Ok _ _ x x tt).
  2:{ destruct (SyncOnWrite _); [by eapply active_sync_Ok|done]. }
  destruct (0 <? MaxFileSize (opts (st x))); [|done]. cbn [andb].
  rewrite (M_bind_Ok _ _ _ _ _ (active_size_Ok x G HI)).
  destruct (MaxFileSize (opts (st x)) <? active_size x G); [|done].
  by destruct (rotate_Ok x G HI Hq Hid) as (-> & _).
Qed.

(** The state after a [Put]. *)
Lemma Put_eq x G key value p ino c :
  Inv x G -> quiet x -> key <> [] -> LogEntry.fits key value ->
  active (st x) = Some p -> segments (st x) !! activeID (st x) = Some p ->
  G !! activeID (st x) = Some (ino, c) ->
  heap (world x) !! p = Some (segment_of (dir (st x)) (activeID (st x)) ino c) ->
  blen c + blen (LogEntry.Encode key value false) <= FileSys.max_file ->
  activeID (st x) + 1 < max_id ->
  let x1 := written x p ino c key value false in
  Put key value x
  = (if rotates (opts (st x)) (blen c + blen (LogEntry.Encode key value false))
     then rotated x1 else x1, Ok tt).
Proof.
  intros HI Hq Hne Hf Ha Hp HG Hh Hsz Hid x1.
  destruct (Inv_written x G p ino c key value false HI Ha Hp HG Hh Hf Hsz) as [HI1 _].
  fold x1 in HI1. set (G1 := <[activeID (st x) := _]> G) in *.
  pose proof (put_tail_Ok x1 G1 HI1 Hq Hid) as Htail.
  assert (Hsize : active_size x1 G1 = blen c + blen (LogEntry.Encode key value false)).
  { unfold active_size. cbn [x1 written st set_index activeID]. unfold G1.
    by rewrite lookup_insert_eq, blen_app. }
  rewrite Hsize in Htail. change (opts (st x1)) with (opts (st x)) in Htail.
  unfold Put. rewrite self_bind, (inv_closed _ _ HI).
  destruct (Z.eqb_spec (blen key) 0) as [H0|_]; [by apply blen_zero_inv in H0|].
  rewrite (M_bind_Ok _ _ _ _ _ (active_append_Ok x G p ino c key value false HI Hq Ha HG Hh Hsz)).
  exact Htail.
Qed.

(** [Put] in full: the record is appended and indexed, then the segment is
    rotated when it has grown past the limit. *)
Lemma Put_full x G key value :
  Inv x G -> quiet x -> key <> [] -> LogEntry.fits key value ->
  room x (blen (LogEntry.Encode key value false)) 1 ->
  exists x' G',
    Put key value x = (x', Ok tt) /\ Inv x' G' /\ quiet x'
    /\ abs G' (index (st x')) = <[key := value]> (abs G (index (st x)))
    /\ logged x x' G G' (MkRec key value false)
    /\ let n := active_size x G + blen (LogEntry.Encode key value false) in
       if rotates (opts (st x)) n
       then activeID (st x') = activeID (st x) + 1 /\ active_size x' G' = 0
       else activeID (st x') = activeID (st x) /\ active_size x' G' = n.
Proof.
  intros HI Hq Hne Hf Hroom.
  destruct (Inv_active x G HI) as (p & ino & c & Ha & Hp & HG & Hh).
  destruct (room_active _ _ _ _ _ _ Hroom Ha Hh) as [Hsz Hid].
  destruct (Inv_written x G p ino c key value false HI Ha Hp HG Hh Hf Hsz) as [HI1 Habs].
  pose proof (Put_eq x G key value p ino c HI Hq Hne Hf Ha Hp HG Hh Hsz Hid) as Hput.
  cbv zeta in Hput. set (x1 := written x p ino c key value false) in *.
  set (G1 := <[activeID (st x) := _]> G) in *.
  assert (Hsize : active_size x1 G1 = active_size x G + blen (LogEntry.Encode key value false)).
  { unfold active_size. cbn [x1 written st set_index activeID]. unfold G1.
    by rewrite lookup_insert_eq, HG, blen_app. }
  assert (Hsz0 : active_size x G = blen c) by (unfold active_size; by rewrite HG).
  rewrite <- Hsz0 in Hput.
  assert (Hlog : logged x x1 G G1 (MkRec key value false)).
  { exists ino, c. unfold enc. cbn [rkey rvalue rtomb].
    split_and!; try done; [by eapply hint_data_append|by left]. }
  cbv zeta.
  destruct (rotates (opts (st x)) _).
  - destruct (rotate_Ok x1 G1 HI1 Hq Hid) as (_ & HI2 & Hq2 & Habs2).
    exists (rotated x1), (rotated_contents x1 G1).
    split_and!; [done|done|done| | |done|].
    { cbn [rotated st set_active set_segments index]. by rewrite Habs2. }
    2:{ unfold active_size, rotated_contents. cbn [rotated st set_active activeID].
        by rewrite lookup_insert_eq. }
    destruct Hlog as (ino0 & c0 & H1 & H2 & H3 & H4 & H5 & H6 & _).
    exists ino0, c0. split_and!; try done.
    + cbn [rotated world created fs FileSys.names]. rewrite lookup_insert_ne; [done|].
      destruct (next_id_ok x1 G1 HI1 Hid) as [_ Hr]. by apply hint_name_ne.
    + rewrite <- H6. by apply (hint_data_rotated x1 G1).
    + right. exists (FileSys.next (fs (world x1))). unfold rotated_contents. f_equal.
      unfold G1, enc. cbn [rkey rvalue rtomb]. congruence.
  - exists x1, G1. by split_and!.
Qed.

Lemma Put_Ok x G key value :
  Inv x G -> quiet x -> key <> [] -> LogEntry.fits key value ->
  room x (blen (LogEntry.Encode key value false)) 1 ->
  exists x' G',
    Put key value x = (x', Ok tt) /\ Inv x' G' /\ quiet x'
    /\ abs G' (index (st x')) = <[key := value]> (abs G (index (st x)))
    /\ logged x x' G G' (MkRec key value false).
Proof.
  intros HI Hq Hne Hf Hroom.
  destruct (Put_full x G key value HI Hq Hne Hf Hroom) as (x' & G' & H1 & H2 & H3 & H4 & H5 & _).
  by exists x', G'.
Qed.

Lemma Delete_Ok x G key :
  Inv x G -> quiet x -> key <> [] -> blen key < 2 ^ 32 ->
  room x (blen (LogEntry.Encode key [] true)) 1 ->
  exists x' G',
    Delete key x = (x', Ok tt) /\ Inv x' G' /\ quiet x'
    /\ abs G' (index (st x')) = delete key (abs G (index (st x)))
    /\ logged x x' G G' (MkRec key [] true).
Proof.
  intros HI Hq Hne Hk Hroom.
  assert (Hf : LogEntry.fits key []) by (split; [done|by rewrite blen_nil]).
  destruct (Inv_active x G HI) as (p & ino & c & Ha & Hp & HG & Hh).
  destruct (room_active _ _ _ _ _ _ Hroom Ha Hh) as [Hsz Hid].
  destruct (Inv_written x G p ino c key [] true HI Ha Hp HG Hh Hf Hsz) as [HI1 Habs].
  set (x1 := written x p ino c key [] true) in *.
  exists x1. eexists. split_and!; [|exact HI1|done|exact Habs|].
  - unfold Delete. rewrite self_bind, (inv_closed _ _ HI).
    destruct (Z.eqb_spec (blen key) 0) as [H0|_]; [by apply blen_zero_inv in H0|].
    rewrite (M_bind_Ok _ _ _ _ _ (active_append_Ok x G p ino c key [] true HI Hq Ha HG Hh Hsz)).
    rewrite update_bind. fold (written x p ino c key [] true). fold x1.
    destruct (SyncOnWrite _); [by eapply active_sync_Ok|done].
  - exists ino, c. unfold enc. cbn [rkey rvalue rtomb].
    split_and!; try done; [by eapply hint_data_append|by left].
Qed.

(** ** Reading *)

Lemma ReadAt_rec w s G k loc v :
  disk (fs w) (dir s) G -> opens w s G -> no_faults w -> rec_val G k loc v ->
  exists p e,
    segments s !! FileID loc = Some p /\ ReadAt p (Offset loc) w = (w, Ok e)
    /\ LogEntry.Key e = k /\ LogEntry.Value e = v /\ LogEntry.Tombstone e = Tombstone loc.
Proof.
  intros Hd Ho Hq (ino & pre & post & HG & Hoff & _ & Hf).
  specialize (Ho (FileID loc)). rewrite HG in Ho. destruct Ho as (p & Hp & Hh & _).
  exists p. eexists. split; [done|]. unfold ReadAt.
  rewrite (M_bind_Ok _ _ _ _ _ (load_Ok _ _ _ Hh)).
  cbn [f segment_of]. split.
  - apply (readRecordAt_Ok _ _ _ _ pre k v (Tombstone loc) post); [done| |done|done].
    apply FileSys.content_Some. by apply (disk_file _ _ _ Hd (FileID loc)).
  - by split_and!.
Qed.

Lemma Get_Ok x G key :
  Inv x G -> quiet x -> Get key x = (x, Ok (abs G (index (st x)) !! key)).
Proof.
  intros HI Hq. unfold Get. rewrite self_bind, (inv_closed _ _ HI).
  rewrite abs_lookup by apply HI. unfold Index.Get.
  destruct (index (st x) !! key) as [loc|] eqn:E; [|done]. cbn [negb orb].
  destruct (Tombstone loc) eqn:Ht; [done|].
  destruct (inv_index _ _ HI key loc E) as [v Hv].
  destruct (ReadAt_rec _ _ _ _ _ _ (inv_disk _ _ HI) (inv_opens _ _ HI) Hq Hv)
    as (p & e & Hp & Hr & _ & He & _).
  rewrite Hp, (M_bind_Ok _ _ _ _ _ (on_world_Ok_same _ _ _ Hr)).
  by rewrite (value_at_rec _ _ _ _ Hv), He.
Qed.

Lemma dom_live x G :
  Inv x G -> (Index.Key <$> LiveEntries (index (st x)))
             ≡ₚ (map_to_list (abs G (index (st x)))).*1.
Proof.
  intros HI. apply NoDup_Permutation; [apply NoDup_LiveEntries|apply NoDup_fst_map_to_list|].
  intros k. rewrite !list_elem_of_fmap. split.
  - intros (kl & -> & [Hk Ht]%elem_of_LiveEntries).
    destruct (abs_live _ _ _ _ (inv_index _ _ HI) Hk Ht) as (v & _ & Hv).
    exists (Index.Key kl, v). by rewrite elem_of_map_to_list.
  - intros ([k' v] & -> & Hv%elem_of_map_to_list). cbn [fst].
    rewrite abs_lookup in Hv by apply HI.
    destruct (index (st x) !! k') as [loc|] eqn:E; [|done].
    exists (MkKeyLocation k' loc). split; [done|]. apply elem_of_LiveEntries. cbn.
    split; [done|]. by destruct (Tombstone loc).
Qed.

Lemma Count_Ok x G : Inv x G -> Count (st x) = Z.of_nat (base.size (abs G (index (st x)))).
Proof.
  intros HI. unfold Count, blen. rewrite <- (length_fmap Index.Key), (dom_live x G HI).
  by rewrite length_fmap, length_map_to_list.
Qed.
End WithRange.
End StoreOps.
