(* ===== verification/Recovery.v ===== *)
(** * Closing, opening and log replay

    A log is the list of its segments with their records.  [replay] is the
    index a scan builds; [Open] is shown to rebuild it, or to take the hint
    file's index when there is one. *)
From S2P Require Import Prelude LogEntry LogReader Index FileSys Segment Store Repr StoreOps.
Import LogReader Index Segment Store Repr StoreOps.

Module Recovery.

(** ** Scanning a stream *)

(** Indexing the entries of segment [id]. *)
Definition index_entries (id : Z) (es : list LogEntry.Entry) (idx : Index) : Index :=
  foldl (fun m e =>
    <[LogEntry.Key e := MkLocation id (LogEntry.Offset e) (LogEntry.Size e)
                          (LogEntry.Tombstone e)]> m) idx es.

(** The scan loop is total: on every stream it indexes the records [Next]
    returns and ends with the reader's error. *)
Lemma scan_loop_reads id rd es rd' err :
  reads rd es rd' err -> forall fuel idx, (length (rem (r rd)) < fuel)%nat ->
  scan_loop fuel id rd idx =
    if errors_Is err EOF then Ok (index_entries id es idx)
    else Err (Errorf "store: scan segment %d: %w" err).
Proof.
  induction 1 as [rd rd' err H|rd rd1 e es rd' err H _ IH]; intros fuel idx Hf;
    (destruct fuel as [|fuel]; [lia|]); cbn [scan_loop]; rewrite H; [done|].
  apply Next_consumes in H. rewrite IH by lia. done.
Qed.

Lemma scan_stream_frames id rs idx :
  Forall readable rs ->
  scan_stream id (MkIoReader (frames rs) EOF) idx = Ok (index_entries id (located 0 rs) idx).
Proof.
  intros Hr. unfold scan_stream, NewReader.
  change (MkReader (MkIoReader (frames rs) EOF) 0) with (at_ 0 (frames rs)).
  assert (Hreads : reads (at_ 0 (frames rs ++ [])) (located 0 rs ++ [])
                     (at_ (0 + blen (frames rs)) []) EOF).
  { apply reads_app; [done|]. by apply reads_stop, Next_nil. }
  rewrite !app_nil_r in Hreads.
  rewrite (scan_loop_reads _ _ _ _ _ Hreads) by (cbn; lia). done.
Qed.

(** A log whose last record is cut after [n] bytes.  A cut at the end of the
    17-byte frame header looks like the end of the file. *)
Lemma scan_stream_torn id rs x n idx :
  Forall readable rs -> readable x -> (n < length (enc x))%nat ->
  scan_stream id (MkIoReader (frames rs ++ take n (enc x)) EOF) idx
  = if bool_decide (n = 0%nat \/ n = 17%nat)
    then Ok (index_entries id (located 0 rs) idx)
    else Err (Errorf "store: scan segment %d: %w" LogEntry.ErrCorrupt).
Proof.
  intros Hr Hx Hn. unfold scan_stream, NewReader.
  set (rd := MkReader _ 0).
  assert (Hreads : exists err, reads rd (located 0 rs ++ []) (at_ (0 + blen (frames rs)) []) err
    /\ err = if bool_decide (n = 0%nat \/ n = 17%nat) then EOF else LogEntry.ErrCorrupt).
  { eexists. split; [|reflexivity].
    apply reads_app; [done|]. by apply reads_stop, Next_prefix. }
  destruct Hreads as (err & Hreads & ->). rewrite app_nil_r in Hreads.
  rewrite (scan_loop_reads _ _ _ _ _ Hreads) by (cbn; lia).
  by case_bool_decide.
Qed.

(** A scan always ends: the fuel is never exhausted. *)
Lemma scan_stream_total id rd idx :
  exists es rd' err, reads (NewReader rd) es rd' err
    /\ scan_stream id rd idx
       = if errors_Is err EOF then Ok (index_entries id es idx)
         else Err (Errorf "store: scan segment %d: %w" err).
Proof.
  destruct (reads_total (NewReader rd)) as (es & rd' & err & H). exists es, rd', err.
  split; [done|]. apply (scan_loop_reads _ _ _ _ _ H). cbn. lia.
Qed.

(** ** Logs *)

Abbreviation Log := (list (Z * list log_record)).

Definition replay (L : Log) : Index :=
  foldl (fun m '(id, rs) => index_entries id (located 0 rs) m) ∅ L.

(** [L] lists the segments of [G], in id order, with their records. *)
Record log_of (G : Contents) (L : Log) : Prop := {
  log_sorted : StronglySorted Z.lt L.*1;
  log_contents : forall id c,
    (exists ino, G !! id = Some (ino, c)) <-> exists rs, (id, rs) ∈ L /\ c = frames rs;
  log_readable : forall id rs, (id, rs) ∈ L -> Forall readable rs;
}.

Lemma log_ids G L id : log_of G L -> id ∈ L.*1 <-> is_Some (G !! id).
Proof.
  intros HL. rewrite list_elem_of_fmap. split.
  - intros ([id' rs] & -> & Hin). cbn.
    destruct (proj2 (log_contents _ _ HL id' (frames rs))) as [ino Hino]; eauto.
  - intros [[ino c] H].
    destruct (proj1 (log_contents _ _ HL id c)) as (rs & Hin & _); [by eauto|].
    by exists (id, rs).
Qed.

(** Entries of a frame list are records of the contents. *)
Definition fitting (r : log_record) : Prop := LogEntry.fits (rkey r) (rvalue r).

Lemma readable_fitting rs : Forall readable rs -> Forall fitting rs.
Proof. intros H. eapply Forall_impl; [exact H|]. intros r. apply readable_fits. Qed.

Lemma located_rec G id ino rs e :
  G !! id = Some (ino, frames rs) -> Forall fitting rs -> e ∈ located 0 rs ->
  rec_val G (LogEntry.Key e)
    (MkLocation id (LogEntry.Offset e) (LogEntry.Size e) (LogEntry.Tombstone e))
    (LogEntry.Value e).
Proof.
  intros HG Hr He.
  assert (Hsplit : exists r1 x r2, rs = r1 ++ x :: r2 /\ e = entry_at (0 + blen (frames r1)) x).
  { clear HG Hr. revert He. generalize 0 at 1 2. induction rs as [|x rs IH]; intros p He.
    - inversion He.
    - cbn [located] in He. apply elem_of_cons in He as [->|He].
      + exists [], x, rs. split; [done|]. f_equal. unfold blen. cbn. lia.
      + destruct (IH _ He) as (r1 & y & r2 & -> & ->). exists (x :: r1), y, r2.
        split; [done|]. f_equal. rewrite frames_cons, blen_app. lia. }
  destruct Hsplit as (r1 & x & r2 & -> & ->).
  rewrite Forall_app, Forall_cons in Hr. destruct Hr as (_ & Hx & _).
  exists ino, (frames r1), (frames r2).
  cbn [FileID Offset Index.Size Tombstone entry_at LogEntry.Key LogEntry.Value
    LogEntry.Offset LogEntry.Size LogEntry.Tombstone].
  destruct x as [k v t]. cbn [rkey rvalue rtomb]. rewrite frames_app, frames_cons in HG.
  by split_and!.
Qed.

Lemma idx_ok_entries G id ino rs idx :
  G !! id = Some (ino, frames rs) -> Forall fitting rs -> idx_ok G idx ->
  idx_ok G (index_entries id (located 0 rs) idx).
Proof.
  intros HG Hr. pose proof (fun e => located_rec G id ino rs e HG Hr) as Hrec.
  revert Hrec. generalize (located 0 rs) as es. intros es. revert idx.
  induction es as [|e es IH]; intros idx Hrec Hi; [done|].
  cbn. apply IH; [by intros; apply Hrec, list_elem_of_further|].
  eapply idx_ok_insert; [done|]. apply Hrec. by left.
Qed.

Lemma idx_ok_replay G L : log_of G L -> idx_ok G (replay L).
Proof.
  intros HL. unfold replay.
  assert (Hin : forall id rs, (id, rs) ∈ L -> exists ino, G !! id = Some (ino, frames rs)).
  { intros id rs H. apply (log_contents _ _ HL). eauto. }
  pose proof (log_readable _ _ HL) as Hr. clear HL. revert Hin Hr.
  assert (H0 : idx_ok G ∅) by (intros k loc H; by rewrite lookup_empty in H).
  revert H0. generalize (∅ : Index). induction L as [|[id rs] L IH]; intros m Hm Hin Hr; [done|].
  cbn [foldl]. apply IH.
  - destruct (Hin id rs) as [ino Hino]; [by left|].
    apply (idx_ok_entries G id ino); [done| |done]. apply readable_fitting, (Hr id). by left.
  - intros; apply Hin. by apply list_elem_of_further.
  - intros id' rs' H. apply (Hr id'). by apply list_elem_of_further.
Qed.

(** ** Segment ids of a directory *)

Definition sorted_ids (G : Contents) : list Z := sort_ints (map_to_list G).*1.

Lemma StronglySorted_lt_NoDup l : StronglySorted Z.lt l -> NoDup l.
Proof.
  induction 1 as [|a l _ IH Ha]; constructor; [|done].
  intros Hin. rewrite Forall_forall in Ha. apply Ha in Hin. lia.
Qed.

Lemma elem_of_sorted_ids G id : id ∈ sorted_ids G <-> is_Some (G !! id).
Proof.
  unfold sorted_ids, sort_ints. rewrite merge_sort_Permutation, list_elem_of_fmap. split.
  - intros ([id' x] & -> & H%elem_of_map_to_list). eauto.
  - intros [x H]. exists (id, x). by rewrite elem_of_map_to_list.
Qed.

(** The ids of a log are the sorted ids of its contents. *)
Lemma log_ids_sorted G L : log_of G L -> L.*1 = sorted_ids G.
Proof.
  intros HL. unfold sorted_ids, sort_ints.
  symmetry. apply (merge_sort_unique Z.le); [apply StronglySorted_Sorted|].
  - pose proof (log_sorted _ _ HL) as Hs. clear HL.
    induction Hs as [|a l _ IH Ha]; constructor; [done|].
    eapply Forall_impl; [exact Ha|]. intros; lia.
  - apply NoDup_Permutation; [by apply StronglySorted_lt_NoDup, HL|apply NoDup_fst_map_to_list|].
    intros id. rewrite (log_ids G L id HL), <- elem_of_sorted_ids.
    unfold sorted_ids, sort_ints. by rewrite merge_sort_Permutation.
Qed.

Lemma elem_of_segment_ids s d G id :
  disk s d G -> id ∈ segment_ids (FileSys.dir_entries s d) <-> is_Some (G !! id).
Proof.
  intros Hd. unfold segment_ids. rewrite list_elem_of_omap. split.
  - intros ([name e] & He%FileSys.elem_of_dir_entries & Hp). destruct e; [|done].
    by apply (disk_all _ _ _ Hd _ _ _ He).
  - intros [[ino c] H]. exists (SegmentName id, FileSys.DFile ino).
    rewrite FileSys.elem_of_dir_entries. split; [by apply (disk_file _ _ _ Hd _ _ c)|].
    apply ParseSegmentID_spec. split; [apply (disk_id _ _ _ Hd); eauto|done].
Qed.

Lemma NoDup_dir_entries s d : NoDup (FileSys.dir_entries s d).*1.
Proof.
  unfold FileSys.dir_entries. rewrite merge_sort_Permutation.
  pose proof (NoDup_fst_map_to_list (FileSys.names s)) as Hnd. revert Hnd.
  induction (map_to_list (FileSys.names s)) as [|[[d' n] e] l IH]; [constructor|].
  rewrite fmap_cons. intros [Hn Hnd]%NoDup_cons. cbn [omap list_omap].
  case_bool_decide as Hd; [|by apply IH]. subst d'.
  cbn [fmap list_fmap]. apply NoDup_cons. split; [|by apply IH]. intros Hin. apply Hn.
  apply list_elem_of_fmap in Hin as ([n' e'] & Hne & Hin). cbn in Hne. subst n'.
  apply list_elem_of_omap in Hin as ([[d2 n2] e2] & Hin & H2).
  case_bool_decide; [|done]. injection H2 as <- <-. subst d2. apply list_elem_of_fmap. by exists (d, n2, e2).
Qed.

Lemma NoDup_segment_ids s d : NoDup (segment_ids (FileSys.dir_entries s d)).
Proof.
  pose proof (NoDup_dir_entries s d) as Hnd. revert Hnd. unfold segment_ids.
  induction (FileSys.dir_entries s d) as [|[n e] l IH]; [constructor|].
  rewrite fmap_cons. intros [Hn Hnd]%NoDup_cons. cbn [omap list_omap]. destruct e as [ino|]; [|by apply IH].
  destruct (ParseSegmentID n) as [id|] eqn:E; [|by apply IH].
  apply NoDup_cons. split; [|by apply IH]. intros Hin. apply Hn.
  apply list_elem_of_omap in Hin as ([n' e'] & Hin & Hp). destruct e'; [|done].
  apply ParseSegmentID_spec in E as [Hid ->]. apply ParseSegmentID_spec in Hp as [_ ->].
  apply list_elem_of_fmap. by exists (SegmentName id, FileSys.DFile ino0).
Qed.

Lemma listSegments_Ok w d G :
  disk (fs w) d G -> no_faults w -> listSegments d w = (w, Ok (sorted_ids G)).
Proof.
  intros Hd Hq. unfold listSegments. erewrite M_bind_Ok.
  2:{ apply wrapping_Ok, os_Ok_same. unfold FileSys.ReadDir.
      rewrite FileSys.syscall_none by done.
      rewrite bool_decide_eq_true_2 by apply Hd. reflexivity. }
  unfold mret, M_ret, sorted_ids, sort_ints. do 2 f_equal.
  apply (merge_sort_perm_eq Z.le). apply NoDup_Permutation;
    [apply NoDup_segment_ids|apply NoDup_fst_map_to_list|].
  intros id. rewrite elem_of_segment_ids by done. rewrite <- elem_of_sorted_ids.
  unfold sorted_ids, sort_ints. by rewrite merge_sort_Permutation.
Qed.
End Recovery.
