(* ===== verification/Opening.v ===== *)
(** * Closing and opening a store

    Fault-free executions of [Close] and [Open].  Opening builds one segment
    object per file of the directory and takes the index from the hint file
    when there is one, from a scan of the log otherwise. *)
From S2P Require Import Prelude LogEntry LogReader Index FileSys Segment Store Repr StoreOps Recovery.
Import LogReader Index Segment Store Repr StoreOps Recovery.

Module Opening.
Section WithRange.
Context `{!GoRange Z}.

(** ** Closing *)

(** Closing an allocated segment object touches nothing but that object. *)
Lemma Close_any w p sg :
  no_faults w -> heap w !! p = Some sg ->
  exists sg', Segment.Close p w = (MkWorld (fs w) (<[p := sg']> (heap w)) (hnext w), Ok tt).
Proof.
  intros Hq Hp. destruct (f sg) as [ino|] eqn:Hf.
  - eexists. by rewrite (Close_Ok _ _ _ _ Hq Hp Hf).
  - exists sg. rewrite insert_id by done. unfold Segment.Close.
    rewrite (M_bind_Ok _ _ _ _ _ (load_Ok _ _ _ Hp)), Hf. by destruct w.
Qed.

Lemma close_loop_Ok l x fe :
  quiet x -> (forall id p, (id, p) ∈ l -> is_Some (heap (world x) !! p)) ->
  exists h, close_loop l fe x
    = (MkState (MkWorld (fs (world x)) h (hnext (world x)))
         (set_segments (foldl (fun m a => delete a.1 m) (segments (st x)) l) (st x)), Ok fe).
Proof.
  revert x. induction l as [|[id p] l IH]; intros x Hq Hl.
  { exists (heap (world x)). by destruct x as [[] []]. }
  destruct (Hl id p) as [sg Hsg]; [by left|].
  destruct (Close_any _ _ _ Hq Hsg) as [sg' Hc]. cbn [close_loop].
  rewrite (M_bind_Ok _ _ _ _ _ (attempt_Ok _ _ _ _ (on_world_Ok _ _ _ _ Hc))).
  rewrite update_bind.
  match goal with |- context [close_loop l fe ?y] => destruct (IH y) as [h Hh] end.
  - done.
  - cbn. intros id' p' H. destruct (decide (p = p')) as [<-|Hne].
    + rewrite lookup_insert_eq. eauto.
    + rewrite lookup_insert_ne by done. eapply Hl. by right.
  - exists h. destruct fe; exact Hh.
Qed.

Lemma foldl_delete_all (m : gmap Z ptr) l :
  (forall id p, m !! id = Some p -> id ∈ l.*1) ->
  foldl (fun m (a : Z * ptr) => delete a.1 m) m l = ∅.
Proof.
  revert m. induction l as [|[id p] l IH]; intros m Hm.
  - apply map_empty. intros id. destruct (m !! id) as [p|] eqn:E; [|done].
    apply Hm in E. inversion E.
  - apply IH. intros id' p' [Hne Hp]%lookup_delete_Some. apply Hm in Hp.
    by apply elem_of_cons in Hp as [->|].
Qed.

(** [Close] only touches segment objects: the files keep their contents. *)
Lemma Close_state x G :
  Inv x G -> quiet x ->
  exists h, Close x
    = (MkState (MkWorld (fs (world x)) h (hnext (world x)))
         (set_active 0 None (set_segments ∅ (set_closed (st x)))), Ok tt).
Proof.
  intros HI Hq. unfold Close. rewrite self_bind, (inv_closed _ _ HI), update_bind.
  unfold closeSegmentsLocked. rewrite self_bind.
  set (y := MkState (world x) (set_closed (st x))).
  destruct (close_loop_Ok (go_range (segments (st y))) y None) as [h Hh]; [done| |].
  - intros id p Hp. rewrite go_range_perm in Hp. apply elem_of_map_to_list in Hp.
    pose proof (inv_opens _ _ HI id) as Ho. cbn in Hp.
    destruct (G !! id) as [[ino c]|]; [|congruence].
    destruct Ho as (p' & Hp' & Hs & _). simplify_eq. eauto.
  - exists h. rewrite (M_bind_Ok _ _ _ _ _ Hh), update_bind. cbn [st world].
    rewrite foldl_delete_all; [done|]. intros id p Hp.
    rewrite go_range_perm. apply list_elem_of_fmap. exists (id, p).
    split; [done|]. by apply elem_of_map_to_list.
Qed.

(** ** Opening the segments *)

Lemma or_else_Ok {St A} (m : M St A) c s s' a :
  m s = (s', Ok a) -> or_else m c s = (s', Ok a).
Proof.
  intros H. unfold or_else. by rewrite (M_bind_Ok _ _ _ _ _ (attempt_Ok _ _ _ _ H)).
Qed.

Definition opened_at (w : World) (s : Store) (G : Contents) (id : Z) : Prop :=
  exists ino c p, G !! id = Some (ino, c) /\ segments s !! id = Some p
    /\ heap w !! p = Some (segment_of (dir s) id ino c) /\ (p < hnext w)%nat.

(** One step of the loop: [NewSegment] and [OpenReadOnly] agree on an existing
    file. *)
Lemma open_step w d G id ino c (b : bool) :
  no_faults w -> disk (fs w) d G -> G !! id = Some (ino, c) ->
  (if b then NewSegment d id else OpenReadOnly d id) w = (opened w d id ino c, Ok (hnext w)).
Proof.
  intros Hq Hd HG. destruct (disk_file _ _ _ Hd _ _ _ HG) as [Hn Hc].
  destruct b; [by apply NewSegment_existing|by apply OpenReadOnly_existing].
Qed.

Definition heap_extends (w w' : World) : Prop :=
  fs w' = fs w /\ (hnext w <= hnext w')%nat
  /\ forall p sg, (p < hnext w)%nat -> heap w !! p = Some sg -> heap w' !! p = Some sg.

Lemma open_loop_gen ids all x G :
  quiet x -> disk (fs (world x)) (dir (st x)) G -> (forall id, id ∈ ids -> is_Some (G !! id)) ->
  exists w m,
    range_loop ids (fun id =>
      s ← self;
      p ← or_else
            (on_world (if bool_decide (Some id = list.last all) then NewSegment (dir s) id
                       else OpenReadOnly (dir s) id))
            closeSegments;
      update (fun s => set_segments (<[id := p]> (segments s)) s)) x
    = (MkState w (set_segments m (st x)), Ok tt)
    /\ heap_extends (world x) w
    /\ (forall id, id ∈ ids -> opened_at w (set_segments m (st x)) G id)
    /\ (forall id, id ∉ ids -> m !! id = segments (st x) !! id).
Proof.
  revert x. induction ids as [|id ids IH]; intros x Hq Hd Hids.
  { exists (world x), (segments (st x)). split_and!; [by destruct x as [? []]|by split_and!| |done].
    intros id H. inversion H. }
  destruct (Hids id) as [[ino c] HG]; [by left|]. cbn [range_loop].
  set (w1 := opened (world x) (dir (st x)) id ino c).
  set (x1 := MkState w1 (set_segments (<[id := hnext (world x)]> (segments (st x))) (st x))).
  destruct (IH x1) as (w & m & Hloop & (Hfs & Hnx & Hext) & Hin & Hout);
    [done|done|by intros; apply Hids; right|].
  exists w, m. split_and!.
  - rewrite (M_bind_Ok _ _ _ x1 tt); [exact Hloop|].
    rewrite self_bind. erewrite M_bind_Ok.
    2:{ apply or_else_Ok, on_world_Ok. by apply (open_step _ _ G _ ino c). }
    done.
  - cbn [x1 world w1 opened fs hnext heap] in *. split_and!; [done|lia|].
    intros p sg Hp Hh. apply Hext; [lia|]. rewrite lookup_insert_ne by lia. done.
  - intros id' [->|Hid']%elem_of_cons; [|by apply Hin].
    destruct (decide (id ∈ ids)) as [|Hn]; [by apply Hin|].
    exists ino, c, (hnext (world x)). cbn [segments set_segments]. rewrite Hout by done.
    cbn [x1 world w1 opened fs hnext heap st set_segments segments dir] in *.
    rewrite lookup_insert_eq. split_and!; [done|done| |lia].
    apply Hext; [lia|]. by rewrite lookup_insert_eq.
  - intros id' [Hne Hn]%not_elem_of_cons. rewrite Hout by done.
    cbn [x1 st set_segments segments]. by rewrite lookup_insert_ne.
Qed.

(** ** The index *)

Lemma readHintFile_none w d :
  no_faults w -> FileSys.names (fs w) !! (d, hintFile) = None ->
  readHintFile d w = (w, Ok None).
Proof.
  intros Hq Hn. unfold readHintFile. erewrite M_bind_Ok.
  2:{ eapply attempt_Err, os_Err_same. unfold FileSys.Open.
      rewrite FileSys.syscall_none, Hn by done. reflexivity. }
  done.
Qed.

Lemma readHintFile_some w d ino c rd idx :
  no_faults w -> FileSys.names (fs w) !! (d, hintFile) = Some (FileSys.DFile ino) ->
  FileSys.data (fs w) !! ino = Some c ->
  LoadHint (MkIoReader c EOF, New) = ((rd, idx), Ok tt) ->
  readHintFile d w = (w, Ok (Some idx)).
Proof.
  intros Hq Hn Hc Hl. unfold readHintFile. erewrite M_bind_Ok.
  2:{ apply attempt_Ok, os_Ok_same. unfold FileSys.Open.
      rewrite FileSys.syscall_none, Hn by done. reflexivity. }
  cbv beta iota. erewrite M_bind_Ok.
  2:{ apply os_Ok_same. by apply (FileSys.stream_none _ _ _ Hq Hc). }
  cbv beta. rewrite Hl. erewrite M_bind_Ok.
  2:{ eapply ignore_Ok, os_Ok_same. unfold FileSys.Close.
      rewrite FileSys.syscall_none by done. reflexivity. }
  done.
Qed.

(** A hint file that does not load. *)
Lemma readHintFile_bad w d ino c rd idx e :
  no_faults w -> FileSys.names (fs w) !! (d, hintFile) = Some (FileSys.DFile ino) ->
  FileSys.data (fs w) !! ino = Some c ->
  LoadHint (MkIoReader c EOF, New) = ((rd, idx), Err e) ->
  readHintFile d w = (w, Err e).
Proof.
  intros Hq Hn Hc Hl. unfold readHintFile. erewrite M_bind_Ok.
  2:{ apply attempt_Ok, os_Ok_same. unfold FileSys.Open.
      rewrite FileSys.syscall_none, Hn by done. reflexivity. }
  cbv beta iota. erewrite M_bind_Ok.
  2:{ apply os_Ok_same. by apply (FileSys.stream_none _ _ _ Hq Hc). }
  cbv beta. rewrite Hl. erewrite M_bind_Ok.
  2:{ eapply ignore_Ok, os_Ok_same. unfold FileSys.Close.
      rewrite FileSys.syscall_none by done. reflexivity. }
  done.
Qed.

(** Scanning a log whose segments are open. *)
Lemma scanIndex_Ok (L : Log) x G :
  quiet x -> disk (fs (world x)) (dir (st x)) G -> opens (world x) (st x) G ->
  (forall id rs, (id, rs) ∈ L -> Forall readable rs /\ exists ino, G !! id = Some (ino, frames rs)) ->
  scanIndex L.*1 x
  = (MkState (world x) (set_index
       (foldl (fun m '(id, rs) => index_entries id (located 0 rs) m) (index (st x)) L) (st x)),
     Ok tt).
Proof.
  revert x. induction L as [|[id rs] L IH]; intros x Hq Hd Ho HL.
  { by destruct x as [? []]. }
  destruct (HL id rs) as [Hr [ino HG]]; [by left|].
  pose proof (Ho id) as Hid. rewrite HG in Hid. destruct Hid as (p & Hp & Hh & _).
  unfold scanIndex. cbn [fmap list_fmap range_loop fst].
  set (idx1 := index_entries id (located 0 rs) (index (st x))).
  rewrite (M_bind_Ok _ _ x (MkState (world x) (set_index idx1 (st x))) tt).
  - apply (IH (MkState (world x) (set_index idx1 (st x)))); [done|done|done|].
    intros; apply HL. by right.
  - rewrite self_bind, Hp.
    rewrite (M_bind_Ok _ _ _ _ _ (on_world_Ok_same _ _ _ (File_Ok _ _ _ Hh))).
    erewrite M_bind_Ok.
    2:{ apply on_world_Ok_same. apply os_Ok_same.
        refine (FileSys.stream_none _ _ _ Hq _). apply (disk_file _ _ _ Hd id _ _ HG). }
    by rewrite (lift_bind_Ok _ _ _ _ (scan_stream_frames id rs (index (st x)) Hr)).
Qed.

(** ** Opening *)

(** The last of the sorted ids is the largest. *)
Lemma last_sorted_ids G id :
  is_Some (G !! id) ->
  exists m, list.last (sorted_ids G) = Some m /\ is_Some (G !! m)
            /\ forall i, is_Some (G !! i) -> i <= m.
Proof.
  intros Hid. destruct (list.last (sorted_ids G)) as [m|] eqn:E.
  2:{ apply last_None in E. apply elem_of_sorted_ids in Hid. rewrite E in Hid. inversion Hid. }
  exists m. split; [done|]. apply last_Some in E as [l E]. split.
  - apply elem_of_sorted_ids. rewrite E. set_solver.
  - intros i Hi%elem_of_sorted_ids.
    assert (Hs : StronglySorted Z.le (sorted_ids G))
      by (apply Sorted_StronglySorted; [apply _|apply Sorted_merge_sort, _]).
    rewrite E in Hi, Hs. apply elem_of_app in Hi as [Hi|Hi].
    + apply StronglySorted_app in Hs as (Hx & _ & _). apply Hx; [done|by left].
    + apply list_elem_of_singleton in Hi as ->. lia.
Qed.

(** What [Open] leaves: the files as they were, and a store over them. *)
Definition opened_store (w w' : World) (s : Store) (d : bytes) (o : Options) : Prop :=
  fs w' = fs w /\ dir s = d /\ opts s = o.

(** The state in which [Open] loads the index: every segment is open. *)
Record opening (w : World) (d : bytes) (o : Options) (G : Contents) (x : State) : Prop := {
  og_fs : fs (world x) = fs w;
  og_dir : dir (st x) = d;
  og_opts : opts (st x) = o;
  og_index : index (st x) = New;
  og_closed : closed (st x) = false;
  og_opens : opens (world x) (st x) G;
  og_active : active_ok (st x) G;
}.

Lemma MkdirAll_existing w d :
  no_faults w -> d ∈ FileSys.dirs (fs w) -> os (FileSys.MkdirAll d) w = (w, Ok tt).
Proof.
  intros Hq Hin. apply os_Ok_same. unfold FileSys.MkdirAll. rewrite FileSys.syscall_none by done.
  unfold modify. replace ({[d]} ∪ FileSys.dirs (fs w)) with (FileSys.dirs (fs w)) by set_solver.
  by destruct (fs w).
Qed.

Lemma OpenWithOptions_segments w d o G id :
  no_faults w -> disk (fs w) d G -> is_Some (G !! id) ->
  exists x, opening w d o G x
    /\ OpenWithOptions d o w = match load_index (sorted_ids G) x with
                               | (x', Ok _) => (world x', Ok (st x'))
                               | (x', Err e) => (world x', Err e)
                               | (x', Panic) => (world x', Panic)
                               end.
Proof.
  intros Hq Hd Hid.
  pose proof (MkdirAll_existing w d Hq (disk_dir _ _ _ Hd)) as Hmk.
  destruct (last_sorted_ids G id Hid) as (m & Hlast & [[ino c] Hm] & Hmax).
  set (s0 := MkStore d o New ∅ 0 None false).
  destruct (open_loop_gen (sorted_ids G) (sorted_ids G) (MkState w s0) G)
    as (w1 & segs & Hloop & (Hfs & Hnx & Hext) & Hin & Hout); [done|done| |].
  { intros i Hi'. by apply elem_of_sorted_ids. }
  set (s1 := set_active m (segs !! m) (set_segments segs s0)).
  exists (MkState w1 s1). split.
  - split; [done|done|done|done|done| |by split_and!; cbn; eauto].
    intros i. destruct (G !! i) as [[ino' c']|] eqn:Ei.
    + destruct (Hin i) as (i1 & c1 & p & HG & Hs & Hh & Hp).
      { apply elem_of_sorted_ids. eauto. }
      simplify_eq. by exists p.
    + cbn [s1 st segments set_active set_segments]. rewrite Hout; [done|].
      rewrite elem_of_sorted_ids, Ei. by intros [? ?].
  - unfold OpenWithOptions. rewrite (M_bind_Ok _ _ _ _ _ (wrapping_Ok _ _ _ _ _ Hmk)).
    rewrite (M_bind_Ok _ _ _ _ _ (listSegments_Ok w d G Hd Hq)). cbv zeta. rewrite Hlast.
    unfold in_store, open_loop. by rewrite (M_bind_Ok _ _ _ _ _ Hloop), update_bind.
Qed.

(** Opening a directory with at least one segment, for an index that
    [load_index] computes. *)
Lemma OpenWithOptions_load w d o G id idx :
  no_faults w -> disk (fs w) d G -> is_Some (G !! id) -> idx_ok G idx ->
  (forall x, opening w d o G x ->
     load_index (sorted_ids G) x = (MkState (world x) (set_index idx (st x)), Ok tt)) ->
  exists w' s, OpenWithOptions d o w = (w', Ok s) /\ Inv (MkState w' s) G
    /\ opened_store w w' s d o /\ index s = idx.
Proof.
  intros Hq Hd Hid Hi Hload.
  destruct (OpenWithOptions_segments w d o G id Hq Hd Hid) as (x & Hx & Hopen).
  rewrite (Hload x Hx) in Hopen. destruct Hx as [H1 H2 H3 H4 H5 H6 H7].
  eexists _, _. split_and!; [exact Hopen| |by split_and!|done].
  split; cbn [world st set_index closed dir index]; try done. by rewrite H1, H2.
Qed.

(** Opening fails when the index cannot be loaded. *)
Lemma OpenWithOptions_refuse w d o G id e :
  no_faults w -> disk (fs w) d G -> is_Some (G !! id) ->
  (forall x, opening w d o G x -> (load_index (sorted_ids G) x).2 = Err e) ->
  exists w', OpenWithOptions d o w = (w', Err e).
Proof.
  intros Hq Hd Hid Hload.
  destruct (OpenWithOptions_segments w d o G id Hq Hd Hid) as (x & Hx & Hopen).
  specialize (Hload x Hx). destruct (load_index _ x) as [x' r]. cbn in Hload. subst r. eauto.
Qed.

(** Without a hint file the index is the replay of the log. *)
Lemma OpenWithOptions_scan w d o G L id :
  no_faults w -> disk (fs w) d G -> is_Some (G !! id) -> log_of G L ->
  FileSys.names (fs w) !! (d, hintFile) = None ->
  exists w' s, OpenWithOptions d o w = (w', Ok s) /\ Inv (MkState w' s) G
    /\ opened_store w w' s d o /\ index s = replay L.
Proof.
  intros Hq Hd Hid HL Hh. apply (OpenWithOptions_load _ _ _ _ id); try done.
  { by apply idx_ok_replay. }
  intros x [Hfs Hdx _ Hix _ Hops _]. assert (Hqx : quiet x) by (unfold quiet, no_faults; by rewrite Hfs).
  unfold load_index. rewrite self_bind. rewrite <- Hfs in Hh. rewrite <- Hdx in Hh.
  rewrite (M_bind_Ok _ _ _ _ _ (attempt_Ok _ _ _ _ (on_world_Ok_same _ _ _
    (readHintFile_none _ _ Hqx Hh)))).
  apply or_else_Ok. rewrite <- (log_ids_sorted G L HL).
  rewrite (scanIndex_Ok L x G); [by rewrite Hix|done|by rewrite Hfs, Hdx|done|].
  intros i rs Hin. split; [by apply (log_readable _ _ HL i)|].
  apply (log_contents _ _ HL). eauto.
Qed.

(** With a hint file that loads, the log is not read at all. *)
Lemma OpenWithOptions_hint w d o G idx id ino c rd :
  no_faults w -> disk (fs w) d G -> is_Some (G !! id) -> idx_ok G idx ->
  FileSys.names (fs w) !! (d, hintFile) = Some (FileSys.DFile ino) ->
  FileSys.data (fs w) !! ino = Some c ->
  LoadHint (MkIoReader c EOF, New) = ((rd, idx), Ok tt) ->
  exists w' s, OpenWithOptions d o w = (w', Ok s) /\ Inv (MkState w' s) G
    /\ opened_store w w' s d o /\ index s = idx.
Proof.
  intros Hq Hd Hid Hi Hn Hc Hl. apply (OpenWithOptions_load _ _ _ _ id); try done.
  intros x [Hfs Hdx _ _ _ _ _]. assert (Hqx : quiet x) by (unfold quiet, no_faults; by rewrite Hfs).
  unfold load_index. rewrite self_bind. rewrite <- Hfs in Hn, Hc. rewrite <- Hdx in Hn.
  rewrite (M_bind_Ok _ _ _ _ _ (attempt_Ok _ _ _ _ (on_world_Ok_same _ _ _
    (readHintFile_some _ _ _ _ _ _ Hqx Hn Hc Hl)))).
  done.
Qed.
End WithRange.
End Opening.
