(* ===== verification/Durable.v ===== *)
(** * Durability: sessions of writes survive a restart

    [Durable] says that the index is the replay of the log and that no hint
    file shadows it.  Every write preserves it, so a session of writes followed
    by [Close] and [Open] gives back the map the writes built. *)
From S2P Require Import Prelude LogEntry LogReader Index FileSys Segment Store Repr StoreOps Recovery Opening.
Import LogReader Index Segment Store Repr StoreOps Recovery Opening.

Module Durable.

Definition hint_free (x : State) : Prop :=
  FileSys.names (fs (world x)) !! (dir (st x), hintFile) = None.

Record Durable (x : State) (G : Contents) (L : Log) : Prop := {
  dur_inv : Inv x G;
  dur_log : log_of G L;
  dur_index : index (st x) = replay L;
  dur_hint : hint_free x;
}.

(** ** Growing a log *)

Lemma log_bound G L id : log_of G L ->
  (forall i, is_Some (G !! i) -> i < id) -> Forall (fun i => i < id) L.*1.
Proof. intros HL Hm. rewrite Forall_forall. intros i Hi. by apply Hm, (log_ids G L i HL). Qed.

Lemma log_last G L id :
  log_of G L -> is_Some (G !! id) -> (forall i, is_Some (G !! i) -> i <= id) ->
  exists L0 rs, L = L0 ++ [(id, rs)] /\ Forall (fun i => i < id) L0.*1.
Proof.
  intros HL Hid Hmax.
  assert (Hin : id ∈ L.*1) by (by apply (log_ids G L id HL)).
  assert (Hle : forall i, i ∈ L.*1 -> i <= id) by (intros i Hi; by apply Hmax, (log_ids G L i HL)).
  pose proof (log_sorted _ _ HL) as Hs. clear HL.
  destruct L as [|[i rs] L _] using rev_ind; [inversion Hin|].
  rewrite fmap_app in *. cbn in *. apply StronglySorted_app in Hs as (Hlt & _ & _).
  assert (i = id) as ->.
  { apply elem_of_app in Hin as [Hin|Hin%list_elem_of_singleton]; [|done].
    specialize (Hlt id i Hin ltac:(by left)). specialize (Hle i). 
    assert (i <= id) by (apply Hle, elem_of_app; right; by left). lia. }
  exists L, rs. split; [done|]. rewrite Forall_forall. intros j Hj. apply Hlt; [done|by left].
Qed.

Lemma replay_snoc L0 id rs :
  replay (L0 ++ [(id, rs)]) = index_entries id (located 0 rs) (replay L0).
Proof. unfold replay. by rewrite foldl_app. Qed.

Lemma replay_append L0 id rs r :
  replay (L0 ++ [(id, rs ++ [r])])
  = <[rkey r := MkLocation id (blen (frames rs)) (blen (enc r)) (rtomb r)]>
      (replay (L0 ++ [(id, rs)])).
Proof.
  rewrite !replay_snoc, located_app. unfold index_entries. rewrite foldl_app. done.
Qed.

Lemma replay_rotate L id : replay (L ++ [(id, [])]) = replay L.
Proof. by rewrite replay_snoc. Qed.

Lemma log_of_append G L0 id rs ino c r :
  log_of G (L0 ++ [(id, rs)]) -> Forall (fun i => i < id) L0.*1 ->
  G !! id = Some (ino, c) -> readable r ->
  c = frames rs /\ log_of (<[id := (ino, c ++ enc r)]> G) (L0 ++ [(id, rs ++ [r])]).
Proof.
  intros HL Hlt HG Hr.
  assert (Hnot : forall rs', (id, rs') ∉ L0).
  { intros rs' Hin. rewrite Forall_forall in Hlt.
    specialize (Hlt id). apply (list_elem_of_fmap_2 fst) in Hin. apply Hlt in Hin. lia. }
  assert (Hc : c = frames rs).
  { destruct (proj1 (log_contents _ _ HL id c)) as (rs' & Hin & ->); [eauto|].
    apply elem_of_app in Hin as [Hin|Hin%list_elem_of_singleton]; [by apply Hnot in Hin|].
    by simplify_eq. }
  split; [done|]. split.
  - pose proof (log_sorted _ _ HL) as Hs. by rewrite fmap_app in *.
  - intros i c'. destruct (decide (id = i)) as [<-|Hne].
    + rewrite lookup_insert_eq. split.
      * intros [ino' H]. simplify_eq. exists (rs ++ [r]). split; [set_solver|].
        by rewrite frames_snoc.
      * intros (rs' & Hin & ->). exists ino.
        apply elem_of_app in Hin as [Hin|Hin%list_elem_of_singleton]; [by apply Hnot in Hin|].
        simplify_eq. by rewrite frames_snoc.
    + rewrite lookup_insert_ne, (log_contents _ _ HL i c') by done.
      split; intros (rs' & Hin & ->); exists rs'; (split; [|done]);
        rewrite elem_of_app, list_elem_of_singleton in *; naive_solver.
  - intros i rs' Hin. apply elem_of_app in Hin as [Hin|Hin%list_elem_of_singleton].
    + apply (log_readable _ _ HL i), elem_of_app. by left.
    + simplify_eq. apply Forall_app_2; [|by constructor].
      apply (log_readable _ _ HL id), elem_of_app. right. by left.
Qed.

Lemma log_of_rotate G L id ino :
  log_of G L -> (forall i, is_Some (G !! i) -> i < id) ->
  log_of (<[id := (ino, [])]> G) (L ++ [(id, [])]).
Proof.
  intros HL Hm. pose proof (log_bound G L id HL Hm) as Hb.
  assert (Hnot : forall rs', (id, rs') ∉ L).
  { intros rs' Hin. rewrite Forall_forall in Hb.
    specialize (Hb id). apply (list_elem_of_fmap_2 fst) in Hin. apply Hb in Hin. lia. }
  split.
  - rewrite fmap_app. apply StronglySorted_app. cbn. split_and!;
      [|apply HL|repeat constructor].
    intros i j Hi ->%list_elem_of_singleton. rewrite Forall_forall in Hb. by apply Hb.
  - intros i c'. destruct (decide (id = i)) as [<-|Hne].
    + rewrite lookup_insert_eq. split.
      * intros [ino' H]. simplify_eq. exists []. split; [set_solver|done].
      * intros (rs' & Hin & ->). exists ino.
        apply elem_of_app in Hin as [Hin|Hin%list_elem_of_singleton]; [by apply Hnot in Hin|].
        by simplify_eq.
    + rewrite lookup_insert_ne, (log_contents _ _ HL i c') by done.
      split; intros (rs' & Hin & ->); exists rs'; (split; [|done]);
        rewrite elem_of_app, list_elem_of_singleton in *; naive_solver.
  - intros i rs' Hin. apply elem_of_app in Hin as [Hin|Hin%list_elem_of_singleton].
    + by apply (log_readable _ _ HL i).
    + simplify_eq. constructor.
Qed.

(** ** Writes preserve durability *)

Lemma logged_Durable x x' G G' L r :
  Durable x G L -> Inv x' G' -> logged x x' G G' r -> readable r ->
  exists L', Durable x' G' L'.
Proof.
  intros HD HI (ino & c & HG & Hidx & Hdir & _ & Hh & _ & HG') Hr.
  destruct (inv_active _ _ (dur_inv _ _ _ HD)) as (_ & Hs & Hmax).
  destruct (log_last _ _ _ (dur_log _ _ _ HD) Hs Hmax) as (L0 & rs & -> & Hlt).
  destruct (log_of_append _ _ _ _ _ _ r (dur_log _ _ _ HD) Hlt HG Hr) as [-> HL1].
  assert (Hhint : hint_free x') by (unfold hint_free; rewrite Hdir, Hh; apply HD).
  pose proof (dur_index _ _ _ HD) as Hi.
  destruct HG' as [-> | [ino' ->]].
  - eexists. split; [done|exact HL1| |done]. by rewrite replay_append, Hidx, Hi.
  - eexists (_ ++ [(activeID (st x) + 1, [])]). split; [done| | |done].
    + apply log_of_rotate; [exact HL1|]. intros i.
      destruct (decide (activeID (st x) = i)) as [<-|Hne]; [lia|].
      rewrite lookup_insert_ne by done. intros H%Hmax. lia.
    + by rewrite replay_rotate, replay_append, Hidx, Hi.
Qed.

(** ** Resources *)

(** Every segment has at most [n] bytes and an id of at most [k]. *)
Definition bounded (G : Contents) (n k : Z) : Prop :=
  forall id ino c, G !! id = Some (ino, c) -> blen c <= n /\ id <= k.

Lemma bounded_weaken G n k n' k' : bounded G n k -> n <= n' -> k <= k' -> bounded G n' k'.
Proof. intros Hb ?? id ino c H. apply Hb in H. lia. Qed.

Lemma bounded_room x G n k m j :
  Inv x G -> bounded G n k -> n + m <= FileSys.max_file -> k + j < max_id -> room x m j.
Proof.
  intros HI Hb Hm Hj. apply (room_size _ _ _ _ HI). unfold active_size.
  destruct (inv_active _ _ HI) as (_ & [[ino c] HG] & _). rewrite HG.
  apply Hb in HG. lia.
Qed.

Lemma logged_bounded x x' G G' r n k :
  Inv x G -> bounded G n k -> logged x x' G G' r ->
  bounded G' (n + blen (enc r)) (k + 1).
Proof.
  intros HI Hb (ino & c & HG & _ & _ & _ & _ & _ & HG').
  pose proof (blen_nonneg (enc r)). destruct (Hb _ _ _ HG) as [Hc Hi].
  pose proof (blen_nonneg c).
  assert (Hb1 : bounded (<[activeID (st x) := (ino, c ++ enc r)]> G) (n + blen (enc r)) (k + 1)).
  { intros id ino' c'. rewrite lookup_insert_Some. intros [[<- [= <- <-]]|[_ H']].
    - rewrite blen_app. lia.
    - apply Hb in H'. lia. }
  destruct HG' as [-> | [ino' ->]]; [done|].
  intros id ino2 c2. rewrite lookup_insert_Some. intros [[<- [= <- <-]]|[_ H']]; [|by eapply Hb1].
  change (blen []) with 0. lia.
Qed.
End Durable.
