(* ===== verification/Session.v ===== *)
(** * Sessions: open, write, close, reopen *)
From S2P Require Import Prelude LogEntry LogReader Index FileSys Segment Store Repr StoreOps Recovery Opening Durable.
Import LogReader Index Segment Store Repr StoreOps Recovery Opening Durable.

Module Session.

(** A write requested by a client. *)
Inductive op :=
  | OpPut (key value : bytes)
  | OpDelete (key : bytes).

(** The record a write appends, and what it does to the map. *)
Definition op_record (o : op) : log_record :=
  match o with
  | OpPut k v => MkRec k v false
  | OpDelete k => MkRec k [] true
  end.

Definition apply_op (A : gmap bytes bytes) (o : op) : gmap bytes bytes :=
  match o with
  | OpPut k v => <[k := v]> A
  | OpDelete k => delete k A
  end.

(** The store rejects empty keys; the reader rejects larger payloads. *)
Definition op_ok (o : op) : Prop := rkey (op_record o) <> [] /\ readable (op_record o).

Definition ops_bytes (l : list op) : Z := blen (frames (op_record <$> l)).

Lemma ops_bytes_app l k : ops_bytes (l ++ k) = ops_bytes l + ops_bytes k.
Proof. unfold ops_bytes. by rewrite fmap_app, frames_app, blen_app. Qed.

Lemma ops_bytes_cons o l : ops_bytes (o :: l) = blen (enc (op_record o)) + ops_bytes l.
Proof. unfold ops_bytes. by rewrite fmap_cons, frames_cons, blen_app. Qed.

Lemma ops_bytes_nonneg l : 0 <= ops_bytes l.
Proof. apply blen_nonneg. Qed.

Section WithRange.
Context `{!GoRange Z}.

Definition run_op (o : op) : M State unit :=
  match o with
  | OpPut k v => Store.Put k v
  | OpDelete k => Store.Delete k
  end.

Definition run_ops (l : list op) : M State unit := range_loop l run_op.

Lemma run_op_Ok x G o :
  Inv x G -> quiet x -> op_ok o -> room x (blen (enc (op_record o))) 1 ->
  exists x' G',
    run_op o x = (x', Ok tt) /\ Inv x' G' /\ quiet x'
    /\ abs G' (index (st x')) = apply_op (abs G (index (st x))) o
    /\ logged x x' G G' (op_record o).
Proof.
  intros HI Hq [Hne Hr] Hroom. pose proof (readable_fits _ Hr) as [Hk Hv].
  destruct o as [k v|k]; cbn in *; [by apply Put_Ok|by apply Delete_Ok].
Qed.

(** A sequence of writes is total and does what its operations say. *)
Lemma run_ops_Ok x G L n k l :
  Durable x G L -> quiet x -> Forall op_ok l -> bounded G n k ->
  n + ops_bytes l <= FileSys.max_file -> k + Z.of_nat (length l) < max_id ->
  exists x' G' L',
    run_ops l x = (x', Ok tt) /\ Durable x' G' L' /\ quiet x'
    /\ abs G' (index (st x')) = foldl apply_op (abs G (index (st x))) l
    /\ dir (st x') = dir (st x)
    /\ bounded G' (n + ops_bytes l) (k + Z.of_nat (length l)).
Proof.
  revert x G L n k. induction l as [|o l IH]; intros x G L n k HD Hq Hok Hb Hsz Hid.
  { exists x, G, L. split_and!; try done.
    eapply bounded_weaken; [exact Hb| |]; [change (ops_bytes []) with 0; lia|cbn; lia]. }
  apply Forall_cons in Hok as [Ho Hl]. pose proof (dur_inv _ _ _ HD) as HI.
  rewrite ops_bytes_cons in *. pose proof (ops_bytes_nonneg l). cbn [length] in *. rewrite Nat2Z.inj_succ in *.
  destruct (run_op_Ok x G o HI Hq Ho) as (x1 & G1 & Hrun & HI1 & Hq1 & Habs & Hlog).
  { eapply bounded_room; [done|done|lia|lia]. }
  destruct (logged_Durable _ _ _ _ _ _ HD HI1 Hlog) as [L1 HD1]; [apply Ho|].
  pose proof (logged_bounded _ _ _ _ _ _ _ HI Hb Hlog) as Hb1.
  destruct (IH x1 G1 L1 _ _ HD1 Hq1 Hl Hb1) as (x' & G' & L' & Hrun' & HD' & Hq' & Habs' & Hdir & Hb');
    [lia|lia|].
  destruct Hlog as (_ & _ & _ & _ & Hd1 & Ho1 & _).
  exists x', G', L'. split_and!; [|done|done| |congruence|].
  - unfold run_ops. cbn [range_loop]. by rewrite (M_bind_Ok _ _ _ _ _ Hrun).
  - by rewrite Habs', Habs.
  - eapply bounded_weaken; [exact Hb'|lia|lia].
Qed.

(** ** Restarting *)

(** A directory at rest: the files of a closed durable store with map [A], its
    segments having at most [n] bytes and ids up to [k]. *)
Definition rests (w : World) (d : bytes) (A : gmap bytes bytes) (n k : Z) : Prop :=
  exists G L,
    no_faults w /\ disk (fs w) d G /\ (exists id, is_Some (G !! id)) /\ log_of G L
    /\ FileSys.names (fs w) !! (d, hintFile) = None
    /\ A = abs G (replay L) /\ bounded G n k.

Lemma rests_open w d A n k o :
  rests w d A n k ->
  exists w' s G L,
    OpenWithOptions d o w = (w', Ok s) /\ Durable (MkState w' s) G L /\ quiet (MkState w' s)
    /\ dir s = d /\ abs G (index s) = A /\ bounded G n k.
Proof.
  intros (G & L & Hq & Hd & [id Hid] & HL & Hh & -> & Hb).
  destruct (OpenWithOptions_scan w d o G L id Hq Hd Hid HL Hh)
    as (w' & s & Hopen & HI & (Hfs & Hds & Ho) & Hi).
  exists w', s, G, L. split_and!; [done| | |done|by rewrite Hi|done].
  - split; [done|done|done|]. unfold hint_free. cbn [world st]. by rewrite Hfs, Hds.
  - unfold quiet, no_faults. cbn [world]. by rewrite Hfs.
Qed.

Lemma close_rests x G L n k :
  Durable x G L -> quiet x -> bounded G n k ->
  exists x', Store.Close x = (x', Ok tt)
    /\ rests (world x') (dir (st x)) (abs G (index (st x))) n k.
Proof.
  intros HD Hq Hb. pose proof (dur_inv _ _ _ HD) as HI.
  destruct (Close_state x G HI Hq) as [h Hc].
  eexists. split; [exact Hc|]. exists G, L.
  split_and!; [done|apply HI| |apply HD|apply HD|by rewrite (dur_index _ _ _ HD)|done].
  exists (activeID (st x)). apply (inv_active _ _ HI).
Qed.

(** ** A new directory *)

Definition new_fs : FileSys.FS := FileSys.MkFS ∅ ∅ ∅ 0 [].

Definition new_world : World := MkWorld new_fs ∅ 0.

Lemma MkdirAll_disk s d :
  (forall name, FileSys.names s !! (d, name) = None) ->
  (forall key ino, FileSys.names s !! key = Some (FileSys.DFile ino) -> (ino < FileSys.next s)%nat) ->
  disk (FileSys.MkFS ({[d]} ∪ FileSys.dirs s) (FileSys.names s) (FileSys.data s)
          (FileSys.next s) (FileSys.faults s)) d ∅.
Proof.
  intros Hn Hf. split; cbn [FileSys.dirs FileSys.names FileSys.data FileSys.next].
  - set_solver.
  - intros id ino c H. by rewrite lookup_empty in H.
  - intros id [x H]. by rewrite lookup_empty in H.
  - intros id ino c H. by rewrite lookup_empty in H.
  - intros name e id H. by rewrite Hn in H.
  - intros id1 id2 ino c1 c2 H. by rewrite lookup_empty in H.
  - exact Hf.
  - intros e H. by rewrite Hn in H.
Qed.

Lemma log_of_new ino : log_of {[1 := (ino, [])]} [(1, [])].
Proof.
  split; [repeat constructor| |].
  - intros id c. split.
    + intros [i H]. apply lookup_singleton_Some in H as [<- H]. simplify_eq.
      exists []. split; [by left|done].
    + intros (rs & H%list_elem_of_singleton & ->). simplify_eq.
      exists ino. by rewrite lookup_singleton_eq.
  - intros id rs H%list_elem_of_singleton. simplify_eq. constructor.
Qed.

(** Opening a directory without segments creates segment 1. *)
Lemma Open_no_segments w w1 d o :
  os (FileSys.MkdirAll d) w = (w1, Ok tt) -> no_faults w1 -> disk (fs w1) d ∅ ->
  FileSys.names (fs w1) !! (d, hintFile) = None ->
  exists w' s G L,
    OpenWithOptions d o w = (w', Ok s) /\ Durable (MkState w' s) G L /\ quiet (MkState w' s)
    /\ dir s = d /\ abs G (index s) = ∅ /\ bounded G 0 1.
Proof.
  intros Hmk Hq Hd Hh.
  exists (created w1 d 1),
    (set_active 1 (Some (hnext w1)) (set_segments {[1 := hnext w1]} (MkStore d o New ∅ 0 None false))),
    {[1 := (FileSys.next (fs w1), [])]}, [(1, [])].
  split_and!; try done.
  - unfold OpenWithOptions. rewrite (M_bind_Ok _ _ _ _ _ (wrapping_Ok _ _ _ _ _ Hmk)).
    rewrite (M_bind_Ok _ _ _ _ _ (listSegments_Ok w1 d ∅ Hd Hq)).
    replace (sorted_ids ∅) with (@nil Z)
      by (unfold sorted_ids; by rewrite map_to_list_empty).
    cbv zeta. cbn [list.last].
    rewrite (M_bind_Ok _ _ _ _ _ (NewSegment_fresh w1 d 1 Hq (disk_dir _ _ _ Hd)
      (disk_no_segment _ _ _ 1 Hd eq_refl ltac:(unfold max_id; lia)))).
    done.
  - split; [|apply log_of_new|done|].
    + split; cbn [world st set_active set_segments closed dir index]; [done| | | |].
      * apply (disk_create _ _ ∅ 1 Hd); [done|unfold max_id; lia].
      * apply (opens_created w1 (MkStore d o New ∅ 0 None false) ∅ 1).
        intros id. done.
      * split_and!; cbn [active activeID segments set_active set_segments].
        { by rewrite lookup_singleton_eq. }
        { rewrite lookup_singleton_eq. eauto. }
        intros id [y H%lookup_singleton_Some]. lia.
      * intros key loc H. unfold New in H. rewrite (lookup_empty (M:=gmap bytes)) in H. done.
    + unfold hint_free. cbn [created world st fs FileSys.names dir set_active set_segments]. rewrite lookup_insert_ne; [done|].
      apply (hint_name_ne d 1). unfold max_id. lia.
  - intros id ino c [<- H]%lookup_singleton_Some. simplify_eq. done.
Qed.

(** Opening a directory that does not exist. *)
Lemma Open_new w d o :
  no_faults w -> (forall name, FileSys.names (fs w) !! (d, name) = None) ->
  (forall key ino, FileSys.names (fs w) !! key = Some (FileSys.DFile ino) ->
     (ino < FileSys.next (fs w))%nat) ->
  exists w' s G L,
    OpenWithOptions d o w = (w', Ok s) /\ Durable (MkState w' s) G L /\ quiet (MkState w' s)
    /\ dir s = d /\ abs G (index s) = ∅ /\ bounded G 0 1.
Proof.
  intros Hq Hn Hf. pose proof (MkdirAll_disk (fs w) d Hn Hf) as Hd.
  apply (Open_no_segments w (MkWorld (FileSys.MkFS ({[d]} ∪ FileSys.dirs (fs w)) (FileSys.names (fs w))
    (FileSys.data (fs w)) (FileSys.next (fs w)) (FileSys.faults (fs w))) (heap w) (hnext w))); try done.
  apply os_Ok. unfold FileSys.MkdirAll. by rewrite FileSys.syscall_none.
Qed.

(** ** Whole sessions *)

(** Open a directory, run writes, close. *)
Definition session (d : bytes) (o : Options) (l : list op) : M World unit := fun w =>
  match OpenWithOptions d o w with
  | (w1, Ok s) => let '(x, r) := (run_ops l ≫= fun _ => Store.Close) (MkState w1 s) in (world x, r)
  | (w1, Err e) => (w1, Err e)
  | (w1, Panic) => (w1, Panic)
  end.

(** Open a directory and look up a key. *)
Definition lookup_in (d : bytes) (o : Options) (k : bytes) : M World (option bytes) := fun w =>
  match OpenWithOptions d o w with
  | (w1, Ok s) => let '(x, r) := Store.Get k (MkState w1 s) in (world x, r)
  | (w1, Err e) => (w1, Err e)
  | (w1, Panic) => (w1, Panic)
  end.

Lemma session_opened d o l w w1 s G L n k :
  OpenWithOptions d o w = (w1, Ok s) -> Durable (MkState w1 s) G L -> quiet (MkState w1 s) ->
  dir s = d -> bounded G n k -> Forall op_ok l ->
  n + ops_bytes l <= FileSys.max_file -> k + Z.of_nat (length l) < max_id ->
  exists w', session d o l w = (w', Ok tt)
    /\ rests w' d (foldl apply_op (abs G (index s)) l) (n + ops_bytes l) (k + Z.of_nat (length l)).
Proof.
  intros Hopen HD Hq <- Hb Hok Hsz Hid.
  destruct (run_ops_Ok _ _ _ _ _ l HD Hq Hok Hb Hsz Hid)
    as (x & G' & L' & Hrun & HD' & Hq' & Habs & Hdir & Hb').
  destruct (close_rests _ _ _ _ _ HD' Hq' Hb') as (x' & Hc & Hr).
  exists (world x'). unfold session. rewrite Hopen, (M_bind_Ok _ _ _ _ _ Hrun), Hc.
  split; [done|]. by rewrite Habs, Hdir in Hr.
Qed.

Lemma session_Ok d o l w A n k :
  rests w d A n k -> Forall op_ok l ->
  n + ops_bytes l <= FileSys.max_file -> k + Z.of_nat (length l) < max_id ->
  exists w', session d o l w = (w', Ok tt)
    /\ rests w' d (foldl apply_op A l) (n + ops_bytes l) (k + Z.of_nat (length l)).
Proof.
  intros Hr Hok Hsz Hid.
  destruct (rests_open _ _ _ _ _ o Hr) as (w1 & s & G & L & Hopen & HD & Hq & Hd & <- & Hb).
  by apply (session_opened d o l w w1 s G L).
Qed.

Lemma session_new d o l :
  Forall op_ok l -> ops_bytes l <= FileSys.max_file -> 1 + Z.of_nat (length l) < max_id ->
  exists w', session d o l new_world = (w', Ok tt)
    /\ rests w' d (foldl apply_op ∅ l) (ops_bytes l) (1 + Z.of_nat (length l)).
Proof.
  intros Hok Hsz Hid.
  destruct (Open_new new_world d o) as (w1 & s & G & L & Hopen & HD & Hq & Hd & <- & Hb);
    [done|done|done|].
  rewrite <- (Z.add_0_l (ops_bytes l)). by apply (session_opened d o l new_world w1 s G L).
Qed.

Lemma lookup_Ok w d A n k o key :
  rests w d A n k -> exists w', lookup_in d o key w = (w', Ok (A !! key)).
Proof.
  intros Hr.
  destruct (rests_open _ _ _ _ _ o Hr) as (w1 & s & G & L & Hopen & HD & Hq & Hd & <- & Hb).
  exists w1. unfold lookup_in. rewrite Hopen.
  by rewrite (Get_Ok _ G key (dur_inv _ _ _ HD) Hq).
Qed.

(** Consecutive sessions, each with its own options. *)
Definition sessions (d : bytes) (ls : list (Options * list op)) : M World unit :=
  range_loop ls (fun '(o, l) => session d o l).

Lemma sessions_Ok d ls w A n k :
  rests w d A n k -> Forall op_ok (concat ls.*2) ->
  n + ops_bytes (concat ls.*2) <= FileSys.max_file ->
  k + Z.of_nat (length (concat ls.*2)) < max_id ->
  exists w', sessions d ls w = (w', Ok tt)
    /\ rests w' d (foldl apply_op A (concat ls.*2)) (n + ops_bytes (concat ls.*2))
         (k + Z.of_nat (length (concat ls.*2))).
Proof.
  revert w A n k. induction ls as [|[o l] ls IH]; intros w A n k Hr Hok Hsz Hid.
  { exists w. split; [done|]. cbn. change (ops_bytes []) with 0. by rewrite !Z.add_0_r. }
  cbn [fmap list_fmap concat snd] in *. apply Forall_app in Hok as [Hol Hok].
  rewrite length_app, Nat2Z.inj_add, ops_bytes_app in *.
  pose proof (ops_bytes_nonneg (concat ls.*2)).
  destruct (session_Ok d o l w A n k Hr Hol) as (w1 & Hs & Hr1); [lia|lia|].
  destruct (IH w1 _ _ _ Hr1 Hok) as (w' & Hss & Hr'); [lia|lia|].
  exists w'. split.
  - unfold sessions. cbn [range_loop]. by rewrite (M_bind_Ok _ _ _ _ _ Hs).
  - by rewrite foldl_app, !Z.add_assoc.
Qed.
End WithRange.
End Session.
