(* ===== verification/MergeOps.v ===== *)
(** * Compaction keeps the map

    Fault-free executions of [Merge]: the live records are copied to one new
    segment, the hint file is rewritten, the old segments are removed, and the
    abstract map is unchanged. *)
From S2P Require Import Prelude LogEntry LogReader Index FileSys Segment Store Merge Repr StoreOps Recovery Opening Durable.
Import LogReader Index Segment Store Merge Repr StoreOps Recovery Opening Durable.

Module MergeOps.

(** ** The compacted log *)

(** The record [Merge] writes for a live entry, and all of them. *)
Definition live_rec (G : Contents) (kl : KeyLocation) : log_record :=
  MkRec (Index.Key kl) (default [] (value_at G (Index.Loc kl))) false.

Definition compact (G : Contents) (idx : Index) : list log_record :=
  live_rec G <$> LiveEntries idx.

Definition merged_index (newID : Z) (G : Contents) (idx : Index) : Index :=
  index_entries newID (located 0 (compact G idx)) ∅.

(** A live entry's record is on disk. *)
Definition live_ok (G : Contents) (kl : KeyLocation) : Prop :=
  exists v, rec_val G (Index.Key kl) (Index.Loc kl) v /\ Index.Tombstone (Index.Loc kl) = false.

Lemma LiveEntries_ok G idx : idx_ok G idx -> Forall (live_ok G) (LiveEntries idx).
Proof.
  intros Hi. rewrite Forall_forall. intros kl [Hk Ht]%elem_of_LiveEntries.
  destruct (Hi _ _ Hk) as [v Hv]. by exists v.
Qed.

Lemma live_rec_value G kl v :
  rec_val G (Index.Key kl) (Index.Loc kl) v -> live_rec G kl = MkRec (Index.Key kl) v false.
Proof. intros Hv. unfold live_rec. by rewrite (value_at_rec _ _ _ _ Hv). Qed.

Lemma compact_fitting G idx : idx_ok G idx -> Forall fitting (compact G idx).
Proof.
  intros Hi. unfold compact. apply Forall_fmap.
  eapply Forall_impl; [by apply LiveEntries_ok|].
  intros kl (v & Hv & _). unfold fitting, compose. rewrite (live_rec_value _ _ _ Hv). cbn.
  by destruct Hv as (? & ? & ? & _ & _ & _ & Hf).
Qed.

(** Indexing records that are on disk acts on the abstract map. *)
Lemma abs_index_entries G id ino rs idx :
  G !! id = Some (ino, frames rs) -> Forall fitting rs ->
  abs G (index_entries id (located 0 rs) idx)
  = foldl (fun A e => if LogEntry.Tombstone e then delete (LogEntry.Key e) A
                      else <[LogEntry.Key e := LogEntry.Value e]> A)
      (abs G idx) (located 0 rs).
Proof.
  intros HG Hr. pose proof (fun e => located_rec G id ino rs e HG Hr) as Hrec.
  revert idx Hrec. generalize (located 0 rs) as es.
  induction es as [|e es IH]; intros idx Hrec; [done|].
  unfold index_entries in *. cbn [foldl].
  rewrite IH by (intros; by apply Hrec, list_elem_of_further).
  rewrite (abs_insert G idx _ _ (LogEntry.Value e)) by (apply Hrec; by left). done.
Qed.

Lemma foldl_located (p : Z) (rs : list log_record) (A : gmap bytes bytes) :
  Forall (fun r => rtomb r = false) rs ->
  foldl (fun A e => if LogEntry.Tombstone e then delete (LogEntry.Key e) A
                    else <[LogEntry.Key e := LogEntry.Value e]> A) A (located p rs)
  = foldl (fun A r => <[rkey r := rvalue r]> A) A rs.
Proof.
  intros H. revert p A. induction H as [|r rs Hr _ IH]; intros p A; [done|].
  cbn [located foldl entry_at LogEntry.Tombstone LogEntry.Key LogEntry.Value].
  by rewrite Hr, IH.
Qed.

(** The compacted log represents the map of the old one. *)
Lemma abs_merged G G' idx newID n :
  idx_ok G idx -> G' !! newID = Some (n, frames (compact G idx)) ->
  abs G' (merged_index newID G idx) = abs G idx.
Proof.
  intros Hi HG'. unfold merged_index.
  rewrite (abs_index_entries _ _ _ _ _ HG' (compact_fitting G idx Hi)).
  rewrite foldl_located by (unfold compact; apply Forall_fmap, Forall_true; done).
  change (abs G' ∅) with (∅ : gmap bytes bytes). apply map_eq. intros k. apply option_eq. intros v.
  rewrite (foldl_insert_lookup rkey rvalue).
  2:{ unfold compact. rewrite <- list_fmap_compose. apply NoDup_LiveEntries. }
  split.
  - intros [(r & Hr & <- & <-)|[_ H]]; [|done].
    apply list_elem_of_fmap in Hr as (kl & -> & [Hk Ht]%elem_of_LiveEntries).
    destruct (abs_live _ _ _ _ Hi Hk Ht) as (v & Hv & Ha).
    by rewrite (live_rec_value _ _ _ Hv).
  - intros Ha. left. rewrite abs_lookup in Ha by done.
    destruct (idx !! k) as [loc|] eqn:E; [|done].
    destruct (Tombstone loc) eqn:Ht; [done|].
    destruct (Hi _ _ E) as [v' Hv]. rewrite (value_at_rec _ _ _ _ Hv) in Ha. simplify_eq.
    exists (live_rec G (MkKeyLocation k loc)).
    split_and!; [|done|by rewrite (live_rec_value _ (MkKeyLocation k loc) _ Hv)].
    apply list_elem_of_fmap. eexists. split; [done|]. by apply elem_of_LiveEntries.
Qed.

(** ** The copy loop *)

(** The world after [rs] has been appended to the new segment. *)
Definition merged (w : World) (p : ptr) (d : bytes) (newID : Z) (n : nat) (c : bytes)
    (rs : list log_record) : World :=
  MkWorld (FileSys.set_data (<[n := c ++ frames rs]> (FileSys.data (fs w))) (fs w))
    (<[p := segment_of d newID n (c ++ frames rs)]> (heap w)) (hnext w).

Lemma merged_nil w p d newID n c :
  FileSys.data (fs w) !! n = Some c -> heap w !! p = Some (segment_of d newID n c) ->
  merged w p d newID n c [] = w.
Proof.
  intros Hc Hp. unfold merged. change (frames []) with (@nil byte). rewrite app_nil_r.
  rewrite !insert_id by done. by destruct w as [[]].
Qed.

Lemma merged_cons w p d newID n c r rs :
  merged (appended w p (segment_of d newID n c) n c (enc r)) p d newID n (c ++ enc r) rs
  = merged w p d newID n c (r :: rs).
Proof.
  unfold merged, appended. cbn [fs heap hnext FileSys.set_data FileSys.data].
  rewrite frames_cons, <- app_assoc, !insert_insert_eq. done.
Qed.

(** The sources of [G] are readable in [w], the new segment being inode [n]. *)
Definition sources (w : World) (d : bytes) (G : Contents) (n : nat) : Prop :=
  forall id ino c, G !! id = Some (ino, c) ->
    FileSys.names (fs w) !! (d, SegmentName id) = Some (FileSys.DFile ino)
    /\ FileSys.data (fs w) !! ino = Some c /\ ino <> n.

(** Creating the new segment leaves the sources as they are. *)
Lemma created_disk w d G newID :
  disk (fs w) d G -> G !! newID = None -> 0 <= newID < max_id ->
  disk (fs (created w d newID)) d (<[newID := (FileSys.next (fs w), [])]> G).
Proof. apply disk_create. Qed.

Lemma created_sources w d G newID :
  disk (fs w) d G -> G !! newID = None -> 0 <= newID < max_id ->
  sources (created w d newID) d G (FileSys.next (fs w)).
Proof.
  intros Hd Hfresh Hrange id ino c HG. pose proof (disk_ino_fresh _ _ _ _ _ _ Hd HG).
  destruct (disk_file _ _ _ (created_disk w d G newID Hd Hfresh Hrange) id ino c) as [Hn Hc].
  { rewrite lookup_insert_ne; [done|]. intros <-. congruence. }
  split_and!; [done|done|lia].
Qed.

Definition readers_ok (G : Contents) (readers : gmap Z nat) : Prop :=
  forall id ino, readers !! id = Some ino -> exists c, G !! id = Some (ino, c).

Lemma getReader_Ok w d G n id ino c readers :
  no_faults w -> sources w d G n -> readers_ok G readers -> G !! id = Some (ino, c) ->
  exists readers', getReader d id readers w = (w, Ok (ino, readers')) /\ readers_ok G readers'.
Proof.
  intros Hq Hs Hr HG. unfold getReader. destruct (readers !! id) as [i|] eqn:E.
  - destruct (Hr _ _ E) as [c' HG']. simplify_eq. by exists readers.
  - exists (<[id := ino]> readers). split.
    + erewrite M_bind_Ok.
      2:{ apply os_Ok_same. unfold FileSys.Open. rewrite FileSys.syscall_none by done.
          destruct (Hs _ _ _ HG) as (-> & _). reflexivity. }
      done.
    + intros id' i. rewrite lookup_insert_Some. intros [[<- <-]|[_ H]]; eauto.
Qed.

Lemma merge_loop_Ok live w d p G newID n c readers idx :
  no_faults w -> sources w d G n -> readers_ok G readers -> Forall (live_ok G) live ->
  heap w !! p = Some (segment_of d newID n c) -> FileSys.data (fs w) !! n = Some c ->
  blen c + blen (frames (live_rec G <$> live)) <= FileSys.max_file ->
  exists readers',
    merge_loop d p newID live readers idx w
    = (merged w p d newID n c (live_rec G <$> live),
       Ok (readers', inr (index_entries newID (located (blen c) (live_rec G <$> live)) idx)))
    /\ readers_ok G readers'.
Proof.
  revert w c readers idx.
  induction live as [|kl live IH]; intros w c readers idx Hq Hs Hr Hl Hp Hc Hroom.
  { exists readers. cbn [merge_loop fmap list_fmap]. by rewrite merged_nil. }
  apply Forall_cons in Hl as [(v & Hv & _) Hl]. pose proof (live_rec_value _ _ _ Hv) as Hrec.
  destruct Hv as (ino & pre & post & HG & Hoff & _ & Hf).
  destruct (getReader_Ok w d G n _ _ _ _ Hq Hs Hr HG) as (readers1 & Hget & Hr1).
  rewrite fmap_cons, Hrec, frames_cons, blen_app in *. unfold enc at 1 in Hroom.
  cbn [rkey rvalue rtomb] in Hroom.
  pose proof (blen_nonneg (frames (live_rec G <$> live))).
  set (w1 := appended w p (segment_of d newID n c) n c (enc (MkRec (Index.Key kl) v false))).
  destruct (IH w1 (c ++ enc (MkRec (Index.Key kl) v false)) readers1
    (<[Index.Key kl := MkLocation newID (blen c) (blen (enc (MkRec (Index.Key kl) v false))) false]> idx))
    as (readers' & Hloop & Hr'); [done| |done|done| | | |].
  { intros id' ino' c' H'. destruct (Hs _ _ _ H') as (? & ? & ?).
    cbn [w1 appended fs FileSys.set_data FileSys.names FileSys.data].
    split_and!; [done| |done]. by rewrite lookup_insert_ne. }
  { cbn [w1 appended heap]. rewrite lookup_insert_eq. unfold segment_of. cbn.
    by rewrite blen_app. }
  { cbn [w1 appended fs FileSys.set_data FileSys.data]. by rewrite lookup_insert_eq. }
  { rewrite blen_app. unfold enc at 1. cbn [rkey rvalue rtomb]. lia. }
  exists readers'. split; [|done]. rewrite <- merged_cons. fold w1.
  cbn [merge_loop]. rewrite (M_bind_Ok _ _ _ _ _ (attempt_Ok _ _ _ _ Hget)).
  destruct (Hs _ _ _ HG) as (_ & Hdata & _).
  rewrite (M_bind_Ok _ _ _ _ _ (attempt_Ok _ _ _ _ (readRecordAt_Ok _ _ _ _ _ _ _ _ _ Hq
    (FileSys.content_Some _ _ _ Hdata) Hoff Hf))).
  cbn [LogEntry.Key LogEntry.Value].
  rewrite (M_bind_Ok _ _ _ _ _ (attempt_Ok _ _ _ _ (Append_Ok w p _ n c (Index.Key kl) v false
    Hq Hp eq_refl Hc ltac:(lia)))).
  cbv beta iota. rewrite blen_app in Hloop. exact Hloop.
Qed.
End MergeOps.
