(* ===== verification/Promote.v ===== *)
(** * Promoting the merged segment

    The second half of a compaction: the hint file is rewritten, the old
    segments are closed and removed, and the new segment becomes active. *)
From S2P Require Import Prelude LogEntry LogReader Index FileSys Segment Store Merge Repr StoreOps Recovery Opening Durable MergeOps.
Import LogReader Index Segment Store Merge Repr StoreOps Recovery Opening Durable MergeOps.

Module Promote.

(** ** The directory under hint rewriting and file removal *)

Lemma seg_name_ne_hint (d : bytes) id : 0 <= id < max_id -> (d, hintFile) <> (d, SegmentName id).
Proof. intros Hid He. by apply (hint_name_ne d id). Qed.

Lemma disk_set_hint s d G ino out :
  disk s d G -> FileSys.names s !! (d, hintFile) = Some (FileSys.DFile ino) ->
  disk (FileSys.set_data (<[ino := out]> (FileSys.data s)) s) d G.
Proof.
  intros Hd Hn. destruct (disk_hint _ _ _ Hd _ Hn) as (i & [= <-] & Hi).
  destruct Hd as [H1 H2 H3 H4 H5 H6 H7 H8].
  split; cbn [FileSys.set_data FileSys.dirs FileSys.names FileSys.data FileSys.next]; try done.
  intros id ino' c H. destruct (H2 _ _ _ H) as [Hna Hda]. split; [done|].
  rewrite lookup_insert_ne; [done|]. intros <-. by apply Hi in H.
Qed.

Lemma disk_create_hint s d G :
  disk s d G ->
  disk (FileSys.MkFS (FileSys.dirs s)
          (<[(d, hintFile) := FileSys.DFile (FileSys.next s)]> (FileSys.names s))
          (<[FileSys.next s := []]> (FileSys.data s))
          (S (FileSys.next s)) (FileSys.faults s)) d G.
Proof.
  intros Hd. pose proof (fun id ino c => disk_ino_fresh s d G id ino c Hd) as Hlt.
  destruct Hd as [H1 H2 H3 H4 H5 H6 H7 H8].
  split; cbn [FileSys.dirs FileSys.names FileSys.data FileSys.next]; try done.
  - intros id ino c H. destruct (H2 _ _ _ H) as [Hna Hda]. pose proof (Hlt _ _ _ H).
    rewrite !lookup_insert_ne; [done|lia|]. apply seg_name_ne_hint, H3. eauto.
  - intros name e id Hn Hp. apply (H5 name e); [|done]. rewrite lookup_insert_ne in Hn; [done|].
    intros [= <-]. done.
  - intros key ino. rewrite lookup_insert_Some. intros [[_ [= <-]]|[_ H]]; [lia|].
    apply H7 in H. lia.
  - intros e. rewrite lookup_insert_eq. intros [= <-]. eexists. split; [done|].
    intros id c H. apply Hlt in H. lia.
Qed.

Lemma disk_remove s d G id :
  disk s d G -> is_Some (G !! id) ->
  disk (FileSys.set_names (delete (d, SegmentName id) (FileSys.names s)) s) d (delete id G).
Proof.
  intros [H1 H2 H3 H4 H5 H6 H7 H8] Hid.
  split; cbn [FileSys.set_names FileSys.dirs FileSys.names FileSys.data FileSys.next].
  - done.
  - intros i ino c [Hne H]%lookup_delete_Some. destruct (H2 _ _ _ H) as [Hna Hda].
    split; [|done]. rewrite lookup_delete_ne; [done|]. intros [= He].
    apply Hne, SegmentName_inj; [by apply H3|apply H3; eauto|done].
  - intros i [x [_ H]%lookup_delete_Some]. apply H3. eauto.
  - intros i ino c [_ H]%lookup_delete_Some. by eapply H4.
  - intros name e i [Hne Hn]%lookup_delete_Some Hp. rewrite lookup_delete_ne; [by eapply H5|].
    intros ->. apply ParseSegmentID_spec in Hp as [_ ->]. done.
  - intros i j ino c1 c2 [_ Ha]%lookup_delete_Some [_ Hb]%lookup_delete_Some. by eapply H6.
  - intros key ino [_ H]%lookup_delete_Some. by eapply H7.
  - intros e [_ H]%lookup_delete_Some. destruct (H8 _ H) as (ino & -> & Hi).
    exists ino. split; [done|]. intros i c [_ Hc]%lookup_delete_Some. by apply Hi in Hc.
Qed.

Lemma disk_remove_hint s d G :
  disk s d G -> disk (FileSys.set_names (delete (d, hintFile) (FileSys.names s)) s) d G.
Proof.
  intros [H1 H2 H3 H4 H5 H6 H7 H8].
  split; cbn [FileSys.set_names FileSys.dirs FileSys.names FileSys.data FileSys.next]; try done.
  - intros i ino c H. destruct (H2 _ _ _ H) as [Hna Hda]. split; [|done].
    rewrite lookup_delete_ne; [done|]. apply seg_name_ne_hint, H3. eauto.
  - intros name e i [_ Hn]%lookup_delete_Some Hp. by eapply H5.
  - intros key ino [_ H]%lookup_delete_Some. by eapply H7.
  - intros e [Hne _]%lookup_delete_Some. done.
Qed.

(** ** Writing the hint file *)

Definition file_world (w : World) (ino : nat) (out : bytes) : World :=
  MkWorld (FileSys.set_data (<[ino := out]> (FileSys.data (fs w))) (fs w)) (heap w) (hnext w).

(** A file is a lawful writer up to the largest file size. *)
Lemma file_WriterSpec w ino :
  no_faults w ->
  @WriterSpec World (file_writer ino) (file_world w ino) (fun a => blen a <= FileSys.max_file).
Proof.
  intros Hq. split.
  - intros a b H. rewrite blen_app in H. pose proof (blen_nonneg b). lia.
  - intros a b H. rewrite blen_app in H. unfold w_Write, file_writer.
    erewrite (os_Ok _ (file_world w ino a)).
    2:{ rewrite FileSys.Write_none by done.
        erewrite FileSys.content_Some by apply lookup_insert_eq.
        rewrite (proj2 (Z.ltb_ge _ _) H). reflexivity. }
    unfold file_world. cbn [fs heap hnext FileSys.set_data FileSys.data].
    by rewrite insert_insert_eq.
Qed.

Lemma WriteHint_file w ino idx :
  no_faults w -> blen (hint_bytes idx) <= FileSys.max_file ->
  @WriteHint World (file_writer ino) idx (file_world w ino [])
  = (file_world w ino (hint_bytes idx), Ok tt).
Proof.
  intros Hq Hb. pose proof (file_WriterSpec w ino Hq) as HW.
  apply (@WriteHint_emit World (file_writer ino) (file_world w ino) _ HW idx []). exact Hb.
Qed.

(** A file system holding hint [idx] and the segments [G]. *)
Definition hint_written (s : FileSys.FS) (d : bytes) (idx : Index) : Prop :=
  exists ino, FileSys.names s !! (d, hintFile) = Some (FileSys.DFile ino)
    /\ FileSys.data s !! ino = Some (hint_bytes idx).

Lemma writeHintFile_Ok w d G idx :
  no_faults w -> disk (fs w) d G -> blen (hint_bytes idx) <= FileSys.max_file ->
  exists s, writeHintFile d idx w = (MkWorld s (heap w) (hnext w), Ok tt)
    /\ disk s d G /\ hint_written s d idx /\ FileSys.faults s = [].
Proof.
  intros Hq Hd Hb.
  assert (Hcr : exists w1 ino, os (FileSys.Create d hintFile) w = (file_world w1 ino [], Ok ino)
    /\ no_faults w1 /\ disk (fs (file_world w1 ino (hint_bytes idx))) d G
    /\ FileSys.names (fs w1) !! (d, hintFile) = Some (FileSys.DFile ino)
    /\ heap w1 = heap w /\ hnext w1 = hnext w).
  { destruct (FileSys.names (fs w) !! (d, hintFile)) as [e|] eqn:E.
    - destruct (disk_hint _ _ _ Hd _ E) as (ino & -> & _). exists w, ino. split_and!; try done.
      + apply os_Ok. unfold FileSys.Create. by rewrite FileSys.syscall_none, E.
      + by apply disk_set_hint.
    - set (s1 := FileSys.MkFS (FileSys.dirs (fs w))
        (<[(d, hintFile) := FileSys.DFile (FileSys.next (fs w))]> (FileSys.names (fs w)))
        (<[FileSys.next (fs w) := []]> (FileSys.data (fs w)))
        (S (FileSys.next (fs w))) (FileSys.faults (fs w))).
      assert (Hn : FileSys.names s1 !! (d, hintFile) = Some (FileSys.DFile (FileSys.next (fs w))))
        by apply lookup_insert_eq.
      exists (MkWorld s1 (heap w) (hnext w)), (FileSys.next (fs w)). split_and!; try done.
      + unfold file_world. cbn [fs heap hnext FileSys.set_data FileSys.data s1].
        rewrite insert_insert_eq. apply os_Ok. unfold FileSys.Create.
        rewrite FileSys.syscall_none, E by done.
        by rewrite bool_decide_eq_true_2 by apply Hd.
      + apply disk_set_hint; [|done]. by apply disk_create_hint. }
  destruct Hcr as (w1 & ino & Hcr & Hq1 & Hd1 & Hn1 & Hh & Hx).
  set (w2 := file_world w1 ino (hint_bytes idx)) in *.
  assert (Hsync : os (FileSys.Sync ino) w2 = (w2, Ok tt)).
  { apply os_Ok_same. unfold FileSys.Sync. by rewrite FileSys.syscall_none. }
  assert (Hclose : os (FileSys.Close ino) w2 = (w2, Ok tt)).
  { apply os_Ok_same. unfold FileSys.Close. by rewrite FileSys.syscall_none. }
  exists (fs w2). split_and!; [|done| |done].
  - unfold writeHintFile. rewrite (M_bind_Ok _ _ _ _ _ (wrapping_Ok _ _ _ _ _ Hcr)).
    rewrite (M_bind_Ok _ _ _ _ _ (or_else_Ok _ _ _ _ _ (WriteHint_file w1 ino idx Hq1 Hb))).
    fold w2. rewrite (M_bind_Ok _ _ _ _ _ (or_else_Ok _ _ _ _ _ Hsync)), Hclose.
    by rewrite <- Hh, <- Hx.
  - exists ino. split; [done|]. apply lookup_insert_eq.
Qed.

(** ** Dropping segments *)

Definition delete_all {A} (l : list Z) (m : gmap Z A) : gmap Z A :=
  foldl (fun m id => delete id m) m l.

Lemma delete_all_lookup {A} (l : list Z) (m : gmap Z A) i :
  delete_all l m !! i = if bool_decide (i ∈ l) then None else m !! i.
Proof.
  revert m. induction l as [|id l IH]; intros m; [done|].
  unfold delete_all in *. cbn [foldl]. rewrite IH. case_bool_decide as H1; case_bool_decide as H2; try done.
  - exfalso. apply H2. by right.
  - apply elem_of_cons in H2 as [->|]; [|done]. by rewrite lookup_delete_eq.
  - apply not_elem_of_cons in H2 as [? _]. by rewrite lookup_delete_ne.
Qed.

Lemma drop_segment_Ok x id p sg :
  quiet x -> segments (st x) !! id = Some p -> heap (world x) !! p = Some sg ->
  exists sg', drop_segment id x
    = (MkState (MkWorld (fs (world x)) (<[p := sg']> (heap (world x))) (hnext (world x)))
         (set_segments (delete id (segments (st x))) (st x)), Ok tt).
Proof.
  intros Hq Hp Hsg. destruct (Close_any _ _ _ Hq Hsg) as [sg' Hc]. exists sg'.
  unfold drop_segment. rewrite self_bind, Hp.
  by rewrite (M_bind_Ok _ _ _ _ _ (ignore_Ok _ _ _ _ (on_world_Ok _ _ _ _ Hc))).
Qed.

Lemma remove_file_Ok x name fmt ino :
  quiet x -> FileSys.names (fs (world x)) !! (dir (st x), name) = Some (FileSys.DFile ino) ->
  remove_file (dir (st x)) name fmt x
  = (MkState (MkWorld
       (FileSys.set_names (delete (dir (st x), name) (FileSys.names (fs (world x)))) (fs (world x)))
       (heap (world x)) (hnext (world x))) (st x), Ok tt).
Proof.
  intros Hq Hn. unfold remove_file. erewrite M_bind_Ok.
  2:{ apply attempt_Ok, on_world_Ok, os_Ok. unfold FileSys.Remove.
      rewrite FileSys.syscall_none, Hn by done. reflexivity. }
  done.
Qed.

Lemma remove_file_missing x name fmt :
  quiet x -> FileSys.names (fs (world x)) !! (dir (st x), name) = None ->
  remove_file (dir (st x)) name fmt x = (x, Ok tt).
Proof.
  intros Hq Hn. unfold remove_file. erewrite M_bind_Ok.
  2:{ eapply attempt_Err. unfold on_world, zoom. rewrite (os_Err_same _ _ FileSys.ErrNotExist).
      2:{ unfold FileSys.Remove. by rewrite FileSys.syscall_none, Hn. }
      reflexivity. }
  by destruct x.
Qed.

(** What the loops that drop and remove every segment leave. *)
Record emptied (x x' : State) (l : list Z) (G : Contents) : Prop := {
  em_st : st x' = set_segments (delete_all l (segments (st x))) (st x);
  em_quiet : quiet x';
  em_disk : disk (fs (world x')) (dir (st x)) (delete_all l G);
  em_names : FileSys.names (fs (world x')) !! (dir (st x), hintFile)
             = FileSys.names (fs (world x)) !! (dir (st x), hintFile);
  em_data : FileSys.data (fs (world x')) = FileSys.data (fs (world x));
  em_next : hnext (world x') = hnext (world x);
  em_heap : forall q, (forall id, segments (st x) !! id <> Some q) ->
              heap (world x') !! q = heap (world x) !! q;
}.

Lemma remove_loop_Ok fmt body l x G :
  quiet x -> disk (fs (world x)) (dir (st x)) G -> NoDup l ->
  (forall id, id ∈ l -> is_Some (G !! id)
     /\ exists p, segments (st x) !! id = Some p /\ is_Some (heap (world x) !! p)) ->
  (forall id y, id ∈ l -> dir (st y) = dir (st x) ->
     body id y = (drop_segment id ≫= fun _ =>
                  remove_file (dir (st y)) (SegmentName id) fmt) y) ->
  exists x', range_loop l body x = (x', Ok tt) /\ emptied x x' l G.
Proof.
  revert x G. induction l as [|id l IH]; intros x G Hq Hd Hnd Hl Hbody.
  { exists x. split; [done|]. split; try done. by destruct (st x). }
  apply NoDup_cons in Hnd as [Hid Hnd].
  destruct (Hl id) as [[[ino c] HG] (p & Hp & [sg Hsg])]; [by left|].
  destruct (drop_segment_Ok x id p sg Hq Hp Hsg) as [sg' Hdrop].
  set (x1 := MkState _ _) in Hdrop. destruct (disk_file _ _ _ Hd _ _ _ HG) as [Hn Hc].
  pose proof (remove_file_Ok x1 (SegmentName id) fmt ino Hq Hn) as Hrem.
  set (x2 := MkState _ _) in Hrem.
  destruct (IH x2 (delete id G)) as (x' & Hloop & [E1 E2 E3 E4 E5 E6 E7]).
  - done.
  - apply disk_remove; [done|]. eauto.
  - done.
  - intros i Hi. destruct (Hl i) as [HGi (q & Hpq & Hh)]; [by right|].
    assert (id <> i) by (by intros ->). split; [by rewrite lookup_delete_ne|].
    exists q. cbn [x2 x1 st world heap set_segments segments].
    rewrite lookup_delete_ne by done. split; [done|].
    destruct (decide (p = q)) as [<-|]; [by rewrite lookup_insert_eq; eauto|].
    by rewrite lookup_insert_ne.
  - intros i y Hi Hy. apply Hbody; [by right|done].
  - exists x'. split.
    + cbn [range_loop]. rewrite (M_bind_Ok _ _ _ x2 tt); [done|].
      rewrite Hbody by (done || by left). rewrite (M_bind_Ok _ _ _ _ _ Hdrop). exact Hrem.
    + cbn [x2 x1 st world fs heap hnext set_segments segments dir] in *. split; try done.
      * rewrite E4. cbn [FileSys.set_names FileSys.names].
        rewrite lookup_delete_ne; [done|]. apply hint_name_ne, (disk_id _ _ _ Hd). eauto.
      * intros q Hne. rewrite E7.
        { rewrite lookup_insert_ne; [done|]. intros ->. by apply (Hne id). }
        intros i [_ H]%lookup_delete_Some. by apply (Hne i).
Qed.
End Promote.
