(* ===== verification/Compaction.v ===== *)
(** * [Merge] as a whole, and restarting after it *)
From S2P Require Import Prelude LogEntry LogReader Index FileSys Segment Store Merge Repr StoreOps Recovery Opening Durable Session MergeOps Promote.
Import LogReader Index Segment Store Merge Repr StoreOps Recovery Opening Durable Session MergeOps Promote.

Module Compaction.
Section WithRange.
Context `{!GoRange Z}.

Lemma close_readers_Ok readers w : no_faults w -> close_readers readers w = (w, Ok tt).
Proof.
  intros Hq. unfold close_readers. induction (go_range readers).*2 as [|ino l IH]; [done|].
  cbn [range_loop]. rewrite (M_bind_Ok _ _ w w tt); [done|].
  eapply ignore_Ok, os_Ok_same. unfold FileSys.Close. by rewrite FileSys.syscall_none.
Qed.

(** The ids a range over the segment map visits. *)
Lemma elem_of_range_ids (m : gmap Z ptr) id : id ∈ (go_range m).*1 <-> is_Some (m !! id).
Proof.
  rewrite list_elem_of_fmap. split.
  - intros ([i p] & -> & H). rewrite go_range_perm in H. apply elem_of_map_to_list in H. eauto.
  - intros [p H]. exists (id, p). split; [done|].
    by rewrite go_range_perm, elem_of_map_to_list.
Qed.

Lemma NoDup_range_ids (m : gmap Z ptr) : NoDup (go_range m).*1.
Proof. rewrite go_range_perm. apply NoDup_fst_map_to_list. Qed.

Lemma delete_range_ids {A} (m : gmap Z ptr) (G : gmap Z A) :
  (forall i, is_Some (G !! i) -> is_Some (m !! i)) -> delete_all (go_range m).*1 G = ∅.
Proof.
  intros HG. apply map_empty. intros i. rewrite delete_all_lookup.
  case_bool_decide as H; [done|]. rewrite elem_of_range_ids in H.
  destruct (G !! i) as [a|] eqn:E; [|done]. exfalso. apply H, HG. eauto.
Qed.

(** Every segment in the map is allocated and has contents. *)
Lemma opens_segment w s G id p :
  opens w s G -> segments s !! id = Some p ->
  exists ino c, G !! id = Some (ino, c) /\ heap w !! p = Some (segment_of (dir s) id ino c)
                /\ (p < hnext w)%nat.
Proof.
  intros Ho Hp. specialize (Ho id). destruct (G !! id) as [[ino c]|]; [|congruence].
  destruct Ho as (p' & Hp' & Hh & Hlt). simplify_eq. eauto.
Qed.

Lemma opens_Some w s G id : opens w s G -> is_Some (G !! id) <-> is_Some (segments s !! id).
Proof.
  intros Ho. specialize (Ho id). destruct (G !! id) as [[ino c]|].
  - destruct Ho as (p & -> & _). split; eauto.
  - rewrite Ho. done.
Qed.

(** The invariant of a store with one segment. *)
Lemma Inv_single x id ino c p idx :
  closed (st x) = false -> disk (fs (world x)) (dir (st x)) {[id := (ino, c)]} ->
  segments (st x) = {[id := p]} -> heap (world x) !! p = Some (segment_of (dir (st x)) id ino c) ->
  (p < hnext (world x))%nat -> activeID (st x) = id -> active (st x) = Some p ->
  index (st x) = idx -> idx_ok {[id := (ino, c)]} idx ->
  Inv x {[id := (ino, c)]}.
Proof.
  intros Hc Hd Hs Hh Hlt Hid Ha Hi Hok. split; [done|done| | |by rewrite Hi].
  - intros i. rewrite Hs. destruct (decide (id = i)) as [<-|Hne].
    + rewrite !lookup_singleton_eq. eauto.
    + by rewrite !lookup_singleton_ne.
  - unfold active_ok. rewrite Hid, Ha, Hs, !lookup_singleton_eq. split_and!; [done|eauto|].
    intros i [y [<- _]%lookup_singleton_Some]. done.
Qed.

(** ** Without live keys *)

(** Removing the hint file, present or not. *)
Lemma remove_hint_Ok x G :
  quiet x -> disk (fs (world x)) (dir (st x)) G ->
  exists x', remove_file (dir (st x)) hintFile "store: remove hint: %w" x = (x', Ok tt)
    /\ st x' = st x /\ quiet x' /\ disk (fs (world x')) (dir (st x)) G
    /\ FileSys.names (fs (world x')) !! (dir (st x), hintFile) = None.
Proof.
  intros Hq Hd. destruct (FileSys.names (fs (world x)) !! (dir (st x), hintFile)) as [e|] eqn:E.
  - destruct (disk_hint _ _ _ Hd _ E) as (ino & -> & _). eexists. split.
    + by apply (remove_file_Ok x _ _ ino Hq).
    + split_and!; [done|done|by apply disk_remove_hint|]. apply lookup_delete_eq.
  - exists x. split_and!; try done. by apply remove_file_missing.
Qed.

Lemma resetToEmpty_Ok x G :
  Inv x G -> quiet x ->
  exists x' n, resetToEmpty x = (x', Ok tt)
    /\ Durable x' {[1 := (n, [])]} [(1, [])] /\ quiet x'
    /\ dir (st x') = dir (st x) /\ index (st x') = ∅.
Proof.
  intros HI Hq. set (ids := (go_range (segments (st x))).*1).
  pose proof (inv_opens _ _ HI) as Ho. pose proof (inv_disk _ _ HI) as Hd.
  destruct (remove_loop_Ok "store: remove segment %d: %w" (fun id =>
      drop_segment id ≫= fun _ =>
      remove_file (dir (st x)) (SegmentName id) "store: remove segment %d: %w") ids x G Hq Hd)
    as (x1 & Hloop & [E1 E2 E3 E4 E5 E6 E7]); [apply NoDup_range_ids| | |].
  { intros id [p Hp]%elem_of_range_ids. destruct (opens_segment _ _ _ _ _ Ho Hp) as (ino & c & HG & Hh & _).
    split; [eauto|]. exists p. split; [done|]. eauto. }
  { intros id y _ Hy. by rewrite Hy. }
  unfold ids in E1, E3. rewrite delete_range_ids in E1 by done.
  rewrite delete_range_ids in E3 by (intros i; apply (opens_Some _ _ _ _ Ho)).
  assert (Hdir : dir (st x1) = dir (st x)) by (by rewrite E1).
  rewrite <- Hdir in E3. destruct (remove_hint_Ok x1 _ E2 E3) as (x2 & Hrm & Hst & Hq2 & Hd2 & Hn2).
  rewrite Hdir in Hrm, Hd2, Hn2.
  pose proof (NewSegment_fresh (world x2) (dir (st x)) 1 Hq2 (disk_dir _ _ _ Hd2)
    (disk_no_segment _ _ _ 1 Hd2 eq_refl ltac:(unfold max_id; lia))) as Hnew.
  set (w3 := created (world x2) (dir (st x)) 1) in *.
  set (s3 := set_index Index.New (set_active 1 (Some (hnext (world x2)))
               (set_segments {[1 := hnext (world x2)]} (st x)))).
  exists (MkState w3 s3), (FileSys.next (fs (world x2))). split_and!; try done.
  - unfold resetToEmpty. rewrite self_bind. fold ids.
    rewrite (M_bind_Ok _ _ _ _ _ Hloop), (M_bind_Ok _ _ _ _ _ Hrm).
    rewrite (M_bind_Ok _ _ _ _ _ (on_world_Ok _ _ _ _ Hnew)).
    unfold update, modify. rewrite Hst, E1. done.
  - split; [|apply log_of_new|done|].
    + apply (Inv_single _ _ _ _ (hnext (world x2)) ∅); try done.
      * apply HI.
      * apply (disk_create _ _ ∅ 1 Hd2); [done|unfold max_id; lia].
      * cbn [w3 created world heap]. apply lookup_insert_eq.
      * cbn. lia.
    + unfold hint_free. cbn [w3 s3 created world st fs FileSys.names dir set_index set_active set_segments].
      rewrite lookup_insert_ne; [done|]. apply (hint_name_ne _ 1). unfold max_id. lia.
Qed.
(** ** With live keys *)

(** Resources: an unused id for the new segment, and room for its bytes and
    for the hint file. *)
Definition merge_room (x : State) (G : Contents) : Prop :=
  activeID (st x) + 1 < max_id
  /\ blen (frames (compact G (index (st x)))) <= FileSys.max_file
  /\ blen (hint_bytes (merged_index (activeID (st x) + 1) G (index (st x)))) <= FileSys.max_file.

(** The result: one segment with the live records, indexed, and a hint file
    that says so. *)
Record compacted (x x' : State) (G : Contents) (n : nat) : Prop := {
  cp_inv : Inv x' {[activeID (st x) + 1 := (n, frames (compact G (index (st x))))]};
  cp_quiet : quiet x';
  cp_dir : dir (st x') = dir (st x);
  cp_index : index (st x') = merged_index (activeID (st x) + 1) G (index (st x));
  cp_hint : hint_written (fs (world x')) (dir (st x)) (index (st x'));
}.

(** The loop of [promote] leaves the new segment only. *)
Lemma remove_old_Ok x G newID y :
  let ids := (go_range (segments (st x))).*1 in
  quiet x -> disk (fs (world x)) (dir (st x)) (<[newID := y]> G) -> opens (world x) (st x) G ->
  G !! newID = None ->
  exists x', range_loop ids (fun id =>
      drop_segment id ≫= fun _ =>
      if id =? newID then mret tt
      else remove_file (dir (st x)) (SegmentName id) "store: remove old segment %d: %w") x = (x', Ok tt)
    /\ emptied x x' ids (<[newID := y]> G) /\ delete_all ids (<[newID := y]> G) = {[newID := y]}.
Proof.
  intros ids Hq Hd Ho Hnew.
  assert (Hids : forall id, id ∈ ids -> id <> newID /\ is_Some (G !! id)
            /\ exists q, segments (st x) !! id = Some q /\ is_Some (heap (world x) !! q)).
  { intros id [q Hs]%elem_of_range_ids.
    destruct (opens_segment _ _ _ _ _ Ho Hs) as (ino & c & HG & Hh & _).
    split_and!; [by intros ->; congruence|eauto|]. exists q. split; [done|]. eauto. }
  destruct (remove_loop_Ok "store: remove old segment %d: %w"
      (fun id => drop_segment id ≫= fun _ => if id =? newID then mret tt
        else remove_file (dir (st x)) (SegmentName id) "store: remove old segment %d: %w")
      ids x (<[newID := y]> G) Hq Hd) as (x' & Hloop & HE);
    [apply NoDup_range_ids| | |].
  - intros id Hin. destruct (Hids id Hin) as (Hne & HG & Hq'). split; [|done].
    by rewrite lookup_insert_ne.
  - intros id y' Hin Hdir. destruct (Hids id Hin) as (Hne & _). rewrite <- Hdir.
    by destruct (Z.eqb_spec id newID).
  - exists x'. split_and!; [exact Hloop|exact HE|]. apply map_eq. intros i. rewrite delete_all_lookup.
    case_bool_decide as Hi; [destruct (Hids i Hi) as (Hne & _); by rewrite lookup_singleton_ne|].
    destruct (decide (newID = i)) as [<-|Hne]; [by rewrite lookup_insert_eq, lookup_singleton_eq|].
    rewrite lookup_insert_ne, lookup_singleton_ne by done.
    destruct (G !! i) as [z|] eqn:E; [|done]. exfalso. apply Hi, elem_of_range_ids.
    apply (opens_Some _ _ _ _ Ho). eauto.
Qed.

Lemma promote_Ok x G p newID n rs idx :
  quiet x -> closed (st x) = false ->
  disk (fs (world x)) (dir (st x)) (<[newID := (n, frames rs)]> G) -> opens (world x) (st x) G ->
  G !! newID = None -> heap (world x) !! p = Some (segment_of (dir (st x)) newID n (frames rs)) ->
  (p < hnext (world x))%nat -> blen (hint_bytes idx) <= FileSys.max_file ->
  idx_ok {[newID := (n, frames rs)]} idx ->
  exists x', promote p newID idx x = (x', Ok tt)
    /\ Inv x' {[newID := (n, frames rs)]} /\ quiet x' /\ dir (st x') = dir (st x)
    /\ index (st x') = idx /\ hint_written (fs (world x')) (dir (st x)) idx.
Proof.
  intros Hq Hcl Hd Ho Hnew Hp Hlt Hroom Hok. set (ids := (go_range (segments (st x))).*1).
  set (G1 := <[newID := _]> G) in *.
  destruct (writeHintFile_Ok _ _ _ idx Hq Hd Hroom) as (s1 & Hhint & Hd1 & Hw & Hf).
  set (x1 := MkState (MkWorld s1 (heap (world x)) (hnext (world x))) (st x)).
  destruct (remove_old_Ok x1 G newID (n, frames rs) Hf Hd1 Ho Hnew)
    as (x2 & Hloop & [E1 E2 E3 E4 E5 E6 E7] & HG').
  rewrite HG' in E3. cbn [x1 st] in E1. rewrite delete_range_ids in E1 by done.
  eexists. split; [|split; [|split; [|split; [|split]]]].
  - unfold promote.
    erewrite M_bind_Ok.
    2:{ apply or_else_Ok, on_world_Ok_same. by apply (Sync_Ok _ _ _ n Hq Hp). }
    rewrite self_bind. erewrite M_bind_Ok.
    2:{ apply or_else_Ok, on_world_Ok. exact Hhint. }
    fold x1 ids. rewrite (M_bind_Ok _ _ _ _ _ Hloop). unfold update, modify.
    rewrite E1. reflexivity.
  - apply (Inv_single _ _ _ _ p idx); try done.
    + cbn [world st]. rewrite E7; [done|]. intros id Hs. cbn [x1 st] in Hs.
      destruct (opens_segment _ _ _ _ _ Ho Hs) as (ino & c & HG & Hh & _).
      rewrite Hp in Hh. unfold segment_of in Hh. simplify_eq.
    + cbn [world]. rewrite E6. done.
  - done.
  - done.
  - done.
  - cbn [world]. destruct Hw as (ino & Hn & Hda). exists ino.
    cbn [x1 st world fs] in E4, E5. by rewrite E4, E5.
Qed.

Lemma compact_nil G idx : compact G idx = [] <-> LiveEntries idx = [].
Proof. unfold compact. split; [apply fmap_nil_inv|by intros ->]. Qed.

(** A store with one segment lists that segment. *)
Lemma FileIDs_one x id y : Inv x {[id := y]} -> FileIDs (st x) = [id].
Proof.
  intros HI. apply (merge_sort_unique Z.le); [repeat constructor|].
  apply NoDup_Permutation; [repeat constructor; set_solver|apply NoDup_range_ids|].
  intros i. rewrite elem_of_range_ids, <- (opens_Some _ _ _ _ (inv_opens _ _ HI)).
  rewrite list_elem_of_singleton. split.
  - intros ->. rewrite lookup_singleton_eq. eauto.
  - intros [z [<- _]%lookup_singleton_Some]. done.
Qed.

(** Writing the new segment leaves the handles of the old ones open. *)
Lemma opens_merged w s G d newID n rs :
  opens w s G -> opens (merged (created w d newID) (hnext w) d newID n [] rs) s G.
Proof.
  intros Ho id. specialize (Ho id). destruct (G !! id) as [[ino c]|]; [|done].
  destruct Ho as (q & Hs & Hh & Hlt). exists q. split; [done|]. cbn [merged created heap hnext].
  rewrite !lookup_insert_ne by lia. split; [done|]. lia.
Qed.

Lemma Merge_live_Ok x G :
  Inv x G -> quiet x -> LiveEntries (index (st x)) <> [] -> merge_room x G ->
  exists x' n, Merge x = (x', Ok tt) /\ compacted x x' G n.
Proof.
  intros HI Hq Hlive (Hid & Hsz & Hhint). set (rs := compact G (index (st x))) in *.
  set (d := dir (st x)). set (newID := activeID (st x) + 1) in *.
  destruct (next_id_ok x G HI Hid) as [Hi64 Hrange].
  pose proof (active_next_fresh x G HI) as Hfresh. fold newID in Hi64, Hrange, Hfresh.
  set (n := FileSys.next (fs (world x))). set (p := hnext (world x)).
  set (w1 := created (world x) d newID).
  pose proof (created_disk (world x) d G newID (inv_disk _ _ HI) Hfresh Hrange) as Hdisk1.
  pose proof (created_sources (world x) d G newID (inv_disk _ _ HI) Hfresh Hrange) as Hsrc.
  destruct (merge_loop_Ok (LiveEntries (index (st x))) w1 d p G newID n [] ∅ Index.New)
    as (readers & Hloop & _); try done.
  { by apply LiveEntries_ok, HI. }
  { cbn [w1 created heap]. unfold p. by rewrite lookup_insert_eq. }
  { cbn [w1 created fs FileSys.data]. apply lookup_insert_eq. }
  fold (compact G (index (st x))) in Hloop. fold rs in Hloop. change (blen []) with 0 in Hloop.
  set (w2 := merged w1 p d newID n [] rs) in *.
  set (x2 := MkState w2 (st x)).
  assert (Hdisk2 : disk (fs w2) d (<[newID := (n, frames rs)]> G)).
  { rewrite <- (insert_insert_eq G newID (n, frames rs) (n, [])).
    apply (disk_append _ _ _ newID n [] (frames rs) Hdisk1); [apply lookup_insert_eq|done]. }
  pose proof (opens_merged _ _ _ d newID n rs (inv_opens _ _ HI) : opens w2 (st x) G) as Hopens.
  destruct (promote_Ok x2 G p newID n rs (merged_index newID G (index (st x))))
    as (x' & Hpro & HI' & Hq' & Hdir & Hidx & Hw); try done.
  { apply HI. }
  { cbn [x2 w2 merged world heap]. apply lookup_insert_eq. }
  { cbn [x2 w2 merged w1 created world hnext]. unfold p. lia. }
  { unfold merged_index. apply (idx_ok_entries _ _ n); [apply lookup_singleton_eq| |].
    - by apply compact_fitting, HI.
    - intros k loc H. rewrite (lookup_empty (M:=gmap bytes)) in H. done. }
  exists x', n. split; [|split; try done; by rewrite Hidx].
  unfold Merge. rewrite self_bind, (inv_closed _ _ HI).
  rewrite (M_bind_Ok _ _ _ _ _ (active_sync_Ok x G HI Hq)). cbv zeta.
  rewrite bool_decide_eq_false_2 by (by destruct (LiveEntries (index (st x)))).
  rewrite Hi64. fold d.
  rewrite (M_bind_Ok _ _ _ _ _ (on_world_Ok _ _ _ _ (new_segment_Ok x G HI Hq Hid))).
  fold newID d w1 p. cbv beta.
  rewrite (M_bind_Ok _ _ (MkState w1 (st x)) _ _ (on_world_Ok _ (MkState w1 (st x)) _ _ Hloop)).
  cbv beta iota. rewrite (M_bind_Ok _ _ _ _ _ (attempt_Ok _ _ _ _ Hpro)).
  rewrite (M_bind_Ok _ _ _ _ _ (on_world_Ok_same _ _ _ (close_readers_Ok readers _ Hq'))).
  done.
Qed.

Lemma Merge_empty_Ok x G :
  Inv x G -> quiet x -> LiveEntries (index (st x)) = [] ->
  exists x' n, Merge x = (x', Ok tt)
    /\ Durable x' {[1 := (n, [])]} [(1, [])] /\ quiet x'
    /\ dir (st x') = dir (st x) /\ index (st x') = ∅.
Proof.
  intros HI Hq Hlive. destruct (resetToEmpty_Ok x G HI Hq) as (x' & n & Hr & H).
  exists x', n. split; [|done]. unfold Merge. rewrite self_bind, (inv_closed _ _ HI).
  rewrite (M_bind_Ok _ _ _ _ _ (active_sync_Ok x G HI Hq)). cbv zeta.
  by rewrite Hlive, bool_decide_eq_true_2.
Qed.
End WithRange.
End Compaction.
