(* ===== verification/Refine.v ===== *)
(** * The store refines a finite map

    An abstract key-value map with the store's API, and the simulation: every
    call on a state that represents a map, fault free and within the resource
    bounds, behaves as the call on the map. *)
From S2P Require Import Prelude LogEntry LogReader Index FileSys Segment Store Merge Repr StoreOps Recovery Opening Durable Session MergeOps Promote Compaction.
Import LogReader Index Segment Store Merge Repr StoreOps Recovery Opening Durable Session MergeOps Promote Compaction.

Module Refine.

(** ** Resources of a compaction, computed from the index *)

Definition live_bytes (idx : Index) : Z :=
  foldr (fun kl n => Index.Size (Index.Loc kl) + n) 0 (LiveEntries idx).

Definition hint_size (ks : list bytes) : Z := 8 + foldr (fun k n => 29 + blen k + n) 0 ks.

Lemma live_bytes_compact G idx :
  idx_ok G idx -> blen (frames (compact G idx)) = live_bytes idx.
Proof.
  intros Hi. pose proof (LiveEntries_ok G idx Hi) as Hl. unfold compact, live_bytes.
  induction Hl as [|kl l (v & Hv & Ht) _ IH]; [done|].
  rewrite fmap_cons, frames_cons, blen_app, IH, (live_rec_value _ _ _ Hv). cbn [foldr].
  destruct Hv as (? & ? & ? & _ & _ & Hs & _). by rewrite Hs, Ht.
Qed.

Lemma blen_hint_bytes idx : blen (hint_bytes idx) = hint_size (Keys idx).
Proof.
  unfold hint_bytes, hint_size. rewrite blen_app, blen_be_put, <- Key_pairs. f_equal.
  induction (pairs idx) as [|kl l IH]; [done|].
  rewrite !fmap_cons. cbn [concat foldr]. unfold entry_bytes at 1.
  rewrite !blen_app, IH, blen_hint_header. lia.
Qed.

(** Keys of an index built from entries. *)
Lemma index_entries_dom (id : Z) (es : list LogEntry.Entry) (m : Index) (k : bytes) :
  is_Some (index_entries id es m !! k) <-> k ∈ LogEntry.Key <$> es \/ is_Some (m !! k).
Proof.
  revert m. induction es as [|e es IH]; intros m.
  - cbn. split; [by right|]. intros [H|H]; [inversion H|done].
  - unfold index_entries in *. cbn [foldl]. rewrite IH, fmap_cons, elem_of_cons.
    rewrite lookup_insert_is_Some'. naive_solver.
Qed.

Lemma Key_located (p : Z) (rs : list log_record) : LogEntry.Key <$> located p rs = rkey <$> rs.
Proof.
  revert p. induction rs as [|r rs IH]; intros p; [done|]. cbn [located].
  by rewrite !fmap_cons, IH.
Qed.

Lemma Keys_merged newID G idx : Keys (merged_index newID G idx) = Index.Key <$> LiveEntries idx.
Proof.
  apply (merge_sort_unique bytes_le).
  - apply StronglySorted_Sorted, Sorted_LiveKeys.
  - apply NoDup_Permutation; [apply NoDup_LiveEntries|apply NoDup_fst_map_to_list|].
    intros k. unfold merged_index. rewrite map_fst_is_Some, index_entries_dom, Key_located.
    unfold compact. rewrite <- list_fmap_compose.
    change (rkey ∘ live_rec G) with Index.Key. rewrite (lookup_empty (M:=gmap bytes)).
    split; [by left|]. by intros [H|[? ?]].
Qed.

(** [merge_room] without reference to the contents. *)
Definition merge_fits (x : State) : Prop :=
  activeID (st x) + 1 < max_id /\ live_bytes (index (st x)) <= FileSys.max_file
  /\ hint_size (Index.Key <$> LiveEntries (index (st x))) <= FileSys.max_file.

Lemma merge_fits_room x G : Inv x G -> merge_fits x -> merge_room x G.
Proof.
  intros HI (H1 & H2 & H3). split_and!; [done| |].
  - by rewrite (live_bytes_compact G _ (inv_index _ _ HI)).
  - by rewrite blen_hint_bytes, Keys_merged.
Qed.

(** ** The abstract store *)

Inductive call :=
  | CPut (key value : bytes)
  | CDelete (key : bytes)
  | CGet (key : bytes)
  | CCount
  | CMerge.

Inductive answer := ADone | AValue (v : option bytes) | ANumber (n : Z).

(** What a call does to the map and what it answers. *)
Definition spec_call (c : call) (A : gmap bytes bytes) : gmap bytes bytes * res answer :=
  match c with
  | CPut k v => if bool_decide (k = []) then (A, Err ErrEmptyKey) else (<[k := v]> A, Ok ADone)
  | CDelete k => if bool_decide (k = []) then (A, Err ErrEmptyKey) else (delete k A, Ok ADone)
  | CGet k => (A, Ok (AValue (A !! k)))
  | CCount => (A, Ok (ANumber (Z.of_nat (base.size A))))
  | CMerge => (A, Ok ADone)
  end.

Section WithRange.
Context `{!GoRange Z}.

Definition exec (c : call) : M State answer :=
  match c with
  | CPut k v => Store.Put k v ≫= fun _ => mret ADone
  | CDelete k => Store.Delete k ≫= fun _ => mret ADone
  | CGet k => v ← Store.Get k; mret (AValue v)
  | CCount => s ← self; mret (ANumber (Count s))
  | CMerge => Merge ≫= fun _ => mret ADone
  end.

(** The resources a call needs. *)
Definition call_fits (x : State) (c : call) : Prop :=
  match c with
  | CPut k v => LogEntry.fits k v /\ room x (LogEntry.frameSize (blen k) (blen v)) 1
  | CDelete k => blen k < 2 ^ 32 /\ room x (LogEntry.frameSize (blen k) 0) 1
  | CMerge => merge_fits x
  | CGet _ | CCount => True
  end.

Lemma empty_key_Put x G v : Inv x G -> Store.Put [] v x = (x, Err ErrEmptyKey).
Proof. intros HI. unfold Store.Put. by rewrite self_bind, (inv_closed _ _ HI). Qed.

Lemma empty_key_Delete x G : Inv x G -> Store.Delete [] x = (x, Err ErrEmptyKey).
Proof. intros HI. unfold Store.Delete. by rewrite self_bind, (inv_closed _ _ HI). Qed.

Lemma Merge_Rep x A :
  Rep x A -> quiet x -> merge_fits x ->
  exists x', Merge x = (x', Ok tt) /\ Rep x' A /\ quiet x'.
Proof.
  intros (G & HI & ->) Hq Hf. destruct (decide (LiveEntries (index (st x)) = [])) as [Hl|Hl].
  - destruct (Merge_empty_Ok x G HI Hq Hl) as (x' & n & Hm & HD & Hq' & _ & Hidx).
    exists x'. split_and!; [done| |done]. eexists. split; [apply HD|]. rewrite Hidx.
    change (abs _ ∅) with (∅ : gmap bytes bytes).
    assert (Hp : (map_to_list (abs G (index (st x)))).*1 = []).
    { apply Permutation_nil_r. rewrite <- (dom_live x G HI), Hl. done. }
    apply fmap_nil_inv in Hp. by apply map_to_list_empty_iff in Hp.
  - destruct (Merge_live_Ok x G HI Hq Hl (merge_fits_room _ _ HI Hf)) as (x' & n & Hm & HC).
    exists x'. split_and!; [done| |apply HC]. eexists. split; [apply HC|].
    rewrite (cp_index _ _ _ _ HC). symmetry. eapply abs_merged; [apply HI|].
    apply lookup_singleton_eq.
Qed.

(** One call simulates the call on the map. *)
Lemma exec_spec x A c :
  Rep x A -> quiet x -> call_fits x c ->
  exists x', exec c x = (x', (spec_call c A).2) /\ Rep x' (spec_call c A).1 /\ quiet x'.
Proof.
  intros HR Hq Hf. pose proof HR as (G & HI & HA). destruct c as [k v|k|k| |]; cbn [exec spec_call].
  - destruct Hf as [Hfit Hroom]. case_bool_decide as Hk.
    + subst k. exists x. by rewrite (M_bind_Err _ _ _ _ _ (empty_key_Put x G v HI)).
    + destruct (Put_Ok x G k v HI Hq Hk Hfit) as (x' & G' & Hput & HI' & Hq' & Habs & _).
      { by rewrite LogEntry.blen_Encode. }
      exists x'. rewrite (M_bind_Ok _ _ _ _ _ Hput). split_and!; [done| |done].
      exists G'. by rewrite Habs, <- HA.
  - destruct Hf as [Hfit Hroom]. case_bool_decide as Hk.
    + subst k. exists x. by rewrite (M_bind_Err _ _ _ _ _ (empty_key_Delete x G HI)).
    + destruct (Delete_Ok x G k HI Hq Hk Hfit) as (x' & G' & Hdel & HI' & Hq' & Habs & _).
      { by rewrite LogEntry.blen_Encode. }
      exists x'. rewrite (M_bind_Ok _ _ _ _ _ Hdel). split_and!; [done| |done].
      exists G'. by rewrite Habs, <- HA.
  - exists x. rewrite (M_bind_Ok _ _ _ _ _ (Get_Ok x G k HI Hq)), <- HA. done.
  - exists x. rewrite self_bind, (Count_Ok x G HI), <- HA. done.
  - destruct (Merge_Rep x A HR Hq Hf) as (x' & Hm & HR' & Hq').
    exists x'. by rewrite (M_bind_Ok _ _ _ _ _ Hm).
Qed.

(** ** Traces *)

(** Running calls one after the other, collecting the answers; an error does
    not stop the client. *)
Fixpoint trace (l : list call) (x : State) : State * list (res answer) :=
  match l with
  | [] => (x, [])
  | c :: l' =>
      let '(x1, r) := exec c x in
      let '(x2, rs) := trace l' x1 in (x2, r :: rs)
  end.

Fixpoint spec_trace (l : list call) (A : gmap bytes bytes) : list (res answer) :=
  match l with
  | [] => []
  | c :: l' => (spec_call c A).2 :: spec_trace l' (spec_call c A).1
  end.

Fixpoint trace_fits (l : list call) (x : State) : Prop :=
  match l with
  | [] => True
  | c :: l' => call_fits x c /\ trace_fits l' (exec c x).1
  end.

Lemma trace_spec l x A :
  Rep x A -> quiet x -> trace_fits l x -> (trace l x).2 = spec_trace l A.
Proof.
  revert x A. induction l as [|c l IH]; intros x A HR Hq Hf; [done|].
  destruct Hf as [Hc Hf]. cbn [trace spec_trace].
  destruct (exec_spec x A c HR Hq Hc) as (x1 & He & HR1 & Hq1).
  rewrite He in *. specialize (IH x1 _ HR1 Hq1 Hf).
  destruct (trace l x1) as [x2 rs]. cbn [snd] in *. by rewrite IH.
Qed.
End WithRange.
End Refine.
