(* ===== verification/Restart.v ===== *)
(** * Restarting with a hint file

    After [Merge] the directory holds a hint file.  [Open] then takes the index
    from it and does not read the log: right after a compaction this gives the
    same map, but writes made later are not in the hint. *)
From S2P Require Import Prelude LogEntry LogReader Index FileSys Segment Store Merge Repr StoreOps Recovery Opening Durable Session MergeOps Promote Compaction Refine.
Import LogReader Index Segment Store Merge Repr StoreOps Recovery Opening Durable Session MergeOps Promote Compaction Refine.

Module Restart.

(** What the hint codec can carry. *)
Definition hintable (idx : Index) : Prop :=
  (forall k, is_Some (idx !! k) -> blen k <= max_hint_key)
  /\ Z.of_nat (base.size idx) <= max_hint_count.

(** An open store over segments [G] with a hint file for index [I]. *)
Record Hinted (x : State) (G : Contents) (I : Index) : Prop := {
  hn_inv : Inv x G;
  hn_hint : hint_written (fs (world x)) (dir (st x)) I;
  hn_index : idx_ok G I;
  hn_fits : hintable I;
}.

Lemma idx_ok_loc_ok s d G idx k loc :
  disk s d G -> idx_ok G idx -> idx !! k = Some loc -> loc_ok loc.
Proof.
  intros Hd Hi Hk. destruct (Hi k loc Hk) as (v & ino & pre & post & HG & Ho & Hs & _).
  pose proof (disk_id _ _ _ Hd (FileID loc) ltac:(eauto)).
  pose proof (disk_size _ _ _ Hd _ _ _ HG) as Hsz. rewrite !blen_app in Hsz.
  pose proof (blen_nonneg pre). pose proof (blen_nonneg post).
  set (n := blen (enc (MkRec k v (Tombstone loc)))) in *.
  pose proof (blen_nonneg (enc (MkRec k v (Tombstone loc)))). fold n in H2.
  unfold loc_ok, in64, max_id, FileSys.max_file in *. lia.
Qed.

Lemma hintable_kl_ok s d G idx :
  disk s d G -> idx_ok G idx -> hintable idx -> Forall kl_ok (pairs idx).
Proof.
  intros Hd Hi [Hk _]. rewrite Forall_forall. intros kl H%elem_of_pairs. split.
  - apply Hk. eauto.
  - by eapply idx_ok_loc_ok.
Qed.

Section WithRange.
Context `{!GoRange Z}.

(** The rest of a closed store's directory, and opening it again. *)
Lemma reopen_hinted x G I o :
  Hinted x G I -> quiet x ->
  exists x' w s,
    Store.Close x = (x', Ok tt)
    /\ OpenWithOptions (dir (st x)) o (world x') = (w, Ok s)
    /\ Hinted (MkState w s) G I /\ quiet (MkState w s) /\ index s = I
    /\ dir s = dir (st x).
Proof.
  intros [HI (ino & Hn & Hc) Hi Hf] Hq.
  destruct (Close_state x G HI Hq) as [h Hcl].
  set (w0 := MkWorld (fs (world x)) h (hnext (world x))) in *.
  pose proof (LoadHint_hint_bytes I New [] EOF
    (hintable_kl_ok _ _ _ _ (inv_disk _ _ HI) Hi Hf) (proj2 Hf)) as Hl.
  rewrite app_nil_r in Hl. destruct (inv_active _ _ HI) as (_ & Hs & _).
  destruct (OpenWithOptions_hint w0 (dir (st x)) o G I (activeID (st x)) ino
    (hint_bytes I) (MkIoReader [] EOF))
    as (w & s & Hopen & HI' & (Hfs & Hd & Ho) & Hidx); try done; [apply HI|].
  eexists. exists w, s. split_and!; [exact Hcl|exact Hopen| | |done|done].
  - split; [done| |done|done]. exists ino. cbn [world st]. by rewrite Hfs, Hd.
  - unfold quiet, no_faults. cbn [world]. by rewrite Hfs.
Qed.

(** A successful compaction of a store with live keys. *)
Lemma compacted_Hinted x x' G n :
  Inv x G -> compacted x x' G n ->
  Forall (fun k => blen k <= max_hint_key) (Index.Key <$> LiveEntries (index (st x))) ->
  blen (LiveEntries (index (st x))) <= max_hint_count ->
  Hinted x' {[activeID (st x) + 1 := (n, frames (compact G (index (st x))))]} (index (st x')).
Proof.
  intros HI HC Hk Hn. pose proof (cp_inv _ _ _ _ HC) as HI'. split.
  - done.
  - rewrite (cp_dir _ _ _ _ HC). apply HC.
  - apply HI'.
  - rewrite (cp_index _ _ _ _ HC). split.
    + intros k H%elem_of_Keys. rewrite Keys_merged in H. rewrite Forall_forall in Hk. by apply Hk.
    + rewrite <- length_pairs, <- (length_fmap Index.Key), Key_pairs, Keys_merged, length_fmap.
      exact Hn.
Qed.

(** ** Writes after a compaction *)

Lemma logged_grows x x' G G' r :
  Inv x G -> activeID (st x) + 1 < max_id -> logged x x' G G' r -> grows G G'.
Proof.
  intros HI Hid (ino & c & HG & _ & _ & _ & _ & _ & HG').
  assert (Hg : grows G (<[activeID (st x) := (ino, c ++ enc r)]> G)) by (by apply grows_insert).
  destruct HG' as [-> | [ino' ->]]; [done|].
  intros id i b H. destruct (Hg _ _ _ H) as (i' & b' & H'). exists i', b'.
  rewrite lookup_insert_ne; [done|]. intros <-. by rewrite (active_next_fresh x G HI) in H.
Qed.

Lemma logged_hint x x' G G' r I :
  logged x x' G G' r -> hint_written (fs (world x)) (dir (st x)) I ->
  hint_written (fs (world x')) (dir (st x')) I.
Proof.
  intros (ino & c & _ & _ & Hdir & _ & Hn & Hd & _) (h & Hh & Hc). exists h.
  rewrite Hdir, Hn. split; [done|]. unfold hint_data in Hd. by rewrite Hn, Hh, Hc in Hd.
Qed.

Lemma run_ops_Hinted x G I n k l :
  Hinted x G I -> quiet x -> Forall op_ok l -> bounded G n k ->
  n + ops_bytes l <= FileSys.max_file -> k + Z.of_nat (length l) < max_id ->
  exists x' G',
    run_ops l x = (x', Ok tt) /\ Hinted x' G' I /\ quiet x'
    /\ abs G' (index (st x')) = foldl apply_op (abs G (index (st x))) l
    /\ abs G' I = abs G I /\ dir (st x') = dir (st x).
Proof.
  revert x G n k. induction l as [|o l IH]; intros x G n k HH Hq Hok Hb Hsz Hid.
  { exists x, G. by split_and!. }
  apply Forall_cons in Hok as [Ho Hl]. pose proof (hn_inv _ _ _ HH) as HI.
  rewrite ops_bytes_cons in *. pose proof (ops_bytes_nonneg l).
  cbn [length] in *. rewrite Nat2Z.inj_succ in *.
  destruct (run_op_Ok x G o HI Hq Ho) as (x1 & G1 & Hrun & HI1 & Hq1 & Habs & Hlog).
  { eapply bounded_room; [done|done|lia|lia]. }
  assert (Hida : activeID (st x) + 1 < max_id).
  { destruct (inv_active _ _ HI) as (_ & [[ino c] HG] & _). apply Hb in HG. lia. }
  pose proof (logged_grows _ _ _ _ _ HI Hida Hlog) as Hg.
  assert (HH1 : Hinted x1 G1 I).
  { split; [done|by apply (logged_hint _ _ _ _ _ _ Hlog), HH| |apply HH].
    eapply idx_ok_grows, HH. done. }
  pose proof (logged_bounded _ _ _ _ _ _ _ HI Hb Hlog) as Hb1.
  destruct (IH x1 G1 _ _ HH1 Hq1 Hl Hb1) as (x' & G' & Hrun' & HH' & Hq' & Habs' & HI'' & Hdir);
    [lia|lia|].
  destruct Hlog as (_ & _ & _ & _ & Hd1 & _).
  exists x', G'. split_and!; [|done|done| | |congruence].
  - unfold run_ops. cbn [range_loop]. by rewrite (M_bind_Ok _ _ _ _ _ Hrun).
  - by rewrite Habs', Habs.
  - rewrite HI''. apply abs_grows; [done|apply HH].
Qed.
End WithRange.
End Restart.
