(* ===== verification/Invariant.v ===== *)
(** * Reachable stores and their invariant

    [reachable] is the transition system of a store that is opened on a new
    directory, called, closed and opened again, without failing system calls and
    within the resource bounds.  [well_formed] says, in terms of the fields and
    files only, what holds in all of its states. *)
From S2P Require Import Prelude LogEntry LogReader Index FileSys Segment Store Merge Repr StoreOps Recovery Opening Durable Session MergeOps Promote Compaction Refine Restart.
Import LogReader Index Segment Store Merge Repr StoreOps Recovery Opening Durable Session MergeOps Promote Compaction Refine Restart.

Module Invariant.

Section WithRange.
Context `{!GoRange Z}.

(** ** The transition system *)

(** Payloads the log reader accepts, and live keys the hint file can carry. *)
Definition step_fits (x : State) (c : call) : Prop :=
  call_fits x c /\
  match c with
  | CPut k v => readable (MkRec k v false)
  | CDelete k => readable (MkRec k [] true)
  | CMerge =>
      forallb (fun kl => blen (Index.Key kl) <=? max_hint_key) (LiveEntries (index (st x))) = true
      /\ blen (LiveEntries (index (st x))) <= max_hint_count
  | _ => True
  end.

Inductive reachable (d : bytes) : State -> Prop :=
  | reach_new w o w' s :
      no_faults w -> (forall name, FileSys.names (fs w) !! (d, name) = None) ->
      (forall key ino, FileSys.names (fs w) !! key = Some (FileSys.DFile ino) ->
         (ino < FileSys.next (fs w))%nat) ->
      OpenWithOptions d o w = (w', Ok s) -> reachable d (MkState w' s)
  | reach_call x c x' r :
      reachable d x -> step_fits x c -> exec c x = (x', r) -> reachable d x'
  | reach_reopen x o x1 w s :
      reachable d x -> Store.Close x = (x1, Ok tt) -> OpenWithOptions d o (world x1) = (w, Ok s) ->
      reachable d (MkState w s).

(** ** The invariant by induction *)

(** Either no hint file exists and the index is the replay of the log, or one
    does and its entries point at records. *)
Definition sound (d : bytes) (x : State) : Prop :=
  quiet x /\ dir (st x) = d
  /\ ((exists G L, Durable x G L) \/ (exists G I, Hinted x G I)).

Lemma sound_Inv d x : sound d x -> exists G, Inv x G.
Proof.
  intros (_ & _ & [(G & L & HD)|(G & I & HH)]); exists G; [by apply (dur_inv _ _ _ HD)|by apply (hn_inv _ _ _ HH)].
Qed.

(** One write. *)
Lemma sound_write d x o :
  sound d x -> op_ok o -> room x (blen (enc (op_record o))) 1 ->
  exists x', run_op o x = (x', Ok tt) /\ sound d x'.
Proof.
  intros Hs Ho Hroom. pose proof Hs as (Hq & Hd & Hc). destruct (sound_Inv d x Hs) as [_ _].
  destruct Hc as [(G & L & HD)|(G & I & HH)].
  - destruct (run_op_Ok x G o (dur_inv _ _ _ HD) Hq Ho Hroom) as (x' & G' & Hrun & HI' & Hq' & _ & Hl).
    exists x'. split; [done|]. split_and!; [done| |].
    + destruct Hl as (_ & _ & _ & _ & -> & _). done.
    + left. exists G'. by apply (logged_Durable _ _ _ _ _ _ HD HI' Hl), Ho.
  - pose proof (hn_inv _ _ _ HH) as HI.
    destruct (run_op_Ok x G o HI Hq Ho Hroom) as (x' & G' & Hrun & HI' & Hq' & _ & Hl).
    exists x'. split; [done|]. split_and!; [done| |].
    + destruct Hl as (_ & _ & _ & _ & -> & _). done.
    + right. exists G', I. split; [done|by apply (logged_hint _ _ _ _ _ _ Hl), HH| |apply HH].
      eapply idx_ok_grows, HH. eapply logged_grows; [exact HI|apply Hroom|exact Hl].
Qed.

Lemma sound_merge d x :
  sound d x -> step_fits x CMerge -> exists x', Merge.Merge x = (x', Ok tt) /\ sound d x'.
Proof.
  intros Hs [Hf [Hk Hn]]. destruct (sound_Inv d x Hs) as [G HI]. pose proof Hs as (Hq & Hd & _).
  destruct (decide (LiveEntries (index (st x)) = [])) as [Hl|Hl].
  - destruct (Merge_empty_Ok x G HI Hq Hl) as (x' & n & Hm & HD & Hq' & Hdir & _).
    exists x'. split; [done|]. split_and!; [done|congruence|left; eauto].
  - destruct (Merge_live_Ok x G HI Hq Hl (merge_fits_room _ _ HI Hf)) as (x' & n & Hm & HC).
    exists x'. split; [done|]. split_and!; [apply HC|rewrite (cp_dir _ _ _ _ HC); done|].
    right. eexists _, _. apply (compacted_Hinted x x' G n); [done|done| |done].
    apply Forall_fmap, Forall_forall. intros kl Hkl. apply Z.leb_le.
    rewrite forallb_forall in Hk. by apply Hk, list_elem_of_In.
Qed.

Lemma sound_call d x c : sound d x -> step_fits x c -> exists x' r, exec c x = (x', r) /\ sound d x'.
Proof.
  intros Hs Hf. destruct (sound_Inv d x Hs) as [G HI]. pose proof Hs as (Hq & _).
  destruct c as [k v|k|k| |]; cbn [exec].
  - destruct (decide (k = [])) as [->|Hk].
    { eexists _, _. split; [|exact Hs]. by rewrite (M_bind_Err _ _ _ _ _ (empty_key_Put x G v HI)). }
    destruct Hf as [[_ Hroom] Hr]. destruct (sound_write d x (OpPut k v) Hs) as (x' & Hrun & Hs').
    { by split. } { by rewrite blen_enc. }
    eexists _, _. split; [|exact Hs']. cbn [run_op] in Hrun. by rewrite (M_bind_Ok _ _ _ _ _ Hrun).
  - destruct (decide (k = [])) as [->|Hk].
    { eexists _, _. split; [|exact Hs]. by rewrite (M_bind_Err _ _ _ _ _ (empty_key_Delete x G HI)). }
    destruct Hf as [[_ Hroom] Hr]. destruct (sound_write d x (OpDelete k) Hs) as (x' & Hrun & Hs').
    { by split. } { by rewrite blen_enc. }
    eexists _, _. split; [|exact Hs']. cbn [run_op] in Hrun. by rewrite (M_bind_Ok _ _ _ _ _ Hrun).
  - eexists _, _. split; [|exact Hs]. by rewrite (M_bind_Ok _ _ _ _ _ (Get_Ok x G k HI Hq)).
  - by eexists _, _.
  - destruct (sound_merge d x Hs Hf) as (x' & Hm & Hs'). eexists _, _. split; [|exact Hs'].
    by rewrite (M_bind_Ok _ _ _ _ _ Hm).
Qed.

Lemma sound_reopen d x o :
  sound d x -> exists x1 w s, Store.Close x = (x1, Ok tt) /\ OpenWithOptions d o (world x1) = (w, Ok s)
    /\ sound d (MkState w s).
Proof.
  intros (Hq & <- & [(G & L & HD)|(G & I & HH)]).
  - pose proof (dur_inv _ _ _ HD) as HI.
    destruct (close_rests x G L FileSys.max_file max_id HD Hq) as (x1 & Hc & Hr).
    { intros id ino c HG. split; [by apply (disk_size _ _ _ (inv_disk _ _ HI) id ino)|].
      destruct (disk_id _ _ _ (inv_disk _ _ HI) id); [eauto|]. lia. }
    destruct (rests_open _ _ _ _ _ o Hr) as (w & s & G' & L' & Ho & HD' & Hq' & Hd' & _).
    exists x1, w, s. split_and!; [done|done|]. split_and!; [done|done|left; eauto].
  - destruct (reopen_hinted x G I o HH Hq) as (x1 & w & s & Hc & Ho & HH' & Hq' & _ & Hdir).
    exists x1, w, s. split_and!; [done|done|]. split_and!; [done|done|right; eauto].
Qed.

Lemma reachable_sound d x : reachable d x -> sound d x.
Proof.
  induction 1 as [w o w' s Hq Hn Hf Ho|x c x' r _ IH Hfit He|x o x1 w s _ IH Hc Ho].
  - destruct (Open_new w d o Hq Hn Hf) as (w1 & s1 & G & L & Ho' & HD & Hq' & Hd & _).
    rewrite Ho in Ho'. injection Ho' as <- <-. split_and!; [done|done|left; eauto].
  - destruct (sound_call d x c IH Hfit) as (x1 & r1 & He' & Hs). congruence.
  - destruct (sound_reopen d x o IH) as (x1' & w' & s' & Hc' & Ho' & Hs).
    rewrite Hc in Hc'. injection Hc' as <-. rewrite Ho in Ho'. by injection Ho' as <- <-.
Qed.

(** ** What holds in every reachable state *)

(** Segment [id] is open on its file in the directory, which holds [c]. *)
Definition segment_holds (x : State) (id : Z) (p : ptr) (c : bytes) : Prop :=
  exists ino,
    segments (st x) !! id = Some p
    /\ heap (world x) !! p
       = Some (MkSegment id (SegmentPath (dir (st x)) id) (Some ino) (blen c))
    /\ FileSys.names (fs (world x)) !! (dir (st x), SegmentName id) = Some (FileSys.DFile ino)
    /\ FileSys.data (fs (world x)) !! ino = Some c.

Record well_formed (x : State) : Prop := {
  wf_open : closed (st x) = false;
  (* the active segment is the one with the largest id *)
  wf_active : exists p, active (st x) = Some p /\ segments (st x) !! activeID (st x) = Some p
    /\ forall id, is_Some (segments (st x) !! id) -> id <= activeID (st x);
  (* every segment object knows its id and size and has its file open *)
  wf_segments : forall id p, segments (st x) !! id = Some p ->
    exists c, segment_holds x id p c;
  (* no segment file is left out *)
  wf_files : forall name id, is_Some (FileSys.names (fs (world x)) !! (dir (st x), name)) ->
    ParseSegmentID name = Some id -> is_Some (segments (st x) !! id);
  (* every index entry points at a whole record of its key *)
  wf_index : forall k loc, index (st x) !! k = Some loc ->
    exists p c e, segment_holds x (FileID loc) p c
      /\ 0 <= Offset loc /\ Offset loc + Index.Size loc <= blen c
      /\ LogEntry.Decode (drop (Z.to_nat (Offset loc)) c) = Ok e
      /\ LogEntry.Key e = k /\ LogEntry.Tombstone e = Tombstone loc
      /\ LogEntry.Size e = Index.Size loc;
}.

Lemma Inv_segment_holds x G id ino c : Inv x G -> G !! id = Some (ino, c) ->
  exists p, segment_holds x id p c.
Proof.
  intros HI HG. pose proof (inv_opens _ _ HI id) as Ho. rewrite HG in Ho.
  destruct Ho as (p & Hs & Hh & _). destruct (disk_file _ _ _ (inv_disk _ _ HI) _ _ _ HG) as [Hn Hd].
  exists p, ino. by split_and!.
Qed.

Lemma Inv_well_formed x G : Inv x G -> well_formed x.
Proof.
  intros HI. pose proof (inv_opens _ _ HI) as Hopens. split.
  - apply HI.
  - destruct (Inv_active x G HI) as (p & ino & c & Ha & Hs & _). exists p. split_and!; [done|done|].
    intros id Hid. apply (inv_active _ _ HI). by rewrite (opens_Some _ _ _ _ Hopens).
  - intros id p Hs. destruct (opens_segment _ _ _ _ _ Hopens Hs) as (ino & c & HG & _).
    destruct (Inv_segment_holds x G id ino c HI HG) as (p' & Hp). exists c.
    assert (p' = p) as -> by (destruct Hp as (? & Hp' & _); congruence). done.
  - intros name id [e He] Hp. rewrite <- (opens_Some _ _ _ _ Hopens).
    by apply (disk_all _ _ _ (inv_disk _ _ HI) name e).
  - intros k loc Hk. destruct (inv_index _ _ HI k loc Hk) as (v & ino & pre & post & HG & Ho & Hs & Hf).
    destruct (Inv_segment_holds x G _ ino _ HI HG) as (p & Hp).
    set (r := MkRec k v (Tombstone loc)) in *. pose proof (blen_nonneg pre). pose proof (blen_nonneg post).
    eexists p, _, _. split_and!; [exact Hp|lia| | |..].
    + rewrite !blen_app. lia.
    + rewrite Ho, drop_blen_app by done. exact (LogEntry.Decode_Encode k v (Tombstone loc) post Hf).
    + reflexivity.
    + reflexivity.
    + rewrite Hs. symmetry. exact (blen_enc r).
Qed.

(** The integers of a reachable state fit the types that the code gives them. *)
Record in_range (x : State) : Prop := {
  ir_active : 0 <= activeID (st x) < max_id;
  ir_segments : forall id p sg, segments (st x) !! id = Some p -> heap (world x) !! p = Some sg ->
    fileID sg = id /\ 0 <= id < max_id /\ 0 <= size sg <= FileSys.max_file;
  ir_index : forall k loc, index (st x) !! k = Some loc ->
    blen k < 2 ^ 32 /\ 0 <= FileID loc < max_id /\ 0 <= Offset loc
    /\ LogEntry.headerSize <= Index.Size loc /\ Offset loc + Index.Size loc <= FileSys.max_file;
}.

Lemma Inv_in_range x G : Inv x G -> in_range x.
Proof.
  intros HI. pose proof (inv_disk _ _ HI) as Hd. split.
  - apply (disk_id _ _ _ Hd), (inv_active _ _ HI).
  - intros id p sg Hs Hp. destruct (opens_segment _ _ _ _ _ (inv_opens _ _ HI) Hs) as (ino & c & HG & Hh & _).
    rewrite Hp in Hh. injection Hh as ->. split_and!; [done|apply (disk_id _ _ _ Hd); eauto..| |].
    + apply blen_nonneg.
    + by apply (disk_size _ _ _ Hd id ino).
  - intros k loc Hk. destruct (inv_index _ _ HI k loc Hk) as (v & ino & pre & post & HG & -> & -> & Hf & _).
    pose proof (disk_size _ _ _ Hd _ _ _ HG) as Hsz. rewrite !blen_app in Hsz.
    pose proof (blen_nonneg pre). pose proof (blen_nonneg post).
    rewrite blen_enc in *. unfold LogEntry.frameSize, LogEntry.headerSize in *. cbn [rkey rvalue] in *.
    pose proof (blen_nonneg k). pose proof (blen_nonneg v).
    split_and!; [done|apply (disk_id _ _ _ Hd); eauto..|lia|lia|lia].
Qed.

(** Sequences of calls stay within the reachable states. *)
Fixpoint steps_fit (l : list call) (x : State) : Prop :=
  match l with
  | [] => True
  | c :: l' => step_fits x c /\ steps_fit l' (exec c x).1
  end.

Lemma reachable_trace d l x : reachable d x -> steps_fit l x -> reachable d (trace l x).1.
Proof.
  revert x. induction l as [|c l IH]; intros x Hr Hf; [done|]. destruct Hf as [Hc Hf].
  cbn [trace]. destruct (exec c x) as [x1 r] eqn:E. cbn [fst] in Hf.
  specialize (IH x1 (reach_call _ _ _ _ _ Hr Hc E) Hf). by destruct (trace l x1).
Qed.
End WithRange.
End Invariant.
