(* ===== verification/Faults.v ===== *)
(** * When system calls fail

    The error paths of the store: closing under any faults, a write that fails,
    a sync that fails after the write, a hint file that does not load. *)
From S2P Require Import Prelude LogEntry LogReader Index FileSys Segment Store Merge Repr StoreOps Recovery Opening.
Import LogReader Index Segment Store Merge Repr StoreOps Recovery Opening.

Module Faults.

(** States that differ only in what the environment will do next. *)
Definition with_faults (fl : list FileSys.fault) (x : State) : State :=
  MkState (MkWorld (FileSys.MkFS (FileSys.dirs (fs (world x))) (FileSys.names (fs (world x)))
                      (FileSys.data (fs (world x))) (FileSys.next (fs (world x))) fl)
             (heap (world x)) (hnext (world x))) (st x).

Lemma Inv_with_faults fl x G : Inv x G -> Inv (with_faults fl x) G.
Proof.
  intros [H1 [D1 D2 D3 D4 D5 D6 D7 D8] H3 H4 H5]. by split.
Qed.

Lemma with_faults_id x fl : FileSys.faults (fs (world x)) = fl -> with_faults fl x = x.
Proof. intros <-. by destruct x as [[[] ? ?] ?]. Qed.

(** ** Closing under any faults *)

(** The files on disk are the same. *)
Definition same_files (w w' : World) : Prop :=
  FileSys.names (fs w') = FileSys.names (fs w) /\ FileSys.data (fs w') = FileSys.data (fs w).

Lemma pop_fault_any s :
  exists s' x, FileSys.pop_fault s = (s', Ok x)
    /\ FileSys.names s' = FileSys.names s /\ FileSys.data s' = FileSys.data s.
Proof.
  unfold FileSys.pop_fault. destruct (FileSys.faults s); do 2 eexists; by split.
Qed.

Lemma os_Close_any ino w :
  exists s r, os (FileSys.Close ino) w = (MkWorld s (heap w) (hnext w), r)
    /\ r <> Panic /\ FileSys.names s = FileSys.names (fs w) /\ FileSys.data s = FileSys.data (fs w).
Proof.
  destruct (pop_fault_any (fs w)) as (s & x & Hp & Hn & Hd).
  unfold os, zoom, FileSys.Close, FileSys.syscall.
  rewrite (M_bind_Ok _ _ _ _ _ Hp). destruct x; do 2 eexists; split; try reflexivity; done.
Qed.

Lemma Segment_Close_any w p sg :
  heap w !! p = Some sg ->
  exists w' sg' r, Segment.Close p w = (w', r) /\ r <> Panic /\ same_files w w'
    /\ heap w' = <[p := sg']> (heap w) /\ f sg' = None.
Proof.
  intros Hp. unfold Segment.Close. rewrite (M_bind_Ok _ _ _ _ _ (load_Ok _ _ _ Hp)).
  destruct (f sg) as [ino|] eqn:Hf.
  2:{ exists w, sg, (Ok tt). by rewrite insert_id. }
  pose proof (os_Close_any ino w) as Hc.
  destruct Hc as (s & r & Hc & Hr & Hn & Hd). unfold mbind, M_bind, attempt. rewrite Hc.
  set (sg' := MkSegment (fileID sg) (path sg) None (size sg)).
  exists (MkWorld s (<[p := sg']> (heap w)) (hnext w)), sg'.
  destruct r as [[]|e|]; [exists (Ok tt)|exists (Err e)|done]; by split_and!.
Qed.

Lemma close_loop_any l x fe :
  (forall id p, (id, p) ∈ l -> is_Some (heap (world x) !! p)) ->
  exists x' fe', Store.close_loop l fe x = (x', Ok fe')
    /\ same_files (world x) (world x')
    /\ st x' = set_segments (foldl (fun m a => delete a.1 m) (segments (st x)) l) (st x)
    /\ (forall p, (exists sg, heap (world x) !! p = Some sg /\ f sg = None) \/ p ∈ l.*2 ->
          exists sg, heap (world x') !! p = Some sg /\ f sg = None).
Proof.
  revert x fe. induction l as [|[id p] l IH]; intros x fe Hl.
  { exists x, fe. split_and!; [done|done|by destruct (st x)|]. intros p [H|H]; [done|inversion H]. }
  destruct (Hl id p) as [sg Hsg]; [by left|].
  destruct (Segment_Close_any _ _ _ Hsg) as (w1 & sg' & r & Hc & Hr & Hs & Hh & Hf).
  set (x1 := MkState w1 (set_segments (delete id (segments (st x))) (st x))).
  set (fe1 := match r with Err err => match fe with None => Some err | _ => fe end | _ => fe end).
  destruct (IH x1 fe1) as (x' & fe' & Hloop & [Hn Hd] & Hst & Hall).
  { intros id' p' H. cbn [x1 world]. rewrite Hh.
    destruct (decide (p = p')) as [<-|]; [by rewrite lookup_insert_eq; eauto|].
    rewrite lookup_insert_ne by done. eapply Hl. by right. }
  exists x', fe'. split_and!.
  - cbn [Store.close_loop]. unfold mbind, M_bind, attempt, on_world, zoom. rewrite Hc.
    destruct r as [[]|e|]; [| |done]; cbn [update modify]; rewrite <- Hloop; unfold fe1;
      by destruct fe.
  - destruct Hs as [Hs1 Hs2]. split; [by rewrite Hn|by rewrite Hd].
  - by rewrite Hst.
  - intros q Hq. apply Hall. cbn [x1 world]. rewrite Hh.
    destruct (decide (p = q)) as [<-|Hne].
    + left. exists sg'. by rewrite lookup_insert_eq.
    + rewrite lookup_insert_ne by done. destruct Hq as [Hq|Hq]; [by left|].
      apply elem_of_cons in Hq as [Hq|Hq]; [done|by right].
Qed.

Lemma Write_FNone ino b s fl (c : bytes) :
  FileSys.faults s = FileSys.FNone :: fl -> FileSys.data s !! ino = Some c ->
  blen c + blen b <= FileSys.max_file ->
  FileSys.Write ino b s
  = (FileSys.MkFS (FileSys.dirs s) (FileSys.names s) (<[ino := c ++ b]> (FileSys.data s))
       (FileSys.next s) fl, Ok (blen b)).
Proof.
  intros Hfl Hc Hsz. unfold FileSys.Write.
  rewrite (M_bind_Ok _ _ s (FileSys.MkFS (FileSys.dirs s) (FileSys.names s) (FileSys.data s)
    (FileSys.next s) fl) FileSys.FNone) by (unfold FileSys.pop_fault; by rewrite Hfl).
  unfold act, FileSys.content. cbn [FileSys.data]. rewrite Hc. change (default [] (Some c)) with c.
  rewrite (proj2 (Z.ltb_ge _ _) Hsz). reflexivity.
Qed.

Section WithRange.
Context `{!GoRange Z}.

(** Whatever fails, [Close] ends with a closed store that holds no segment,
    and every segment object has released its handle. *)
Lemma Close_any_Ok x :
  closed (st x) = false ->
  (forall id p, segments (st x) !! id = Some p -> is_Some (heap (world x) !! p)) ->
  exists x' r, Store.Close x = (x', r) /\ r <> Panic /\ same_files (world x) (world x')
    /\ st x' = set_active 0 None (set_segments ∅ (set_closed (st x)))
    /\ (forall id p, segments (st x) !! id = Some p ->
          exists sg, heap (world x') !! p = Some sg /\ f sg = None).
Proof.
  intros Hcl Hall. set (y := MkState (world x) (set_closed (st x))).
  assert (Hin : forall id p, (id, p) ∈ go_range (segments (st x)) <-> segments (st x) !! id = Some p).
  { intros id p. rewrite go_range_perm. apply elem_of_map_to_list. }
  destruct (close_loop_any (go_range (segments (st y))) y None) as (x' & fe & Hl & Hs & Hst & Hf).
  { intros id p H. apply Hin in H. by eapply Hall. }
  exists (MkState (world x') (set_active 0 None (st x'))),
    (match fe with Some e => Err e | None => Ok tt end).
  split_and!.
  - unfold Store.Close. rewrite self_bind, Hcl, update_bind. fold y.
    unfold closeSegmentsLocked. rewrite self_bind, (M_bind_Ok _ _ _ _ _ Hl), update_bind.
    by destruct fe.
  - by destruct fe.
  - done.
  - cbn [st]. rewrite Hst, foldl_delete_all; [done|]. intros id p Hp.
    apply list_elem_of_fmap. exists (id, p). split; [done|]. by apply Hin.
  - intros id p Hp. apply Hf. right. apply list_elem_of_fmap. exists (id, p).
    split; [done|]. by apply Hin.
Qed.

(** ** A write that fails *)

Lemma Put_write_fails x G fl key value :
  Inv x G -> FileSys.faults (fs (world x)) = FileSys.FFail :: fl -> key <> [] ->
  Store.Put key value x
  = (with_faults fl x, Err (Errorf "log: append to segment %d: %w" FileSys.EIO)).
Proof.
  intros HI Hfl Hne. destruct (Inv_active x G HI) as (p & ino & c & Ha & Hp & HG & Hh).
  unfold Store.Put. rewrite self_bind, (inv_closed _ _ HI).
  destruct (Z.eqb_spec (blen key) 0) as [H0|_]; [by apply blen_zero_inv in H0|].
  apply M_bind_Err. unfold on_active. rewrite self_bind, Ha. unfold on_world, zoom.
  unfold Append. rewrite (M_bind_Ok _ _ _ _ _ (load_Ok _ _ _ Hh)). cbv zeta.
  cbn [f segment_of]. unfold mbind, M_bind. unfold wrapping, on_file, os, zoom, FileSys.Write.
  unfold mbind, M_bind. unfold FileSys.pop_fault. rewrite Hfl. reflexivity.
Qed.

(** ** A sync that fails *)

Lemma Put_sync_fails x G fl key value :
  Inv x G -> FileSys.faults (fs (world x)) = FileSys.FNone :: FileSys.FFail :: fl ->
  SyncOnWrite (opts (st x)) = true -> key <> [] -> LogEntry.fits key value ->
  room x (blen (LogEntry.Encode key value false)) 1 ->
  exists x' G',
    Store.Put key value x = (x', Err (Errorf "log: sync segment %d: %w" FileSys.EIO))
    /\ Inv x' G' /\ FileSys.faults (fs (world x')) = fl
    /\ abs G' (index (st x')) = <[key := value]> (abs G (index (st x))).
Proof.
  intros HI Hfl Hsync Hne Hf Hroom.
  destruct (Inv_active x G HI) as (p & ino & c & Ha & Hp & HG & Hh).
  destruct (room_active _ _ _ _ _ _ Hroom Ha Hh) as [Hsz Hid].
  destruct (Inv_written x G p ino c key value false HI Ha Hp HG Hh Hf Hsz) as [HI1 Habs].
  set (x1 := written x p ino c key value false) in *.
  exists (with_faults fl x1). eexists. split_and!; [|by apply Inv_with_faults|done|exact Habs].
  unfold Store.Put. rewrite self_bind, (inv_closed _ _ HI).
  destruct (Z.eqb_spec (blen key) 0) as [H0|_]; [by apply blen_zero_inv in H0|].
  assert (Hd : FileSys.data (fs (world x)) !! ino = Some c)
    by (by apply (disk_file _ _ _ (inv_disk _ _ HI) (activeID (st x)))).
  assert (Happ : on_active (fun p => Append p key value false) x
    = (MkState (world (with_faults (FileSys.FFail :: fl) x1)) (st x),
       Ok (blen c, blen (LogEntry.Encode key value false)))).
  { apply (on_active_Ok _ x p); [done|]. unfold Append.
    rewrite (M_bind_Ok _ _ _ _ _ (load_Ok _ _ _ Hh)). cbv zeta. cbn [f segment_of on_file].
    rewrite (M_bind_Ok _ _ _ _ _ (wrapping_Ok _ _ _ _ _ (os_Ok _ _ _ _
      (Write_FNone _ _ _ _ _ Hfl Hd Hsz)))).
    by rewrite Z.eqb_refl. }
  rewrite (M_bind_Ok _ _ _ _ _ Happ), update_bind.
  change (SyncOnWrite (opts (st _))) with (SyncOnWrite (opts (st x))). cbv beta.
  cbn [with_faults st set_index opts]. rewrite Hsync. apply M_bind_Err.
  change (MkState _ _) with (with_faults (FileSys.FFail :: fl) x1).
  unfold on_active. rewrite self_bind. change (active (st (with_faults _ x1))) with (active (st x)).
  rewrite Ha. unfold on_world, zoom, Segment.Sync.
  rewrite (M_bind_Ok _ _ _ (world (with_faults (FileSys.FFail :: fl) x1))
    (MkSegment (activeID (st x)) (SegmentPath (dir (st x)) (activeID (st x))) (Some ino)
       (blen c + blen (LogEntry.Encode key value false)))).
  2:{ apply load_Ok. cbn [x1 written appended with_faults world heap]. by rewrite lookup_insert_eq. }
  reflexivity.
Qed.
End WithRange.
End Faults.
