(* ===== verification/ShortWrite.v ===== *)
(** * A write that stops half way, and the store that goes on

    [Append] adds to its size only what a successful write has written, so after
    a short write the object's size falls behind the file.  The next records are
    then indexed at offsets where they are not. *)
From S2P Require Import Prelude LogEntry LogReader Index FileSys Segment Store Wp Repr StoreOps Faults.
Import Index Segment Store Wp Repr StoreOps Faults.

Module ShortWrite.

(** ** Reading at any offset *)

Lemma ReadAt_short ino n off s pre rest :
  FileSys.faults s = [] -> FileSys.data s !! ino = Some (pre ++ rest) -> off = blen pre ->
  blen rest < n -> FileSys.ReadAt ino n off s = (s, Err EOF).
Proof.
  intros Hf Hc -> Hn. unfold FileSys.ReadAt. rewrite FileSys.syscall_none by done.
  pose proof (blen_nonneg pre). destruct (Z.ltb_spec (blen pre) 0); [lia|]. rewrite Hc. cbn [negb].
  rewrite bool_decide_eq_false_2 by done. cbn [andb].
  rewrite (FileSys.content_Some _ _ _ Hc), drop_blen_app by done.
  by rewrite (proj2 (Z.ltb_lt _ _) Hn).
Qed.

(** [readRecordAt] returns what [Decode] makes of the bytes from the offset on. *)
Lemma readRecordAt_any w ino id off pre rest :
  no_faults w -> FileSys.data (fs w) !! ino = Some (pre ++ rest) -> off = blen pre ->
  match LogEntry.Decode rest with
  | Ok e => exists e', readRecordAt ino id off w = (w, Ok e') /\ LogEntry.Value e' = LogEntry.Value e
  | _ => exists err, readRecordAt ino id off w = (w, Err err)
  end.
Proof.
  intros Hf Hc Ho. pose proof (FileSys.content_Some _ _ _ Hc) as Hcon.
  assert (Hshort : forall n fmt, blen rest < n ->
    wrapping fmt (os (FileSys.ReadAt ino n off)) w = (w, Err (Errorf fmt EOF))).
  { intros n fmt Hn. unfold wrapping.
    by rewrite (os_Err_same _ _ _ (ReadAt_short _ _ _ _ _ _ Hf Hc Ho Hn)). }
  assert (Hread : forall mid post fmt n, rest = mid ++ post -> n = blen mid ->
    wrapping fmt (os (FileSys.ReadAt ino n off)) w = (w, Ok mid)).
  { intros mid post fmt n -> Hn. apply wrapping_Ok, os_Ok_same.
    by apply (FileSys.ReadAt_none _ _ _ _ pre mid post). }
  unfold readRecordAt. destruct (Z.lt_ge_cases (blen rest) 17) as [Hl|Hl].
  { rewrite LogEntry.Decode_short by done. eexists. apply M_bind_Err, Hshort.
    unfold LogEntry.headerSize. lia. }
  destruct (LogEntry.split_frame rest Hl) as (c4 & hb & post & Hrest & Hc4 & Hhb).
  destruct (LogEntry.decodeHeader_total hb Hhb) as (h & Hh & Hk & Hv).
  rewrite Hrest, (LogEntry.Decode_header _ _ _ h) by done. cbv zeta.
  rewrite (M_bind_Ok _ _ _ _ _ (Hread (c4 ++ hb) post _ (4 + LogEntry.headerSize)
    ltac:(by rewrite Hrest, app_assoc) ltac:(by rewrite blen_app, Hc4, Hhb))).
  pose proof (slice_app c4 hb [] 4 (4 + LogEntry.headerSize) ltac:(lia) ltac:(lia)) as Hs.
  rewrite app_nil_r in Hs. rewrite (lift_bind_Ok _ _ _ _ Hs), (lift_bind_Ok _ _ _ _ Hh).
  rewrite i64_small by (unfold LogEntry.headerSize; lia).
  destruct (Z.ltb_spec (blen post) (LogEntry.keyLen h + LogEntry.valueLen h)) as [Hp|Hp].
  { eexists. apply M_bind_Err, Hshort. rewrite Hrest, !blen_app. unfold LogEntry.headerSize in *. lia. }
  set (n := LogEntry.keyLen h + LogEntry.valueLen h) in *.
  set (body := take (Z.to_nat n) post).
  assert (Hbody : blen body = n) by (unfold body, blen in *; rewrite length_take; lia).
  rewrite (M_bind_Ok _ _ w w (c4 ++ hb ++ body)).
  2:{ apply (Hread _ (drop (Z.to_nat n) post)).
      - unfold body. by rewrite Hrest, <- !app_assoc, (take_drop (Z.to_nat n) post).
      - rewrite !blen_app. unfold LogEntry.headerSize in *. lia. }
  assert (Hd : LogEntry.Decode (c4 ++ hb ++ body) = LogEntry.Decode (c4 ++ hb ++ post)).
  { rewrite !(LogEntry.Decode_header _ _ _ h) by done. fold n. rewrite Hbody, Z.ltb_irrefl.
    rewrite (proj2 (Z.ltb_ge _ _)) by done. cbv zeta. unfold body.
    rewrite take_take, skipn_firstn_comm, take_take.
    by rewrite !Nat.min_l by (unfold n; lia). }
  rewrite Hd, (LogEntry.Decode_header _ _ _ h) by done. fold n.
  rewrite (proj2 (Z.ltb_ge _ _)) by done. cbv zeta.
  destruct (_ =? _); [by eexists|by eexists].
Qed.

(** ** The object and the file apart *)

(** The active segment [p] of [y] takes its file to have [n] bytes; it holds [c]. *)
Record appending (y : State) (p : ptr) (ino : nat) (n : Z) (c : bytes) : Prop := {
  ap_quiet : quiet y;
  ap_closed : closed (st y) = false;
  ap_active : active (st y) = Some p;
  ap_segment : segments (st y) !! activeID (st y) = Some p;
  ap_object : heap (world y) !! p
    = Some (MkSegment (activeID (st y)) (SegmentPath (dir (st y)) (activeID (st y))) (Some ino) n);
  ap_data : FileSys.data (fs (world y)) !! ino = Some c;
}.

(** Room for a segment after the active one. *)
Record next_free `{!GoRange Z} (y : State) (p : ptr) (ino : nat) : Prop := {
  nf_id : i64 (maxFileID (segments (st y)) + 1) = activeID (st y) + 1;
  nf_dir : dir (st y) ∈ FileSys.dirs (fs (world y));
  nf_name : FileSys.names (fs (world y)) !! (dir (st y), SegmentName (activeID (st y) + 1)) = None;
  nf_data : ino <> FileSys.next (fs (world y));
  nf_heap : p <> hnext (world y);
}.

Section WithRange.
Context `{!GoRange Z}.

(** The state after writing and indexing a record. *)
Definition put_on (y : State) (p : ptr) (ino : nat) (n : Z) (c : bytes) (key value : bytes) : State :=
  let b := LogEntry.Encode key value false in
  MkState
    (appended (world y) p
       (MkSegment (activeID (st y)) (SegmentPath (dir (st y)) (activeID (st y))) (Some ino) n) ino c b)
    (set_index (<[key := MkLocation (activeID (st y)) n (blen b) false]> (index (st y))) (st y)).

Lemma put_on_appending y p ino n c key value :
  appending y p ino n c ->
  appending (put_on y p ino n c key value) p ino
    (n + blen (LogEntry.Encode key value false)) (c ++ LogEntry.Encode key value false).
Proof. intros []. split; try done; cbn [put_on world st appended heap fs]; apply lookup_insert_eq. Qed.

Lemma put_on_next_free y p ino n c key value :
  next_free y p ino -> next_free (put_on y p ino n c key value) p ino.
Proof. by intros []. Qed.

(** What may follow: a sync, and a new active segment. *)
Definition rotated_or_not (y y' : State) : Prop :=
  y' = y \/ y' = rotated y.

Lemma put_tail_appending y p ino n c :
  appending y p ino n c -> next_free y p ino ->
  exists y', ((if SyncOnWrite (opts (st y)) then on_active Segment.Sync else mret tt) ≫= fun _ =>
   if 0 <? MaxFileSize (opts (st y)) then
     n ← on_active Segment.Size;
     if MaxFileSize (opts (st y)) <? n then rotate else mret tt
   else mret tt) y = (y', Ok tt) /\ rotated_or_not y y'.
Proof.
  intros [Hq Hcl Ha Hs Hp Hd] [Hid Hdir Hname _ _].
  rewrite (M_bind_Ok _ _ y y tt).
  2:{ destruct (SyncOnWrite _); [|done]. rewrite (on_active_Ok _ _ p (world y) tt); [by destruct y|done|].
      by apply (Sync_Ok _ _ _ ino Hq Hp). }
  destruct (0 <? _); [|exists y; split; [done|by left]].
  rewrite (M_bind_Ok _ _ y y n).
  2:{ rewrite (on_active_Ok _ _ p (world y) n); [by destruct y|done|]. by rewrite (Size_Ok _ _ _ Hp). }
  destruct (_ <? n); [|exists y; split; [done|by left]].
  exists (rotated y). split; [|by right]. unfold rotate. rewrite self_bind, Hid.
  by rewrite (M_bind_Ok _ _ _ _ _ (on_world_Ok _ _ _ _ (NewSegment_fresh _ _ _ Hq Hdir Hname))).
Qed.

(** [Put] goes by the object's size and the file's end. *)
Lemma Put_appending y p ino n c key value :
  appending y p ino n c -> next_free y p ino -> key <> [] ->
  blen c + blen (LogEntry.Encode key value false) <= FileSys.max_file ->
  exists y', Store.Put key value y = (y', Ok tt)
    /\ rotated_or_not (put_on y p ino n c key value) y'.
Proof.
  intros Hap Hnf Hne Hsz. pose proof (put_on_appending y p ino n c key value Hap) as Hap'.
  pose proof Hap as [Hq Hcl Ha Hs Hp Hd]. set (y1 := put_on y p ino n c key value) in *.
  pose proof (put_on_next_free y p ino n c key value Hnf) as Hnf1.
  destruct (put_tail_appending y1 _ _ _ _ Hap' Hnf1) as (y' & Htail & Hr).
  exists y'. split; [|done]. unfold Store.Put. rewrite self_bind, Hcl.
  destruct (Z.eqb_spec (blen key) 0) as [H0|_]; [by apply blen_zero_inv in H0|].
  rewrite (M_bind_Ok _ _ _ _ _ (on_active_Ok _ _ _ _ _ Ha
    (Append_Ok _ _ _ ino c key value false Hq Hp eq_refl Hd Hsz))).
  cbn [Segment.size]. rewrite update_bind. exact Htail.
Qed.

(** What stays of the active segment, rotated away or not. *)
Lemma rotated_or_not_keeps y y' p ino n c :
  appending y p ino n c -> next_free y p ino -> rotated_or_not y y' ->
  quiet y' /\ closed (st y') = false /\ index (st y') = index (st y)
  /\ segments (st y') !! activeID (st y) = Some p
  /\ heap (world y') !! p = heap (world y) !! p
  /\ FileSys.data (fs (world y')) !! ino = Some c.
Proof.
  intros [Hq Hcl Ha Hs Hp Hd] Hnf [->| ->]; [by split_and!|].
  split_and!; try done; cbn [rotated world st set_active set_segments created segments fs heap FileSys.data].
  - rewrite lookup_insert_ne by lia. done.
  - rewrite lookup_insert_ne; [done|]. symmetry. apply Hnf.
  - rewrite lookup_insert_ne; [done|]. symmetry. apply Hnf.
Qed.
(** ** After a short write *)

(** [Append] stops after the first [k] bytes. *)
Lemma Append_short w p sg ino c key value t k fl :
  FileSys.faults (fs w) = FileSys.FShort k :: fl -> heap w !! p = Some sg -> f sg = Some ino ->
  FileSys.data (fs w) !! ino = Some c ->
  Segment.Append p key value t w
  = (MkWorld (grown fl w ino c (take k (LogEntry.Encode key value t))) (heap w) (hnext w),
     Err (Errorf "log: append to segment %d: %w" FileSys.EIO)).
Proof.
  intros Hf Hp Hino Hc. unfold Segment.Append. rewrite (M_bind_Ok _ _ _ _ _ (load_Ok _ _ _ Hp)).
  cbv zeta. apply M_bind_Err. rewrite Hino. unfold wrapping, on_file, os, zoom, FileSys.Write.
  assert (Hpop : FileSys.pop_fault (fs w) = (refault fl (fs w), Ok (FileSys.FShort k)))
    by (unfold FileSys.pop_fault; by rewrite Hf).
  rewrite (M_bind_Ok _ _ _ _ _ Hpop). unfold act.
  change (FileSys.content (refault fl (fs w)) ino) with (FileSys.content (fs w) ino).
  by rewrite (FileSys.content_Some _ _ _ Hc).
Qed.

(** The state a short write of [b] leaves. *)
Definition cut_short (fl : list FileSys.fault) (x : State) (ino : nat) (c b : bytes) : State :=
  MkState (MkWorld (grown fl (world x) ino c b) (heap (world x)) (hnext (world x))) (st x).

Lemma Put_short x G key value k fl p ino c :
  Inv x G -> key <> [] -> active (st x) = Some p -> G !! activeID (st x) = Some (ino, c) ->
  heap (world x) !! p = Some (segment_of (dir (st x)) (activeID (st x)) ino c) ->
  Store.Put key value (with_faults (FileSys.FShort k :: fl) x)
  = (cut_short fl x ino c (take k (LogEntry.Encode key value false)),
     Err (Errorf "log: append to segment %d: %w" FileSys.EIO)).
Proof.
  intros HI Hne Ha HG Hp. set (x0 := with_faults _ x). unfold Store.Put. rewrite self_bind.
  change (st x0) with (st x). rewrite (inv_closed _ _ HI).
  destruct (Z.eqb_spec (blen key) 0) as [H0|_]; [by apply blen_zero_inv in H0|].
  apply M_bind_Err. unfold on_active. rewrite self_bind. change (st x0) with (st x). rewrite Ha.
  unfold on_world, zoom. rewrite (Append_short (world x0) p _ ino c _ _ _ k fl eq_refl Hp eq_refl); [done|].
  by apply (disk_file _ _ _ (inv_disk _ _ HI) (activeID (st x))).
Qed.

(** From there the object and the file are apart by the bytes written. *)
Lemma cut_short_appending x G p ino c b :
  Inv x G -> active (st x) = Some p -> segments (st x) !! activeID (st x) = Some p ->
  heap (world x) !! p = Some (segment_of (dir (st x)) (activeID (st x)) ino c) ->
  appending (cut_short [] x ino c b) p ino (blen c) (c ++ b).
Proof. intros HI Ha Hs Hp. split; try done; [apply HI|apply lookup_insert_eq]. Qed.

Lemma cut_short_next_free x G p ino c b :
  Inv x G -> activeID (st x) + 1 < max_id -> segments (st x) !! activeID (st x) = Some p ->
  G !! activeID (st x) = Some (ino, c) -> next_free (cut_short [] x ino c b) p ino.
Proof.
  intros HI Hid Hp HG. destruct (next_id_ok x G HI Hid) as [Hi64 Hr].
  pose proof (inv_opens _ _ HI (activeID (st x))) as Ho. rewrite HG in Ho. destruct Ho as (q & Hq & _ & Hlt).
  pose proof (disk_ino_fresh _ _ _ _ _ _ (inv_disk _ _ HI) HG). split.
  - exact Hi64.
  - apply HI.
  - exact (disk_no_segment (fs (world x)) _ G _ (inv_disk _ _ HI) (active_next_fresh x G HI) Hr).
  - cbn. lia.
  - cbn. rewrite Hp in Hq. injection Hq as <-. lia.
Qed.
End WithRange.
End ShortWrite.
