(* ===== verification/Bounds.v ===== *)
(** * How large a store can get

    The other files assume room for what a call writes.  Here that room is
    derived from the client's calls alone: after calls that write [n] bytes of
    records in all, no segment and no hint file can have grown past what [n]
    allows, compactions included, and the segment ids grow by at most one per
    call. *)
From S2P Require Import Prelude LogEntry LogReader Index FileSys Segment Store Merge Repr StoreOps Recovery Opening Durable Session MergeOps Promote Compaction Refine Restart Invariant Faults.
Import LogReader Index Segment Store Merge Repr StoreOps Recovery Opening Durable Session MergeOps Promote Compaction Refine Restart Invariant Faults.

Module Bounds.

(** ** The bytes of a map *)

Definition pair_bytes (kv : bytes * bytes) : Z := LogEntry.frameSize (blen kv.1) (blen kv.2).

Definition total {A} (f : A -> Z) (l : list A) : Z := foldr (fun a n => f a + n) 0 l.

#[export] Instance total_Permutation {A} (f : A -> Z) : Proper ((≡ₚ) ==> (=)) (total f).
Proof. intros l k. induction 1; unfold total in *; cbn in *; lia. Qed.

Lemma total_cons {A} (f : A -> Z) a l : total f (a :: l) = f a + total f l.
Proof. done. Qed.

Lemma totals_app {A} (f : A -> Z) l k : total f (l ++ k) = total f l + total f k.
Proof. induction l as [|a l IH]; [done|]. cbn [app]. rewrite !total_cons. lia. Qed.

Lemma total_nonneg {A} (f : A -> Z) l : (forall a, 0 <= f a) -> 0 <= total f l.
Proof. intros Hf. induction l as [|a l IH]; [done|]. rewrite total_cons. specialize (Hf a). lia. Qed.

Lemma total_fmap {A B} (f : B -> Z) (g : A -> B) l : total f (g <$> l) = total (fun a => f (g a)) l.
Proof. induction l as [|a l IH]; [done|]. by rewrite fmap_cons, !total_cons, IH. Qed.

(** The frames of the pairs of [A]. *)
Definition map_bytes (A : gmap bytes bytes) : Z := total pair_bytes (map_to_list A).

Lemma pair_bytes_nonneg kv : 0 <= pair_bytes kv.
Proof.
  unfold pair_bytes, LogEntry.frameSize, LogEntry.headerSize.
  pose proof (blen_nonneg kv.1). pose proof (blen_nonneg kv.2). lia.
Qed.

Lemma map_bytes_delete A k : map_bytes (delete k A) <= map_bytes A.
Proof.
  unfold map_bytes. destruct (A !! k) as [v|] eqn:E; [|by rewrite delete_id].
  rewrite <- (map_to_list_delete A k v E), total_cons.
  pose proof (pair_bytes_nonneg (k, v)). lia.
Qed.

Lemma map_bytes_insert A k v : map_bytes (<[k := v]> A) <= pair_bytes (k, v) + map_bytes A.
Proof.
  rewrite <- insert_delete_eq. unfold map_bytes.
  rewrite map_to_list_insert by apply lookup_delete_eq. rewrite total_cons.
  pose proof (map_bytes_delete A k). unfold map_bytes in *. lia.
Qed.

(** ** The files of a compaction, from the map *)

Lemma live_bytes_abs x G :
  Inv x G -> live_bytes (index (st x)) = map_bytes (abs G (index (st x))).
Proof.
  intros HI. set (idx := index (st x)). pose proof (inv_index _ _ HI) as Hi. fold idx in Hi.
  pose (f k := pair_bytes (k, default [] (abs G idx !! k))).
  assert (Hl : live_bytes idx = total f (Index.Key <$> LiveEntries idx)).
  { rewrite total_fmap. unfold live_bytes.
    assert (Hs : forall kl, kl ∈ LiveEntries idx -> Index.Size (Index.Loc kl) = f (Index.Key kl)).
    { intros kl [Hk Ht]%elem_of_LiveEntries.
      destruct (abs_live _ _ _ _ Hi Hk Ht) as (v & (? & ? & ? & _ & _ & Hs & _) & Hv).
      unfold f. rewrite Hv, Hs. unfold pair_bytes. cbn [fst snd default]. by rewrite blen_enc. }
    revert Hs. induction (LiveEntries idx) as [|kl l IH]; intros Hs; [done|].
    rewrite total_cons. cbn [foldr]. f_equal; [apply Hs; by left|]. apply IH.
    intros; apply Hs. by right. }
  pose proof (dom_live x G HI) as Hp. fold idx in Hp. rewrite Hl, Hp, total_fmap. unfold map_bytes.
  assert (Hf : forall kv, kv ∈ map_to_list (abs G idx) -> f kv.1 = pair_bytes kv).
  { intros [k v] H%elem_of_map_to_list. unfold f. cbn [fst]. by rewrite H. }
  clear Hp. revert Hf. induction (map_to_list (abs G idx)) as [|kv l IH]; intros Hf; [done|].
  rewrite !total_cons. f_equal; [apply Hf; by left|]. apply IH. intros; apply Hf. by right.
Qed.

(** An entry of the hint file is less than twice the record. *)
Lemma hint_size_abs x G :
  Inv x G -> hint_size (Index.Key <$> LiveEntries (index (st x)))
             <= 8 + 2 * map_bytes (abs G (index (st x))).
Proof.
  intros HI. unfold hint_size. change (foldr _ 0 ?l) with (total (fun k => 29 + blen k) l).
  rewrite (dom_live x G HI), total_fmap. unfold map_bytes.
  induction (map_to_list (abs G (index (st x)))) as [|kv l IH]; [done|]. rewrite !total_cons.
  unfold pair_bytes at 1, LogEntry.frameSize, LogEntry.headerSize.
  pose proof (blen_nonneg kv.1). pose proof (blen_nonneg kv.2). lia.
Qed.

(** ** Calls *)

Definition call_bytes (c : call) : Z :=
  match c with
  | CPut k v => LogEntry.frameSize (blen k) (blen v)
  | CDelete k => LogEntry.frameSize (blen k) 0
  | _ => 0
  end.

Definition calls_bytes (l : list call) : Z := total call_bytes l.

(** The key and value lengths fit the uint32 fields of a record. *)
Definition call_encodes (c : call) : Prop :=
  match c with
  | CPut k v => LogEntry.fits k v
  | CDelete k => blen k < 2 ^ 32
  | _ => True
  end.

Lemma call_bytes_nonneg c : 0 <= call_bytes c.
Proof.
  unfold call_bytes, LogEntry.frameSize, LogEntry.headerSize.
  destruct c as [k v|k|k| |]; try lia; pose proof (blen_nonneg k); [pose proof (blen_nonneg v)|]; lia.
Qed.

Lemma calls_bytes_nonneg l : 0 <= calls_bytes l.
Proof. apply total_nonneg, call_bytes_nonneg. Qed.

(** A store over segments of at most [n] bytes and ids up to [k], whose map
    takes at most [n] bytes as records. *)
Record within (x : State) (A : gmap bytes bytes) (n k : Z) : Prop := {
  wi_quiet : quiet x;
  wi_map : map_bytes A <= n;
  wi_rep : exists G, Inv x G /\ A = abs G (index (st x)) /\ bounded G n k;
}.

(** A state has one value: [Get] finds it. *)
Lemma Inv_same_abs x G G' : Inv x G -> Inv x G' -> abs G (index (st x)) = abs G' (index (st x)).
Proof.
  intros HI HI'. apply map_eq. intros key.
  pose proof (Get_Ok (with_faults [] x) G key (Inv_with_faults [] _ _ HI) eq_refl) as H.
  rewrite (Get_Ok (with_faults [] x) G' key (Inv_with_faults [] _ _ HI') eq_refl) in H.
  by injection H.
Qed.

Section WithRange.
Context `{!GoRange Z}.

Lemma within_mono x A n k n' k' : within x A n k -> n <= n' -> k <= k' -> within x A n' k'.
Proof.
  intros [Hq Hm (G & HI & HA & Hb)] ??. split; [done|lia|].
  exists G. split_and!; [done|done|]. by eapply bounded_weaken.
Qed.

(** What bounded contents leave for the next call. *)
Lemma within_fits x A n k c :
  within x A n k -> call_encodes c -> 8 + 2 * (n + call_bytes c) <= FileSys.max_file ->
  k + 1 < max_id -> call_fits x c.
Proof.
  intros [Hq Hm (G & HI & -> & Hb)] Hc Hn Hk.
  destruct (inv_active _ _ HI) as (_ & [[ino b] HG] & _). pose proof (Hb _ _ _ HG) as [Hbn Hact].
  pose proof (blen_nonneg b). pose proof (call_bytes_nonneg c).
  destruct c as [key v|key|key| |]; cbn [call_fits call_encodes call_bytes] in *; [| |done|done|].
  - split; [done|]. eapply bounded_room; [done|done|lia|lia].
  - split; [done|]. eapply bounded_room; [done|done|lia|lia].
  - pose proof (hint_size_abs x G HI). split_and!; [lia| |lia].
    rewrite (live_bytes_abs x G HI). lia.
Qed.

Lemma logged_within x x' G G' r A n k :
  Inv x G -> bounded G n k -> logged x x' G G' r -> Inv x' G' -> quiet x' ->
  A = abs G' (index (st x')) -> map_bytes A <= n + blen (enc r) ->
  within x' A (n + blen (enc r)) (k + 1).
Proof.
  intros HI Hb Hl HI' Hq HA Hm. split; [done|done|]. exists G'. split_and!; [done|done|].
  exact (logged_bounded x x' G G' r n k HI Hb Hl).
Qed.

(** A compaction writes the live records, or nothing. *)
Lemma Merge_within x A n k :
  within x A n k -> merge_fits x ->
  exists x', Merge x = (x', Ok tt) /\ within x' A n (k + 1).
Proof.
  intros [Hq Hm (G & HI & HA & Hb)] Hf.
  destruct (inv_active _ _ HI) as (_ & [[ino b] HG] & _).
  pose proof (Hb _ _ _ HG) as [Hn Hact]. pose proof (blen_nonneg b).
  pose proof (disk_id _ _ _ (inv_disk _ _ HI) (activeID (st x)) ltac:(eauto)) as Hid.
  destruct (Merge_Rep x A) as (x' & Hmg & (G1 & HI1 & HA1) & Hq1); [by exists G|done|done|].
  exists x'. split; [done|]. split; [done|done|].
  destruct (decide (LiveEntries (index (st x)) = [])) as [Hl|Hl].
  - destruct (Merge_empty_Ok x G HI Hq Hl) as (x1 & i & Hm1 & HD & _).
    rewrite Hmg in Hm1. injection Hm1 as <-. eexists. split_and!; [apply HD| |].
    + rewrite HA1. apply (Inv_same_abs x'); [done|apply HD].
    + intros id ino' c [<- [= <- <-]]%lookup_singleton_Some. change (blen []) with 0. lia.
  - destruct (Merge_live_Ok x G HI Hq Hl (merge_fits_room _ _ HI Hf)) as (x1 & i & Hm1 & HC).
    rewrite Hmg in Hm1. injection Hm1 as <-. eexists. split_and!; [apply HC| |].
    + rewrite HA1. apply (Inv_same_abs x'); [done|apply HC].
    + intros id ino' c [<- [= <- <-]]%lookup_singleton_Some.
      rewrite (live_bytes_compact G _ (inv_index _ _ HI)), (live_bytes_abs x G HI), <- HA. lia.
Qed.

(** One call keeps the bounds, moved by what it writes. *)
Lemma within_call x A n k c :
  within x A n k -> call_fits x c ->
  within (exec c x).1 (spec_call c A).1 (n + call_bytes c) (k + 1).
Proof.
  intros Hw Hf. pose proof Hw as [Hq Hm (G & HI & HA & Hb)].
  pose proof (call_bytes_nonneg c) as Hnn.
  destruct c as [key v|key|key| |]; cbn [exec spec_call call_fits call_bytes] in *.
  - destruct Hf as [Hfit Hroom]. case_bool_decide as Hk.
    { subst key. rewrite (M_bind_Err _ _ _ _ _ (empty_key_Put x G v HI)). eapply within_mono; [done|lia|lia]. }
    destruct (Put_Ok x G key v HI Hq Hk Hfit) as (x' & G' & Hput & HI' & Hq' & Habs & Hl).
    { by rewrite LogEntry.blen_Encode. }
    rewrite (M_bind_Ok _ _ _ _ _ Hput). cbn [fst].
    pose proof (logged_within x x' G G' _ (<[key := v]> A) n k HI Hb Hl HI' Hq') as Hw'.
    rewrite blen_enc in Hw'. apply Hw'; [by rewrite Habs, HA|].
    pose proof (map_bytes_insert A key v) as Hi. unfold pair_bytes in Hi. cbn [rkey rvalue fst snd] in *. lia.
  - destruct Hf as [Hfit Hroom]. case_bool_decide as Hk.
    { subst key. rewrite (M_bind_Err _ _ _ _ _ (empty_key_Delete x G HI)). eapply within_mono; [done|lia|lia]. }
    destruct (Delete_Ok x G key HI Hq Hk Hfit) as (x' & G' & Hdel & HI' & Hq' & Habs & Hl).
    { by rewrite LogEntry.blen_Encode. }
    rewrite (M_bind_Ok _ _ _ _ _ Hdel). cbn [fst].
    pose proof (logged_within x x' G G' _ (delete key A) n k HI Hb Hl HI' Hq') as Hw'.
    rewrite blen_enc in Hw'. apply Hw'; [by rewrite Habs, HA|].
    pose proof (map_bytes_delete A key). cbn [rkey rvalue]. change (blen []) with 0. lia.
  - rewrite (M_bind_Ok _ _ _ _ _ (Get_Ok x G key HI Hq)). eapply within_mono; [done|lia|lia].
  - eapply within_mono; [done|lia|lia].
  - destruct (Merge_within x A n k Hw Hf) as (x' & Hmg & Hw'). rewrite (M_bind_Ok _ _ _ _ _ Hmg).
    cbn [fst]. by rewrite Z.add_0_r.
Qed.

(** Whole sequences of calls never run out of room. *)
Lemma trace_within l x A n k :
  within x A n k -> Forall call_encodes l ->
  8 + 2 * (n + calls_bytes l) <= FileSys.max_file -> k + Z.of_nat (length l) < max_id ->
  trace_fits l x
  /\ within (trace l x).1 (foldl (fun A c => (spec_call c A).1) A l)
       (n + calls_bytes l) (k + Z.of_nat (length l)).
Proof.
  revert x A n k. induction l as [|c l IH]; intros x A n k Hw Hl Hn Hk.
  { split; [done|]. eapply within_mono; [done|cbn; lia|cbn; lia]. }
  apply Forall_cons in Hl as [Hc Hl].
  change (calls_bytes (c :: l)) with (call_bytes c + calls_bytes l) in *.
  cbn [length] in *. pose proof (calls_bytes_nonneg l).
  pose proof (within_fits x A n k c Hw Hc ltac:(lia) ltac:(lia)) as Hf.
  pose proof (within_call x A n k c Hw Hf) as Hw1.
  destruct (IH _ _ _ _ Hw1 Hl) as [Hfits Hw']; [lia|lia|].
  cbn [trace trace_fits foldl]. destruct (exec c x) as [x1 r]. cbn [fst] in *.
  split; [by split|]. destruct (trace l x1) as [x2 rs]. cbn [fst] in *.
  eapply within_mono; [exact Hw'|lia|lia].
Qed.

Lemma within_sizes x A n k id p sg :
  within x A n k -> segments (st x) !! id = Some p -> heap (world x) !! p = Some sg ->
  id <= k /\ 0 <= Segment.size sg <= n.
Proof.
  intros [_ _ (G & HI & _ & Hb)] Hs Hp.
  destruct (opens_segment _ _ _ _ _ (inv_opens _ _ HI) Hs) as (ino & c & HG & Hh & _).
  rewrite Hp in Hh. injection Hh as ->. destruct (Hb _ _ _ HG). pose proof (blen_nonneg c). cbn. lia.
Qed.

Lemma within_active x A n k : within x A n k -> activeID (st x) <= k.
Proof.
  intros [_ _ (G & HI & _ & Hb)]. destruct (inv_active _ _ HI) as (_ & [[ino c] HG] & _).
  by apply Hb in HG as [_ ?].
Qed.

(** A new store. *)
Lemma within_new w d o :
  no_faults w -> (forall name, FileSys.names (fs w) !! (d, name) = None) ->
  (forall key ino, FileSys.names (fs w) !! key = Some (FileSys.DFile ino) ->
     (ino < FileSys.next (fs w))%nat) ->
  exists w' s, OpenWithOptions d o w = (w', Ok s) /\ within (MkState w' s) ∅ 0 1.
Proof.
  intros Hq Hn Hf.
  destruct (Open_new w d o Hq Hn Hf) as (w' & s & G & L & Ho & HD & Hq' & _ & Ha & Hb).
  exists w', s. split; [done|]. split; [done|done|]. exists G. split_and!; [apply HD|done|done].
Qed.
End WithRange.
End Bounds.
