(* ===== verification/AfterCrash.v ===== *)
(** * What [Open] makes of the files a crash leaves

    A crash loses the heap and keeps the files; [boot] is the machine after it.
    A log whose last record is cut, and a hint file that is cut, are the two
    kinds of damage an interrupted operation leaves. *)
From S2P Require Import Prelude LogEntry LogReader Index FileSys Segment Store Wp Repr StoreOps Recovery Opening Durable Promote Compaction Restart Faults.
Import LogReader Index Segment Store Wp Repr StoreOps Recovery Opening Durable Promote Compaction Restart Faults.

Module AfterCrash.

Definition boot (s : FileSys.FS) : World := MkWorld (refault [] s) ∅ 0.

Lemma disk_refault fl s d G : disk s d G -> disk (refault fl s) d G.
Proof. intros []. by split. Qed.

Inductive outcome :=
  | Opens (A : gmap bytes bytes)   (* Open succeeds and the store represents [A] *)
  | Refuses (e : error).           (* Open fails *)

(** The last record is cut after [n] bytes; a cut at 0 or 17 bytes is taken for
    the end of the log. *)
Definition scan_error : error := Errorf "store: scan segment %d: %w" LogEntry.ErrCorrupt.

Definition silent_cut (n : nat) : bool := bool_decide (n = 0%nat \/ n = 17%nat).

Lemma sorted_ids_update (G : Contents) id y :
  is_Some (G !! id) -> sorted_ids (<[id := y]> G) = sorted_ids G.
Proof.
  intros Hid. apply (merge_sort_perm_eq Z.le).
  apply NoDup_Permutation; [apply NoDup_fst_map_to_list|apply NoDup_fst_map_to_list|].
  intros i. pose proof (fun K : Contents => elem_of_sorted_ids K i) as Hs.
  unfold sorted_ids, sort_ints in Hs. setoid_rewrite merge_sort_Permutation in Hs.
  rewrite !Hs, lookup_insert_is_Some'. naive_solver.
Qed.

(** A log on disk whose last segment ends in the bytes [t]. *)
Record torn_log (s : FileSys.FS) (d : bytes) (G : Contents) (L0 : Log) (id : Z)
    (rs : list log_record) (t : bytes) : Prop := {
  tl_log : log_of G (L0 ++ [(id, rs)]);
  tl_disk : exists ino, G !! id = Some (ino, frames rs)
              /\ disk s d (<[id := (ino, frames rs ++ t)]> G);
  tl_hint : FileSys.names s !! (d, hintFile) = None;
}.

(** The segments before the last are not touched by changes to the last. *)
Lemma log_before_last (G : Contents) (L0 : Log) id rs y i l :
  log_of G (L0 ++ [(id, rs)]) -> (i, l) ∈ L0 ->
  Forall readable l /\ exists ino, <[id := y]> G !! i = Some (ino, frames l).
Proof.
  intros HL Hin. pose proof (log_sorted _ _ HL) as Hs. rewrite fmap_app in Hs.
  apply StronglySorted_app in Hs as (Hlt & _ & _). cbn in Hlt.
  assert (Hne : id <> i).
  { intros <-. apply (list_elem_of_fmap_2 fst) in Hin.
    specialize (Hlt id id Hin ltac:(by left)). lia. }
  split; [apply (log_readable _ _ HL i), elem_of_app; by left|].
  rewrite lookup_insert_ne by done. apply (log_contents _ _ HL i). exists l. split; [|done].
  apply elem_of_app. by left.
Qed.

Section WithRange.
Context `{!GoRange Z}.

(** The outcome of opening directory [d] of [s] after a crash. *)
Definition open_outcome (d : bytes) (o : Options) (s : FileSys.FS) (out : outcome) : Prop :=
  match out with
  | Opens A => exists w x, OpenWithOptions d o (boot s) = (w, Ok x) /\ Rep (MkState w x) A
  | Refuses e => exists w, OpenWithOptions d o (boot s) = (w, Err e)
  end.

Lemma closeSegments_total x G :
  opens (world x) (st x) G -> (closeSegments x).2 <> Panic.
Proof.
  intros Ho. unfold closeSegments, closeSegmentsLocked. rewrite self_bind.
  destruct (close_loop_any (go_range (segments (st x))) x None) as (x' & fe & Hl & _).
  { intros id p H. rewrite go_range_perm in H. apply elem_of_map_to_list in H.
    destruct (opens_segment _ _ _ _ _ Ho H) as (? & ? & _ & Hh & _). eauto. }
  rewrite (M_bind_Ok _ _ _ _ _ Hl), update_bind. by destruct fe.
Qed.

(** Loading stops with the error of the scan. *)
Lemma load_index_scan_fails x ids e :
  quiet x -> FileSys.names (fs (world x)) !! (dir (st x), hintFile) = None ->
  (forall x1 e', scanIndex ids x = (x1, Err e') -> (closeSegments x1).2 <> Panic) ->
  (scanIndex ids x).2 = Err e -> (load_index ids x).2 = Err e.
Proof.
  intros Hq Hn Hcl Hs. unfold load_index. rewrite self_bind.
  rewrite (M_bind_Ok _ _ _ _ _ (attempt_Ok _ _ _ _ (on_world_Ok_same _ _ _
    (readHintFile_none _ _ Hq Hn)))).
  destruct (scanIndex ids x) as [x1 r] eqn:E. cbn in Hs. subst r.
  unfold or_else. rewrite (M_bind_Ok _ _ _ _ _ (attempt_Err _ _ _ _ E)).
  specialize (Hcl _ _ eq_refl). unfold ignore, mbind, M_bind, attempt.
  by destruct (closeSegments x1) as [x2 [[]|e'|]].
Qed.

(** The scan of the segments [L0], and the step for the segment after them. *)
Lemma scan_then x L0 id ids G ino c :
  quiet x -> disk (fs (world x)) (dir (st x)) G -> opens (world x) (st x) G ->
  (forall i l, (i, l) ∈ L0 -> Forall readable l /\ exists ino, G !! i = Some (ino, frames l)) ->
  G !! id = Some (ino, c) ->
  let idx0 := foldl (fun m '(i, l) => index_entries i (located 0 l) m) (index (st x)) L0 in
  exists x1, world x1 = world x /\ st x1 = set_index idx0 (st x)
    /\ scanIndex (L0.*1 ++ id :: ids) x
       = match scan_stream id (MkIoReader c EOF) idx0 with
         | Ok idx => scanIndex ids (MkState (world x) (set_index idx (st x)))
         | Err e => (x1, Err e)
         | Panic => (x1, Panic)
         end.
Proof.
  intros Hq Hd Ho HL HG idx0.
  set (x1 := MkState (world x) (set_index idx0 (st x))). exists x1. split_and!; [done|done|].
  assert (H0 : scanIndex L0.*1 x = (x1, Ok tt)) by (by apply (scanIndex_Ok L0 x _ Hq Hd Ho)).
  unfold scanIndex in *. rewrite (range_loop_app _ _ _ _ _ H0). cbn [range_loop].
  pose proof (Ho id) as Hid. rewrite HG in Hid. destruct Hid as (p & Hp & Hh & _).
  assert (Hdata : FileSys.data (fs (world x)) !! ino = Some c) by (by apply (disk_file _ _ _ Hd id)).
  unfold mbind at 1, M_bind at 1. rewrite self_bind. change (segments (st x1)) with (segments (st x)).
  rewrite Hp. rewrite (M_bind_Ok _ _ _ _ _ (on_world_Ok_same _ x1 _ (File_Ok _ _ _ Hh))).
  erewrite M_bind_Ok.
  2:{ apply (on_world_Ok_same _ x1). apply os_Ok_same. change (world x1) with (world x).
      by apply (FileSys.stream_none _ _ _ Hq Hdata). }
  change (index (st x1)) with idx0.
  by destruct (scan_stream id _ idx0) as [idx|e|].
Qed.

(** The scan of a log whose last segment is torn. *)
Lemma scan_torn x L0 id rs t G ino :
  quiet x -> disk (fs (world x)) (dir (st x)) (<[id := (ino, frames rs ++ t)]> G) ->
  opens (world x) (st x) (<[id := (ino, frames rs ++ t)]> G) ->
  log_of G (L0 ++ [(id, rs)]) ->
  let idx0 := foldl (fun m '(i, l) => index_entries i (located 0 l) m) (index (st x)) L0 in
  exists x1, world x1 = world x /\ st x1 = set_index idx0 (st x)
    /\ scanIndex (L0 ++ [(id, rs)]).*1 x
       = match scan_stream id (MkIoReader (frames rs ++ t) EOF) idx0 with
         | Ok idx => (MkState (world x) (set_index idx (st x)), Ok tt)
         | Err e => (x1, Err e)
         | Panic => (x1, Panic)
         end.
Proof.
  intros Hq Hd Ho HL idx0. rewrite fmap_app.
  apply (scan_then x L0 id [] _ ino (frames rs ++ t) Hq Hd Ho); [|apply lookup_insert_eq].
  intros i l Hin. by apply (log_before_last G L0 id rs).
Qed.

Lemma scan_stream_cut id rs r n idx :
  Forall readable rs -> readable r -> (n < length (enc r))%nat ->
  scan_stream id (MkIoReader (frames rs ++ take n (enc r)) EOF) idx
  = if silent_cut n then Ok (index_entries id (located 0 rs) idx) else Err scan_error.
Proof. apply scan_stream_torn. Qed.

(** The state in which the index of a torn log is loaded, and its scan. *)
Lemma torn_log_scan d o s G L0 id rs r n ino x :
  let L := L0 ++ [(id, rs)] in
  let G' := <[id := (ino, frames rs ++ take n (enc r))]> G in
  log_of G L -> disk s d G' -> FileSys.names s !! (d, hintFile) = None ->
  G !! id = Some (ino, frames rs) -> readable r -> (n < length (enc r))%nat -> opening (boot s) d o G' x ->
  quiet x /\ FileSys.names (fs (world x)) !! (dir (st x), hintFile) = None
  /\ exists x1, opens (world x1) (st x1) G'
     /\ scanIndex (sorted_ids G') x =
          if silent_cut n then (MkState (world x) (set_index (replay L) (st x)), Ok tt)
          else (x1, Err scan_error).
Proof.
  intros L G' HL Hd Hh HG Hr Hn [Hfs Hdx _ Hix _ Hops _].
  assert (Hq : quiet x) by (unfold quiet, no_faults; by rewrite Hfs).
  assert (Hrs : Forall readable rs) by (apply (log_readable _ _ HL id), elem_of_app; right; by left).
  split_and!; [done|by rewrite Hfs, Hdx|].
  replace (sorted_ids G') with L.*1 by (unfold G'; rewrite sorted_ids_update by eauto; by apply log_ids_sorted).
  destruct (scan_torn x L0 id rs (take n (enc r)) G ino) as (x1 & Hw & Hst & Hsc);
    [done|rewrite Hfs, Hdx; by apply disk_refault|done|done|].
  exists x1. split; [by rewrite Hw, Hst|]. unfold L. rewrite Hsc, scan_stream_cut by done.
  rewrite Hix. unfold replay. rewrite foldl_app. by destruct (silent_cut n).
Qed.

(** A cut taken for the end of the log stays in the segment. *)
Lemma open_silent_cut d o s G L0 id rs r n ino :
  let L := L0 ++ [(id, rs)] in
  let G' := <[id := (ino, frames rs ++ take n (enc r))]> G in
  log_of G L -> disk s d G' -> FileSys.names s !! (d, hintFile) = None ->
  G !! id = Some (ino, frames rs) -> readable r -> (n < length (enc r))%nat -> silent_cut n = true ->
  exists w' x, OpenWithOptions d o (boot s) = (w', Ok x) /\ Inv (MkState w' x) G'
    /\ opened_store (boot s) w' x d o /\ index x = replay L
    /\ abs G' (index x) = abs G (replay L).
Proof.
  intros L G' HL Hd Hh HG Hr Hn Hc.
  assert (Hg : grows G G') by (by apply grows_insert).
  destruct (OpenWithOptions_load (boot s) d o G' id (replay L)) as (w' & x & Ho & HI & Hop & Hi);
    [done|by apply disk_refault|unfold G'; rewrite lookup_insert_eq; eauto| | |].
  { eapply idx_ok_grows; [done|]. by apply idx_ok_replay. }
  { intros x Hx. destruct (torn_log_scan d o s G L0 id rs r n ino x) as (Hq & Hhx & x1 & _ & Hs); [done..|].
    rewrite Hc in Hs. unfold load_index. rewrite self_bind.
    rewrite (M_bind_Ok _ _ _ _ _ (attempt_Ok _ _ _ _ (on_world_Ok_same _ _ _
      (readHintFile_none _ _ Hq Hhx)))).
    by apply or_else_Ok. }
  exists w', x. split_and!; [done|done|done|done|]. rewrite Hi. apply abs_grows; [done|].
  by apply idx_ok_replay.
Qed.

(** Opening a log whose last record is cut. *)
Lemma open_torn_log d o s G L0 id rs r n :
  torn_log s d G L0 id rs (take n (enc r)) -> readable r -> (n < length (enc r))%nat ->
  open_outcome d o s (if silent_cut n then Opens (abs G (replay (L0 ++ [(id, rs)])))
                      else Refuses scan_error).
Proof.
  intros [HL (ino & HG & Hd) Hh] Hr Hn. destruct (silent_cut n) eqn:Hc; cbn [open_outcome].
  - destruct (open_silent_cut d o s G L0 id rs r n ino) as (w' & x & Ho & HI & _ & _ & Ha); [done..|].
    exists w', x. split; [done|]. eexists. split; [exact HI|]. by rewrite <- Ha.
  - apply (OpenWithOptions_refuse (boot s) d o (<[id := (ino, frames rs ++ take n (enc r))]> G) id);
      [done|by apply disk_refault|rewrite lookup_insert_eq; eauto|]. intros x Hx.
    destruct (torn_log_scan d o s G L0 id rs r n ino x) as (Hq & Hhx & x1 & Hops & Hs); [done..|].
    rewrite Hc in Hs. apply load_index_scan_fails; [done|done| |by rewrite Hs].
    intros y e' Hy. rewrite Hs in Hy. injection Hy as <- _. by eapply closeSegments_total.
Qed.

(** A whole log. *)
Lemma open_log d o s G L id :
  disk s d G -> is_Some (G !! id) -> log_of G L -> FileSys.names s !! (d, hintFile) = None ->
  open_outcome d o s (Opens (abs G (replay L))).
Proof.
  intros Hd Hid HL Hh.
  destruct (OpenWithOptions_scan (boot s) d o G L id) as (w' & x & Ho & HI & _ & Hi); try done.
  { by apply disk_refault. }
  exists w', x. split; [done|]. exists G. split; [done|]. cbn [st]. by rewrite Hi.
Qed.

(** ** Hint files *)

(** A directory whose hint file holds the first [n] bytes of the hint of [I]. *)
Record cut_hint (s : FileSys.FS) (d : bytes) (G : Contents) (I : Index) (n : nat) : Prop := {
  ch_disk : disk s d G;
  ch_some : exists id, is_Some (G !! id);
  ch_index : idx_ok G I;
  ch_fits : hintable I;
  ch_hint : hint_data s d = Some (take n (hint_bytes I));
}.

Lemma hint_data_Some s d c : hint_data s d = Some c ->
  exists ino, FileSys.names s !! (d, hintFile) = Some (FileSys.DFile ino)
    /\ FileSys.data s !! ino = Some c.
Proof. unfold hint_data. intros H. repeat case_match; try done. eauto. Qed.

(** A hint file that does not load makes [Open] fail. *)
Lemma OpenWithOptions_bad_hint w d o G id ino c rd idx e :
  no_faults w -> disk (fs w) d G -> is_Some (G !! id) ->
  FileSys.names (fs w) !! (d, hintFile) = Some (FileSys.DFile ino) ->
  FileSys.data (fs w) !! ino = Some c ->
  LoadHint (MkIoReader c EOF, New) = ((rd, idx), Err e) ->
  exists w', OpenWithOptions d o w = (w', Err (Errorf "store: load hint: %w" e)).
Proof.
  intros Hqw Hd Hid Hn Hc Hl. apply (OpenWithOptions_refuse _ d o G id); [done|done|done|].
  intros x [Hfs Hdx _ _ _ Hops _]. unfold load_index. rewrite self_bind.
  assert (Hq : no_faults (world x)) by (unfold no_faults; by rewrite Hfs).
  assert (Hbad : readHintFile (dir (st x)) (world x) = (world x, Err e)).
  { rewrite Hdx. apply (readHintFile_bad _ _ ino c rd idx);
      [done|by rewrite Hfs|by rewrite Hfs|done]. }
  rewrite (M_bind_Ok _ _ x x (inl e)).
  2:{ eapply attempt_Err. unfold on_world, zoom. rewrite Hbad. by destruct x. }
  pose proof (closeSegments_total x G Hops). unfold ignore, mbind, M_bind, attempt.
  by destruct (closeSegments x) as [? [[]|?|]].
Qed.

Lemma open_cut_hint d o s G I n :
  cut_hint s d G I n ->
  if decide (n < length (hint_bytes I))%nat
  then exists e, hint_error e /\ open_outcome d o s (Refuses (Errorf "store: load hint: %w" e))
  else open_outcome d o s (Opens (abs G I)).
Proof.
  intros [Hd [id Hid] Hi Hf Hh]. apply hint_data_Some in Hh as (ino & Hn & Hc).
  assert (Hd' : disk (fs (boot s)) d G) by (by apply disk_refault).
  pose proof (hintable_kl_ok _ _ _ _ Hd Hi Hf) as Hkl.
  case_decide as Hlt.
  - destruct (LoadHint_prefix I New n EOF Hkl (proj2 Hf) Hlt) as (rd & e & Hl & He).
    exists e. split; [done|].
    by apply (OpenWithOptions_bad_hint (boot s) d o G id ino (take n (hint_bytes I)) rd New).
  - rewrite take_ge in Hc by lia.
    pose proof (LoadHint_hint_bytes I New [] EOF Hkl (proj2 Hf)) as Hl. rewrite app_nil_r in Hl.
    destruct (OpenWithOptions_hint (boot s) d o G I id ino (hint_bytes I) (MkIoReader [] EOF))
      as (w' & x & Ho & HI & _ & Hx); try done.
    exists w', x. split; [done|]. exists G. split; [done|]. cbn [st]. by rewrite Hx.
Qed.
End WithRange.
End AfterCrash.
