(* ===== verification/CrashOps.v ===== *)
(** * A write interrupted anywhere

    [Put] and [Delete] with any fault at any of their system calls.  What the
    next [Open] sees depends on the write of the record alone. *)
From S2P Require Import Prelude LogEntry LogReader Index FileSys Segment Store Wp Repr StoreOps Recovery Opening Durable Session Promote Compaction Restart Faults AfterCrash.
Import LogReader Index Segment Store Wp Repr StoreOps Recovery Opening Durable Session Promote Compaction Restart Faults AfterCrash.

Module CrashOps.

(** The outcome the environment has chosen for the next call. *)
Definition first_fault (s : FileSys.FS) : FileSys.fault :=
  match FileSys.faults s with [] => FileSys.FNone | x :: _ => x end.

(** What [Open] finds after write [op], interrupted as [x] says, on a store
    with map [A]. *)
Definition write_outcome (x : FileSys.fault) (A : gmap bytes bytes) (op : op) : outcome :=
  match x with
  | FileSys.FNone => Opens (apply_op A op)
  | FileSys.FFail => Opens A
  | FileSys.FShort n =>
      if decide (n < length (enc (op_record op)))%nat
      then (if silent_cut n then Opens A else Refuses scan_error)
      else Opens (apply_op A op)
  end.

(** The write of [Append] under the first fault. *)
Lemma wp_Append_first p w sg ino c key value t (Q : World -> res (Z * Z) -> Prop) :
  let b := LogEntry.Encode key value t in
  heap w !! p = Some sg -> f sg = Some ino -> FileSys.data (fs w) !! ino = Some c ->
  blen c + blen b <= FileSys.max_file ->
  match first_fault (fs w) with
  | FileSys.FNone => forall fl, Q (refault_w fl (appended w p sg ino c b)) (Ok (size sg, blen b))
  | FileSys.FFail => forall fl e, Q (refault_w fl w) (Err e)
  | FileSys.FShort n => forall fl e, Q (MkWorld (grown fl w ino c (take n b)) (heap w) (hnext w)) (Err e)
  end ->
  wp (Segment.Append p key value t) w Q.
Proof.
  intros b Hp Hf Hc Hsz HQ. apply wp_bind, (wp_load _ _ _ _ Hp). cbn. rewrite Hf. fold b.
  assert (Hcon : FileSys.content (fs w) ino = c) by by apply FileSys.content_Some.
  apply wp_bind, wp_wrapping, wp_os, wp_bind.
  assert (Hpop : exists fl, FileSys.pop_fault (fs w) = (refault fl (fs w), Ok (first_fault (fs w)))).
  { unfold FileSys.pop_fault, first_fault. destruct (FileSys.faults (fs w)) as [|x l] eqn:E.
    - exists []. f_equal. unfold refault. rewrite <- E. by destruct (fs w).
    - by exists l. }
  destruct Hpop as [fl Hpop]. eapply wp_run; [exact Hpop|]. unfold bind_post.
  destruct (first_fault (fs w)) as [| |n].
  - unfold act, wp. change (FileSys.content (refault fl (fs w))) with (FileSys.content (fs w)).
    rewrite Hcon, (proj2 (Z.ltb_ge _ _)) by done. cbn. rewrite Z.eqb_refl. cbn.
    rewrite <- Hf. apply (HQ fl).
  - cbn. apply HQ.
  - unfold act, wp. cbn. change (FileSys.content (refault fl (fs w))) with (FileSys.content (fs w)).
    rewrite Hcon. apply (HQ fl).
Qed.

Section WithRange.
Context `{!GoRange Z}.

(** ** After the record is on disk *)

(** The segments are those of [G], possibly with a new empty one after [id]. *)
Definition settled_at (s : FileSys.FS) (d : bytes) (G : Contents) (id : Z) : Prop :=
  (disk s d G \/ exists ino, disk s d (<[id + 1 := (ino, [])]> G))
  /\ FileSys.names s !! (d, hintFile) = None.

Lemma wp_rotate x G (Q : State -> res unit -> Prop) :
  Inv x G -> hint_free x -> activeID (st x) + 1 < max_id ->
  (forall x' r, r <> Panic -> settled_at (fs (world x')) (dir (st x)) G (activeID (st x)) -> Q x' r) ->
  wp rotate x Q.
Proof.
  intros HI Hh Hid HQ. destruct (next_id_ok x G HI Hid) as [Hi64 Hrange].
  pose proof (active_next_fresh x G HI) as Hfresh. pose proof (inv_disk _ _ HI) as Hd.
  pose proof (disk_no_segment _ _ _ _ Hd Hfresh Hrange) as Hnone.
  pose proof (disk_create _ _ _ _ Hd Hfresh Hrange) as Hnew.
  assert (Hne : (dir (st x), SegmentName (activeID (st x) + 1)) <> (dir (st x), hintFile))
    by (by apply hint_name_ne).
  unfold rotate. apply wp_self. rewrite Hi64. apply wp_bind, wp_on_world, wp_NewSegment;
    [apply Hd|done|..]; intros fl.
  - intros e. apply HQ; [done|]. split; [left; by apply disk_refault|exact Hh].
  - intros e. apply HQ; [done|]. split; [right|].
    + eexists. apply disk_refault. exact Hnew.
    + cbn. by rewrite lookup_insert_ne.
  - apply HQ; [done|]. split; [right|].
    + eexists. apply (disk_refault fl). exact Hnew.
    + cbn. by rewrite lookup_insert_ne.
Qed.

(** The tail of [Put] after the record has been indexed. *)
Lemma wp_put_tail x G (Q : State -> res unit -> Prop) :
  Inv x G -> hint_free x -> activeID (st x) + 1 < max_id ->
  (forall x' r, r <> Panic -> settled_at (fs (world x')) (dir (st x)) G (activeID (st x)) -> Q x' r) ->
  wp ((if SyncOnWrite (opts (st x)) then on_active Segment.Sync else mret tt) ≫= fun _ =>
      if 0 <? MaxFileSize (opts (st x)) then
        n ← on_active Segment.Size;
        if MaxFileSize (opts (st x)) <? n then rotate else mret tt
      else mret tt) x Q.
Proof.
  intros HI Hh Hid HQ. destruct (Inv_active x G HI) as (p & ino & c & Ha & Hs & HG & Hp).
  assert (Hstay : forall fl r, r <> Panic -> Q (with_faults fl x) r).
  { intros fl r Hr. apply HQ; [done|]. split; [left|exact Hh]. by apply (disk_refault fl), HI. }
  assert (Hrest : forall fl, wp (if 0 <? MaxFileSize (opts (st x)) then
        n ← on_active Segment.Size;
        if MaxFileSize (opts (st x)) <? n then rotate else mret tt
      else mret tt) (with_faults fl x) Q).
  { intros fl. destruct (0 <? _); [|by apply Hstay].
    apply wp_bind, (wp_on_active _ _ p); [done|]. eapply wp_Size; [exact Hp|]. cbn.
    destruct (_ <? _); [|by apply Hstay].
    apply (wp_rotate (with_faults fl x) G); [by apply Inv_with_faults|exact Hh|exact Hid|exact HQ]. }
  apply wp_bind. destruct (SyncOnWrite (opts (st x))).
  - apply (wp_on_active _ _ p); [done|]. eapply wp_Sync; [exact Hp|done|]. intros fl r Hr.
    destruct r as [[]|e|]; [apply (Hrest fl)|by apply (Hstay fl)|done].
  - apply wp_ret. cbn. specialize (Hrest (FileSys.faults (fs (world x)))).
    by rewrite with_faults_id in Hrest.
Qed.

(** Opening what is settled around a whole log. *)
Lemma open_settled d o s G L id :
  settled_at s d G id -> is_Some (G !! id) -> (forall i, is_Some (G !! i) -> i <= id) ->
  log_of G L -> open_outcome d o s (Opens (abs G (replay L))).
Proof.
  intros [[Hd|[ino Hd]] Hh] Hid Hmax HL; [by eapply open_log|].
  assert (Hfresh : G !! (id + 1) = None).
  { destruct (G !! (id + 1)) as [y|] eqn:E; [|done]. specialize (Hmax (id + 1)).
    rewrite E in Hmax. assert (id + 1 <= id) by eauto. lia. }
  rewrite <- (abs_grows G (<[id + 1 := (ino, [])]> G)), <- (replay_rotate L (id + 1));
    [|by apply grows_fresh|by apply idx_ok_replay].
  eapply (open_log d o s _ _ (id + 1)); [done| | |done].
  - rewrite lookup_insert_eq. eauto.
  - apply log_of_rotate; [done|]. intros i Hi%Hmax. lia.
Qed.

Lemma open_settled_insert d o s G L id y :
  settled_at s d (<[id := y]> G) id -> (forall i, is_Some (G !! i) -> i <= id) ->
  log_of (<[id := y]> G) L -> open_outcome d o s (Opens (abs (<[id := y]> G) (replay L))).
Proof.
  intros Hs Hmax. apply (open_settled d o s _ L id Hs).
  - rewrite lookup_insert_eq. eauto.
  - intros i. rewrite lookup_insert_is_Some'. intros [->|Hi]; [lia|by apply Hmax].
Qed.

(** A torn append leaves a prefix of the record at the end of the segment. *)
Lemma disk_grown fl w d G id ino c b n :
  disk (fs w) d G -> G !! id = Some (ino, c) -> blen c + blen b <= FileSys.max_file ->
  disk (grown fl w ino c (take n b)) d (<[id := (ino, c ++ take n b)]> G).
Proof.
  intros Hd HG Hsz. apply (disk_refault fl (FileSys.set_data _ (fs w))), disk_append; [done|done|].
  rewrite blen_app. assert (blen (take n b) <= blen b) by (unfold blen; rewrite length_take; lia). lia.
Qed.

(** ** A whole write *)

(** The write step shared by [Put] and [Delete], followed by [tail]. *)
Definition logging (key value : bytes) (t : bool) (tail : M State unit) : M State unit :=
  r ← on_active (fun p => Append p key value t);
  let '(off, sz) := r in
  update (fun s => set_index (Index.Put key (MkLocation (activeID s) off sz t) (index s)) s) ≫= fun _ => tail.

Lemma wp_write x G L op' o key value t (tail : M State unit) :
  Durable x G L -> op_record op' = MkRec key value t -> readable (MkRec key value t) ->
  room x (blen (enc (MkRec key value t))) 1 ->
  (forall y G' (Q : State -> res unit -> Prop), Inv y G' -> hint_free y ->
     activeID (st y) + 1 < max_id -> opts (st y) = opts (st x) ->
     (forall x' r, r <> Panic -> settled_at (fs (world x')) (dir (st y)) G' (activeID (st y)) -> Q x' r) ->
     wp tail y Q) ->
  wp (logging key value t tail) x
    (fun x' r => r <> Panic
       /\ open_outcome (dir (st x)) o (fs (world x'))
            (write_outcome (first_fault (fs (world x))) (abs G (index (st x))) op')
       /\ (r = Ok tt -> first_fault (fs (world x)) = FileSys.FNone)).
Proof.
  intros HD Hop Hr Hroom Htail. pose proof (dur_inv _ _ _ HD) as HI. pose proof (inv_disk _ _ HI) as Hd.
  destruct (Inv_active x G HI) as (p & ino & c & Ha & Hp & HG & Hh).
  destruct (room_active _ _ _ _ _ _ Hroom Ha Hh) as [Hsz Hid].
  destruct (inv_active _ _ HI) as (_ & Hs & Hmax).
  destruct (log_last _ _ _ (dur_log _ _ _ HD) Hs Hmax) as (L0 & rs & -> & Hlt).
  destruct (log_of_append _ _ _ _ _ _ _ (dur_log _ _ _ HD) Hlt HG Hr) as [-> HL1].
  pose proof (readable_fits _ Hr) as Hfit. cbn in Hfit.
  destruct (Inv_written x G p ino (frames rs) key value t HI Ha Hp HG Hh Hfit Hsz) as [HI1 Habs].
  set (G1 := <[activeID (st x) := (ino, frames rs ++ enc (MkRec key value t))]> G) in *.
  assert (Hnew : forall s, settled_at s (dir (st x)) G1 (activeID (st x)) ->
    open_outcome (dir (st x)) o s (Opens (apply_op (abs G (index (st x))) op'))).
  { intros s Hset. pose proof (open_settled_insert _ o _ _ _ _ _ Hset Hmax HL1) as Ho.
    rewrite replay_append, <- (dur_index _ _ _ HD) in Ho.
    change (open_outcome (dir (st x)) o s
      (Opens (abs G1 (index (st (written x p ino (frames rs) key value t)))))) in Ho.
    rewrite (Habs : abs G1 _ = _) in Ho.
    destruct op' as [k v|k]; cbn in Hop |- *; by injection Hop as <- <- <-. }
  assert (Hdata : FileSys.data (fs (world x)) !! ino = Some (frames rs))
    by (by apply (disk_file _ _ _ Hd (activeID (st x)))).
  apply wp_bind, (wp_on_active _ _ p); [done|]. eapply wp_Append_first; [exact Hh|done|exact Hdata|exact Hsz|].
  destruct (first_fault (fs (world x))) as [| |n]; intros fl.
  - cbn [bind_post]. apply wp_update.
    set (y := MkState _ _). assert (Hy : y = with_faults fl (written x p ino (frames rs) key value t)) by done.
    rewrite Hy. clear Hy y. apply (Htail _ G1); [by apply Inv_with_faults|exact (dur_hint _ _ _ HD)|exact Hid|done|].
    intros x' r Hr' Hset. split_and!; [done| |done]. cbn [write_outcome]. by apply Hnew.
  - intros e. cbn [bind_post]. split_and!; [done| |done]. cbn [write_outcome].
    rewrite (dur_index _ _ _ HD). eapply (open_log _ _ _ _ _ (activeID (st x)));
      [by apply (disk_refault fl)|done|apply HD|apply HD].
  - intros e. cbn [bind_post]. split_and!; [done| |done]. unfold write_outcome. rewrite Hop.
    set (b := enc (MkRec key value t)).
    change (LogEntry.Encode key value t) with b in *.
    pose proof (disk_grown fl _ _ _ _ _ _ b n Hd HG Hsz) as Hdn.
    case_decide as Hn.
    + rewrite (dur_index _ _ _ HD). apply (open_torn_log _ _ _ G L0 (activeID (st x)) rs (MkRec key value t) n);
        [|done|done].
      split; [apply HD| |exact (dur_hint _ _ _ HD)]. exists ino. by split.
    + apply Hnew. split; [left|exact (dur_hint _ _ _ HD)]. cbn [world fs].
      rewrite (take_ge b n) in * by lia. exact Hdn.
Qed.

Lemma wp_run_op x G L op' o :
  Durable x G L -> op_ok op' -> room x (blen (enc (op_record op'))) 1 ->
  wp (run_op op') x
    (fun x' r => r <> Panic
       /\ open_outcome (dir (st x)) o (fs (world x'))
            (write_outcome (first_fault (fs (world x))) (abs G (index (st x))) op')
       /\ (r = Ok tt -> first_fault (fs (world x)) = FileSys.FNone)).
Proof.
  intros HD [Hne Hr] Hroom. pose proof (dur_inv _ _ _ HD) as HI.
  destruct op' as [key value|key]; cbn [run_op op_record] in *.
  - unfold Store.Put. apply wp_self. rewrite (inv_closed _ _ HI).
    destruct (Z.eqb_spec (blen key) 0) as [H0|_]; [by apply blen_zero_inv in H0|].
    apply (wp_write x G L (OpPut key value) o key value false _ HD eq_refl Hr Hroom).
    intros y G' Q HI' Hh Hid Ho HQ. rewrite <- Ho. by apply (wp_put_tail y G' Q).
  - unfold Store.Delete. apply wp_self. rewrite (inv_closed _ _ HI).
    destruct (Z.eqb_spec (blen key) 0) as [H0|_]; [by apply blen_zero_inv in H0|].
    apply (wp_write x G L (OpDelete key) o key [] true _ HD eq_refl Hr Hroom).
    intros y G' Q HI' Hh Hid Ho HQ. rewrite <- Ho.
    destruct (Inv_active y G' HI') as (p & ino & c & Ha & _ & _ & Hp).
    assert (Hstay : forall fl r, r <> Panic -> Q (with_faults fl y) r).
    { intros fl r Hrp. apply HQ; [done|]. split; [left|exact Hh]. by apply (disk_refault fl), HI'. }
    destruct (SyncOnWrite (opts (st y))).
    + apply (wp_on_active _ _ p); [done|]. eapply wp_Sync; [exact Hp|done|]. intros fl r Hrp.
      by apply Hstay.
    + apply wp_ret. specialize (Hstay (FileSys.faults (fs (world y))) (Ok tt)).
      rewrite with_faults_id in Hstay by done. by apply Hstay.
Qed.
End WithRange.
End CrashOps.
