(* ===== verification/SilentCut.v ===== *)
(** * A cut right after the frame header, and the log that goes on behind it

    [Open] takes 17 stray bytes at the end of the active segment for the end of
    the log and appends behind them.  The next scan reads those 17 bytes as the
    header of the record that follows. *)
From S2P Require Import Prelude Crc32 LogEntry LogReader Index FileSys Segment Store Wp Repr StoreOps Recovery Opening Durable Session Faults ShortWrite AfterCrash.
Import Crc32 LogReader Index Segment Store Wp Repr StoreOps Recovery Opening Durable Session Faults ShortWrite AfterCrash.

Module SilentCut.

(** ** Reading behind a stray header *)

(** The header of [r1] in front of the frame of [r2] carries the checksum of
    what follows it. *)
Definition mistaken (r1 r2 : log_record) : bool :=
  let n := blen (rkey r1) + blen (rvalue r1) in
  (n <=? blen (enc r2))
  && (ChecksumIEEE (LogEntry.encodeHeader (LogEntry.header_of (rkey r1) (rvalue r1) (rtomb r1))
                    ++ take (Z.to_nat n) (enc r2))
      =? LogEntry.ComputeCRC (rkey r1) (rvalue r1) (rtomb r1)).

(** The error the reader gives otherwise. *)
Definition stray_error (r1 r2 : log_record) : error :=
  if blen (enc r2) <? blen (rkey r1) + blen (rvalue r1) then LogEntry.ErrCorrupt
  else LogEntry.ErrChecksum.

(** The 17 bytes are the checksum and the header. *)
Lemma take_header r :
  take 17 (enc r) = be_put 4 (LogEntry.ComputeCRC (rkey r) (rvalue r) (rtomb r))
    ++ LogEntry.encodeHeader (LogEntry.header_of (rkey r) (rvalue r) (rtomb r)).
Proof.
  pose proof (LogEntry.Encode_app (rkey r) (rvalue r) (rtomb r) []) as He.
  rewrite !app_nil_r in He. unfold enc. rewrite He, app_assoc.
  by apply (take_app_length' _ _ 17).
Qed.

Lemma Next_stray p r1 r2 :
  readable r1 -> mistaken r1 r2 = false ->
  exists rd', Next (at_ p (take 17 (enc r1) ++ enc r2)) = (rd', Err (stray_error r1 r2)).
Proof.
  intros Hr Hm. pose proof (readable_fits r1 Hr) as Hf.
  destruct (LogEntry.header_of_fits _ _ (rtomb r1) Hf) as [Hk Hv].
  rewrite take_header, <- app_assoc.
  rewrite (Next_header _ _ _ _ _ (LogEntry.header_of (rkey r1) (rvalue r1) (rtomb r1)));
    [|done|apply LogEntry.blen_encodeHeader|apply LogEntry.decodeHeader_header_of].
  cbv zeta. rewrite Hk, Hv. unfold readable in Hr. unfold mistaken in Hm. cbv zeta in Hm.
  rewrite (proj2 (Z.ltb_ge _ _)) by lia. unfold stray_error.
  destruct (Z.ltb_spec (blen (enc r2)) (blen (rkey r1) + blen (rvalue r1))) as [Hl|Hl].
  - by eexists.
  - rewrite (proj2 (Z.leb_le _ _)) in Hm by lia. cbn [andb] in Hm.
    unfold LogEntry.ComputeCRC in Hm |- *. rewrite LogEntry.be_get_put_crc, Hm. by eexists.
Qed.

Lemma stray_not_EOF r1 r2 : errors_Is (stray_error r1 r2) EOF = false.
Proof. unfold stray_error. by destruct (_ <? _). Qed.

(** A scan stops at the first record that cannot be read. *)
Lemma scan_stream_bad id rs tail e idx :
  Forall readable rs -> errors_Is e EOF = false ->
  (forall p, exists rd', Next (at_ p tail) = (rd', Err e)) ->
  scan_stream id (MkIoReader (frames rs ++ tail) EOF) idx = Err (Errorf "store: scan segment %d: %w" e).
Proof.
  intros Hr He Hn. destruct (Hn (0 + blen (frames rs))) as [rd' Hstop].
  pose proof (reads_app 0 rs tail [] rd' e EOF Hr (reads_stop _ _ _ Hstop)) as H.
  unfold scan_stream, NewReader. rewrite (scan_loop_reads _ _ _ _ _ H) by (cbn; lia).
  by rewrite He.
Qed.

Section WithRange.
Context `{!GoRange Z}.

(** Opening refuses a log with such a segment in it. *)
Lemma open_bad_segment d o s G L0 id ids ino rs tail e :
  disk s d G -> FileSys.names s !! (d, hintFile) = None ->
  sorted_ids G = L0.*1 ++ id :: ids ->
  (forall i l, (i, l) ∈ L0 -> Forall readable l /\ exists ino, G !! i = Some (ino, frames l)) ->
  G !! id = Some (ino, frames rs ++ tail) -> Forall readable rs -> errors_Is e EOF = false ->
  (forall p, exists rd', Next (at_ p tail) = (rd', Err e)) ->
  open_outcome d o s (Refuses (Errorf "store: scan segment %d: %w" e)).
Proof.
  intros Hd Hh Hids HL0 HG Hrs He Hn.
  apply (OpenWithOptions_refuse (boot s) d o G id); [done|by apply disk_refault|eauto|].
  intros x [Hfs Hdx _ Hix _ Hops _].
  assert (Hq : quiet x) by (unfold quiet, no_faults; by rewrite Hfs).
  assert (Hdisk : disk (fs (world x)) (dir (st x)) G) by (rewrite Hfs, Hdx; by apply disk_refault).
  destruct (scan_then x L0 id ids G ino (frames rs ++ tail) Hq Hdisk Hops HL0 HG) as (x1 & Hw & Hst & Hsc).
  rewrite (scan_stream_bad id rs tail e) in Hsc by done. rewrite <- Hids in Hsc.
  apply load_index_scan_fails; [done|by rewrite Hfs, Hdx| |by rewrite Hsc].
  intros y e' Hy. rewrite Hsc in Hy. injection Hy as <- _.
  apply (closeSegments_total _ G). by rewrite Hw, Hst.
Qed.

(** ** The whole history *)

(** A write that stops after [k] bytes. *)
Lemma run_op_short x G op k fl p ino c :
  Inv x G -> op_ok op -> active (st x) = Some p -> G !! activeID (st x) = Some (ino, c) ->
  heap (world x) !! p = Some (segment_of (dir (st x)) (activeID (st x)) ino c) ->
  run_op op (with_faults (FileSys.FShort k :: fl) x)
  = (cut_short fl x ino c (take k (enc (op_record op))),
     Err (Errorf "log: append to segment %d: %w" FileSys.EIO)).
Proof.
  intros HI [Hne _] Ha HG Hp. destruct op as [key value|key]; cbn [run_op op_record] in *.
  { by apply (Put_short x G key value k fl p). }
  set (x0 := with_faults _ x). unfold Store.Delete. rewrite self_bind.
  change (st x0) with (st x). rewrite (inv_closed _ _ HI).
  destruct (Z.eqb_spec (blen key) 0) as [H0|_]; [by apply blen_zero_inv in H0|].
  apply M_bind_Err. unfold on_active. rewrite self_bind. change (st x0) with (st x). rewrite Ha.
  unfold on_world, zoom. rewrite (Append_short (world x0) p _ ino c _ _ _ k fl eq_refl Hp eq_refl); [done|].
  by apply (disk_file _ _ _ (inv_disk _ _ HI) (activeID (st x))).
Qed.

Lemma length_enc_pos r : rkey r <> [] -> (17 < length (enc r))%nat.
Proof.
  intros Hne. pose proof (blen_enc r) as Hb. pose proof (blen_nonneg (rvalue r)).
  assert (0 < blen (rkey r)).
  { pose proof (blen_nonneg (rkey r)). destruct (Z.eq_dec (blen (rkey r)) 0) as [E%blen_zero_inv|]; [done|lia]. }
  unfold LogEntry.frameSize, LogEntry.headerSize in Hb. unfold blen in *. lia.
Qed.

(** The segments after the write behind the cut, in the order of their ids. *)
Lemma poisoned_ids G L0 id rs y1 y2 G2 :
  log_of G (L0 ++ [(id, rs)]) ->
  (G2 = <[id := y2]> (<[id := y1]> G)
   \/ exists i', G2 = <[id + 1 := (i', [])]> (<[id := y2]> (<[id := y1]> G))) ->
  exists ids, sorted_ids G2 = L0.*1 ++ id :: ids.
Proof.
  intros HL HG2. pose proof (log_ids_sorted _ _ HL) as Hids. rewrite fmap_app in Hids.
  assert (Hin : is_Some (G !! id)) by (apply (log_ids _ _ id HL); rewrite fmap_app; set_solver).
  destruct HG2 as [->|[i' ->]].
  - exists []. rewrite !sorted_ids_update; [by rewrite <- Hids|done|by rewrite lookup_insert_eq].
  - assert (Hlt : forall i, is_Some (G !! i) -> i < id + 1).
    { intros i Hi%(log_ids _ _ i HL). pose proof (log_sorted _ _ HL) as Hs. rewrite fmap_app in Hs, Hi.
      apply StronglySorted_app in Hs as (Hs & _ & _). apply elem_of_app in Hi as [Hi|Hi].
      - specialize (Hs i id Hi ltac:(by left)). lia.
      - cbn in Hi. apply list_elem_of_singleton in Hi. lia. }
    exists [id + 1]. rewrite insert_insert_eq, (insert_insert_ne _ (id + 1) id) by lia.
    rewrite sorted_ids_update by (rewrite lookup_insert_ne by lia; done).
    rewrite <- (log_ids_sorted _ _ (log_of_rotate _ _ (id + 1) i' HL Hlt)), !fmap_app, <- app_assoc. done.
Qed.

(** The directory after such a cut, and the store [Open] makes of it. *)
Lemma open_after_cut x G L op fl o :
  Durable x G L -> op_ok op ->
  active_size x G + 17 <= FileSys.max_file ->
  exists x1 w s L0 rs ino,
    let id := activeID (st x) in
    let G' := <[id := (ino, frames rs ++ take 17 (enc (op_record op)))]> G in
    run_op op (with_faults (FileSys.FShort 17 :: fl) x)
      = (x1, Err (Errorf "log: append to segment %d: %w" FileSys.EIO))
    /\ OpenWithOptions (dir (st x)) o (boot (fs (world x1))) = (w, Ok s)
    /\ L = L0 ++ [(id, rs)] /\ G !! id = Some (ino, frames rs)
    /\ Inv (MkState w s) G' /\ quiet (MkState w s) /\ hint_free (MkState w s)
    /\ dir s = dir (st x) /\ activeID s = activeID (st x) /\ abs G' (index s) = abs G (index (st x)).
Proof.
  intros HD Hop Hsz. pose proof (dur_inv _ _ _ HD) as HI. pose proof (inv_disk _ _ HI) as Hd.
  destruct (Inv_active x G HI) as (p & ino & c & Ha & Hp & HG & Hh).
  destruct (inv_active _ _ HI) as (_ & Hs & Hmax).
  destruct (log_last _ _ _ (dur_log _ _ _ HD) Hs Hmax) as (L0 & rs & -> & Hlt).
  destruct (log_of_append _ _ _ _ _ _ _ (dur_log _ _ _ HD) Hlt HG (proj2 Hop)) as [-> _].
  pose proof (length_enc_pos _ (proj1 Hop)) as Hlen.
  pose proof (run_op_short x G op 17 fl p ino (frames rs) HI Hop Ha HG Hh) as Hrun.
  set (x1 := cut_short _ _ _ _ _) in Hrun. unfold active_size in Hsz. rewrite HG in Hsz.
  assert (Hd1 : disk (fs (world x1)) (dir (st x))
            (<[activeID (st x) := (ino, frames rs ++ take 17 (enc (op_record op)))]> G)).
  { apply (disk_refault fl (FileSys.set_data _ (fs (world x)))), disk_append; [done|done|].
    rewrite blen_app. assert (blen (take 17 (enc (op_record op))) <= 17)
      by (unfold blen; rewrite length_take; lia). lia. }
  destruct (open_silent_cut (dir (st x)) o (fs (world x1)) G L0 (activeID (st x)) rs (op_record op) 17 ino)
    as (w & s & Ho & HI' & (Hfs & Hds & _) & _ & Habs); try done; [apply HD|apply HD|apply Hop|].
  exists x1, w, s, L0, rs, ino. split_and!; try done.
  - unfold quiet, no_faults. cbn [world]. by rewrite Hfs.
  - unfold hint_free. cbn [world st]. rewrite Hfs, Hds. apply HD.
  - destruct (inv_active _ _ HI') as (_ & Hs' & Hmax'). cbn [st] in *.
    rewrite lookup_insert_is_Some' in Hs'. specialize (Hmax' (activeID (st x))).
    rewrite lookup_insert_eq in Hmax'. specialize (Hmax' ltac:(eauto)).
    destruct Hs' as [<-|Hs'%Hmax]; [done|lia].
  - by rewrite Habs, (dur_index _ _ _ HD).
Qed.

(** Opening after one more write and [Close]. *)
Lemma open_poisoned y G L0 id rs r1 r2 ino G' x2 x3 d o :
  let G1 := <[id := (ino, frames rs ++ take 17 (enc r1))]> G in
  log_of G (L0 ++ [(id, rs)]) -> G !! id = Some (ino, frames rs) -> readable r1 ->
  activeID (st y) = id -> dir (st y) = d -> hint_free y ->
  logged y x2 G1 G' r2 -> Inv x2 G' -> fs (world x3) = fs (world x2) ->
  mistaken r1 r2 = false ->
  open_outcome d o (fs (world x3)) (Refuses (Errorf "store: scan segment %d: %w" (stray_error r1 r2))).
Proof.
  intros G1 HL HG Hr1 Hid Hdir Hh (ino' & c & HG1 & _ & Hd2 & _ & Hn2 & _ & HG') HI2 Hfs Hm. rewrite Hid in *.
  unfold G1 in HG1. rewrite lookup_insert_eq in HG1. injection HG1 as <- <-. rewrite <- app_assoc in HG'.
  set (tail := take 17 (enc r1) ++ enc r2) in *. rewrite Hfs.
  destruct (poisoned_ids G L0 id rs _ (ino, frames rs ++ tail) G' HL HG') as [ids Hids].
  assert (Hne : id + 1 <> id) by lia.
  assert (Hbelow : forall i, i <> id + 1 -> G' !! i = <[id := (ino, frames rs ++ tail)]> G !! i).
  { intros i Hi. destruct HG' as [->|[i' ->]]; [|rewrite lookup_insert_ne by done]; unfold G1; by rewrite insert_insert_eq. }
  apply (open_bad_segment d o _ G' L0 id ids ino rs tail).
  - rewrite <- Hdir, <- Hd2. apply HI2.
  - unfold hint_free in Hh. by rewrite <- Hdir, Hn2.
  - exact Hids.
  - intros i l Hin. rewrite Hbelow; [by apply (log_before_last G L0 id rs)|].
    intros ->. pose proof (log_sorted _ _ HL) as Hs. rewrite fmap_app in Hs.
    apply StronglySorted_app in Hs as (Hs & _ & _). apply (list_elem_of_fmap_2 fst) in Hin.
    specialize (Hs _ id Hin ltac:(by left)). cbn in Hs. lia.
  - rewrite Hbelow by done. apply lookup_insert_eq.
  - apply (log_readable _ _ HL id), elem_of_app. right. by left.
  - apply stray_not_EOF.
  - intros p. by apply Next_stray.
Qed.
End WithRange.
End SilentCut.
