(* ===== verification/MergeFaults.v ===== *)
(** * The steps of [Merge] under any faults

    The copy loop, the hint file and the removal of the old segments, each with
    any fault at any system call: what they can leave in the files. *)
From S2P Require Import Prelude LogEntry LogReader Index FileSys Segment Store Merge Wp Repr StoreOps Recovery Opening Durable MergeOps Promote Compaction Faults AfterCrash.
Import LogReader Index Segment Store Merge Wp Repr StoreOps Recovery Opening Durable MergeOps Promote Compaction Faults AfterCrash.

Module MergeFaults.

(** ** Reading *)

Lemma wp_ReadAt ino n off s pre mid post (Q : FileSys.FS -> res bytes -> Prop) :
  FileSys.content s ino = pre ++ mid ++ post -> off = blen pre -> n = blen mid ->
  (forall fl, Q (refault fl s) (Err FileSys.EIO)) ->
  (forall fl, Q (refault fl s) (Ok mid)) ->
  wp (FileSys.ReadAt ino n off) s Q.
Proof.
  intros Hc Ho Hn He HQ. apply wp_syscall; intros fl; [apply He|].
  pose proof (FileSys.ReadAt_none ino n off (refault [] s) pre mid post eq_refl Hc Ho Hn) as Hr.
  unfold FileSys.ReadAt in Hr. rewrite FileSys.syscall_none in Hr by done.
  unfold wp. revert Hr. change (FileSys.content (refault _ s)) with (FileSys.content s). cbn.
  destruct (off <? 0); [done|]. destruct (_ && _); [done|].
  destruct (_ <? n); [done|]. intros [= Hm]. cbn. by rewrite Hm.
Qed.

Lemma wp_readRecordAt w ino id off pre key value t post (Q : World -> res LogEntry.Entry -> Prop) :
  FileSys.content (fs w) ino = pre ++ LogEntry.Encode key value t ++ post ->
  off = blen pre -> LogEntry.fits key value ->
  (forall fl e, Q (refault_w fl w) (Err e)) ->
  (forall fl e, LogEntry.Key e = key -> LogEntry.Value e = value -> Q (refault_w fl w) (Ok e)) ->
  wp (readRecordAt ino id off) w Q.
Proof.
  intros Hc Ho Hfit He HQ. destruct (LogEntry.header_of_fits key value t Hfit) as [Hk Hv].
  pose proof (blen_nonneg key). pose proof (blen_nonneg value).
  pose proof (LogEntry.Encode_app key value t post) as Hen.
  set (c4 := be_put 4 (LogEntry.ComputeCRC key value t)) in *.
  set (hb := LogEntry.encodeHeader (LogEntry.header_of key value t)) in *.
  assert (Hhb : blen (c4 ++ hb) = 4 + LogEntry.headerSize)
    by (rewrite blen_app; unfold hb; by rewrite LogEntry.blen_encodeHeader).
  apply wp_bind, wp_wrapping, wp_os.
  apply (wp_ReadAt _ _ _ _ pre (c4 ++ hb) (key ++ value ++ post));
    [by rewrite Hc, Hen, <- !app_assoc|done|done|intros fl; apply He|intros fl; cbn [bind_post]].
  pose proof (slice_app c4 hb [] 4 (4 + LogEntry.headerSize) eq_refl
    ltac:(unfold hb; by rewrite LogEntry.blen_encodeHeader)) as Hs.
  rewrite app_nil_r in Hs. unfold wp. rewrite (lift_bind_Ok _ _ _ _ Hs).
  rewrite (lift_bind_Ok _ _ _ _ (LogEntry.decodeHeader_header_of key value t)).
  destruct Hfit as [Hk32 Hv32]. cbv zeta. rewrite Hk, Hv.
  rewrite i64_small by (unfold LogEntry.headerSize; lia).
  apply wp_bind, wp_wrapping, wp_os.
  apply (wp_ReadAt _ _ _ _ pre (LogEntry.Encode key value t) post);
    [exact Hc|done|rewrite LogEntry.blen_Encode; by unfold LogEntry.frameSize
    |intros fl'; apply (He fl')|intros fl'; cbn [bind_post]].
  pose proof (LogEntry.Decode_Encode key value t [] (conj Hk32 Hv32)) as Hd.
  rewrite app_nil_r in Hd. unfold wp. rewrite (lift_bind_Ok _ _ _ _ Hd). by apply (HQ fl').
Qed.

(** ** Files that grow *)

(** The world of [w] except that file [ino] holds [c]. *)
Definition holding (fl : list FileSys.fault) (w : World) (ino : nat) (c : bytes) : World :=
  MkWorld (FileSys.set_data (<[ino := c]> (FileSys.data (fs w))) (refault fl (fs w)))
    (heap w) (hnext w).

Lemma disk_holding fl w ino c d G :
  disk (FileSys.set_data (<[ino := c]> (FileSys.data (fs w))) (fs w)) d G ->
  disk (fs (holding fl w ino c)) d G.
Proof. intros []. by split. Qed.

Lemma wp_file_writer fl w ino c b (Q : World -> res Z -> Prop) :
  (forall fl' b' e, b' `prefix_of` b -> Q (holding fl' w ino (c ++ b')) (Err e)) ->
  (forall fl', Q (holding fl' w ino (c ++ b)) (Ok (blen b))) ->
  wp (file_writer ino b) (holding fl w ino c) Q.
Proof.
  intros He Ho.
  assert (Hc : FileSys.content (fs (holding fl w ino c)) ino = c)
    by (apply FileSys.content_Some; apply lookup_insert_eq).
  assert (Hset : forall fl' d, MkWorld (FileSys.set_data (<[ino := d]>
      (FileSys.data (fs (holding fl w ino c)))) (refault fl' (fs (holding fl w ino c))))
      (heap w) (hnext w) = holding fl' w ino d).
  { intros fl' d. unfold holding. cbn. by rewrite insert_insert_eq. }
  apply wp_os, wp_Write; rewrite ?Hc.
  - intros fl' e. specialize (He fl' [] e (prefix_nil _)). by rewrite app_nil_r in He.
  - intros fl' n e. rewrite Hset. apply He. apply prefix_take.
  - intros fl'. rewrite Hset. apply Ho.
Qed.

(** What writing [b] piece by piece may leave. *)
Definition wrote (w : World) (ino : nat) (c b : bytes) (Q : World -> res unit -> Prop) : Prop :=
  forall fl b' r, r <> Panic -> b' `prefix_of` b -> (r = Ok tt -> b' = b) ->
    Q (holding fl w ino (c ++ b')) r.

Lemma wp_hint_entry fl w ino c kl (Q : World -> res unit -> Prop) :
  wrote w ino c (entry_bytes kl) Q ->
  wp (@writeHintEntry World (file_writer ino) kl) (holding fl w ino c) Q.
Proof.
  intros HQ. apply wp_bind, wp_failing_as, wp_file_writer; [|intros fl1; cbn [bind_post]].
  - intros fl' b' e Hb. cbn [bind_post]. apply HQ; [done| |done]. by apply prefix_app_r.
  - apply wp_bind, wp_failing_as, wp_file_writer; [|intros fl2; cbn [bind_post]].
    + intros fl' b' e Hb. cbn [bind_post]. rewrite <- app_assoc.
      apply HQ; [done| |done]. by apply prefix_app.
    + apply wp_ret. rewrite <- app_assoc. by apply HQ.
Qed.

Lemma wp_hint_entries l fl w ino c (Q : World -> res unit -> Prop) :
  wrote w ino c (concat (entry_bytes <$> l)) Q ->
  wp (range_loop l (@writeHintEntry World (file_writer ino))) (holding fl w ino c) Q.
Proof.
  revert fl c. induction l as [|kl l IH]; intros fl c HQ; cbn [range_loop].
  { apply wp_ret. specialize (HQ fl [] (Ok tt)). rewrite app_nil_r in HQ. by apply HQ. }
  rewrite fmap_cons in HQ. cbn [concat] in HQ.
  apply wp_bind, wp_hint_entry. intros fl' b' r Hr Hb Hw. destruct r as [[]|e|]; [| |done]; cbn [bind_post].
  - rewrite (Hw eq_refl). apply IH. intros fl2 b2 r2 Hr2 Hb2 Hw2. rewrite <- app_assoc.
    apply HQ; [done|by apply prefix_app|]. intros E. by rewrite (Hw2 E).
  - apply HQ; [done| |done]. by apply prefix_app_r.
Qed.

Lemma wp_WriteHint fl w ino idx (Q : World -> res unit -> Prop) :
  wrote w ino [] (hint_bytes idx) Q ->
  wp (@WriteHint World (file_writer ino) idx) (holding fl w ino []) Q.
Proof.
  intros HQ. unfold WriteHint. rewrite Range_all. cbv zeta. unfold hint_bytes in HQ.
  apply wp_bind, wp_failing_as. unfold writeUint64. apply wp_bind, wp_file_writer.
  - intros fl' b' e Hb. cbn [bind_post]. apply HQ; [done| |done]. by apply prefix_app_r.
  - intros fl'. cbn [bind_post]. apply wp_ret. cbn [bind_post app].
    apply wp_hint_entries. intros fl2 b2 r2 Hr2 Hb2 Hw2.
    apply (HQ fl2 (be_put 8 (u64 (blen (pairs idx))) ++ b2)); [done|by apply prefix_app|].
    intros E. by rewrite (Hw2 E).
Qed.

(** ** The hint file *)

(** What [writeHintFile] may leave of the directory: the old hint file, or a
    part of the new one; all of it when it succeeds. *)
Definition hint_after (s s' : FileSys.FS) (d : bytes) (idx : Index) (r : res unit) : Prop :=
  (FileSys.names s' !! (d, hintFile) = FileSys.names s !! (d, hintFile)
     /\ hint_data s' d = hint_data s d /\ r <> Ok tt)
  \/ exists n, hint_data s' d = Some (take n (hint_bytes idx))
       /\ (r = Ok tt -> hint_data s' d = Some (hint_bytes idx)).

(** [os.Create] of the hint file. *)
Lemma wp_create_hint w d G (Q : World -> res nat -> Prop) :
  disk (fs w) d G ->
  (forall fl e, Q (refault_w fl w) (Err e)) ->
  (forall w1 ino, heap w1 = heap w -> hnext w1 = hnext w ->
     (forall fl c, disk (fs (holding fl w1 ino c)) d G) ->
     FileSys.names (fs w1) !! (d, hintFile) = Some (FileSys.DFile ino) ->
     forall fl, Q (holding fl w1 ino []) (Ok ino)) ->
  wp (os (FileSys.Create d hintFile)) w Q.
Proof.
  intros Hd He HQ. apply wp_os, wp_syscall; intros fl; [apply (He fl)|].
  destruct (FileSys.names (fs w) !! (d, hintFile)) as [e|] eqn:E.
  - destruct (disk_hint _ _ _ Hd _ E) as (ino & -> & _). eapply wp_run.
    { cbv beta. change (FileSys.names (refault fl (fs w))) with (FileSys.names (fs w)).
      rewrite E. reflexivity. }
    apply (HQ w ino); [done|done| |done]. intros fl' c. by apply disk_holding, disk_set_hint.
  - set (s1 := FileSys.MkFS (FileSys.dirs (fs w))
      (<[(d, hintFile) := FileSys.DFile (FileSys.next (fs w))]> (FileSys.names (fs w)))
      (<[FileSys.next (fs w) := []]> (FileSys.data (fs w)))
      (S (FileSys.next (fs w))) (FileSys.faults (fs w))).
    assert (Hn : FileSys.names s1 !! (d, hintFile) = Some (FileSys.DFile (FileSys.next (fs w))))
      by apply lookup_insert_eq.
    eapply wp_run.
    { cbv beta. change (FileSys.names (refault fl (fs w))) with (FileSys.names (fs w)).
      rewrite E, bool_decide_eq_true_2 by apply Hd. reflexivity. }
    replace (MkWorld _ _ _) with (holding fl (MkWorld s1 (heap w) (hnext w)) (FileSys.next (fs w)) []).
    2:{ unfold holding. cbn. by rewrite insert_insert_eq. }
    apply HQ; [done|done| |exact Hn]. intros fl' c.
    apply disk_holding, disk_set_hint; [|exact Hn]. by apply disk_create_hint.
Qed.

Lemma wp_writeHintFile w d G idx (Q : World -> res unit -> Prop) :
  disk (fs w) d G ->
  (forall w' r, r <> Panic -> heap w' = heap w -> hnext w' = hnext w ->
     disk (fs w') d G -> hint_after (fs w) (fs w') d idx r -> Q w' r) ->
  wp (writeHintFile d idx) w Q.
Proof.
  intros Hd HQ. apply wp_bind, wp_wrapping. apply (wp_create_hint w d G); [done| |].
  { intros fl e. cbn [bind_post]. apply HQ; [done|done|done|by apply disk_refault|]. by left. }
  intros w1 ino Hh Hx Hd1 Hn1 fl. cbn [bind_post].
  assert (Hpart : forall fl b r, r <> Panic -> b `prefix_of` hint_bytes idx ->
            (r = Ok tt -> b = hint_bytes idx) -> Q (holding fl w1 ino b) r).
  { intros fl' b r Hr Hb Hok. apply HQ; [done|done|done|done|right].
    assert (Hdat : hint_data (fs (holding fl' w1 ino b)) d = Some b).
    { unfold hint_data. change (FileSys.names (fs (holding fl' w1 ino b))) with (FileSys.names (fs w1)).
      rewrite Hn1. apply lookup_insert_eq. }
    exists (length b). rewrite Hdat. split; [|by intros E; rewrite (Hok E)].
    f_equal. destruct Hb as [k ->]. by rewrite take_app_length. }
  apply wp_bind, wp_or_else, wp_WriteHint. intros fl1 b r Hr Hb Hw. cbn [app].
  destruct r as [[]|e|]; [|cbn [bind_post]|done].
  2:{ apply wp_os, wp_fs_Close. intros fl2 r2 Hr2. split; [done|].
      cbn [bind_post]. by apply (Hpart fl2). }
  rewrite (Hw eq_refl). cbn [bind_post]. apply wp_bind, wp_or_else, wp_os, wp_fs_Sync.
  intros fl2 r2 Hr2. destruct r2 as [[]|e|]; [|cbn [bind_post]|done].
  - cbn [bind_post]. apply wp_os, wp_fs_Close. intros fl3 r3 Hr3. by apply (Hpart fl3).
  - apply wp_os, wp_fs_Close. intros fl3 r3 Hr3. split; [done|]. cbn [bind_post].
    by apply (Hpart fl3).
Qed.
End MergeFaults.
