(* ===== verification/MergeCrash.v ===== *)
(** * A compaction interrupted anywhere

    [Merge] with any faults: what it leaves in the directory, and what [Open]
    then makes of it. *)
From S2P Require Import Prelude LogEntry LogReader Index FileSys Segment Store Merge Wp Repr StoreOps Recovery Opening Durable MergeOps Promote Compaction Refine Restart Faults AfterCrash CrashOps MergeFaults.
Import LogReader Index Segment Store Merge Wp Repr StoreOps Recovery Opening Durable MergeOps Promote Compaction Refine Restart Faults AfterCrash CrashOps MergeFaults.

Module MergeCrash.

(** A prefix of a log is whole records followed by a part of the next one. *)
Lemma prefix_frames b (rs : list log_record) :
  b `prefix_of` frames rs ->
  exists j t, b = frames (take j rs) ++ t
    /\ (t = [] \/ exists r n, r ∈ rs /\ t = take n (enc r) /\ (n < length (enc r))%nat).
Proof.
  revert b. induction rs as [|r rs IH]; intros b Hb.
  { apply prefix_nil_inv in Hb as ->. exists 0%nat, []. split; [done|by left]. }
  rewrite frames_cons in Hb. destruct Hb as [k Hk].
  destruct (decide (length b < length (enc r))%nat) as [Hlt|Hge].
  - exists 0%nat, b. split; [done|right]. exists r, (length b). split_and!; [by left| |done].
    pose proof (f_equal (take (length b)) Hk) as Ht.
    by rewrite take_app_length, take_app_le in Ht by lia.
  - pose proof (f_equal (take (length (enc r))) Hk) as Ht.
    rewrite take_app_length, take_app_le in Ht by lia.
    destruct (IH (drop (length (enc r)) b)) as (j & t & Hd & Hor).
    { exists k. pose proof (f_equal (drop (length (enc r))) Hk) as Hd.
      by rewrite drop_app_length, drop_app_le in Hd by lia. }
    exists (S j), t. cbn [take]. rewrite frames_cons, <- app_assoc, <- Hd. split.
    + rewrite Ht at 1. by rewrite take_drop.
    + destruct Hor as [?|(r' & n & Hr & ? & ?)]; [by left|right]. exists r', n.
      split; [by right|done].
Qed.

(** ** The copy loop *)

Lemma refault_w_id w : refault_w (FileSys.faults (fs w)) w = w.
Proof. by destruct w as [[]]. Qed.

Lemma wp_getReader d id readers w G n ino c (Q : World -> res (nat * gmap Z nat) -> Prop) :
  sources w d G n -> readers_ok G readers -> G !! id = Some (ino, c) ->
  (forall fl e, Q (refault_w fl w) (Err e)) ->
  (forall fl readers', readers_ok G readers' -> Q (refault_w fl w) (Ok (ino, readers'))) ->
  wp (getReader d id readers) w Q.
Proof.
  intros Hs Hr HG He HQ. unfold getReader. destruct (readers !! id) as [i|] eqn:E.
  - destruct (Hr _ _ E) as [c' HG']. simplify_eq. apply wp_ret. rewrite <- (refault_w_id w). by apply HQ.
  - destruct (Hs _ _ _ HG) as (Hn & _ & _).
    apply wp_bind, wp_os, wp_syscall; intros fl; [apply (He fl)|]. eapply wp_run.
    { cbv beta. change (FileSys.names (refault fl (fs w))) with (FileSys.names (fs w)).
      rewrite Hn. reflexivity. }
    cbn [bind_post]. apply wp_ret, (HQ fl). intros id' i. rewrite lookup_insert_Some.
    intros [[<- <-]|[_ H]]; eauto.
Qed.

(** The world the loop leaves: [b] more bytes in the new segment. *)
Definition copied (w : World) (p : ptr) (n : nat) (c : bytes) (fl : list FileSys.fault)
    (b : bytes) (sg : Segment) : World :=
  MkWorld (fs (holding fl w n (c ++ b))) (<[p := sg]> (heap w)) (hnext w).

Definition copy_post (w : World) (p : ptr) (d : bytes) (newID : Z) (n : nat) (c : bytes)
    (rs : list log_record) (idx : Index)
    (Q : World -> res (gmap Z nat * (error + Index)) -> Prop) : Prop :=
  forall fl b sg readers res, b `prefix_of` frames rs ->
    (forall idx', res = inr idx' -> b = frames rs /\ sg = segment_of d newID n (c ++ b)
       /\ idx' = index_entries newID (located (blen c) rs) idx) ->
    Q (copied w p n c fl b sg) (Ok (readers, res)).

(** Giving up closes the new segment. *)
Lemma wp_copy_fail (p : ptr) (w : World) (sg : Segment) (readers : gmap Z nat) (err : error) (Q : World -> res (gmap Z nat * (error + Index)) -> Prop) :
  heap w !! p = Some sg ->
  (forall fl sg', Q (MkWorld (refault fl (fs w)) (<[p := sg']> (heap w)) (hnext w))
                    (Ok (readers, inl err))) ->
  wp (ignore (Segment.Close p) ≫= fun _ => mret (readers, inl err)) w Q.
Proof.
  intros Hp HQ. apply wp_bind, wp_ignore, (wp_Close _ _ _ _ Hp). intros fl sg' r Hr.
  split; [done|]. apply HQ.
Qed.

Lemma wp_merge_loop live w d p G newID n c readers idx Q :
  sources w d G n -> readers_ok G readers -> Forall (live_ok G) live ->
  heap w !! p = Some (segment_of d newID n c) -> FileSys.data (fs w) !! n = Some c ->
  copy_post w p d newID n c (live_rec G <$> live) idx Q ->
  wp (merge_loop d p newID live readers idx) w Q.
Proof.
  revert w c readers idx.
  induction live as [|kl live IH]; intros w c readers idx Hs Hr Hl Hp Hc HQ; cbn [merge_loop].
  { apply wp_ret. specialize (HQ (FileSys.faults (fs w)) [] (segment_of d newID n c) readers (inr idx)).
    unfold copied, holding in HQ. rewrite app_nil_r, !insert_id in HQ by done.
    replace (MkWorld _ _ _) with w in HQ by (by destruct w as [[]]).
    apply HQ; [apply prefix_nil|]. by intros idx' [= <-]. }
  apply Forall_cons in Hl as [(v & Hv & _) Hl]. pose proof (live_rec_value _ _ _ Hv) as Hrec.
  destruct Hv as (ino & pre & post & HG & Hoff & _ & Hf).
  rewrite fmap_cons, Hrec in HQ. set (r := MkRec (Index.Key kl) v false) in *.
  destruct (Hs _ _ _ HG) as (_ & Hdata & _).
  assert (Hfail : forall fl rd err, wp (ignore (Segment.Close p) ≫= fun _ => mret (rd, inl err))
                    (refault_w fl w) Q).
  { intros fl rd err. eapply wp_copy_fail; [exact Hp|]. intros fl' sg'.
    specialize (HQ fl' [] sg' rd (inl err) (prefix_nil _) ltac:(done)).
    unfold copied, holding in HQ. by rewrite app_nil_r, (insert_id (FileSys.data (fs w))) in HQ. }
  apply wp_bind, wp_attempt. apply (wp_getReader d _ readers w G n ino _ _ Hs Hr HG).
  { intros fl e. apply (Hfail fl). }
  intros fl readers' Hr'. cbn [bind_post].
  apply wp_bind, wp_attempt. eapply (wp_readRecordAt (refault_w fl w));
    [by apply (FileSys.content_Some (fs w))|exact Hoff|exact Hf| |].
  { intros fl' e. apply (Hfail fl'). }
  intros fl' e He1 He2. cbn [bind_post]. rewrite He1, He2.
  apply wp_bind, wp_attempt. eapply wp_Append; [exact Hp|done|exact Hc| |].
  - intros fl2 m err. cbn [bind_post]. eapply wp_copy_fail; [exact Hp|]. intros fl3 sg'.
    apply (HQ fl3 (take m (enc r)) sg' readers' (inl err)); [rewrite frames_cons; apply prefix_app_r, prefix_take|done].
  - intros fl2. cbn [bind_post]. set (w2 := MkWorld _ _ _).
    apply (IH w2 (c ++ enc r)); [|done|done| | |].
    + intros id' ino' c' H'. destruct (Hs _ _ _ H') as (? & ? & ?). split_and!; [done| |done].
      cbn [w2 grown fs FileSys.set_data FileSys.data]. by rewrite lookup_insert_ne.
    + cbn [w2 heap]. rewrite lookup_insert_eq. unfold segment_of. cbn. by rewrite blen_app.
    + cbn [w2 grown fs FileSys.set_data FileSys.data]. by rewrite lookup_insert_eq.
    + intros fl3 b sg rd res Hb Hres.
      replace (copied w2 p n (c ++ enc r) fl3 b sg) with (copied w p n c fl3 (enc r ++ b) sg).
      2:{ unfold copied, holding, w2, grown. cbn [fs heap hnext FileSys.set_data FileSys.data].
          by rewrite !insert_insert_eq, app_assoc. }
      apply HQ; [rewrite frames_cons; by apply prefix_app|]. intros idx' E.
      destruct (Hres _ E) as (-> & -> & ->). rewrite <- app_assoc. split_and!; [done|done|].
      cbn [located]. by rewrite blen_app.
Qed.

(** ** Removing the old segments *)

(** The store can still be walked: every segment object exists. *)
Definition walkable (x : State) : Prop :=
  forall id p, segments (st x) !! id = Some p -> is_Some (heap (world x) !! p).

(** The directory while old segments disappear: segment [newID] holds [y] and
    the hint file [h]. *)
Definition removing (s : FileSys.FS) (d : bytes) (newID : Z) (y : nat * bytes) (h : option bytes) : Prop :=
  (exists G, disk s d G /\ G !! newID = Some y) /\ hint_data s d = h.

Lemma removing_refault fl s d newID y h : removing s d newID y h -> removing (refault fl s) d newID y h.
Proof. intros [(G & Hd & HG) Hh]. split; [|exact Hh]. exists G. split; [by apply disk_refault|done]. Qed.

Lemma wp_drop_segment id x (Q : State -> res unit -> Prop) :
  walkable x ->
  (forall x', walkable x' -> dir (st x') = dir (st x) ->
     (exists fl, fs (world x') = refault fl (fs (world x))) -> Q x' (Ok tt)) ->
  wp (drop_segment id) x Q.
Proof.
  intros Hw HQ. unfold drop_segment. apply wp_self. apply wp_bind.
  assert (Hdel : forall h : gmap ptr Segment, (forall p, is_Some (heap (world x) !! p) -> is_Some (h !! p)) ->
            forall id' p, delete id (segments (st x)) !! id' = Some p -> is_Some (h !! p)).
  { intros h Hh id' p [_ H]%lookup_delete_Some. by eapply Hh, Hw. }
  destruct (segments (st x) !! id) as [p|] eqn:E.
  - destruct (Hw _ _ E) as [sg Hsg]. apply wp_ignore, wp_on_world, (wp_Close _ _ _ _ Hsg).
    intros fl sg' r Hr. split; [done|]. cbn [bind_post]. apply HQ; [|done|by exists fl].
    refine (Hdel (<[p := sg']> (heap (world x))) _). intros q Hq. rewrite lookup_insert_is_Some'. by right.
  - apply wp_ret. cbn [bind_post]. apply HQ; [|done|].
    + by refine (Hdel (heap (world x)) _).
    + exists (FileSys.faults (fs (world x))). cbn. by destruct (fs (world x)).
Qed.

Lemma wp_remove_segment x id newID y h fmt (Q : State -> res unit -> Prop) :
  id <> newID -> 0 <= id < max_id -> 0 <= newID < max_id ->
  removing (fs (world x)) (dir (st x)) newID y h ->
  (forall s r, r <> Panic -> removing s (dir (st x)) newID y h ->
     Q (MkState (MkWorld s (heap (world x)) (hnext (world x))) (st x)) r) ->
  wp (remove_file (dir (st x)) (SegmentName id) fmt) x Q.
Proof.
  intros Hne Hid Hnew Hrm HQ.
  assert (Hstay : forall fl r, r <> Panic -> Q (MkState (refault_w fl (world x)) (st x)) r).
  { intros fl r Hr. apply HQ; [done|]. by apply removing_refault. }
  unfold remove_file. apply wp_bind, wp_attempt, wp_on_world, wp_os, wp_syscall; intros fl.
  { by apply (Hstay fl). }
  unfold wp. cbv beta. change (FileSys.names (refault fl (fs (world x)))) with (FileSys.names (fs (world x))).
  destruct (FileSys.names (fs (world x)) !! (dir (st x), SegmentName id)) as [e|] eqn:E;
    [|by apply (Hstay fl)].
  destruct Hrm as [(G & Hd & HG) Hh]. destruct (disk_segment_file _ _ _ _ _ Hd Hid E) as (Hs & ino & ->).
  cbn [fst snd bind_post]. apply (HQ (FileSys.set_names _ (refault fl (fs (world x))))); [done|]. split.
  - exists (delete id G). split; [|by rewrite lookup_delete_ne].
    exact (disk_refault fl _ _ _ (disk_remove _ _ _ _ Hd Hs)).
  - rewrite <- Hh. unfold hint_data. cbn [FileSys.set_names FileSys.names FileSys.data refault].
    rewrite lookup_delete_ne; [done|]. by apply hint_name_ne.
Qed.

Section WithRange.
Context `{!GoRange Z}.

Lemma wp_remove_loop x l newID y h (Q : State -> res unit -> Prop) :
  walkable x -> 0 <= newID < max_id -> Forall (fun id => 0 <= id < max_id) l ->
  removing (fs (world x)) (dir (st x)) newID y h ->
  (forall x' r, r <> Panic -> dir (st x') = dir (st x) ->
     removing (fs (world x')) (dir (st x)) newID y h -> Q x' r) ->
  wp (range_loop l (fun id =>
        drop_segment id ≫= fun _ =>
        if id =? newID then mret tt
        else remove_file (dir (st x)) (SegmentName id) "store: remove old segment %d: %w")) x Q.
Proof.
  intros Hw Hnew Hl Hrm HQ.
  apply (wp_range_loop _ _ _ (fun l' x' => Forall (fun id => 0 <= id < max_id) l' /\ walkable x'
    /\ dir (st x') = dir (st x) /\ removing (fs (world x')) (dir (st x)) newID y h)).
  - done.
  - intros id l' x' ((Hid & Hl')%Forall_cons & Hw' & Hd & Hrm'). apply wp_bind, wp_drop_segment; [done|].
    intros x1 Hw1 Hd1 [fl Hfs]. cbn [bind_post].
    assert (Hrm1 : removing (fs (world x1)) (dir (st x)) newID y h)
      by (rewrite Hfs; by apply removing_refault).
    destruct (Z.eqb_spec id newID) as [->|Hne].
    + apply wp_ret. split_and!; [done|done|congruence|done].
    + rewrite <- Hd, <- Hd1 in Hrm1 |- *. apply (wp_remove_segment x1 id newID y h); try done.
      intros s r Hr Hrm2.
      destruct r as [[]|e|]; [| |done].
      * split_and!; [done|exact Hw1|cbn; congruence|exact Hrm2].
      * rewrite Hd1, Hd in Hrm2. apply HQ; [done|cbn; congruence|exact Hrm2].
  - intros x' (_ & _ & Hd & Hrm'). by apply HQ.
Qed.
End WithRange.
End MergeCrash.
