(* ===== verification/MergeRecovery.v ===== *)
(** * Opening after an interrupted compaction *)
From S2P Require Import Prelude LogEntry LogReader Index FileSys Segment Store Merge Wp Repr StoreOps Recovery Opening Durable MergeOps Promote Compaction Refine Restart Faults AfterCrash CrashOps MergeFaults MergeCrash.
Import LogReader Index Segment Store Merge Wp Repr StoreOps Recovery Opening Durable MergeOps Promote Compaction Refine Restart Faults AfterCrash CrashOps MergeFaults MergeCrash.

Module MergeRecovery.

(** ** The files [Merge] may leave *)

Definition same_hint (s s' : FileSys.FS) (d : bytes) : Prop :=
  FileSys.names s' !! (d, hintFile) = FileSys.names s !! (d, hintFile)
  /\ hint_data s' d = hint_data s d.

(** Before the new segment exists, while it is being filled, and from the
    creation of the hint file on. *)
Inductive merge_files (s s' : FileSys.FS) (d : bytes) (G : Contents) (newID : Z)
    (rs : list log_record) (idx : Index) : Prop :=
  | mf_before : disk s' d G -> same_hint s s' d -> merge_files s s' d G newID rs idx
  | mf_copying n b : b `prefix_of` frames rs -> disk s' d (<[newID := (n, b)]> G) ->
      same_hint s s' d -> merge_files s s' d G newID rs idx
  | mf_hint n k : removing s' d newID (n, frames rs) (Some (take k (hint_bytes idx))) ->
      merge_files s s' d G newID rs idx.

Definition merge_done (s' : FileSys.FS) (d : bytes) (newID : Z) (rs : list log_record)
    (idx : Index) : Prop :=
  exists n, removing s' d newID (n, frames rs) (Some (hint_bytes idx)).

Section WithRange.
Context `{!GoRange Z}.

Lemma wp_promote x p sg newID n y idx G1 (Q : State -> res unit -> Prop) :
  walkable x -> heap (world x) !! p = Some sg -> f sg = Some n ->
  Forall (fun id => 0 <= id < max_id) (go_range (segments (st x))).*1 -> 0 <= newID < max_id ->
  disk (fs (world x)) (dir (st x)) G1 -> G1 !! newID = Some y ->
  (forall x' r, r <> Panic -> r <> Ok tt -> disk (fs (world x')) (dir (st x)) G1 ->
     same_hint (fs (world x)) (fs (world x')) (dir (st x)) -> Q x' r) ->
  (forall x' r k, r <> Panic ->
     removing (fs (world x')) (dir (st x)) newID y (Some (take k (hint_bytes idx))) ->
     (r = Ok tt -> removing (fs (world x')) (dir (st x)) newID y (Some (hint_bytes idx))) ->
     Q x' r) ->
  wp (promote p newID idx) x Q.
Proof.
  intros Hw Hp Hf Hids Hnew Hd HG1 Hearly Hlate.
  apply wp_bind, wp_or_else, wp_on_world. apply (wp_Sync _ _ _ _ _ Hp Hf). intros fl r Hr.
  destruct r as [[]|e|]; [| |done].
  2:{ apply wp_on_world, (wp_Close p (refault_w fl (world x)) sg _ Hp). intros fl2 sg' r2 Hr2. split; [done|]. cbn [bind_post].
      apply Hearly; [done|done|exact (disk_refault fl2 _ _ _ Hd)|done]. }
  cbn [bind_post]. apply wp_self. cbn [st].
  apply wp_bind, wp_or_else, wp_on_world.
  apply (wp_writeHintFile (refault_w fl (world x)) (dir (st x)) G1); [by apply disk_refault|].
  intros w' r2 Hr2 Hh Hx Hd1 Hhint.
  destruct r2 as [[]|e|]; [| |done].
  2:{ apply wp_on_world, (wp_Close p w' sg); [by rewrite <- Hp, Hh|]. intros fl2 sg' r3 Hr3. split; [done|]. cbn [bind_post].
      destruct Hhint as [(Hn & Hdat & _)|(k & Hdat & _)].
      - apply Hearly; [done|done|by apply (disk_refault fl2)|done].
      - apply (Hlate _ _ k); [done| |done]. split; [|exact Hdat].
        exists G1. split; [by apply (disk_refault fl2)|done]. }
  destruct Hhint as [(_ & _ & Hne)|(k & _ & Hdat)]; [done|]. cbn [bind_post].
  specialize (Hdat eq_refl). apply wp_bind.
  apply (wp_remove_loop (MkState w' (st x)) _ newID y (Some (hint_bytes idx))); try done.
  - intros id q Hq. cbn. rewrite Hh. by apply (Hw id).
  - split; [|done]. by exists G1.
  - intros x' r3 Hr3 _ Hrm. cbn [st world] in Hrm.
    destruct r3 as [[]|e|]; [| |done]; cbn [bind_post];
      apply (Hlate _ _ (length (hint_bytes idx))); rewrite ?firstn_all; done.
Qed.

(** ** [Merge] *)

Lemma wp_close_readers (readers : gmap Z nat) w (Q : World -> res unit -> Prop) :
  (forall fl, Q (refault_w fl w) (Ok tt)) -> wp (close_readers readers) w Q.
Proof.
  intros HQ. apply (wp_range_loop _ _ _ (fun _ w' => exists fl, w' = refault_w fl w)).
  - exists (FileSys.faults (fs w)). by rewrite refault_w_id.
  - intros ino l w' [fl ->]. apply wp_ignore, wp_os, wp_fs_Close. intros fl' r Hr.
    split; [done|]. by exists fl'.
  - intros w' [fl ->]. apply HQ.
Qed.

Lemma removing_same s s' d newID y h :
  (exists fl, s' = refault fl s) -> removing s d newID y h -> removing s' d newID y h.
Proof. intros [fl ->]. apply removing_refault. Qed.

Lemma merge_files_same s0 s s' d G newID rs idx :
  (exists fl, s' = refault fl s) -> merge_files s0 s d G newID rs idx ->
  merge_files s0 s' d G newID rs idx.
Proof.
  intros [fl ->] [Hd Hh|n b Hb Hd Hh|n k Hr].
  - apply mf_before; [by apply disk_refault|done].
  - eapply mf_copying; [done|by apply disk_refault|done].
  - eapply mf_hint. by apply removing_refault.
Qed.

Lemma Inv_walkable x G : Inv x G -> walkable x.
Proof.
  intros HI id p Hp. destruct (opens_segment _ _ _ _ _ (inv_opens _ _ HI) Hp) as (? & ? & _ & Hh & _).
  eauto.
Qed.

Lemma range_ids_ok x G : Inv x G -> Forall (fun id => 0 <= id < max_id) (go_range (segments (st x))).*1.
Proof.
  intros HI. rewrite Forall_forall. intros id Hid%elem_of_range_ids.
  by apply (disk_id _ _ _ (inv_disk _ _ HI)), (opens_Some _ _ _ _ (inv_opens _ _ HI)).
Qed.

(** Writing the new segment leaves the hint file alone. *)
Lemma created_hint w d G newID fl fl' c :
  disk (fs w) d G -> 0 <= newID < max_id ->
  same_hint (fs w) (fs (holding fl' (refault_w fl (created w d newID)) (FileSys.next (fs w)) c)) d.
Proof.
  intros Hd Hrange. set (s := fs (holding _ _ _ _)).
  assert (Hn : FileSys.names s !! (d, hintFile) = FileSys.names (fs w) !! (d, hintFile)).
  { cbn. rewrite lookup_insert_ne; [done|]. by apply hint_name_ne. }
  split; [exact Hn|]. unfold hint_data. rewrite Hn.
  destruct (FileSys.names (fs w) !! (d, hintFile)) as [[i|]|] eqn:E; try done.
  apply (disk_fresh _ _ _ Hd) in E. cbn. rewrite !lookup_insert_ne by lia. done.
Qed.

(** The new segment may hold any prefix of what fits into a file. *)
Lemma created_holding w d G newID fl fl' b c :
  disk (fs w) d G -> G !! newID = None -> 0 <= newID < max_id ->
  b `prefix_of` c -> blen c <= FileSys.max_file ->
  disk (fs (holding fl' (refault_w fl (created w d newID)) (FileSys.next (fs w)) b)) d
    (<[newID := (FileSys.next (fs w), b)]> G).
Proof.
  intros Hd Hfresh Hrange [k ->] Hsz. set (n := FileSys.next (fs w)). apply disk_holding.
  rewrite <- (insert_insert_eq G newID (n, b) (n, [])).
  apply (disk_append _ d _ newID n [] b (disk_refault fl _ _ _ (created_disk w d G newID Hd Hfresh Hrange)));
    [apply lookup_insert_eq|].
  rewrite blen_app in Hsz. pose proof (blen_nonneg k). cbn [app]. lia.
Qed.

(** Closing the readers and returning the copy's result. *)
Lemma wp_merge_end x0 G newID rs idx readers (r0 : error + unit) x (Q : State -> res unit -> Prop) :
  let d := dir (st x0) in
  merge_files (fs (world x0)) (fs (world x)) d G newID rs idx ->
  (r0 = inr tt -> merge_done (fs (world x)) d newID rs idx) ->
  (forall x' r, r <> Panic ->
     merge_files (fs (world x0)) (fs (world x')) d G newID rs idx ->
     (r = Ok tt -> merge_done (fs (world x')) d newID rs idx) -> Q x' r) ->
  wp (on_world (close_readers readers) ≫= fun _ =>
      match r0 with inl err => throw err | inr _ => mret tt end) x Q.
Proof.
  intros d Hm Hok HQ. apply wp_bind, wp_on_world, wp_close_readers. intros fl. cbn [bind_post].
  assert (Hm' : merge_files (fs (world x0)) (refault fl (fs (world x))) d G newID rs idx)
    by (eapply merge_files_same; [by exists fl|done]).
  destruct r0 as [err|[]]; apply HQ; try done. intros _. destruct (Hok eq_refl) as [n Hrm].
  exists n. by apply (removing_refault fl).
Qed.

(** From the copy loop to the end, in the world [w1] where the new segment has
    just been created. *)
Lemma wp_merge_tail x G fl newID (Q : State -> res unit -> Prop) :
  let d := dir (st x) in let p := hnext (world x) in let n := FileSys.next (fs (world x)) in
  let rs := compact G (index (st x)) in
  let w1 := refault_w fl (created (world x) d newID) in
  Inv x G -> newID = activeID (st x) + 1 -> 0 <= newID < max_id -> G !! newID = None ->
  blen (frames rs) <= FileSys.max_file ->
  (forall x' r, r <> Panic ->
     merge_files (fs (world x)) (fs (world x')) d G newID rs (merged_index newID G (index (st x))) ->
     (r = Ok tt -> merge_done (fs (world x')) d newID rs (merged_index newID G (index (st x)))) ->
     Q x' r) ->
  wp (rr ← on_world (merge_loop d p newID (LiveEntries (index (st x))) ∅ Index.New);
      let '(readers, r) := rr in
      res ← attempt (match r with
                     | inl err => throw err
                     | inr newIndex => promote p newID newIndex
                     end);
      on_world (close_readers readers) ≫= fun _ =>
      match res with
      | inl err => throw err
      | inr _ => mret tt
      end) (MkState w1 (st x)) Q.
Proof.
  intros d p n rs w1 HI Hid Hrange Hfresh Hsz HQ. set (idx := merged_index newID G (index (st x))) in *.
  pose proof (inv_disk _ _ HI) as Hd.
  pose proof (created_sources (world x) d G newID Hd Hfresh Hrange : sources w1 d G n) as Hsrc.
  apply wp_bind, wp_on_world.
  apply (wp_merge_loop _ w1 d p G newID n [] ∅ Index.New); [done|done|by apply LiveEntries_ok, HI| | |].
  { cbn. apply lookup_insert_eq. }
  { cbn. apply lookup_insert_eq. }
  intros fl2 b sg readers res Hb Hres. fold rs in Hb, Hres. cbn [bind_post].
  change (MkState (copied w1 p n [] fl2 b sg) (st (MkState w1 (st x))))
    with (MkState (copied w1 p n [] fl2 b sg) (st x)).
  set (w2 := copied w1 p n [] fl2 b sg).
  assert (Hd2 : disk (fs w2) d (<[newID := (n, b)]> G))
    by (by apply (created_holding _ _ _ _ _ _ _ (frames rs))).
  assert (Hs2 : same_hint (fs (world x)) (fs w2) d) by (by apply (created_hint _ _ G)).
  apply wp_bind, wp_attempt.
  destruct res as [err|newIndex].
  { cbn [bind_post]. apply wp_throw. apply (wp_merge_end x G newID rs idx readers (inl err)); [|done|exact HQ]. eapply mf_copying; [exact Hb|done|done]. }
  destruct (Hres _ eq_refl) as (-> & -> & ->). cbn [app] in *.
  change (index_entries newID (located (blen []) rs) Index.New) with idx.
  assert (Hw2 : walkable (MkState w2 (st x))).
  { intros id q Hq. destruct (Inv_walkable x G HI id q Hq) as [sg Hsg]. cbn in Hsg |- *.
    rewrite !lookup_insert_is_Some'. rewrite Hsg. eauto. }
  apply (wp_promote (MkState w2 (st x)) p (segment_of d newID n (frames rs)) newID n
    (n, frames rs) idx (<[newID := (n, frames rs)]> G)); try done.
  - apply lookup_insert_eq.
  - by apply (range_ids_ok x G).
  - apply lookup_insert_eq.
  - intros x' r Hr Hr' Hd' Hs'. assert (Hm : merge_files (fs (world x)) (fs (world x')) d G newID rs idx).
    { eapply mf_copying; [by exists []; rewrite app_nil_r|exact Hd'|]. destruct Hs2 as [A B], Hs' as [C D].
      split; [exact (eq_trans C A)|exact (eq_trans D B)]. }
    destruct r as [[]|e|]; [done| |done]. by apply (wp_merge_end x G newID rs idx readers (inl e)).
  - intros x' r k Hr Hrm Hok. destruct r as [[]|e|]; [| |done].
    + apply (wp_merge_end x G newID rs idx readers (inr tt)); [by eapply mf_hint| |exact HQ]. intros _. exists n. by apply Hok.
    + apply (wp_merge_end x G newID rs idx readers (inl e)); [by eapply mf_hint|done|exact HQ].
Qed.

Lemma wp_Merge x G (Q : State -> res unit -> Prop) :
  let newID := activeID (st x) + 1 in
  let rs := compact G (index (st x)) in
  let idx := merged_index newID G (index (st x)) in
  Inv x G -> LiveEntries (index (st x)) <> [] -> newID < max_id ->
  blen (frames rs) <= FileSys.max_file ->
  (forall x' r, r <> Panic ->
     merge_files (fs (world x)) (fs (world x')) (dir (st x)) G newID rs idx ->
     (r = Ok tt -> merge_done (fs (world x')) (dir (st x)) newID rs idx) -> Q x' r) ->
  wp Merge x Q.
Proof.
  intros newID rs idx HI Hlive Hid Hsz HQ.
  destruct (next_id_ok x G HI Hid) as [Hi64 Hrange]. pose proof (inv_disk _ _ HI) as Hd.
  pose proof (active_next_fresh x G HI) as Hfresh. fold newID in Hi64, Hrange, Hfresh.
  pose proof (disk_no_segment _ _ _ _ Hd Hfresh Hrange) as Hnone.
  destruct (Inv_active x G HI) as (p0 & ino & c & Ha & _ & _ & Hp0).
  unfold Merge. apply wp_self. rewrite (inv_closed _ _ HI). apply wp_bind.
  apply (wp_on_active _ _ p0 _ Ha). eapply wp_Sync; [exact Hp0|done|]. intros fl r Hr.
  destruct r as [[]|e|]; [| |done]; cbn [bind_post].
  2:{ apply HQ; [done| |done]. apply mf_before; [by apply disk_refault|done]. }
  cbv zeta. rewrite bool_decide_eq_false_2 by (by destruct (LiveEntries (index (st x)))).
  rewrite Hi64. apply wp_bind, wp_on_world.
  assert (HI' : Inv (with_faults fl x) G) by (by apply Inv_with_faults).
  assert (Hcopy : forall fl2, merge_files (fs (world x))
            (refault fl2 (fs (created (world x) (dir (st x)) newID))) (dir (st x)) G newID rs idx).
  { intros fl2. eapply (mf_copying _ _ _ _ _ _ _ _ []); [apply prefix_nil| |].
    - apply disk_refault. exact (disk_create _ _ _ _ Hd Hfresh Hrange).
    - assert (Hne : (dir (st x), SegmentName newID) <> (dir (st x), hintFile)) by (by apply hint_name_ne).
      assert (Hn : FileSys.names (refault fl2 (fs (created (world x) (dir (st x)) newID))) !! (dir (st x), hintFile)
        = FileSys.names (fs (world x)) !! (dir (st x), hintFile)) by (cbn; by rewrite lookup_insert_ne).
      split; [exact Hn|]. unfold hint_data. rewrite Hn.
      destruct (FileSys.names (fs (world x)) !! (dir (st x), hintFile)) as [[i|]|] eqn:E; try done.
      apply (disk_fresh _ _ _ Hd) in E. cbn. rewrite lookup_insert_ne by lia. done. }
  apply (wp_NewSegment _ _ (world (with_faults fl x))); [apply Hd|exact Hnone|..]; intros fl2.
  - intros e. cbn [bind_post]. apply HQ; [done| |done].
    apply mf_before; [exact (disk_refault fl2 _ _ _ Hd)|done].
  - intros e. cbn [bind_post]. apply HQ; [done|apply Hcopy|done].
  - cbn [bind_post]. apply (wp_merge_tail (with_faults fl x) G fl2 newID);
      [exact HI'|done|exact Hrange|exact Hfresh|exact Hsz|].
    intros x' r Hr' Hm Hok. apply HQ; [done| |exact Hok].
    destruct Hm; [by apply mf_before|by eapply mf_copying|by eapply mf_hint].
Qed.

(** ** What [Open] makes of them *)

(** How opening directory [d] finds the map of the segments [G]. *)
Inductive opens_by (s : FileSys.FS) (d : bytes) (G : Contents) : gmap bytes bytes -> Prop :=
  | by_log L : log_of G L -> FileSys.names s !! (d, hintFile) = None ->
      opens_by s d G (abs G (replay L))
  | by_hint I : hint_data s d = Some (hint_bytes I) -> idx_ok G I -> hintable I ->
      opens_by s d G (abs G I).

Lemma Durable_opens_by x G L :
  Durable x G L -> opens_by (fs (world x)) (dir (st x)) G (abs G (index (st x))).
Proof. intros HD. rewrite (dur_index _ _ _ HD). apply by_log; apply HD. Qed.

(** The map [A], or a refusal to open a torn log or a torn hint file: never
    another map. *)
Definition safe_outcome (d : bytes) (o : Options) (s : FileSys.FS) (A : gmap bytes bytes) : Prop :=
  open_outcome d o s (Opens A) \/ open_outcome d o s (Refuses scan_error)
  \/ exists e, hint_error e /\ open_outcome d o s (Refuses (Errorf "store: load hint: %w" e)).

Lemma cut_hint_safe d o s G I n : cut_hint s d G I n -> safe_outcome d o s (abs G I).
Proof.
  intros H. apply (open_cut_hint d o) in H. case_decide; [right; by right|by left].
Qed.

Lemma whole_hint_opens d o s G I id :
  disk s d G -> is_Some (G !! id) -> idx_ok G I -> hintable I ->
  hint_data s d = Some (hint_bytes I) -> open_outcome d o s (Opens (abs G I)).
Proof.
  intros Hd Hid Hi Hf Hh.
  assert (Hc : cut_hint s d G I (length (hint_bytes I))) by (split; [done|eauto|done|done|by rewrite firstn_all]).
  apply (open_cut_hint d o) in Hc. by rewrite decide_False in Hc by lia.
Qed.

Lemma log_of_extend G L id ino rs :
  log_of G L -> (forall i, is_Some (G !! i) -> i < id) -> Forall readable rs ->
  log_of (<[id := (ino, frames rs)]> G) (L ++ [(id, rs)]).
Proof.
  intros HL Hm. induction rs as [|r rs IH] using rev_ind; intros Hr; [by apply log_of_rotate|].
  apply Forall_app in Hr as [Hrs [Hr _]%Forall_cons].
  destruct (log_of_append _ _ _ _ ino (frames rs) r (IH Hrs) (log_bound _ _ _ HL Hm)) as [_ H];
    [apply lookup_insert_eq|done|]. by rewrite insert_insert_eq, <- frames_snoc in H.
Qed.

(** Replaying copies of live records changes nothing. *)
Lemma abs_copied G L id ino idx j :
  let rs := compact G idx in
  log_of G L -> (forall i, is_Some (G !! i) -> i < id) -> idx_ok G idx ->
  abs G idx = abs G (replay L) ->
  abs (<[id := (ino, frames (take j rs))]> G) (replay (L ++ [(id, take j rs)])) = abs G (replay L).
Proof.
  intros rs HL Hm Hi HA. set (G1 := <[id := _]> G).
  assert (HG1 : G1 !! id = Some (ino, frames (take j rs))) by apply lookup_insert_eq.
  assert (Hfit : Forall fitting (take j rs)) by (by apply Forall_take, compact_fitting).
  assert (Hfresh : G !! id = None).
  { destruct (G !! id) as [y|] eqn:E; [|done]. specialize (Hm id ltac:(eauto)). lia. }
  rewrite replay_snoc, (abs_index_entries _ _ _ _ _ HG1 Hfit).
  assert (Hlive : forall r, r ∈ rs -> rtomb r = false /\ abs G idx !! rkey r = Some (rvalue r)).
  { intros r (kl & -> & [Hk Ht]%elem_of_LiveEntries)%list_elem_of_fmap.
    destruct (abs_live _ _ _ _ Hi Hk Ht) as (v & Hv & Ha). by rewrite (live_rec_value _ _ _ Hv). }
  assert (Hsub : forall r, r ∈ take j rs -> r ∈ rs) by (intros r; apply subseteq_take).
  rewrite foldl_located by (rewrite Forall_forall; intros r Hr; by apply Hlive, Hsub).
  rewrite (abs_grows G G1) by (by apply grows_fresh || by apply idx_ok_replay). rewrite <- HA.
  assert (Hall : forall r, r ∈ take j rs -> abs G idx !! rkey r = Some (rvalue r))
    by (intros r Hr; by apply Hlive, Hsub).
  clear - Hall. induction (take j rs) as [|r l IH]; [done|]. cbn [foldl].
  rewrite insert_id by (apply Hall; by left). apply IH. intros r' Hr'. apply Hall. by right.
Qed.

Section Outcome.
Context (s s' : FileSys.FS) (d : bytes) (G : Contents) (newID : Z) (idx : Index)
  (A : gmap bytes bytes) (o : Options).
Hypothesis (Hfrom : opens_by s d G A) (Hid : exists id, is_Some (G !! id))
  (Hm : forall i, is_Some (G !! i) -> i < newID) (Hi : idx_ok G idx) (HA : abs G idx = A)
  (Hr : Forall readable (compact G idx)) (Hf : hintable (merged_index newID G idx)).

Local Abbreviation rs := (compact G idx).
Local Abbreviation merged := (merged_index newID G idx).

Lemma newID_fresh : G !! newID = None.
Proof.
  destruct (G !! newID) as [y|] eqn:E; [|done]. specialize (Hm newID ltac:(eauto)). lia.
Qed.

Lemma before_opens : disk s' d G -> same_hint s s' d -> open_outcome d o s' (Opens A).
Proof.
  intros Hd [Hn Hh]. destruct Hid as [id Hs]. destruct Hfrom as [L HL Hnone|I HI HiI HfI].
  - eapply open_log; [done|done|done|congruence].
  - eapply whole_hint_opens; [done|done|done|done|congruence].
Qed.

Lemma copying_safe n b : b `prefix_of` frames rs -> disk s' d (<[newID := (n, b)]> G) ->
  same_hint s s' d -> safe_outcome d o s' A.
Proof.
  intros Hb Hd [Hn Hh]. destruct Hfrom as [L HL Hnone|I HI HiI HfI].
  2:{ left. rewrite <- (abs_grows G (<[newID := (n, b)]> G)) by (done || apply grows_fresh, newID_fresh).
      eapply (whole_hint_opens _ _ _ _ _ newID); [done|rewrite lookup_insert_eq; eauto| |done|congruence].
      eapply idx_ok_grows; [apply grows_fresh, newID_fresh|done]. }
  destruct (prefix_frames b rs Hb) as (j & t & -> & Ht).
  pose proof (abs_copied G L newID n idx j HL Hm Hi HA) as Habs.
  pose proof (log_of_extend G L newID n (take j rs) HL Hm ltac:(by apply Forall_take)) as HL1.
  set (G1 := <[newID := (n, frames (take j rs))]> G) in *. rewrite <- Habs.
  destruct Ht as [->|(r & m & Hin & -> & Hlt)].
  - left. rewrite app_nil_r in Hd. eapply (open_log _ _ _ _ _ newID); [done| |done|congruence].
    unfold G1. rewrite lookup_insert_eq. eauto.
  - rewrite Forall_forall in Hr.
    pose proof (open_torn_log d o s' G1 L newID (take j rs) r m) as Ho.
    destruct (silent_cut m); [left|right; left]; (apply Ho; [|by apply Hr|done]);
      (split; [done| |congruence]); exists n; unfold G1; by rewrite lookup_insert_eq, insert_insert_eq.
Qed.

Lemma merged_ok G2 n : G2 !! newID = Some (n, frames rs) ->
  idx_ok G2 merged /\ abs G2 merged = A.
Proof.
  intros HG. split; [|by rewrite (abs_merged G G2 idx newID n)].
  apply (idx_ok_entries _ _ n); [done|by apply compact_fitting|].
  intros k loc H. by rewrite (lookup_empty (M:=gmap bytes)) in H.
Qed.

Lemma merge_files_safe : merge_files s s' d G newID rs merged -> safe_outcome d o s' A.
Proof.
  intros [Hd Hh|n b Hb Hd Hh|n k [(G2 & Hd & HG) Hh]].
  - left. by apply before_opens.
  - by eapply copying_safe.
  - destruct (merged_ok G2 n HG) as [HiG <-]. apply (cut_hint_safe _ _ _ _ _ k). split; eauto.
Qed.

Lemma merge_done_opens : merge_done s' d newID rs merged -> open_outcome d o s' (Opens A).
Proof.
  intros (n & (G2 & Hd & HG) & Hh). destruct (merged_ok G2 n HG) as [HiG <-].
  eapply (whole_hint_opens _ _ _ _ _ newID); eauto.
Qed.
End Outcome.
End WithRange.

(** ** Live records of a log can be read again *)

Lemma replay_sizes L :
  (forall id rs, (id, rs) ∈ L -> Forall readable rs) ->
  forall k loc, replay L !! k = Some loc -> Index.Size loc <= 17 + maxRecordPayload.
Proof.
  set (small := fun m : Index => forall k loc, m !! k = Some loc -> Index.Size loc <= 17 + maxRecordPayload).
  assert (Hent : forall id rs p (m : Index), Forall readable rs -> small m ->
            small (index_entries id (located p rs) m)).
  { intros id rs. induction rs as [|r rs IH]; intros p m Hr Hs; [done|].
    apply Forall_cons in Hr as [Hr Hrs]. cbn [located index_entries foldl]. apply IH; [done|].
    intros k loc. rewrite lookup_insert_Some. intros [[_ <-]|[_ H]]; [|by eapply Hs].
    cbn [Index.Size entry_at LogEntry.Size]. rewrite blen_enc. unfold LogEntry.frameSize, LogEntry.headerSize.
    unfold readable in Hr. lia. }
  assert (H0 : small ∅) by (intros k loc H; by rewrite (lookup_empty (M:=gmap bytes)) in H).
  unfold replay. revert H0. generalize (∅ : Index).
  induction L as [|[id rs] L IH]; intros m Hm Hr; [done|]. cbn [foldl].
  apply IH; [|intros i l H; apply (Hr i); by right]. apply Hent; [|done]. apply (Hr id). by left.
Qed.

Lemma compact_readable x G L : Durable x G L -> Forall readable (compact G (index (st x))).
Proof.
  intros HD. pose proof (LiveEntries_ok G _ (inv_index _ _ (dur_inv _ _ _ HD))) as Hl.
  unfold compact. rewrite Forall_fmap, Forall_forall. intros kl Hin.
  rewrite Forall_forall in Hl. destruct (Hl kl Hin) as (v & Hv & Ht). unfold compose.
  rewrite (live_rec_value _ _ _ Hv). apply elem_of_LiveEntries in Hin as [Hk _].
  rewrite (dur_index _ _ _ HD) in Hk.
  apply (replay_sizes L) in Hk; [|apply (log_readable _ _ (dur_log _ _ _ HD))].
  destruct Hv as (_ & _ & _ & _ & _ & Hsz & _). rewrite Hsz, blen_enc in Hk.
  unfold LogEntry.frameSize, LogEntry.headerSize in Hk. cbn in Hk. unfold readable. cbn. lia.
Qed.
End MergeRecovery.
