(* ===== verification/ResetCrash.v ===== *)
(** * A compaction without live keys, interrupted

    [resetToEmpty] removes the segments one by one, in the order of Go's map
    iteration.  What the next [Open] finds after an interruption is the map of
    the segments that are left, which need not be empty. *)
From S2P Require Import Prelude LogEntry LogReader Index FileSys Segment Store Merge Wp Repr StoreOps Recovery Opening Durable Session MergeOps Promote Compaction Faults AfterCrash MergeCrash MergeRecovery.
Import LogReader Index Segment Store Merge Wp Repr StoreOps Recovery Opening Durable Session MergeOps Promote Compaction Faults AfterCrash MergeCrash MergeRecovery.

Module ResetCrash.

(** ** The map of a log *)

Definition apply_record (A : gmap bytes bytes) (r : log_record) : gmap bytes bytes :=
  if rtomb r then delete (rkey r) A else <[rkey r := rvalue r]> A.

(** The map the records of a log build, oldest first. *)
Definition log_map (L : Log) : gmap bytes bytes :=
  foldl (fun A '(_, rs) => foldl apply_record A rs) ∅ L.

Lemma foldl_located_records (p : Z) (rs : list log_record) (A : gmap bytes bytes) :
  foldl (fun A e => if LogEntry.Tombstone e then delete (LogEntry.Key e) A
                    else <[LogEntry.Key e := LogEntry.Value e]> A) A (located p rs)
  = foldl apply_record A rs.
Proof. revert p A. induction rs as [|r rs IH]; intros p A; [done|]. apply IH. Qed.

Lemma abs_replay G L : log_of G L -> abs G (replay L) = log_map L.
Proof.
  intros HL. unfold replay, log_map.
  assert (Hin : forall id rs, (id, rs) ∈ L ->
            Forall fitting rs /\ exists ino, G !! id = Some (ino, frames rs)).
  { intros id rs H. split; [by apply readable_fitting, (log_readable _ _ HL id)|].
    apply (log_contents _ _ HL). eauto. }
  assert (H0 : abs G ∅ = ∅) by apply omap_empty.
  clear HL. revert H0 Hin. generalize (∅ : Index) (∅ : gmap bytes bytes).
  induction L as [|[id rs] L IH]; intros m A Hm Hin; [done|]. cbn [foldl].
  apply IH; [|intros i l H; apply Hin; by right].
  destruct (Hin id rs) as [Hf [ino HG]]; [by left|].
  by rewrite (abs_index_entries G id ino rs m HG Hf), foldl_located_records, Hm.
Qed.

(** ** A log that has lost segments *)

Definition without (gone : list Z) (L : Log) : Log := filter (fun s => s.1 ∉ gone) L.

Lemma elem_of_without gone L id rs : (id, rs) ∈ without gone L <-> id ∉ gone /\ (id, rs) ∈ L.
Proof. unfold without. by rewrite list_elem_of_filter. Qed.

Lemma without_ids gone L : (without gone L).*1 = filter (fun i => i ∉ gone) L.*1.
Proof.
  induction L as [|[id rs] L IH]; [done|]. unfold without in *. rewrite !filter_cons. cbn [fst fmap list_fmap].
  rewrite filter_cons. case_decide; cbn [fmap list_fmap fst]; by rewrite IH.
Qed.

Lemma sorted_filter (P : Z -> Prop) `{!forall i, Decision (P i)} l :
  StronglySorted Z.lt l -> StronglySorted Z.lt (filter P l).
Proof.
  induction 1 as [|a l _ IH Ha]; [constructor|]. rewrite filter_cons. case_decide; [|done].
  constructor; [done|]. rewrite Forall_forall in *. intros i [_ Hi]%list_elem_of_filter. by apply Ha.
Qed.

Lemma log_of_without G L gone : log_of G L -> log_of (delete_all gone G) (without gone L).
Proof.
  intros HL. split.
  - rewrite without_ids. apply sorted_filter, HL.
  - intros id c. rewrite delete_all_lookup. case_bool_decide as Hid.
    + split; [by intros [? ?]|]. intros (rs & [Hn _]%elem_of_without & _). done.
    + rewrite (log_contents _ _ HL id c). setoid_rewrite elem_of_without. naive_solver.
  - intros id rs [_ Hin]%elem_of_without. by apply (log_readable _ _ HL id).
Qed.

Lemma log_of_empty L : log_of ∅ L -> L = [].
Proof.
  intros HL. destruct L as [|[id rs] L]; [done|].
  assert (Hin : id ∈ ((id, rs) :: L).*1) by by left.
  apply (log_ids _ _ id HL) in Hin as [y Hy]. by rewrite lookup_empty in Hy.
Qed.

Section WithRange.
Context `{!GoRange Z}.

(** Opening a directory whose segments are those of [G] without [gone]. *)
Lemma open_remaining d o s G L gone :
  disk s d (delete_all gone G) -> FileSys.names s !! (d, hintFile) = None -> log_of G L ->
  open_outcome d o s (Opens (log_map (without gone L))).
Proof.
  intros Hd Hh HL%(log_of_without G L gone).
  destruct (decide (delete_all gone G = ∅)) as [E|Hne].
  - rewrite E in *. rewrite (log_of_empty _ HL). pose proof (disk_refault [] _ _ _ Hd) as Hd'.
    destruct (Open_no_segments (boot s) (boot s) d o) as (w' & x & G' & L' & Ho & HD & _ & _ & HA & _);
      [by apply MkdirAll_existing, (disk_dir _ _ _ Hd')|done|done|done|].
    exists w', x. split; [done|]. exists G'. by split; [apply HD|].
  - apply map_choose in Hne as (id & y & Hy). rewrite <- (abs_replay _ _ HL).
    eapply open_log; [done|by exists y|done|done].
Qed.

(** ** [resetToEmpty] with any faults *)

Lemma wp_remove_file x id fmt G (Q : State -> res unit -> Prop) :
  disk (fs (world x)) (dir (st x)) G -> is_Some (G !! id) ->
  (forall fl e, Q (with_faults fl x) (Err e)) ->
  (forall fl, Q (MkState (MkWorld
      (FileSys.set_names (delete (dir (st x), SegmentName id) (FileSys.names (fs (world x))))
         (refault fl (fs (world x)))) (heap (world x)) (hnext (world x))) (st x)) (Ok tt)) ->
  wp (remove_file (dir (st x)) (SegmentName id) fmt) x Q.
Proof.
  intros Hd [[ino c] HG] He HQ. destruct (disk_file _ _ _ Hd _ _ _ HG) as [Hn _].
  apply wp_bind, wp_attempt, wp_on_world, wp_os, wp_syscall; intros fl; [apply (He fl)|].
  eapply wp_run.
  { change (FileSys.names (refault fl (fs (world x)))) with (FileSys.names (fs (world x))).
    rewrite Hn. reflexivity. }
  apply (HQ fl).
Qed.

(** A hint file that is not there. *)
Lemma wp_remove_no_hint x d fmt (Q : State -> res unit -> Prop) :
  FileSys.names (fs (world x)) !! (d, hintFile) = None ->
  (forall fl e, Q (with_faults fl x) (Err e)) -> (forall fl, Q (with_faults fl x) (Ok tt)) ->
  wp (remove_file d hintFile fmt) x Q.
Proof.
  intros Hn He HQ. apply wp_bind, wp_attempt, wp_on_world, wp_os, wp_syscall; intros fl; [apply (He fl)|].
  eapply wp_run.
  { change (FileSys.names (refault fl (fs (world x)))) with (FileSys.names (fs (world x))).
    rewrite Hn. reflexivity. }
  apply (HQ fl).
Qed.

(** The directory on the way: a part of the segments, or the new segment 1. *)
Definition reset_files (s : FileSys.FS) (d : bytes) (G : Contents) (ids : list Z) : Prop :=
  FileSys.names s !! (d, hintFile) = None
  /\ ((exists gone rest, ids = gone ++ rest /\ disk s d (delete_all gone G))
      \/ exists n, disk s d {[1 := (n, [])]}).

Lemma delete_all_snoc {A} gone id (G : gmap Z A) : delete_all (gone ++ [id]) G = delete id (delete_all gone G).
Proof. unfold delete_all. by rewrite foldl_app. Qed.

Lemma wp_reset_loop x G ids fmt (Q : State -> res unit -> Prop) :
  walkable x -> NoDup ids -> (forall id, id ∈ ids -> is_Some (G !! id)) -> hint_free x ->
  disk (fs (world x)) (dir (st x)) G ->
  (forall x' e, reset_files (fs (world x')) (dir (st x)) G ids -> Q x' (Err e)) ->
  (forall x', FileSys.names (fs (world x')) !! (dir (st x), hintFile) = None ->
     disk (fs (world x')) (dir (st x)) (delete_all ids G) -> Q x' (Ok tt)) ->
  wp (range_loop ids (fun id => drop_segment id ≫= fun _ =>
        remove_file (dir (st x)) (SegmentName id) fmt)) x Q.
Proof.
  intros Hw Hnd Hids Hh Hd He HQ. set (d := dir (st x)) in *.
  apply (wp_range_loop _ _ _ (fun l x' => walkable x' /\ dir (st x') = d
    /\ FileSys.names (fs (world x')) !! (d, hintFile) = None
    /\ exists gone, ids = gone ++ l /\ disk (fs (world x')) d (delete_all gone G))).
  - split_and!; [done|done|done|]. by exists [].
  - intros id l x1 (Hw1 & Hd1 & Hh1 & gone & Hsplit & Hdisk1). apply wp_bind, wp_drop_segment; [done|].
    intros x2 Hw2 Hd2 [fl Hfs]. cbn [bind_post].
    assert (Hdir2 : dir (st x2) = d) by congruence.
    assert (Hdisk2 : disk (fs (world x2)) d (delete_all gone G)) by (rewrite Hfs; by apply disk_refault).
    assert (Hh2 : FileSys.names (fs (world x2)) !! (d, hintFile) = None) by (by rewrite Hfs).
    assert (Hid : is_Some (delete_all gone G !! id)).
    { rewrite delete_all_lookup, bool_decide_eq_false_2.
      - apply Hids. rewrite Hsplit. set_solver.
      - intros Hg. rewrite Hsplit in Hnd. apply NoDup_app in Hnd as (_ & Hnd & _). apply (Hnd id Hg). by left. }
    assert (Hrange : 0 <= id < max_id) by (by apply (disk_id _ _ _ Hdisk2)).
    rewrite <- Hdir2. apply (wp_remove_file x2 id fmt (delete_all gone G)); [by rewrite Hdir2|done| |]; intros fl2.
    + intros e. apply He. split; [exact Hh2|]. left. exists gone, (id :: l). split; [done|]. by apply (disk_refault fl2).
    + rewrite Hdir2. split_and!; [exact Hw2|done| |].
      * cbn. rewrite lookup_delete_ne; [done|]. by apply hint_name_ne.
      * exists (gone ++ [id]). split; [by rewrite <- app_assoc|]. rewrite delete_all_snoc.
        exact (disk_remove _ _ _ _ (disk_refault fl2 _ _ _ Hdisk2) Hid).
  - intros x1 (_ & _ & Hh1 & gone & Hsplit & Hd1). rewrite app_nil_r in Hsplit. subst gone. by apply HQ.
Qed.

Lemma wp_resetToEmpty x G (Q : State -> res unit -> Prop) :
  let ids := (go_range (segments (st x))).*1 in
  Inv x G -> hint_free x ->
  (forall x' e, reset_files (fs (world x')) (dir (st x)) G ids -> Q x' (Err e)) ->
  (forall x', FileSys.names (fs (world x')) !! (dir (st x), hintFile) = None ->
     (exists n, disk (fs (world x')) (dir (st x)) {[1 := (n, [])]}) -> Q x' (Ok tt)) ->
  wp resetToEmpty x Q.
Proof.
  intros ids HI Hh He HQ. pose proof (inv_opens _ _ HI) as Ho. apply wp_self, wp_bind.
  apply (wp_reset_loop x G); [by eapply Inv_walkable|apply NoDup_range_ids| |exact Hh|apply HI|exact He|].
  { intros id Hid%elem_of_range_ids. by apply (opens_Some _ _ _ _ Ho). }
  intros x1 Hh1 Hd1. cbn [bind_post]. fold ids in Hd1.
  assert (Hd0 : delete_all ids G = ∅) by (apply delete_range_ids; intros i; apply (opens_Some _ _ _ _ Ho)).
  assert (Hend : forall s, FileSys.names s !! (dir (st x), hintFile) = None ->
            disk s (dir (st x)) (delete_all ids G) -> reset_files s (dir (st x)) G ids).
  { intros s Hs1 Hs2. split; [exact Hs1|]. left. exists ids, []. by rewrite app_nil_r. }
  apply wp_bind, wp_remove_no_hint; [exact Hh1| |]; intros fl.
  { intros e. apply He, Hend; [exact Hh1|by apply (disk_refault fl)]. }
  cbn [bind_post]. rewrite Hd0 in Hd1, Hend.
  assert (H1 : 0 <= 1 < max_id) by (unfold max_id; lia).
  assert (Hfresh : FileSys.names (fs (created (world (with_faults fl x1)) (dir (st x)) 1)) !! (dir (st x), hintFile) = None).
  { cbn [created with_faults fs world FileSys.names refault].
    rewrite lookup_insert_ne; [exact Hh1|]. by apply hint_name_ne. }
  assert (Hnew : forall fl2, exists n, disk (refault fl2 (fs (created (world (with_faults fl x1)) (dir (st x)) 1)))
            (dir (st x)) {[1 := (n, [])]}).
  { intros fl2. eexists. apply disk_refault.
    exact (disk_create _ _ ∅ 1 (disk_refault fl _ _ _ Hd1) eq_refl H1). }
  apply wp_bind, wp_on_world, (wp_NewSegment _ _ (world (with_faults fl x1)));
    [apply Hd1|by apply (disk_no_segment _ _ _ 1 Hd1)|..]; intros fl2.
  - intros e. apply He, Hend; [exact Hh1|]. exact (disk_refault fl2 _ _ _ Hd1).
  - intros e. apply He. split; [exact Hfresh|]. right. apply (Hnew fl2).
  - cbn [bind_post]. apply (HQ (MkState _ _)); [exact Hfresh|]. apply (Hnew fl2).
Qed.

Lemma wp_Merge_empty x G (Q : State -> res unit -> Prop) :
  let ids := (go_range (segments (st x))).*1 in
  Inv x G -> hint_free x -> LiveEntries (index (st x)) = [] ->
  (forall x' e, reset_files (fs (world x')) (dir (st x)) G ids -> Q x' (Err e)) ->
  (forall x', FileSys.names (fs (world x')) !! (dir (st x), hintFile) = None ->
     (exists n, disk (fs (world x')) (dir (st x)) {[1 := (n, [])]}) -> Q x' (Ok tt)) ->
  wp Merge x Q.
Proof.
  intros ids HI Hh Hl He HQ. destruct (Inv_active x G HI) as (p & ino & c & Ha & _ & _ & Hp).
  unfold Merge. apply wp_self. rewrite (inv_closed _ _ HI). apply wp_bind.
  apply (wp_on_active _ _ p _ Ha). eapply wp_Sync; [exact Hp|done|]. intros fl r Hr.
  destruct r as [[]|e|]; [| |done]; cbn [bind_post].
  - rewrite bool_decide_eq_true_2 by (by rewrite Hl).
    apply (wp_resetToEmpty (with_faults fl x) G); [by apply Inv_with_faults|done|exact He|exact HQ].
  - apply He. split; [exact Hh|]. left. exists [], ids. split; [done|]. by apply (disk_refault fl), HI.
Qed.

(** Opening what is left. *)
Lemma open_reset_files d o s G L (m : gmap Z ptr) :
  (forall i, is_Some (G !! i) -> is_Some (m !! i)) -> log_of G L ->
  reset_files s d G (go_range m).*1 ->
  exists gone rest, (go_range m).*1 = gone ++ rest
    /\ open_outcome d o s (Opens (log_map (without gone L))).
Proof.
  intros Hm HL [Hh [(gone & rest & E & Hd)|[n Hd]]].
  - exists gone, rest. split; [done|]. by apply (open_remaining _ _ _ G).
  - exists (go_range m).*1, []. split; [by rewrite app_nil_r|].
    pose proof (log_of_without G L (go_range m).*1 HL) as HL'.
    rewrite delete_range_ids in HL' by done. rewrite (log_of_empty _ HL').
    rewrite <- (abs_replay _ _ (log_of_new n) : _ = log_map []).
    eapply (open_log _ _ _ _ _ 1); [done|rewrite lookup_singleton_eq; eauto|apply log_of_new|done].
Qed.

(** ** [resetToEmpty] up to one failing removal *)

(** [k] system calls of [m] succeed, and it returns [a]. *)
Definition clean {A} (k : nat) (m : M State A) (x x' : State) (a : A) : Prop :=
  forall fl, m (with_faults (replicate k FileSys.FNone ++ fl) x) = (with_faults fl x', Ok a).

Lemma clean_bind {A B} k j (m : M State A) (f : A -> M State B) x x1 x2 a b :
  clean k m x x1 a -> clean j (f a) x1 x2 b -> clean (k + j) (m ≫= f) x x2 b.
Proof.
  intros Hm Hf fl. rewrite replicate_add, <- app_assoc, (M_bind_Ok _ _ _ _ _ (Hm _)). apply Hf.
Qed.

Lemma syscall_FNone {A} (m : M FileSys.FS A) fl s :
  FileSys.syscall m (refault (FileSys.FNone :: fl) s) = m (refault fl s).
Proof. done. Qed.

Record emptying (x : State) (G : Contents) : Prop := {
  ey_opens : opens (world x) (st x) G;
  ey_disk : disk (fs (world x)) (dir (st x)) G;
  ey_hint : hint_free x;
}.

Lemma drop_segment_clean x G id :
  emptying x G -> is_Some (G !! id) ->
  exists x1, clean 1 (drop_segment id) x x1 tt
    /\ fs (world x1) = fs (world x) /\ dir (st x1) = dir (st x)
    /\ opens (world x1) (st x1) (delete id G).
Proof.
  intros [Ho Hd Hh] [[ino c] HG]. pose proof (Ho id) as Hid. rewrite HG in Hid.
  destruct Hid as (p & Hp & Hsg & Hlt).
  set (sg' := MkSegment id (SegmentPath (dir (st x)) id) None (blen c)).
  exists (MkState (MkWorld (fs (world x)) (<[p := sg']> (heap (world x))) (hnext (world x)))
            (set_segments (delete id (segments (st x))) (st x))).
  split_and!; [|done|done|].
  - intros fl. unfold drop_segment. rewrite self_bind.
    change (segments (st (with_faults _ x))) with (segments (st x)). rewrite Hp.
    assert (Hc : Segment.Close p (world (with_faults (FileSys.FNone :: fl) x))
              = (MkWorld (refault fl (fs (world x))) (<[p := sg']> (heap (world x))) (hnext (world x)), Ok tt)).
    { unfold Segment.Close.
      by rewrite (M_bind_Ok _ _ _ _ _ (load_Ok p (world (with_faults (FileSys.FNone :: fl) x)) _ Hsg)). }
    by rewrite (M_bind_Ok _ _ _ _ _ (ignore_Ok _ _ _ _ (on_world_Ok _ _ _ _ Hc))).
  - intros i. cbn [st world segments set_segments heap hnext dir]. destruct (decide (id = i)) as [<-|Hne].
    { by rewrite !lookup_delete_eq. }
    rewrite !lookup_delete_ne by done. specialize (Ho i).
    destruct (G !! i) as [[ino' c']|]; [|done]. destruct Ho as (q & Hq & Hsq & Hltq).
    exists q. split_and!; [done| |done]. rewrite lookup_insert_ne; [done|]. intros <-.
    rewrite Hsg in Hsq. unfold segment_of in Hsq. by simplify_eq.
Qed.

Lemma remove_file_clean x G id fmt :
  disk (fs (world x)) (dir (st x)) G -> is_Some (G !! id) ->
  clean 1 (remove_file (dir (st x)) (SegmentName id) fmt) x
    (MkState (MkWorld
       (FileSys.set_names (delete (dir (st x), SegmentName id) (FileSys.names (fs (world x)))) (fs (world x)))
       (heap (world x)) (hnext (world x))) (st x)) tt.
Proof.
  intros Hd [[ino c] HG] fl. destruct (disk_file _ _ _ Hd _ _ _ HG) as [Hn _].
  unfold remove_file. erewrite M_bind_Ok.
  2:{ apply attempt_Ok, on_world_Ok, os_Ok. unfold FileSys.Remove.
      change (fs (world (with_faults _ x))) with (refault (FileSys.FNone :: fl) (fs (world x))).
      rewrite syscall_FNone. cbn [refault FileSys.names]. rewrite Hn. reflexivity. }
  done.
Qed.

Lemma remove_one_clean x G id fmt :
  emptying x G -> is_Some (G !! id) ->
  exists x2, clean 2 (drop_segment id ≫= fun _ => remove_file (dir (st x)) (SegmentName id) fmt) x x2 tt
    /\ dir (st x2) = dir (st x) /\ emptying x2 (delete id G).
Proof.
  intros Hx Hid. destruct (drop_segment_clean x G id Hx Hid) as (x1 & H1 & Hfs & Hdir & Ho1).
  destruct Hx as [_ Hd Hh].
  assert (Hd1 : disk (fs (world x1)) (dir (st x1)) G) by (by rewrite Hfs, Hdir).
  pose proof (remove_file_clean x1 G id fmt Hd1 Hid) as H2. rewrite Hdir in H2.
  eexists. split; [exact (clean_bind 1 1 _ (fun _ => _) _ _ _ _ _ H1 H2)|].
  split; [exact Hdir|]. split.
  - exact Ho1.
  - cbn [world fs st]. rewrite Hdir, Hfs. by apply disk_remove.
  - unfold hint_free. cbn [world fs st FileSys.names FileSys.set_names]. rewrite Hdir, Hfs, lookup_delete_ne; [done|].
    by apply hint_name_ne, (disk_id _ _ _ Hd).
Qed.

Lemma remove_some_clean gone x G fmt :
  emptying x G -> NoDup gone -> (forall id, id ∈ gone -> is_Some (G !! id)) ->
  exists x2, clean (2 * length gone) (range_loop gone (fun id => drop_segment id ≫= fun _ =>
      remove_file (dir (st x)) (SegmentName id) fmt)) x x2 tt
    /\ dir (st x2) = dir (st x) /\ emptying x2 (delete_all gone G).
Proof.
  revert x G. induction gone as [|id gone IH]; intros x G Hx Hnd Hin.
  { exists x. by split_and!. }
  apply NoDup_cons in Hnd as [Hid Hnd].
  destruct (remove_one_clean x G id fmt Hx) as (x1 & H1 & Hd1 & Hx1); [apply Hin; by left|].
  destruct (IH x1 (delete id G) Hx1 Hnd) as (x2 & H2 & Hd2 & Hx2).
  { intros i Hi. rewrite lookup_delete_ne by (by intros ->). apply Hin. by right. }
  exists x2. split_and!; [|congruence|exact Hx2]. cbn [range_loop length].
  replace (2 * S (length gone))%nat with (2 + 2 * length gone)%nat by lia.
  rewrite Hd1 in H2. exact (clean_bind _ _ _ (fun _ => _) _ _ _ _ _ H1 H2).
Qed.

(** Every system call of [Merge] succeeds until the removal of the segment
    after the first [n], which fails. *)
Definition fail_removal (n : nat) : list FileSys.fault :=
  replicate (1 + (2 * n + 1)) FileSys.FNone ++ [FileSys.FFail].

Lemma remove_file_FFail x d name fmt :
  remove_file d name fmt (with_faults [FileSys.FFail] x) = (with_faults [] x, Err (Errorf fmt FileSys.EIO)).
Proof. done. Qed.

Lemma Merge_fails_removal x G gone id rest :
  Inv x G -> hint_free x -> LiveEntries (index (st x)) = [] ->
  (go_range (segments (st x))).*1 = gone ++ id :: rest ->
  exists x', Merge (with_faults (fail_removal (length gone)) x)
      = (x', Err (Errorf "store: remove segment %d: %w" FileSys.EIO))
    /\ FileSys.names (fs (world x')) !! (dir (st x), hintFile) = None
    /\ disk (fs (world x')) (dir (st x)) (delete_all gone G).
Proof.
  intros HI Hh Hl E. pose proof (NoDup_range_ids (segments (st x))) as Hnd. rewrite E in Hnd.
  assert (Hin : forall i, i ∈ gone ++ id :: rest -> is_Some (G !! i)).
  { intros i Hi. rewrite <- E, elem_of_range_ids in Hi. by apply (opens_Some _ _ _ _ (inv_opens _ _ HI)). }
  apply NoDup_app in Hnd as (Hnd & Hout & _).
  destruct (Inv_active x G HI) as (p & ino & c & Ha & _ & _ & Hp).
  assert (Hx : emptying x G) by (split; [apply HI|apply HI|done]).
  destruct (remove_some_clean gone x G "store: remove segment %d: %w" Hx Hnd) as (x1 & H1 & Hd1 & Hx1).
  { intros i Hi. apply Hin, elem_of_app. by left. }
  destruct (drop_segment_clean x1 (delete_all gone G) id Hx1) as (x2 & H2 & Hfs & _ & _).
  { rewrite delete_all_lookup, bool_decide_eq_false_2; [apply Hin; set_solver|].
    intros Hg. apply (Hout id Hg). by left. }
  exists (with_faults [] x2). destruct Hx1 as [_ Hd Hh1]. rewrite Hd1 in Hd.
  unfold hint_free in Hh1. rewrite Hd1 in Hh1. split_and!.
  - unfold fail_removal. rewrite replicate_add, <- app_assoc.
    unfold Merge. rewrite self_bind. change (st (with_faults _ x)) with (st x). rewrite (inv_closed _ _ HI).
    assert (Hsync : clean 1 (on_active Segment.Sync) x x tt).
    { intros fl. apply (on_active_Ok _ (with_faults _ x) p (world (with_faults fl x))); [done|]. unfold Segment.Sync.
      by rewrite (M_bind_Ok _ _ _ _ _ (load_Ok p (world (with_faults (FileSys.FNone :: fl) x)) _ Hp)). }
    rewrite (M_bind_Ok _ _ _ _ _ (Hsync _)). rewrite bool_decide_eq_true_2 by (by rewrite Hl).
    unfold resetToEmpty. rewrite self_bind. apply M_bind_Err.
    change (st (with_faults _ x)) with (st x). rewrite E, replicate_add, <- app_assoc.
    rewrite (range_loop_app _ _ _ _ _ (H1 _)). cbn [range_loop]. apply M_bind_Err.
    by rewrite (M_bind_Ok _ _ _ _ _ (H2 [FileSys.FFail])).
  - cbn [with_faults world fs FileSys.names]. by rewrite Hfs.
  - apply (disk_refault []). by rewrite Hfs.
Qed.
End WithRange.
End ResetCrash.
