(* ===== verification/Sample.v ===== *)
(** * Concrete stores

    Stores built by running the definitions on concrete calls, on which the
    theorems are instantiated. *)
From S2P Require Import Prelude LogEntry LogReader Index FileSys Segment Store Merge Repr StoreOps Recovery Opening Durable Session MergeOps Promote Compaction Refine Restart Invariant Faults.
Import LogReader Index Segment Store Merge Repr StoreOps Recovery Opening Durable Session MergeOps Promote Compaction Refine Restart Invariant Faults.

Module Sample.

Definition order : GoRange Z := key_order.

Definition db : bytes := bs "db".

(** Segments rotate after 40 bytes. *)
Definition small : Options := MkOptions true 40.

Definition state_of (r : World * res Store) : option State :=
  match r with
  | (w, Ok s) => Some (MkState w s)
  | _ => None
  end.

Definition a_store : Store := MkStore db small New ∅ 0 None false.

(** A new store, and the store after three writes. *)
Definition empty_state : State :=
  default (MkState new_world a_store) (state_of (@OpenWithOptions order db small new_world)).

Definition writes : list op :=
  [OpPut (bs "a") (bs "one"); OpPut (bs "b") (bs "two"); OpDelete (bs "a")].

Definition full_state : State := (@run_ops order writes empty_state).1.

Lemma op_ok_writes : Forall op_ok writes.
Proof. repeat (constructor; [split; [done|unfold readable; by vm_compute]|]). constructor. Qed.

Lemma empty_Durable :
  exists G L, Durable empty_state G L /\ quiet empty_state /\ bounded G 0 1
    /\ abs G (index (st empty_state)) = ∅.
Proof.
  destruct (@Open_new order new_world db small) as (w & s & G & L & Ho & HD & Hq & Hd & Ha & Hb);
    [done|done|done|].
  exists G, L. unfold empty_state. rewrite Ho. by cbn.
Qed.

Lemma empty_reachable : @reachable order db empty_state.
Proof.
  destruct (@Open_new order new_world db small) as (w & s & G & L & Ho & _); [done|done|done|].
  unfold empty_state. rewrite Ho. by apply (@reach_new order db new_world small).
Qed.

Lemma full_Durable :
  exists G L, Durable full_state G L /\ quiet full_state /\ bounded G (ops_bytes writes) 4
    /\ abs G (index (st full_state)) = {[bs "b" := bs "two"]}.
Proof.
  destruct empty_Durable as (G & L & HD & Hq & Hb & Ha).
  destruct (@run_ops_Ok order empty_state G L 0 1 writes HD Hq op_ok_writes Hb)
    as (x' & G' & L' & Hrun & HD' & Hq' & Habs & _ & Hb'); [by vm_compute|by vm_compute|].
  exists G', L'. unfold full_state. rewrite Hrun. cbn [fst].
  split_and!; [done|done|by rewrite Z.add_0_l in Hb'|]. rewrite Habs, Ha. reflexivity.
Qed.

Lemma empty_Rep : Rep empty_state ∅.
Proof. destruct empty_Durable as (G & L & HD & _ & _ & Ha). exists G. split; [apply HD|done]. Qed.

Lemma empty_quiet : quiet empty_state.
Proof. by destruct empty_Durable as (G & L & _ & Hq & _). Qed.

Lemma full_Rep : Rep full_state {[bs "b" := bs "two"]}.
Proof. destruct full_Durable as (G & L & HD & _ & _ & Ha). exists G. split; [apply HD|done]. Qed.

Lemma full_quiet : quiet full_state.
Proof. by destruct full_Durable as (G & L & _ & Hq & _). Qed.

Lemma full_Inv : exists G, Inv full_state G.
Proof. destruct full_Rep as (G & HI & _). by exists G. Qed.
End Sample.
