(* ===== verification/Snapshot.v ===== *)
(** * Snapshots and restoring: internal/store/snapshot.go and Restore of backup.go

    A snapshot hard-links the store's files, so both directories name the same
    inodes.  [Restore] works on what [archive/tar] reads: the sequence of the
    entries and the error behind them. *)
From S2P Require Import Prelude LogEntry LogReader Index FileSys Segment Store.

Module Snapshot.
Import Index Segment Store.

(** ** snapshot.go *)

Definition fileCopy (src dst : bytes * bytes) : M World unit :=
  data ← os (FileSys.ReadFile src.1 src.2);
  os (FileSys.WriteFile dst.1 dst.2 data).

Definition linkOrCopy (src dst : bytes * bytes) : M World unit :=
  r ← attempt (os (FileSys.Link src.1 src.2 dst.1 dst.2));
  match r with
  | inr _ => mret tt
  | inl _ => fileCopy src dst
  end.

Record SnapshotInfo := MkInfo {
  Dir : bytes;
  SegmentCount : Z;
  TotalBytes : Z;
  LiveKeys : Z;
}.

(** The loop of [Inspect] over the directory entries. *)
Fixpoint inspect_entries (l : list (bytes * FileSys.dent)) (info : SnapshotInfo)
    : M World SnapshotInfo :=
  match l with
  | [] => mret info
  | (_, FileSys.DDir) :: l' => inspect_entries l' info
  | (name, FileSys.DFile ino) :: l' =>
      match ParseSegmentID name with
      | None => inspect_entries l' info
      | Some _ =>
          fi ← attempt (os (FileSys.StatSize ino));
          inspect_entries l'
            (MkInfo (Dir info) (SegmentCount info + 1)
               (match fi with inr n => i64 (TotalBytes info + n) | inl _ => TotalBytes info end)
               (LiveKeys info))
      end
  end.

Definition Inspect (d : bytes) : M World SnapshotInfo :=
  entries ← wrapping "store: inspect %s: %w" (os (FileSys.ReadDir d));
  info ← inspect_entries entries (MkInfo d 0 0 0);
  r ← attempt (os (FileSys.Open d hintFile));
  match r with
  | inl _ => mret info
  | inr ino =>
      rd ← os (FileSys.stream ino);
      let '((_, idx), res) := LoadHint (rd, New) in
      n ← (match res with
           | Ok _ => mret (blen (LiveEntries idx))
           | Err _ => mret (LiveKeys info)
           | Panic => lift_res Panic
           end);
      ignore (os (FileSys.Close ino)) ≫= fun _ =>
      mret (MkInfo (Dir info) (SegmentCount info) (TotalBytes info) n)
  end.

Section WithRange.
Context `{!GoRange Z}.

(** Linking every segment of the map. *)
Definition link_segments (dstDir : bytes) (l : list (Z * ptr)) : M State unit :=
  range_loop l (fun '(id, p) =>
    src ← on_world (Path p);
    wrapping "store: snapshot segment %d: %w"
      (on_world (linkOrCopy src (dstDir, SegmentName id)))).

(** "Copy hint file if it exists." *)
Definition link_hint (srcDir dstDir : bytes) : M State unit :=
  r ← attempt (on_world (os (FileSys.Stat srcDir hintFile)));
  match r with
  | inl _ => mret tt
  | inr _ =>
      wrapping "store: snapshot hint: %w"
        (on_world (linkOrCopy (srcDir, hintFile) (dstDir, hintFile)))
  end.

Definition Snapshot (dstDir : bytes) : M State unit :=
  s ← self;
  if closed s then throw ErrClosed
  else
    wrapping "store: snapshot sync: %w" (on_active Segment.Sync) ≫= fun _ =>
    wrapping "store: snapshot mkdir: %w" (on_world (os (FileSys.MkdirAll dstDir))) ≫= fun _ =>
    link_segments dstDir (go_range (segments s)) ≫= fun _ =>
    link_hint (dir s) dstDir.
End WithRange.

(** ** Restoring *)

(** An entry of a tar stream; [t_reg] is [Typeflag == tar.TypeReg], and the body
    ends in another error than [io.EOF] when the stream is cut or damaged. *)
Record tar_entry := MkTar { t_name : bytes; t_reg : bool; t_body : ioReader }.

(** A whole regular file. *)
Definition tar_file (name c : bytes) : tar_entry := MkTar name true (MkIoReader c EOF).

(** [io.Copy]: what could be read is written, if it is anything, before a read
    error counts. *)
Definition io_Copy {St : Type} (write : bytes -> M St unit) (rd : ioReader) : M St unit :=
  (if bool_decide (rem rd = []) then mret tt else write (rem rd)) ≫= fun _ =>
  if bool_decide (rerr rd = EOF) then mret tt else throw (rerr rd).

(** [filepath.Base]. *)
Fixpoint drop_slashes (l : bytes) : bytes :=
  match l with
  | c :: l' => if bool_decide (c = Byte.x2f) then drop_slashes l' else l
  | [] => []
  end.

Fixpoint upto_slash (l : bytes) : bytes :=
  match l with
  | c :: l' => if bool_decide (c = Byte.x2f) then [] else c :: upto_slash l'
  | [] => []
  end.

Definition Base (path : bytes) : bytes :=
  match path with
  | [] => bs "."
  | _ =>
      match rev (upto_slash (drop_slashes (rev path))) with
      | [] => bs "/"
      | b => b
      end
  end.

(** The extraction loop; [final] is what the tar reader reports after its last
    entry. *)
Fixpoint restore_entries (dstDir : bytes) (l : list tar_entry) (final : error) : M World unit :=
  match l with
  | [] => if bool_decide (final = EOF) then mret tt else throw (Errorf "store: restore tar: %w" final)
  | e :: l' =>
      if negb (t_reg e) then restore_entries dstDir l' final
      else
        ino ← wrapping "store: restore create %s: %w" (os (FileSys.Create dstDir (Base (t_name e))));
        or_else (wrapping "store: restore write %s: %w"
            (io_Copy (fun b => os (FileSys.Write ino b) ≫= fun _ => mret tt) (t_body e)))
          (os (FileSys.Close ino)) ≫= fun _ =>
        ignore (os (FileSys.Close ino)) ≫= fun _ =>
        restore_entries dstDir l' final
  end.

(** [archive] is the outcome of [gzip.NewReader] with the tar entries behind it. *)
Definition Restore (archive : res (list tar_entry * error)) (dstDir : bytes) : M World unit :=
  wrapping "store: restore mkdir: %w" (os (FileSys.MkdirAll dstDir)) ≫= fun _ =>
  tr ← wrapping "store: restore gzip: %w" (lift_res archive);
  restore_entries dstDir tr.1 tr.2.
End Snapshot.
