(* ===== verification/Backup.v ===== *)
(** * Backup: internal/store/backup.go

    [archive/tar] over [compress/gzip] over the caller's writer is an interface,
    [Archiver]: headers, data, and the two [Close] calls.  What it promises to a
    caller that writes each file as long as its header says is [ArchiverSpec].
    [Restore], which reads the entries, is in [Snapshot]. *)
From S2P Require Import Prelude LogEntry LogReader Index FileSys Segment Store Snapshot.

Module Backup.
Import Index Segment Store.

(** A [*tar.Writer] and the [*gzip.Writer] below it. *)
Class Archiver (St : Type) := {
  WriteHeader : bytes -> Z -> M St unit;  (* name and size *)
  Write : bytes -> M St unit;
  tar_Close : M St unit;
  gzip_Close : M St unit;
}.

(** From the state [emit l] that has taken the entries [l], a header and as much
    data as it announces add an entry; closing may fail but returns. *)
Class ArchiverSpec {St : Type} {A : Archiver St} (emit : list Snapshot.tar_entry -> St) := {
  archiver_adds : forall l name c,
    (WriteHeader name (blen c) ≫= fun _ => Snapshot.io_Copy Write (MkIoReader c EOF)) (emit l)
    = (emit (l ++ [Snapshot.tar_file name c]), Ok tt);
  tar_Close_total : forall s, (tar_Close s).2 <> Panic;
  gzip_Close_total : forall s, (gzip_Close s).2 <> Panic;
}.

Section Archive.
Context {St : Type} `{!Archiver St} `{!GoRange Z}.

Definition on_store {A} (m : M State A) : M (State * St) A := zoom fst (fun x p => (x, p.2)) m.
Definition on_archive {A} (m : M St A) : M (State * St) A := zoom snd (fun a p => (p.1, a)) m.

Definition fs_call {A} (m : M FileSys.FS A) : M (State * St) A := on_store (on_world (os m)).

(** [io.Copy(tw, f)]. *)
Definition copy_file (ino : nat) : M (State * St) unit :=
  rd ← fs_call (FileSys.stream ino);
  on_archive (Snapshot.io_Copy Write rd).

Definition addFileToTar (path : bytes * bytes) (name : bytes) : M (State * St) unit :=
  ino ← fs_call (FileSys.Open path.1 path.2);
  r ← attempt (
    size ← fs_call (FileSys.StatSize ino);
    on_archive (WriteHeader name size) ≫= fun _ =>
    copy_file ino);
  ignore (fs_call (FileSys.Close ino)) ≫= fun _ =>
  match r with
  | inl err => throw err
  | inr _ => mret tt
  end.

Definition backup_hint (dir : bytes) : M (State * St) unit :=
  r ← attempt (fs_call (FileSys.Stat dir hintFile));
  match r with
  | inl _ => mret tt
  | inr _ => wrapping "store: backup hint: %w" (addFileToTar (dir, hintFile) hintFile)
  end.

(** The deferred calls drop the errors of closing. *)
Definition close_archive : M St unit :=
  ignore tar_Close ≫= fun _ => ignore gzip_Close.

Definition Backup : M (State * St) unit :=
  s ← on_store self;
  if closed s then throw ErrClosed
  else
    wrapping "store: backup sync: %w" (on_store (on_active Segment.Sync)) ≫= fun _ =>
    r ← attempt (
      range_loop (go_range (segments s)) (fun '(id, seg) =>
        path ← on_store (on_world (Path seg));
        wrapping "store: backup segment %d: %w" (addFileToTar path (SegmentName id))) ≫= fun _ =>
      backup_hint (dir s));
    on_archive close_archive ≫= fun _ =>
    match r with
    | inl err => throw err
    | inr _ => mret tt
    end.
End Archive.

(** ** An archive in memory *)

(** The entries, and how much of the last one is missing; [tar.Writer] reports
    data beyond the announced size, and missing data on the next header or
    [Close]. *)
Record Memory := MkMemory { entries : list Snapshot.tar_entry; missing : Z }.

Definition ErrWriteTooLong : error := errors_New "archive/tar: write too long".
Definition ErrMissed : error := errors_New "archive/tar: missed writing %d bytes".

Definition add_data (b : bytes) (l : list Snapshot.tar_entry) : list Snapshot.tar_entry :=
  match rev l with
  | e :: l' =>
      rev (Snapshot.MkTar (Snapshot.t_name e) (Snapshot.t_reg e)
             (MkIoReader (rem (Snapshot.t_body e) ++ b) (rerr (Snapshot.t_body e))) :: l')
  | [] => []
  end.

(** [close_err] is what flushing the compressed bytes returns. *)
Definition memory (close_err : option error) : Archiver Memory := {|
  WriteHeader := fun name size a =>
    if 0 <? missing a then (a, Err ErrMissed)
    else (MkMemory (entries a ++ [Snapshot.tar_file name []]) size, Ok tt);
  Write := fun b a =>
    if missing a <? blen b
    then (MkMemory (add_data (take (Z.to_nat (missing a)) b) (entries a)) 0, Err ErrWriteTooLong)
    else (MkMemory (add_data b (entries a)) (missing a - blen b), Ok tt);
  tar_Close := fun a => (a, if 0 <? missing a then Err ErrMissed else Ok tt);
  gzip_Close := fun a => (a, match close_err with Some e => Err e | None => Ok tt end);
|}.

#[export] Instance memory_Spec close_err :
  @ArchiverSpec Memory (memory close_err) (fun l => MkMemory l 0).
Proof.
  split.
  - intros l name c. unfold mbind, M_bind, Snapshot.io_Copy. cbn.
    destruct (decide (c = [])) as [->|Hc]; [done|]. rewrite (bool_decide_eq_false_2 (c = [])) by done. cbn.
    unfold mbind, M_bind. cbn. rewrite Z.ltb_irrefl, Z.sub_diag. cbn.
    unfold add_data. by rewrite rev_app_distr; cbn; rewrite rev_involutive.
  - intros s. cbn. by destruct (0 <? missing s).
  - intros s. cbn. by destruct close_err.
Qed.
End Backup.
