(* ===== verification/Iter.v ===== *)
(** * Iterators: internal/store/iter.go

    An iterator holds the live entries at the time it was made and reads each
    value through [Get] when asked.  Its store is the one the methods run on. *)
From S2P Require Import Prelude LogEntry LogReader Index FileSys Segment Store.

Module Iter.
Import Index Segment Store.

Record Iterator := MkIterator {
  entries : list KeyLocation;
  pos : Z;
  err : option error;
}.

Definition Iter : M State Iterator :=
  s ← self;
  mret (MkIterator (LiveEntries (index s)) 0 None).

Definition Valid (it : Iterator) : bool :=
  (pos it <? blen (entries it)) && bool_decide (err it = None).

Definition Next (it : Iterator) : Iterator :=
  MkIterator (entries it) (i64 (pos it + 1)) (err it).

Definition Key (it : Iterator) : res bytes :=
  if negb (Valid it) then Ok []
  else kl ← Prelude.index (pos it) (entries it); mret (Index.Key kl).

(** [Value] reads from the store and may set the iterator's error. *)
Definition Value : M (State * Iterator) (option bytes) :=
  p ← get;
  let it := p.2 in
  if negb (Valid it) then throw ErrClosed
  else
    kl ← lift_res (Prelude.index (pos it) (entries it));
    r ← attempt (zoom fst (fun x q => (x, q.2)) (Store.Get (Index.Key kl)));
    match r with
    | inl e =>
        modify (fun q => (q.1, MkIterator (entries q.2) (pos q.2) (Some e))) ≫= fun _ => throw e
    | inr v => mret v
    end.

Definition Err (it : Iterator) : option error := err it.

Definition Rewind (it : Iterator) : Iterator := MkIterator (entries it) 0 None.

Definition Count (it : Iterator) : Z := blen (entries it).

(** [sort.Search(n, f)]: the loop halves [j - i] until it is zero. *)
Fixpoint search_loop (fuel : nat) (f : Z -> res bool) (i j : Z) : res Z :=
  if i <? j then
    match fuel with
    | O => Panic
    | S fuel' =>
        let h := i64 (u64 (i + j) / 2) in
        b ← f h;
        if negb b then search_loop fuel' f (i64 (h + 1)) j else search_loop fuel' f i h
    end
  else Ok i.

Definition Search (n : Z) (f : Z -> res bool) : res Z := search_loop (Z.to_nat n) f 0 n.

Definition Seek (target : bytes) (it : Iterator) : res Iterator :=
  idx ← Search (blen (entries it))
          (fun i => kl ← Prelude.index i (entries it); mret (bytes_leb target (Index.Key kl)));
  mret (MkIterator (entries it) idx None).

(** From store.go: [key[len(key)-len(prefix):] == prefix]. *)
Definition keyHasPrefix (key prefix : bytes) : res bool :=
  if blen prefix <=? blen key then
    s ← slice (blen key - blen prefix) (blen key) key;
    mret (bool_decide (s = prefix))
  else mret false.

(** [for _, kl := range all { if f(kl) { filtered = append(filtered, kl) } }]. *)
Fixpoint select (f : KeyLocation -> res bool) (all : list KeyLocation) : res (list KeyLocation) :=
  match all with
  | [] => mret []
  | kl :: all' =>
      b ← f kl;
      l ← select f all';
      mret (if b : bool then kl :: l else l)
  end.

Definition Prefix (prefix : bytes) : M State Iterator :=
  s ← self;
  filtered ← lift_res (select (fun kl => keyHasPrefix (Index.Key kl) prefix) (LiveEntries (index s)));
  mret (MkIterator filtered 0 None).

Definition Range (start stop : bytes) : M State Iterator :=
  s ← self;
  filtered ← lift_res (select (fun kl =>
    mret (bytes_leb start (Index.Key kl) && bytes_ltb (Index.Key kl) stop)) (LiveEntries (index s)));
  mret (MkIterator filtered 0 None).

(** The client loop [for ; it.Valid(); it.Next() { it.Key(); it.Value() }],
    collecting what it sees.  It makes at most as many rounds as there are
    entries left. *)
Fixpoint walk (fuel : nat) : M (State * Iterator) (list (bytes * option bytes)) :=
  match fuel with
  | O => mret []
  | S fuel' =>
      p ← get;
      if Valid p.2 then
        k ← lift_res (Key p.2);
        v ← Value;
        modify (fun q => (q.1, Next q.2)) ≫= fun _ =>
        l ← walk fuel';
        mret ((k, v) :: l)
      else mret []
  end.

Definition walk_all : M (State * Iterator) (list (bytes * option bytes)) :=
  p ← get; walk (S (length (entries p.2))).
End Iter.
