(* ===== verification/IterOps.v ===== *)
(** * Iterators: what a walk sees, and where [Seek] lands *)
From S2P Require Import Prelude LogEntry LogReader Index FileSys Segment Store Iter Repr StoreOps.
Import Index Segment Store Repr StoreOps.

Module IterOps.

(** ** Selection *)

Lemma select_filter f (P : KeyLocation -> Prop) `{!forall kl, Decision (P kl)} l :
  (forall kl, f kl = Ok (bool_decide (P kl))) -> Iter.select f l = Ok (filter P l).
Proof.
  intros Hf. induction l as [|kl l IH]; [done|]. cbn [Iter.select].
  rewrite Hf, IH. cbn [mbind res_bind]. unfold mret, res_ret. rewrite filter_cons.
  case_bool_decide; by case_decide.
Qed.

(** The prefix filter keeps the keys that END with the prefix. *)
Lemma keyHasPrefix_suffix key p : Iter.keyHasPrefix key p = Ok (bool_decide (p `suffix_of` key)).
Proof.
  unfold Iter.keyHasPrefix. destruct (Z.leb_spec (blen p) (blen key)) as [Hle|Hgt].
  - remember (length key - length p)%nat as n eqn:Hdef.
    assert (Hk : key = take n key ++ drop n key) by (by rewrite take_drop).
    assert (Hn : blen (take n key) = blen key - blen p).
    { unfold blen in *. rewrite length_take. lia. }
    assert (Hs : slice (blen key - blen p) (blen key) key = Ok (drop n key)).
    { pose proof (slice_app (take n key) (drop n key) [] (blen key - blen p) (blen key)) as Hs.
      rewrite app_nil_r, <- Hk in Hs. apply Hs; [done|].
      rewrite Hk at 1. rewrite blen_app. lia. }
    rewrite Hs. cbn [mbind res_bind]. unfold mret, res_ret. f_equal. apply bool_decide_ext.
    split.
    + intros <-. by exists (take n key).
    + intros [l Hl]. assert (Hnl : n = length l) by (rewrite Hdef, Hl, length_app; lia).
      rewrite Hnl, Hl. by rewrite drop_app_length.
  - unfold mret, res_ret. f_equal. symmetry. apply bool_decide_eq_false_2.
    intros [l ->]. rewrite blen_app in Hgt. pose proof (blen_nonneg l). lia.
Qed.

(** ** Binary search *)

(** [f] is false below [k] and true from [k] on. *)
Definition cut (n k : Z) (f : Z -> res bool) : Prop :=
  0 <= k <= n /\ forall i, 0 <= i < n -> f i = Ok (k <=? i).

Lemma search_loop_cut n k f : cut n k f -> n < 2 ^ 62 -> forall fuel i j,
  0 <= i <= k -> k <= j <= n -> (Z.to_nat (j - i) <= fuel)%nat ->
  Iter.search_loop fuel f i j = Ok k.
Proof.
  intros [Hk Hf] Hn. induction fuel as [|fuel IH]; intros i j Hi Hj Hfuel; cbn [Iter.search_loop];
    destruct (Z.ltb_spec i j) as [Hlt|Hge]; try (f_equal; lia).
  rewrite u64_small by lia. rewrite (i64_small ((i + j) / 2)).
  2:{ pose proof (Z.div_pos (i + j) 2 ltac:(lia) ltac:(lia)).
      pose proof (Z.div_lt_upper_bound (i + j) 2 (2 ^ 63) ltac:(lia) ltac:(lia)). lia. }
  assert (Hh : i <= (i + j) / 2 < j).
  { pose proof (Z.div_le_lower_bound (i + j) 2 i ltac:(lia) ltac:(lia)).
    pose proof (Z.div_lt_upper_bound (i + j) 2 j ltac:(lia) ltac:(lia)). lia. }
  set (h := (i + j) / 2) in *. rewrite Hf by lia. cbn [mbind res_bind].
  rewrite i64_small by lia.
  destruct (Z.leb_spec k h); cbn [negb]; apply IH; lia.
Qed.

(** In a list sorted by key, [Search] finds the number of smaller keys. *)
Lemma Seek_sorted target it :
  StronglySorted bytes_le (Index.Key <$> Iter.entries it) -> blen (Iter.entries it) < 2 ^ 62 ->
  exists before after,
    Iter.entries it = before ++ after
    /\ Iter.Seek target it = Ok (Iter.MkIterator (Iter.entries it) (blen before) None)
    /\ Forall (fun kl => bytes_ltb (Index.Key kl) target = true) before
    /\ Forall (fun kl => bytes_leb target (Index.Key kl) = true) after.
Proof.
  intros Hs Hn.
  assert (Hsplit : exists before after, Iter.entries it = before ++ after
    /\ Forall (fun kl => bytes_ltb (Index.Key kl) target = true) before
    /\ Forall (fun kl => bytes_leb target (Index.Key kl) = true) after).
  { clear Hn. induction (Iter.entries it) as [|kl l IH]; [by exists [], []|].
    rewrite fmap_cons in Hs. apply StronglySorted_inv in Hs as [Hs Hf].
    destruct (bytes_leb target (Index.Key kl)) eqn:E.
    - exists [], (kl :: l). split_and!; [done|constructor|]. constructor; [done|].
      rewrite Forall_fmap in Hf. eapply Forall_impl; [exact Hf|]. intros kl' H.
      by apply (bytes_le_trans _ (Index.Key kl)).
    - destruct (IH Hs) as (b & a & -> & Hb & Ha). exists (kl :: b), a.
      split_and!; [done| |done]. constructor; [|done]. unfold bytes_ltb. by rewrite E. }
  destruct Hsplit as (b & a & He & Hb & Ha). exists b, a. split_and!; [done| |done|done].
  unfold Iter.Seek, Iter.Search.
  rewrite (search_loop_cut (blen (Iter.entries it)) (blen b)); [done| |done| | |].
  - rewrite He. split; [rewrite blen_app; pose proof (blen_nonneg a);
      pose proof (blen_nonneg b); lia|].
    intros i Hi. unfold Prelude.index. rewrite (proj2 (Z.leb_le 0 i)) by lia.
    destruct (Z.leb_spec (blen b) i) as [Hge|Hlt].
    + rewrite lookup_app_r by (unfold blen in Hge; lia).
      destruct (a !! (Z.to_nat i - length b)%nat) as [kl|] eqn:E.
      * rewrite Forall_lookup in Ha. apply Ha in E. cbn. by rewrite E.
      * apply lookup_ge_None in E. unfold blen in *. rewrite length_app in Hi. lia.
    + rewrite lookup_app_l by (unfold blen in Hlt; lia).
      destruct (b !! Z.to_nat i) as [kl|] eqn:E.
      * rewrite Forall_lookup in Hb. apply Hb in E. cbn. unfold bytes_ltb in E.
        by destruct (bytes_leb target (Index.Key kl)).
      * apply lookup_ge_None in E. unfold blen in *. lia.
  - pose proof (blen_nonneg b). lia.
  - rewrite He, blen_app. pose proof (blen_nonneg a). lia.
  - unfold blen. lia.
Qed.

(** ** Walking *)

(** What a walk over [es] sees when the store represents [A]. *)
Definition seen (A : gmap bytes bytes) (es : list KeyLocation) : list (bytes * option bytes) :=
  (fun kl => (Index.Key kl, A !! Index.Key kl)) <$> es.

Lemma Valid_lt es p : Iter.Valid (Iter.MkIterator es p None) = (p <? blen es).
Proof. unfold Iter.Valid. cbn [Iter.pos Iter.entries Iter.err]. by rewrite bool_decide_eq_true_2, andb_true_r. Qed.

Lemma walk_Ok x G es before after fuel :
  Inv x G -> quiet x -> es = before ++ after -> blen es < 2 ^ 62 ->
  (length after < fuel)%nat ->
  exists it,
    Iter.walk fuel (x, Iter.MkIterator es (blen before) None)
    = ((x, it), Ok (seen (abs G (index (st x))) after)) /\ Iter.Valid it = false.
Proof.
  intros HI Hq -> Hn. revert before fuel Hn.
  induction after as [|kl after IH]; intros before fuel Hn Hf; (destruct fuel as [|fuel]; [cbn in Hf; lia|]).
  - exists (Iter.MkIterator (before ++ []) (blen before) None).
    assert (Hv : Iter.Valid (Iter.MkIterator (before ++ []) (blen before) None) = false).
    { rewrite Valid_lt, app_nil_r. apply Z.ltb_irrefl. }
    split; [|done]. cbn [Iter.walk]. rewrite (M_bind_Ok _ _ _ _ _ (eq_refl : get _ = _)).
    cbn [snd]. by rewrite Hv.
  - set (es := before ++ kl :: after) in *. set (it := Iter.MkIterator es (blen before) None).
    pose proof (blen_nonneg before) as H0. pose proof (blen_nonneg after) as H1.
    assert (Hlen : blen es = blen before + (1 + blen after))
      by (unfold es; by rewrite blen_app, blen_cons).
    assert (Hv : Iter.Valid it = true) by (unfold it; rewrite Valid_lt; apply Z.ltb_lt; lia).
    assert (Hi : Prelude.index (blen before) es = Ok kl).
    { unfold Prelude.index. rewrite (proj2 (Z.leb_le 0 _)) by lia.
      unfold es. by rewrite to_nat_blen, list_lookup_middle. }
    assert (Hkey : Iter.Key it = Ok (Index.Key kl)).
    { unfold Iter.Key. rewrite Hv. cbn [negb it Iter.pos Iter.entries]. by rewrite Hi. }
    assert (Hval : Iter.Value (x, it) = ((x, it), Ok (abs G (index (st x)) !! Index.Key kl))).
    { unfold Iter.Value. rewrite (M_bind_Ok _ _ _ _ _ (eq_refl : get _ = _)). cbv zeta.
      cbn [snd]. rewrite Hv. cbn [negb]. cbn [it Iter.pos Iter.entries].
      rewrite (lift_bind_Ok _ _ _ _ Hi). erewrite M_bind_Ok.
      2:{ apply attempt_Ok. unfold zoom. cbn [fst]. rewrite (Get_Ok x G _ HI Hq). reflexivity. }
      done. }
    assert (Hes : es = (before ++ [kl]) ++ after) by (unfold es; by rewrite <- app_assoc).
    destruct (IH (before ++ [kl]) fuel) as (it' & Hw & Hv'); [by rewrite <- Hes|cbn in Hf; lia|].
    exists it'. split; [|done]. cbn [Iter.walk].
    rewrite (M_bind_Ok _ _ _ _ _ (eq_refl : get _ = _)). cbn [snd]. rewrite Hv.
    rewrite (lift_bind_Ok _ _ _ _ Hkey), (M_bind_Ok _ _ _ _ _ Hval).
    rewrite (M_bind_Ok _ _ _ (x, Iter.Next it) tt) by done.
    assert (Hnext : Iter.Next it = Iter.MkIterator ((before ++ [kl]) ++ after) (blen (before ++ [kl])) None).
    { unfold Iter.Next. cbn [it Iter.entries Iter.pos Iter.err]. rewrite <- Hes.
      rewrite i64_small by lia. by rewrite blen_app. }
    rewrite Hnext, (M_bind_Ok _ _ _ _ _ Hw). done.
Qed.

Lemma walk_all_Ok x G es :
  Inv x G -> quiet x -> blen es < 2 ^ 62 ->
  exists it,
    Iter.walk_all (x, Iter.MkIterator es 0 None)
    = ((x, it), Ok (seen (abs G (index (st x))) es)) /\ Iter.Valid it = false.
Proof.
  intros HI Hq Hn. unfold Iter.walk_all.
  rewrite (M_bind_Ok _ _ _ _ _ (eq_refl : get _ = _)). cbn [snd Iter.entries].
  apply (walk_Ok x G es [] es); [done|done|done|done|lia].
Qed.

(** ** Listings *)

(** [l] lists the map [A] in key order, each key once. *)
Record lists (A : gmap bytes bytes) (l : list (bytes * bytes)) : Prop := {
  lists_NoDup : NoDup l.*1;
  lists_sorted : StronglySorted bytes_le l.*1;
  lists_elem : forall k v, (k, v) ∈ l <-> A !! k = Some v;
}.

(** The result of a walk that sees [l]. *)
Definition read_all (l : list (bytes * bytes)) : list (bytes * option bytes) :=
  (fun kv => (kv.1, Some kv.2)) <$> l.

Lemma StronglySorted_filter_keys (P : KeyLocation -> Prop) `{!forall kl, Decision (P kl)} l :
  StronglySorted bytes_le (Index.Key <$> l) -> StronglySorted bytes_le (Index.Key <$> filter P l).
Proof.
  induction l as [|kl l IH]; intros Hs; [constructor|].
  rewrite fmap_cons in Hs. apply StronglySorted_inv in Hs as [Hs Hf]. specialize (IH Hs).
  rewrite filter_cons. case_decide; [|done]. rewrite fmap_cons. constructor; [done|].
  rewrite Forall_forall in *. intros k (kl' & -> & [_ Hin]%list_elem_of_filter)%list_elem_of_fmap.
  apply Hf, list_elem_of_fmap. eauto.
Qed.

(** The selected live entries are the listing of the selected part of the map. *)
Lemma select_lists x G (P : bytes -> Prop) `{!forall k, Decision (P k)} :
  Inv x G ->
  exists l, seen (abs G (index (st x)))
              (filter (fun kl => P (Index.Key kl)) (LiveEntries (index (st x)))) = read_all l
    /\ lists (filter (fun kv => P kv.1) (abs G (index (st x)))) l.
Proof.
  intros HI. set (A := abs G (index (st x))). set (es := filter _ (LiveEntries _)).
  exists ((fun kl => (Index.Key kl, default [] (A !! Index.Key kl))) <$> es).
  assert (Hkey : forall k, k ∈ Index.Key <$> es <-> P k /\ is_Some (A !! k)).
  { intros k. unfold A. rewrite <- map_fst_is_Some, <- (dom_live x G HI), !list_elem_of_fmap.
    unfold es. split.
    - intros (kl & -> & [HP Hin]%list_elem_of_filter). split; [done|]. by exists kl.
    - intros (HP & kl & -> & Hin). exists kl. by rewrite list_elem_of_filter. }
  assert (Hfst : ((fun kl => (Index.Key kl, default [] (A !! Index.Key kl))) <$> es).*1
                 = Index.Key <$> es) by (by rewrite <- list_fmap_compose).
  split; [|split].
  - unfold seen, read_all. rewrite <- list_fmap_compose. apply list_fmap_ext.
    intros i kl Hi. apply list_elem_of_lookup_2 in Hi. cbn.
    destruct (proj1 (Hkey (Index.Key kl))) as [_ [v Hv]]; [apply list_elem_of_fmap; eauto|].
    by rewrite Hv.
  - rewrite Hfst. eapply sublist_NoDup; [apply (NoDup_LiveEntries (index (st x)))|].
    apply fmap_sublist, sublist_filter.
  - rewrite Hfst. apply StronglySorted_filter_keys, Sorted_LiveKeys.
  - intros k v. rewrite map_lookup_filter_Some, list_elem_of_fmap. cbn [fst]. split.
    + intros (kl & [= -> ->] & Hin).
      destruct (proj1 (Hkey (Index.Key kl))) as [HP [v Hv]]; [apply list_elem_of_fmap; eauto|].
      by rewrite Hv.
    + intros [Hv HP]. pose proof (proj2 (Hkey k) (conj HP (ex_intro _ v Hv))) as Hin.
      apply list_elem_of_fmap in Hin as (kl & -> & Hin).
      exists kl. by rewrite Hv.
Qed.

(** Walking an iterator over selected entries. *)
Lemma walk_select x G (P : bytes -> Prop) `{!forall k, Decision (P k)} :
  Inv x G -> quiet x -> blen (LiveEntries (index (st x))) < 2 ^ 62 ->
  exists it l,
    Iter.walk_all
      (x, Iter.MkIterator (filter (fun kl => P (Index.Key kl)) (LiveEntries (index (st x)))) 0 None)
    = ((x, it), Ok (read_all l)) /\ Iter.Valid it = false
    /\ lists (filter (fun kv => P kv.1) (abs G (index (st x)))) l.
Proof.
  intros HI Hq Hn. destruct (select_lists x G P HI) as (l & Hl & HL).
  destruct (walk_all_Ok x G (filter (fun kl => P (Index.Key kl)) (LiveEntries (index (st x)))) HI Hq)
    as (it & Hw & Hv).
  { pose proof (length_filter (fun kl => P (Index.Key kl)) (LiveEntries (index (st x)))).
    unfold blen in *. lia. }
  exists it, l. by rewrite Hw, Hl.
Qed.

(** ** On a closed store *)

(** Reading a value fails, and the iterator remembers the error. *)
Lemma Value_closed x it :
  closed (st x) = true -> 0 <= Iter.pos it ->
  Iter.Value (x, it)
  = ((x, Iter.MkIterator (Iter.entries it) (Iter.pos it)
           (if Iter.Valid it then Some ErrClosed else Iter.err it)), Err ErrClosed).
Proof.
  intros Hc Hp. unfold Iter.Value. rewrite (M_bind_Ok _ _ (x, it) (x, it) (x, it)) by done.
  cbn [snd]. destruct (Iter.Valid it) eqn:Hv; cbn [negb]; [|by destruct it].
  unfold Iter.Valid in Hv. apply andb_true_iff in Hv as [Hlt%Z.ltb_lt He%bool_decide_eq_true].
  assert (Hi : exists kl, Prelude.index (Iter.pos it) (Iter.entries it) = Ok kl).
  { unfold Prelude.index. rewrite (proj2 (Z.leb_le _ _)) by done.
    destruct (lookup_lt_is_Some_2 (Iter.entries it) (Z.to_nat (Iter.pos it))) as [kl ->]; [|eauto].
    unfold blen in Hlt. lia. }
  destruct Hi as [kl Hi]. rewrite (lift_bind_Ok _ _ _ _ Hi).
  rewrite (M_bind_Ok _ _ (x, it) (x, it) (inl ErrClosed)); [done|].
  apply attempt_Err. unfold zoom. cbn [fst]. unfold Store.Get. by rewrite self_bind, Hc.
Qed.

(** The selections depend on the index only. *)
Lemma same_index_Prefix x y p :
  index (st x) = index (st y) -> (Iter.Prefix p x).2 = (Iter.Prefix p y).2.
Proof.
  intros Hi. unfold Iter.Prefix. rewrite !self_bind, Hi. unfold lift_res, mbind, M_bind.
  by destruct (Iter.select _ _).
Qed.

Lemma same_index_Range x y start stop :
  index (st x) = index (st y) -> (Iter.Range start stop x).2 = (Iter.Range start stop y).2.
Proof.
  intros Hi. unfold Iter.Range. rewrite !self_bind, Hi. unfold lift_res, mbind, M_bind.
  by destruct (Iter.select _ _).
Qed.

Lemma FileIDs_closed `{!GoRange Z} s : segments s = ∅ -> FileIDs s = [].
Proof.
  intros Hs. unfold FileIDs. rewrite Hs.
  assert (Hp : go_range (∅ : gmap Z ptr) = []) by (apply Permutation_nil_r; by rewrite go_range_perm).
  by rewrite Hp.
Qed.
End IterOps.
