(* ===== verification/SnapshotOps.v ===== *)
(** * What a snapshot and a backup hold *)
From S2P Require Import Prelude LogEntry LogReader Index FileSys Segment Store Snapshot Repr StoreOps Recovery Opening Durable Compaction.
Import LogReader Index Segment Store Repr StoreOps Recovery Opening Durable Compaction.

Module SnapshotOps.

(** ** Directories that do not interfere *)

Lemma disk_frame s s' d G :
  disk s d G -> FileSys.dirs s ⊆ FileSys.dirs s' ->
  (forall n, FileSys.names s' !! (d, n) = FileSys.names s !! (d, n)) ->
  FileSys.data s' = FileSys.data s ->
  (forall key ino, FileSys.names s' !! key = Some (FileSys.DFile ino) -> (ino < FileSys.next s')%nat) ->
  disk s' d G.
Proof.
  intros [H1 H2 H3 H4 H5 H6 H7 H8] Hds Hn Hd Hf. split; try done.
  - set_solver.
  - intros id ino c H. rewrite Hn, Hd. by apply H2.
  - intros name e id. rewrite Hn. apply H5.
  - intros e. rewrite Hn. apply H8.
Qed.

(** Naming an existing inode as a segment. *)
Lemma disk_link s d G id ino c :
  disk s d G -> G !! id = None -> 0 <= id < max_id -> FileSys.data s !! ino = Some c ->
  blen c <= FileSys.max_file -> (ino < FileSys.next s)%nat ->
  (forall id' c', G !! id' <> Some (ino, c')) ->
  FileSys.names s !! (d, hintFile) = None ->
  disk (FileSys.set_names (<[(d, SegmentName id) := FileSys.DFile ino]> (FileSys.names s)) s) d
    (<[id := (ino, c)]> G).
Proof.
  intros [H1 H2 H3 H4 H5 H6 H7 H8] Hid Hr Hc Hsz Hlt Hinj Hh.
  split; cbn [FileSys.set_names FileSys.dirs FileSys.names FileSys.data FileSys.next].
  - done.
  - intros i ino' c'. rewrite lookup_insert_Some. intros [[<- [= <- <-]]|[Hne H]].
    + by rewrite lookup_insert_eq.
    + destruct (H2 _ _ _ H) as [Hn Hd]. rewrite lookup_insert_ne; [done|].
      intros [= He]. apply Hne, SegmentName_inj; [done|apply H3; eauto|done].
  - intros i. rewrite lookup_insert_is_Some'. intros [<-|H]; [done|by apply H3].
  - intros i ino' c'. rewrite lookup_insert_Some. intros [[<- [= <- <-]]|[Hne H]]; [done|].
    by apply (H4 i ino').
  - intros name e i. rewrite lookup_insert_Some, lookup_insert_is_Some'.
    intros [[[= <-] _]|[Hne H]] Hp.
    + left. apply ParseSegmentID_spec in Hp as [Hi He]. by apply SegmentName_inj.
    + right. by eapply H5.
  - intros i j ino' c1 c2. rewrite !lookup_insert_Some.
    intros [[<- [= <- <-]]|[Hne Ha]] [[<- [= <-]]|[Hne' Hb]]; try done.
    + by apply Hinj in Hb.
    + by apply Hinj in Ha.
    + by eapply H6.
  - intros key ino'. rewrite lookup_insert_Some. intros [[_ [= <-]]|[_ H]]; [done|by eapply H7].
  - intros e. rewrite lookup_insert_ne; [by rewrite Hh|]. by apply hint_name_ne.
Qed.

(** Naming an existing inode as the hint file. *)
Lemma disk_link_hint s d G ino :
  disk s d G -> (ino < FileSys.next s)%nat -> (forall id c, G !! id <> Some (ino, c)) ->
  disk (FileSys.set_names (<[(d, hintFile) := FileSys.DFile ino]> (FileSys.names s)) s) d G.
Proof.
  intros [H1 H2 H3 H4 H5 H6 H7 H8] Hlt Hinj.
  split; cbn [FileSys.set_names FileSys.dirs FileSys.names FileSys.data FileSys.next]; try done.
  - intros i ino' c' H. destruct (H2 _ _ _ H) as [Hn Hd]. split; [|done].
    rewrite lookup_insert_ne; [done|]. intros He. symmetry in He.
    apply (hint_name_ne d i); [|done]. apply H3. eauto.
  - intros name e i. rewrite lookup_insert_Some. intros [[[= <-] _]|[Hne H]] Hp; [done|].
    by eapply H5.
  - intros key ino'. rewrite lookup_insert_Some. intros [[_ [= <-]]|[_ H]]; [done|by eapply H7].
  - intros e. rewrite lookup_insert_eq. intros [= <-]. by exists ino.
Qed.

(** ** Linking *)

Lemma link_Ok w sd sn d n ino :
  no_faults w -> FileSys.names (fs w) !! (sd, sn) = Some (FileSys.DFile ino) ->
  FileSys.names (fs w) !! (d, n) = None -> d ∈ FileSys.dirs (fs w) ->
  Snapshot.linkOrCopy (sd, sn) (d, n) w
  = (MkWorld (FileSys.set_names (<[(d, n) := FileSys.DFile ino]> (FileSys.names (fs w))) (fs w))
       (heap w) (hnext w), Ok tt).
Proof.
  intros Hq Hs Hd Hin. unfold Snapshot.linkOrCopy. erewrite M_bind_Ok.
  2:{ apply attempt_Ok, os_Ok. cbn [fst snd]. unfold FileSys.Link.
      rewrite FileSys.syscall_none, Hs, Hd by done.
      rewrite bool_decide_eq_true_2 by done. reflexivity. }
  done.
Qed.

(** The contents a list of segments selects. *)
Definition selects (l : list (Z * ptr)) (G G0 G1 : Contents) : Prop :=
  forall id, G1 !! id = if bool_decide (id ∈ l.*1) then G !! id else G0 !! id.

(** One more file in the snapshot leaves the source directory alone. *)
Lemma link_disks s d dst G G0 id ino c :
  disk s d G -> disk s dst G0 -> dst <> d -> G !! id = Some (ino, c) -> G0 !! id = None ->
  FileSys.names s !! (dst, hintFile) = None ->
  (forall id' ino' c' id'' c'', G0 !! id' = Some (ino', c') -> G !! id'' = Some (ino', c'') -> id' = id'') ->
  let s1 := FileSys.set_names (<[(dst, SegmentName id) := FileSys.DFile ino]> (FileSys.names s)) s in
  disk s1 dst (<[id := (ino, c)]> G0) /\ disk s1 d G /\ FileSys.names s1 !! (dst, hintFile) = None.
Proof.
  intros Hd Hd0 Hne HG H0 Hh Hinj. pose proof (disk_id _ _ _ Hd id ltac:(eauto)) as Hr.
  destruct (disk_file _ _ _ Hd _ _ _ HG) as [Hn Hc]. cbv zeta. split_and!.
  - apply disk_link; try done.
    + by eapply (disk_size _ _ _ Hd).
    + apply (disk_ino_fresh _ _ _ _ _ _ Hd HG).
    + intros id' c' H. pose proof (Hinj _ _ _ _ _ H HG) as ->. congruence.
  - apply (disk_frame _ _ _ _ Hd); cbn [FileSys.set_names FileSys.dirs FileSys.names
      FileSys.data FileSys.next].
    + done.
    + intros n. rewrite lookup_insert_ne; [done|]. congruence.
    + done.
    + intros key i. rewrite lookup_insert_Some. intros [[_ [= <-]]|[_ H]].
      * apply (disk_ino_fresh _ _ _ _ _ _ Hd HG).
      * by eapply (disk_fresh _ _ _ Hd).
  - cbn [FileSys.set_names FileSys.names]. rewrite lookup_insert_ne; [done|]. by apply hint_name_ne.
Qed.

Definition with_fs (s : FileSys.FS) (x : State) : State :=
  MkState (MkWorld s (heap (world x)) (hnext (world x))) (st x).

Lemma link_segments_cons l x dst id p ino c :
  quiet x -> heap (world x) !! p = Some (segment_of (dir (st x)) id ino c) ->
  FileSys.names (fs (world x)) !! (dir (st x), SegmentName id) = Some (FileSys.DFile ino) ->
  FileSys.names (fs (world x)) !! (dst, SegmentName id) = None -> dst ∈ FileSys.dirs (fs (world x)) ->
  Snapshot.link_segments dst ((id, p) :: l) x
  = Snapshot.link_segments dst l
      (with_fs (FileSys.set_names (<[(dst, SegmentName id) := FileSys.DFile ino]>
         (FileSys.names (fs (world x)))) (fs (world x))) x).
Proof.
  intros Hq Hp Hn Hn0 Hdst. unfold Snapshot.link_segments. cbn [range_loop].
  rewrite (M_bind_Ok _ _ _ (with_fs (FileSys.set_names (<[(dst, SegmentName id) := FileSys.DFile ino]>
         (FileSys.names (fs (world x)))) (fs (world x))) x) tt); [done|].
  assert (Hpath : on_world (Path p) x = (x, Ok (SegmentPath (dir (st x)) id))).
  { apply on_world_Ok_same. unfold Path. by rewrite (M_bind_Ok _ _ _ _ _ (load_Ok _ _ _ Hp)). }
  rewrite (M_bind_Ok _ _ _ _ _ Hpath). apply wrapping_Ok, on_world_Ok.
  by apply (link_Ok _ _ _ _ _ ino Hq Hn Hn0).
Qed.

Lemma link_segments_Ok l x G dst G0 :
  quiet x -> dst <> dir (st x) -> disk (fs (world x)) (dir (st x)) G ->
  disk (fs (world x)) dst G0 -> FileSys.names (fs (world x)) !! (dst, hintFile) = None ->
  NoDup l.*1 ->
  (forall id p, (id, p) ∈ l -> G0 !! id = None /\ exists ino c, G !! id = Some (ino, c)
     /\ heap (world x) !! p = Some (segment_of (dir (st x)) id ino c)) ->
  (forall id ino c id' c', G0 !! id = Some (ino, c) -> G !! id' = Some (ino, c') -> id = id') ->
  exists N G1,
    Snapshot.link_segments dst l x
    = (MkState (MkWorld (FileSys.set_names N (fs (world x))) (heap (world x)) (hnext (world x)))
         (st x), Ok tt)
    /\ disk (FileSys.set_names N (fs (world x))) (dir (st x)) G
    /\ disk (FileSys.set_names N (fs (world x))) dst G1 /\ selects l G G0 G1
    /\ N !! (dst, hintFile) = None
    /\ (forall d n, d <> dst -> N !! (d, n) = FileSys.names (fs (world x)) !! (d, n)).
Proof.
  revert x G0. induction l as [|[id p] l IH]; intros x G0 Hq Hne Hd Hd0 Hh Hnd Hl Hinj.
  { exists (FileSys.names (fs (world x))), G0.
    assert (Hs : FileSys.set_names (FileSys.names (fs (world x))) (fs (world x)) = fs (world x))
      by (by destruct (fs (world x))).
    rewrite Hs. split_and!; try done. by destruct x as [[] ?]. }
  rewrite fmap_cons in Hnd. apply NoDup_cons in Hnd as [Hid Hnd].
  destruct (Hl id p) as (H0 & ino & c & HG & Hp); [by left|].
  destruct (link_disks _ _ _ _ _ _ _ _ Hd Hd0 Hne HG H0 Hh Hinj) as (Hd1 & Hds & Hh1).
  set (s1 := FileSys.set_names _ _) in *.
  destruct (IH (with_fs s1 x) (<[id := (ino, c)]> G0)) as (N & G1 & Hrun & Ha & Hb & Hsel & Hh' & Hfr);
    [done|done|exact Hds|exact Hd1|exact Hh1|done| | |].
  - intros id' p' Hin. destruct (Hl id' p') as (Hn' & i & c' & Hg' & Hp'); [by right|].
    split; [|by exists i, c']. rewrite lookup_insert_ne; [done|]. intros ->. apply Hid.
    apply list_elem_of_fmap. by exists (id', p').
  - intros i j c1 i' c2. rewrite lookup_insert_Some. intros [[<- [= <- <-]]|[_ H]] H2.
    + by eapply (disk_inj _ _ _ Hd).
    + by eapply Hinj.
  - exists N, G1. split_and!; try done.
    + rewrite (link_segments_cons l x dst id p ino c Hq Hp); [exact Hrun| | |apply Hd0].
      * apply (disk_file _ _ _ Hd _ _ _ HG).
      * apply (disk_no_segment _ _ _ id Hd0 H0), (disk_id _ _ _ Hd). eauto.
    + intros i. rewrite (Hsel i), fmap_cons. cbn [fst].
      case_bool_decide as E1; case_bool_decide as E2; try done.
      * exfalso. apply E2. by right.
      * apply elem_of_cons in E2 as [->|]; [|done]. by rewrite lookup_insert_eq.
      * apply not_elem_of_cons in E2 as [? _]. by rewrite lookup_insert_ne.
    + intros d n Hdn. rewrite (Hfr d n Hdn). cbn [with_fs s1 world fs FileSys.set_names FileSys.names].
      rewrite lookup_insert_ne; [done|]. congruence.
Qed.

(** ** Snapshots *)

Section WithRange.
Context `{!GoRange Z}.

Definition fresh_dir (s : FileSys.FS) (d : bytes) : Prop :=
  forall name, FileSys.names s !! (d, name) = None.

Lemma mkdir_disk s d :
  fresh_dir s d ->
  (forall key ino, FileSys.names s !! key = Some (FileSys.DFile ino) -> (ino < FileSys.next s)%nat) ->
  disk (FileSys.MkFS ({[d]} ∪ FileSys.dirs s) (FileSys.names s) (FileSys.data s)
          (FileSys.next s) (FileSys.faults s)) d ∅.
Proof.
  intros Hn Hf. split; cbn [FileSys.dirs FileSys.names FileSys.data FileSys.next]; try done.
  - set_solver.
  - intros id [y H]. done.
  - intros name e id H. by rewrite Hn in H.
  - intros e H. by rewrite Hn in H.
Qed.

(** The hint file, if there is one, gets a name in the new directory. *)
Lemma link_hint_Ok x d dst G :
  quiet x -> dst <> d -> disk (fs (world x)) d G -> disk (fs (world x)) dst G ->
  FileSys.names (fs (world x)) !! (dst, hintFile) = None ->
  exists s, Snapshot.link_hint d dst x = (with_fs s x, Ok tt)
    /\ disk s d G /\ disk s dst G /\ FileSys.faults s = []
    /\ FileSys.names s !! (d, hintFile) = FileSys.names (fs (world x)) !! (d, hintFile)
    /\ FileSys.names s !! (dst, hintFile) = FileSys.names (fs (world x)) !! (d, hintFile)
    /\ FileSys.data s = FileSys.data (fs (world x)).
Proof.
  intros Hq Hne Hd Hdst Hh. unfold Snapshot.link_hint.
  destruct (FileSys.names (fs (world x)) !! (d, hintFile)) as [e|] eqn:E.
  - destruct (disk_hint _ _ _ Hd _ E) as (ino & -> & Hino).
    exists (FileSys.set_names (<[(dst, hintFile) := FileSys.DFile ino]> (FileSys.names (fs (world x))))
              (fs (world x))).
    split_and!; cbn [FileSys.set_names FileSys.names FileSys.data]; [| | |done|..|done].
    + rewrite (M_bind_Ok _ _ _ x (inr tt)).
      2:{ apply attempt_Ok, (on_world_Ok_same _ x), os_Ok_same. unfold FileSys.Stat.
          by rewrite FileSys.syscall_none, E. }
      apply wrapping_Ok, on_world_Ok, (link_Ok _ _ _ _ _ ino Hq E Hh). apply Hdst.
    + apply (disk_frame _ _ _ _ Hd); cbn [FileSys.set_names FileSys.dirs FileSys.names
        FileSys.data FileSys.next]; [done| |done|].
      * intros n. rewrite lookup_insert_ne; [done|]. congruence.
      * intros key i. rewrite lookup_insert_Some.
        intros [[_ [= <-]]|[_ H]]; by eapply (disk_fresh _ _ _ Hd).
    + apply disk_link_hint; [done|by eapply (disk_fresh _ _ _ Hd)|done].
    + rewrite lookup_insert_ne; [done|]. congruence.
    + by rewrite lookup_insert_eq.
  - exists (fs (world x)). split_and!; try done.
    rewrite (M_bind_Ok _ _ _ x (inl FileSys.ErrNotExist)); [by destruct x as [[] ?]|].
    apply attempt_Err. unfold on_world, zoom. rewrite (os_Err_same _ _ FileSys.ErrNotExist).
    { by destruct x as [[] ?]. }
    unfold FileSys.Stat. by rewrite FileSys.syscall_none, E.
Qed.

Lemma Inv_with_fs x G s : Inv x G -> disk s (dir (st x)) G -> Inv (with_fs s x) G.
Proof. intros [I1 I2 I3 I4 I5] Hs. by split. Qed.

(** Linking all segments of a store: both directories have the same contents. *)
Lemma link_all_Ok x G dst :
  Inv x G -> quiet x -> dst <> dir (st x) -> disk (fs (world x)) dst ∅ ->
  FileSys.names (fs (world x)) !! (dst, hintFile) = None ->
  exists N, Snapshot.link_segments dst (go_range (segments (st x))) x
    = (with_fs (FileSys.set_names N (fs (world x))) x, Ok tt)
    /\ disk (FileSys.set_names N (fs (world x))) (dir (st x)) G
    /\ disk (FileSys.set_names N (fs (world x))) dst G /\ N !! (dst, hintFile) = None
    /\ N !! (dir (st x), hintFile) = FileSys.names (fs (world x)) !! (dir (st x), hintFile).
Proof.
  intros HI Hq Hne Hd0 Hh.
  destruct (link_segments_Ok (go_range (segments (st x))) x G dst ∅ Hq Hne (inv_disk _ _ HI) Hd0 Hh
    (NoDup_range_ids _)) as (N & G1 & Hrun & Ha & Hb & Hsel & Hh' & Hnames).
  { intros id p Hin. rewrite (go_range_perm (segments (st x))) in Hin. apply elem_of_map_to_list in Hin.
    split; [done|]. destruct (opens_segment _ _ _ _ _ (inv_opens _ _ HI) Hin) as (ino & c & HG & Hp & _).
    eauto. }
  { intros id ino c id' c' H. done. }
  assert (G1 = G) as ->.
  { apply map_eq. intros id. rewrite Hsel. case_bool_decide as Hi; [done|].
    destruct (G !! id) as [y|] eqn:E; [|done]. exfalso. apply Hi.
    rewrite elem_of_range_ids, <- (opens_Some _ _ _ _ (inv_opens _ _ HI)). eauto. }
  exists N. split_and!; try done. by apply Hnames.
Qed.

(** Both directories hold the same inodes after a snapshot. *)
Lemma Snapshot_Ok x G dst :
  Inv x G -> quiet x -> dst <> dir (st x) -> fresh_dir (fs (world x)) dst ->
  exists s,
    Snapshot.Snapshot dst x = (with_fs s x, Ok tt) /\ Inv (with_fs s x) G
    /\ disk s dst G /\ FileSys.faults s = []
    /\ FileSys.names s !! (dir (st x), hintFile) = FileSys.names (fs (world x)) !! (dir (st x), hintFile)
    /\ FileSys.names s !! (dst, hintFile) = FileSys.names (fs (world x)) !! (dir (st x), hintFile)
    /\ FileSys.data s = FileSys.data (fs (world x)).
Proof.
  intros HI Hq Hne Hfr. pose proof (inv_disk _ _ HI) as Hd.
  set (s1 := FileSys.MkFS ({[dst]} ∪ FileSys.dirs (fs (world x))) (FileSys.names (fs (world x)))
    (FileSys.data (fs (world x))) (FileSys.next (fs (world x))) (FileSys.faults (fs (world x)))).
  assert (Hmk : on_world (os (FileSys.MkdirAll dst)) x = (with_fs s1 x, Ok tt)).
  { apply on_world_Ok, os_Ok. unfold FileSys.MkdirAll. by rewrite FileSys.syscall_none. }
  assert (HI1 : Inv (with_fs s1 x) G).
  { apply Inv_with_fs; [done|]. apply (disk_frame _ _ _ _ Hd);
      cbn [s1 FileSys.dirs FileSys.names FileSys.data FileSys.next]; [set_solver|done|done|apply Hd]. }
  destruct (link_all_Ok (with_fs s1 x) G dst HI1 Hq Hne) as (N & Hrun & Ha & Hb & Hh & Hh');
    [apply mkdir_disk; [done|apply Hd]|apply Hfr|].
  destruct (link_hint_Ok (with_fs (FileSys.set_names N s1) x) (dir (st x)) dst G Hq Hne Ha Hb Hh)
    as (s & Hl & Hd2 & Hd3 & Hf & H1 & H2 & H3).
  exists s. split_and!; [|by apply Inv_with_fs|done|done|by rewrite H1|by rewrite H2|done].
  unfold Snapshot.Snapshot. rewrite self_bind, (inv_closed _ _ HI).
  rewrite (M_bind_Ok _ _ _ _ _ (wrapping_Ok _ _ _ _ _ (active_sync_Ok x G HI Hq))).
  rewrite (M_bind_Ok _ _ _ _ _ (wrapping_Ok _ _ _ _ _ Hmk)), (M_bind_Ok _ _ _ _ _ Hrun). exact Hl.
Qed.

(** Opening the snapshot of a durable store. *)
Lemma Snapshot_opens x G L dst o :
  Durable x G L -> quiet x -> dst <> dir (st x) -> fresh_dir (fs (world x)) dst ->
  exists x1 w s,
    Snapshot.Snapshot dst x = (x1, Ok tt) /\ Durable x1 G L /\ quiet x1 /\ st x1 = st x
    /\ heap (world x1) = heap (world x)
    /\ disk (fs (world x1)) dst G /\ FileSys.names (fs (world x1)) !! (dst, hintFile) = None
    /\ OpenWithOptions dst o (world x1) = (w, Ok s) /\ Inv (MkState w s) G
    /\ index s = index (st x).
Proof.
  intros HD Hq Hne Hfr. pose proof (dur_inv _ _ _ HD) as HI.
  destruct (Snapshot_Ok x G dst HI Hq Hne Hfr) as (s & Hs & HI1 & Hdst & Hf & Hh1 & Hh2 & _).
  set (x1 := with_fs s x) in *. pose proof (dur_hint _ _ _ HD) as Hnone. unfold hint_free in Hnone.
  rewrite Hnone in Hh1, Hh2. destruct (inv_active _ _ HI) as (_ & Hact & _).
  destruct (OpenWithOptions_scan (world x1) dst o G L _ Hf Hdst Hact (dur_log _ _ _ HD) Hh2)
    as (w & s' & Hopen & HI' & _ & Hidx).
  exists x1, w, s'. split_and!; try done.
  - split; [done|apply HD|apply HD|done].
  - by rewrite (dur_index _ _ _ HD).
Qed.

(** A later write to the store, without rotation, is a write to the snapshot. *)
Lemma Put_after_Snapshot x G L dst o key value :
  Durable x G L -> quiet x -> disk (fs (world x)) dst G ->
  FileSys.names (fs (world x)) !! (dst, hintFile) = None ->
  MaxFileSize (opts (st x)) <= 0 -> key <> [] -> readable (MkRec key value false) ->
  room x (LogEntry.frameSize (blen key) (blen value)) 1 ->
  exists x2 G2 w s,
    Store.Put key value x = (x2, Ok tt)
    /\ OpenWithOptions dst o (world x2) = (w, Ok s) /\ Inv (MkState w s) G2
    /\ abs G2 (index s) = <[key := value]> (abs G (index (st x))).
Proof.
  intros HD Hq Hdst Hh Hmax Hne Hr Hroom. pose proof (dur_inv _ _ _ HD) as HI.
  rewrite <- (LogEntry.blen_Encode key value false) in Hroom.
  pose proof (readable_fits _ Hr) as Hf. cbn [rkey rvalue] in Hf.
  destruct (Inv_active x G HI) as (p & ino & c & Ha & Hp & HG & Hh0).
  destruct (room_active _ _ _ _ _ _ Hroom Ha Hh0) as [Hsz Hid].
  destruct (Inv_written x G p ino c key value false HI Ha Hp HG Hh0 Hf Hsz) as [HI1 Habs].
  pose proof (Put_eq x G key value p ino c HI Hq Hne Hf Ha Hp HG Hh0 Hsz Hid) as Hput.
  cbv zeta in Hput. unfold rotates in Hput. rewrite (proj2 (Z.ltb_ge 0 _) Hmax) in Hput.
  cbn [andb] in Hput. set (x2 := written x p ino c key value false) in *.
  destruct (inv_active _ _ HI) as (_ & Hs & Hle).
  destruct (log_last _ _ _ (dur_log _ _ _ HD) Hs Hle) as (L0 & rs & -> & Hlt).
  destruct (log_of_append _ _ _ _ _ _ (MkRec key value false) (dur_log _ _ _ HD) Hlt HG Hr)
    as [Hc HL2].
  unfold enc in HL2. cbn [rkey rvalue rtomb] in HL2. set (G2 := <[activeID (st x) := _]> G) in *.
  assert (Hdst2 : disk (fs (world x2)) dst G2).
  { apply disk_append; [done|done|]. by rewrite blen_app. }
  destruct (OpenWithOptions_scan (world x2) dst o G2 _ (activeID (st x)) Hq Hdst2
    ltac:(unfold G2; rewrite lookup_insert_eq; eauto) HL2 Hh) as (w & s & Hopen & HI2 & _ & Hidx).
  exists x2, G2, w, s. split_and!; try done. rewrite Hidx, <- Habs. f_equal.
  rewrite replay_append, <- Hc. unfold enc. cbn [rkey rvalue rtomb].
  by rewrite <- (dur_index _ _ _ HD).
Qed.
End WithRange.
End SnapshotOps.
