(* ===== verification/BackupOps.v ===== *)
(** * Backup and restore: the round trip *)
From S2P Require Import Prelude LogEntry LogReader Index FileSys Segment Store Snapshot Backup Repr StoreOps Recovery Opening Durable Compaction SnapshotOps.
Import LogReader Index Segment Store Backup Repr StoreOps Recovery Opening Durable Compaction SnapshotOps.

Module BackupOps.

(** ** Contents up to inodes *)

Definition same_bytes (G G' : Contents) : Prop := forall id, snd <$> G !! id = snd <$> G' !! id.

Lemma same_bytes_lookup G G' id ino c :
  same_bytes G G' -> G !! id = Some (ino, c) -> exists ino', G' !! id = Some (ino', c).
Proof.
  intros Hs HG. specialize (Hs id). rewrite HG in Hs. cbn in Hs.
  destruct (G' !! id) as [[ino' c']|]; [|done]. cbn in Hs. simplify_eq. by exists ino'.
Qed.

Lemma same_bytes_sym G G' : same_bytes G G' -> same_bytes G' G.
Proof. intros H id. by rewrite H. Qed.

Lemma log_of_same_bytes G G' L : same_bytes G G' -> log_of G L -> log_of G' L.
Proof.
  intros Hs [H1 H2 H3]. split; [done| |done]. intros id c. rewrite <- H2. split.
  - intros [ino H]. by eapply same_bytes_lookup, H; apply same_bytes_sym.
  - intros [ino H]. by eapply same_bytes_lookup.
Qed.

Lemma rec_val_same_bytes G G' k loc v : same_bytes G G' -> rec_val G k loc v -> rec_val G' k loc v.
Proof.
  intros Hs (ino & pre & post & HG & Hr). destruct (same_bytes_lookup _ _ _ _ _ Hs HG) as [ino' HG'].
  by exists ino', pre, post.
Qed.

Lemma abs_same_bytes G G' idx : same_bytes G G' -> idx_ok G idx -> abs G' idx = abs G idx.
Proof.
  intros Hs Hi. apply map_eq. intros k. unfold abs. rewrite !lookup_omap.
  destruct (idx !! k) as [loc|] eqn:E; [|done]. cbn. destruct (Tombstone loc); [done|].
  destruct (Hi _ _ E) as [v Hv]. rewrite (value_at_rec _ _ _ _ Hv).
  by apply (value_at_rec _ k), (rec_val_same_bytes G).
Qed.

(** ** Reading the segments *)

Definition tar_of (G : Contents) (id : Z) : Snapshot.tar_entry :=
  Snapshot.tar_file (SegmentName id) (match G !! id with Some (_, c) => c | None => [] end).

Section WithArchive.
Context `{!GoRange Z} {St : Type} `{!Archiver St} (emit : list Snapshot.tar_entry -> St)
  `{!ArchiverSpec emit}.

Lemma on_store_Ok {A} (m : M State A) x x' (s : St) a :
  m x = (x', Ok a) -> on_store m (x, s) = ((x', s), Ok a).
Proof using Type. intros H. unfold on_store, zoom. cbn. by rewrite H. Qed.

Lemma fs_call_Ok {A} (m : M FileSys.FS A) x (s : St) a :
  m (fs (world x)) = (fs (world x), Ok a) -> fs_call m (x, s) = ((x, s), Ok a).
Proof using Type. intros H. by apply on_store_Ok, on_world_Ok_same, os_Ok_same. Qed.

(** Header and data of one file, whose two calls to the archive are apart. *)
Lemma write_entry x l name c :
  exists s1, on_archive (WriteHeader name (blen c)) (x, emit l) = ((x, s1), Ok tt)
    /\ on_archive (Snapshot.io_Copy Write (MkIoReader c EOF)) (x, s1)
       = ((x, emit (l ++ [Snapshot.tar_file name c])), Ok tt).
Proof using All.
  pose proof (archiver_adds l name c) as H.
  apply M_bind_inv in H as (s1 & [] & Hh & Hw). exists s1. unfold on_archive, zoom. cbn.
  by rewrite Hh, Hw.
Qed.

Lemma addFileToTar_Ok x l d name ino c :
  quiet x -> FileSys.names (fs (world x)) !! (d, name) = Some (FileSys.DFile ino) ->
  FileSys.data (fs (world x)) !! ino = Some c ->
  addFileToTar (d, name) name (x, emit l)
  = ((x, emit (l ++ [Snapshot.tar_file name c])), Ok tt).
Proof using All.
  intros Hq Hn Hc. unfold addFileToTar. cbn [fst snd].
  mstep (fs_call_Ok _ x (emit l) _ (FileSys.Open_file _ (d, name) ino Hq Hn)).
  destruct (write_entry x l name c) as (s1 & Hh & Hw). set (s2 := emit (l ++ _)) in *.
  assert (Hcon : FileSys.content (fs (world x)) ino = c) by by apply FileSys.content_Some.
  rewrite (M_bind_Ok _ _ _ (x, s2) (inr tt)).
  2:{ apply attempt_Ok. rewrite (M_bind_Ok _ _ _ (x, emit l) (blen c)).
      2:{ apply fs_call_Ok. unfold FileSys.StatSize. by rewrite FileSys.syscall_none, Hcon. }
      mstep Hh. unfold copy_file. rewrite (M_bind_Ok _ _ _ (x, s1) (MkIoReader c EOF)).
      2:{ by apply fs_call_Ok, FileSys.stream_none. }
      exact Hw. }
  rewrite (M_bind_Ok _ _ _ (x, s2) tt); [done|].
  eapply ignore_Ok, fs_call_Ok. unfold FileSys.Close. by rewrite FileSys.syscall_none.
Qed.

Lemma backup_segments_Ok l x G tw :
  Inv x G -> quiet x -> (forall id p, (id, p) ∈ l -> segments (st x) !! id = Some p) ->
  range_loop l (fun '(id, seg) =>
    path ← on_store (on_world (Path seg));
    wrapping "store: backup segment %d: %w" (addFileToTar path (SegmentName id))) (x, emit tw)
  = ((x, emit (tw ++ (tar_of G <$> l.*1))), Ok tt).
Proof using All.
  intros HI Hq. revert tw. induction l as [|[id p] l IH]; intros tw Hl; cbn [range_loop].
  { cbn. by rewrite app_nil_r. }
  destruct (opens_segment _ _ _ _ _ (inv_opens _ _ HI) (Hl id p ltac:(by left)))
    as (ino & c & HG & Hp & _).
  destruct (disk_file _ _ _ (inv_disk _ _ HI) _ _ _ HG) as [Hn Hc].
  assert (Hpath : on_world (Path p) x = (x, Ok (SegmentPath (dir (st x)) id))).
  { apply on_world_Ok_same. unfold Path. by rewrite (M_bind_Ok _ _ _ _ _ (load_Ok _ _ _ Hp)). }
  rewrite (M_bind_Ok _ _ _ (x, emit (tw ++ [tar_of G id])) tt).
  - rewrite IH by (intros; apply Hl; by right). by rewrite <- app_assoc.
  - mstep (on_store_Ok _ _ _ (emit tw) _ Hpath). apply wrapping_Ok.
    rewrite (addFileToTar_Ok _ _ _ _ _ _ Hq Hn Hc). unfold tar_of. by rewrite HG.
Qed.

(** Closing does not change the outcome, whatever it returns. *)
Lemma close_archive_Ok (s : St) : exists s', close_archive s = (s', Ok tt).
Proof using All.
  pose proof (tar_Close_total s) as H1. unfold close_archive, ignore, mbind, M_bind, attempt.
  destruct (tar_Close s) as [s1 [[]|e|]]; [| |done]; cbn in *;
    pose proof (gzip_Close_total s1) as H2; destruct (gzip_Close s1) as [s2 [[]|e2|]]; by eauto.
Qed.

Lemma Backup_Ok x G L :
  Durable x G L -> quiet x ->
  exists s', close_archive (emit (tar_of G <$> (go_range (segments (st x))).*1)) = (s', Ok tt)
    /\ Backup (x, emit []) = ((x, s'), Ok tt).
Proof using All.
  intros HD Hq. pose proof (dur_inv _ _ _ HD) as HI.
  set (tw := tar_of G <$> _). destruct (close_archive_Ok (emit tw)) as [s' Hs].
  exists s'. split; [done|]. unfold Backup.
  mstep (on_store_Ok self x x (emit []) (st x) eq_refl). rewrite (inv_closed _ _ HI).
  mstep (wrapping_Ok "store: backup sync: %w" _ _ _ _
    (on_store_Ok _ _ _ (emit []) _ (active_sync_Ok x G HI Hq))).
  rewrite (M_bind_Ok _ _ _ (x, emit tw) (inr tt)).
  2:{ apply attempt_Ok. mstep (backup_segments_Ok (go_range (segments (st x))) x G [] HI Hq
        ltac:(intros id p H; rewrite go_range_perm in H; by apply elem_of_map_to_list in H)).
      cbn [app]. fold tw. unfold backup_hint.
      rewrite (M_bind_Ok _ _ _ (x, emit tw) (inl FileSys.ErrNotExist)); [done|].
      apply attempt_Err. unfold fs_call, on_store, on_world, zoom. cbn [fst snd].
      rewrite (os_Err_same _ _ FileSys.ErrNotExist); [by destruct x|].
      unfold FileSys.Stat. rewrite FileSys.syscall_none by done.
      pose proof (dur_hint _ _ _ HD) as Hh. unfold hint_free in Hh. by rewrite Hh. }
  rewrite (M_bind_Ok _ _ _ (x, s') tt); [done|].
  unfold on_archive, zoom. cbn. by rewrite Hs.
Qed.
End WithArchive.

Section WithRange.
Context `{!GoRange Z}.

(** ** Writing them elsewhere *)

Lemma Base_SegmentName id : 0 <= id < max_id -> Snapshot.Base (SegmentName id) = SegmentName id.
Proof.
  intros Hid. rewrite (SegmentName_fixed id Hid).
  assert (Hd : Forall (fun c => c <> Byte.x2f) (fixed 10 id ++ bs ".log")).
  { apply Forall_app. split; [|by repeat constructor]. generalize 10%nat as n. intros n.
    clear Hid. revert id. induction n as [|n IH]; intros id; cbn [fixed]; [constructor|].
    apply Forall_app. split; [apply IH|]. constructor; [|constructor].
    intros He. apply (f_equal byteZ) in He.
    pose proof (Z.mod_pos_bound id 10 ltac:(lia)). rewrite byteZ_digit in He by done.
    change (byteZ Byte.x2f) with 47 in He. lia. }
  assert (Hne : fixed 10 id ++ bs ".log" <> []) by (by destruct (fixed 10 id)).
  revert Hd Hne. generalize (fixed 10 id ++ bs ".log"). intros l Hl Hne.
  assert (Hup : forall k, Forall (fun c => c <> Byte.x2f) k -> Snapshot.upto_slash k = k).
  { induction 1 as [|c k Hc _ IH]; [done|]. cbn. rewrite bool_decide_eq_false_2 by done. by rewrite IH. }
  assert (Hdrop : forall k, Forall (fun c => c <> Byte.x2f) k -> Snapshot.drop_slashes k = k).
  { intros k Hk. destruct Hk as [|c k Hc _]; [done|]. cbn. by rewrite bool_decide_eq_false_2. }
  unfold Snapshot.Base. destruct l as [|c l]; [done|].
  rewrite Hdrop, Hup, rev_involutive by (by apply Forall_rev). done.
Qed.

(** The file system after creating a file with the given contents. *)
Lemma restore_one w dst G id c :
  no_faults w -> disk (fs w) dst G -> G !! id = None -> 0 <= id < max_id ->
  blen c <= FileSys.max_file ->
  exists s ino, disk s dst (<[id := (ino, c)]> G) /\ FileSys.faults s = []
    /\ FileSys.names s !! (dst, hintFile) = FileSys.names (fs w) !! (dst, hintFile)
    /\ forall l final,
      Snapshot.restore_entries dst (Snapshot.tar_file (SegmentName id) c :: l) final w
      = Snapshot.restore_entries dst l final (MkWorld s (heap w) (hnext w)).
Proof.
  intros Hq Hd HG Hid Hsz. pose proof (disk_no_segment _ _ _ _ Hd HG Hid) as Hn.
  pose proof (disk_create _ _ _ _ Hd HG Hid) as Hd1.
  set (s1 := FileSys.MkFS _ _ _ _ _) in Hd1. set (ino := FileSys.next (fs w)) in *.
  pose proof (disk_append _ _ _ id ino [] c Hd1 ltac:(apply lookup_insert_eq) Hsz) as Hd2.
  rewrite insert_insert_eq in Hd2. cbn [app] in Hd2. set (s2 := FileSys.set_data _ _) in Hd2.
  exists s2, ino. split_and!; [done|done| |].
  { cbn [s2 s1 FileSys.set_data FileSys.names]. rewrite lookup_insert_ne; [done|].
    by apply hint_name_ne. }
  intros l final. cbn [Snapshot.restore_entries Snapshot.tar_file Snapshot.t_reg Snapshot.t_name Snapshot.t_body negb].
  rewrite Base_SegmentName by done.
  rewrite (M_bind_Ok _ _ w (MkWorld s1 (heap w) (hnext w)) ino).
  2:{ apply wrapping_Ok, os_Ok. unfold FileSys.Create. rewrite FileSys.syscall_none, Hn by done.
      by rewrite bool_decide_eq_true_2 by apply Hd. }
  rewrite (M_bind_Ok _ _ (MkWorld s1 (heap w) (hnext w)) (MkWorld s2 (heap w) (hnext w)) tt).
  2:{ apply or_else_Ok, wrapping_Ok. unfold Snapshot.io_Copy. cbn [rem rerr].
      rewrite (bool_decide_eq_true_2 (EOF = EOF)) by done.
      rewrite (M_bind_Ok _ _ (MkWorld s1 (heap w) (hnext w)) (MkWorld s2 (heap w) (hnext w)) tt); [done|].
      case_bool_decide as Hc.
      { subst c. unfold mret, M_ret. do 2 f_equal. unfold s2, s1, FileSys.set_data.
        cbn [FileSys.dirs FileSys.names FileSys.data FileSys.next FileSys.faults].
        by rewrite insert_insert_eq. }
      rewrite (M_bind_Ok _ _ (MkWorld s1 (heap w) (hnext w)) (MkWorld s2 (heap w) (hnext w)) (blen c)); [done|].
      refine (os_Ok _ (MkWorld s1 (heap w) (hnext w)) _ _ _).
      cbn [fs]. rewrite FileSys.Write_none by done.
      erewrite FileSys.content_Some by apply lookup_insert_eq.
      by rewrite (proj2 (Z.ltb_ge FileSys.max_file (blen [] + blen c)) Hsz). }
  rewrite (M_bind_Ok _ _ _ (MkWorld s2 (heap w) (hnext w)) tt); [done|].
  eapply ignore_Ok. apply (os_Ok_same _ (MkWorld s2 (heap w) (hnext w))).
  unfold FileSys.Close. by rewrite FileSys.syscall_none.
Qed.

Lemma restore_segments ids w dst G G0 :
  no_faults w -> disk (fs w) dst G0 -> NoDup ids ->
  (forall id, id ∈ ids -> G0 !! id = None /\ 0 <= id < max_id
     /\ exists ino c, G !! id = Some (ino, c) /\ blen c <= FileSys.max_file) ->
  exists w' G1,
    Snapshot.restore_entries dst (tar_of G <$> ids) EOF w = (w', Ok tt)
    /\ disk (fs w') dst G1 /\ no_faults w'
    /\ FileSys.names (fs w') !! (dst, hintFile) = FileSys.names (fs w) !! (dst, hintFile)
    /\ forall id, snd <$> G1 !! id = if bool_decide (id ∈ ids) then snd <$> G !! id else snd <$> G0 !! id.
Proof.
  revert w G0. induction ids as [|id ids IH]; intros w G0 Hq Hd Hnd Hids.
  { exists w, G0. by split_and!. }
  apply NoDup_cons in Hnd as [Hid Hnd].
  destruct (Hids id) as (H0 & Hr & ino & c & HG & Hsz); [by left|].
  destruct (restore_one w dst G0 id c Hq Hd H0 Hr Hsz) as (s & i & Hd1 & Hf & Hh & Hstep).
  destruct (IH (MkWorld s (heap w) (hnext w)) (<[id := (i, c)]> G0) Hf Hd1 Hnd)
    as (w' & G1 & Hrun & Hd' & Hq' & Hh' & HG1).
  { intros id' Hin. destruct (Hids id') as (H0' & Hr' & Hrest); [by right|].
    split; [|done]. rewrite lookup_insert_ne; [done|]. by intros ->. }
  exists w', G1. split_and!; [|done|done|by rewrite Hh'|].
  - rewrite fmap_cons. unfold tar_of at 1. rewrite HG. by rewrite Hstep.
  - intros j. rewrite HG1. case_bool_decide as E1; case_bool_decide as E2; try done.
    + exfalso. apply E2. by right.
    + apply elem_of_cons in E2 as [->|]; [|done]. by rewrite lookup_insert_eq, HG.
    + apply not_elem_of_cons in E2 as [? _]. by rewrite lookup_insert_ne.
Qed.

(** Restoring a backup in any directory without files, and opening it. *)
Lemma Restore_Ok x G L w dst o :
  Durable x G L -> no_faults w -> fresh_dir (fs w) dst ->
  (forall key ino, FileSys.names (fs w) !! key = Some (FileSys.DFile ino) ->
     (ino < FileSys.next (fs w))%nat) ->
  exists w1 w2 s G1,
    Snapshot.Restore (Ok (tar_of G <$> (go_range (segments (st x))).*1, EOF)) dst w = (w1, Ok tt)
    /\ OpenWithOptions dst o w1 = (w2, Ok s) /\ Inv (MkState w2 s) G1
    /\ abs G1 (index s) = abs G (index (st x)).
Proof.
  intros HD Hq Hfr Hnext. pose proof (dur_inv _ _ _ HD) as HI.
  pose proof (mkdir_disk (fs w) dst Hfr Hnext) as Hd0. set (s0 := FileSys.MkFS _ _ _ _ _) in Hd0.
  set (w0 := MkWorld s0 (heap w) (hnext w)).
  assert (Hmk : os (FileSys.MkdirAll dst) w = (w0, Ok tt)).
  { apply os_Ok. unfold FileSys.MkdirAll. by rewrite FileSys.syscall_none. }
  destruct (restore_segments (go_range (segments (st x))).*1 w0 dst G ∅)
    as (w1 & G1 & Hrun & Hd1 & Hq1 & Hh1 & HG1); [done|done|apply NoDup_range_ids| |].
  { intros id [p Hp]%elem_of_range_ids.
    destruct (opens_segment _ _ _ _ _ (inv_opens _ _ HI) Hp) as (ino & c & HG & _).
    split_and!; [done|apply (disk_id _ _ _ (inv_disk _ _ HI)); eauto..|].
    exists ino, c. split; [done|]. by eapply (disk_size _ _ _ (inv_disk _ _ HI)). }
  assert (Hsame : same_bytes G G1).
  { intros id. rewrite HG1. case_bool_decide as Hi; [done|].
    rewrite elem_of_range_ids, <- (opens_Some _ _ _ _ (inv_opens _ _ HI)) in Hi.
    destruct (G !! id) eqn:E; [|done]. exfalso. apply Hi. eauto. }
  destruct (inv_active _ _ HI) as (_ & [[ino c] Hact] & _).
  destruct (same_bytes_lookup _ _ _ _ _ Hsame Hact) as [ino' Hact'].
  destruct (OpenWithOptions_scan w1 dst o G1 L (activeID (st x)) Hq1 Hd1 ltac:(eauto)
    (log_of_same_bytes _ _ _ Hsame (dur_log _ _ _ HD))) as (w2 & s & Hopen & HI2 & _ & Hidx).
  { rewrite Hh1. apply Hfr. }
  exists w1, w2, s, G1. split_and!; [|done|done|].
  - unfold Snapshot.Restore. rewrite (M_bind_Ok _ _ _ _ _ (wrapping_Ok _ _ _ _ _ Hmk)).
    rewrite (M_bind_Ok _ _ w0 w0 (tar_of G <$> (go_range (segments (st x))).*1, EOF)) by done.
    exact Hrun.
  - rewrite Hidx, <- (dur_index _ _ _ HD). apply abs_same_bytes; [done|apply HI].
Qed.
End WithRange.
End BackupOps.
