(* ===== verification/Codec.v ===== *)
(** * Codec helpers: internal/codec/codec.go

    Varints, zig-zag integers, length prefixes and checksums, with the
    functions of [encoding/binary] they call. *)
From S2P Require Import Prelude Crc32.

Module Codec.

Definition MaxVarintLen : nat := 10.

Definition ErrOverflow : error := errors_New "codec: varint overflow".
Definition ErrTruncated : error := errors_New "codec: truncated input".
Definition ErrTooLarge : error := errors_New "codec: length exceeds limit".

(** ** Varints *)

(** [binary.PutUvarint(buf, x)] with [len(buf) = n]: the bytes it stores;
    writing past the buffer panics. *)
Fixpoint PutUvarint (n : nat) (x : Z) : res bytes :=
  match n with
  | O => Panic
  | S n' =>
      if 0x80 <=? x then
        l ← PutUvarint n' (Z.shiftr x 7);
        mret (Zbyte (Z.lor (x mod 2 ^ 8) 0x80) :: l)
      else mret [Zbyte x]
  end.

(** [binary.Uvarint(buf)]: the value and the number of bytes read, 0 for a
    short buffer, negative for an overflow.  [x] and [s] are the loop's
    accumulator and shift, [i] its index. *)
Fixpoint uvarint_loop (i : nat) (x s : Z) (buf : bytes) : Z * Z :=
  match buf with
  | [] => (0, 0)
  | b :: buf' =>
      if bool_decide (i = MaxVarintLen) then (0, - (Z.of_nat i + 1))
      else if byteZ b <? 0x80 then
        if bool_decide (i = (MaxVarintLen - 1)%nat) && (1 <? byteZ b) then (0, - (Z.of_nat i + 1))
        else (Z.lor x (u64 (Z.shiftl (byteZ b) s)), Z.of_nat i + 1)
      else uvarint_loop (S i) (Z.lor x (u64 (Z.shiftl (Z.land (byteZ b) 0x7f) s))) (s + 7) buf'
  end.

Definition Uvarint (buf : bytes) : Z * Z := uvarint_loop 0 0 0 buf.

Definition AppendVarint (buf : bytes) (v : Z) : res bytes :=
  tmp ← PutUvarint MaxVarintLen v;
  mret (buf ++ tmp).

Definition DecodeVarint (buf : bytes) : Z * Z := Uvarint buf.

Definition EncodeVarint (v : Z) : res bytes := PutUvarint MaxVarintLen v.

(** [r.ReadByte()]. *)
Definition ReadByte : M ioReader byte := fun r =>
  match rem r with
  | [] => (r, Err (rerr r))
  | b :: l => (MkIoReader l (rerr r), Ok b)
  end.

(** The loop of [ReadVarint]: [n] rounds are left.  The result is the value,
    the number of bytes consumed, and the error. *)
Fixpoint read_loop (n i : nat) (x s : Z) (r : ioReader) : ioReader * (Z * Z * option error) :=
  match n with
  | O => (r, (0, Z.of_nat MaxVarintLen, Some ErrOverflow))
  | S n' =>
      match ReadByte r with
      | (r', Ok b) =>
          if byteZ b <? 0x80 then
            if bool_decide (i = (MaxVarintLen - 1)%nat) && (1 <? byteZ b)
            then (r', (0, Z.of_nat i + 1, Some ErrOverflow))
            else (r', (Z.lor x (u64 (Z.shiftl (byteZ b) s)), Z.of_nat i + 1, None))
          else read_loop n' (S i) (Z.lor x (u64 (Z.shiftl (Z.land (byteZ b) 0x7f) s))) (s + 7) r'
      | (r', Err e) => (r', (0, Z.of_nat i, Some e))
      | (r', Panic) => (r', (0, Z.of_nat i, None))
      end
  end.

Definition ReadVarint (r : ioReader) : ioReader * (Z * Z * option error) :=
  read_loop MaxVarintLen 0 0 0 r.

(** ** Length prefixes *)

Definition LengthPrefixed (data : bytes) : bytes := be_put 4 (u32 (blen data)) ++ data.

Definition ReadLengthPrefixed (maxLen : Z) : M ioReader bytes :=
  let maxLen := if maxLen <=? 0 then Z.shiftl 64 20 else maxLen in
  hdr ← ReadFull 4;
  let n := be_get hdr in
  if maxLen <? n then throw ErrTooLarge else ReadFull n.

Section Writing.
Context {St : Type} `{!Writer St}.

Definition WriteLengthPrefixed (data : bytes) : M St Z :=
  n1 ← w_Write (be_put 4 (u32 (blen data)));
  n2 ← w_Write data;
  mret (n1 + n2).
End Writing.

(** ** Checksums *)

Definition CRC32 (data : bytes) : Z := Crc32.ChecksumIEEE data.

(** [crc32.NewIEEE], two [Write]s, [Sum32]. *)
Definition CRC32Combine (a b : bytes) : Z := Crc32.update (Crc32.update 0 a) b.

Definition VerifyCRC32 (data : bytes) (expected : Z) : bool := CRC32 data =? expected.

(** ** Fixed-width integers *)

Definition Int64ToBytes (v : Z) : bytes := be_put 8 (u64 v).

Definition BytesToInt64 (b : bytes) : res Z :=
  l ← slice 0 8 b; mret (i64 (be_get l)).

Definition ZigZagEncode (v : Z) : Z := u64 (Z.lxor (i64 (Z.shiftl v 1)) (Z.shiftr v 63)).

Definition ZigZagDecode (v : Z) : Z := i64 (Z.lxor (Z.shiftr v 1) (u64 (- Z.land v 1))).

(** ** Lemmas *)

Lemma lor_shiftl_add a b s : 0 <= a < 2 ^ s -> 0 <= s ->
  Z.lor a (Z.shiftl b s) = a + b * 2 ^ s.
Proof.
  intros Ha Hs.
  assert (H : Z.land a (Z.shiftl b s) = 0).
  { apply Z.bits_inj'. intros n Hn. rewrite Z.land_spec, Z.bits_0.
    destruct (Z.lt_ge_cases n s) as [Hlt|Hge].
    - by rewrite Z.shiftl_spec_low, andb_false_r.
    - by rewrite (Crc32.testbit_high a s n Ha Hs Hge). }
  rewrite <- Z.lxor_lor, <- Z.add_nocarry_lxor by done. by rewrite Z.shiftl_mul_pow2.
Qed.

Lemma high_byte b : 0 <= b < 256 ->
  byteZ (Zbyte (Z.lor b 0x80)) = 128 + b mod 128.
Proof.
  intros Hb.
  assert (Hall : forallb (fun b => byteZ (Zbyte (Z.lor b 0x80)) =? 128 + b mod 128) (seqZ 0 256) = true)
    by (vm_compute; reflexivity).
  rewrite forallb_forall in Hall. apply Z.eqb_eq, Hall, list_elem_of_In, elem_of_seqZ. lia.
Qed.

(** Encoded bytes: the value split in groups of seven bits. *)
Lemma PutUvarint_inv n x l : PutUvarint n x = Ok l -> 0 <= x ->
  exists n', n = S n' /\
    ((x < 128 /\ l = [Zbyte x]) \/
     (128 <= x /\ exists l', PutUvarint n' (x / 128) = Ok l'
                 /\ l = Zbyte (Z.lor (x mod 2 ^ 8) 0x80) :: l')).
Proof.
  destruct n as [|n]; [done|]. cbn [PutUvarint]. intros H Hx. exists n. split; [done|].
  destruct (Z.leb_spec 0x80 x) as [Hle|Hlt].
  - right. split; [done|]. apply res_bind_Ok in H as (l' & Hl & [= <-]).
    exists l'. by rewrite Z.shiftr_div_pow2 in Hl.
  - left. by injection H as <-.
Qed.

Lemma PutUvarint_total n x : 0 <= x < 2 ^ (7 * Z.of_nat (S n)) ->
  exists l, PutUvarint (S n) x = Ok l /\ 1 <= blen l <= Z.of_nat (S n).
Proof.
  revert x. induction n as [|n IH]; intros x Hx.
  { exists [Zbyte x]. cbn [PutUvarint]. cbn in Hx.
    destruct (Z.leb_spec 0x80 x) as [Hle|Hlt]; [lia|]. by split; [|rewrite blen_cons, blen_nil; lia]. }
  remember (S n) as m eqn:Hm. cbn [PutUvarint]. destruct (Z.leb_spec 0x80 x) as [Hle|Hlt].
  - rewrite Z.shiftr_div_pow2 by done. change (2 ^ 7) with 128.
    assert (Hx' : 0 <= x / 128 < 2 ^ (7 * Z.of_nat m)).
    { rewrite (Nat2Z.inj_succ m), Z.mul_succ_r, Z.pow_add_r in Hx by lia.
      split; [apply Z.div_pos; lia|apply Z.div_lt_upper_bound; lia]. }
    destruct (IH _ Hx') as (l & Hl & Hn). rewrite Hl. eexists. split; [reflexivity|].
    rewrite blen_cons. lia.
  - eexists. split; [reflexivity|]. rewrite blen_cons, blen_nil. lia.
Qed.

(** A continuation byte carries the low seven bits. *)
Lemma cont_byte x : 0 <= x ->
  (byteZ (Zbyte (Z.lor (x mod 2 ^ 8) 0x80)) <? 0x80) = false
  /\ Z.land (byteZ (Zbyte (Z.lor (x mod 2 ^ 8) 0x80))) 0x7f = x mod 128.
Proof.
  intros Hx. pose proof (Z.mod_pos_bound x 256 ltac:(lia)) as Hb.
  change (2 ^ 8) with 256. rewrite high_byte by done.
  pose proof (Z.mod_pos_bound (x mod 256) 128 ltac:(lia)).
  split; [apply Z.ltb_ge; lia|].
  change 0x7f with (Z.ones 7). rewrite Z.land_ones by lia. change (2 ^ 7) with 128.
  replace (128 + x mod 256 mod 128) with (x mod 256 mod 128 + 1 * 128) by lia.
  rewrite Z.mod_add, Z.mod_mod by lia. symmetry. rewrite (Z.div_mod x 256) at 1 by lia.
  replace (256 * (x / 256) + x mod 256) with (x mod 256 + (2 * (x / 256)) * 128) by lia.
  by rewrite Z.mod_add by lia.
Qed.

(** One step of either decoding loop on the accumulator. *)
Lemma accumulate acc y s : 0 <= acc < 2 ^ s -> 0 <= s -> 0 <= y ->
  y * 2 ^ s < 2 ^ 64 ->
  Z.lor acc (u64 (Z.shiftl y s)) = acc + y * 2 ^ s.
Proof.
  intros Ha Hs Hy Hlt. rewrite u64_small.
  - by apply lor_shiftl_add.
  - rewrite Z.shiftl_mul_pow2 by done. split; [apply Z.mul_nonneg_nonneg; lia|done].
Qed.

(** Reading an encoded value from the middle of the loops. *)
Lemma varint_loops n x l : PutUvarint n x = Ok l -> forall i acc s post e,
  0 <= x -> s = 7 * Z.of_nat i -> (i + n = MaxVarintLen)%nat -> 0 <= acc < 2 ^ s ->
  acc + x * 2 ^ s < 2 ^ 64 ->
  read_loop n i acc s (MkIoReader (l ++ post) e)
  = (MkIoReader post e, (acc + x * 2 ^ s, Z.of_nat i + blen l, None))
  /\ uvarint_loop i acc s (l ++ post) = (acc + x * 2 ^ s, Z.of_nat i + blen l).
Proof.
  revert x l. induction n as [|n IH]; intros x l Hput i acc s post e Hx Hs Hin Hacc Hlt; [done|].
  destruct (PutUvarint_inv _ _ _ Hput Hx) as (n' & [= <-] & [[Hsm ->]|[Hbig (l' & Hput' & ->)]]).
  - cbn [app read_loop uvarint_loop ReadByte rem rerr].
    rewrite byteZ_Zbyte, Z.mod_small by lia. rewrite (proj2 (Z.ltb_lt x 0x80)) by lia.
    rewrite (bool_decide_eq_false_2 (i = MaxVarintLen)) by lia.
    assert (Hlast : bool_decide (i = (MaxVarintLen - 1)%nat) && (1 <? x) = false).
    { case_bool_decide as Hi; [|done]. cbn [andb]. apply Z.ltb_ge. subst i s.
      change (7 * Z.of_nat (MaxVarintLen - 1)) with 63 in *. lia. }
    rewrite Hlast, accumulate, blen_cons, blen_nil by (lia || done). by rewrite Z.add_0_r.
  - destruct (cont_byte x Hx) as [Hge Hlow].
    cbn [app read_loop uvarint_loop ReadByte rem rerr]. rewrite Hge, Hlow.
    rewrite (bool_decide_eq_false_2 (i = MaxVarintLen)) by lia.
    pose proof (Z.mod_pos_bound x 128 ltac:(lia)) as Hm.
    pose proof (Z.div_mod x 128 ltac:(lia)) as Hdiv.
    assert (Hp : 0 < 2 ^ s) by (apply Z.pow_pos_nonneg; lia).
    assert (Hxd : 0 <= x / 128) by (apply Z.div_pos; lia).
    assert (Hpow : 2 ^ (s + 7) = 128 * 2 ^ s) by (rewrite Z.pow_add_r by lia; lia).
    rewrite accumulate; [|done|lia|lia|nia].
    destruct (IH _ _ Hput' (S i) (acc + x mod 128 * 2 ^ s) (s + 7) post e) as [Ha Hb];
      [done|lia|lia|nia|nia|].
    assert (Hval : acc + x mod 128 * 2 ^ s + x / 128 * 2 ^ (s + 7) = acc + x * 2 ^ s) by nia.
    rewrite Hval in Ha, Hb. rewrite Ha, Hb, blen_cons.
    replace (Z.of_nat (S i) + blen l') with (Z.of_nat i + (1 + blen l')) by lia. done.
Qed.

Lemma EncodeVarint_Ok v : 0 <= v < 2 ^ 64 ->
  exists l, EncodeVarint v = Ok l /\ 1 <= blen l <= 10
    /\ (forall post e, ReadVarint (MkIoReader (l ++ post) e) = (MkIoReader post e, (v, blen l, None)))
    /\ (forall post, DecodeVarint (l ++ post) = (v, blen l)).
Proof.
  intros Hv. destruct (PutUvarint_total 9 v) as (l & Hl & Hn).
  { change (7 * Z.of_nat 10) with 70. lia. }
  exists l.
  assert (Hloops := varint_loops _ _ _ Hl 0 0 0).
  change (2 ^ 0) with 1 in Hloops. rewrite Z.mul_1_r, Z.add_0_l in Hloops.
  split_and!; [done|lia|lia| |].
  - intros post e. apply Hloops; done || lia.
  - intros post. apply (Hloops post EOF); done || lia.
Qed.

(** Whatever the stream holds, at most ten bytes are read, and a value without
    an error fits in 64 bits. *)
Lemma read_loop_bounds n i x s r r' v k err :
  read_loop n i x s r = (r', (v, k, err)) -> (i + n = MaxVarintLen)%nat -> s = 7 * Z.of_nat i ->
  0 <= x < 2 ^ 64 ->
  (length (rem r) - length (rem r') <= n)%nat /\ 0 <= k <= 10 /\ 0 <= v < 2 ^ 64.
Proof.
  assert (H64 : forall a b, 0 <= a < 2 ^ 64 -> 0 <= Z.lor a (u64 b) < 2 ^ 64).
  { intros a b Ha. pose proof (u64_range b) as Hb. split; [apply Z.lor_nonneg; lia|].
    destruct (Z.eq_dec (Z.lor a (u64 b)) 0) as [->|Hne]; [done|].
    apply Z.log2_lt_pow2; [pose proof (proj2 (Z.lor_nonneg a (u64 b)) ltac:(lia)); lia|].
    rewrite Z.log2_lor by lia. apply Z.max_lub_lt.
    - destruct (Z.eq_dec a 0) as [->|]; [done|]. apply Z.log2_lt_pow2; lia.
    - destruct (Z.eq_dec (u64 b) 0) as [->|]; [done|]. apply Z.log2_lt_pow2; lia. }
  revert i x s r. induction n as [|n IH]; intros i x s [l e] Hr Hin Hs Hx; cbn [read_loop] in Hr.
  { simplify_eq. unfold MaxVarintLen. lia. }
  unfold ReadByte in Hr. cbn [rem rerr] in Hr. unfold MaxVarintLen in *. destruct l as [|b l].
  - simplify_eq. cbn. lia.
  - destruct (byteZ b <? 0x80).
    + destruct (bool_decide _ && _); simplify_eq; cbn [rem length]; [lia|].
      specialize (H64 x (Z.shiftl (byteZ b) (7 * Z.of_nat i)) Hx). lia.
    + apply IH in Hr as (H1 & H2 & H3); [|lia|lia|by apply H64]. cbn [rem length] in *. lia.
Qed.

(** ** Zig-zag *)

Lemma ZigZagEncode_val v : - 2 ^ 63 <= v < 2 ^ 63 ->
  ZigZagEncode v = if v <? 0 then - 2 * v - 1 else 2 * v.
Proof.
  intros Hv. unfold ZigZagEncode. rewrite Z.shiftl_mul_pow2, Z.shiftr_div_pow2 by lia.
  change (2 ^ 1) with 2. destruct (Z.ltb_spec v 0) as [Hneg|Hpos].
  - assert (Hd : v / 2 ^ 63 = -1).
    { symmetry. apply (Z.div_unique v (2 ^ 63) (-1) (v + 2 ^ 63)); lia. }
    rewrite Hd, Z.lxor_m1_r. unfold Z.lnot, u64, i64.
    rewrite Z.sub_1_r. set (m := (v * 2 + 2 ^ 63) mod 2 ^ 64).
    assert (Hm : exists q, v * 2 + 2 ^ 63 = q * 2 ^ 64 + m).
    { exists ((v * 2 + 2 ^ 63) / 2 ^ 64). unfold m.
      pose proof (Z.div_mod (v * 2 + 2 ^ 63) (2 ^ 64) ltac:(lia)). lia. }
    destruct Hm as [q Hq].
    replace (Z.pred (- (m - 2 ^ 63))) with ((- 2 * v - 1) + q * 2 ^ 64) by lia.
    rewrite Z.mod_add by lia. apply Z.mod_small. lia.
  - rewrite (Z.div_small v) by lia. rewrite Z.lxor_0_r. unfold u64, i64.
    rewrite Zminus_mod_idemp_l. replace (v * 2 + 2 ^ 63 - 2 ^ 63) with (2 * v) by lia.
    apply Z.mod_small. lia.
Qed.

Lemma ZigZagDecode_val u : 0 <= u < 2 ^ 64 ->
  ZigZagDecode u = if u mod 2 =? 0 then u / 2 else - (u / 2) - 1.
Proof.
  intros Hu. unfold ZigZagDecode. rewrite Z.shiftr_div_pow2 by lia. change (2 ^ 1) with 2.
  assert (Hl : Z.land u 1 = u mod 2) by exact (Z.land_ones u 1 ltac:(lia)).
  rewrite Hl. clear Hl.
  pose proof (Z.mod_pos_bound u 2 ltac:(lia)) as Hm.
  assert (Hd : 0 <= u / 2 < 2 ^ 63) by (split; [apply Z.div_pos|apply Z.div_lt_upper_bound]; lia).
  destruct (Z.eqb_spec (u mod 2) 0) as [->|Hne].
  - change (u64 (- 0)) with 0. rewrite Z.lxor_0_r. apply i64_small. lia.
  - assert (u mod 2 = 1) as -> by lia. change (u64 (- (1))) with (Z.ones 64).
    assert (Hlog : u / 2 = 0 \/ Z.log2 (u / 2) < 64).
    { destruct (Z.eq_dec (u / 2) 0); [by left|right]. apply Z.log2_lt_pow2; lia. }
    assert (Hx : Z.lxor (u / 2) (Z.ones 64) = 2 ^ 64 - 1 - u / 2).
    { destruct Hlog as [->|Hlog]; [by vm_compute|].
      rewrite <- Z.ldiff_ones_l_low, <- Z.sub_nocarry_ldiff by (lia || apply Z.ldiff_ones_r_low; lia).
      rewrite Z.ones_equiv. lia. }
    rewrite Hx. unfold i64.
    replace (2 ^ 64 - 1 - u / 2 + 2 ^ 63) with ((2 ^ 63 - 1 - u / 2) + 1 * 2 ^ 64) by lia.
    rewrite Z.mod_add, Z.mod_small by lia. lia.
Qed.

Lemma ZigZag_round_trip v : - 2 ^ 63 <= v < 2 ^ 63 -> ZigZagDecode (ZigZagEncode v) = v.
Proof.
  intros Hv. rewrite ZigZagEncode_val by done. destruct (Z.ltb_spec v 0).
  - rewrite ZigZagDecode_val by lia.
    replace (-2 * v - 1) with (1 + (- v - 1) * 2) by lia.
    rewrite Z.mod_add, Z.div_add by lia. change (1 mod 2 =? 0) with false. cbv iota.
    change (1 / 2) with 0. lia.
  - rewrite ZigZagDecode_val by lia. rewrite Z.mul_comm, Z.mod_mul, Z.div_mul by lia. done.
Qed.

Lemma ZigZag_surjective u : 0 <= u < 2 ^ 64 ->
  - 2 ^ 63 <= ZigZagDecode u < 2 ^ 63 /\ ZigZagEncode (ZigZagDecode u) = u.
Proof.
  intros Hu. rewrite ZigZagDecode_val by done.
  pose proof (Z.div_mod u 2 ltac:(lia)) as Hdm. pose proof (Z.mod_pos_bound u 2 ltac:(lia)).
  assert (Hd : 0 <= u / 2 < 2 ^ 63) by (split; [apply Z.div_pos|apply Z.div_lt_upper_bound]; lia).
  destruct (Z.eqb_spec (u mod 2) 0); (split; [lia|]); rewrite ZigZagEncode_val by lia.
  - destruct (Z.ltb_spec (u / 2) 0); lia.
  - destruct (Z.ltb_spec (- (u / 2) - 1) 0); lia.
Qed.

(** ** Length prefixes *)

Lemma ReadLengthPrefixed_Ok data post e maxLen :
  blen data < 2 ^ 32 -> blen data <= (if maxLen <=? 0 then Z.shiftl 64 20 else maxLen) ->
  ReadLengthPrefixed maxLen (MkIoReader (LengthPrefixed data ++ post) e)
  = (MkIoReader post e, Ok data).
Proof.
  intros Hd Hm. unfold ReadLengthPrefixed, LengthPrefixed. rewrite <- app_assoc.
  rewrite (M_bind_Ok _ _ _ _ _ (ReadFull_app 4 (be_put 4 (u32 (blen data))) (data ++ post) e
    ltac:(lia) (blen_be_put 4 _))).
  rewrite be_get_put, Z.mod_small by (apply u32_range).
  rewrite u32_small by (pose proof (blen_nonneg data); lia).
  rewrite (proj2 (Z.ltb_ge _ _) Hm). apply ReadFull_app; [apply blen_nonneg|done].
Qed.

Lemma CRC32Combine_app a b : CRC32Combine a b = CRC32 (a ++ b).
Proof. unfold CRC32Combine, CRC32, Crc32.ChecksumIEEE. by rewrite Crc32.update_app. Qed.

Lemma Int64_round_trip v : - 2 ^ 63 <= v < 2 ^ 63 -> BytesToInt64 (Int64ToBytes v) = Ok v.
Proof.
  intros Hv. unfold BytesToInt64, Int64ToBytes.
  pose proof (slice_app [] (be_put 8 (u64 v)) [] 0 8 eq_refl eq_refl) as Hs.
  rewrite app_nil_r in Hs. cbn [app] in Hs. rewrite Hs. cbn [mbind res_bind].
  unfold mret, res_ret. rewrite be_get_put, Z.mod_small by (apply u64_range).
  by rewrite i64_u64, i64_small.
Qed.
End Codec.
