(* ===== verification/Fixed.v ===== *)
(** * Fixed-width values: internal/codec/codec.go

    The big-endian helpers that work in a caller's buffer, and the conversion of
    floats to bytes.  A [float64] is a binary64 number of the Standard Library,
    which has one NaN; the bit pattern of a NaN that is written is a parameter. *)
From Stdlib Require Import SpecFloat.
From S2P Require Import Prelude Codec.

Module Fixed.

(** [binary.BigEndian.PutUint32(b, v)] and [PutUint64]: the buffer afterwards;
    a short buffer panics. *)
Definition put_be (n : nat) (v : Z) (b : bytes) : res bytes :=
  if blen b <? Z.of_nat n then Panic else Ok (be_put n v ++ drop n b).

Definition get_be (n : nat) (b : bytes) : res Z :=
  if blen b <? Z.of_nat n then Panic else Ok (be_get (take n b)).

Definition PutUint32BE (b : bytes) (v : Z) : res bytes := put_be 4 v b.
Definition Uint32BE (b : bytes) : res Z := get_be 4 b.
Definition PutUint64BE (b : bytes) (v : Z) : res bytes := put_be 8 v b.
Definition Uint64BE (b : bytes) : res Z := get_be 8 b.

(** ** Floats *)

Definition sign_bit (s : bool) : Z := if s then 2 ^ 63 else 0.

(** [math.Float64bits]: one bit of sign, eleven of exponent, 52 of fraction. *)
Definition Float64bits (nan : Z) (f : spec_float) : Z :=
  match f with
  | S754_zero s => sign_bit s
  | S754_infinity s => sign_bit s + 2047 * 2 ^ 52
  | S754_nan => nan
  | S754_finite s m e =>
      sign_bit s
      + (if Zpos m <? 2 ^ 52 then Zpos m               (* subnormal: e = -1074 *)
         else (e + 1075) * 2 ^ 52 + (Zpos m - 2 ^ 52))
  end.

(** [math.Float64frombits]. *)
Definition Float64frombits (b : Z) : spec_float :=
  let s := 2 ^ 63 <=? b in
  let ex := b mod 2 ^ 63 / 2 ^ 52 in
  let fr := b mod 2 ^ 52 in
  if ex =? 2047 then (if fr =? 0 then S754_infinity s else S754_nan)
  else if ex =? 0 then
    match fr with
    | Zpos m => S754_finite s m (-1074)
    | _ => S754_zero s
    end
  else S754_finite s (Z.to_pos (2 ^ 52 + fr)) (ex - 1075).

Definition Float64ToBytes (nan : Z) (f : spec_float) : bytes := be_put 8 (Float64bits nan f).

Definition BytesToFloat64 (b : bytes) : res spec_float :=
  bits ← get_be 8 b; mret (Float64frombits bits).

(** ** Round trips *)

Lemma get_put_be n v b b' : put_be n v b = Ok b' ->
  get_be n b' = Ok (v mod 256 ^ Z.of_nat n) /\ drop n b' = drop n b /\ length b' = length b.
Proof.
  unfold put_be. destruct (Z.ltb_spec (blen b) (Z.of_nat n)); [done|]. intros [= <-].
  unfold get_be, blen in *. rewrite length_app, length_be_put, length_drop.
  rewrite (proj2 (Z.ltb_ge _ _)) by lia.
  rewrite take_app_length', drop_app_length' by (by rewrite length_be_put).
  rewrite be_get_put. split_and!; [done|done|lia].
Qed.

Lemma put_be_panics n v b : put_be n v b = Panic <-> blen b < Z.of_nat n.
Proof. unfold put_be. destruct (Z.ltb_spec (blen b) (Z.of_nat n)); split; [done..|lia]. Qed.

Lemma get_be_app n l post : length l = n -> get_be n (l ++ post) = Ok (be_get l).
Proof.
  intros <-. unfold get_be. rewrite blen_app. pose proof (blen_nonneg post).
  unfold blen in *. rewrite (proj2 (Z.ltb_ge _ _)) by lia. by rewrite take_app_length.
Qed.

(** The bit patterns of NaNs. *)
Definition is_nan (b : Z) : bool := (2047 * 2 ^ 52 <? b mod 2 ^ 63) && (0 <=? b) && (b <? 2 ^ 64).

(** The three fields of a pattern. *)
Lemma fields s ex fr : 0 <= ex < 2048 -> 0 <= fr < 2 ^ 52 ->
  let b := sign_bit s + (ex * 2 ^ 52 + fr) in
  (2 ^ 63 <=? b) = s /\ b mod 2 ^ 63 / 2 ^ 52 = ex /\ b mod 2 ^ 52 = fr /\ 0 <= b < 2 ^ 64.
Proof.
  intros He Hf. cbv zeta. set (r := ex * 2 ^ 52 + fr).
  assert (Hr : 0 <= r < 2 ^ 63) by (unfold r; lia).
  assert (Hm : (sign_bit s + r) mod 2 ^ 63 = r).
  { destruct s; cbn [sign_bit].
    - replace (2 ^ 63 + r) with (r + 1 * 2 ^ 63) by lia. rewrite Z.mod_add by lia. by apply Z.mod_small.
    - by apply Z.mod_small. }
  split_and!.
  - destruct s; cbn [sign_bit]; [apply Z.leb_le|apply Z.leb_gt]; lia.
  - rewrite Hm. unfold r. rewrite Z.div_add_l by lia. rewrite Z.div_small by done. lia.
  - replace (sign_bit s + r) with (fr + ((if s then 2 ^ 11 else 0) + ex) * 2 ^ 52) by (unfold r; destruct s; cbn [sign_bit]; lia).
    rewrite Z.mod_add by lia. by apply Z.mod_small.
  - destruct s; cbn [sign_bit]; lia.
  - destruct s; cbn [sign_bit]; lia.
Qed.

Lemma digits_bounds m : 2 ^ (Zpos (digits2_pos m) - 1) <= Zpos m < 2 ^ Zpos (digits2_pos m).
Proof.
  induction m as [m IH|m IH|]; cbn [digits2_pos]; [| |done].
  all: rewrite Pos2Z.inj_succ, Z.sub_1_r, Z.pred_succ, Z.pow_succ_r by done.
  all: assert (Hp : 2 ^ Zpos (digits2_pos m) = 2 * 2 ^ (Zpos (digits2_pos m) - 1))
    by (rewrite <- Z.pow_succ_r by lia; f_equal; lia); lia.
Qed.

Definition valid (f : spec_float) : bool := valid_binary 53 1024 f.

Lemma finite_fields m e : bounded 53 1024 m e = true ->
  (Zpos m < 2 ^ 52 /\ e = -1074) \/ (2 ^ 52 <= Zpos m < 2 ^ 53 /\ -1074 <= e <= 971).
Proof.
  unfold bounded, canonical_mantissa, fexp, emin. intros [Hc%Z.eqb_eq He%Z.leb_le]%andb_prop.
  pose proof (digits_bounds m) as Hd. set (n := Zpos (digits2_pos m)) in *.
  destruct (Z.max_spec (n + e - 53) (3 - 1024 - 53)) as [[Hlt Hmax]|[Hge Hmax]]; rewrite Hmax in Hc.
  - assert (e = -1074) as -> by lia. destruct (Z.lt_ge_cases (Zpos m) (2 ^ 52)); [by left|right].
    split; [|lia]. split; [done|]. eapply Z.lt_le_trans; [apply Hd|]. apply Z.pow_le_mono_r; lia.
  - assert (Hn : n = 53) by lia. right. rewrite Hn in Hd. lia.
Qed.

Lemma frombits_bits nan f : is_nan nan = true -> valid f = true ->
  Float64frombits (Float64bits nan f) = f /\ 0 <= Float64bits nan f < 2 ^ 64.
Proof.
  intros Hnan Hv. unfold Float64frombits. destruct f as [s|s| |s m e]; cbn [Float64bits].
  - destruct (fields s 0 0 ltac:(lia) ltac:(lia)) as (E1 & E2 & E3 & E4).
    rewrite Z.mul_0_l, !Z.add_0_r in *. by rewrite E1, E2, E3.
  - destruct (fields s 2047 0 ltac:(lia) ltac:(lia)) as (E1 & E2 & E3 & E4).
    rewrite Z.add_0_r in *. by rewrite E1, E2, E3.
  - unfold is_nan in Hnan. apply andb_prop in Hnan as [[H1%Z.ltb_lt H2%Z.leb_le]%andb_prop H3%Z.ltb_lt].
    split; [|lia]. pose proof (Z.mod_pos_bound nan (2 ^ 63) ltac:(lia)) as Hb.
    assert (E2 : nan mod 2 ^ 63 / 2 ^ 52 = 2047).
    { symmetry. apply (Z.div_unique _ _ _ (nan mod 2 ^ 63 - 2047 * 2 ^ 52)); lia. }
    rewrite E2. cbn [Z.eqb Pos.eqb]. destruct (Z.eqb_spec (nan mod 2 ^ 52) 0) as [E|]; [|done].
    exfalso. pose proof (Z.div_mod nan (2 ^ 52) ltac:(lia)) as Hd. rewrite E in Hd.
    rewrite Hd in H1. replace (2 ^ 63) with (2 ^ 52 * 2 ^ 11) in H1 by done.
    rewrite Z.add_0_r, Z.mul_mod_distr_l in H1 by lia.
    pose proof (Z.mod_pos_bound (nan / 2 ^ 52) (2 ^ 11) ltac:(lia)). lia.
  - destruct (finite_fields m e Hv) as [[Hm ->]|[Hm He]].
    + rewrite (proj2 (Z.ltb_lt _ _) Hm).
      destruct (fields s 0 (Zpos m) ltac:(lia) ltac:(lia)) as (E1 & E2 & E3 & E4).
      rewrite Z.mul_0_l, Z.add_0_l in *. by rewrite E1, E2, E3.
    + rewrite (proj2 (Z.ltb_ge _ _)) by lia.
      destruct (fields s (e + 1075) (Zpos m - 2 ^ 52) ltac:(lia) ltac:(lia)) as (E1 & E2 & E3 & E4).
      rewrite E1, E2, E3. split; [|done].
      rewrite (proj2 (Z.eqb_neq (e + 1075) 2047)), (proj2 (Z.eqb_neq (e + 1075) 0)) by lia.
      f_equal; [|lia]. replace (2 ^ 52 + (Zpos m - 2 ^ 52)) with (Zpos m) by lia. done.
Qed.

(** Every pattern but a NaN's comes back. *)
Lemma split_bits b : 0 <= b < 2 ^ 64 ->
  exists s ex fr, b = sign_bit s + (ex * 2 ^ 52 + fr) /\ 0 <= ex < 2048 /\ 0 <= fr < 2 ^ 52.
Proof.
  intros Hb. exists (2 ^ 63 <=? b), (b mod 2 ^ 63 / 2 ^ 52), (b mod 2 ^ 63 mod 2 ^ 52).
  pose proof (Z.mod_pos_bound b (2 ^ 63) ltac:(lia)) as Hm.
  pose proof (Z.mod_pos_bound (b mod 2 ^ 63) (2 ^ 52) ltac:(lia)).
  pose proof (Z.div_mod (b mod 2 ^ 63) (2 ^ 52) ltac:(lia)) as Hd.
  split_and!; [|apply Z.div_pos; lia|apply Z.div_lt_upper_bound; lia|lia|lia].
  rewrite (Z.mul_comm (_ / _)), <- Hd. destruct (Z.leb_spec (2 ^ 63) b); cbn [sign_bit].
  - assert (E : b mod 2 ^ 63 = b - 2 ^ 63) by (symmetry; apply (Z.mod_unique _ _ 1); lia). lia.
  - rewrite Z.mod_small; lia.
Qed.

Lemma bits_frombits nan b : 0 <= b < 2 ^ 64 -> is_nan b = false ->
  Float64bits nan (Float64frombits b) = b.
Proof.
  intros Hb Hn. destruct (split_bits b Hb) as (s & ex & fr & -> & He & Hf).
  destruct (fields s ex fr He Hf) as (E1 & E2 & E3 & _).
  unfold Float64frombits. rewrite E1, E2, E3.
  destruct (Z.eqb_spec ex 2047) as [->|Hne].
  - destruct (Z.eqb_spec fr 0) as [->|Hfr]; [cbn [Float64bits]; lia|]. exfalso. revert Hn. unfold is_nan.
    assert (Hm : (sign_bit s + (2047 * 2 ^ 52 + fr)) mod 2 ^ 63 = 2047 * 2 ^ 52 + fr).
    { symmetry. apply (Z.mod_unique _ _ (if s then 1 else 0)); destruct s; cbn [sign_bit]; lia. }
    rewrite Hm. destruct (Z.ltb_spec (2047 * 2 ^ 52) (2047 * 2 ^ 52 + fr)); [|lia].
    destruct (Z.leb_spec 0 (sign_bit s + (2047 * 2 ^ 52 + fr))); [|lia].
    destruct (Z.ltb_spec (sign_bit s + (2047 * 2 ^ 52 + fr)) (2 ^ 64)); [done|lia].
  - destruct (Z.eqb_spec ex 0) as [->|Hne0].
    + destruct fr as [|p|p]; cbn [Float64bits]; [lia| |lia]. rewrite (proj2 (Z.ltb_lt _ _)); lia.
    + cbn [Float64bits]. rewrite Z2Pos.id by lia. rewrite (proj2 (Z.ltb_ge _ _)) by lia. lia.
Qed.

Lemma Float64_round_trip nan f : is_nan nan = true -> valid f = true ->
  BytesToFloat64 (Float64ToBytes nan f) = Ok f.
Proof.
  intros Hn Hv. destruct (frombits_bits nan f Hn Hv) as [Hf Hr].
  unfold BytesToFloat64, Float64ToBytes.
  rewrite <- (app_nil_r (be_put 8 _)), get_be_app by apply length_be_put. cbn [mbind res_bind].
  rewrite be_get_put, Z.mod_small by exact Hr. by rewrite Hf.
Qed.
End Fixed.
