(* ===== verification/Float64.v ===== *)
(** * The float64 arithmetic of the sources

    IEEE 754 binary64 numbers of the Standard Library's [SpecFloat], rounded to
    nearest even, with the functions of [math] that the packages call and that
    do not involve a series: [Ceil], [Round] and the conversions to and from
    integers. *)
From Stdlib Require Export SpecFloat.
From S2P Require Import Prelude.

Module Float64.

Abbreviation float64 := spec_float.

(** [float64(n)] of an [int64] or [uint64]. *)
Definition of_int (n : Z) : float64 := binary_normalize 53 1024 n 0 false.

Definition add : float64 -> float64 -> float64 := SFadd 53 1024.
Definition sub : float64 -> float64 -> float64 := SFsub 53 1024.
Definition mul : float64 -> float64 -> float64 := SFmul 53 1024.
Definition div : float64 -> float64 -> float64 := SFdiv 53 1024.

Definition zero : float64 := S754_zero false.
Definition one : float64 := S754_finite false (2 ^ 52) (-52).

(** The constants 0.01, [math.Ln2] and [math.Ln2*math.Ln2], rounded. *)
Definition f_001 : float64 := S754_finite false 5764607523034235 (-59).
Definition Ln2 : float64 := S754_finite false 6243314768165359 (-53).
Definition Ln2_squared : float64 := S754_finite false 8655072057804175 (-54).

(** An integer as a float; a zero keeps the sign of the argument. *)
Definition of_rounded (s : bool) (n : Z) : float64 :=
  if n =? 0 then S754_zero s else of_int n.

(** [math.Ceil]. *)
Definition Ceil (f : float64) : float64 :=
  match f with
  | S754_finite s m e =>
      if 0 <=? e then f
      else of_rounded s (if s then - (Zpos m / 2 ^ (- e)) else - ((- Zpos m) / 2 ^ (- e)))
  | _ => f
  end.

(** [math.Round]: half away from zero. *)
Definition Round (f : float64) : float64 :=
  match f with
  | S754_finite s m e =>
      if 0 <=? e then f
      else
        let n := (Zpos m + 2 ^ (- e - 1)) / 2 ^ (- e) in
        of_rounded s (if s then - n else n)
  | _ => f
  end.

(** [uint64(f)]: truncation; what the conversion gives for a value out of range
    depends on the machine. *)
Definition to_uint64 (other : float64 -> Z) (f : float64) : Z :=
  match f with
  | S754_zero _ => 0
  | S754_finite s m e =>
      let n := if 0 <=? e then Zpos m * 2 ^ e else Zpos m / 2 ^ (- e) in
      if s then (if n =? 0 then 0 else u64 (other f))
      else if n <? 2 ^ 64 then n else u64 (other f)
  | _ => u64 (other f)
  end.

Lemma to_uint64_range other f : 0 <= to_uint64 other f < 2 ^ 64.
Proof.
  unfold to_uint64. destruct f as [s|s| |s m e]; [lia|apply u64_range..|].
  assert (Hn : 0 <= (if 0 <=? e then Zpos m * 2 ^ e else Zpos m / 2 ^ (- e))).
  { destruct (Z.leb_spec 0 e) as [He|He].
    - apply Z.mul_nonneg_nonneg; [lia|]. apply Z.pow_nonneg. lia.
    - apply Z.div_pos; [lia|]. apply Z.pow_pos_nonneg; lia. }
  destruct s; [destruct (_ =? 0); [lia|apply u64_range]|].
  destruct (Z.ltb_spec (if 0 <=? e then Zpos m * 2 ^ e else Zpos m / 2 ^ (- e)) (2 ^ 64)); [lia|apply u64_range].
Qed.
End Float64.
