(* ===== verification/Cache.v ===== *)
(** * LRU cache: internal/cache/cache.go

    The cache is a doubly linked list of elements and a map from keys to
    elements; an element is shared between the two, so elements live in a store
    of their own.  The list is kept as the sequence of its elements.  The
    specification is a list of key-value pairs, most recently used first. *)
From S2P Require Import Prelude.

Module Cache.

Record entry := MkEntry { key : bytes; value : bytes }.

(** A [*list.Element]. *)
Abbreviation element := nat.

Record LRU := MkLRU {
  capacity : Z;
  ll : list element;
  elems : gmap element entry;     (* [elem.Value] *)
  items : gmap bytes element;
  hits : Z;
  misses : Z;
  evicts : Z;
  fresh_elem : element;           (* the next element to allocate *)
}.

Definition New (cap : Z) : LRU := MkLRU cap [] ∅ ∅ 0 0 0 0%nat.

Definition set_ll l c := MkLRU (capacity c) l (elems c) (items c) (hits c) (misses c) (evicts c) (fresh_elem c).
Definition set_items m c := MkLRU (capacity c) (ll c) (elems c) m (hits c) (misses c) (evicts c) (fresh_elem c).
Definition set_elems m c := MkLRU (capacity c) (ll c) m (items c) (hits c) (misses c) (evicts c) (fresh_elem c).
Definition set_stats h m e c := MkLRU (capacity c) (ll c) (elems c) (items c) h m e (fresh_elem c).

(** ** container/list *)

Definition Remove (e : element) (c : LRU) : LRU := set_ll (filter (fun e' => e' <> e) (ll c)) c.

Definition MoveToFront (e : element) (c : LRU) : LRU :=
  if bool_decide (e ∈ ll c) then set_ll (e :: filter (fun e' => e' <> e) (ll c)) c else c.

(** [PushFront] allocates the element. *)
Definition PushFront (v : entry) (c : LRU) : LRU * element :=
  let e := fresh_elem c in
  (MkLRU (capacity c) (e :: ll c) (<[e := v]> (elems c)) (items c) (hits c) (misses c) (evicts c) (S e), e).

(** ** Methods *)

(** The entry an element holds. *)
Definition value_of (e : element) (c : LRU) : res entry :=
  match elems c !! e with
  | Some v => Ok v
  | None => Panic
  end.

Definition removeElement (e : element) (c : LRU) : res LRU :=
  let c1 := Remove e c in
  v ← value_of e c1;
  mret (set_items (delete (key v) (items c1)) c1).

Definition evictOldest (c : LRU) : res LRU :=
  match list.last (ll c) with
  | None => mret c
  | Some tail =>
      c1 ← removeElement tail c;
      mret (set_stats (hits c1) (misses c1) (i64 (evicts c1 + 1)) c1)
  end.

(** [None] is a miss. *)
Definition Get (k : bytes) (c : LRU) : res (LRU * option bytes) :=
  if capacity c <=? 0 then mret (set_stats (hits c) (i64 (misses c + 1)) (evicts c) c, None)
  else
    match items c !! k with
    | None => mret (set_stats (hits c) (i64 (misses c + 1)) (evicts c) c, None)
    | Some e =>
        let c1 := MoveToFront e c in
        let c2 := set_stats (i64 (hits c1 + 1)) (misses c1) (evicts c1) c1 in
        v ← value_of e c2;
        mret (c2, Some (value v))
    end.

Definition Put (k v : bytes) (c : LRU) : res LRU :=
  if capacity c <=? 0 then mret c
  else
    match items c !! k with
    | Some e =>
        let c1 := MoveToFront e c in
        old ← value_of e c1;
        mret (set_elems (<[e := MkEntry (key old) v]> (elems c1)) c1)
    | None =>
        c1 ← (if capacity c <=? blen (ll c) then evictOldest c else mret c);
        let '(c2, e) := PushFront (MkEntry k v) c1 in
        mret (set_items (<[k := e]> (items c2)) c2)
    end.

Definition Delete (k : bytes) (c : LRU) : res LRU :=
  match items c !! k with
  | None => mret c
  | Some e => removeElement e c
  end.

Definition Len (c : LRU) : Z := blen (ll c).

Definition Capacity (c : LRU) : Z := capacity c.

Definition Clear (c : LRU) : LRU := set_items ∅ (set_ll [] c).

Fixpoint keys_loop (l : list element) (c : LRU) : res (list bytes) :=
  match l with
  | [] => mret []
  | e :: l' => v ← value_of e c; ks ← keys_loop l' c; mret (key v :: ks)
  end.

Definition Keys (c : LRU) : res (list bytes) := keys_loop (ll c) c.

Definition Contains (k : bytes) (c : LRU) : bool := bool_decide (is_Some (items c !! k)).

Definition Peek (k : bytes) (c : LRU) : res (option bytes) :=
  match items c !! k with
  | None => mret None
  | Some e => v ← value_of e c; mret (Some (value v))
  end.

Definition Stats (c : LRU) : Z * Z * Z := (hits c, misses c, evicts c).

Definition ResetStats (c : LRU) : LRU := set_stats 0 0 0 c.

(** The eviction loop of [Resize]; every round removes one element. *)
Fixpoint resize_loop (fuel : nat) (c : LRU) : res LRU :=
  if (capacity c <? blen (ll c)) && (0 <? capacity c) then
    match fuel with
    | O => Panic
    | S fuel' => c1 ← evictOldest c; resize_loop fuel' c1
    end
  else mret c.

Definition Resize (newCap : Z) (c : LRU) : res LRU :=
  resize_loop (length (ll c))
    (MkLRU newCap (ll c) (elems c) (items c) (hits c) (misses c) (evicts c) (fresh_elem c)).

(** ** Specification *)

(** The cached pairs, most recently used first. *)
Abbreviation pairs := (list (bytes * bytes)).

Definition without (k : bytes) (l : pairs) : pairs := filter (fun kv => kv.1 <> k) l.

Fixpoint find (k : bytes) (l : pairs) : option bytes :=
  match l with
  | [] => None
  | (k', v) :: l' => if bool_decide (k = k') then Some v else find k l'
  end.

Definition touch (k v : bytes) (l : pairs) : pairs := (k, v) :: without k l.

Inductive op :=
  | OpGet (k : bytes) | OpPut (k v : bytes) | OpDelete (k : bytes) | OpPeek (k : bytes)
  | OpClear | OpKeys | OpResize (n : Z).

Inductive answer := ADone | AValue (v : option bytes) | AKeys (ks : list bytes).

(** The specification's state: the capacity and the pairs. *)
Definition spec (o : op) (s : Z * pairs) : (Z * pairs) * answer :=
  let '(cap, l) := s in
  match o with
  | OpGet k =>
      if cap <=? 0 then (s, AValue None)
      else match find k l with
           | Some v => ((cap, touch k v l), AValue (Some v))
           | None => (s, AValue None)
           end
  | OpPut k v =>
      if cap <=? 0 then (s, ADone)
      else match find k l with
           | Some _ => ((cap, touch k v l), ADone)
           | None => ((cap, (k, v) :: take (Z.to_nat (cap - 1)) l), ADone)
           end
  | OpDelete k => ((cap, without k l), ADone)
  | OpPeek k => (s, AValue (find k l))
  | OpClear => ((cap, []), ADone)
  | OpKeys => (s, AKeys l.*1)
  | OpResize n => ((n, if 0 <? n then take (Z.to_nat n) l else l), ADone)
  end.

(** The methods as one transition function. *)
Definition step (o : op) (c : LRU) : res (LRU * answer) :=
  match o with
  | OpGet k => r ← Get k c; mret (r.1, AValue r.2)
  | OpPut k v => c' ← Put k v c; mret (c', ADone)
  | OpDelete k => c' ← Delete k c; mret (c', ADone)
  | OpPeek k => v ← Peek k c; mret (c, AValue v)
  | OpClear => mret (Clear c, ADone)
  | OpKeys => ks ← Keys c; mret (c, AKeys ks)
  | OpResize n => c' ← Resize n c; mret (c', ADone)
  end.

Fixpoint run (l : list op) (c : LRU) : res (LRU * list answer) :=
  match l with
  | [] => mret (c, [])
  | o :: l' => r ← step o c; rs ← run l' r.1; mret (rs.1, r.2 :: rs.2)
  end.

Fixpoint spec_run (l : list op) (s : Z * pairs) : list answer :=
  match l with
  | [] => []
  | o :: l' => (spec o s).2 :: spec_run l' (spec o s).1
  end.

(** ** Representation *)

Definition holds (c : LRU) (e : element) (kv : bytes * bytes) : Prop :=
  elems c !! e = Some (MkEntry kv.1 kv.2).

Record rep (c : LRU) (l : pairs) : Prop := {
  rep_list : Forall2 (holds c) (ll c) l;
  rep_keys : NoDup l.*1;
  rep_nodup : NoDup (ll c);
  rep_items : forall k e, items c !! k = Some e <->
    e ∈ ll c /\ exists v, elems c !! e = Some (MkEntry k v);
  rep_fresh : forall e, is_Some (elems c !! e) -> (e < fresh_elem c)%nat;
}.

Definition capped (c : LRU) (l : pairs) : Prop := 0 < capacity c -> blen l <= capacity c.

Lemma find_Some k v (l : pairs) : NoDup l.*1 -> find k l = Some v <-> (k, v) ∈ l.
Proof.
  induction l as [|[k' v'] l IH]; cbn [find]; [intros _; split; [done|by intros ?%elem_of_nil]|].
  rewrite fmap_cons. intros [Hk Hnd]%NoDup_cons. rewrite elem_of_cons. case_bool_decide as E.
  - subst k'. split; [intros [= ->]; by left|]. intros [[= ->]|H]; [done|].
    exfalso. apply Hk, list_elem_of_fmap. by exists (k, v).
  - rewrite IH by done. split; [by right|]. intros [[= -> ->]|H]; done.
Qed.

Lemma find_None k (l : pairs) : find k l = None <-> k ∉ l.*1.
Proof.
  induction l as [|[k' v'] l IH]; cbn [find]; [split; [by intros _ ?%elem_of_nil|done]|].
  rewrite fmap_cons, not_elem_of_cons. case_bool_decide; [|rewrite IH]; naive_solver.
Qed.

Lemma without_fresh k (l : pairs) : k ∉ l.*1 -> without k l = l.
Proof.
  intros H. unfold without. apply filter_all. rewrite Forall_forall. intros [k' v] Hin Hk.
  cbn in Hk. subst k'. apply H, list_elem_of_fmap. by exists (k, v).
Qed.

(** Elements and keys correspond. *)
Lemma rep_elem c l k e v :
  rep c l -> items c !! k = Some e -> elems c !! e = Some (MkEntry k v) -> (k, v) ∈ l.
Proof.
  intros HR Hi He. apply (rep_items _ _ HR) in Hi as [Hin _].
  apply list_elem_of_lookup in Hin as [i Hi].
  destruct (Forall2_lookup_l _ _ _ _ _ (rep_list _ _ HR) Hi) as ([k' v'] & Hl & Hh).
  unfold holds in Hh. cbn in Hh. rewrite He in Hh. injection Hh as <- <-.
  by eapply list_elem_of_lookup_2.
Qed.

Lemma rep_lookup c l k : rep c l ->
  match items c !! k with
  | Some e => exists v, elems c !! e = Some (MkEntry k v) /\ find k l = Some v /\ e ∈ ll c
  | None => find k l = None
  end.
Proof.
  intros HR. destruct (items c !! k) as [e|] eqn:E.
  - destruct (proj1 (rep_items _ _ HR _ _) E) as [Hin [v Hv]]. exists v. split_and!; [done| |done].
    apply find_Some; [apply HR|]. by eapply rep_elem.
  - apply find_None. intros ([k' v] & -> & Hin)%list_elem_of_fmap. cbn in E.
    apply list_elem_of_lookup in Hin as [i Hi].
    destruct (Forall2_lookup_r _ _ _ _ _ (rep_list _ _ HR) Hi) as (e & He & Hh).
    assert (Hs : items c !! k' = Some e); [|congruence].
    apply (rep_items _ _ HR). split; [by eapply list_elem_of_lookup_2|]. by exists v.
Qed.

(** Filtering both sides of a correspondence. *)
Lemma Forall2_filter_both {A B} (R : A -> B -> Prop) (P : A -> Prop) (Q : B -> Prop)
    `{!forall x, Decision (P x)} `{!forall y, Decision (Q y)} xs ys :
  Forall2 R xs ys -> (forall x y, x ∈ xs -> R x y -> P x <-> Q y) ->
  Forall2 R (filter P xs) (filter Q ys).
Proof.
  induction 1 as [|x y xs ys Hxy _ IH]; intros HPQ; [constructor|].
  specialize (IH ltac:(intros; apply HPQ; [by right|done])).
  rewrite !filter_cons. pose proof (HPQ x y ltac:(by left) Hxy).
  destruct (decide (P x)), (decide (Q y)); try tauto. by constructor.
Qed.

Lemma rep_without c l k e v : rep c l -> elems c !! e = Some (MkEntry k v) -> e ∈ ll c ->
  Forall2 (holds c) (filter (fun e' => e' <> e) (ll c)) (without k l).
Proof.
  intros HR He Hin. apply Forall2_filter_both; [apply HR|].
  intros e' [k' v'] Hin' Hh. unfold holds in Hh. cbn in *. split; intros Hne ->; apply Hne.
  - assert (H1 : items c !! k = Some e) by (apply (rep_items _ _ HR); eauto).
    assert (H2 : items c !! k = Some e') by (apply (rep_items _ _ HR); eauto). congruence.
  - congruence.
Qed.

(** Moving a cached element to the front and giving it a value. *)
Lemma rep_touch c l k e v v' c' :
  rep c l -> elems c !! e = Some (MkEntry k v) -> e ∈ ll c ->
  ll c' = e :: filter (fun e' => e' <> e) (ll c) -> items c' = items c ->
  elems c' = <[e := MkEntry k v']> (elems c) -> fresh_elem c' = fresh_elem c ->
  rep c' (touch k v' l).
Proof.
  intros HR He Hin Hll Hit Hel Hfr. pose proof (rep_without c l k e v HR He Hin) as Hw.
  assert (Hmem : forall e', e' ∈ ll c' <-> e' ∈ ll c).
  { intros e'. rewrite Hll, elem_of_cons, list_elem_of_filter.
    destruct (decide (e' = e)) as [->|]; naive_solver. }
  split.
  - rewrite Hll. constructor; [unfold holds; by rewrite Hel, lookup_insert_eq|].
    rewrite Forall2_lookup in *. intros i. specialize (Hw i).
    destruct (filter _ (ll c) !! i) as [e'|] eqn:E; inversion Hw as [? kv Hh|]; constructor.
    unfold holds in *. rewrite Hel, lookup_insert_ne; [done|].
    apply list_elem_of_lookup_2, list_elem_of_filter in E as [Hne _]. done.
  - cbn. constructor.
    + intros ([k1 v1] & Hk & [Hne _]%list_elem_of_filter)%list_elem_of_fmap. cbn in *. congruence.
    + unfold without. eapply sublist_NoDup; [apply (rep_keys _ _ HR)|].
      apply fmap_sublist, sublist_filter.
  - rewrite Hll. apply NoDup_cons. split; [by intros [Hne _]%list_elem_of_filter|].
    apply NoDup_filter, HR.
  - intros k1 e1. rewrite Hit, (rep_items _ _ HR k1 e1), Hmem, Hel.
    destruct (decide (e = e1)) as [<-|Hne].
    + rewrite lookup_insert_eq, He. naive_solver.
    + by rewrite lookup_insert_ne.
  - intros e1. rewrite Hel, Hfr, lookup_insert_is_Some'. intros [<-|H]; apply (rep_fresh _ _ HR); eauto.
Qed.

(** Removing a cached element. *)
Lemma rep_remove c l k e v c' :
  rep c l -> elems c !! e = Some (MkEntry k v) -> e ∈ ll c ->
  ll c' = filter (fun e' => e' <> e) (ll c) -> items c' = delete k (items c) ->
  elems c' = elems c -> fresh_elem c' = fresh_elem c ->
  rep c' (without k l).
Proof.
  intros HR He Hin Hll Hit Hel Hfr. pose proof (rep_without c l k e v HR He Hin) as Hw.
  split.
  - rewrite Hll. unfold holds in *. by rewrite Hel.
  - unfold without. eapply sublist_NoDup; [apply (rep_keys _ _ HR)|].
    apply fmap_sublist, sublist_filter.
  - rewrite Hll. apply NoDup_filter, HR.
  - intros k1 e1. rewrite Hit, Hel, Hll, list_elem_of_filter, lookup_delete_Some, (rep_items _ _ HR).
    split.
    + intros (Hne & Hin1 & v1 & H1). split; [|by eauto]. split; [|done]. intros ->. congruence.
    + intros ([Hne Hin1] & v1 & H1). split; [|by eauto]. intros ->. apply Hne.
      assert (items c !! k1 = Some e) by (apply (rep_items _ _ HR); eauto).
      assert (items c !! k1 = Some e1) by (apply (rep_items _ _ HR); eauto). congruence.
  - rewrite Hel, Hfr. apply HR.
Qed.

Lemma removeElement_Ok c l k e v :
  rep c l -> elems c !! e = Some (MkEntry k v) -> e ∈ ll c ->
  exists c', removeElement e c = Ok c' /\ rep c' (without k l) /\ capacity c' = capacity c
             /\ ll c' = filter (fun e' => e' <> e) (ll c).
Proof.
  intros HR He Hin. unfold removeElement, value_of. cbn [Remove set_ll elems].
  rewrite He. cbn [mbind res_bind key]. eexists. split; [reflexivity|].
  split; [|by split]. by apply (rep_remove c l k e v).
Qed.

(** Without its last key a list is shorter by its last pair. *)
Lemma without_last (l : pairs) k v : NoDup (l ++ [(k, v)]).*1 -> without k (l ++ [(k, v)]) = l.
Proof.
  rewrite fmap_app. intros (_ & Hd & _)%NoDup_app. unfold without. rewrite filter_app.
  rewrite (filter_cons_False _ (k, v)) by (cbn; tauto). rewrite filter_nil, app_nil_r.
  apply without_fresh. intros Hin. apply (Hd k Hin). by left.
Qed.

Lemma evictOldest_Ok c l :
  rep c l -> l <> [] ->
  exists c', evictOldest c = Ok c' /\ rep c' (take (length l - 1) l) /\ capacity c' = capacity c.
Proof.
  intros HR Hl. pose proof (rep_list _ _ HR) as Hf.
  destruct l as [|[k v] l _] using rev_ind; [done|].
  destruct (proj1 (Forall2_app_inv_r _ _ _ _) Hf) as (es1 & es2 & _ & Hf2 & Hll).
  inversion Hf2 as [|e ? es3 ? Hh Hnil]; subst. inversion Hnil; subst.
  unfold evictOldest. rewrite Hll, last_snoc.
  destruct (removeElement_Ok c (l ++ [(k, v)]) k e v HR Hh) as (c1 & Hr & HR1 & Hcap & _).
  { rewrite Hll. apply elem_of_app. right. by left. }
  rewrite Hr. cbn [mbind res_bind]. eexists. split; [reflexivity|]. split; [|done].
  rewrite without_last in HR1 by apply HR. rewrite length_app. cbn [length].
  rewrite Nat.add_sub, take_app_length. destruct HR1. by split.
Qed.

Lemma blen_pairs c l : rep c l -> blen (ll c) = blen l.
Proof. intros HR. unfold blen. by rewrite (Forall2_length _ _ _ (rep_list _ _ HR)). Qed.

Lemma take_le_all {A} (l : list A) n : (length l <= n)%nat -> take n l = l.
Proof. apply take_ge. Qed.

Lemma resize_loop_Ok fuel c l :
  rep c l -> (length l <= fuel)%nat ->
  exists c', resize_loop fuel c = Ok c' /\ capacity c' = capacity c
    /\ rep c' (if 0 <? capacity c then take (Z.to_nat (capacity c)) l else l).
Proof.
  revert c l. induction fuel as [|fuel IH]; intros c l HR Hf; cbn [resize_loop];
    rewrite (blen_pairs c l HR); destruct (Z.ltb_spec 0 (capacity c)) as [Hc|Hc];
    rewrite ?andb_false_r, ?andb_true_r; try (exists c; by split_and!);
    destruct (Z.ltb_spec (capacity c) (blen l)) as [Hlt|Hge];
    try (exists c; split_and!; [done|done|]; rewrite take_ge by (unfold blen in Hge; lia); done).
  - unfold blen in Hlt. lia.
  - destruct (evictOldest_Ok c l HR) as (c1 & He & HR1 & Hcap).
    { intros ->. unfold blen in Hlt. cbn in Hlt. lia. }
    rewrite He. cbn [mbind res_bind].
    destruct (IH c1 _ HR1) as (c' & Hr & Hcap' & HR').
    { rewrite length_take. unfold blen in Hlt. lia. }
    exists c'. rewrite Hr. split_and!; [done|congruence|].
    rewrite Hcap in HR'. rewrite (proj2 (Z.ltb_lt 0 (capacity c)) Hc), take_take in HR'.
    unfold blen in Hlt. by replace (Z.to_nat (capacity c) `min` (length l - 1))%nat
      with (Z.to_nat (capacity c)) in HR' by lia.
Qed.

Lemma keys_loop_Ok c es l : Forall2 (holds c) es l -> keys_loop es c = Ok l.*1.
Proof.
  induction 1 as [|e [k v] es l Hh _ IH]; [done|]. cbn [keys_loop]. unfold value_of.
  unfold holds in Hh. rewrite Hh. cbn [mbind res_bind]. by rewrite IH.
Qed.

Lemma length_without k (l : pairs) : (length (without k l) <= length l)%nat.
Proof. apply length_filter. Qed.

Lemma length_without_Some k v (l : pairs) : find k l = Some v -> (length (without k l) < length l)%nat.
Proof.
  induction l as [|[k' v'] l IH]; cbn [find]; [done|]. unfold without in *. rewrite filter_cons.
  case_bool_decide as E.
  - intros _. rewrite decide_False by (cbn; congruence). pose proof (length_without k l) as H.
    unfold without in H. cbn. lia.
  - intros H%IH. case_decide; cbn; lia.
Qed.

(** Inserting a key that is not cached. *)
Lemma rep_push c l k v :
  rep c l -> k ∉ l.*1 ->
  let '(c2, e) := PushFront (MkEntry k v) c in
  rep (set_items (<[k := e]> (items c2)) c2) ((k, v) :: l).
Proof.
  intros HR Hk. cbn [PushFront]. set (e := fresh_elem c).
  assert (Hfresh : elems c !! e = None).
  { destruct (elems c !! e) as [x|] eqn:E; [|done].
    pose proof (rep_fresh _ _ HR e ltac:(eauto)). unfold e in *. lia. }
  assert (Hin : e ∉ ll c).
  { intros Hin. apply list_elem_of_lookup in Hin as [i Hi].
    destruct (Forall2_lookup_l _ _ _ _ _ (rep_list _ _ HR) Hi) as (kv & _ & Hh).
    unfold holds in Hh. congruence. }
  split; cbn [set_items ll items elems fresh_elem capacity].
  - constructor; [unfold holds; cbn; by rewrite lookup_insert_eq|].
    eapply Forall2_impl; [apply (rep_list _ _ HR)|]. intros e' kv Hh. unfold holds in *. cbn.
    rewrite lookup_insert_ne; [done|]. intros <-. congruence.
  - cbn. by constructor; [|apply HR].
  - constructor; [done|apply HR].
  - intros k1 e1. rewrite elem_of_cons, lookup_insert_Some, (rep_items _ _ HR).
    destruct (decide (e1 = e)) as [->|Hne].
    + rewrite lookup_insert_eq. naive_solver.
    + rewrite lookup_insert_ne by done. split.
      * intros [[<- ?]|(Hk1 & Hin1 & v1 & H1)]; [done|]. eauto.
      * intros [[?|Hin1] (v1 & H1)]; [done|]. right. split; [|eauto]. intros <-. apply Hk.
        assert (Hi : items c !! k = Some e1) by (apply (rep_items _ _ HR); eauto).
        apply list_elem_of_fmap. exists (k, v1). split; [done|]. by eapply rep_elem.
  - intros e1. rewrite lookup_insert_is_Some'. intros [<-|H]; [lia|].
    apply (rep_fresh _ _ HR) in H. lia.
Qed.

Lemma rep_same c c' l :
  rep c l -> ll c' = ll c -> elems c' = elems c -> items c' = items c ->
  fresh_elem c' = fresh_elem c -> rep c' l.
Proof.
  intros [H1 H2 H3 H4 H5] Ha Hb Hc Hd. split; rewrite ?Ha, ?Hb, ?Hc, ?Hd; try done.
  eapply Forall2_impl; [exact H1|]. unfold holds. by rewrite Hb.
Qed.
(** ** Each method follows the specification *)

Lemma MoveToFront_in e c : e ∈ ll c ->
  MoveToFront e c = set_ll (e :: filter (fun e' => e' <> e) (ll c)) c.
Proof. intros H. unfold MoveToFront. by rewrite bool_decide_eq_true_2. Qed.

Lemma length_touch k v v' l : find k l = Some v -> (length (touch k v' l) <= length l)%nat.
Proof. intros H%length_without_Some. cbn. lia. Qed.

Lemma cache_Get_Ok c l k : rep c l -> capped c l ->
  exists c' l' a, Get k c = Ok (c', a) /\ rep c' l' /\ capped c' l'
    /\ spec (OpGet k) (capacity c, l) = ((capacity c', l'), AValue a).
Proof.
  intros HR Hcap. unfold Get, spec. destruct (Z.leb_spec (capacity c) 0) as [Hc|Hc].
  { eexists _, l, None. split; [reflexivity|]. by split_and!; [eapply rep_same| |]. }
  pose proof (rep_lookup c l k HR) as Hk. destruct (items c !! k) as [e|].
  - destruct Hk as (v & He & Hf & Hin). rewrite MoveToFront_in by done. cbv zeta.
    unfold value_of. cbn [set_stats set_ll elems]. rewrite He. cbn [mbind res_bind].
    eexists _, (touch k v l), (Some v). split; [reflexivity|]. rewrite Hf. split_and!; [| |done].
    + apply (rep_touch c l k e v v); try done. cbn. by rewrite insert_id.
    + intros H. specialize (Hcap H). pose proof (length_touch k v v l Hf). unfold blen in *. cbn in *. lia.
  - rewrite Hk. eexists _, l, None. split; [reflexivity|]. by split_and!; [eapply rep_same| |].
Qed.

Lemma cache_Put_Ok c l k v : rep c l -> capped c l ->
  exists c' l', Put k v c = Ok c' /\ rep c' l' /\ capped c' l'
    /\ spec (OpPut k v) (capacity c, l) = ((capacity c', l'), ADone).
Proof.
  intros HR Hcap. unfold Put, spec. destruct (Z.leb_spec (capacity c) 0) as [Hc|Hc].
  { by exists c, l. }
  pose proof (rep_lookup c l k HR) as Hk. destruct (items c !! k) as [e|].
  - destruct Hk as (v0 & He & Hf & Hin). rewrite MoveToFront_in by done. cbv zeta.
    unfold value_of. cbn [set_ll elems]. rewrite He. cbn [mbind res_bind key].
    eexists _, (touch k v l). split; [reflexivity|]. rewrite Hf. split_and!; [| |done].
    + by apply (rep_touch c l k e v0 v).
    + intros H. specialize (Hcap H). pose proof (length_touch k v0 v l Hf). unfold blen in *. cbn in *. lia.
  - rewrite Hk. apply find_None in Hk. specialize (Hcap Hc).
    assert (Hroom : exists c1, (if capacity c <=? blen (ll c) then evictOldest c else mret c) = Ok c1
      /\ rep c1 (take (Z.to_nat (capacity c - 1)) l) /\ capacity c1 = capacity c).
    { rewrite (blen_pairs c l HR). destruct (Z.leb_spec (capacity c) (blen l)) as [Hle|Hgt].
      - destruct (evictOldest_Ok c l HR) as (c1 & He & HR1 & Hc1).
        { intros ->. cbn in Hle. unfold blen in Hle. cbn in Hle. lia. }
        exists c1. split_and!; [done| |done].
        replace (Z.to_nat (capacity c - 1)) with (length l - 1)%nat by (unfold blen in *; lia). done.
      - exists c. rewrite take_ge by (unfold blen in *; lia). by split_and!. }
    destruct Hroom as (c1 & -> & HR1 & Hc1). cbn [mbind res_bind].
    pose proof (rep_push c1 _ k v HR1) as Hp.
    destruct (PushFront (MkEntry k v) c1) as [c2 e] eqn:Epush.
    assert (Hc2 : capacity c2 = capacity c) by (unfold PushFront in Epush; by simplify_eq/=).
    eexists _, _. split; [reflexivity|]. split_and!; [apply Hp| |by rewrite <- Hc2].
    + intros Hin. apply Hk. apply list_elem_of_fmap in Hin as (kv & -> & Hin).
      apply list_elem_of_fmap. exists kv. split; [done|].
      rewrite <- (take_drop (Z.to_nat (capacity c - 1)) l). apply elem_of_app. by left.
    + intros _. cbn [set_items capacity]. rewrite Hc2, blen_cons. unfold blen. rewrite length_take. lia.
Qed.

Lemma cache_Delete_Ok c l k : rep c l -> capped c l ->
  exists c', Delete k c = Ok c' /\ rep c' (without k l) /\ capped c' (without k l)
    /\ capacity c' = capacity c.
Proof.
  intros HR Hcap. unfold Delete. pose proof (rep_lookup c l k HR) as Hk.
  assert (Hw : forall c' : LRU, capacity c' = capacity c -> capped c' (without k l)).
  { intros c' Hc' H. rewrite Hc' in *. specialize (Hcap H). pose proof (length_without k l).
    unfold blen in *. lia. }
  destruct (items c !! k) as [e|].
  - destruct Hk as (v & He & Hf & Hin).
    destruct (removeElement_Ok c l k e v HR He Hin) as (c' & Hr & HR' & Hc' & _). exists c'. auto.
  - apply find_None in Hk. exists c. rewrite without_fresh in * by done. by split_and!.
Qed.

Lemma Peek_Ok c l k : rep c l -> Peek k c = Ok (find k l).
Proof.
  intros HR. unfold Peek. pose proof (rep_lookup c l k HR) as Hk.
  destruct (items c !! k) as [e|]; [|by rewrite Hk].
  destruct Hk as (v & He & -> & _). unfold value_of. by rewrite He.
Qed.

Lemma Clear_Ok c l : rep c l -> rep (Clear c) [].
Proof.
  intros HR. split; cbn; [constructor|constructor|constructor| |apply HR].
  intros k e. split; [done|]. by intros [?%elem_of_nil _].
Qed.

Lemma Resize_Ok c l n : rep c l ->
  exists c', Resize n c = Ok c' /\ capacity c' = n
    /\ rep c' (if 0 <? n then take (Z.to_nat n) l else l)
    /\ capped c' (if 0 <? n then take (Z.to_nat n) l else l).
Proof.
  intros HR. unfold Resize. set (c0 := MkLRU n _ _ _ _ _ _ _).
  assert (HR0 : rep c0 l) by (by eapply rep_same).
  destruct (resize_loop_Ok (length (ll c)) c0 l HR0) as (c' & Hr & Hc & HR').
  { rewrite (Forall2_length _ _ _ (rep_list _ _ HR)). done. }
  exists c'. split_and!; [done|done|done|]. intros H. rewrite Hc in *. cbn [c0 capacity] in *.
  rewrite (proj2 (Z.ltb_lt 0 n) H). unfold blen. rewrite length_take. lia.
Qed.

Lemma step_Ok c l o : rep c l -> capped c l ->
  exists c' l' a, step o c = Ok (c', a) /\ rep c' l' /\ capped c' l'
    /\ spec o (capacity c, l) = ((capacity c', l'), a).
Proof.
  intros HR Hcap. destruct o as [k|k v|k|k| | |n]; cbn [step].
  - destruct (cache_Get_Ok c l k HR Hcap) as (c' & l' & a & -> & H). by exists c', l', (AValue a).
  - destruct (cache_Put_Ok c l k v HR Hcap) as (c' & l' & -> & H). by exists c', l', ADone.
  - destruct (cache_Delete_Ok c l k HR Hcap) as (c' & -> & H1 & H2 & H3).
    exists c', (without k l), ADone. by rewrite H3.
  - rewrite (Peek_Ok c l k HR). by exists c, l, (AValue (find k l)).
  - exists (Clear c), [], ADone. split_and!; [done|by eapply Clear_Ok| |done].
    intros H. unfold blen. cbn in *. lia.
  - unfold Keys. rewrite (keys_loop_Ok c _ l (rep_list _ _ HR)). by exists c, l, (AKeys l.*1).
  - destruct (Resize_Ok c l n HR) as (c' & -> & H1 & H2 & H3).
    eexists c', _, ADone. split_and!; [done|done|done|]. by rewrite <- H1.
Qed.

Lemma run_Ok os c l : rep c l -> capped c l ->
  exists c' l', run os c = Ok (c', spec_run os (capacity c, l)) /\ rep c' l' /\ capped c' l'.
Proof.
  revert c l. induction os as [|o os IH]; intros c l HR Hcap; cbn [run spec_run]; [by exists c, l|].
  destruct (step_Ok c l o HR Hcap) as (c1 & l1 & a & -> & HR1 & Hcap1 & Hs). cbn [mbind res_bind fst snd].
  destruct (IH c1 l1 HR1 Hcap1) as (c' & l' & Hr & H). rewrite Hr. cbn [mbind res_bind fst snd].
  exists c', l'. by rewrite Hs.
Qed.

Lemma rep_New cap : rep (New cap) [] /\ capped (New cap) [].
Proof.
  split; [|intros H; unfold blen; cbn in *; lia]. split; try constructor.
  - done.
  - by intros [?%elem_of_nil _].
  - intros e [x H]. done.
Qed.
End Cache.
