(* ===== verification/Batch.v ===== *)
(** * Write batches: internal/batch/batch.go

    A batch buffers writes.  Slices are copied on the way in, so the operations
    are values; the backing array that [Ops] and [Reset] share is not modelled. *)
From S2P Require Import Prelude.

Module Batch.

Definition ErrCommitted : error := errors_New "batch: already committed".
Definition ErrDiscarded : error := errors_New "batch: discarded".
Definition ErrEmpty : error := errors_New "batch: empty".

Inductive OpType := OpPut | OpDelete.

Record Op := MkOp { Type_ : OpType; Key : bytes; Value : bytes }.

Record Batch := MkBatch {
  ops : list Op;
  committed : bool;
  discarded : bool;
  sizeBytes : Z;
}.

Definition New : Batch := MkBatch [] false false 0.

Definition Put (key value : bytes) : M Batch unit := fun b =>
  if committed b then (b, Err ErrCommitted)
  else if discarded b then (b, Err ErrDiscarded)
  else (MkBatch (ops b ++ [MkOp OpPut key value]) (committed b) (discarded b)
          (i64 (sizeBytes b + (blen key + blen value))), Ok tt).

Definition Delete (key : bytes) : M Batch unit := fun b =>
  if committed b then (b, Err ErrCommitted)
  else if discarded b then (b, Err ErrDiscarded)
  else (MkBatch (ops b ++ [MkOp OpDelete key []]) (committed b) (discarded b)
          (i64 (sizeBytes b + blen key)), Ok tt).

Definition Ops (b : Batch) : list Op := ops b.
Definition Len (b : Batch) : Z := blen (ops b).
Definition SizeBytes (b : Batch) : Z := sizeBytes b.
Definition IsCommitted (b : Batch) : bool := committed b.
Definition IsDiscarded (b : Batch) : bool := discarded b.

Definition MarkCommitted (b : Batch) : Batch := MkBatch (ops b) true (discarded b) (sizeBytes b).

(** [Discard] drops the operations and keeps [sizeBytes]. *)
Definition Discard (b : Batch) : Batch := MkBatch [] (committed b) true (sizeBytes b).

Definition Reset (b : Batch) : Batch := MkBatch [] false false 0.

Fixpoint validate_ops (l : list Op) : res unit :=
  match l with
  | [] => Ok tt
  | op :: l' => if blen (Key op) =? 0 then Err (errors_New "batch: empty key") else validate_ops l'
  end.

Definition Validate (b : Batch) : res unit := validate_ops (ops b).

(** The last index of each key: [last[string(op.Key)] = i] for [i] from [n]. *)
Fixpoint last_index (n : nat) (l : list Op) (last : gmap bytes nat) : gmap bytes nat :=
  match l with
  | [] => last
  | op :: l' => last_index (S n) l' (<[Key op := n]> last)
  end.

(** The operations at the last index of their key. *)
Fixpoint keep_last (n : nat) (last : gmap bytes nat) (l : list Op) : list Op :=
  match l with
  | [] => []
  | op :: l' =>
      if bool_decide (default 0%nat (last !! Key op) = n) then op :: keep_last (S n) last l'
      else keep_last (S n) last l'
  end.

Definition Deduplicate (b : Batch) : Batch :=
  let last := last_index 0 (ops b) ∅ in
  let deduped := keep_last 0 last (ops b) in
  MkBatch deduped (committed b) (discarded b)
    (foldl (fun size op => i64 (size + (blen (Key op) + blen (Value op)))) 0 deduped).

Fixpoint keys_loop (l : list Op) (seen : gset bytes) (out : list bytes) : list bytes :=
  match l with
  | [] => out
  | op :: l' =>
      if bool_decide (Key op ∈ seen) then keys_loop l' seen out
      else keys_loop l' ({[Key op]} ∪ seen) (out ++ [Key op])
  end.

Definition Keys (b : Batch) : list bytes := keys_loop (ops b) ∅ [].

(** ** The effect of a batch *)

(** What applying an operation does to a map. *)
Definition apply (A : gmap bytes bytes) (op : Op) : gmap bytes bytes :=
  match Type_ op with
  | OpPut => <[Key op := Value op]> A
  | OpDelete => delete (Key op) A
  end.

Definition effect (l : list Op) (A : gmap bytes bytes) : gmap bytes bytes := foldl apply A l.

(** The last operation on a key, by position. *)
Fixpoint survivors (l : list Op) : list Op :=
  match l with
  | [] => []
  | op :: l' => if bool_decide (Key op ∈ Key <$> l') then survivors l' else op :: survivors l'
  end.

Lemma last_index_notin l n m k : k ∉ Key <$> l -> last_index n l m !! k = m !! k.
Proof.
  revert n m. induction l as [|op l IH]; intros n m Hk; [done|].
  rewrite fmap_cons in Hk. apply not_elem_of_cons in Hk as [Hne Hk]. cbn [last_index].
  rewrite IH by done. by rewrite lookup_insert_ne.
Qed.

Lemma last_index_in l n m k : k ∈ Key <$> l ->
  exists j, last_index n l m !! k = Some j /\ (n <= j < n + length l)%nat.
Proof.
  revert n m. induction l as [|op l IH]; intros n m Hk; [by apply elem_of_nil in Hk|].
  cbn [last_index length]. destruct (decide (k ∈ Key <$> l)) as [Hin|Hnot].
  - destruct (IH (S n) (<[Key op := n]> m) Hin) as (j & Hj & Hb). exists j. split; [done|lia].
  - rewrite fmap_cons in Hk. apply elem_of_cons in Hk as [->|]; [|done].
    rewrite last_index_notin by done. exists n. rewrite lookup_insert_eq. split; [done|lia].
Qed.

(** [keep_last] with the map of a suffix keeps the survivors of the suffix. *)
Lemma keep_last_survivors l n m :
  keep_last n (last_index n l m) l = survivors l.
Proof.
  revert n m. induction l as [|op l IH]; intros n m; [done|]. cbn [keep_last last_index survivors].
  rewrite IH. case_bool_decide as E1; case_bool_decide as E2; try done.
  - destruct (last_index_in l (S n) (<[Key op := n]> m) _ E2) as (j & Hj & Hb).
    rewrite Hj in E1. cbn in E1. lia.
  - rewrite last_index_notin, lookup_insert_eq in E1 by done. done.
Qed.

Lemma survivors_keys l k : k ∈ Key <$> survivors l <-> k ∈ Key <$> l.
Proof.
  induction l as [|op l IH]; [done|]. cbn [survivors]. rewrite fmap_cons, elem_of_cons.
  case_bool_decide as E; [rewrite IH; naive_solver|].
  by rewrite fmap_cons, elem_of_cons, IH.
Qed.

Lemma survivors_NoDup l : NoDup (Key <$> survivors l).
Proof.
  induction l as [|op l IH]; [constructor|]. cbn [survivors]. case_bool_decide as E; [done|].
  rewrite fmap_cons. constructor; [|done]. by rewrite survivors_keys.
Qed.

Lemma survivors_sublist l : survivors l `sublist_of` l.
Proof.
  induction l as [|op l IH]; [done|]. cbn [survivors].
  case_bool_decide; [by apply sublist_cons|by apply sublist_skip].
Qed.

(** An operation overwritten later does not matter. *)
Lemma effect_same_off_key l A B k :
  k ∈ Key <$> l -> (forall k', k' <> k -> A !! k' = B !! k') -> effect l A = effect l B.
Proof.
  revert A B. induction l as [|op l IH]; intros A B Hk HAB; [by apply elem_of_nil in Hk|].
  unfold effect in *. cbn [foldl]. destruct (decide (Key op = k)) as [Hop|Hne].
  - f_equal. apply map_eq. intros k'. unfold apply.
    destruct (Type_ op), (decide (Key op = k')) as [<-|Hk'];
      rewrite ?lookup_insert_eq, ?lookup_delete_eq, ?lookup_insert_ne, ?lookup_delete_ne by done;
      try done; apply HAB; congruence.
  - rewrite fmap_cons in Hk. apply elem_of_cons in Hk as [->|Hk]; [done|].
    apply IH; [done|]. intros k' Hk'. unfold apply.
    destruct (Type_ op), (decide (Key op = k')) as [<-|Hop'];
      rewrite ?lookup_insert_eq, ?lookup_delete_eq, ?lookup_insert_ne, ?lookup_delete_ne by done;
      by try apply HAB.
Qed.

Lemma effect_survivors l A : effect (survivors l) A = effect l A.
Proof.
  revert A. induction l as [|op l IH]; intros A; [done|]. cbn [survivors].
  case_bool_decide as E.
  - rewrite IH. change (effect (op :: l) A) with (effect l (apply A op)).
    apply (effect_same_off_key l _ _ (Key op)); [done|]. intros k' Hk'. unfold apply.
    destruct (Type_ op); by rewrite ?lookup_insert_ne, ?lookup_delete_ne.
  - apply IH.
Qed.

(** ** Sizes *)

Definition total (l : list Op) : Z :=
  foldr (fun op n => blen (Key op) + blen (Value op) + n) 0 l.

Lemma i64_add_l a b : i64 (i64 a + b) = i64 (a + b).
Proof.
  unfold i64. f_equal.
  replace ((a + 2 ^ 63) mod 2 ^ 64 - 2 ^ 63 + b + 2 ^ 63) with ((a + 2 ^ 63) mod 2 ^ 64 + b) by lia.
  rewrite Zplus_mod_idemp_l. f_equal. lia.
Qed.

Lemma size_loop l a :
  foldl (fun size op => i64 (size + (blen (Key op) + blen (Value op)))) (i64 a) l = i64 (a + total l).
Proof.
  revert a. induction l as [|op l IH]; intros a; cbn [foldl total foldr].
  - by rewrite Z.add_0_r.
  - rewrite i64_add_l, IH. f_equal. unfold total. lia.
Qed.

Lemma total_app l k : total (l ++ k) = total l + total k.
Proof. induction l as [|op l IH]; cbn; [done|]. unfold total in *. lia. Qed.

(** The calls of a client. *)
Inductive call := CPut (k v : bytes) | CDelete (k : bytes) | CCommit | CDiscard | CReset | CDedup.

Definition run_call (c : call) (b : Batch) : Batch :=
  match c with
  | CPut k v => (Put k v b).1
  | CDelete k => (Delete k b).1
  | CCommit => MarkCommitted b
  | CDiscard => Discard b
  | CReset => Reset b
  | CDedup => Deduplicate b
  end.

(** [sizeBytes] counts the buffered bytes of a batch that is not discarded. *)
Definition sized (b : Batch) : Prop := discarded b = false -> sizeBytes b = i64 (total (ops b)).

Lemma total_one op : total [op] = blen (Key op) + blen (Value op).
Proof. unfold total. cbn [foldr]. apply Z.add_0_r. Qed.

Lemma run_call_sized c b : sized b -> sized (run_call c b).
Proof.
  unfold sized. intros H. destruct c as [k v|k| | | |]; cbn [run_call]; try done.
  - unfold Put. destruct (committed b); [done|].
    destruct (discarded b) eqn:E; [cbn [fst]; congruence|].
    cbn [fst ops sizeBytes discarded]. intros _.
    by rewrite (H eq_refl), i64_add_l, total_app, total_one.
  - unfold Delete. destruct (committed b); [done|].
    destruct (discarded b) eqn:E; [cbn [fst]; congruence|].
    cbn [fst ops sizeBytes discarded]. intros _.
    rewrite (H eq_refl), i64_add_l, total_app, total_one. cbn [Key Value].
    by rewrite blen_nil, Z.add_0_r.
  - intros _. unfold Deduplicate. cbn [ops sizeBytes]. apply (size_loop _ 0).
Qed.

Lemma run_sized l b : sized b -> sized (foldl (fun b c => run_call c b) b l).
Proof. revert b. induction l as [|c l IH]; intros b H; [done|]. by apply IH, run_call_sized. Qed.

Lemma Deduplicate_ops b : ops (Deduplicate b) = survivors (ops b).
Proof. apply keep_last_survivors. Qed.
End Batch.
