(* ===== verification/Bloom.v ===== *)
(** * Bloom filter: internal/bloom/bloom.go

    The bit array is a list of 64-bit words, indexed with Go's bounds checks.
    Hashes are FNV-1a and FNV-1 of [hash/fnv].  The floating-point sizing
    formulas are parameters: [Sizing] gives the integers they round to. *)
From S2P Require Import Prelude Crc32.
Import Crc32.

Module Bloom.

Definition ErrCorrupt : error := errors_New "bloom: corrupt filter data".

Record Filter := MkFilter {
  bits : list Z;   (* uint64 words *)
  m : Z;
  k : Z;
  n : Z;
}.

Definition set_bits b (f : Filter) := MkFilter b (m f) (k f) (n f).
Definition set_n c (f : Filter) := MkFilter (bits f) (m f) (k f) c.

(** ** Construction *)

(** The floating-point part of sizing: [rate_ok p] is
    [!(fpRate <= 0 || fpRate >= 1)], [ceil_m n p] is
    [uint64(math.Ceil(-float64(n)*math.Log(p)/(math.Ln2*math.Ln2)))] and
    [round_k m n] is [uint64(math.Round(float64(m)/float64(n)*math.Ln2))]. *)
Class Sizing (Float : Type) := {
  rate_ok : Float -> bool;
  rate_default : Float;   (* 0.01 *)
  ceil_m : Z -> Float -> Z;
  round_k : Z -> Z -> Z;
}.

(** [make([]uint64, n)]: panics when the length is out of range. *)
Definition make_words (len : Z) : res (list Z) :=
  if 2 ^ 45 <? len then Panic else Ok (repeat 0 (Z.to_nat len)).

Section Construction.
Context {Float : Type} `{!Sizing Float}.

Definition optimalM (expectedN : Z) (p : Float) : Z :=
  let m := u64 (ceil_m expectedN p) in if m =? 0 then 1 else m.

Definition optimalK (m expectedN : Z) : Z :=
  let k := u64 (round_k m expectedN) in if k =? 0 then 1 else k.

Definition New (expectedN : Z) (fpRate : Float) : res Filter :=
  let expectedN := if expectedN <=? 0 then 1 else expectedN in
  let fpRate := if negb (rate_ok fpRate) then rate_default else fpRate in
  let m := optimalM expectedN fpRate in
  let k := optimalK m expectedN in
  let words := u64 (m + 63) / 64 in
  bits ← make_words words;
  mret (MkFilter bits m k 0).

Definition NewFromHash {H : Type} (expectedN : Z) (fpRate : Float) (newHash : H) : res Filter :=
  New expectedN fpRate.
End Construction.

(** ** Hashing *)

Definition offset64 : Z := 14695981039346656037.
Definition prime64 : Z := 1099511628211.

(** [fnv.New64a]: xor, then multiply. *)
Definition fnv64a (key : bytes) : Z :=
  foldl (fun h c => u64 (Z.lxor h (byteZ c) * prime64)) offset64 key.

(** [fnv.New64]: multiply, then xor. *)
Definition fnv64 (key : bytes) : Z :=
  foldl (fun h c => Z.lxor (u64 (h * prime64)) (byteZ c)) offset64 key.

Definition twoHashes (key : bytes) : Z * Z :=
  let v1 := fnv64a key in
  let v2 := fnv64 key in
  (v1, if v2 =? 0 then 1 else v2).

(** [x % f.m]. *)
Definition rem_u64 (x y : Z) : res Z := if y =? 0 then Panic else Ok (x mod y).

(** The position of the [i]-th hash. *)
Definition position (h : Z * Z) (i : Z) (f : Filter) : res Z :=
  rem_u64 (u64 (h.1 + u64 (i * h.2))) (m f).

(** ** Operations *)

(** The loop of [Add]; [cnt] rounds are left, the next one has number [i]. *)
Fixpoint add_loop (cnt : nat) (i : Z) (h : Z * Z) : M Filter unit :=
  match cnt with
  | O => mret tt
  | S cnt' =>
      f ← get;
      pos ← lift_res (position h i f);
      w ← lift_res (Prelude.index (pos / 64) (bits f));
      put (set_bits (<[Z.to_nat (pos / 64) := Z.lor w (u64 (Z.shiftl 1 (pos mod 64)))]> (bits f)) f)
        ≫= fun _ => add_loop cnt' (u64 (i + 1)) h
  end.

Definition Add (key : bytes) : M Filter unit :=
  f ← get;
  add_loop (Z.to_nat (k f)) 0 (twoHashes key) ≫= fun _ =>
  modify (fun f => set_n (u64 (n f + 1)) f).

Fixpoint may_loop (cnt : nat) (i : Z) (h : Z * Z) (f : Filter) : res bool :=
  match cnt with
  | O => mret true
  | S cnt' =>
      pos ← position h i f;
      w ← Prelude.index (pos / 64) (bits f);
      if Z.land w (u64 (Z.shiftl 1 (pos mod 64))) =? 0 then mret false
      else may_loop cnt' (u64 (i + 1)) h f
  end.

Definition MayContain (key : bytes) (f : Filter) : res bool :=
  may_loop (Z.to_nat (k f)) 0 (twoHashes key) f.

Definition Count (f : Filter) : Z := n f.
Definition BitSize (f : Filter) : Z := m f.
Definition HashCount (f : Filter) : Z := k f.

Definition Reset (f : Filter) : Filter := MkFilter ((fun _ => 0) <$> bits f) (m f) (k f) 0.

Definition popcount (x : Z) : Z :=
  let x := u64 (x - Z.land (Z.shiftr x 1) 0x5555555555555555) in
  let x := u64 (Z.land x 0x3333333333333333 + Z.land (Z.shiftr x 2) 0x3333333333333333) in
  let x := Z.land (u64 (x + Z.shiftr x 4)) 0x0f0f0f0f0f0f0f0f in
  Z.shiftr (u64 (x * 0x0101010101010101)) 56.

(** The set bits that [FillRatio] counts, before it divides them by [f.m]. *)
Definition set_count (f : Filter) : Z := foldl (fun set w => u64 (set + popcount w)) 0 (bits f).

Fixpoint union_loop (i : Z) (l other : list Z) : res (list Z) :=
  match l with
  | [] => mret []
  | w :: l' =>
      o ← Prelude.index i other;
      l'' ← union_loop (i + 1) l' other;
      mret (Z.lor w o :: l'')
  end.

(** [f.Union(other)] for two distinct filters; [f.Union(f)] blocks forever on
    its own lock. *)
Definition Union (other f : Filter) : res Filter :=
  if negb (m f =? m other) || negb (k f =? k other)
  then Err (errors_New "bloom: cannot union filters with different parameters")
  else
    bits ← union_loop 0 (bits f) (bits other);
    mret (MkFilter bits (m f) (k f) (u64 (n f + n other))).

(** ** Serialisation *)

Section Writing.
Context {St : Type} `{!Writer St}.

Fixpoint write_words (l : list Z) (total : Z) : M St Z :=
  match l with
  | [] => mret total
  | w :: l' => nn ← w_Write (be_put 8 w); write_words l' (i64 (total + nn))
  end.

(** The byte count returned next to an error is not modelled. *)
Definition WriteTo (f : Filter) : M St Z :=
  total ← w_Write (be_put 8 (m f) ++ be_put 8 (k f) ++ be_put 8 (n f));
  write_words (bits f) total.
End Writing.

Fixpoint read_words (cnt : nat) : M ioReader (list Z) :=
  match cnt with
  | O => mret []
  | S cnt' =>
      buf ← failing_as (Errorf "%w: bits: %v" ErrCorrupt) (ReadFull 8);
      l ← read_words cnt';
      mret (be_get buf :: l)
  end.

(** [f.ReadFrom(r)]: the filter read, which replaces the receiver's fields; on
    an error the receiver is left alone. *)
Definition ReadFrom : M ioReader Filter :=
  hdr ← failing_as (Errorf "%w: header: %v" ErrCorrupt) (ReadFull 24);
  let m := be_get (sub 0 8 hdr) in
  let k := be_get (sub 8 16 hdr) in
  let count := be_get (sub 16 24 hdr) in
  if (m =? 0) || (k =? 0) then throw (Errorf "%w: zero m or k" ErrCorrupt)
  else
    let words := u64 (m + 63) / 64 in
    if Z.shiftl 1 28 <? words then throw (Errorf "%w: absurd size" ErrCorrupt)
    else
      bits ← read_words (Z.to_nat words);
      mret (MkFilter bits m k count).

(** ** Well-formed filters *)

Record wf (f : Filter) : Prop := {
  wf_m : 0 < m f < 2 ^ 64 - 63;
  wf_k : 0 < k f < 2 ^ 64;
  wf_n : 0 <= n f < 2 ^ 64;
  wf_len : blen (bits f) = (m f + 63) / 64;
  wf_words : Forall (fun w => 0 <= w < 2 ^ 64) (bits f);
}.

(** Bit [p] of the array. *)
Definition bit (f : Filter) (p : Z) : Prop :=
  exists w, bits f !! Z.to_nat (p / 64) = Some w /\ Z.testbit w (p mod 64) = true.

(** The bit of the [j]-th hash. *)
Definition pos (h : Z * Z) (j m : Z) : Z := u64 (h.1 + u64 (j * h.2)) mod m.

(** What [MayContain] tests. *)
Definition contains (f : Filter) (key : bytes) : Prop :=
  forall j, 0 <= j < k f -> bit f (pos (twoHashes key) j (m f)).

Lemma pos_range h j m : 0 < m -> 0 <= pos h j m < m.
Proof. intros. by apply Z.mod_pos_bound. Qed.

Lemma word_of f p : wf f -> 0 <= p < m f ->
  exists w, bits f !! Z.to_nat (p / 64) = Some w /\ 0 <= w < 2 ^ 64
    /\ Prelude.index (p / 64) (bits f) = Ok w.
Proof.
  intros [Hm _ _ Hl Hw] Hp.
  assert (Hd : 0 <= p / 64 < (m f + 63) / 64).
  { split; [apply Z.div_pos; lia|]. apply Z.div_lt_upper_bound; [lia|].
    pose proof (Z.div_mod (m f + 63) 64 ltac:(lia)). pose proof (Z.mod_pos_bound (m f + 63) 64 ltac:(lia)). lia. }
  destruct (lookup_lt_is_Some_2 (bits f) (Z.to_nat (p / 64))) as [w Hlk]; [unfold blen in Hl; lia|].
  pose proof (Forall_lookup_1 _ _ _ _ Hw Hlk) as Hr. cbn beta in Hr.
  exists w. split_and!; [done|lia|lia|].
  unfold Prelude.index. by rewrite (proj2 (Z.leb_le 0 _)), Hlk by lia.
Qed.

Lemma one_bit r : 0 <= r < 64 -> u64 (Z.shiftl 1 r) = 2 ^ r.
Proof.
  intros Hr. rewrite Z.shiftl_1_l. apply u64_small. split; [by apply Z.pow_nonneg|].
  apply Z.pow_lt_mono_r; lia.
Qed.

Lemma land_one_bit w r : 0 <= r < 64 -> (Z.land w (u64 (Z.shiftl 1 r)) =? 0) = negb (Z.testbit w r).
Proof.
  intros Hr. rewrite one_bit by done. destruct (Z.testbit w r) eqn:E; cbn [negb].
  - apply Z.eqb_neq. intros H. apply (f_equal (fun x => Z.testbit x r)) in H.
    by rewrite Z.land_spec, E, Z.pow2_bits_true, Z.bits_0 in H by lia.
  - apply Z.eqb_eq, Z.bits_inj'. intros i Hi. rewrite Z.land_spec, Z.bits_0.
    destruct (Z.eq_dec i r) as [->|Hne]; [by rewrite E|].
    by rewrite Z.pow2_bits_false, andb_false_r by lia.
Qed.

Lemma may_loop_Ok f h cnt i : wf f -> 0 <= i -> i + Z.of_nat cnt <= 2 ^ 64 ->
  exists b, may_loop cnt i h f = Ok b
    /\ (b = true <-> forall j, i <= j < i + Z.of_nat cnt -> bit f (pos h j (m f))).
Proof.
  intros Hwf. revert i. induction cnt as [|cnt IH]; intros i Hi Hn; cbn [may_loop].
  { exists true. split; [done|]. split; [intros _ j Hj; lia|done]. }
  unfold position, rem_u64. pose proof (wf_m _ Hwf) as Hm.
  rewrite (proj2 (Z.eqb_neq (m f) 0)) by lia. cbn [mbind res_bind]. fold (pos h i (m f)).
  pose proof (pos_range h i (m f) ltac:(lia)) as Hp. set (p := pos h i (m f)) in *.
  destruct (word_of f p Hwf Hp) as (w & Hw & _ & ->). cbn [mbind res_bind].
  rewrite land_one_bit by (by apply Z.mod_pos_bound).
  assert (Hbit : bit f p <-> Z.testbit w (p mod 64) = true).
  { unfold bit. rewrite Hw. split; [by intros (w' & [= <-] & ?)|by exists w]. }
  destruct (Z.testbit w (p mod 64)) eqn:E; cbn [negb].
  - destruct cnt as [|cnt].
    { exists true. split; [done|]. split; [|done]. intros _ j Hj.
      assert (j = i) as -> by lia. by apply Hbit. }
    rewrite u64_small by lia. destruct (IH (i + 1)) as (b & -> & Hb); [lia..|].
    exists b. split; [done|]. rewrite Hb. split; intros H j Hj.
    + destruct (Z.eq_dec j i) as [->|]; [by apply Hbit|apply H; lia].
    + apply H. lia.
  - exists false. split; [done|]. split; [done|]. intros H. by apply Hbit, H; lia.
Qed.

Lemma MayContain_Ok f key : wf f ->
  exists b, MayContain key f = Ok b /\ (b = true <-> contains f key).
Proof.
  intros Hwf. pose proof (wf_k _ Hwf) as Hk.
  destruct (may_loop_Ok f (twoHashes key) (Z.to_nat (k f)) 0 Hwf) as (b & Hb & H); [lia..|].
  exists b. split; [done|]. rewrite H, Z2Nat.id, Z.add_0_l by lia. done.
Qed.

(** ** Adding *)

(** [f'] has the bits of [f] and those in [P]. *)
Record extends (f f' : Filter) (P : Z -> Prop) : Prop := {
  ext_wf : wf f';
  ext_m : m f' = m f;
  ext_k : k f' = k f;
  ext_bit : forall p, 0 <= p < m f -> bit f' p <-> bit f p \/ P p;
}.

Lemma split_pos p q : 0 <= p -> 0 <= q -> Z.to_nat (p / 64) = Z.to_nat (q / 64) ->
  p mod 64 = q mod 64 -> p = q.
Proof.
  intros Hp Hq Hd Hm. rewrite (Z.div_mod p 64), (Z.div_mod q 64), Hm by lia. f_equal. f_equal.
  pose proof (Z.div_pos p 64). pose proof (Z.div_pos q 64). lia.
Qed.

Lemma lor_word w r : 0 <= w < 2 ^ 64 -> 0 <= r < 64 -> 0 <= Z.lor w (u64 (Z.shiftl 1 r)) < 2 ^ 64.
Proof.
  intros Hw Hr. rewrite one_bit by done. pose proof (Z.pow_pos_nonneg 2 r).
  assert (H0 : 0 <= Z.lor w (2 ^ r)) by (apply Z.lor_nonneg; lia). split; [done|].
  destruct (Z.eq_dec (Z.lor w (2 ^ r)) 0) as [->|Hne]; [done|].
  apply Z.log2_lt_pow2; [lia|]. rewrite Z.log2_lor by lia. apply Z.max_lub_lt.
  - destruct (Z.eq_dec w 0) as [->|]; [done|]. apply Z.log2_lt_pow2; lia.
  - rewrite Z.log2_pow2 by lia. lia.
Qed.

Lemma set_one_bit f p w : wf f -> 0 <= p < m f -> bits f !! Z.to_nat (p / 64) = Some w ->
  0 <= w < 2 ^ 64 ->
  extends f (set_bits (<[Z.to_nat (p / 64) := Z.lor w (u64 (Z.shiftl 1 (p mod 64)))]> (bits f)) f)
    (fun q => q = p).
Proof.
  intros Hwf Hp Hw Hr. pose proof (Z.mod_pos_bound p 64 ltac:(lia)) as Hmod.
  assert (Hlen := lookup_lt_Some _ _ _ Hw). split; [|done|done|].
  - split; [apply Hwf|apply Hwf|apply Hwf| |]; cbn [set_bits bits m].
    + unfold blen. rewrite length_insert. apply Hwf.
    + apply Forall_insert; [apply Hwf|]. by apply lor_word.
  - intros q Hq. unfold bit. cbn [set_bits bits].
    destruct (decide (Z.to_nat (q / 64) = Z.to_nat (p / 64))) as [He|Hne].
    + rewrite He, list_lookup_insert_eq, Hw by done. rewrite one_bit by done. split.
      * intros (w' & [= <-] & Hb). rewrite Z.lor_spec in Hb. apply orb_true_iff in Hb as [Hb|Hb].
        { left. by exists w. }
        right. destruct (Z.eq_dec (q mod 64) (p mod 64)) as [Hm|Hm]; [by apply split_pos; lia|].
        by rewrite Z.pow2_bits_false in Hb by lia.
      * intros [(w' & [= <-] & Hb)| ->]; (eexists; split; [reflexivity|]); rewrite Z.lor_spec.
        { by rewrite Hb. }
        by rewrite Z.pow2_bits_true, orb_true_r by lia.
    + rewrite list_lookup_insert_ne by done. split; [by left|]. intros [H| ->]; [exact H|by destruct Hne].
Qed.

Lemma extends_trans f1 f2 f3 P Q : extends f1 f2 P -> extends f2 f3 Q ->
  extends f1 f3 (fun p => P p \/ Q p).
Proof.
  intros [_ Hm Hk H] [Hwf Hm' Hk' H']. split; [done|congruence|congruence|].
  intros p Hp. rewrite H' by lia. rewrite H by done. tauto.
Qed.

Lemma extends_iff f f' P Q : extends f f' P -> (forall p, P p <-> Q p) -> extends f f' Q.
Proof. intros [H1 H2 H3 H4] HPQ. split; try done. intros p Hp. by rewrite H4, HPQ. Qed.

Lemma extends_refl f : wf f -> extends f f (fun _ => False).
Proof. intros H. split; try done. tauto. Qed.

Lemma add_loop_Ok cnt f h i : wf f -> 0 <= i -> i + Z.of_nat cnt <= 2 ^ 64 ->
  exists f', add_loop cnt i h f = (f', Ok tt) /\ n f' = n f
    /\ extends f f' (fun p => exists j, i <= j < i + Z.of_nat cnt /\ p = pos h j (m f)).
Proof.
  revert f i. induction cnt as [|cnt IH]; intros f i Hwf Hi Hn; cbn [add_loop].
  { exists f. split_and!; [done|done|]. eapply extends_iff; [by apply extends_refl|].
    intros p. split; [done|]. intros (j & Hj & _). lia. }
  rewrite (M_bind_Ok _ _ _ _ _ (eq_refl : get _ = _)).
  pose proof (wf_m _ Hwf) as Hm. pose proof (pos_range h i (m f) ltac:(lia)) as Hp.
  erewrite lift_bind_Ok.
  2:{ unfold position, rem_u64. rewrite (proj2 (Z.eqb_neq (m f) 0)) by lia. reflexivity. }
  fold (pos h i (m f)). set (p := pos h i (m f)) in *.
  destruct (word_of f p Hwf Hp) as (w & Hw & Hr & Hidx). rewrite (lift_bind_Ok _ _ _ _ Hidx).
  pose proof (set_one_bit f p w Hwf Hp Hw Hr) as He. set (f1 := set_bits _ f) in *.
  rewrite (M_bind_Ok _ _ _ f1 tt) by done.
  destruct cnt as [|cnt].
  { exists f1. split_and!; [done|done|]. eapply extends_iff; [exact He|]. intros q. split.
    - intros ->. exists i. split; [lia|done].
    - intros (j & Hj & ->). by assert (j = i) as -> by lia. }
  rewrite u64_small by lia.
  destruct (IH f1 (i + 1)) as (f' & Hadd & Hnf & He'); [apply He|lia|lia|].
  exists f'. split_and!; [done|done|]. eapply extends_iff; [exact (extends_trans _ _ _ _ _ He He')|].
  intros q. rewrite (ext_m _ _ _ He). split.
  - intros [->|(j & Hj & ->)]; [exists i|exists j]; (split; [lia|done]).
  - intros (j & Hj & ->). destruct (Z.eq_dec j i) as [->|]; [by left|right]. exists j. split; [lia|done].
Qed.

Lemma extends_contains f f' P key : extends f f' P -> wf f -> contains f key -> contains f' key.
Proof.
  intros He Hwf Hc j Hj. rewrite (ext_m _ _ _ He). rewrite (ext_k _ _ _ He) in Hj.
  apply (ext_bit _ _ _ He); [apply pos_range; apply Hwf|]. left. by apply Hc.
Qed.

Lemma Add_Ok f key : wf f ->
  exists f', Add key f = (f', Ok tt) /\ wf f' /\ m f' = m f /\ k f' = k f
    /\ n f' = u64 (n f + 1) /\ contains f' key /\ forall key', contains f key' -> contains f' key'.
Proof.
  intros Hwf. pose proof (wf_k _ Hwf) as Hk.
  destruct (add_loop_Ok (Z.to_nat (k f)) f (twoHashes key) 0 Hwf) as (f' & Hadd & Hn & He); [lia..|].
  set (f2 := set_n (u64 (n f' + 1)) f').
  assert (He2 : extends f f2 (fun p => exists j, 0 <= j < k f /\ p = pos (twoHashes key) j (m f))).
  { destruct He as [H1 H2 H3 H4]. split; [|done|done|].
    - split; try apply H1. apply u64_range.
    - intros p Hp. specialize (H4 p Hp). rewrite Z2Nat.id, Z.add_0_l in H4 by lia. exact H4. }
  exists f2. split_and!.
  - unfold Add. rewrite (M_bind_Ok _ _ _ _ _ (eq_refl : get _ = _)).
    by rewrite (M_bind_Ok _ _ _ _ _ Hadd).
  - apply He2.
  - apply He2.
  - apply He2.
  - cbn. by rewrite Hn.
  - intros j Hj. rewrite (ext_m _ _ _ He2). rewrite (ext_k _ _ _ He2) in Hj.
    apply (ext_bit _ _ _ He2); [apply pos_range, Hwf|]. right. by exists j.
  - intros key'. by apply (extends_contains _ _ _ _ He2).
Qed.

(** ** Union and reset *)

Lemma union_loop_Ok l o pre : length l = length o ->
  union_loop (blen pre) l (pre ++ o) = Ok (zip_with Z.lor l o).
Proof.
  revert o pre. induction l as [|w l IH]; intros [|v o] pre Hlen; try done. cbn [union_loop].
  unfold Prelude.index at 1. rewrite (proj2 (Z.leb_le 0 _) (blen_nonneg _)), to_nat_blen.
  rewrite list_lookup_middle by done. cbn [mbind res_bind].
  assert (blen pre + 1 = blen (pre ++ [v])) as -> by by rewrite blen_app.
  assert (pre ++ v :: o = (pre ++ [v]) ++ o) as -> by by rewrite <- app_assoc.
  rewrite IH by (cbn in Hlen; lia). done.
Qed.

Lemma lor_range a b : 0 <= a < 2 ^ 64 -> 0 <= b < 2 ^ 64 -> 0 <= Z.lor a b < 2 ^ 64.
Proof.
  intros Ha Hb. assert (H0 : 0 <= Z.lor a b) by (apply Z.lor_nonneg; lia). split; [done|].
  destruct (Z.eq_dec (Z.lor a b) 0) as [->|Hne]; [done|].
  apply Z.log2_lt_pow2; [lia|]. rewrite Z.log2_lor by lia.
  assert (Hlog : forall x, 0 <= x < 2 ^ 64 -> Z.log2 x < 64).
  { intros x Hx. destruct (Z.eq_dec x 0) as [->|]; [done|]. apply Z.log2_lt_pow2; lia. }
  apply Z.max_lub_lt; by apply Hlog.
Qed.

Lemma Union_Ok f g : wf f -> wf g -> m f = m g -> k f = k g ->
  exists f', Union g f = Ok f' /\ extends f f' (bit g) /\ n f' = u64 (n f + n g).
Proof.
  intros Hf Hg Hm Hk.
  assert (Hlen : length (bits f) = length (bits g)).
  { pose proof (wf_len _ Hf) as H1. pose proof (wf_len _ Hg) as H2. unfold blen in *.
    rewrite Hm in H1. lia. }
  pose proof (union_loop_Ok (bits f) (bits g) [] Hlen) as Hu.
  exists (MkFilter (zip_with Z.lor (bits f) (bits g)) (m f) (k f) (u64 (n f + n g))).
  split_and!; [|split; [|done|done|]|done].
  - unfold Union. rewrite Hm, Hk, !Z.eqb_refl. cbn [negb orb]. change 0 with (blen (@nil Z)).
    change (bits g) with ([] ++ bits g). by rewrite Hu.
  - split; cbn [m k n bits]; [apply Hf|apply Hf|apply u64_range| |].
    + unfold blen. rewrite length_zip_with_l by lia. apply Hf.
    + apply Forall_lookup. intros i w Hi.
      apply lookup_zip_with_Some in Hi as (a & b & -> & Ha & Hb).
      apply lor_range; [exact (Forall_lookup_1 _ _ _ _ (wf_words _ Hf) Ha)|
        exact (Forall_lookup_1 _ _ _ _ (wf_words _ Hg) Hb)].
  - intros p Hp. destruct (word_of f p Hf Hp) as (a & Ha & _).
    destruct (word_of g p Hg ltac:(lia)) as (b & Hb & _). unfold bit. cbn [bits].
    rewrite lookup_zip_with, Ha, Hb. cbn. split.
    + intros (w & [= <-] & H). rewrite Z.lor_spec in H.
      apply orb_true_iff in H as [H|H]; [left|right]; eauto.
    + intros [(w & [= <-] & H)|(w & [= <-] & H)]; (eexists; split; [done|]);
        by rewrite Z.lor_spec, H, ?orb_true_r.
Qed.

Lemma Reset_wf f : wf f -> wf (Reset f).
Proof.
  intros Hf. split; cbn [Reset m k n bits]; [apply Hf|apply Hf|done| |].
  - unfold blen. rewrite length_fmap. apply Hf.
  - apply Forall_fmap, Forall_forall. cbn. intros. lia.
Qed.

(** ** Serialised filters *)

Definition words_bytes (l : list Z) : bytes := concat (be_put 8 <$> l).

Definition filter_bytes (f : Filter) : bytes :=
  (be_put 8 (m f) ++ be_put 8 (k f) ++ be_put 8 (n f)) ++ words_bytes (bits f).

Section Emitting.
Context {St : Type} `{!Writer St} (emit : bytes -> St) (fits : bytes -> Prop) `{!WriterSpec emit fits}.

Lemma write_words_emit l out total : fits (out ++ words_bytes l) ->
  exists t, write_words l total (emit out) = (emit (out ++ words_bytes l), Ok t).
Proof.
  revert out total. induction l as [|w l IH]; intros out total; cbn [write_words].
  - intros _. exists total. by rewrite app_nil_r.
  - change (words_bytes (w :: l)) with (be_put 8 w ++ words_bytes l). rewrite app_assoc. intros Hf.
    pose proof (writer_fits_app _ _ Hf) as Hf0. rewrite (M_bind_Ok _ _ _ _ _ (writer_emit _ _ Hf0)).
    by apply IH.
Qed.

Lemma WriteTo_emit f out : fits (out ++ filter_bytes f) ->
  exists t, WriteTo f (emit out) = (emit (out ++ filter_bytes f), Ok t).
Proof.
  unfold filter_bytes. rewrite app_assoc. intros Hf.
  pose proof (writer_fits_app _ _ Hf) as Hf0. unfold WriteTo.
  rewrite (M_bind_Ok _ _ _ _ _ (writer_emit _ _ Hf0)). by apply write_words_emit.
Qed.
End Emitting.

Lemma be_get_put_u64 v : 0 <= v < 2 ^ 64 -> be_get (be_put 8 v) = v.
Proof. intros. rewrite be_get_put. by apply Z.mod_small. Qed.

Lemma read_words_bytes l post e : Forall (fun w => 0 <= w < 2 ^ 64) l ->
  read_words (length l) (MkIoReader (words_bytes l ++ post) e) = (MkIoReader post e, Ok l).
Proof.
  induction 1 as [|w l Hw _ IH]; cbn [length read_words]; [done|].
  change (words_bytes (w :: l)) with (be_put 8 w ++ words_bytes l). rewrite <- app_assoc.
  rewrite (M_bind_Ok _ _ _ _ _ (failing_as_Ok _ _ _ _ _ (ReadFull_app 8 _ _ _ ltac:(lia) (blen_be_put 8 w)))).
  rewrite (M_bind_Ok _ _ _ _ _ IH). by rewrite be_get_put_u64.
Qed.

(** The header of a filter, read back. *)
Lemma ReadFrom_header mm kk nn post e :
  0 <= mm < 2 ^ 64 -> 0 <= kk < 2 ^ 64 -> 0 <= nn < 2 ^ 64 ->
  ReadFrom (MkIoReader ((be_put 8 mm ++ be_put 8 kk ++ be_put 8 nn) ++ post) e)
  = (if (mm =? 0) || (kk =? 0) then throw (Errorf "%w: zero m or k" ErrCorrupt)
     else if Z.shiftl 1 28 <? u64 (mm + 63) / 64 then throw (Errorf "%w: absurd size" ErrCorrupt)
     else bits ← read_words (Z.to_nat (u64 (mm + 63) / 64)); mret (MkFilter bits mm kk nn))
      (MkIoReader post e).
Proof.
  intros Hm Hk Hn. unfold ReadFrom. erewrite M_bind_Ok.
  2:{ apply failing_as_Ok, ReadFull_app; [lia|by rewrite !blen_app, !blen_be_put]. }
  assert (H1 : sub 0 8 (be_put 8 mm ++ be_put 8 kk ++ be_put 8 nn) = be_put 8 mm).
  { apply (sub_app [] _ (be_put 8 kk ++ be_put 8 nn)); [done|by rewrite length_be_put]. }
  assert (H2 : sub 8 16 (be_put 8 mm ++ be_put 8 kk ++ be_put 8 nn) = be_put 8 kk).
  { apply (sub_app (be_put 8 mm) _ (be_put 8 nn)); by rewrite ?length_be_put. }
  assert (H3 : sub 16 24 (be_put 8 mm ++ be_put 8 kk ++ be_put 8 nn) = be_put 8 nn).
  { pose proof (sub_app (be_put 8 mm ++ be_put 8 kk) (be_put 8 nn) [] 16 24) as H.
    rewrite app_nil_r, <- app_assoc in H. apply H; by rewrite length_app, !length_be_put. }
  cbv zeta. by rewrite H1, H2, H3, !be_get_put_u64 by done.
Qed.

Lemma ReadFrom_WriteTo f post e : wf f -> m f <= 2 ^ 34 ->
  ReadFrom (MkIoReader (filter_bytes f ++ post) e) = (MkIoReader post e, Ok f).
Proof.
  intros Hf Hm. pose proof (wf_m _ Hf). pose proof (wf_k _ Hf). pose proof (wf_n _ Hf).
  unfold filter_bytes. rewrite <- app_assoc, ReadFrom_header by lia.
  rewrite (proj2 (Z.eqb_neq (m f) 0)), (proj2 (Z.eqb_neq (k f) 0)) by lia. cbn [orb].
  rewrite u64_small by lia. rewrite (proj2 (Z.ltb_ge _ _)).
  2:{ change (Z.shiftl 1 28) with (2 ^ 28).
      pose proof (Z.div_lt_upper_bound (m f + 63) 64 (2 ^ 28 + 1) ltac:(lia) ltac:(lia)). lia. }
  rewrite <- (wf_len _ Hf), to_nat_blen.
  rewrite (M_bind_Ok _ _ _ _ _ (read_words_bytes _ _ _ (wf_words _ Hf))). by destruct f.
Qed.

(** A bit count within 63 of [2^64] makes [m + 63] wrap around: the header is
    accepted with no words, and the first lookup is out of range. *)
Lemma ReadFrom_wraps mm kk nn post e key :
  2 ^ 64 - 63 <= mm < 2 ^ 64 -> 0 < kk < 2 ^ 64 -> 0 <= nn < 2 ^ 64 ->
  ReadFrom (MkIoReader ((be_put 8 mm ++ be_put 8 kk ++ be_put 8 nn) ++ post) e)
    = (MkIoReader post e, Ok (MkFilter [] mm kk nn))
  /\ MayContain key (MkFilter [] mm kk nn) = Panic.
Proof.
  intros Hm Hk Hn. split.
  - rewrite ReadFrom_header by lia. rewrite (proj2 (Z.eqb_neq mm 0)), (proj2 (Z.eqb_neq kk 0)) by lia.
    cbn [orb].
    assert (Hu : u64 (mm + 63) / 64 = 0).
    { unfold u64. replace (mm + 63) with (mm + 63 - 2 ^ 64 + 1 * 2 ^ 64) by lia.
      rewrite Z.mod_add, Z.mod_small by lia. apply Z.div_small. lia. }
    by rewrite Hu.
  - unfold MayContain. cbn [k]. destruct (Z.to_nat kk) as [|c] eqn:E; [lia|]. cbn [may_loop].
    unfold position, rem_u64. cbn [m bits]. rewrite (proj2 (Z.eqb_neq mm 0)) by lia.
    cbn [mbind res_bind]. unfold Prelude.index.
    pose proof (Z.mod_pos_bound (u64 ((twoHashes key).1 + u64 (0 * (twoHashes key).2))) mm ltac:(lia)).
    rewrite (proj2 (Z.leb_le 0 _)) by (apply Z.div_pos; lia). done.
Qed.

(** ** Histories of a filter *)

(** [built f S]: [f] comes from calls that added the keys [S]. *)
Inductive built : Filter -> gset bytes -> Prop :=
  | built_new {Float} `{!Sizing Float} expectedN (p : Float) f :
      New expectedN p = Ok f -> BitSize f < 2 ^ 64 - 63 -> built f ∅
  | built_add f f' S key : built f S -> Add key f = (f', Ok tt) -> built f' ({[key]} ∪ S)
  | built_union f g f' S T : built f S -> built g T -> Union g f = Ok f' -> built f' (S ∪ T)
  | built_reset f S : built f S -> built (Reset f) ∅
  | built_read f S r r' f' post :
      built f S -> BitSize f <= 2 ^ 34 -> rem r = filter_bytes f ++ post ->
      ReadFrom r = (r', Ok f') -> built f' S.

Lemma make_words_Ok len b : make_words len = Ok b -> 0 <= len -> blen b = len /\ Forall (eq 0) b.
Proof.
  unfold make_words. destruct (2 ^ 45 <? len); [done|]. intros [= <-] Hl. split.
  - unfold blen. rewrite repeat_length. lia.
  - apply Forall_forall. intros w Hw. symmetry. by eapply repeat_spec, list_elem_of_In.
Qed.

Lemma New_wf {Float} `{!Sizing Float} expectedN (p : Float) f :
  New expectedN p = Ok f -> m f < 2 ^ 64 - 63 -> wf f.
Proof.
  unfold New. cbv zeta. set (mm := optimalM _ _). set (kk := optimalK mm _).
  intros (b & Hb & [= <-])%res_bind_Ok Hm. cbn [m] in Hm.
  assert (Hm0 : 0 < mm < 2 ^ 64).
  { unfold mm, optimalM. cbv zeta. destruct (Z.eqb_spec (u64 (ceil_m (if expectedN <=? 0 then 1 else expectedN)
      (if negb (rate_ok p) then rate_default else p))) 0) as [_|Hne]; [lia|].
    pose proof (u64_range (ceil_m (if expectedN <=? 0 then 1 else expectedN)
      (if negb (rate_ok p) then rate_default else p))). lia. }
  assert (Hk0 : 0 < kk < 2 ^ 64).
  { unfold kk, optimalK. cbv zeta. destruct (Z.eqb_spec (u64 (round_k mm (if expectedN <=? 0 then 1 else expectedN))) 0) as [_|Hne];
      [lia|]. pose proof (u64_range (round_k mm (if expectedN <=? 0 then 1 else expectedN))). lia. }
  rewrite u64_small in Hb by lia.
  apply make_words_Ok in Hb as [Hlen Hz]; [|apply Z.div_pos; lia].
  split; cbn [m k n bits]; [lia|lia|lia|done|].
  eapply Forall_impl; [exact Hz|]. cbn. intros; lia.
Qed.

(** What every history keeps. *)
Lemma built_contains f S : built f S -> wf f /\ forall key, key ∈ S -> contains f key.
Proof.
  induction 1 as [Float HS N p f Hnew Hm|f f' S key _ [Hwf IH] Hadd
    |f g f' S T _ [Hf IHf] _ [Hg IHg] Hu|f S _ [Hwf _]|f S r r' f' post _ [Hwf IH] Hm Hr Hread].
  - split; [by eapply New_wf|]. by intros key ?%elem_of_empty.
  - destruct (Add_Ok f key Hwf) as (f1 & Hadd' & Hwf' & _ & _ & _ & Hkey & Hold).
    rewrite Hadd in Hadd'. injection Hadd' as ->. split; [done|].
    intros key'. rewrite elem_of_union, elem_of_singleton. intros [->|H]; [done|]. by apply Hold, IH.
  - unfold Union in Hu. destruct (Z.eqb_spec (m f) (m g)) as [Em|]; [|done].
    destruct (Z.eqb_spec (k f) (k g)) as [Ek|]; [|done].
    destruct (Union_Ok f g Hf Hg Em Ek) as (f1 & Hu' & He & _).
    unfold Union in Hu'. rewrite (proj2 (Z.eqb_eq _ _) Em), (proj2 (Z.eqb_eq _ _) Ek) in Hu'.
    rewrite Hu in Hu'. injection Hu' as ->. split; [apply He|].
    intros key. rewrite elem_of_union. intros [H|H].
    + by eapply extends_contains, IHf.
    + intros j Hj. rewrite (ext_m _ _ _ He). rewrite (ext_k _ _ _ He) in Hj.
      apply (ext_bit _ _ _ He); [apply pos_range, Hf|]. right.
      rewrite Em. apply (IHg key H). by rewrite <- Ek.
  - split; [by apply Reset_wf|]. by intros key ?%elem_of_empty.
  - destruct r as [l e]. cbn [rem] in Hr. subst l.
    rewrite ReadFrom_WriteTo in Hread by done. by injection Hread as _ <-.
Qed.
End Bloom.
