(* ===== verification/Popcount.v ===== *)
(** * Counting the set bits of a word: [popcount] of internal/bloom/bloom.go

    The bit-parallel routine is shown to count the set bits: each of its steps
    acts on the bytes of the word independently, and on one byte it is checked
    by enumeration. *)
From S2P Require Import Prelude Crc32 Bloom.
Import Crc32 Bloom.

Module Popcount.

(** The number of set bits among the lowest [c]. *)
Fixpoint weight (c : nat) (x : Z) : Z :=
  match c with
  | O => 0
  | S c' => Z.b2z (Z.testbit x (Z.of_nat c')) + weight c' x
  end.

(** A number from its base-256 digits, least significant first. *)
Definition le (l : list Z) : Z := foldr (fun b y => b + 256 * y) 0 l.

Definition digits (l : list Z) : Prop := Forall (fun b => 0 <= b < 256) l.

Fixpoint split (c : nat) (x : Z) : list Z :=
  match c with
  | O => []
  | S c' => x mod 256 :: split c' (x / 256)
  end.

Lemma le_split c x : 0 <= x < 256 ^ Z.of_nat c -> le (split c x) = x /\ digits (split c x).
Proof.
  revert x. induction c as [|c IH]; intros x Hx; cbn [split le foldr].
  { split; [|constructor]. change (256 ^ Z.of_nat 0) with 1 in Hx. lia. }
  pose proof (Z.div_mod x 256 ltac:(lia)). pose proof (Z.mod_pos_bound x 256 ltac:(lia)).
  rewrite Nat2Z.inj_succ, Z.pow_succ_r in Hx by lia.
  destruct (IH (x / 256)) as [H1 H2].
  { split; [apply Z.div_pos; lia|apply Z.div_lt_upper_bound; lia]. }
  fold (le (split c (x / 256))). rewrite H1. split; [lia|]. by constructor.
Qed.

Lemma le_nonneg l : digits l -> 0 <= le l < 256 ^ blen l.
Proof.
  induction 1 as [|b l Hb _ IH]; [done|]. cbn [le foldr]. fold (le l). rewrite blen_cons.
  rewrite Z.pow_add_r by (pose proof (blen_nonneg l); lia). lia.
Qed.

Lemma testbit_digit b y i : 0 <= b < 256 -> 0 <= i ->
  Z.testbit (b + 256 * y) i = if i <? 8 then Z.testbit b i else Z.testbit y (i - 8).
Proof.
  intros Hb Hi. destruct (Z.ltb_spec i 8) as [Hlt|Hge].
  - rewrite <- (Z.mod_pow2_bits_low (b + 256 * y) 8) by done. change (2 ^ 8) with 256.
    rewrite (Z.mul_comm 256 y), Z.mod_add, Z.mod_small by lia. done.
  - replace i with (i - 8 + 8) at 1 by lia. rewrite <- Z.div_pow2_bits by lia.
    change (2 ^ 8) with 256. rewrite (Z.mul_comm 256 y), Z.div_add, Z.div_small by lia. done.
Qed.

Lemma land_digit b y s c M : 0 <= b < 256 -> 0 <= s < 8 -> 0 <= c < 2 ^ (8 - s) ->
  Z.land (Z.shiftr (b + 256 * y) s) (c + 256 * M)
  = Z.land (Z.shiftr b s) c + 256 * Z.land (Z.shiftr y s) M.
Proof.
  intros Hb Hs Hc.
  assert (Hc8 : 0 <= c < 256).
  { split; [lia|]. apply Z.lt_le_trans with (2 ^ (8 - s)); [lia|]. change 256 with (2 ^ 8).
    apply Z.pow_le_mono_r; lia. }
  assert (Hl : 0 <= Z.land (Z.shiftr b s) c < 256).
  { split; [apply Z.land_nonneg; lia|].
    pose proof (proj2 (Z.shiftr_nonneg b s) (proj1 Hb)) as Hb0.
    destruct (Z.eq_dec (Z.land (Z.shiftr b s) c) 0) as [->|Hne]; [lia|].
    apply (Z.log2_lt_cancel _ 256). change (Z.log2 256) with 8.
    pose proof (Z.log2_land (Z.shiftr b s) c Hb0 ltac:(lia)) as Hlog.
    pose proof (Z.log2_le_mono c 255 ltac:(lia)) as Hc2. change (Z.log2 255) with 7 in Hc2. lia. }
  apply Z.bits_inj'. intros i Hi. rewrite testbit_digit by done.
  rewrite Z.land_spec, Z.shiftr_spec, !testbit_digit by lia.
  destruct (Z.ltb_spec i 8) as [Hlt|Hge].
  - rewrite Z.land_spec, Z.shiftr_spec by lia. destruct (Z.ltb_spec (i + s) 8); [done|].
    rewrite (Crc32.testbit_high c (8 - s) i) by lia. by rewrite !andb_false_r.
  - destruct (Z.ltb_spec (i + s) 8); [lia|]. rewrite Z.land_spec, Z.shiftr_spec by lia.
    by replace (i - 8 + s) with (i + s - 8) by lia.
Qed.

(** The three steps of [popcount] on one byte. *)
Definition f1 (b : Z) : Z := b - Z.land (Z.shiftr b 1) 0x55.
Definition f2 (b : Z) : Z := Z.land b 0x33 + Z.land (Z.shiftr b 2) 0x33.
Definition f3 (b : Z) : Z := Z.land (b + Z.shiftr b 4) 0x0f.
(** The constant whose bytes are all [c]. *)
Definition mask (c : Z) (t : nat) : Z := le (repeat c t).

Lemma bytes_all (P : Z -> bool) b : forallb P (seqZ 0 256) = true -> 0 <= b < 256 -> P b = true.
Proof. rewrite forallb_forall. intros H Hb. apply H, list_elem_of_In, elem_of_seqZ. lia. Qed.
Lemma le_cons b l : le (b :: l) = b + 256 * le l.
Proof. done. Qed.
Lemma le_fmap_cons (f : Z -> Z) b l : le (f <$> b :: l) = f b + 256 * le (f <$> l).
Proof. done. Qed.
Lemma mask_S c t : mask c (S t) = c + 256 * mask c t.
Proof. done. Qed.

Lemma land_mask b y c M : 0 <= b < 256 -> 0 <= c < 256 ->
  Z.land (b + 256 * y) (c + 256 * M) = Z.land b c + 256 * Z.land y M.
Proof.
  intros Hb Hc. pose proof (land_digit b y 0 c M Hb ltac:(lia) ltac:(done)) as H.
  by rewrite !Z.shiftr_0_r in H.
Qed.

Lemma step1 l : digits l ->
  le l - Z.land (Z.shiftr (le l) 1) (mask 0x55 (length l)) = le (f1 <$> l).
Proof.
  induction 1 as [|b l Hb _ IH]; [done|]. cbn [length].
  rewrite le_fmap_cons, mask_S, le_cons, land_digit, <- IH by (done || lia). unfold f1. lia.
Qed.

Lemma step2 l : digits l ->
  Z.land (le l) (mask 0x33 (length l)) + Z.land (Z.shiftr (le l) 2) (mask 0x33 (length l))
  = le (f2 <$> l).
Proof.
  induction 1 as [|b l Hb _ IH]; [done|]. cbn [length].
  rewrite le_fmap_cons, mask_S, le_cons, land_digit, land_mask, <- IH by (done || lia).
  unfold f2. lia.
Qed.

(** Both nibbles hold a count of at most four. *)
Definition nib (b : Z) : Prop := 0 <= b < 256 /\ b mod 16 <= 4 /\ b / 16 <= 4.
Lemma le_nib_mod l : Forall nib l -> 0 <= le l mod 16 <= 4.
Proof.
  intros [|b l' (Hb & Hb1 & Hb2) _]; [done|]. pose proof (Z.mod_pos_bound (le (b :: l')) 16).
  split; [lia|]. rewrite le_cons. replace (b + 256 * le l') with (b + (16 * le l') * 16) by lia.
  rewrite Z.mod_add by lia. done.
Qed.

Lemma step3 l : Forall nib l ->
  Z.land (le l + Z.shiftr (le l) 4) (mask 0x0f (length l)) = le (f3 <$> l).
Proof.
  induction 1 as [|b l (Hb & Hb1 & Hb2) Hl IH]; [done|]. cbn [length].
  rewrite le_fmap_cons, mask_S, le_cons. pose proof (le_nib_mod l Hl) as Hm.
  unfold f3 at 1. rewrite Z.shiftr_div_pow2 in * by lia. rewrite Z.shiftr_div_pow2 by lia.
  change (2 ^ 4) with 16 in *.
  pose proof (Z.div_mod b 16 ltac:(lia)). pose proof (Z.div_pos b 16 ltac:(lia) ltac:(lia)).
  pose proof (Z.div_mod (le l) 16 ltac:(lia)) as Hdl.
  assert (Hd : (b + 256 * le l) / 16 = b / 16 + 16 * le l).
  { replace (b + 256 * le l) with (b + (16 * le l) * 16) by lia. rewrite Z.div_add by lia. lia. }
  rewrite Hd.
  replace (b + 256 * le l + (b / 16 + 16 * le l))
    with ((b + b / 16 + 16 * (le l mod 16)) + 256 * (le l + le l / 16)) by lia.
  rewrite land_mask, IH by lia. f_equal.
  change 15 with (Z.ones 4). rewrite !Z.land_ones by lia. change (2 ^ 4) with 16.
  rewrite (Z.mul_comm 16 (le l mod 16)), Z.mod_add by lia. done.
Qed.

Lemma le_nib_bound l : Forall nib l -> 0 <= le l <= le (repeat 68 (length l)).
Proof.
  induction 1 as [|b l (Hb & Hb1 & Hb2) _ IH]; [done|]. cbn [length repeat]. rewrite !le_cons.
  pose proof (Z.div_mod b 16 ltac:(lia)). lia.
Qed.

Lemma byte_steps b : 0 <= b < 256 ->
  0 <= f1 b < 256 /\ nib (f2 (f1 b)) /\ f3 (f2 (f1 b)) = weight 8 b /\ 0 <= weight 8 b <= 8.
Proof.
  intros Hb.
  pose proof (bytes_all (fun b => (0 <=? f1 b) && (f1 b <? 256) && (0 <=? f2 (f1 b)) && (f2 (f1 b) <? 256)
    && (f2 (f1 b) mod 16 <=? 4) && (f2 (f1 b) / 16 <=? 4) && (f3 (f2 (f1 b)) =? weight 8 b)
    && (0 <=? weight 8 b) && (weight 8 b <=? 8)) b ltac:(by vm_compute) Hb) as H.
  cbn beta in H. unfold nib. lia.
Qed.

Lemma weight_S c x : weight (S c) x = Z.b2z (Z.testbit x (Z.of_nat c)) + weight c x.
Proof. done. Qed.

Lemma weight_digit c b y : 0 <= b < 256 -> weight (8 + c) (b + 256 * y) = weight 8 b + weight c y.
Proof.
  intros Hb. induction c as [|c IH].
  - change (weight 0 y) with 0. rewrite Nat.add_0_r, Z.add_0_r, !weight_S, !testbit_digit by lia. done.
  - replace (8 + S c)%nat with (S (8 + c)) by lia. rewrite (weight_S (8 + c)), (weight_S c), IH.
    rewrite testbit_digit by lia. rewrite (proj2 (Z.ltb_ge _ _)) by lia.
    replace (Z.of_nat (8 + c) - 8) with (Z.of_nat c) by lia. lia.
Qed.

Definition sum (l : list Z) : Z := foldr Z.add 0 l.

Lemma weight_le l : digits l -> weight (8 * length l) (le l) = sum (weight 8 <$> l).
Proof.
  induction 1 as [|b l Hb _ IH]; [done|]. cbn [length le foldr fmap list_fmap sum].
  fold (le l). rewrite Nat.mul_succ_r, Nat.add_comm, weight_digit, IH by done. done.
Qed.

(** The multiplication adds the eight bytes up in the top one. *)
Lemma multiply l : length l = 8%nat -> Forall (fun c => 0 <= c <= 8) l ->
  Z.shiftr (u64 (le l * 0x0101010101010101)) 56 = sum l.
Proof.
  intros Hlen Hl. destruct l as [|c0 [|c1 [|c2 [|c3 [|c4 [|c5 [|c6 [|c7 [|]]]]]]]]]; try done.
  rewrite !Forall_cons in Hl. destruct Hl as (?&?&?&?&?&?&?&?&_).
  cbn [le foldr sum]. rewrite Z.shiftr_div_pow2 by lia. unfold u64.
  set (d0 := c0). set (d1 := d0 + c1). set (d2 := d1 + c2). set (d3 := d2 + c3). set (d4 := d3 + c4).
  set (d5 := d4 + c5). set (d6 := d5 + c6). set (d7 := d6 + c7).
  set (lo := le [d0; d1; d2; d3; d4; d5; d6]).
  set (hi := le [d7 - d0; d7 - d1; d7 - d2; d7 - d3; d7 - d4; d7 - d5; d7 - d6]).
  assert (Hlo : 0 <= lo < 2 ^ 56) by (unfold lo; cbn [le foldr]; lia).
  set (x := _ * 72340172838076673).
  assert (Hx : x = (d7 * 2 ^ 56 + lo) + hi * 2 ^ 64) by (unfold x, lo, hi; cbn [le foldr]; lia).
  rewrite Hx, Z.mod_add by lia. rewrite Z.mod_small by lia.
  rewrite Z.add_comm, Z.div_add, Z.div_small by lia. lia.
Qed.

Lemma popcount_weight x : 0 <= x < 2 ^ 64 -> popcount x = weight 64 x.
Proof.
  intros Hx. destruct (le_split 8 x Hx) as [Hle Hd]. set (l := split 8 x) in *.
  assert (Hlen : length l = 8%nat) by done. rewrite <- Hle. clearbody l. clear Hx Hle x.
  pose proof (weight_le l Hd) as Hw. rewrite Hlen in Hw. change (8 * 8)%nat with 64%nat in Hw.
  rewrite Hw. clear Hw.
  assert (H1 : digits (f1 <$> l)).
  { apply Forall_fmap. eapply Forall_impl; [exact Hd|]. intros b Hb. apply (byte_steps b Hb). }
  assert (H2 : Forall nib (f2 <$> (f1 <$> l))).
  { apply Forall_fmap, Forall_fmap. eapply Forall_impl; [exact Hd|]. intros b Hb. apply (byte_steps b Hb). }
  assert (H3 : f3 <$> (f2 <$> (f1 <$> l)) = weight 8 <$> l).
  { rewrite <- !list_fmap_compose. apply list_fmap_ext. intros i b Hi. apply (byte_steps b).
    exact (Forall_lookup_1 _ _ _ _ Hd Hi). }
  assert (Hr : forall l', digits l' -> length l' = 8%nat -> u64 (le l') = le l').
  { intros l' Hd' Hl'. apply u64_small. pose proof (le_nonneg l' Hd') as H.
    unfold blen in H. by rewrite Hl' in H. }
  assert (Hn : forall l', Forall nib l' -> digits l').
  { intros l' H. eapply Forall_impl; [exact H|]. by intros b (? & _). }
  pose proof (step1 l Hd) as S1. pose proof (step2 _ H1) as S2. pose proof (step3 _ H2) as S3.
  rewrite Hlen in S1. rewrite length_fmap, Hlen in S2. rewrite !length_fmap, Hlen in S3.
  unfold popcount. cbv zeta.
  change 0x5555555555555555 with (mask 0x55 8). change 0x3333333333333333 with (mask 0x33 8).
  change 0x0f0f0f0f0f0f0f0f with (mask 0x0f 8).
  rewrite S1, (Hr _ H1), S2, (Hr _ (Hn _ H2)) by (by rewrite !length_fmap).
  assert (Hs : u64 (le (f2 <$> (f1 <$> l)) + Z.shiftr (le (f2 <$> (f1 <$> l))) 4)
    = le (f2 <$> (f1 <$> l)) + Z.shiftr (le (f2 <$> (f1 <$> l))) 4).
  { apply u64_small. pose proof (le_nib_bound _ H2) as H. rewrite !length_fmap, Hlen in H.
    change (le (repeat 68 8)) with 4919131752989213764 in H.
    rewrite Z.shiftr_div_pow2 by lia. pose proof (Z.div_mod (le (f2 <$> (f1 <$> l))) (2 ^ 4) ltac:(lia)).
    pose proof (Z.mod_pos_bound (le (f2 <$> (f1 <$> l))) (2 ^ 4) ltac:(lia)). lia. }
  rewrite Hs, S3, H3. apply multiply; [by rewrite length_fmap|].
  apply Forall_fmap. eapply Forall_impl; [exact Hd|]. intros b Hb. apply (byte_steps b Hb).
Qed.

(** [FillRatio] counts the set bits of the array. *)
Lemma set_count_sum f : Forall (fun w => 0 <= w < 2 ^ 64) (bits f) -> blen (bits f) < 2 ^ 57 ->
  set_count f = sum (weight 64 <$> bits f).
Proof.
  intros Hw Hlen.
  assert (Hb : forall w, 0 <= w < 2 ^ 64 -> 0 <= weight 64 w <= 64).
  { intros w _. assert (H : forall c, 0 <= weight c w <= Z.of_nat c); [|apply (H 64%nat)].
    induction c as [|c IH]; [done|]. rewrite weight_S. destruct (Z.testbit w (Z.of_nat c)); cbn; lia. }
  assert (Hgen : forall l a, Forall (fun w => 0 <= w < 2 ^ 64) l -> 0 <= a -> a + 64 * blen l < 2 ^ 64 ->
    foldl (fun set w => u64 (set + popcount w)) a l = a + sum (weight 64 <$> l)).
  { induction l as [|w l IH]; intros a Hl Ha Hn; [cbn; lia|]. apply Forall_cons in Hl as [Hw0 Hl].
    cbn [foldl]. rewrite fmap_cons. cbn [sum foldr]. fold (sum (weight 64 <$> l)).
    rewrite popcount_weight by done. specialize (Hb w Hw0). rewrite blen_cons in Hn.
    pose proof (blen_nonneg l). rewrite u64_small by lia. rewrite IH by (done || lia). lia. }
  unfold set_count. rewrite Hgen by (done || lia). lia.
Qed.
End Popcount.
