(* ===== verification/BloomFloat.v ===== *)
(** * Bloom filter: the floating-point part of internal/bloom/bloom.go

    The sizing formulas and the two estimated ratios, in binary64 arithmetic.
    The logarithm, exponential and power of [math] are parameters. *)
From S2P Require Import Prelude Float64 Bloom Popcount.
Import Float64.

Module BloomFloat.

Section Math.
Context (Log Exp : float64 -> float64) (Pow : float64 -> float64 -> float64).
Context (other : float64 -> Z).  (* uint64 of a float out of range *)

(** The check of [New] on the rate: a NaN passes it. *)
Definition rate_in_range (p : float64) : bool := negb (SFleb p zero || SFleb one p).

(** [uint64(math.Ceil(-float64(n) * math.Log(p) / (math.Ln2 * math.Ln2)))]. *)
Definition bits_for (n : Z) (p : float64) : Z :=
  let fm := div (mul (SFopp (of_int n)) (Log p)) Ln2_squared in
  to_uint64 other (Ceil fm).

(** [uint64(math.Round((float64(m) / float64(n)) * math.Ln2))]. *)
Definition hashes_for (m n : Z) : Z :=
  let fk := mul (div (of_int m) (of_int n)) Ln2 in
  to_uint64 other (Round fk).

Definition go_sizing : Bloom.Sizing float64 := {|
  Bloom.rate_ok := rate_in_range;
  Bloom.rate_default := f_001;
  Bloom.ceil_m := bits_for;
  Bloom.round_k := hashes_for;
|}.

Definition New (expectedN : Z) (fpRate : float64) : res Bloom.Filter :=
  @Bloom.New float64 go_sizing expectedN fpRate.

Definition EstimateFPRate (f : Bloom.Filter) : float64 :=
  let n := Bloom.n f in
  let exp := Exp (div (mul (SFopp (of_int (Bloom.k f))) (of_int n)) (of_int (Bloom.m f))) in
  Pow (sub one exp) (of_int (Bloom.k f)).

Definition FillRatio (f : Bloom.Filter) : float64 :=
  div (of_int (Bloom.set_count f)) (of_int (Bloom.m f)).

(** Neither comparison holds of a NaN, so [New] sizes a filter with it. *)
Lemma rate_in_range_nan : rate_in_range S754_nan = true.
Proof. done. Qed.

(** With the logarithm that the machine computes, a thousand keys at one in a
    hundred take 9586 bits and seven hashes. *)
Example New_1000 :
  Log f_001 = S754_finite true 5184960683398421 (-50) ->
  match New 1000 f_001 with
  | Ok f => Bloom.m f = 9586 /\ Bloom.k f = 7 /\ blen (Bloom.bits f) = 150
  | _ => False
  end.
Proof.
  intros H. assert (Hm : bits_for 1000 f_001 = 9586) by (unfold bits_for; rewrite H; by vm_compute).
  unfold New, Bloom.New. cbn [go_sizing Bloom.rate_ok Bloom.rate_default]. change (1000 <=? 0) with false.
  assert (Hr : rate_in_range f_001 = true) by by vm_compute. rewrite Hr. cbn [negb].
  unfold Bloom.optimalM, Bloom.optimalK. cbn [Bloom.ceil_m Bloom.round_k go_sizing]. rewrite Hm.
  by vm_compute.
Qed.
End Math.
End BloomFloat.
