(* ===== verification/Keydir.v ===== *)
(** * Key directory snapshots: internal/keydir/keydir.go

    A snapshot is a list of records with a map from keys to positions in it.
    The clock is an argument.  The binary format is translated over
    [io.Writer] and [io.Reader], and [SaveToFile]/[LoadFromFile] over the file
    system. *)
From S2P Require Import Prelude FileSys Index.

Module Keydir.

Definition ErrFormat : error := errors_New "keydir: invalid format".

Definition magic : bytes := bs "KDIR".
Definition version : Z := 1.

Record Record_ := MkRecord {
  Key : bytes;
  FileID : Z;
  Offset : Z;
  Size : Z;
  Tombstone : bool;
  Timestamp : Z;
}.

Record Snapshot := MkSnapshot {
  records : list Record_;
  byKey : gmap bytes nat;   (* key -> index in records *)
  createdAt : Z;
}.

(** [for i, r := range recs { byKey[r.Key] = i }], from index [n]. *)
Fixpoint index_keys (n : nat) (recs : list Record_) (byKey : gmap bytes nat) : gmap bytes nat :=
  match recs with
  | [] => byKey
  | r :: recs' => index_keys (S n) recs' (<[Key r := n]> byKey)
  end.

Definition NewSnapshot (now : Z) (recs : list Record_) : Snapshot :=
  MkSnapshot recs (index_keys 0 recs ∅) now.

Definition Len (s : Snapshot) : Z := Z.of_nat (base.size (byKey s)).

Definition record_at (s : Snapshot) (idx : nat) : res Record_ :=
  Prelude.index (Z.of_nat idx) (records s).

(** [None] for a key that is not found. *)
Definition Get (key : bytes) (s : Snapshot) : res (option Record_) :=
  match byKey s !! key with
  | None => mret None
  | Some idx => r ← record_at s idx; mret (Some r)
  end.

Section WithRange.
Context `{!GoRange bytes}.

Fixpoint live_loop (s : Snapshot) (l : list (bytes * nat)) : res (list bytes) :=
  match l with
  | [] => mret []
  | (k, idx) :: l' =>
      r ← record_at s idx;
      out ← live_loop s l';
      mret (if Tombstone r then out else k :: out)
  end.

Fixpoint count_loop (s : Snapshot) (l : list (bytes * nat)) (count : Z) : res Z :=
  match l with
  | [] => mret count
  | (_, idx) :: l' =>
      r ← record_at s idx;
      count_loop s l' (if Tombstone r then count else count + 1)
  end.

Definition LiveCount (s : Snapshot) : res Z := count_loop s (go_range (byKey s)) 0.

Definition Keys (s : Snapshot) : list bytes := sort_Strings (go_range (byKey s)).*1.

Definition LiveKeys (s : Snapshot) : res (list bytes) :=
  out ← live_loop s (go_range (byKey s)); mret (sort_Strings out).
End WithRange.

Definition Records (s : Snapshot) : list Record_ := records s.

Definition CreatedAt (s : Snapshot) : Z := createdAt s.

Definition FileIDs `{!GoRange Z} (s : Snapshot) : list Z :=
  let seen := foldl (fun seen r => <[FileID r := tt]> seen) (∅ : gmap Z unit) (records s) in
  sort_ints (go_range seen).*1.

(** ** Binary format *)

Definition recordFixed : Z := 37.

Section Writing.
Context {St : Type} `{!Writer St}.

Definition record_bytes (r : Record_) : bytes :=
  be_put 4 (u32 (blen (Key r))) ++ Key r ++ be_put 8 (u64 (FileID r)) ++ be_put 8 (u64 (Offset r))
  ++ be_put 8 (u64 (Size r)) ++ [flag_byte (Tombstone r)] ++ be_put 8 (u64 (Timestamp r)).

Definition writeRecord (r : Record_) : M St Z := w_Write (record_bytes r).

Fixpoint write_records (l : list Record_) (total : Z) : M St Z :=
  match l with
  | [] => mret total
  | r :: l' => nn ← writeRecord r; write_records l' (i64 (total + nn))
  end.

Definition header_bytes (count : Z) : bytes := magic ++ be_put 2 version ++ be_put 4 (u32 count).

(** The byte count returned next to an error is not modelled. *)
Definition WriteTo (s : Snapshot) : M St Z :=
  total ← w_Write (header_bytes (blen (records s)));
  write_records (records s) total.
End Writing.

Definition readRecord : M ioReader Record_ :=
  kl ← failing_as (Errorf "%w: keylen: %v" ErrFormat) (ReadFull 4);
  let keyLen := be_get kl in
  if Z.shiftl 1 24 <? keyLen then throw (Errorf "%w: absurd key length %d" ErrFormat)
  else
    buf ← failing_as (Errorf "%w: record body: %v" ErrFormat) (ReadFull (keyLen + 8 + 8 + 8 + 1 + 8));
    key ← lift_res (slice 0 keyLen buf);
    let off := keyLen in
    fileID ← lift_res (slice off (off + 8) buf);
    let off := off + 8 in
    offset ← lift_res (slice off (off + 8) buf);
    let off := off + 8 in
    size ← lift_res (slice off (off + 8) buf);
    let off := off + 8 in
    tomb ← lift_res (Prelude.index off buf);
    let off := off + 1 in
    ts ← lift_res (slice off (off + 8) buf);
    mret (MkRecord key (i64 (be_get fileID)) (i64 (be_get offset)) (i64 (be_get size))
            (bool_decide (tomb = Byte.x01)) (i64 (be_get ts))).

Fixpoint read_records (count : nat) : M ioReader (list Record_) :=
  match count with
  | O => mret []
  | S count' => rec ← readRecord; recs ← read_records count'; mret (rec :: recs)
  end.

Definition ReadFrom (now : Z) : M ioReader Snapshot :=
  hdr ← failing_as (Errorf "%w: header: %v" ErrFormat) (ReadFull 10);
  if negb (bool_decide (sub 0 4 hdr = magic)) then throw (Errorf "%w: bad magic" ErrFormat)
  else
    let ver := be_get (sub 4 6 hdr) in
    if negb (ver =? version) then throw (Errorf "%w: unsupported version %d" ErrFormat)
    else
      let count := be_get (sub 6 10 hdr) in
      if Z.shiftl 1 28 <? count then throw (Errorf "%w: absurd record count %d" ErrFormat)
      else
        recs ← read_records (Z.to_nat count);
        mret (NewSnapshot now recs).

(** ** Files *)

Definition fs_writer (ino : nat) : Writer FileSys.FS := fun b => FileSys.Write ino b.

(** [if err := m; err != nil { _ = f.Close(); return err }]. *)
Definition closing_on_error {A} (ino : nat) (m : M FileSys.FS A) : M FileSys.FS A :=
  r ← attempt m;
  match r with
  | inl err => ignore (FileSys.Close ino) ≫= fun _ => throw err
  | inr a => mret a
  end.

Definition SaveToFile (path : bytes * bytes) (s : Snapshot) : M FileSys.FS unit :=
  ino ← FileSys.Create path.1 path.2;
  closing_on_error ino (@WriteTo FileSys.FS (fs_writer ino) s) ≫= fun _ =>
  closing_on_error ino (FileSys.Sync ino) ≫= fun _ =>
  FileSys.Close ino.

Definition LoadFromFile (now : Z) (path : bytes * bytes) : M FileSys.FS Snapshot :=
  ino ← FileSys.Open path.1 path.2;
  rd ← FileSys.stream ino;
  let res := (ReadFrom now rd).2 in
  ignore (FileSys.Close ino) ≫= fun _ => lift_res res.

(** ** Lookups *)

Lemma index_keys_notin recs n m k : k ∉ Key <$> recs -> index_keys n recs m !! k = m !! k.
Proof.
  revert n m. induction recs as [|r recs IH]; intros n m Hk; [done|].
  rewrite fmap_cons in Hk. apply not_elem_of_cons in Hk as [Hne Hk]. cbn [index_keys].
  rewrite IH by done. by rewrite lookup_insert_ne.
Qed.

(** The record a key stands for: the last one in the list. *)
Definition last_record (k : bytes) (recs : list Record_) : option Record_ :=
  list.last (filter (fun r => Key r = k) recs).

Lemma index_keys_last recs n m k :
  match last_record k recs with
  | Some r => exists j, index_keys n recs m !! k = Some (n + j)%nat /\ recs !! j = Some r
  | None => index_keys n recs m !! k = m !! k
  end.
Proof.
  unfold last_record. revert n m. induction recs as [|r recs IH]; intros n m; [done|].
  cbn [index_keys]. specialize (IH (S n) (<[Key r := n]> m)). rewrite filter_cons.
  destruct (decide (Key r = k)) as [Hk|Hk].
  - rewrite last_cons. destruct (list.last (filter (fun r => Key r = k) recs)) as [r'|].
    + destruct IH as (j & Hj & Hr). exists (S j). split; [|done]. by rewrite Hj, Nat.add_succ_r.
    + exists 0%nat. rewrite IH, Hk, lookup_insert_eq, Nat.add_0_r. done.
  - destruct (list.last (filter (fun r => Key r = k) recs)) as [r'|].
    + destruct IH as (j & Hj & Hr). exists (S j). split; [|done]. by rewrite Hj, Nat.add_succ_r.
    + by rewrite IH, lookup_insert_ne.
Qed.

Lemma record_at_Some s i r : records s !! i = Some r -> record_at s i = Ok r.
Proof.
  intros H. unfold record_at, Prelude.index. rewrite (proj2 (Z.leb_le 0 _)) by lia.
  by rewrite Nat2Z.id, H.
Qed.

Lemma Get_last now recs k : Get k (NewSnapshot now recs) = Ok (last_record k recs).
Proof.
  unfold Get, NewSnapshot. cbn [byKey]. pose proof (index_keys_last recs 0 ∅ k) as H.
  destruct (last_record k recs) as [r|].
  - destruct H as (j & -> & Hr). cbn [Nat.add]. by rewrite (record_at_Some _ j r).
  - by rewrite H, (lookup_empty (M:=gmap bytes)).
Qed.

Lemma byKey_dom now recs k : is_Some (byKey (NewSnapshot now recs) !! k) <-> k ∈ Key <$> recs.
Proof.
  cbn [NewSnapshot byKey]. split.
  - intros [i Hi]. destruct (decide (k ∈ Key <$> recs)) as [|Hk]; [done|].
    by rewrite index_keys_notin, (lookup_empty (M:=gmap bytes)) in Hi.
  - intros (r & -> & Hr)%list_elem_of_fmap. pose proof (index_keys_last recs 0 ∅ (Key r)) as H.
    destruct (last_record (Key r) recs) as [r'|] eqn:E; [destruct H as (j & -> & _); eauto|].
    unfold last_record in E. apply last_None in E. exfalso.
    assert (Hin : r ∈ filter (fun r' => Key r' = Key r) recs) by (by apply list_elem_of_filter).
    rewrite E in Hin. by apply elem_of_nil in Hin.
Qed.

(** A key whose last record is not a tombstone. *)
Definition live (recs : list Record_) (k : bytes) : bool :=
  match last_record k recs with
  | Some r => negb (Tombstone r)
  | None => false
  end.

Lemma live_loop_Ok now recs l :
  (forall k i, (k, i) ∈ l -> byKey (NewSnapshot now recs) !! k = Some i) ->
  live_loop (NewSnapshot now recs) l = Ok (filter (fun k => live recs k = true) l.*1).
Proof.
  induction l as [|[k i] l IH]; intros Hl; [done|]. cbn [live_loop].
  specialize (IH ltac:(intros; apply Hl; by right)). pose proof (Hl k i ltac:(by left)) as Hk.
  pose proof (index_keys_last recs 0 ∅ k) as H. cbn [NewSnapshot byKey] in Hk.
  rewrite fmap_cons, filter_cons. cbn [fst].
  destruct (last_record k recs) as [r|] eqn:E.
  - destruct H as (j & Hj & Hr). rewrite Hj in Hk. cbn [Nat.add] in Hk. injection Hk as ->.
    rewrite (record_at_Some (NewSnapshot now recs) i r Hr). cbn [mbind res_bind]. rewrite IH. cbn [mbind res_bind].
    unfold mret, res_ret. assert (live recs k = negb (Tombstone r)) as -> by (unfold live; by rewrite E).
    by destruct (Tombstone r).
  - by rewrite H, (lookup_empty (M:=gmap bytes)) in Hk.
Qed.

Section Ranges.
Context `{!GoRange bytes}.

Lemma range_entries now recs k i :
  (k, i) ∈ go_range (byKey (NewSnapshot now recs)) -> byKey (NewSnapshot now recs) !! k = Some i.
Proof. rewrite (go_range_perm (byKey (NewSnapshot now recs))). apply elem_of_map_to_list. Qed.

Lemma range_keys_perm now recs :
  (go_range (byKey (NewSnapshot now recs))).*1 ≡ₚ (map_to_list (byKey (NewSnapshot now recs))).*1.
Proof. by rewrite (go_range_perm (byKey (NewSnapshot now recs))). Qed.

(** Counting and listing make the same visit. *)
Lemma count_loop_live s l out count :
  live_loop s l = Ok out -> count_loop s l count = Ok (count + blen out).
Proof.
  revert out count. induction l as [|[k i] l IH]; intros out count H; cbn [live_loop count_loop] in *.
  { injection H as <-. by rewrite blen_nil, Z.add_0_r. }
  apply res_bind_Ok in H as (r & -> & H). apply res_bind_Ok in H as (out' & Hl & H).
  cbn [mbind res_bind]. injection H as <-. rewrite (IH _ _ Hl).
  destruct (Tombstone r); rewrite ?blen_cons; f_equal; lia.
Qed.

(** [Keys] lists the keys of the records, and [LiveKeys] those whose last record
    is not a tombstone, both in order and without repetition. *)
Lemma LiveKeys_Ok now recs :
  exists ks, LiveKeys (NewSnapshot now recs) = Ok ks /\ LiveCount (NewSnapshot now recs) = Ok (blen ks)
    /\ StronglySorted bytes_le ks /\ NoDup ks
    /\ forall k, k ∈ ks <-> exists r, last_record k recs = Some r /\ Tombstone r = false.
Proof.
  pose proof (live_loop_Ok now recs (go_range (byKey (NewSnapshot now recs))) ltac:(intros ??; apply range_entries)) as Hl.
  set (out := filter _ _) in Hl. exists (sort_Strings out).
  assert (Hp : sort_Strings out ≡ₚ out) by apply merge_sort_Permutation.
  split_and!.
  - unfold LiveKeys.  by rewrite Hl.
  - unfold LiveCount. rewrite (count_loop_live _ _ _ _ Hl). unfold blen. by rewrite Hp.
  - apply (StronglySorted_merge_sort bytes_le).
  - rewrite Hp. apply NoDup_filter. rewrite range_keys_perm. apply NoDup_fst_map_to_list.
  - intros k. rewrite Hp. unfold out. rewrite list_elem_of_filter. 
    rewrite range_keys_perm, Index.map_fst_is_Some, byKey_dom. unfold live.
    pose proof (index_keys_last recs 0 ∅ k) as H. split.
    + intros [Hlv _]. destruct (last_record k recs) as [r|]; [|done].
      exists r. split; [done|]. by apply negb_true_iff.
    + intros (r & Hr & Ht). rewrite Hr in *. rewrite Ht. split; [done|].
      apply (byKey_dom now). destruct H as (j & Hj & _). exists (0 + j)%nat. exact Hj.
Qed.

Lemma Keys_Ok now recs :
  StronglySorted bytes_le (Keys (NewSnapshot now recs)) /\ NoDup (Keys (NewSnapshot now recs))
  /\ forall k, k ∈ Keys (NewSnapshot now recs) <-> k ∈ Key <$> recs.
Proof.
  unfold Keys, sort_Strings. split_and!; [apply (StronglySorted_merge_sort bytes_le)| |].
  - rewrite merge_sort_Permutation, range_keys_perm. apply NoDup_fst_map_to_list.
  - intros k. by rewrite merge_sort_Permutation, range_keys_perm, Index.map_fst_is_Some, byKey_dom.
Qed.
End Ranges.

(** ** Round trip *)

Definition snapshot_bytes (recs : list Record_) : bytes :=
  header_bytes (blen recs) ++ concat (record_bytes <$> recs).

(** What the format can hold: int64 fields and keys of at most 16 MiB. *)
Definition rec_ok (r : Record_) : Prop :=
  blen (Key r) <= 2 ^ 24 /\ Index.in64 (FileID r) /\ Index.in64 (Offset r)
  /\ Index.in64 (Size r) /\ Index.in64 (Timestamp r).

Section Emitting.
Context {St : Type} `{!Writer St} (emit : bytes -> St) (fits : bytes -> Prop) `{!WriterSpec emit fits}.

Lemma write_records_emit l out total : fits (out ++ concat (record_bytes <$> l)) ->
  exists t, write_records l total (emit out) = (emit (out ++ concat (record_bytes <$> l)), Ok t).
Proof.
  revert out total. induction l as [|r l IH]; intros out total; cbn [write_records].
  - intros _. exists total. by rewrite app_nil_r.
  - rewrite fmap_cons. cbn [concat]. rewrite app_assoc. intros Hf.
    pose proof (writer_fits_app _ _ Hf) as Hf0. unfold writeRecord.
    rewrite (M_bind_Ok _ _ _ _ _ (writer_emit _ _ Hf0)). by apply IH.
Qed.

Lemma keydir_WriteTo_emit s out : fits (out ++ snapshot_bytes (records s)) ->
  exists t, WriteTo s (emit out) = (emit (out ++ snapshot_bytes (records s)), Ok t).
Proof.
  unfold snapshot_bytes. rewrite app_assoc. intros Hf.
  pose proof (writer_fits_app _ _ Hf) as Hf0. unfold WriteTo.
  rewrite (M_bind_Ok _ _ _ _ _ (writer_emit _ _ Hf0)). by apply write_records_emit.
Qed.
End Emitting.

(** The body of a record, after its key length. *)
Definition body_bytes (r : Record_) : bytes :=
  Key r ++ be_put 8 (u64 (FileID r)) ++ be_put 8 (u64 (Offset r)) ++ be_put 8 (u64 (Size r))
  ++ [flag_byte (Tombstone r)] ++ be_put 8 (u64 (Timestamp r)).

Lemma blen_body r : blen (body_bytes r) = blen (Key r) + 8 + 8 + 8 + 1 + 8.
Proof.
  unfold body_bytes. rewrite !blen_app, !blen_be_put. change (blen [flag_byte (Tombstone r)]) with 1. lia.
Qed.

Lemma flag_byte_decide t : bool_decide (flag_byte t = Byte.x01) = t.
Proof. by destruct t. Qed.

(** [readRecord] once the key length is read. *)
Lemma readRecord_len r post e : rec_ok r ->
  readRecord (MkIoReader (be_put 4 (u32 (blen (Key r))) ++ post) e)
  = match ReadFull (blen (Key r) + 8 + 8 + 8 + 1 + 8) (MkIoReader post e) with
    | (rd, Ok buf) =>
        (key ← lift_res (slice 0 (blen (Key r)) buf);
         fileID ← lift_res (slice (blen (Key r)) (blen (Key r) + 8) buf);
         offset ← lift_res (slice (blen (Key r) + 8) (blen (Key r) + 8 + 8) buf);
         size ← lift_res (slice (blen (Key r) + 8 + 8) (blen (Key r) + 8 + 8 + 8) buf);
         tomb ← lift_res (Prelude.index (blen (Key r) + 8 + 8 + 8) buf);
         ts ← lift_res (slice (blen (Key r) + 8 + 8 + 8 + 1) (blen (Key r) + 8 + 8 + 8 + 1 + 8) buf);
         mret (MkRecord key (i64 (be_get fileID)) (i64 (be_get offset)) (i64 (be_get size))
                 (bool_decide (tomb = Byte.x01)) (i64 (be_get ts)))) rd
    | (rd, Err _) => (rd, Err (Errorf "%w: record body: %v" ErrFormat))
    | (rd, Panic) => (rd, Panic)
    end.
Proof.
  intros (Hk & _). pose proof (blen_nonneg (Key r)). unfold readRecord.
  rewrite (M_bind_Ok _ _ _ _ _ (failing_as_Ok _ _ _ _ _ (ReadFull_app 4 _ _ _ ltac:(lia) (blen_be_put 4 _)))).
  cbv zeta. rewrite be_get_put. change (256 ^ Z.of_nat 4) with (2 ^ 32).
  rewrite (u32_small (blen (Key r))), Z.mod_small by lia.
  rewrite (proj2 (Z.ltb_ge _ _)) by (change (Z.shiftl 1 24) with (2 ^ 24); lia).
  unfold mbind at 1, M_bind at 1, failing_as. by destruct (ReadFull _ _) as [? []].
Qed.

Lemma readRecord_bytes r post e : rec_ok r ->
  readRecord (MkIoReader (record_bytes r ++ post) e) = (MkIoReader post e, Ok r).
Proof.
  intros Hok. unfold record_bytes. rewrite <- app_assoc, readRecord_len by done.
  fold (body_bytes r). pose proof (blen_nonneg (Key r)) as H0.
  rewrite (ReadFull_app _ (body_bytes r)) by (rewrite ?blen_body; lia).
  destruct Hok as (_ & Hf & Ho & Hs & Ht). unfold body_bytes. set (b := blen (Key r)) in *.
  set (f8 := be_put 8 (u64 (FileID r))). set (o8 := be_put 8 (u64 (Offset r))).
  set (s8 := be_put 8 (u64 (Size r))). set (t8 := be_put 8 (u64 (Timestamp r))).
  assert (L : blen f8 = 8 /\ blen o8 = 8 /\ blen s8 = 8 /\ blen t8 = 8)
    by (split_and!; apply (blen_be_put 8)).
  destruct L as (Lf & Lo & Ls & Lt).
  rewrite (lift_bind_Ok _ (Key r)).
  2:{ by apply (slice_app []). }
  rewrite (lift_bind_Ok _ f8).
  2:{ apply slice_app; [done|fold b; lia]. }
  rewrite (lift_bind_Ok _ o8).
  2:{ rewrite app_assoc. apply slice_app; rewrite blen_app; fold b; lia. }
  rewrite (lift_bind_Ok _ s8).
  2:{ rewrite 2!app_assoc. apply slice_app; rewrite !blen_app; fold b; lia. }
  rewrite (lift_bind_Ok _ (flag_byte (Tombstone r))).
  2:{ unfold Prelude.index. rewrite (proj2 (Z.leb_le 0 _)) by lia. rewrite 3!app_assoc.
      assert (Hn : Z.to_nat (b + 8 + 8 + 8) = length (((Key r ++ f8) ++ o8) ++ s8)).
      { rewrite <- to_nat_blen, !blen_app. fold b. by rewrite Lf, Lo, Ls. }
      rewrite Hn, lookup_app_r, Nat.sub_diag by lia. done. }
  rewrite (lift_bind_Ok _ t8).
  2:{ rewrite 4!app_assoc. rewrite <- (app_nil_r t8) at 1. apply slice_app;
        rewrite !blen_app, ?Lf, ?Lo, ?Ls, ?Lt; fold b; change (blen [flag_byte (Tombstone r)]) with 1; lia. }
  unfold f8, o8, s8, t8. rewrite !Index.i64_be_get_put, flag_byte_decide by done. by destruct r.
Qed.

Lemma read_records_bytes l post e : Forall rec_ok l ->
  read_records (length l) (MkIoReader (concat (record_bytes <$> l) ++ post) e)
  = (MkIoReader post e, Ok l).
Proof.
  induction 1 as [|r l Hr _ IH]; [done|]. rewrite fmap_cons. cbn [length read_records concat].
  rewrite <- app_assoc, (M_bind_Ok _ _ _ _ _ (readRecord_bytes r _ e Hr)).
  by rewrite (M_bind_Ok _ _ _ _ _ IH).
Qed.

Lemma blen_header count : blen (header_bytes count) = 10.
Proof. unfold header_bytes. by rewrite !blen_app, !blen_be_put. Qed.

(** [ReadFrom] once the header is read. *)
Lemma keydir_ReadFrom_header now (recs : list Record_) post e : blen recs <= 2 ^ 28 ->
  ReadFrom now (MkIoReader (header_bytes (blen recs) ++ post) e)
  = (l ← read_records (length recs); mret (NewSnapshot now l)) (MkIoReader post e).
Proof.
  intros Hn. pose proof (blen_nonneg recs). unfold ReadFrom.
  rewrite (M_bind_Ok _ _ _ _ _ (failing_as_Ok _ _ _ _ _
    (ReadFull_app 10 _ _ _ ltac:(lia) (blen_header (blen recs))))).
  assert (H1 : sub 0 4 (header_bytes (blen recs)) = magic) by done.
  assert (H2 : sub 4 6 (header_bytes (blen recs)) = be_put 2 version) by done.
  assert (H3 : sub 6 10 (header_bytes (blen recs)) = be_put 4 (u32 (blen recs))) by done.
  rewrite H1, H2, H3, bool_decide_eq_true_2 by done. cbn [negb].
  change (be_get (be_put 2 version) =? version) with true. cbn [negb]. cbv zeta.
  rewrite be_get_put. change (256 ^ Z.of_nat 4) with (2 ^ 32).
  rewrite (u32_small (blen recs)), Z.mod_small by lia.
  rewrite (proj2 (Z.ltb_ge _ _)) by (change (Z.shiftl 1 28) with (2 ^ 28); lia).
  by rewrite to_nat_blen.
Qed.

Lemma ReadFrom_bytes now (recs : list Record_) post e : Forall rec_ok recs -> blen recs <= 2 ^ 28 ->
  ReadFrom now (MkIoReader (snapshot_bytes recs ++ post) e)
  = (MkIoReader post e, Ok (NewSnapshot now recs)).
Proof.
  intros Hr Hn. unfold snapshot_bytes. rewrite <- app_assoc, keydir_ReadFrom_header by done.
  by rewrite (M_bind_Ok _ _ _ _ _ (read_records_bytes _ _ _ Hr)).
Qed.

(** ** Truncated files *)

Definition format_error (e : error) : Prop := errors_Is e ErrFormat = true.

Lemma readRecord_prefix r n e : rec_ok r -> (n < length (record_bytes r))%nat ->
  exists rd err, readRecord (MkIoReader (take n (record_bytes r)) e) = (rd, Err err) /\ format_error err.
Proof.
  intros Hok Hn. unfold record_bytes in *. fold (body_bytes r) in *.
  pose proof (length_be_put 4 (u32 (blen (Key r)))) as H4. rewrite length_app, H4 in Hn.
  destruct (Nat.lt_ge_cases n 4) as [Hlt|Hge].
  - assert (Hs : blen (take n (be_put 4 (u32 (blen (Key r))) ++ body_bytes r)) < 4)
      by (unfold blen; rewrite length_take; lia).
    unfold readRecord. eexists _, _.
    by rewrite (M_bind_Err _ _ _ _ _ (failing_as_Err _ _ _ _ _ (ReadFull_short _ _ e Hs))).
  - rewrite take_app_ge, readRecord_len by (done || lia).
    rewrite ReadFull_short; [by eexists _, _|].
    rewrite <- blen_body. unfold blen in *. rewrite length_take. lia.
Qed.

Lemma read_records_prefix l n e : Forall rec_ok l -> (n < length (concat (record_bytes <$> l)))%nat ->
  exists rd err, read_records (length l) (MkIoReader (take n (concat (record_bytes <$> l))) e) = (rd, Err err)
    /\ format_error err.
Proof.
  intros H. revert n. induction H as [|r l Hr _ IH]; intros n Hn; [cbn in Hn; lia|].
  rewrite fmap_cons in *. cbn [concat length read_records] in *. rewrite length_app in Hn.
  destruct (Nat.lt_ge_cases n (length (record_bytes r))) as [Hlt|Hge].
  - rewrite take_app_le by lia. destruct (readRecord_prefix r n e Hr Hlt) as (rd & err & He & Hf).
    exists rd, err. by rewrite (M_bind_Err _ _ _ _ _ He).
  - rewrite take_app_ge, (M_bind_Ok _ _ _ _ _ (readRecord_bytes r _ e Hr)) by lia.
    destruct (IH (n - length (record_bytes r))%nat) as (rd & err & He & Hf); [lia|].
    exists rd, err. by rewrite (M_bind_Err _ _ _ _ _ He).
Qed.

Lemma ReadFrom_prefix now (recs : list Record_) n e : Forall rec_ok recs -> blen recs <= 2 ^ 28 ->
  (n < length (snapshot_bytes recs))%nat ->
  exists rd err, ReadFrom now (MkIoReader (take n (snapshot_bytes recs)) e) = (rd, Err err)
    /\ format_error err.
Proof.
  intros Hr Hb Hn. unfold snapshot_bytes in *. pose proof (blen_header (blen recs)) as Hh.
  unfold blen at 1 in Hh. rewrite length_app in Hn.
  destruct (Nat.lt_ge_cases n 10) as [Hlt|Hge].
  - assert (Hs : blen (take n (header_bytes (blen recs) ++ concat (record_bytes <$> recs))) < 10)
      by (unfold blen at 1; rewrite length_take; lia).
    unfold ReadFrom. eexists _, _.
    by rewrite (M_bind_Err _ _ _ _ _ (failing_as_Err _ _ _ _ _ (ReadFull_short _ _ e Hs))).
  - rewrite take_app_ge, keydir_ReadFrom_header by (done || lia).
    destruct (read_records_prefix recs (n - length (header_bytes (blen recs))) e Hr) as (rd & err & He & Hf);
      [lia|]. exists rd, err. by rewrite (M_bind_Err _ _ _ _ _ He).
Qed.

(** ** Files *)

Lemma fs_WriterSpec s ino : FileSys.faults s = [] ->
  @WriterSpec FileSys.FS (fs_writer ino) (FileSys.file_holds s ino) (fun a => blen a <= FileSys.max_file).
Proof.
  intros Hq. split.
  - intros a b H. rewrite blen_app in H. pose proof (blen_nonneg b). lia.
  - intros a b H. rewrite blen_app in H. unfold w_Write, fs_writer. rewrite FileSys.Write_none by done.
    erewrite FileSys.content_Some by apply lookup_insert_eq.
    rewrite (proj2 (Z.ltb_ge _ _) H). unfold FileSys.file_holds, FileSys.set_data. cbn.
    by rewrite insert_insert_eq.
Qed.

Lemma closing_on_error_Ok {A} ino (m : M FileSys.FS A) s s' a :
  m s = (s', Ok a) -> closing_on_error ino m s = (s', Ok a).
Proof. intros H. unfold closing_on_error. by rewrite (M_bind_Ok _ _ _ _ _ (attempt_Ok _ _ _ _ H)). Qed.

Lemma keydir_Save_Load s path snap now : FileSys.faults s = [] -> FileSys.creatable s path ->
  Forall rec_ok (records snap) -> blen (records snap) <= 2 ^ 28 ->
  blen (snapshot_bytes (records snap)) <= FileSys.max_file ->
  exists s', SaveToFile path snap s = (s', Ok tt)
    /\ LoadFromFile now path s' = (s', Ok (NewSnapshot now (records snap))).
Proof.
  intros Hq Hc Hr Hn Hb. destruct (FileSys.Create_Ok s path Hq Hc) as (s1 & ino & Hcr & Hnm & Hq1).
  pose proof (fs_WriterSpec s1 ino Hq1) as HW.
  destruct (@keydir_WriteTo_emit _ (fs_writer ino) _ _ HW snap [] Hb) as (t & Hw). rewrite app_nil_l in Hw.
  set (s2 := FileSys.file_holds s1 ino (snapshot_bytes (records snap))) in *.
  assert (Hq2 : FileSys.faults s2 = []) by done.
  exists s2. split.
  - unfold SaveToFile. rewrite (M_bind_Ok _ _ _ _ _ Hcr).
    rewrite (M_bind_Ok _ _ _ _ _ (closing_on_error_Ok ino _ _ _ _ Hw)).
    rewrite (M_bind_Ok _ _ s2 s2 tt).
    2:{ apply closing_on_error_Ok. unfold FileSys.Sync. by rewrite FileSys.syscall_none. }
    unfold FileSys.Close. by rewrite FileSys.syscall_none.
  - unfold LoadFromFile. rewrite (M_bind_Ok _ _ s2 s2 ino).
    2:{ unfold FileSys.Open. rewrite FileSys.syscall_none by done. destruct path as [d name].
        cbn [fst snd]. change (FileSys.names s2) with (FileSys.names s1). by rewrite Hnm. }
    rewrite (M_bind_Ok _ _ _ _ _
      (FileSys.stream_none ino (snapshot_bytes (records snap)) s2 Hq2 (lookup_insert_eq _ _ _))).
    rewrite <- (app_nil_r (snapshot_bytes _)), ReadFrom_bytes by done. cbn [snd]. cbv zeta.
    erewrite M_bind_Ok; [reflexivity|]. apply (ignore_Ok _ _ _ tt).
    unfold FileSys.Close. by rewrite FileSys.syscall_none.
Qed.
End Keydir.
