(* ===== verification/Ttl.v ===== *)
(** * Expiry times: internal/ttl/ttl.go

    A time is the number of nanoseconds since the Unix epoch; monotonic clock
    readings are not modelled.  Methods that read the clock take what it shows
    as the argument [now]. *)
From S2P Require Import Prelude.

Module Ttl.

Definition ErrExpired : error := errors_New "ttl: key expired".

(** [time.Time{}], January 1 of year 1. *)
Definition zero_time : Z := - 62135596800 * 10 ^ 9.

Definition After (t u : Z) : bool := u <? t.
Definition Before (t u : Z) : bool := t <? u.
Definition IsZero (t : Z) : bool := t =? zero_time.

(** [t.Sub(u)]: a [time.Duration], saturated. *)
Definition Sub (t u : Z) : Z := Z.max (- 2 ^ 63) (Z.min (t - u) (2 ^ 63 - 1)).

Record Entry := MkEntry { Key : bytes; ExpiresAt_ : Z }.

Record Manager := MkManager { entries : gmap bytes Z }.

Definition New : Manager := MkManager ∅.

Definition Set_ (key : bytes) (expiresAt : Z) (m : Manager) : Manager :=
  MkManager (<[key := expiresAt]> (entries m)).

Definition SetTTL (now : Z) (key : bytes) (ttl : Z) (m : Manager) : Manager := Set_ key (now + ttl) m.

Definition Remove (key : bytes) (m : Manager) : Manager := MkManager (delete key (entries m)).

Definition IsExpired (now : Z) (key : bytes) (m : Manager) : bool :=
  match entries m !! key with
  | None => false
  | Some exp => After now exp
  end.

Definition ExpiresAt (key : bytes) (m : Manager) : Z * bool :=
  match entries m !! key with
  | None => (zero_time, false)
  | Some t => (t, true)
  end.

Definition Remaining (now : Z) (key : bytes) (m : Manager) : Z :=
  match entries m !! key with
  | None => 0
  | Some exp => let rem := Sub exp now in if rem <? 0 then 0 else rem
  end.

Definition Len (m : Manager) : Z := Z.of_nat (base.size (entries m)).

Definition Clear (m : Manager) : Manager := MkManager ∅.

Definition by_expiry (a b : Entry) : Prop := ExpiresAt_ a <= ExpiresAt_ b.

#[export] Instance by_expiry_dec : RelDecision by_expiry.
Proof. intros a b. unfold by_expiry. apply _. Defined.

Section WithRange.
Context `{!GoRange bytes}.

(** The deletions of [Sweep]. *)
Definition delete_all (ks : list bytes) (m : gmap bytes Z) : gmap bytes Z :=
  foldl (fun m k => delete k m) m ks.

Definition Sweep (now : Z) (m : Manager) : Manager * list bytes :=
  let expired := foldl (fun out '(k, exp) => if After now exp then out ++ [k] else out) []
                   (go_range (entries m)) in
  (MkManager (delete_all expired (entries m)), sort_Strings expired).

(** [sort.Slice] is not stable; entries with the same expiry come in the
    arbitrary order of the map. *)
Definition AllEntries (m : Manager) : list Entry :=
  merge_sort by_expiry ((fun '(k, exp) => MkEntry k exp) <$> go_range (entries m)).

Definition NextExpiry (m : Manager) : Z :=
  foldl (fun earliest '(_, exp) =>
    if IsZero earliest || Before exp earliest then exp else earliest) zero_time (go_range (entries m)).

Definition Keys (m : Manager) : list bytes := sort_Strings (go_range (entries m)).*1.

(** ** Binary format *)

(** [t.UnixNano()]: an [int64]. *)
Definition UnixNano (t : Z) : Z := i64 t.

Definition entry_bytes (e : bytes * Z) : bytes :=
  be_put 4 (u32 (blen e.1)) ++ e.1 ++ be_put 8 (u64 (UnixNano e.2)).

Definition Encode (m : Manager) : bytes :=
  be_put 4 (u32 (Len m)) ++ concat (entry_bytes <$> go_range (entries m)).
End WithRange.

Fixpoint decode_loop (count : nat) (off : Z) (entries : gmap bytes Z) (data : bytes) : res (gmap bytes Z) :=
  match count with
  | O => mret entries
  | S count' =>
      if blen data <? off + 4 then Err (errors_New "ttl: truncated entry")
      else
        h ← slice off (off + 4) data;
        let kl := be_get h in
        let off := off + 4 in
        if blen data <? off + kl + 8 then Err (errors_New "ttl: truncated key/time")
        else
          key ← slice off (off + kl) data;
          let off := off + kl in
          t ← slice off (off + 8) data;
          let nano := i64 (be_get t) in
          decode_loop count' (off + 8) (<[key := nano]> entries) data
  end.

(** [m.Decode(data)]: the entries that replace the receiver's, or an error. *)
Definition Decode (data : bytes) : res Manager :=
  if blen data <? 4 then Err (errors_New "ttl: data too short")
  else
    h ← slice 0 4 data;
    l ← decode_loop (Z.to_nat (be_get h)) 4 ∅ data;
    mret (MkManager l).

(** ** Sweeping *)

Lemma ttl_delete_all_lookup (ks : list bytes) (m : gmap bytes Z) (k : bytes) :
  delete_all ks m !! k = if bool_decide (k ∈ ks) then None else m !! k.
Proof.
  unfold delete_all. revert m. induction ks as [|k' ks IH]; intros m; cbn [foldl].
  - by rewrite bool_decide_eq_false_2 by apply not_elem_of_nil.
  - rewrite IH. destruct (decide (k ∈ ks)) as [Hin|Hnot].
    + rewrite !bool_decide_eq_true_2; [done|by right|done].
    + rewrite (bool_decide_eq_false_2 (k ∈ ks)) by done. destruct (decide (k = k')) as [->|Hne].
      * rewrite bool_decide_eq_true_2 by (by left). apply lookup_delete_eq.
      * rewrite bool_decide_eq_false_2 by (by rewrite elem_of_cons; intros [|]).
        by apply lookup_delete_ne.
Qed.

Lemma expired_filter now (l : list (bytes * Z)) (out : list bytes) :
  foldl (fun out '(k, exp) => if After now exp then out ++ [k] else out) out l
  = out ++ (filter (fun e => e.2 < now) l).*1.
Proof.
  revert out. induction l as [|[k exp] l IH]; intros out; cbn [foldl]; [by rewrite app_nil_r|].
  rewrite IH, filter_cons. cbn [snd]. unfold After. destruct (Z.ltb_spec exp now).
  - rewrite decide_True by done. by rewrite fmap_cons, <- app_assoc.
  - by rewrite decide_False by lia.
Qed.

Section Ranges.
Context `{!GoRange bytes}.

Lemma elem_of_range (m : gmap bytes Z) (k : bytes) (t : Z) : (k, t) ∈ go_range m <-> m !! k = Some t.
Proof. rewrite (go_range_perm m). apply elem_of_map_to_list. Qed.

Lemma IsExpired_lookup now k m : IsExpired now k m = true <-> exists t, entries m !! k = Some t /\ t < now.
Proof.
  unfold IsExpired, After. destruct (entries m !! k) as [t|].
  - rewrite Z.ltb_lt. split; [by exists t|]. by intros (? & [= <-] & ?).
  - split; [done|]. by intros (? & ? & _).
Qed.

Lemma Sweep_Ok now m :
  let '(m', ks) := Sweep now m in
  StronglySorted bytes_le ks /\ NoDup ks /\ (forall k, k ∈ ks <-> IsExpired now k m = true)
  /\ (forall k, entries m' !! k = if IsExpired now k m then None else entries m !! k).
Proof.
  unfold Sweep. rewrite expired_filter, app_nil_l. set (ks := (filter _ _).*1).
  assert (Hin : forall k, k ∈ ks <-> IsExpired now k m = true).
  { intros k. unfold ks. rewrite IsExpired_lookup, list_elem_of_fmap. split.
    - intros ([k' t] & -> & [Ht Hr]%list_elem_of_filter). exists t. by rewrite <- elem_of_range.
    - intros (t & Hm & Ht). exists (k, t). by rewrite list_elem_of_filter, elem_of_range. }
  split_and!.
  - apply (StronglySorted_merge_sort bytes_le).
  - unfold sort_Strings. rewrite merge_sort_Permutation. unfold ks.
    apply (sublist_NoDup _ (go_range (entries m)).*1).
    + rewrite (go_range_perm (entries m)). apply NoDup_fst_map_to_list.
    + apply fmap_sublist, sublist_filter.
  - intros k. unfold sort_Strings. by rewrite merge_sort_Permutation.
  - intros k. cbn [entries]. rewrite ttl_delete_all_lookup.
    destruct (IsExpired now k m) eqn:E.
    + by rewrite bool_decide_eq_true_2 by (by apply Hin).
    + rewrite bool_decide_eq_false_2; [done|]. rewrite Hin. congruence.
Qed.

(** ** The earliest expiry *)

Lemma earliest_loop (l : list (bytes * Z)) e :
  (forall k t, (k, t) ∈ l -> t <> zero_time) -> e <> zero_time ->
  let r := foldl (fun earliest '(_, exp) =>
             if IsZero earliest || Before exp earliest then exp else earliest) e l in
  (r = e \/ exists k, (k, r) ∈ l) /\ r <= e /\ forall k t, (k, t) ∈ l -> r <= t.
Proof.
  cbv zeta. revert e. induction l as [|[k t] l IH]; intros e Hl He; cbn [foldl].
  { split_and!; [by left|done|]. by intros k t ?%elem_of_nil. }
  assert (Hs : (if IsZero e || Before t e then t else e) = if t <? e then t else e).
  { unfold IsZero, Before. by rewrite (proj2 (Z.eqb_neq e zero_time)). }
  rewrite Hs. pose proof (Hl k t ltac:(by left)) as Ht.
  specialize (IH (if t <? e then t else e) ltac:(intros k' t' H; apply (Hl k'); by right)).
  destruct (Z.ltb_spec t e) as [Hlt|Hge];
    (destruct IH as (Hr & Hle & Hall); [done|]); cbv zeta in *;
    (split_and!; [|lia|intros k' t' [[= -> ->]|H]%elem_of_cons; [lia|by eapply Hall]]).
  - right. destruct Hr as [->|[k' H]]; [exists k; by left|exists k'; by right].
  - destruct Hr as [->|[k' H]]; [by left|right; exists k'; by right].
Qed.

Lemma NextExpiry_Ok m :
  (forall k t, entries m !! k = Some t -> t <> zero_time) -> entries m <> ∅ ->
  (exists k, entries m !! k = Some (NextExpiry m))
  /\ forall k t, entries m !! k = Some t -> NextExpiry m <= t.
Proof.
  intros Hz Hne. unfold NextExpiry. setoid_rewrite <- elem_of_range.
  destruct (go_range (entries m)) as [|[k t] l] eqn:E.
  { exfalso. apply Hne. apply map_to_list_empty_iff, Permutation_nil_r.
    by rewrite <- (go_range_perm (entries m)), E. }
  assert (Hnz : forall k' t', (k', t') ∈ (k, t) :: l -> t' <> zero_time).
  { intros k' t' H. rewrite <- E in H. apply elem_of_range in H. by eapply Hz. }
  cbn [foldl]. change (IsZero zero_time) with true. cbn [orb].
  destruct (earliest_loop l t) as (Hr & Hle & Hall).
  - intros k' t' H. apply (Hnz k'). by right.
  - apply (Hnz k). by left.
  - split.
    + destruct Hr as [->|[k' H]]; [exists k; by left|exists k'; by right].
    + intros k' t' [[= -> ->]|H]%elem_of_cons; [done|by eapply Hall].
Qed.
End Ranges.

(** An entry at the zero time makes the result depend on the iteration order. *)
Program Definition reverse_order : GoRange bytes := {| go_range := fun V m => reverse (map_to_list m) |}.
Next Obligation. intros V m. apply reverse_Permutation. Qed.

Lemma NextExpiry_order :
  let m := Set_ (bs "a") zero_time (Set_ (bs "b") 5 New) in
  @NextExpiry key_order m <> @NextExpiry reverse_order m.
Proof. vm_compute. discriminate. Qed.

(** ** Round trip *)

(** What the format can hold. *)
Definition entry_ok (e : bytes * Z) : Prop := blen e.1 < 2 ^ 32 /\ - 2 ^ 63 <= e.2 < 2 ^ 63.

Lemma decode_entry count (pre key rest : bytes) t acc :
  entry_ok (key, t) ->
  decode_loop (S count) (blen pre) acc (pre ++ entry_bytes (key, t) ++ rest)
  = decode_loop count (blen (pre ++ entry_bytes (key, t))) (<[key := t]> acc)
      ((pre ++ entry_bytes (key, t)) ++ rest).
Proof.
  intros [Hk Ht]. cbn [fst snd] in *. unfold entry_bytes. cbn [fst snd].
  set (h := be_put 4 (u32 (blen key))). set (t8 := be_put 8 (u64 (UnixNano t))).
  assert (Lh : blen h = 4) by apply (blen_be_put 4). assert (Lt : blen t8 = 8) by apply (blen_be_put 8).
  assert (Hh : be_get h = blen key).
  { unfold h. rewrite be_get_put. change (256 ^ Z.of_nat 4) with (2 ^ 32).
    pose proof (blen_nonneg key). by rewrite (u32_small (blen key)), Z.mod_small by lia. }
  assert (Hn : i64 (be_get t8) = t).
  { unfold t8. rewrite be_get_put. change (256 ^ Z.of_nat 8) with (2 ^ 64).
    rewrite (Z.mod_small (u64 _)) by apply u64_range. unfold UnixNano.
    by rewrite i64_u64, (i64_small t), i64_small by done. }
  pose proof (blen_nonneg pre). pose proof (blen_nonneg key). pose proof (blen_nonneg rest).
  cbn [decode_loop]. rewrite (proj2 (Z.ltb_ge _ _)) by (rewrite !blen_app; lia).
  assert (S1 : slice (blen pre) (blen pre + 4) (pre ++ (h ++ key ++ t8) ++ rest) = Ok h).
  { rewrite <- app_assoc. apply slice_app; lia. }
  rewrite S1. cbn [mbind res_bind]. cbv zeta. rewrite Hh.
  rewrite (proj2 (Z.ltb_ge _ _)) by (rewrite !blen_app; lia).
  assert (S2 : slice (blen pre + 4) (blen pre + 4 + blen key) (pre ++ (h ++ key ++ t8) ++ rest) = Ok key).
  { rewrite <- !app_assoc, (app_assoc pre h). apply slice_app; rewrite blen_app; lia. }
  rewrite S2. cbn [mbind res_bind].
  assert (S3 : slice (blen pre + 4 + blen key) (blen pre + 4 + blen key + 8)
                 (pre ++ (h ++ key ++ t8) ++ rest) = Ok t8).
  { rewrite <- !app_assoc, (app_assoc pre h), (app_assoc (pre ++ h)). apply slice_app; rewrite !blen_app; lia. }
  rewrite S3. cbn [mbind res_bind]. rewrite Hn, <- (app_assoc pre).
  assert (blen (pre ++ h ++ key ++ t8) = blen pre + 4 + blen key + 8) as -> by (rewrite !blen_app; lia).
  done.
Qed.

Lemma decode_loop_bytes (l : list (bytes * Z)) pre post acc : Forall entry_ok l ->
  decode_loop (length l) (blen pre) acc (pre ++ concat (entry_bytes <$> l) ++ post)
  = Ok (foldl (fun m e => <[e.1 := e.2]> m) acc l).
Proof.
  intros H. revert pre acc. induction H as [|[key t] l He _ IH]; intros pre acc; [done|].
  rewrite fmap_cons. cbn [length concat foldl fst snd]. rewrite <- app_assoc, decode_entry by done.
  apply IH.
Qed.

Section Codec.
Context `{!GoRange bytes}.

Lemma range_NoDup (m : gmap bytes Z) : NoDup (fst <$> go_range m).
Proof. rewrite (go_range_perm m). apply NoDup_fst_map_to_list. Qed.

Lemma foldl_range (m : gmap bytes Z) : foldl (fun m e => <[e.1 := e.2]> m) ∅ (go_range m) = m.
Proof.
  apply map_eq. intros k. apply option_eq. intros t.
  rewrite (foldl_insert_lookup fst snd (go_range m)) by apply range_NoDup. split.
  - intros [([k' t'] & Hin & <- & <-)|[_ H]]; [by apply elem_of_range|].
    by rewrite (lookup_empty (M:=gmap bytes)) in H.
  - intros H. left. exists (k, t). by rewrite elem_of_range.
Qed.

Lemma ttl_Decode_Encode m post :
  (forall k t, entries m !! k = Some t -> entry_ok (k, t)) -> Len m < 2 ^ 32 ->
  Decode (Encode m ++ post) = Ok m.
Proof.
  intros Hok Hn. unfold Decode, Encode. set (h := be_put 4 (u32 (Len m))).
  assert (Lh : blen h = 4) by apply (blen_be_put 4). rewrite <- app_assoc.
  set (body := concat _). pose proof (blen_nonneg body). pose proof (blen_nonneg post).
  rewrite (proj2 (Z.ltb_ge _ _)) by (rewrite !blen_app; lia).
  assert (Hs : slice 0 4 (h ++ body ++ post) = Ok h) by (by apply (slice_app [] h)).
  rewrite Hs. cbn [mbind res_bind].
  assert (Hcount : Z.to_nat (be_get h) = length (go_range (entries m))).
  { unfold h. rewrite be_get_put. change (256 ^ Z.of_nat 4) with (2 ^ 32).
    rewrite (Z.mod_small (u32 _)) by apply u32_range. unfold Len in *.
    rewrite u32_small by lia. rewrite (go_range_perm (entries m)), length_map_to_list. lia. }
  rewrite Hcount, <- Lh. unfold body. rewrite decode_loop_bytes.
  - cbn [mbind res_bind]. rewrite foldl_range. by destruct m.
  - apply Forall_forall. intros [k t] Hin%elem_of_range. by apply Hok.
Qed.
End Codec.

(** No input makes [Decode] panic. *)
Lemma decode_loop_total count off acc data : 0 <= off -> decode_loop count off acc data <> Panic.
Proof.
  revert off acc. induction count as [|count IH]; intros off acc Hoff; [done|]. cbn [decode_loop].
  destruct (Z.ltb_spec (blen data) (off + 4)); [done|].
  destruct (slice_total off (off + 4) data) as (h & -> & _); [lia..|]. cbn [mbind res_bind]. cbv zeta.
  pose proof (be_get_range h) as [Hh _].
  destruct (Z.ltb_spec (blen data) (off + 4 + be_get h + 8)); [done|].
  destruct (slice_total (off + 4) (off + 4 + be_get h) data) as (key & -> & _); [lia..|].
  cbn [mbind res_bind].
  destruct (slice_total (off + 4 + be_get h) (off + 4 + be_get h + 8) data) as (t & -> & _); [lia..|].
  cbn [mbind res_bind]. apply IH. lia.
Qed.

Lemma Decode_total data : Decode data <> Panic.
Proof.
  unfold Decode. destruct (Z.ltb_spec (blen data) 4); [done|].
  destruct (slice_total 0 4 data) as (h & -> & _); [lia..|]. cbn [mbind res_bind].
  pose proof (decode_loop_total (Z.to_nat (be_get h)) 4 ∅ data ltac:(lia)) as H'.
  by destruct (decode_loop _ _ _ _).
Qed.
End Ttl.
