(* ===== verification/Flock.v ===== *)
(** * The lock file: internal/flock/flock.go

    Processes of several programs race on one lock file.  Each system call of
    [Acquire], [Release] and [IsHeld] is an atomic step: the lock of flock(2)
    belongs to the inode that was opened, while [Release] removes whatever the
    path names.  Retrying with a clock and the text in the file are left out. *)
From S2P Require Import Prelude.

Module Flock.

Definition ErrLocked : error := errors_New "flock: database locked by another process".
Definition ErrNotLocked : error := errors_New "flock: not locked".

(** Where a process is in its calls; [ino] is the inode of its open file. *)
Inductive proc :=
  | Idle
  | Opened (ino : nat)        (* Acquire, between os.OpenFile and tryLock *)
  | Holding (ino : nat)       (* Acquire has returned a Lock *)
  | Released (ino : nat)      (* Release, between unlock/Close and os.Remove *)
  | ProbeOpened (ino : nat)   (* IsHeld, before tryLock *)
  | ProbeLocked (ino : nat).  (* IsHeld, before unlock *)

Record Sys := MkSys {
  path : option nat;          (* the inode the lock file names *)
  next_ino : nat;
  lock_of : gmap nat nat;     (* inode -> process with the exclusive lock *)
  procs : nat -> proc;
}.

Definition init : Sys := MkSys None 0 ∅ (fun _ => Idle).

Definition set_proc (p : nat) (q : proc) (s : Sys) : Sys :=
  MkSys (path s) (next_ino s) (lock_of s) (fun p' => if bool_decide (p' = p) then q else procs s p').

(** [os.OpenFile(path, O_CREATE|O_RDWR)]. *)
Definition open_create (s : Sys) : Sys * nat :=
  match path s with
  | Some ino => (s, ino)
  | None => (MkSys (Some (next_ino s)) (S (next_ino s)) (lock_of s) (procs s), next_ino s)
  end.

(** [flock(fd, LOCK_EX|LOCK_NB)]: succeeds when nobody has the inode's lock. *)
Definition tryLock (p ino : nat) (s : Sys) : option Sys :=
  match lock_of s !! ino with
  | None => Some (MkSys (path s) (next_ino s) (<[ino := p]> (lock_of s)) (procs s))
  | Some _ => None
  end.

(** [flock(fd, LOCK_UN)], or closing the file. *)
Definition unlock (ino : nat) (s : Sys) : Sys :=
  MkSys (path s) (next_ino s) (delete ino (lock_of s)) (procs s).

(** [os.Remove(l.path)]. *)
Definition remove_path (s : Sys) : Sys := MkSys None (next_ino s) (lock_of s) (procs s).

Inductive action := AOpen | ATryLock | AUnlock | ARemove | AProbe | AProbeLock | AProbeUnlock | ACrash.

(** One step of process [p] in each call; [None] when it is not at that point. *)
Definition acquire_step (p : nat) (a : action) (s : Sys) : option Sys :=
  match a, procs s p with
  | AOpen, Idle => let '(s', ino) := open_create s in Some (set_proc p (Opened ino) s')
  | ATryLock, Opened ino =>
      match tryLock p ino s with
      | Some s' => Some (set_proc p (Holding ino) s')
      | None => Some (set_proc p Idle s)     (* ErrLocked *)
      end
  | _, _ => None
  end.

Definition release_step (p : nat) (a : action) (s : Sys) : option Sys :=
  match a, procs s p with
  | AUnlock, Holding ino => Some (set_proc p (Released ino) (unlock ino s))
  | ARemove, Released ino => Some (set_proc p Idle (remove_path s))
  | _, _ => None
  end.

Definition is_held_step (p : nat) (a : action) (s : Sys) : option Sys :=
  match a, procs s p with
  | AProbe, Idle =>
      match path s with
      | Some ino => Some (set_proc p (ProbeOpened ino) s)
      | None => Some s                       (* false *)
      end
  | AProbeLock, ProbeOpened ino =>
      match tryLock p ino s with
      | Some s' => Some (set_proc p (ProbeLocked ino) s')
      | None => Some (set_proc p Idle s)     (* true *)
      end
  | AProbeUnlock, ProbeLocked ino => Some (set_proc p Idle (unlock ino s))
  | _, _ => None
  end.

(** The process dies, and the kernel closes its files. *)
Definition crash_step (p : nat) (s : Sys) : Sys :=
  match procs s p with
  | Holding ino | ProbeLocked ino => set_proc p Idle (unlock ino s)
  | _ => set_proc p Idle s
  end.

Definition step (p : nat) (a : action) (s : Sys) : option Sys :=
  match a with
  | AOpen | ATryLock => acquire_step p a s
  | AUnlock | ARemove => release_step p a s
  | AProbe | AProbeLock | AProbeUnlock => is_held_step p a s
  | ACrash => Some (crash_step p s)
  end.

(** The states an execution reaches; [ok] restricts the actions. *)
Inductive reaches (ok : action -> Prop) : Sys -> Prop :=
  | reaches_init : reaches ok init
  | reaches_step s s' p a : reaches ok s -> ok a -> step p a s = Some s' -> reaches ok s'.

(** Running a schedule. *)
Fixpoint run (l : list (nat * action)) (s : Sys) : option Sys :=
  match l with
  | [] => Some s
  | (p, a) :: l' => s' ← step p a s; run l' s'
  end.

(** The inode whose lock a process has, and the one it has open. *)
Definition locks (q : proc) : option nat :=
  match q with
  | Holding ino | ProbeLocked ino => Some ino
  | _ => None
  end.

Definition has_open (q : proc) : option nat :=
  match q with
  | Opened ino | Holding ino | ProbeOpened ino | ProbeLocked ino => Some ino
  | _ => None
  end.

(** ** Invariants *)

Definition lock_inv (s : Sys) : Prop :=
  forall ino p, lock_of s !! ino = Some p <-> locks (procs s p) = Some ino.

Definition path_inv (s : Sys) : Prop := forall p ino, has_open (procs s p) = Some ino -> path s = Some ino.

Lemma procs_set_eq p q s : procs (set_proc p q s) p = q.
Proof. cbn. by rewrite bool_decide_eq_true_2. Qed.

Lemma procs_set_ne p q s p' : p' <> p -> procs (set_proc p q s) p' = procs s p'.
Proof. intros. cbn. by rewrite bool_decide_eq_false_2. Qed.

(** Changing a process without touching locks. *)
Lemma lock_inv_set p q s : lock_inv s -> locks q = locks (procs s p) -> lock_inv (set_proc p q s).
Proof.
  intros H Hq ino p'. cbn [set_proc lock_of]. rewrite (H ino p'). destruct (decide (p' = p)) as [->|Hne].
  - by rewrite procs_set_eq, Hq.
  - by rewrite procs_set_ne.
Qed.

Lemma lock_inv_take p q ino s s' :
  lock_inv s -> locks (procs s p) = None -> tryLock p ino s = Some s' -> locks q = Some ino ->
  lock_inv (set_proc p q s').
Proof.
  unfold tryLock. intros H Hp Ht Hq. destruct (lock_of s !! ino) eqn:E; [done|]. injection Ht as <-.
  intros ino' p'. cbn [set_proc lock_of]. destruct (decide (p' = p)) as [->|Hne].
  - rewrite procs_set_eq, Hq, lookup_insert_Some. split; [|intros [= ->]; by left].
    intros [[-> _]|[_ Hl]]; [done|]. apply H in Hl. congruence.
  - rewrite procs_set_ne by done. cbn [procs]. rewrite lookup_insert_Some, <- (H ino' p'). split.
    + by intros [[_ <-]|[_ Hl]].
    + intros Hl. right. split; [congruence|done].
Qed.

Lemma lock_inv_drop p q ino s :
  lock_inv s -> locks (procs s p) = Some ino -> locks q = None ->
  lock_inv (set_proc p q (unlock ino s)).
Proof.
  intros H Hp Hq ino' p'. cbn [set_proc lock_of unlock]. rewrite lookup_delete_Some.
  destruct (decide (p' = p)) as [->|Hne].
  - rewrite procs_set_eq, Hq. split; [|done]. intros [Hne Hl]. apply H in Hl. congruence.
  - rewrite procs_set_ne by done. cbn [procs unlock]. rewrite (H ino' p'). split; [by intros []|].
    intros Hl. split; [|done]. intros ->. apply H in Hp, Hl. congruence.
Qed.

Lemma open_create_same s s' ino : open_create s = (s', ino) ->
  lock_of s' = lock_of s /\ procs s' = procs s /\ path s' = Some ino.
Proof. unfold open_create. destruct (path s) as [i|] eqn:E; by intros [= <- <-]. Qed.

Lemma step_lock_inv p a s s' : step p a s = Some s' -> lock_inv s -> lock_inv s'.
Proof.
  unfold step, acquire_step, release_step, is_held_step, crash_step. intros Hs H. destruct a, (procs s p) as [|ino|ino|ino|ino|ino] eqn:E; try done;
    repeat (case_match; try done); simplify_eq;
    first
      [ exact H
      | solve [apply lock_inv_set; [exact H|cbn; by rewrite E]]
      | solve [apply lock_inv_drop; [exact H|by rewrite E|done]]
      | solve [eapply lock_inv_take; [exact H|by rewrite E|eassumption|done]]
      | idtac ].
  match goal with Ho : open_create s = _ |- _ => apply open_create_same in Ho as (Hl & Hp & _) end.
  apply lock_inv_set; [|by rewrite Hp, E]. intros ino p'. by rewrite Hl, Hp.
Qed.

Lemma reaches_lock_inv ok s : reaches ok s -> lock_inv s.
Proof.
  induction 1 as [|s s' p a _ IH _ Hs]; [|by eapply step_lock_inv].
  intros ino p. cbn. split; [|done]. by rewrite (lookup_empty (M:=gmap nat)).
Qed.

Lemma path_inv_set p q s : path_inv s -> (forall ino, has_open q = Some ino -> path s = Some ino) ->
  path_inv (set_proc p q s).
Proof.
  intros H Hq p' ino. cbn [set_proc path]. destruct (decide (p' = p)) as [->|Hne].
  - rewrite procs_set_eq. apply Hq.
  - rewrite procs_set_ne by done. apply H.
Qed.

(** Without [os.Remove], every open file is the one the path names. *)
Lemma step_path_inv p a s s' : a <> ARemove -> step p a s = Some s' -> path_inv s -> path_inv s'.
Proof.
  unfold step, acquire_step, release_step, is_held_step, crash_step. intros Ha Hs H. pose proof (H p) as Hp.
  destruct a, (procs s p) as [|ino|ino|ino|ino|ino] eqn:E; try done;
    unfold open_create, tryLock in Hs; repeat (case_match; try done); simplify_eq;
    try exact H;
    try (apply path_inv_set; [exact H|]; cbn; intros; simplify_eq; by try apply Hp).
  intros p' ino'. cbn [path set_proc procs]. case_bool_decide; cbn; [intros; simplify_eq; done|].
  intros Hh. apply H in Hh. congruence.
Qed.

Lemma reaches_path_inv s : reaches (fun a => a <> ARemove) s -> path_inv s.
Proof.
  induction 1 as [|s s' p a _ IH Ha Hs]; [done|by eapply step_path_inv].
Qed.

Lemma holding_unique s p q ino :
  lock_inv s -> procs s p = Holding ino -> procs s q = Holding ino -> p = q.
Proof.
  intros H Hp Hq. assert (H1 : lock_of s !! ino = Some p) by (apply H; by rewrite Hp).
  assert (H2 : lock_of s !! ino = Some q) by (apply H; by rewrite Hq). congruence.
Qed.

Lemma run_reaches l s s' : reaches (fun _ => True) s -> run l s = Some s' -> reaches (fun _ => True) s'.
Proof.
  revert s. induction l as [|[p a] l IH]; intros s Hr; cbn [run]; [by intros [= <-]|].
  destruct (step p a s) as [s1|] eqn:E; [|done]. cbn. apply IH. by eapply reaches_step.
Qed.

(** Process 0 releases while process 1 has the file open; process 2 then creates
    a new one. *)
Definition race : list (nat * action) :=
  [(0, AOpen); (0, ATryLock); (1, AOpen); (0, AUnlock); (1, ATryLock); (0, ARemove); (2, AOpen);
   (2, ATryLock)]%nat.
End Flock.
