(* ===== verification/FlockFile.v ===== *)
(** * The lock file, function by function: internal/flock/flock.go

    [Flock] has the race between processes, one system call at a time.  Here
    every function is translated whole, over a machine with files, a table of
    the locks of flock(2) (inode to owner) and a clock, including the owner text
    in the file and the retry loop. *)
From S2P Require Import Prelude FileSys Segment.

Module FlockFile.

Definition lockFile : bytes := bs "LOCK".

Definition ErrLocked : error := errors_New "flock: database locked by another process".
Definition ErrNotLocked : error := errors_New "flock: not locked".

Record OS := MkOS {
  files : FileSys.FS;
  locks : gmap nat Z;      (* the owner of an inode's exclusive lock *)
  clock : Z;               (* nanoseconds *)
}.

Record Lock := MkLock { path : bytes * bytes; f : option nat }.

Definition sys {A} (m : M FileSys.FS A) : M OS A :=
  zoom files (fun s w => MkOS s (locks w) (clock w)) m.

Definition set_locks (l : gmap nat Z) (w : OS) : OS := MkOS (files w) l (clock w).

(** ** Numbers in the file *)

Definition ErrSyntax : error := errors_New "invalid syntax".
Definition ErrRange : error := errors_New "value out of range".

Fixpoint digits (acc : Z) (l : bytes) : option Z :=
  match l with
  | [] => Some acc
  | c :: l' =>
      if (byteZ c <? 48) || (57 <? byteZ c) then None
      else digits (acc * 10 + (byteZ c - 48)) l'
  end.

(** [strconv.Atoi]: the value goes with the error (0 for a syntax error, the
    nearest int64 when out of range). *)
Definition Atoi (s : bytes) : Z * option error :=
  let '(neg, d) :=
    match s with
    | Byte.x2d :: d => (true, d)
    | Byte.x2b :: d => (false, d)
    | _ => (false, s)
    end in
  match d, digits 0 d with
  | [], _ | _, None => (0, Some ErrSyntax)
  | _, Some v =>
      if neg
      then (if 2 ^ 63 <? v then (- 2 ^ 63, Some ErrRange) else (- v, None))
      else (if 2 ^ 63 <=? v then (2 ^ 63 - 1, Some ErrRange) else (v, None))
  end.

(** [strings.Split(s, "\n")]. *)
Definition newline : byte := Byte.x0a.

Fixpoint split_lines (l : bytes) : list bytes :=
  match l with
  | [] => [[]]
  | c :: l' =>
      if bool_decide (c = newline) then [] :: split_lines l'
      else match split_lines l' with
           | [] => [[c]]
           | line :: rest => (c :: line) :: rest
           end
  end.

(** [strings.HasPrefix] and [strings.TrimPrefix]. *)
Fixpoint after_prefix (p l : bytes) : option bytes :=
  match p, l with
  | [], _ => Some l
  | a :: p', b :: l' => if bool_decide (a = b) then after_prefix p' l' else None
  | _ :: _, [] => None
  end.

(** The loop over the lines: the number on the first line "pid=...". *)
Fixpoint find_pid (lines : list bytes) : option (Z * option error) :=
  match lines with
  | [] => None
  | line :: rest =>
      match after_prefix (bs "pid=") line with
      | Some n => Some (Atoi n)
      | None => find_pid rest
      end
  end.

(** ** Locking *)

Definition tryLock (owner : Z) (ino : nat) : M OS unit :=
  x ← sys FileSys.pop_fault;
  match x with
  | FileSys.FNone => act (fun w =>
      match locks w !! ino with
      | Some _ => (w, Err ErrLocked)
      | None => (set_locks (<[ino := owner]> (locks w)) w, Ok tt)
      end)
  | _ => throw (Errorf "flock: flock: %w" FileSys.EIO)
  end.

Definition unlock (ino : nat) : M OS unit :=
  x ← sys FileSys.pop_fault;
  match x with
  | FileSys.FNone => modify (fun w => set_locks (delete ino (locks w)) w)
  | _ => throw FileSys.EIO
  end.

(** Closing the file of a lock gives the lock up, whatever [close] returns. *)
Definition close_locked (ino : nat) : M OS unit :=
  ignore (sys (FileSys.Close ino)) ≫= fun _ =>
  modify (fun w => set_locks (delete ino (locks w)) w).

(** The text for process [pid] at the time [stamp] (in RFC 3339). *)
Definition owner_text (pid : Z) (stamp : bytes) : bytes :=
  bs "pid=" ++ Segment.itoa pid ++ [newline] ++ bs "time=" ++ stamp ++ [newline].

Section Process.
Context (pid : Z) (stamp : Z -> bytes).  (* os.Getpid and Time.Format(RFC3339) *)

Definition Acquire (dir : bytes) : M OS Lock :=
  wrapping "flock: mkdir %s: %w" (sys (FileSys.MkdirAll dir)) ≫= fun _ =>
  ino ← wrapping "flock: open %s: %w" (sys (FileSys.OpenAppend dir lockFile));
  r ← attempt (tryLock pid ino);
  match r with
  | inl err => ignore (sys (FileSys.Close ino)) ≫= fun _ => throw err
  | inr _ =>
      w ← get;
      t ← attempt (sys (FileSys.Truncate0 ino));
      (match t with
       | inl _ => mret tt
       | inr _ => ignore (sys (FileSys.WriteAt0 ino (owner_text pid (stamp (clock w)))))
       end) ≫= fun _ =>
      mret (MkLock (dir, lockFile) (Some ino))
  end.

(** What the other processes and the clock do during the [k]-th sleep. *)
Context (others : nat -> OS -> OS).

(** [time.Sleep(interval)]: at least the interval passes. *)
Definition Sleep (k : nat) (interval : Z) : M OS unit :=
  modify (fun w =>
    let w' := others k w in
    MkOS (files w') (locks w') (Z.max (clock w') (clock w + Z.max 0 interval))).

Definition ErrTimeout : error := Errorf "flock: timed out after %v: %w" ErrLocked.

(** The loop, from attempt [k]; [fuel] bounds the attempts. *)
Fixpoint retry (fuel k : nat) (deadline interval : Z) (dir : bytes) : M OS Lock :=
  match fuel with
  | O => lift_res Panic
  | S fuel' =>
      r ← attempt (Acquire dir);
      match r with
      | inr l => mret l
      | inl err =>
          if negb (errors_Is err ErrLocked) then throw err
          else
            w ← get;
            if deadline <? clock w then throw ErrTimeout
            else Sleep k interval ≫= fun _ => retry fuel' (S k) deadline interval dir
      end
  end.

(** With a positive interval the deadline is passed after at most
    [timeout / interval + 1] sleeps. *)
Definition AcquireWithRetry (dir : bytes) (timeout interval : Z) : M OS Lock :=
  w ← get;
  let deadline := clock w + timeout in
  retry (Z.to_nat (timeout / interval) + 2) 0 deadline interval dir.
End Process.

(** ** Release and queries *)

(** Methods of a [Lock] object that another part of the state holds. *)
Definition os_part {A} (m : M OS A) : M (OS * Lock) A := zoom fst (fun w x => (w, x.2)) m.

Definition Release : M (OS * Lock) unit :=
  x ← get;
  match f x.2 with
  | None => throw ErrNotLocked
  | Some ino =>
      r ← attempt (os_part (unlock ino));
      match r with
      | inl err => os_part (close_locked ino) ≫= fun _ => throw err
      | inr _ =>
          os_part (close_locked ino) ≫= fun _ =>
          modify (fun x => (x.1, MkLock (path x.2) None)) ≫= fun _ =>
          ignore (os_part (sys (FileSys.Remove (path x.2).1 (path x.2).2)))
      end
  end.

Definition Path (l : Lock) : bytes * bytes := path l.

Definition OwnerPID (l : Lock) : M OS Z :=
  match f l with
  | None => mret 0
  | Some ino =>
      content ← sys (FileSys.ReadAtMost ino 128);
      mret (match find_pid (split_lines content) with
            | Some (v, _) => v
            | None => 0
            end)
  end.

(** [IsHeld] of process [pid]; the deferred close comes last. *)
Definition IsHeld (pid : Z) (dir : bytes) : M OS bool :=
  r ← attempt (sys (FileSys.Open dir lockFile));
  match r with
  | inl _ => mret false
  | inr ino =>
      t ← attempt (tryLock pid ino);
      match t with
      | inl _ => ignore (sys (FileSys.Close ino)) ≫= fun _ => mret true
      | inr _ =>
          ignore (unlock ino) ≫= fun _ => close_locked ino ≫= fun _ => mret false
      end
  end.

(** The result with the error that goes with it. *)
Definition ReadOwner (dir : bytes) : M OS (Z * option error) :=
  r ← attempt (sys (FileSys.ReadFile dir lockFile));
  mret (match r with
        | inl err => (0, Some err)
        | inr data =>
            match find_pid (split_lines data) with
            | Some v => v
            | None => (0, Some (errors_New "flock: no pid in lock file"))
            end
        end).
End FlockFile.
