(* ===== verification/FlockOps.v ===== *)
(** * Lock file operations: owner text, retrying *)
From S2P Require Import Prelude FileSys Segment Wp FlockFile.
Import Wp FlockFile.

Module FlockOps.

(** ** Numbers *)

Lemma digits_app acc l k :
  digits acc (l ++ k) = match digits acc l with Some a => digits a k | None => None end.
Proof.
  revert acc. induction l as [|c l IH]; intros acc; cbn; [done|]. by case_match.
Qed.

Lemma digits_dec fuel n :
  0 <= n < 10 ^ Z.of_nat fuel -> (0 < fuel)%nat ->
  digits 0 (Segment.dec fuel n) = Some n
  /\ exists c l, Segment.dec fuel n = c :: l /\ 48 <= byteZ c <= 57.
Proof.
  revert n. induction fuel as [|fuel IH]; intros n Hn Hf; [lia|]. cbn [Segment.dec].
  destruct (Z.ltb_spec n 10) as [Hlt|Hge].
  - pose proof (Segment.byteZ_digit n ltac:(lia)) as Hd. split.
    + cbn [digits]. rewrite Hd.
      destruct (Z.ltb_spec (48 + n) 48), (Z.ltb_spec 57 (48 + n)); cbn [orb]; try lia. f_equal. lia.
    + exists (Segment.digit n), []. split; [done|]. lia.
  - destruct fuel as [|fuel]; [cbn in Hn; lia|].
    rewrite Nat2Z.inj_succ, Z.pow_succ_r in Hn by lia.
    destruct (IH (n / 10)) as [Hv (c & l & Hl & Hc)]; [|lia|].
    { split; [apply Z.div_pos; lia|]. apply Z.div_lt_upper_bound; lia. }
    pose proof (Z.mod_pos_bound n 10 ltac:(lia)) as Hm.
    pose proof (Segment.byteZ_digit (n mod 10) Hm) as Hd. split.
    + rewrite digits_app, Hv. cbn [digits]. rewrite Hd.
      destruct (Z.ltb_spec (48 + n mod 10) 48), (Z.ltb_spec 57 (48 + n mod 10)); cbn [orb]; try lia.
      f_equal. pose proof (Z.div_mod n 10 ltac:(lia)). lia.
    + exists c, (l ++ [Segment.digit (n mod 10)]). by rewrite Hl.
Qed.

Lemma Atoi_itoa n : - 2 ^ 63 <= n < 2 ^ 63 -> Atoi (Segment.itoa n) = (n, None).
Proof.
  intros Hn. unfold Segment.itoa, Segment.decimal.
  assert (Hp : forall m, 0 <= m <= 2 ^ 63 -> 0 <= m < 10 ^ Z.of_nat 20) by (intros; cbn; lia).
  destruct (Z.ltb_spec n 0) as [Hneg|Hpos].
  - destruct (digits_dec 20 (- n) (Hp (- n) ltac:(lia)) ltac:(lia)) as [Hv (c & l & Hl & Hc)].
    change (bs "-") with [Byte.x2d]. cbn [app]. unfold Atoi. rewrite Hl in Hv |- *. rewrite Hv.
    destruct (Z.ltb_spec (2 ^ 63) (- n)); [lia|]. f_equal. lia.
  - destruct (digits_dec 20 n (Hp n ltac:(lia)) ltac:(lia)) as [Hv (c & l & Hl & Hc)].
    rewrite Hl in Hv |- *. unfold Atoi.
    assert (Hsign : c <> Byte.x2d /\ c <> Byte.x2b) by (split; intros ->; cbn in Hc; lia).
    assert (Hm : forall A (x y z : A), match c with Byte.x2d => x | Byte.x2b => y | _ => z end = z)
      by (intros; destruct c; try done; by destruct Hsign).
    rewrite Hm, Hv. destruct (Z.leb_spec (2 ^ 63) n); [lia|done].
Qed.

(** ** The owner line *)

Lemma split_lines_line l rest :
  Forall (fun c => c <> newline) l -> split_lines (l ++ newline :: rest) = l :: split_lines rest.
Proof.
  induction 1 as [|c l Hc _ IH]; cbn [split_lines app].
  - by rewrite bool_decide_eq_true_2.
  - by rewrite bool_decide_eq_false_2, IH.
Qed.

Lemma digits_no_newline acc l v : digits acc l = Some v -> Forall (fun c => c <> newline) l.
Proof.
  revert acc. induction l as [|c l IH]; intros acc H; [constructor|]. cbn in H.
  destruct (_ || _) eqn:E; [done|]. constructor; [|by eapply IH].
  intros ->. done.
Qed.

Lemma itoa_no_newline n : - 2 ^ 63 <= n < 2 ^ 63 -> Forall (fun c => c <> newline) (Segment.itoa n).
Proof.
  intros Hn. unfold Segment.itoa, Segment.decimal.
  assert (Hp : forall m, 0 <= m <= 2 ^ 63 -> Forall (fun c => c <> newline) (Segment.dec 20 m)).
  { intros m Hm. destruct (digits_dec 20 m) as [Hv _]; [cbn; lia|lia|]. by eapply digits_no_newline. }
  destruct (Z.ltb_spec n 0); [|apply Hp; lia]. apply Forall_app. split; [by repeat constructor|].
  apply Hp. lia.
Qed.

Lemma length_dec fuel n : (length (Segment.dec fuel n) <= fuel)%nat.
Proof.
  revert n. induction fuel as [|fuel IH]; intros n; cbn [Segment.dec]; [done|].
  destruct (n <? 10); cbn; [lia|]. rewrite length_app. cbn. specialize (IH (n / 10)). lia.
Qed.

Lemma length_itoa n : (length (Segment.itoa n) <= 21)%nat.
Proof.
  unfold Segment.itoa, Segment.decimal. pose proof (length_dec 20 n). pose proof (length_dec 20 (- n)).
  destruct (n <? 0); [|lia]. rewrite length_app. cbn [length bs]. change (length (bs "-")) with 1%nat. lia.
Qed.

(** The owner is found in the text, and in its first 128 bytes. *)
Lemma find_pid_text n rest :
  - 2 ^ 63 <= n < 2 ^ 63 ->
  find_pid (split_lines (bs "pid=" ++ Segment.itoa n ++ newline :: rest)) = Some (n, None).
Proof.
  intros Hn. rewrite app_assoc, split_lines_line.
  - cbn [find_pid]. assert (Ha : after_prefix (bs "pid=") (bs "pid=" ++ Segment.itoa n) = Some (Segment.itoa n)) by done.
    rewrite Ha. by rewrite Atoi_itoa.
  - apply Forall_app. split; [by repeat constructor|]. by apply itoa_no_newline.
Qed.

Lemma find_pid_owner n stamp k :
  - 2 ^ 63 <= n < 2 ^ 63 -> (128 <= k)%nat ->
  find_pid (split_lines (take k (owner_text n stamp))) = Some (n, None).
Proof.
  intros Hn Hk. unfold owner_text.
  set (rest := bs "time=" ++ _). pose proof (length_itoa n).
  assert (Hs : bs "pid=" ++ Segment.itoa n ++ [newline] ++ rest = (bs "pid=" ++ Segment.itoa n ++ [newline]) ++ rest)
    by (by rewrite <- !app_assoc).
  rewrite Hs, take_app_ge.
  2:{ rewrite !length_app. change (length (bs "pid=")) with 4%nat. cbn [length]. lia. }
  rewrite <- !app_assoc. by apply find_pid_text.
Qed.

(** ** Acquiring *)

(** The lock file can be opened or created, and calls work. *)
Definition openable (dir : bytes) (w : OS) : Prop :=
  FileSys.faults (files w) = [] /\ FileSys.names (files w) !! (dir, lockFile) <> Some FileSys.DDir.

(** The inode that opening the lock file gives. *)
Definition target (dir : bytes) (w : OS) : nat :=
  match FileSys.names (files w) !! (dir, lockFile) with
  | Some (FileSys.DFile ino) => ino
  | _ => FileSys.next (files w)
  end.

Definition lock_free (dir : bytes) (w : OS) : Prop := locks w !! target dir w = None.

Lemma WriteAt0_none ino b s :
  FileSys.faults s = [] -> FileSys.content s ino = [] ->
  FileSys.WriteAt0 ino b s = (FileSys.file_holds s ino b, Ok (blen b)).
Proof.
  intros Hq Hc. unfold FileSys.WriteAt0. mstep (FileSys.pop_fault_none s Hq).
  rewrite (M_bind_Ok _ _ _ (FileSys.file_holds s ino b) tt); [done|].
  unfold modify. rewrite Hc, firstn_all, drop_nil, app_nil_r. done.
Qed.

(** What [Acquire] does to the files before it takes the lock. *)
Definition opened (dir : bytes) (s : FileSys.FS) : FileSys.FS :=
  let s := FileSys.MkFS ({[dir]} ∪ FileSys.dirs s) (FileSys.names s) (FileSys.data s)
             (FileSys.next s) (FileSys.faults s) in
  match FileSys.names s !! (dir, lockFile) with
  | Some _ => s
  | None => (FileSys.create dir lockFile s).1
  end.

Definition with_files (s : FileSys.FS) (w : OS) : OS := MkOS s (locks w) (clock w).

Lemma sys_run {A} (m : M FileSys.FS A) (w w' : OS) s r :
  m (files w) = (s, r) -> w' = with_files s w -> sys m w = (w', r).
Proof. intros H ->. unfold sys, zoom. by rewrite H. Qed.

Lemma opened_spec (dir : bytes) (w : OS) : openable dir w ->
  wrapping "flock: mkdir %s: %w" (sys (FileSys.MkdirAll dir)) w
    = (with_files (FileSys.MkFS ({[dir]} ∪ FileSys.dirs (files w)) (FileSys.names (files w))
         (FileSys.data (files w)) (FileSys.next (files w)) (FileSys.faults (files w))) w, Ok tt)
  /\ wrapping "flock: open %s: %w" (sys (FileSys.OpenAppend dir lockFile))
      (with_files (FileSys.MkFS ({[dir]} ∪ FileSys.dirs (files w)) (FileSys.names (files w))
         (FileSys.data (files w)) (FileSys.next (files w)) (FileSys.faults (files w))) w)
    = (with_files (opened dir (files w)) w, Ok (target dir w))
  /\ FileSys.faults (opened dir (files w)) = []
  /\ FileSys.names (opened dir (files w)) !! (dir, lockFile) = Some (FileSys.DFile (target dir w)).
Proof.
  intros [Hq Hd]. unfold opened, target. cbn [FileSys.names]. split_and!.
  - eapply wrapping_Ok, sys_run; [|done]. unfold FileSys.MkdirAll. by rewrite FileSys.syscall_none.
  - eapply wrapping_Ok, (sys_run _ _ _ (opened dir (files w))); [|done]. unfold opened.
    unfold FileSys.OpenAppend. cbn [files with_files].
    rewrite FileSys.syscall_none by done. cbn [FileSys.names FileSys.dirs].
    destruct (FileSys.names (files w) !! (dir, lockFile)) as [[ino|]|] eqn:E; [done|done|].
    by rewrite bool_decide_eq_true_2 by set_solver.
  - by destruct (FileSys.names (files w) !! (dir, lockFile)) as [[ino|]|] eqn:E.
  - destruct (FileSys.names (files w) !! (dir, lockFile)) as [[ino|]|] eqn:E; [done|done|].
    cbn. apply lookup_insert_eq.
Qed.

Section Acquire.
Context (pid : Z) (stamp : Z -> bytes).
Implicit Types (dir : bytes) (w : OS).

Lemma tryLock_none ino w : FileSys.faults (files w) = [] ->
  tryLock pid ino w = match locks w !! ino with
                      | Some _ => (w, Err ErrLocked)
                      | None => (set_locks (<[ino := pid]> (locks w)) w, Ok tt)
                      end.
Proof.
  intros Hq. unfold tryLock. assert (H : sys FileSys.pop_fault w = (w, Ok FileSys.FNone)).
  { destruct w. by apply (sys_run _ _ _ _ _ (FileSys.pop_fault_none _ Hq)). }
  by rewrite (M_bind_Ok _ _ _ _ _ H).
Qed.

(** The state of the process that took the lock. *)
Definition acquired dir w : OS :=
  MkOS (FileSys.file_holds (opened dir (files w)) (target dir w) (owner_text pid (stamp (clock w))))
    (<[target dir w := pid]> (locks w)) (clock w).

Lemma Acquire_free dir w : openable dir w -> lock_free dir w ->
  Acquire pid stamp dir w
    = (acquired dir w, Ok (MkLock (dir, lockFile) (Some (target dir w)))).
Proof.
  intros Ho Hf. destruct (opened_spec dir w Ho) as (Hm & Hop & Hq & _).
  unfold Acquire. mstep Hm. mstep Hop.
  set (w1 := with_files (opened dir (files w)) w).
  set (w2 := set_locks (<[target dir w := pid]> (locks w)) w1).
  rewrite (M_bind_Ok _ _ _ w2 (inr tt)).
  2:{ apply attempt_Ok. rewrite tryLock_none by done. cbn. unfold lock_free in Hf. by rewrite Hf. }
  rewrite (M_bind_Ok get _ w2 w2 w2) by done.
  set (w3 := with_files (FileSys.file_holds (opened dir (files w)) (target dir w) []) w2).
  rewrite (M_bind_Ok _ _ _ w3 (inr tt)).
  2:{ eapply attempt_Ok, sys_run; [|done]. unfold FileSys.Truncate0. by rewrite FileSys.syscall_none. }
  rewrite (M_bind_Ok _ _ w3 (acquired dir w) tt); [done|].
  eapply ignore_Ok, sys_run; [apply WriteAt0_none; [done|]|].
  - apply FileSys.content_Some, lookup_insert_eq.
  - unfold acquired, with_files, FileSys.file_holds, FileSys.set_data. cbn. by rewrite insert_insert_eq.
Qed.

Lemma Acquire_busy dir w q : openable dir w -> locks w !! target dir w = Some q ->
  Acquire pid stamp dir w = (with_files (opened dir (files w)) w, Err ErrLocked).
Proof.
  intros Ho Hf. destruct (opened_spec dir w Ho) as (Hm & Hop & Hq & _).
  unfold Acquire. mstep Hm. mstep Hop.
  set (w1 := with_files (opened dir (files w)) w).
  rewrite (M_bind_Ok _ _ _ w1 (inl ErrLocked)).
  2:{ apply attempt_Err. rewrite tryLock_none by done. cbn. by rewrite Hf. }
  rewrite (M_bind_Ok _ _ _ w1 tt); [done|]. eapply ignore_Ok, sys_run.
  { unfold FileSys.Close. by rewrite FileSys.syscall_none. } done.
Qed.

(** ** Acquiring when calls fail *)

Lemma wp_sys {A} (m : M FileSys.FS A) w (Q : OS -> res A -> Prop) :
  (forall s, (m s).2 <> Panic) ->
  (forall s r, r <> Panic -> Q (with_files s w) r) -> wp (sys m) w Q.
Proof. intros Hm HQ. apply wp_zoom. apply HQ, Hm. Qed.

Lemma syscall_total {A} (m : M FileSys.FS A) s :
  (forall s, (m s).2 <> Panic) -> (FileSys.syscall m s).2 <> Panic.
Proof.
  intros Hm. unfold FileSys.syscall, mbind, M_bind, FileSys.pop_fault.
  destruct (FileSys.faults s) as [|[| |n] l]; cbn; [apply Hm|apply Hm|done|done].
Qed.

Lemma OpenAppend_total dir name s : (FileSys.OpenAppend dir name s).2 <> Panic.
Proof. apply syscall_total. intros s'. cbn. by repeat case_match. Qed.

Lemma WriteAt0_total ino b s : (FileSys.WriteAt0 ino b s).2 <> Panic.
Proof.
  unfold FileSys.WriteAt0, mbind, M_bind, FileSys.pop_fault.
  by destruct (FileSys.faults s) as [|[| |n] l].
Qed.

Lemma wp_tryLock ino w (Q : OS -> res unit -> Prop) :
  (forall s e, Q (with_files s w) (Err e)) ->
  (forall s, locks w !! ino = None -> Q (MkOS s (<[ino := pid]> (locks w)) (clock w)) (Ok tt)) ->
  wp (tryLock pid ino) w Q.
Proof.
  intros He Ho. apply wp_bind, wp_zoom, wp_pop. intros fl [| |n]; cbn; [|apply He|apply He].
  unfold act, wp. cbn. destruct (locks w !! ino) eqn:E; [apply He|by apply Ho].
Qed.

(** Whatever fails, [Acquire] returns; it took the lock of its file, or it left
    the locks as they were. *)
Lemma wp_Acquire dir w (Q : OS -> res Lock -> Prop) :
  (forall s e, Q (with_files s w) (Err e)) ->
  (forall s ino, locks w !! ino = None ->
     Q (MkOS s (<[ino := pid]> (locks w)) (clock w)) (Ok (MkLock (dir, lockFile) (Some ino)))) ->
  wp (Acquire pid stamp dir) w Q.
Proof.
  intros He Ho. apply wp_bind, wp_wrapping, wp_sys; [intros s; by apply syscall_total|].
  intros s [[]|e|] Hr; [|apply He|done]. cbn.
  apply wp_bind, wp_wrapping, wp_sys; [apply OpenAppend_total|].
  intros s1 [ino|e|] Hr1; [|apply He|done]. cbn.
  apply wp_bind, wp_attempt, wp_tryLock; cbn.
  - intros s0 e. apply wp_bind, wp_ignore, wp_sys; [intros s'; by apply syscall_total|].
    intros s2 r2 Hr2. split; [done|]. apply He.
  - intros s0 Hl. apply wp_bind. unfold get, wp at 1. cbn.
    apply wp_bind, wp_attempt, wp_sys; [intros s'; by apply syscall_total|].
    intros s2 [[]|e|] Hr2; [| |done]; cbn; apply wp_bind.
    + apply wp_ignore, wp_sys; [apply WriteAt0_total|]. intros s3 r3 Hr3. split; [done|].
      by apply Ho.
    + by apply wp_ret, Ho.
Qed.
End Acquire.

(** ** Retrying *)

Section Retry.
Context (pid : Z) (stamp : Z -> bytes) (others : nat -> OS -> OS).
Implicit Types (dir : bytes) (w : OS).

(** The machine before the [k]-th attempt of a loop whose earlier attempts failed. *)
Fixpoint before (interval : Z) (dir : bytes) (k : nat) (w : OS) : OS :=
  match k with
  | O => w
  | S k' => (Sleep others k' interval (Acquire pid stamp dir (before interval dir k' w)).1).1
  end.

(** Whatever the other processes do, the loop ends: with the lock, after the
    deadline, or with the error of a call that failed. *)
Lemma wp_retry fuel k deadline interval dir w :
  0 < interval -> (0 < fuel)%nat -> deadline < clock w + (Z.of_nat fuel - 1) * interval ->
  wp (retry pid stamp others fuel k deadline interval dir) w (fun w' r =>
    match r with
    | Ok l => exists ino, l = MkLock (dir, lockFile) (Some ino) /\ locks w' !! ino = Some pid
    | Err e => (e = ErrTimeout /\ deadline < clock w') \/ errors_Is e ErrLocked = false
    | Panic => False
    end).
Proof.
  intros Hi. revert k w. induction fuel as [|fuel IH]; intros k w Hp Hf; [lia|]. cbn [retry].
  apply wp_bind, wp_attempt, wp_Acquire; cbn.
  2:{ intros s ino Hl. exists ino. split; [done|]. apply lookup_insert_eq. }
  intros s e. destruct (errors_Is e ErrLocked) eqn:He; cbn [negb]; [|by apply wp_throw; right].
  apply wp_bind. unfold get, wp at 1. cbn.
  destruct (Z.ltb_spec deadline (clock w)) as [Hd|Hd]; [by apply wp_throw; left|].
  apply wp_bind. unfold Sleep, modify, wp at 1. cbn. apply IH; cbn.
  - destruct fuel as [|fuel']; [|apply Nat.lt_0_succ]. cbn [Z.of_nat] in Hf. lia.
  - rewrite (Nat2Z.inj_succ fuel) in Hf. lia.
Qed.

Lemma fuel_enough timeout interval now :
  0 < interval ->
  now + timeout < now + (Z.of_nat (Z.to_nat (timeout / interval) + 2) - 1) * interval.
Proof.
  intros Hi. pose proof (Z.mul_succ_div_gt timeout interval Hi).
  assert (timeout / interval <= Z.of_nat (Z.to_nat (timeout / interval))) by lia.
  nia.
Qed.

(** A lock that is free at an attempt before the deadline is taken. *)
Lemma retry_Ok fuel k j deadline interval dir w :
  0 < interval -> (0 < fuel)%nat ->
  let b i := before interval dir (i + k) w in
  deadline < clock (b 0%nat) + (Z.of_nat fuel - 1) * interval ->
  (forall i, (i <= j)%nat -> openable dir (b i)) ->
  (forall i, (i < j)%nat -> clock (b i) <= deadline) ->
  lock_free dir (b j) ->
  exists i, (i <= j)%nat /\ lock_free dir (b i) /\
    retry pid stamp others fuel k deadline interval dir (b 0%nat)
      = (acquired pid stamp dir (b i), Ok (MkLock (dir, lockFile) (Some (target dir (b i))))).
Proof.
  intros Hi. revert k j. induction fuel as [|fuel IH]; intros k j Hp b Hf Ho Hc Hj; [lia|].
  cbn [retry]. pose proof (Ho 0%nat ltac:(lia)) as Ho0.
  destruct (locks (b 0%nat) !! target dir (b 0%nat)) as [q|] eqn:Hl.
  2:{ exists 0%nat. split_and!; [lia|done|].
      mstep (attempt_Ok _ _ _ _ (Acquire_free pid stamp dir _ Ho0 Hl)). done. }
  destruct j as [|j]; [unfold lock_free in Hj; congruence|].
  pose proof (Acquire_busy pid stamp dir _ q Ho0 Hl) as Ha.
  mstep (attempt_Err _ _ _ _ Ha). cbn [negb].
  change (errors_Is ErrLocked ErrLocked) with true. cbn [negb].
  set (w1 := with_files (opened dir (files (b 0%nat))) (b 0%nat)) in *.
  rewrite (M_bind_Ok get _ w1 w1 w1) by done.
  pose proof (Hc 0%nat ltac:(lia)) as Hc0. change (clock w1) with (clock (b 0%nat)).
  rewrite (proj2 (Z.ltb_ge _ _)) by done.
  assert (Hs : b 1%nat = (Sleep others k interval w1).1).
  { change (b 1%nat) with (Sleep others k interval (Acquire pid stamp dir (b 0%nat)).1).1. by rewrite Ha. }
  rewrite (M_bind_Ok _ _ _ (b 1%nat) tt) by (by rewrite Hs).
  assert (Hb : forall i, before interval dir (i + S k) w = b (S i)).
  { intros i. unfold b. f_equal. lia. }
  destruct (IH (S k) j) as (i & Hij & Hfree & Hr).
  - destruct fuel as [|fuel']; [|apply Nat.lt_0_succ]. cbn [Z.of_nat] in Hf. lia.
  - rewrite Hb, Hs. cbn [Sleep modify fst clock]. change (clock w1) with (clock (b 0%nat)). lia.
  - intros i Hle. rewrite Hb. apply Ho. lia.
  - intros i Hlt. rewrite Hb. apply Hc. lia.
  - by rewrite Hb.
  - exists (S i). rewrite !Hb in *. split_and!; [lia|done|]. exact Hr.
Qed.
End Retry.

(** ** Queries and release *)

Lemma with_files_id (w : OS) : with_files (files w) w = w.
Proof. by destruct w. Qed.

Section Held.
Context (pid : Z) (stamp : bytes) (dir : bytes) (ino : nat) (w : OS).
Hypothesis no_faults : FileSys.faults (files w) = [].
Hypothesis named : FileSys.names (files w) !! (dir, lockFile) = Some (FileSys.DFile ino).

Lemma open_lock : sys (FileSys.Open dir lockFile) w = (w, Ok ino).
Proof.
  eapply sys_run; [|symmetry; apply with_files_id].
  by apply (FileSys.Open_file (files w) (dir, lockFile)).
Qed.

Lemma close_lock i : ignore (sys (FileSys.Close i)) w = (w, Ok tt).
Proof.
  eapply ignore_Ok, sys_run; [|symmetry; apply with_files_id].
  unfold FileSys.Close. by rewrite FileSys.syscall_none.
Qed.

Lemma unlock_none i : unlock i w = (set_locks (delete i (locks w)) w, Ok tt).
Proof.
  unfold unlock. assert (H : sys FileSys.pop_fault w = (w, Ok FileSys.FNone)).
  { eapply sys_run; [by apply FileSys.pop_fault_none|symmetry; apply with_files_id]. }
  by rewrite (M_bind_Ok _ _ _ _ _ H).
Qed.

Section Owner.
Hypothesis pid_range : - 2 ^ 63 <= pid < 2 ^ 63.
Hypothesis text : FileSys.data (files w) !! ino = Some (owner_text pid stamp).

Lemma OwnerPID_held : OwnerPID (MkLock (dir, lockFile) (Some ino)) w = (w, Ok pid).
Proof.
  unfold OwnerPID. cbn [f].
  assert (H : sys (FileSys.ReadAtMost ino 128) w = (w, Ok (take 128 (owner_text pid stamp)))).
  { eapply sys_run; [|symmetry; apply with_files_id]. unfold FileSys.ReadAtMost.
    rewrite (M_bind_Ok _ _ _ _ _ (FileSys.pop_fault_none _ no_faults)). unfold act.
    by rewrite (FileSys.content_Some _ _ _ text). }
  rewrite (M_bind_Ok _ _ _ _ _ H). by rewrite find_pid_owner.
Qed.

Lemma ReadOwner_held : ReadOwner dir w = (w, Ok (pid, None)).
Proof.
  unfold ReadOwner.
  assert (H : sys (FileSys.ReadFile dir lockFile) w = (w, Ok (owner_text pid stamp))).
  { eapply sys_run; [|symmetry; apply with_files_id]. unfold FileSys.ReadFile.
    rewrite (M_bind_Ok _ _ _ _ _ (FileSys.Open_file (files w) (dir, lockFile) ino no_faults named)).
    rewrite (M_bind_Ok _ _ _ _ _ (FileSys.stream_none ino _ (files w) no_faults text)). cbn [rerr rem].
    rewrite (M_bind_Ok _ _ _ (files w) tt); [done|].
    eapply ignore_Ok. unfold FileSys.Close. by rewrite FileSys.syscall_none. }
  rewrite (M_bind_Ok _ _ _ _ _ (attempt_Ok _ _ _ _ H)).
  assert (Ht : find_pid (split_lines (owner_text pid stamp)) = Some (pid, None)).
  { rewrite <- (firstn_all (owner_text pid stamp)).
    destruct (decide (128 <= length (owner_text pid stamp))%nat); [by apply find_pid_owner|].
    rewrite firstn_all, <- (take_ge (owner_text pid stamp) 128) by lia. by apply find_pid_owner. }
  by rewrite Ht.
Qed.
End Owner.

Lemma IsHeld_held q p : locks w !! ino = Some p -> IsHeld q dir w = (w, Ok true).
Proof.
  intros Hl. unfold IsHeld. rewrite (M_bind_Ok _ _ _ _ _ (attempt_Ok _ _ _ _ open_lock)).
  rewrite (M_bind_Ok _ _ _ w (inl ErrLocked)).
  2:{ apply attempt_Err. rewrite tryLock_none by done. by rewrite Hl. }
  by rewrite (M_bind_Ok _ _ _ _ _ (close_lock ino)).
Qed.
End Held.

Lemma not_named dir w : FileSys.faults (files w) = [] ->
  FileSys.names (files w) !! (dir, lockFile) = None ->
  sys (FileSys.Open dir lockFile) w = (w, Err FileSys.ErrNotExist).
Proof.
  intros Hq Hn. eapply sys_run; [|symmetry; apply with_files_id].
  unfold FileSys.Open. by rewrite FileSys.syscall_none, Hn.
Qed.

Lemma ReadOwner_gone dir w : FileSys.faults (files w) = [] ->
  FileSys.names (files w) !! (dir, lockFile) = None ->
  ReadOwner dir w = (w, Ok (0, Some FileSys.ErrNotExist)).
Proof.
  intros Hq Hn. unfold ReadOwner.
  assert (H : sys (FileSys.ReadFile dir lockFile) w = (w, Err FileSys.ErrNotExist)).
  { eapply sys_run; [|symmetry; apply with_files_id]. unfold FileSys.ReadFile.
    apply M_bind_Err. unfold FileSys.Open. by rewrite FileSys.syscall_none, Hn. }
  by rewrite (M_bind_Ok _ _ _ _ _ (attempt_Err _ _ _ _ H)).
Qed.

(** Releasing removes the lock and the file. *)
Definition released dir ino (w : OS) : OS :=
  MkOS (FileSys.set_names (delete (dir, lockFile) (FileSys.names (files w))) (files w))
    (delete ino (locks w)) (clock w).

Lemma os_part_run {A} (m : M OS A) (w w' : OS) l r : m w = (w', r) -> os_part m (w, l) = ((w', l), r).
Proof. intros H. unfold os_part, zoom. cbn [fst snd]. by rewrite H. Qed.

Lemma Release_held dir ino w :
  FileSys.faults (files w) = [] ->
  FileSys.names (files w) !! (dir, lockFile) = Some (FileSys.DFile ino) ->
  Release (w, MkLock (dir, lockFile) (Some ino))
    = ((released dir ino w, MkLock (dir, lockFile) None), Ok tt).
Proof.
  intros Hq Hn. unfold Release.
  rewrite (M_bind_Ok get _ _ (w, MkLock (dir, lockFile) (Some ino)) _) by done. cbn [f snd].
  set (w1 := set_locks (delete ino (locks w)) w).
  rewrite (M_bind_Ok _ _ _ (w1, MkLock (dir, lockFile) (Some ino)) (inr tt)).
  2:{ apply attempt_Ok, os_part_run. by apply unlock_none. }
  assert (Hcl : close_locked ino w1 = (w1, Ok tt)).
  { unfold close_locked. rewrite (M_bind_Ok _ _ _ _ _ (close_lock w1 Hq ino)).
    unfold modify, w1, set_locks. cbn. by rewrite delete_delete_eq. }
  rewrite (M_bind_Ok _ _ _ (w1, MkLock (dir, lockFile) (Some ino)) tt) by by apply os_part_run.
  rewrite (M_bind_Ok _ _ _ (w1, MkLock (dir, lockFile) None) tt) by done.
  eapply ignore_Ok, os_part_run, sys_run.
  - match goal with |- _ = ?rhs => change (FileSys.Remove dir lockFile (files w) = rhs) end.
    unfold FileSys.Remove. rewrite FileSys.syscall_none by done. by rewrite Hn.
  - done.
Qed.
End FlockOps.
