(* ===== verification/Config.v ===== *)
(** * Configuration: internal/config/config.go

    A [float64] is a binary64 number, compared as IEEE 754
    says.  The JSON codec of [encoding/json] is a parameter. *)
From S2P Require Import Prelude FileSys Segment Float64.

Module Config.

Definition configFile : bytes := bs "bitcask.json".

Definition ErrInvalid : error := errors_New "config: invalid".

(** ** Synchronisation policies *)

Abbreviation SyncPolicy := Z.

Definition SyncNone : SyncPolicy := 0.
Definition SyncEveryWrite : SyncPolicy := 1.
Definition SyncInterval_ : SyncPolicy := 2.

Definition String_ (p : SyncPolicy) : bytes :=
  if p =? SyncNone then bs "none"
  else if p =? SyncEveryWrite then bs "every_write"
  else if p =? SyncInterval_ then bs "interval"
  else bs "SyncPolicy(" ++ Segment.itoa p ++ bs ")".

Definition ParseSyncPolicy (s : bytes) : res SyncPolicy :=
  if bool_decide (s = bs "none") || bool_decide (s = bs "") then Ok SyncNone
  else if bool_decide (s = bs "every_write") then Ok SyncEveryWrite
  else if bool_decide (s = bs "interval") then Ok SyncInterval_
  else Err (Errorf "%w: unknown sync policy %q" ErrInvalid).

(** ** Configurations *)

Record Config := MkConfig {
  MaxSegmentSize : Z;
  Sync : SyncPolicy;
  SyncInterval : Z;
  DefaultTTL : Z;
  BloomExpectedKeys : Z;
  BloomFPRate : Float64.float64;
  CompactThreshold : Float64.float64;
  CompactMinSegments : Z;
  MaxKeySize : Z;
  MaxValueSize : Z;
  CacheSize : Z;
  ReadOnly : bool;
}.

(** The float64 value of 0.5. *)
Definition f_05 : Float64.float64 := S754_finite false (2 ^ 52) (-53).

Definition Default : Config := {|
  MaxSegmentSize := Z.shiftl 256 20;
  Sync := SyncNone;
  SyncInterval := 10 ^ 9;
  DefaultTTL := 0;
  BloomExpectedKeys := 100000;
  BloomFPRate := Float64.f_001;
  CompactThreshold := f_05;
  CompactMinSegments := 3;
  MaxKeySize := Z.shiftl 64 10;
  MaxValueSize := Z.shiftl 1 30;
  CacheSize := 1024;
  ReadOnly := false;
|}.

Definition Validate (c : Config) : res unit :=
  if MaxSegmentSize c <? 0
  then Err (Errorf "%w: max_segment_size must be non-negative" ErrInvalid)
  else if (Sync c =? SyncInterval_) && (SyncInterval c <=? 0)
  then Err (Errorf "%w: sync_interval must be positive when sync=interval" ErrInvalid)
  else if DefaultTTL c <? 0
  then Err (Errorf "%w: default_ttl must be non-negative" ErrInvalid)
  else if BloomExpectedKeys c <? 0
  then Err (Errorf "%w: bloom_expected_keys must be non-negative" ErrInvalid)
  else if SFltb (BloomFPRate c) Float64.zero || SFltb Float64.one (BloomFPRate c)
  then Err (Errorf "%w: bloom_fp_rate must be in [0,1]" ErrInvalid)
  else if SFltb (CompactThreshold c) Float64.zero || SFltb Float64.one (CompactThreshold c)
  then Err (Errorf "%w: compact_threshold must be in [0,1]" ErrInvalid)
  else if CompactMinSegments c <? 0
  then Err (Errorf "%w: compact_min_segments must be non-negative" ErrInvalid)
  else if MaxKeySize c <? 0
  then Err (Errorf "%w: max_key_size must be non-negative" ErrInvalid)
  else if MaxValueSize c <? 0
  then Err (Errorf "%w: max_value_size must be non-negative" ErrInvalid)
  else if CacheSize c <? 0
  then Err (Errorf "%w: cache_size must be non-negative" ErrInvalid)
  else Ok tt.

Definition EffectiveMaxKeySize (c : Config) : Z :=
  if MaxKeySize c =? 0 then Z.shiftl 64 10 else MaxKeySize c.

Definition EffectiveMaxValueSize (c : Config) : Z :=
  if MaxValueSize c =? 0 then Z.shiftl 1 30 else MaxValueSize c.

(** [if o != 0 { out = o }]. *)
Definition over_int (base o : Z) : Z := if negb (o =? 0) then o else base.
Definition over_float (base o : Float64.float64) : Float64.float64 := if negb (SFeqb o Float64.zero) then o else base.

Definition Merge (base overrides : Config) : Config := {|
  MaxSegmentSize := over_int (MaxSegmentSize base) (MaxSegmentSize overrides);
  Sync := if negb (Sync overrides =? SyncNone) then Sync overrides else Sync base;
  SyncInterval := over_int (SyncInterval base) (SyncInterval overrides);
  DefaultTTL := over_int (DefaultTTL base) (DefaultTTL overrides);
  BloomExpectedKeys := over_int (BloomExpectedKeys base) (BloomExpectedKeys overrides);
  BloomFPRate := over_float (BloomFPRate base) (BloomFPRate overrides);
  CompactThreshold := over_float (CompactThreshold base) (CompactThreshold overrides);
  CompactMinSegments := over_int (CompactMinSegments base) (CompactMinSegments overrides);
  MaxKeySize := over_int (MaxKeySize base) (MaxKeySize overrides);
  MaxValueSize := over_int (MaxValueSize base) (MaxValueSize overrides);
  CacheSize := over_int (CacheSize base) (CacheSize overrides);
  ReadOnly := if ReadOnly overrides then true else ReadOnly base;
|}.

(** ** Files *)

(** [json.MarshalIndent] of a configuration, and a [json.Decoder] with
    [DisallowUnknownFields] reading one. *)
Class Json := {
  MarshalIndent : Config -> res bytes;
  Decode : ioReader -> res Config;
}.

Section Files.
Context `{!Json}.

Definition Save (c : Config) (d : bytes) : M FileSys.FS unit :=
  data ← wrapping "config: marshal: %w" (lift_res (MarshalIndent c));
  wrapping "config: write %s: %w" (FileSys.WriteFile d configFile data).

Definition ReadFrom (r : ioReader) : res Config :=
  match Decode r with
  | Ok c => Validate c ≫= fun _ => mret c
  | Err e => Err (Errorf "config: decode: %w" e)
  | Panic => Panic
  end.

Definition Load (d : bytes) : M FileSys.FS Config :=
  f ← attempt (FileSys.Open d configFile);
  match f with
  | inl err => if FileSys.IsNotExist err then mret Default else throw (Errorf "config: open %s: %w" err)
  | inr ino =>
      rd ← FileSys.stream ino;
      ignore (FileSys.Close ino) ≫= fun _ => lift_res (ReadFrom rd)
  end.
End Files.

(** ** Validity *)

(** A number in [0,1]. *)
Definition in_unit (x : Float64.float64) : Prop :=
  SFleb Float64.zero x = true /\ SFleb x Float64.one = true.

(** The constraints of config.go, with [unit] for those on the two fractions. *)
Record meets (unit : Float64.float64 -> Prop) (c : Config) : Prop := {
  v_segment : 0 <= MaxSegmentSize c;
  v_interval : Sync c = SyncInterval_ -> 0 < SyncInterval c;
  v_ttl : 0 <= DefaultTTL c;
  v_keys : 0 <= BloomExpectedKeys c;
  v_rate : unit (BloomFPRate c);
  v_threshold : unit (CompactThreshold c);
  v_min : 0 <= CompactMinSegments c;
  v_key : 0 <= MaxKeySize c;
  v_value : 0 <= MaxValueSize c;
  v_cache : 0 <= CacheSize c;
}.

Definition valid : Config -> Prop := meets in_unit.

(** What the comparisons of [Validate] let through: a NaN compares with nothing. *)
Definition unit_or_nan (x : Float64.float64) : Prop := in_unit x \/ x = S754_nan.

Definition accepted : Config -> Prop := meets unit_or_nan.

(** The configuration with NaNs replaced by a number in [0,1]. *)
Definition nan_to_zero (x : Float64.float64) : Float64.float64 :=
  match x with S754_nan => Float64.zero | _ => x end.

Definition without_nan (c : Config) : Config :=
  MkConfig (MaxSegmentSize c) (Sync c) (SyncInterval c) (DefaultTTL c) (BloomExpectedKeys c)
    (nan_to_zero (BloomFPRate c)) (nan_to_zero (CompactThreshold c)) (CompactMinSegments c)
    (MaxKeySize c) (MaxValueSize c) (CacheSize c) (ReadOnly c).

(** Comparing the other way round. *)
Lemma SFcompare_swap x y :
  SFcompare y x = match SFcompare x y with Some c => Some (CompOpp c) | None => None end.
Proof.
  destruct x as [[]|[]| |[] m e], y as [[]|[]| |[] m' e']; cbn; try done.
  all: rewrite (Z.compare_antisym e e'); destruct (Z.compare e e'); cbn; try done.
  all: fold (Pos.compare m m'); fold (Pos.compare m' m); rewrite (Pos.compare_antisym m m').
  all: by destruct (Pos.compare m m').
Qed.

(** Unless one is a NaN, [y < x] fails exactly when [x <= y]. *)
Lemma SFltb_swap x y :
  x <> S754_nan -> y <> S754_nan -> SFltb y x = false <-> SFleb x y = true.
Proof.
  intros Hx Hy. unfold SFltb, SFleb. rewrite (SFcompare_swap x y).
  assert (Hc : SFcompare x y <> None) by (destruct x as [[]|[]| |[] ??], y as [[]|[]| |[] ??]; done).
  by destruct (SFcompare x y) as [[]|].
Qed.

Lemma unit_checks x :
  SFltb x Float64.zero = false /\ SFltb Float64.one x = false <-> unit_or_nan x.
Proof.
  unfold unit_or_nan, in_unit. assert (x = S754_nan \/ x <> S754_nan) as [->|Hx] by (destruct x; naive_solver);
    [naive_solver|].
  rewrite (SFltb_swap Float64.zero x), (SFltb_swap x Float64.one) by done. naive_solver.
Qed.

Lemma unit_nan_to_zero x : in_unit (nan_to_zero x) <-> unit_or_nan x.
Proof.
  unfold unit_or_nan. destruct x as [s|s| |s m e]; cbn [nan_to_zero]; split; intros H;
    try (by left); try (by destruct H); by right.
Qed.

Lemma check_Ok {A} (b : bool) e (r : res A) a : (if b then Err e else r) = Ok a <-> b = false /\ r = Ok a.
Proof. destruct b; naive_solver. Qed.

Lemma Validate_accepted c : Validate c = Ok tt <-> accepted c.
Proof.
  unfold Validate. rewrite !check_Ok, !orb_false_iff, andb_false_iff, Z.eqb_neq, Z.leb_gt, !Z.ltb_ge.
  rewrite !unit_checks. split.
  - intros (? & Hi & ? & ? & ? & ? & ? & ? & ? & ? & _). split; try done. intros Hs. by destruct Hi.
  - intros []. split_and!; try done.
    destruct (decide (Sync c = SyncInterval_)); [right; auto|by left].
Qed.

Lemma Validate_without_nan c : Validate c = Ok tt <-> valid (without_nan c).
Proof.
  rewrite Validate_accepted. by split; intros []; split; try done; apply unit_nan_to_zero.
Qed.

Lemma valid_accepted c : valid c -> accepted c.
Proof. intros []. split; try done; by left. Qed.

Lemma valid_Validate c : valid c -> Validate c = Ok tt.
Proof. intros H. by apply Validate_accepted, valid_accepted. Qed.

(** Every other outcome is an error that wraps [ErrInvalid]. *)
Lemma Validate_error c : ~ accepted c -> exists e, Validate c = Err e /\ errors_Is e ErrInvalid = true.
Proof.
  rewrite <- Validate_accepted. unfold Validate. intros H.
  repeat match goal with |- context [if ?b then Err _ else _] => destruct b; [by eexists|] end. done.
Qed.

Lemma over_int_nonneg a b : 0 <= a -> 0 <= b -> 0 <= over_int a b.
Proof. unfold over_int. by destruct (b =? 0). Qed.

Lemma over_float_unit a b : unit_or_nan a -> unit_or_nan b -> unit_or_nan (over_float a b).
Proof. unfold over_float. by destruct (SFeqb b Float64.zero). Qed.

(** [Merge] keeps what [Validate] accepts, unless the overrides carry a negative
    [SyncInterval], which [Validate] does not look at without its policy. *)
Lemma Merge_accepted base overrides :
  accepted base -> accepted overrides -> 0 <= SyncInterval overrides ->
  accepted (Merge base overrides).
Proof.
  intros [] [] Hi. split; cbn [Merge MaxSegmentSize Sync SyncInterval DefaultTTL BloomExpectedKeys
    BloomFPRate CompactThreshold CompactMinSegments MaxKeySize MaxValueSize CacheSize];
    try (by apply over_int_nonneg); try (by apply over_float_unit).
  unfold over_int. destruct (Z.eqb_spec (Sync overrides) SyncNone) as [_|_]; cbn [negb];
    destruct (Z.eqb_spec (SyncInterval overrides) 0) as [E|Hne]; cbn [negb]; intros Hs; auto; [lia|].
  specialize (v_interval1 Hs). lia.
Qed.

Lemma over_int_same a : over_int a a = a.
Proof. unfold over_int. by destruct (a =? 0). Qed.

Lemma over_int_idem a b : over_int (over_int a b) b = over_int a b.
Proof. unfold over_int. by destruct (b =? 0). Qed.

Lemma over_float_idem a b : over_float (over_float a b) b = over_float a b.
Proof. unfold over_float. by destruct (SFeqb b Float64.zero). Qed.

(** Applying the same overrides twice changes nothing more. *)
Lemma Merge_idem base overrides : Merge (Merge base overrides) overrides = Merge base overrides.
Proof.
  unfold Merge. cbn. rewrite !over_int_idem, !over_float_idem.
  f_equal; [by destruct (negb (Sync overrides =? SyncNone))|by destruct (ReadOnly overrides)].
Qed.

(** The zero configuration overrides nothing. *)
Definition zero : Config :=
  MkConfig 0 SyncNone 0 0 0 Float64.zero Float64.zero 0 0 0 0 false.

Lemma Merge_zero base : Merge base zero = base.
Proof. by destruct base. Qed.

Lemma Default_valid : valid Default.
Proof. by repeat split. Qed.

Lemma Effective_positive c : accepted c -> 0 < EffectiveMaxKeySize c /\ 0 < EffectiveMaxValueSize c.
Proof.
  intros Hv. pose proof (v_key _ _ Hv). pose proof (v_value _ _ Hv).
  unfold EffectiveMaxKeySize, EffectiveMaxValueSize.
  split; [destruct (Z.eqb_spec (MaxKeySize c) 0)|destruct (Z.eqb_spec (MaxValueSize c) 0)]; try done; lia.
Qed.

Lemma ParseSyncPolicy_String p :
  0 <= p <= 2 -> ParseSyncPolicy (String_ p) = Ok p.
Proof.
  intros Hp. assert (p = 0 \/ p = 1 \/ p = 2) as [->|[->| ->]] by lia; reflexivity.
Qed.

(** A configuration saved in a directory is the one loaded from it. *)
Section Round.
Context `{!Json}.

(** What the JSON codec promises for [c]. *)
Definition json_ok (c : Config) : Prop :=
  exists data, MarshalIndent c = Ok data /\ Decode (MkIoReader data EOF) = Ok c
    /\ blen data <= FileSys.max_file.

Lemma Save_Load c d s :
  FileSys.faults s = [] -> d ∈ FileSys.dirs s -> FileSys.names s !! (d, configFile) <> Some FileSys.DDir ->
  json_ok c -> accepted c ->
  exists s', Save c d s = (s', Ok tt) /\ Load d s' = (s', Ok c).
Proof.
  intros Hq Hd Hn (data & Hm & Hdec & Hb) Hv.
  destruct (FileSys.WriteFile_Ok s (d, configFile) data) as (s1 & ino & Hw & Hnm & Hq1); [done| |done|].
  { unfold FileSys.creatable. by destruct (FileSys.names s !! (d, configFile)) as [[]|]. }
  cbn [fst snd] in Hw. set (s2 := FileSys.file_holds s1 ino data) in *.
  exists s2. split.
  - unfold Save. rewrite (M_bind_Ok _ _ s s data); [by apply wrapping_Ok|].
    apply wrapping_Ok. unfold lift_res. by rewrite Hm.
  - unfold Load. rewrite (M_bind_Ok _ _ s2 s2 (inr ino)).
    2:{ apply attempt_Ok, (FileSys.Open_file s2 (d, configFile)); done. }
    rewrite (M_bind_Ok _ _ _ _ _ (FileSys.stream_none ino data s2 Hq1 (lookup_insert_eq _ _ _))).
    rewrite (M_bind_Ok _ _ s2 s2 tt).
    2:{ apply (ignore_Ok _ _ _ tt). unfold FileSys.Close. by rewrite FileSys.syscall_none. }
    unfold ReadFrom. rewrite Hdec, (proj2 (Validate_accepted c) Hv). done.
Qed.
End Round.

(** Without a file, [Load] gives the default. *)
Lemma Load_missing `{!Json} d s :
  FileSys.faults s = [] -> FileSys.names s !! (d, configFile) = None -> Load d s = (s, Ok Default).
Proof.
  intros Hq Hn. unfold Load. rewrite (M_bind_Ok _ _ s s (inl FileSys.ErrNotExist)); [done|].
  apply attempt_Err. unfold FileSys.Open. by rewrite FileSys.syscall_none, Hn.
Qed.
End Config.
