(* ===== verification/Stats.v ===== *)
(** * Statistics: internal/stats/stats.go

    Counters, segment sizes and the bounded history of compactions.  Each
    counter is an atomic [int64]; [Take] and [Reset] are modelled without
    concurrent updates between their loads and stores.  Ratios are binary64
    numbers.  The JSON report is rendered as [json.MarshalIndent] does; the text
    of a time is a parameter. *)
From S2P Require Import Prelude Segment Float64.

Module Stats.

Record Counters := MkCounters {
  Puts : Z; Gets : Z; Deletes : Z; Merges : Z;
  BytesIn : Z; BytesOut : Z; Misses : Z; CacheHits : Z;
}.

Record Snapshot := MkSnapshot { counters : Counters; TakenAt : Z }.

(** [c.Puts.Add(n)] and the like. *)
Definition Add_ (n counter : Z) : Z := i64 (counter + n).

Definition Take (now : Z) (c : Counters) : Snapshot := MkSnapshot c now.

Definition Reset (c : Counters) : Counters := MkCounters 0 0 0 0 0 0 0 0.

Record SegmentInfo := MkSegmentInfo {
  FileID : Z; SizeBytes : Z; LiveKeys : Z; DeadKeys : Z;
  LiveBytes : Z; DeadBytes : Z; RecordCount : Z;
}.

Definition DeadRatio (s : SegmentInfo) : spec_float :=
  let total := i64 (LiveBytes s + DeadBytes s) in
  if total =? 0 then Float64.zero else Float64.div (Float64.of_int (DeadBytes s)) (Float64.of_int total).

Record CompactEvent := MkEvent {
  StartedAt : Z; FinishedAt : Z; SegmentsIn : Z; SegmentsOut : Z;
  EvBytesIn : Z; EvBytesOut : Z; KeysRetained : Z; KeysDropped : Z;
}.

(** [FinishedAt.Sub(StartedAt)], saturated. *)
Definition Duration (e : CompactEvent) : Z :=
  Z.max (- 2 ^ 63) (Z.min (FinishedAt e - StartedAt e) (2 ^ 63 - 1)).

Definition SpaceReclaimed (e : CompactEvent) : Z := i64 (EvBytesIn e - EvBytesOut e).

(** ** History *)

Record History := MkHistory { events : list CompactEvent; cap : Z }.

Definition NewHistory (c : Z) : History := MkHistory [] (if c <=? 0 then 32 else c).

(** [copy(dst, src)]: the elements of [dst] afterwards. *)
Definition copy {A} (dst src : list A) : list A :=
  let n := Nat.min (length dst) (length src) in take n src ++ drop n dst.

Definition Add (e : CompactEvent) (h : History) : res History :=
  es ← (if cap h <=? blen (events h) then
          tail ← slice 1 (blen (events h)) (events h);
          slice 0 (blen (events h) - 1) (copy (events h) tail)
        else mret (events h));
  mret (MkHistory (es ++ [e]) (cap h)).

Definition Events (h : History) : list CompactEvent := events h.

Definition Last (h : History) : res (option CompactEvent) :=
  if blen (events h) =? 0 then mret None
  else e ← index (blen (events h) - 1) (events h); mret (Some e).

Definition Len (h : History) : Z := blen (events h).

Definition Clear (h : History) : History := MkHistory [] (cap h).

(** ** Collector *)

Record Collector := MkCollector { counters_ : Counters; history : History; segments : list SegmentInfo }.

Definition NewCollector : Collector := MkCollector (MkCounters 0 0 0 0 0 0 0 0) (NewHistory 64) [].

Definition SetSegments (infos : list SegmentInfo) (c : Collector) : Collector :=
  MkCollector (counters_ c) (history c) infos.

Definition Segments (c : Collector) : list SegmentInfo := segments c.

Definition TotalDiskBytes (c : Collector) : Z :=
  foldl (fun total s => i64 (total + SizeBytes s)) 0 (segments c).

Definition TotalDeadBytes (c : Collector) : Z :=
  foldl (fun total s => i64 (total + DeadBytes s)) 0 (segments c).

Definition OverallDeadRatio (c : Collector) : spec_float :=
  let total := TotalDiskBytes c in
  if total =? 0 then Float64.zero else Float64.div (Float64.of_int (TotalDeadBytes c)) (Float64.of_int total).

(** ** The JSON report *)

(** A JSON document; [JText] is a value that is encoded already. *)
#[warnings="-register-all"]
Inductive json :=
  | JInt (n : Z)
  | JText (text : bytes)
  | JArr (l : list json)
  | JObj (fields : list (bytes * json)).

(** A new line at depth [d]. *)
Fixpoint indent (d : nat) : bytes :=
  match d with
  | O => [Byte.x0a]
  | S d' => indent d' ++ bs "  "
  end.

(** The elements between brackets, each on a line. *)
Definition bracketed (open close : bytes) (d : nat) (l : list bytes) : bytes :=
  match l with
  | [] => open ++ close
  | x :: l' =>
      open ++ indent (S d) ++ x ++ concat ((fun y => bs "," ++ indent (S d) ++ y) <$> l')
        ++ indent d ++ close
  end.

Definition quoted (s : bytes) : bytes := Byte.x22 :: s ++ [Byte.x22].

(** [json.MarshalIndent(v, "", "  ")]. *)
Fixpoint MarshalIndent (d : nat) (v : json) : bytes :=
  match v with
  | JInt n => Segment.itoa n
  | JText t => t
  | JArr l => bracketed (bs "[") (bs "]") d (map (MarshalIndent (S d)) l)
  | JObj l =>
      bracketed (bs "{") (bs "}") d
        (map (fun '(k, v) => quoted k ++ bs ": " ++ MarshalIndent (S d) v) l)
  end.

Section JSON.
(** [time.Time.MarshalJSON], which rejects years of more than four digits. *)
Context (time_json : Z -> res bytes).

Definition json_time (t : Z) : res json :=
  match time_json t with
  | Ok b => Ok (JText b)
  | Err e => Err (Errorf "json: error calling MarshalJSON for type %s: %w" e)
  | Panic => Panic
  end.

Definition json_snapshot (s : Snapshot) : res json :=
  t ← json_time (TakenAt s);
  let c := counters s in
  mret (JObj [(bs "puts", JInt (Puts c)); (bs "gets", JInt (Gets c));
              (bs "deletes", JInt (Deletes c)); (bs "merges", JInt (Merges c));
              (bs "bytes_in", JInt (BytesIn c)); (bs "bytes_out", JInt (BytesOut c));
              (bs "misses", JInt (Misses c)); (bs "cache_hits", JInt (CacheHits c));
              (bs "taken_at", t)]).

Definition json_segment (s : SegmentInfo) : json :=
  JObj [(bs "file_id", JInt (FileID s)); (bs "size_bytes", JInt (SizeBytes s));
        (bs "live_keys", JInt (LiveKeys s)); (bs "dead_keys", JInt (DeadKeys s));
        (bs "live_bytes", JInt (LiveBytes s)); (bs "dead_bytes", JInt (DeadBytes s));
        (bs "record_count", JInt (RecordCount s))].

Definition json_event (e : CompactEvent) : res json :=
  t1 ← json_time (StartedAt e);
  t2 ← json_time (FinishedAt e);
  mret (JObj [(bs "started_at", t1); (bs "finished_at", t2);
              (bs "segments_in", JInt (SegmentsIn e)); (bs "segments_out", JInt (SegmentsOut e));
              (bs "bytes_in", JInt (EvBytesIn e)); (bs "bytes_out", JInt (EvBytesOut e));
              (bs "keys_retained", JInt (KeysRetained e)); (bs "keys_dropped", JInt (KeysDropped e))]).

Fixpoint json_events (l : list CompactEvent) : res (list json) :=
  match l with
  | [] => mret []
  | e :: l' => j ← json_event e; js ← json_events l'; mret (j :: js)
  end.

Definition JSON (now : Z) (c : Collector) : res bytes :=
  let snap := Take now (counters_ c) in
  let segs := Segments c in
  let hist := Events (history c) in
  snap ← json_snapshot snap;
  hist ← json_events hist;
  mret (MarshalIndent 0 (JObj [(bs "counters", snap); (bs "segments", JArr (json_segment <$> segs));
                               (bs "history", JArr hist)])).
End JSON.

(** ** What the history holds *)

(** The last [n] elements. *)
Definition lastn {A} (n : nat) (l : list A) : list A := drop (length l - n) l.

Lemma copy_tail {A} (a : A) l : take (length l) (copy (a :: l) l) = l.
Proof.
  unfold copy. cbn [length]. rewrite Nat.min_r by lia. rewrite firstn_all.
  by rewrite take_app_length.
Qed.

Lemma lastn_snoc {A} n (l : list A) x : (0 < n)%nat ->
  lastn n (l ++ [x]) = (if decide (length (lastn n l) < n)%nat then lastn n l else drop 1 (lastn n l)) ++ [x].
Proof.
  intros Hn. unfold lastn. rewrite length_app, length_drop. cbn [length].
  destruct (decide (length l - (length l - n) < n)%nat).
  - rewrite drop_app_le by lia. do 2 f_equal. lia.
  - rewrite drop_app_le, drop_drop by lia. do 2 f_equal. lia.
Qed.

Lemma history_Add_Ok e h : 0 < cap h -> blen (events h) <= cap h ->
  Add e h = Ok (MkHistory ((if decide (blen (events h) < cap h) then events h else drop 1 (events h)) ++ [e]) (cap h)).
Proof.
  intros Hc Hl. unfold Add. destruct (Z.leb_spec (cap h) (blen (events h))) as [Hge|Hlt].
  - rewrite decide_False by lia. destruct (events h) as [|a l]; [unfold blen in *; cbn in *; lia|].
    rewrite blen_cons in *. pose proof (blen_nonneg l).
    rewrite slice_Ok by (rewrite ?blen_cons; lia). cbn [mbind res_bind].
    replace (1 + blen l - 1) with (blen l) by lia. rewrite to_nat_blen.
    change (Z.to_nat 1) with 1%nat. cbn [drop]. rewrite firstn_all.
    rewrite slice_Ok.
    + cbn [mbind res_bind]. rewrite Z.sub_0_r, to_nat_blen. change (Z.to_nat 0) with 0%nat.
      cbn [drop]. by rewrite !drop_0, copy_tail.
    + lia.
    + lia.
    + unfold copy, blen. rewrite length_app, length_take, length_drop. cbn [length]. lia.
  - by rewrite decide_True by lia.
Qed.

Fixpoint add_all (l : list CompactEvent) (h : History) : res History :=
  match l with
  | [] => mret h
  | e :: l' => h' ← Add e h; add_all l' h'
  end.

Lemma add_all_Ok l c es : 0 < c ->
  add_all l (MkHistory (lastn (Z.to_nat c) es) c) = Ok (MkHistory (lastn (Z.to_nat c) (es ++ l)) c).
Proof.
  intros Hc. revert es. induction l as [|e l IH]; intros es; cbn [add_all].
  { by rewrite app_nil_r. }
  assert (Hlen : blen (lastn (Z.to_nat c) es) <= c) by (unfold blen, lastn; rewrite length_drop; lia).
  rewrite history_Add_Ok by done. cbn [mbind res_bind events cap].
  assert (Hs : (if decide (blen (lastn (Z.to_nat c) es) < c) then lastn (Z.to_nat c) es
                else drop 1 (lastn (Z.to_nat c) es)) ++ [e] = lastn (Z.to_nat c) (es ++ [e])).
  { rewrite lastn_snoc by lia. unfold blen. repeat case_decide; try done; lia. }
  rewrite Hs, IH. by rewrite <- app_assoc.
Qed.

Lemma Last_Ok h : Last h = Ok (list.last (events h)).
Proof.
  unfold Last. destruct (events h) as [|e l] using rev_ind; [done|].
  rewrite blen_app, blen_cons, blen_nil. pose proof (blen_nonneg l).
  rewrite (proj2 (Z.eqb_neq _ _)) by lia.
  replace (blen l + (1 + 0) - 1) with (blen l) by lia.
  unfold index. rewrite (proj2 (Z.leb_le 0 _)) by lia.
  by rewrite to_nat_blen, list_lookup_middle, last_snoc.
Qed.
End Stats.
