(* ===== verification/Cli.v ===== *)
(** * The command line: main.go

    [reorder] moves flags to the front, the [flag] package parses them, and the
    subcommand is one call on a store that is opened and closed around it.  The
    result is the exit code with the lines printed on standard output; what is
    printed on standard error is left out. *)
From S2P Require Import Prelude LogEntry LogReader Index FileSys Segment Store Merge.

Module Cli.
Import Index Segment Store.

Definition dash : byte := Byte.x2d.
Definition equals : byte := Byte.x3d.

(** [strings.HasPrefix(a, "-")] and [strings.Contains(a, "=")]. *)
Definition is_flag (a : bytes) : bool :=
  match a with
  | c :: _ => bool_decide (c = dash)
  | [] => false
  end.

Definition has_equals (a : bytes) : bool := bool_decide (equals ∈ a).

(** The loop of [reorder], accumulating flags and positionals. *)
Fixpoint reorder_loop (args flags pos : list bytes) : list bytes :=
  match args with
  | [] => flags ++ pos
  | a :: args' =>
      if negb (is_flag a) then reorder_loop args' flags (pos ++ [a])
      else
        match args' with
        | v :: args'' =>
            if negb (has_equals a) && negb (is_flag v)
            then reorder_loop args'' (flags ++ [a; v]) pos
            else reorder_loop args' (flags ++ [a]) pos
        | [] => flags ++ [a] ++ pos
        end
  end.

Definition reorder (args : list bytes) : list bytes := reorder_loop args [] [].

(** ** The flag package, with the one string flag "db" *)

(** The name and the value of a flag token without its dashes. *)
Fixpoint cut_equals (l : bytes) : bytes * option bytes :=
  match l with
  | [] => ([], None)
  | c :: l' =>
      if bool_decide (c = equals) then ([], Some l')
      else let '(name, v) := cut_equals l' in (c :: name, v)
  end.

(** The token after its one or two dashes. *)
Definition strip_dashes (s : bytes) : bytes :=
  match s with
  | _ :: c :: l => if bool_decide (c = dash) then l else c :: l
  | _ => []
  end.

Definition ErrHelp : error := errors_New "flag: help requested".

(** [fs.Parse(args)]: the value of "db" and the remaining arguments. *)
Fixpoint parse (args : list bytes) (db : bytes) : res (bytes * list bytes) :=
  match args with
  | [] => Ok (db, [])
  | s :: args' =>
      if (blen s <? 2) || negb (is_flag s) then Ok (db, args)
      else if bool_decide (s = [dash; dash]) then Ok (db, args')
      else
        match strip_dashes s with
        | [] => Err (errors_New "bad flag syntax: %s")
        | c :: l =>
            if bool_decide (c = dash) || bool_decide (c = equals)
            then Err (errors_New "bad flag syntax: %s")
            else
              let '(name, value) := cut_equals (c :: l) in
              if bool_decide (name = bs "db") then
                match value, args' with
                | Some v, _ => parse args' v
                | None, v :: args'' => parse args'' v
                | None, [] => Err (errors_New "flag needs an argument: -%s")
                end
              else if bool_decide (name = bs "help") || bool_decide (name = bs "h") then Err ErrHelp
              else Err (errors_New "flag provided but not defined: -%s")
        end
  end.

(** ** Subcommands *)

Abbreviation outcome := (Z * list bytes)%type.

Definition newline : bytes := [Byte.x0a].

(** [if err := m; err != nil { return 1 }; fmt.Println("OK")]. *)
Definition reporting (m : M State unit) : M State outcome :=
  r ← attempt m;
  mret (match r with
        | inl _ => (1, [])
        | inr _ => (0, [bs "OK" ++ newline])
        end).

Section WithRange.
Context `{!GoRange Z}.

Definition command (rest : list bytes) : M State outcome :=
  match rest with
  | [] => mret (2, [])
  | cmd :: rest' =>
      if bool_decide (cmd = bs "put") then
        match rest' with
        | key :: value :: _ => reporting (Put key value)
        | _ => mret (2, [])
        end
      else if bool_decide (cmd = bs "get") then
        match rest' with
        | key :: _ =>
            r ← attempt (Get key);
            mret (match r with
                  | inl _ => (1, [])
                  | inr None => (3, [bs "NOT FOUND" ++ newline])
                  | inr (Some v) => (0, [v ++ newline])
                  end)
        | [] => mret (2, [])
        end
      else if bool_decide (cmd = bs "del") then
        match rest' with
        | key :: _ => reporting (Delete key)
        | [] => mret (2, [])
        end
      else if bool_decide (cmd = bs "merge") then reporting Merge.Merge
      else mret (2, [])
  end.

(** [run(args)], with the deferred [st.Close()]. *)
Definition run (args : list bytes) : M World outcome := fun w =>
  match parse (reorder args) [] with
  | Panic => (w, Panic)
  | Err _ => (w, Ok (2, []))
  | Ok (db, rest) =>
      if bool_decide (db = []) then (w, Ok (2, []))
      else if bool_decide (rest = []) then (w, Ok (2, []))
      else
        match Store.Open db w with
        | (w1, Panic) => (w1, Panic)
        | (w1, Err _) => (w1, Ok (1, []))
        | (w1, Ok s) =>
            match command rest (MkState w1 s) with
            | (x, Ok out) => let '(x', _) := Close x in (world x', Ok out)
            | (x, Err e) => let '(x', _) := Close x in (world x', Err e)
            | (x, Panic) => let '(x', _) := Close x in (world x', Panic)
            end
        end
  end.
End WithRange.
End Cli.
