(* ===== verification/CliOps.v ===== *)
(** * The command line: argument order, and commands in a row *)
From S2P Require Import Prelude LogEntry LogReader Index FileSys Segment Store Merge Repr StoreOps Recovery Opening Durable Session Cli.
Import LogReader Index Segment Store Repr StoreOps Recovery Opening Durable Session Cli.

Module CliOps.

(** ** Reordering *)

Lemma reorder_positional pos rest flags acc :
  Forall (fun a => is_flag a = false) pos ->
  reorder_loop (pos ++ rest) flags acc = reorder_loop rest flags (acc ++ pos).
Proof.
  revert acc. induction pos as [|a pos IH]; intros acc Hp; cbn [app reorder_loop].
  { by rewrite app_nil_r. }
  apply Forall_cons in Hp as [Ha Hp]. rewrite Ha. cbn [negb]. rewrite IH by done.
  by rewrite <- app_assoc.
Qed.

Lemma reorder_flag a v rest flags acc :
  is_flag a = true -> has_equals a = false -> is_flag v = false ->
  reorder_loop (a :: v :: rest) flags acc = reorder_loop rest (flags ++ [a; v]) acc.
Proof. intros Ha He Hv. cbn [reorder_loop]. by rewrite Ha, He, Hv. Qed.

(** Positional arguments around the one flag. *)
Lemma reorder_db pos1 pos2 a d :
  is_flag a = true -> has_equals a = false -> is_flag d = false ->
  Forall (fun x => is_flag x = false) pos1 -> Forall (fun x => is_flag x = false) pos2 ->
  reorder (pos1 ++ a :: d :: pos2) = a :: d :: pos1 ++ pos2.
Proof.
  intros Ha He Hd H1 H2. unfold reorder. rewrite reorder_positional, reorder_flag by done.
  rewrite <- (app_nil_r pos2) at 1. rewrite reorder_positional by done. done.
Qed.

Definition db_flag : bytes := bs "--db".

Lemma parse_positional rest db : Forall (fun a => is_flag a = false) rest -> parse rest db = Ok (db, rest).
Proof.
  destruct rest as [|a rest]; [done|]. intros [Ha _]%Forall_cons. cbn [parse]. rewrite Ha.
  by rewrite orb_true_r.
Qed.

Lemma parse_db d rest db : Forall (fun a => is_flag a = false) rest ->
  parse (db_flag :: d :: rest) db = Ok (d, rest).
Proof. intros H. exact (parse_positional rest d H). Qed.

(** ** Commands on a directory at rest *)

Section WithRange.
Context `{!GoRange Z}.

Lemma run_args pos1 pos2 d w : d <> [] -> is_flag d = false -> pos1 ++ pos2 <> [] ->
  Forall (fun x => is_flag x = false) pos1 -> Forall (fun x => is_flag x = false) pos2 ->
  run (pos1 ++ db_flag :: d :: pos2) w
  = match Store.Open d w with
    | (w1, Panic) => (w1, Panic)
    | (w1, Err _) => (w1, Ok (1, []))
    | (w1, Ok s) =>
        match command (pos1 ++ pos2) (MkState w1 s) with
        | (x, Ok out) => let '(x', _) := Close x in (world x', Ok out)
        | (x, Err e) => let '(x', _) := Close x in (world x', Err e)
        | (x, Panic) => let '(x', _) := Close x in (world x', Panic)
        end
    end.
Proof.
  intros Hd Hfd Hne H1 H2. unfold run. rewrite reorder_db, parse_db by (done || by apply Forall_app).
  by rewrite !bool_decide_eq_false_2.
Qed.

(** Writing commands. *)
Definition op_args (o : op) : list bytes :=
  match o with
  | OpPut k v => [bs "put"; k; v]
  | OpDelete k => [bs "del"; k]
  end.

Lemma command_write o x x' : run_op o x = (x', Ok tt) ->
  command (op_args o) x = (x', Ok (0, [bs "OK" ++ newline])).
Proof.
  intros H. destruct o as [k v|k]; cbn [op_args]; unfold command.
  - rewrite bool_decide_eq_true_2 by done. unfold reporting. cbn [run_op] in H.
    by rewrite (M_bind_Ok _ _ _ _ _ (attempt_Ok _ _ _ _ H)).
  - rewrite !bool_decide_eq_false_2, bool_decide_eq_true_2 by done. unfold reporting. cbn [run_op] in H.
    by rewrite (M_bind_Ok _ _ _ _ _ (attempt_Ok _ _ _ _ H)).
Qed.

Lemma run_write pos1 pos2 o d w A n k :
  rests w d A n k -> op_ok o -> n + blen (enc (op_record o)) <= FileSys.max_file -> k + 1 < max_id ->
  pos1 ++ pos2 = op_args o -> d <> [] -> Forall (fun x => is_flag x = false) (d :: op_args o) ->
  exists w', run (pos1 ++ db_flag :: d :: pos2) w = (w', Ok (0, [bs "OK" ++ newline]))
    /\ rests w' d (apply_op A o) (n + blen (enc (op_record o))) (k + 1).
Proof.
  intros Hr Ho Hn Hk Hpos Hd Hf. apply Forall_cons in Hf as [Hfd Hf]. rewrite <- Hpos in Hf.
  apply Forall_app in Hf as [Hf1 Hf2].
  destruct (rests_open _ _ _ _ _ DefaultOptions Hr) as (w1 & s & G & L & Hopen & HD & Hq & Hdir & HA & Hb).
  assert (Hb1 : ops_bytes [o] = blen (enc (op_record o))).
  { rewrite ops_bytes_cons. change (ops_bytes []) with 0. lia. }
  destruct (run_ops_Ok (MkState w1 s) G L n k [o] HD Hq ltac:(by constructor) Hb) as
    (x' & G' & L' & Hrun & HD' & Hq' & Habs & Hdir' & Hb'); [lia|cbn; lia|].
  rewrite Hb1 in Hb'. cbn [length] in Hb'. change (Z.of_nat 1) with 1 in Hb'.
  assert (Hop : run_op o (MkState w1 s) = (x', Ok tt)).
  { unfold run_ops in Hrun. cbn [range_loop] in Hrun.
    destruct (run_op o (MkState w1 s)) as [x1 [[]|e|]] eqn:E.
    - by rewrite (M_bind_Ok _ _ _ _ _ E) in Hrun.
    - by rewrite (M_bind_Err _ _ _ _ _ E) in Hrun.
    - unfold mbind, M_bind in Hrun. by rewrite E in Hrun. }
  destruct (close_rests x' G' L' _ _ HD' Hq' Hb') as (x2 & Hc & Hr').
  exists (world x2). split.
  - rewrite run_args; [|done|done| |done|done].
    + unfold Store.Open. by rewrite Hopen, Hpos, (command_write _ _ _ Hop), Hc.
    + rewrite Hpos. by destruct o.
  - cbn [st] in Habs, Hdir'. rewrite Habs, Hdir', HA, Hdir in Hr'. exact Hr'.
Qed.

Lemma run_get pos1 pos2 key d w A n k :
  rests w d A n k -> pos1 ++ pos2 = [bs "get"; key] -> d <> [] -> is_flag d = false -> is_flag key = false ->
  exists w', run (pos1 ++ db_flag :: d :: pos2) w
    = (w', Ok (match A !! key with
               | Some v => (0, [v ++ newline])
               | None => (3, [bs "NOT FOUND" ++ newline])
               end))
    /\ rests w' d A n k.
Proof.
  intros Hr Hpos Hd Hfd Hfk.
  assert (Hf : Forall (fun x => is_flag x = false) (pos1 ++ pos2)) by (rewrite Hpos; by repeat constructor).
  apply Forall_app in Hf as [Hf1 Hf2].
  destruct (rests_open _ _ _ _ _ DefaultOptions Hr) as (w1 & s & G & L & Hopen & HD & Hq & Hdir & HA & Hb).
  destruct (close_rests (MkState w1 s) G L _ _ HD Hq Hb) as (x2 & Hc & Hr').
  exists (world x2). split.
  - rewrite run_args; [|done|done|by rewrite Hpos|done|done].
    unfold Store.Open. rewrite Hopen, Hpos. unfold command.
    rewrite bool_decide_eq_false_2, bool_decide_eq_true_2 by done.
    rewrite (M_bind_Ok _ _ _ _ _ (attempt_Ok _ _ _ _ (Get_Ok _ G key (dur_inv _ _ _ HD) Hq))).
    cbn [st]. rewrite HA. cbv beta. unfold mret, M_ret. rewrite Hc. by destruct (A !! key).
  - cbn [st] in Hr'. rewrite HA, Hdir in Hr'. exact Hr'.
Qed.

(** A value that starts with a dash is taken for a flag. *)
Lemma run_dash_value key d c l w :
  is_flag d = false -> is_flag key = false -> c <> dash -> c <> equals ->
  (cut_equals (c :: l)).1 <> bs "db" ->
  run (db_flag :: d :: [bs "put"; key; dash :: c :: l]) w = (w, Ok (2, [])).
Proof.
  intros Hd Hk Hc He Hn. unfold run, reorder. rewrite reorder_flag by done.
  set (v := dash :: c :: l).
  assert (Hloop : reorder_loop [bs "put"; key; v] ([] ++ [db_flag; d]) []
    = [db_flag; d; v; bs "put"; key]).
  { change [bs "put"; key; v] with ([bs "put"; key] ++ [v]).
    rewrite reorder_positional by (by repeat constructor). done. }
  rewrite Hloop.
  assert (Hp : exists e, parse [db_flag; d; v; bs "put"; key] [] = Err e).
  { change (parse [db_flag; d; v; bs "put"; key] []) with (parse [v; bs "put"; key] d).
    unfold v. cbn [parse]. rewrite (proj2 (Z.ltb_ge _ _)).
    2:{ rewrite !blen_cons. pose proof (blen_nonneg l). lia. }
    cbn [is_flag]. rewrite bool_decide_eq_true_2 by done. cbn [orb negb].
    rewrite bool_decide_eq_false_2 by congruence. cbn [strip_dashes].
    rewrite bool_decide_eq_false_2 by done. rewrite !bool_decide_eq_false_2 by done. cbn [orb].
    destruct (cut_equals (c :: l)) as [name value]. cbn [fst] in Hn.
    rewrite (bool_decide_eq_false_2 (name = bs "db")) by done.
    by destruct (_ || _); eexists. }
  destruct Hp as [e ->]. done.
Qed.
End WithRange.

(** ** Runs of the program in a row *)

(** A command of the program, with its arguments placed around [--db <dir>]. *)
Inductive cli_call := CWrite (o : op) | CGetKey (key : bytes).

Definition cli_args (c : cli_call) : list bytes :=
  match c with
  | CWrite o => op_args o
  | CGetKey key => [bs "get"; key]
  end.

Definition cli_ops (l : list (list bytes * list bytes * cli_call)) : list op :=
  omap (fun x => match x.2 with CWrite o => Some o | CGetKey _ => None end) l.

(** The arguments of a call: in front of the flag, behind it, no leading dash. *)
Definition cli_ok (x : list bytes * list bytes * cli_call) : Prop :=
  x.1.1 ++ x.1.2 = cli_args x.2 /\ Forall (fun a => is_flag a = false) (cli_args x.2)
  /\ match x.2 with CWrite o => op_ok o | CGetKey _ => True end.

(** Running the program for each call in turn, on the same files. *)
Fixpoint run_all `{!GoRange Z} (d : bytes) (l : list (list bytes * list bytes * cli_call))
    : M World (list outcome) :=
  match l with
  | [] => mret []
  | (pos1, pos2, _) :: l' =>
      out ← Cli.run (pos1 ++ db_flag :: d :: pos2);
      outs ← run_all d l';
      mret (out :: outs)
  end.

(** What the calls print and return, on a map. *)
Fixpoint cli_spec (l : list (list bytes * list bytes * cli_call)) (A : gmap bytes bytes) : list outcome :=
  match l with
  | [] => []
  | (_, CWrite o) :: l' => (0, [bs "OK" ++ newline]) :: cli_spec l' (apply_op A o)
  | (_, CGetKey key) :: l' =>
      match A !! key with
      | Some v => (0, [v ++ newline])
      | None => (3, [bs "NOT FOUND" ++ newline])
      end :: cli_spec l' A
  end.

Lemma run_all_Ok `{!GoRange Z} d l w A n k :
  rests w d A n k -> d <> [] -> is_flag d = false -> Forall cli_ok l ->
  n + ops_bytes (cli_ops l) <= FileSys.max_file ->
  k + Z.of_nat (length (cli_ops l)) < max_id ->
  exists w', run_all d l w = (w', Ok (cli_spec l A))
    /\ rests w' d (foldl apply_op A (cli_ops l)) (n + ops_bytes (cli_ops l))
         (k + Z.of_nat (length (cli_ops l))).
Proof.
  intros Hr Hd Hf Hl. revert w A n k Hr.
  induction Hl as [|[[pos1 pos2] c] l (Hpos & Hfl & Ho) _ IH]; intros w A n k Hr Hn Hk.
  { exists w. split; [done|]. cbn. change (ops_bytes []) with 0. by rewrite !Z.add_0_r. }
  cbn [fst snd] in *. cbn [run_all cli_spec]. destruct c as [o|key].
  - change (cli_ops ((pos1, pos2, CWrite o) :: l)) with (o :: cli_ops l) in *.
    rewrite ops_bytes_cons in *. cbn [length foldl] in *. pose proof (ops_bytes_nonneg (cli_ops l)).
    destruct (run_write pos1 pos2 o d w A n k Hr Ho) as (w1 & Hrun & Hr1);
      [lia|lia|done|done|by constructor|].
    destruct (IH w1 _ _ _ Hr1 ltac:(lia) ltac:(lia)) as (w' & Hall & Hr').
    exists w'. rewrite (M_bind_Ok _ _ _ _ _ Hrun), (M_bind_Ok _ _ _ _ _ Hall). split; [done|].
    replace (n + (blen (enc (op_record o)) + ops_bytes (cli_ops l)))
      with (n + blen (enc (op_record o)) + ops_bytes (cli_ops l)) by lia.
    replace (k + Z.of_nat (S (length (cli_ops l)))) with (k + 1 + Z.of_nat (length (cli_ops l))) by lia.
    exact Hr'.
  - change (cli_ops ((pos1, pos2, CGetKey key) :: l)) with (cli_ops l) in *.
    assert (Hfk : is_flag key = false) by (rewrite Forall_forall in Hfl; apply Hfl; right; by left).
    destruct (run_get pos1 pos2 key d w A n k Hr Hpos Hd Hf Hfk) as (w1 & Hrun & Hr1).
    destruct (IH w1 _ _ _ Hr1 Hn Hk) as (w' & Hall & Hr').
    exists w'. by rewrite (M_bind_Ok _ _ _ _ _ Hrun), (M_bind_Ok _ _ _ _ _ Hall).
Qed.
End CliOps.
