(* ===== verification/Demo.v ===== *)
(** * The example program: example/main.go

    The program is one run of the library in a temporary directory.  Its result
    is the exit code with the calls of [fmt.Printf] it made; the formatting
    itself and standard error are left out.  [os.Exit] skips deferred calls, so
    they run on success only. *)
From S2P Require Import Prelude LogEntry LogReader Index FileSys Segment Store Merge.

Module Demo.
Import Index Segment Store.

(** A call of [fmt.Printf] or [fmt.Println]: the format, with escapes as in the
    source, and the arguments. *)
Inductive arg := AInt (n : Z) | AStr (s : bytes) | ABool (b : bool).

Record line := Printf { format : string; args : list arg }.
Arguments Printf format%_string_scope args.

Record Proc := MkProc { pworld : World; out : list line }.

Definition print (l : line) : M Proc unit := modify (fun p => MkProc (pworld p) (out p ++ [l])).

(** An error in this monad is [fmt.Fprintln(os.Stderr, ...)] and [os.Exit(1)]. *)
Definition call {A} (m : M World A) : M Proc A :=
  zoom pworld (fun w p => MkProc w (out p)) m.

(** A method of a store object, which comes back updated. *)
Definition method {A} (s : Store) (m : M State A) : M Proc (A * Store) :=
  call (fun w =>
    match m (MkState w s) with
    | (x, Ok a) => (world x, Ok (a, st x))
    | (x, Err e) => (world x, Err e)
    | (x, Panic) => (world x, Panic)
    end).

Section Main.
Context `{!GoRange Z} `{!GoRange bytes}.

(** [os.MkdirTemp]: the name is the system's choice. *)
Context (pick : FileSys.FS -> bytes).

Definition MkdirTemp : M FileSys.FS bytes :=
  FileSys.syscall (fun s =>
    (FileSys.MkFS ({[pick s]} ∪ FileSys.dirs s) (FileSys.names s) (FileSys.data s)
       (FileSys.next s) (FileSys.faults s), Ok (pick s))).

(** [os.RemoveAll(dir)], which may stop after some of the entries. *)
Definition RemoveAll (dir : bytes) : M FileSys.FS unit :=
  x ← FileSys.pop_fault;
  match x with
  | FileSys.FNone => modify (fun s =>
      FileSys.MkFS (FileSys.dirs s ∖ {[dir]}) (filter (fun '((d, _), _) => d <> dir) (FileSys.names s))
        (FileSys.data s) (FileSys.next s) (FileSys.faults s))
  | FileSys.FFail => throw FileSys.EIO
  | FileSys.FShort n =>
      modify (fun s => FileSys.set_names
        (foldr (fun '(name, _) m => delete (dir, name) m) (FileSys.names s)
           (take n (FileSys.dir_entries s dir))) s) ≫= fun _ => throw FileSys.EIO
  end.

Definition sample_entries : list (bytes * bytes) := [
  (bs "user:1:name", bs "alice"); (bs "user:1:role", bs "admin");
  (bs "user:2:name", bs "bob"); (bs "user:2:role", bs "reader")].

Definition sample : gmap bytes bytes := list_to_map sample_entries.

Definition shown : list bytes :=
  [bs "user:1:name"; bs "user:1:role"; bs "user:2:name"; bs "user:2:role"].

Definition superuser : bytes := bs "superuser".

(** The loop printing the values: a missing key prints the value nil. *)
Fixpoint show_keys (ks : list bytes) (s : Store) : M Proc Store :=
  match ks with
  | [] => mret s
  | k :: ks' =>
      r ← method s (Get k);
      let '(v, s) := r in
      print (Printf "  %-14s -> %q (present=%v)\n"
        [AStr k; AStr (default [] v); ABool (bool_decide (is_Some v))]) ≫= fun _ =>
      show_keys ks' s
  end.

(** The edits to the first store. *)
Definition edits : M State unit :=
  range_loop (go_range sample) (fun '(k, v) => Put k v) ≫= fun _ =>
  Put (bs "user:1:role") superuser ≫= fun _ =>
  Delete (bs "user:2:role").

Definition ErrMismatch : error := errors_New "reopened value mismatch:".

(** The body of [main]; it returns what the deferred calls use. *)
Definition main_body : M Proc (bytes * Store * Store) :=
  dir ← call (os MkdirTemp);
  s ← call (Open dir);
  r ← method s edits;
  let s := r.2 in
  print (Printf "keys before merge: %d\n" [AInt (Count s)]) ≫= fun _ =>
  s ← show_keys shown s;
  r ← method s Merge.Merge;
  let s := r.2 in
  print (Printf "segments after merge: %d\n" [AInt (blen (FileIDs s))]) ≫= fun _ =>
  r ← method s Close;
  let s := r.2 in
  s2 ← call (Open dir);
  r ← method s2 (attempt (Get (bs "user:1:role")));
  let '(v, s2) := r in
  match v with
  | inr (Some v) =>
      if bool_decide (v = superuser)
      then print (Printf "reopened store agrees with the original state" []) ≫= fun _ =>
           mret (dir, s, s2)
      else throw ErrMismatch
  | _ => throw ErrMismatch
  end.

(** The deferred calls, last first. *)
Definition deferred (dir : bytes) (s s2 : Store) : M Proc unit :=
  ignore (method s2 Close) ≫= fun _ =>
  ignore (method s Close) ≫= fun _ =>
  ignore (call (os (RemoveAll dir))).

(** The exit code and the lines printed. *)
Definition main : M World (Z * list line) := fun w =>
  match main_body (MkProc w []) with
  | (p, Ok (dir, s, s2)) =>
      let '(p', r) := deferred dir s s2 p in
      (pworld p', match r with Ok _ => Ok (0, out p') | Err e => Err e | Panic => Panic end)
  | (p, Err _) => (pworld p, Ok (1, out p))
  | (p, Panic) => (pworld p, Panic)
  end.
End Main.
End Demo.
