(* ===== verification/DemoOps.v ===== *)
(** * The example program: what it prints *)
From S2P Require Import Prelude LogEntry LogReader Index FileSys Segment Store Merge Repr StoreOps Recovery Opening Durable Session MergeOps Promote Compaction Refine Restart Demo.
Import LogReader Index Segment Store Repr StoreOps Recovery Opening Durable Session MergeOps Promote Compaction Refine Restart Demo.

Module DemoOps.

(** ** Lists of writes *)

Lemma range_loop_snoc {St A} (l k : list A) (body : A -> M St unit) (s : St) :
  range_loop (l ++ k) body s = (range_loop l body ≫= fun _ => range_loop k body) s.
Proof.
  revert s. induction l as [|a l IH]; intros s; [done|]. cbn [app range_loop].
  rewrite M_bind_assoc. destruct (body a s) as [s' [[]|e|]] eqn:E.
  - rewrite !(M_bind_Ok _ _ _ _ _ E). apply IH.
  - by rewrite !(M_bind_Err _ _ _ _ _ E).
  - unfold mbind, M_bind. by rewrite E.
Qed.

Lemma range_loop_fmap {St A B} (g : A -> B) (l : list A) (body : B -> M St unit) (s : St) :
  range_loop (g <$> l) body s = range_loop l (fun a => body (g a)) s.
Proof.
  revert s. induction l as [|a l IH]; intros s; [done|]. cbn [fmap list_fmap range_loop].
  unfold mbind, M_bind. destruct (body (g a) s) as [s' [[]|e|]]; [|done|done]. apply IH.
Qed.

Lemma range_loop_ext {St A} (l : list A) (f g : A -> M St unit) (s : St) :
  (forall a, f a = g a) -> range_loop l f s = range_loop l g s.
Proof.
  intros H. revert s. induction l as [|a l IH]; intros s; [done|]. cbn [range_loop]. rewrite (H a).
  destruct (g a s) as [s' [[]|e|]] eqn:E.
  - rewrite !(M_bind_Ok _ _ _ _ _ E). apply IH.
  - by rewrite !(M_bind_Err _ _ _ _ _ E).
  - unfold mbind, M_bind. by rewrite E.
Qed.

Lemma ops_bytes_bound c l : Forall (fun o => blen (enc (op_record o)) <= c) l ->
  ops_bytes l <= c * Z.of_nat (length l).
Proof.
  induction 1 as [|o l Ho _ IH]; [by rewrite Z.mul_0_r|]. rewrite ops_bytes_cons. cbn [length]. lia.
Qed.

(** Putting the entries of a map in any order builds the map. *)
Definition puts (l : list (bytes * bytes)) : list op := (fun kv => OpPut kv.1 kv.2) <$> l.

Lemma puts_build (l : list (bytes * bytes)) (m : gmap bytes bytes) :
  l ≡ₚ map_to_list m -> foldl apply_op ∅ (puts l) = m.
Proof.
  intros Hl. assert (Hf : forall A, foldl apply_op A (puts l) = foldl (fun m kv => <[kv.1 := kv.2]> m) A l).
  { clear Hl. induction l as [|kv l IH]; intros A; [done|]. cbn. apply IH. }
  rewrite Hf. apply map_eq. intros k. apply option_eq. intros v.
  rewrite (foldl_insert_lookup fst snd).
  2:{ rewrite Hl. apply NoDup_fst_map_to_list. }
  rewrite (lookup_empty (M:=gmap bytes)). split.
  - intros [([k' v'] & Hin & <- & <-)|[_ H]]; [|done]. rewrite Hl in Hin. by apply elem_of_map_to_list.
  - intros H. left. exists (k, v). rewrite Hl. by rewrite elem_of_map_to_list.
Qed.

Section WithRange.
Context `{!GoRange Z} `{!GoRange bytes}.

(** ** The edits *)

Definition edit_ops : list op :=
  puts (go_range sample) ++ [OpPut (bs "user:1:role") superuser; OpDelete (bs "user:2:role")].

Lemma edits_ops x : edits x = run_ops edit_ops x.
Proof.
  unfold edits, run_ops, edit_ops, puts. rewrite range_loop_snoc.
  assert (Hext : range_loop (go_range sample) (fun '(k, v) => Store.Put k v) x
    = range_loop ((fun kv => OpPut kv.1 kv.2) <$> go_range sample) run_op x).
  { rewrite range_loop_fmap. by apply range_loop_ext; intros [k v]. }
  unfold mbind, M_bind, mret, M_ret. rewrite Hext.
  generalize (range_loop ((fun kv => OpPut kv.1 kv.2) <$> go_range sample) run_op x).
  clear Hext. intros [x1 [[]|e|]]; [|done|done].
  cbn [range_loop run_op]. unfold mbind, M_bind, mret, M_ret.
  destruct (Store.Put _ _ x1) as [x2 [[]|e|]]; [|done|done].
  by destruct (Store.Delete _ x2) as [x3 [[]|e|]].
Qed.

(** What the edits leave. *)
Definition final : gmap bytes bytes :=
  delete (bs "user:2:role") (<[bs "user:1:role" := superuser]> sample).

Lemma edit_ops_final : foldl apply_op ∅ edit_ops = final.
Proof.
  unfold edit_ops. rewrite foldl_app, (puts_build _ sample) by apply go_range_perm. done.
Qed.

Lemma range_sample : go_range sample ≡ₚ sample_entries.
Proof.
  rewrite go_range_perm. apply map_to_list_to_map.
  apply (bool_decide_unpack _). by vm_compute.
Qed.

(** A write of a short record. *)
Definition small_op (o : op) : bool :=
  negb (bool_decide (rkey (op_record o) = []))
  && (blen (rkey (op_record o)) + blen (rvalue (op_record o)) <=? 40).

Lemma small_op_ok o : small_op o = true -> op_ok o /\ blen (enc (op_record o)) <= 64.
Proof.
  intros [Hk%negb_true_iff%bool_decide_eq_false Hn%Z.leb_le]%andb_prop. split.
  - split; [done|]. unfold readable. transitivity 40; [done|by vm_compute].
  - rewrite blen_enc. unfold LogEntry.frameSize, LogEntry.headerSize. lia.
Qed.

Lemma edit_ops_small : Forall (fun o => op_ok o /\ blen (enc (op_record o)) <= 64) edit_ops
  /\ length edit_ops = 6%nat.
Proof.
  unfold edit_ops, puts. split.
  - eapply Forall_impl; [|exact small_op_ok]. apply Forall_app. split.
    + rewrite range_sample. repeat (constructor; [by vm_compute|]). constructor.
    + repeat (constructor; [by vm_compute|]). constructor.
  - rewrite length_app, length_fmap, range_sample. by vm_compute.
Qed.

Lemma run_edits x G L :
  Durable x G L -> quiet x -> abs G (index (st x)) = ∅ -> bounded G 0 1 ->
  exists x' G' L', edits x = (x', Ok tt) /\ Durable x' G' L' /\ quiet x'
    /\ abs G' (index (st x')) = final /\ dir (st x') = dir (st x) /\ bounded G' 384 7.
Proof.
  intros HD Hq Ha Hb. destruct edit_ops_small as [Hs Hl]. apply Forall_and in Hs as [Hok Hsz].
  pose proof (ops_bytes_bound 64 _ Hsz) as Hbytes. rewrite Hl in Hbytes.
  destruct (run_ops_Ok x G L 0 1 edit_ops HD Hq Hok Hb) as (x' & G' & L' & Hrun & HD' & Hq' & Habs & Hdir & Hb').
  - unfold FileSys.max_file. lia.
  - rewrite Hl. unfold max_id. lia.
  - exists x', G', L'. rewrite edits_ops, Habs, Ha, edit_ops_final. split_and!; try done.
    rewrite Hl in Hb'. eapply bounded_weaken; [exact Hb'|lia|lia].
Qed.

(** ** Printing the values *)

Definition value_line (A : gmap bytes bytes) (k : bytes) : line :=
  Printf "  %-14s -> %q (present=%v)\n"
    [AStr k; AStr (default [] (A !! k)); ABool (bool_decide (is_Some (A !! k)))].

Lemma method_Ok {A} (m : M State A) x x' a o :
  m x = (x', Ok a) -> method (st x) m (MkProc (world x) o) = (MkProc (world x') o, Ok (a, st x')).
Proof. intros H. unfold method, call, zoom. cbn [pworld]. destruct x. cbn [world st]. by rewrite H. Qed.

Lemma show_keys_Ok ks x G o : Inv x G -> quiet x ->
  show_keys ks (st x) (MkProc (world x) o)
  = (MkProc (world x) (o ++ (value_line (abs G (index (st x))) <$> ks)), Ok (st x)).
Proof.
  intros HI Hq. revert o. induction ks as [|k ks IH]; intros o; cbn [show_keys].
  { cbn. by rewrite app_nil_r. }
  mstep (method_Ok _ _ _ _ o (Get_Ok x G k HI Hq)). cbn [fst snd].
  rewrite (M_bind_Ok _ _ _ (MkProc (world x) (o ++ [value_line (abs G (index (st x))) k])) tt) by done.
  rewrite IH, fmap_cons, <- app_assoc. done.
Qed.

(** ** The compaction *)

Lemma loc_size_bound G n j k loc v : bounded G n j -> rec_val G k loc v -> Index.Size loc <= n.
Proof.
  intros Hb (ino & pre & post & HG & _ & -> & _). apply Hb in HG as [HG _].
  rewrite !blen_app in HG. pose proof (blen_nonneg pre). pose proof (blen_nonneg post). lia.
Qed.

Lemma live_bytes_bound G n j idx :
  idx_ok G idx -> bounded G n j -> live_bytes idx <= n * blen (LiveEntries idx).
Proof.
  intros Hi Hb. pose proof (LiveEntries_ok G idx Hi) as Hl. unfold live_bytes.
  induction Hl as [|kl l (v & Hv & _) _ IH]; [by rewrite Z.mul_0_r|].
  cbn [foldr]. rewrite blen_cons. pose proof (loc_size_bound _ _ _ _ _ _ Hb Hv). lia.
Qed.

Lemma hint_size_bound c ks : Forall (fun k => blen k <= c) ks -> hint_size ks <= 8 + (29 + c) * blen ks.
Proof.
  unfold hint_size. induction 1 as [|k ks Hk _ IH]; [by rewrite Z.mul_0_r|].
  cbn [foldr]. rewrite blen_cons. lia.
Qed.

Lemma final_live x G : Inv x G -> abs G (index (st x)) = final ->
  (Index.Key <$> LiveEntries (index (st x))) ≡ₚ (map_to_list final).*1.
Proof. intros HI <-. by apply dom_live. Qed.

Lemma final_keys_small : Forall (fun k => blen k <= 11) (map_to_list final).*1.
Proof. apply (bool_decide_unpack _). by vm_compute. Qed.

Lemma final_size : base.size final = 3%nat.
Proof. by vm_compute. Qed.

Lemma final_merge x G L :
  Durable x G L -> quiet x -> abs G (index (st x)) = final -> bounded G 384 7 ->
  exists x' G' i, Merge.Merge x = (x', Ok tt) /\ FileIDs (st x') = [i] /\ quiet x'
    /\ Hinted x' G' (index (st x')) /\ abs G' (index (st x')) = final /\ dir (st x') = dir (st x).
Proof.
  intros HD Hq Ha Hb. pose proof (dur_inv _ _ _ HD) as HI.
  pose proof (final_live x G HI Ha) as Hk.
  assert (Hkeys : Forall (fun k => blen k <= 11) (Index.Key <$> LiveEntries (index (st x))))
    by (rewrite Hk; apply final_keys_small).
  assert (Hn : blen (LiveEntries (index (st x))) = 3).
  { change (Count (st x) = 3). rewrite (Count_Ok x G HI), Ha, final_size. done. }
  assert (Hfit : merge_fits x).
  { split_and!.
    - destruct (inv_active _ _ HI) as (_ & [[ino c] HG] & _). apply Hb in HG. unfold max_id. lia.
    - pose proof (live_bytes_bound G _ _ _ (inv_index _ _ HI) Hb). unfold FileSys.max_file. lia.
    - pose proof (hint_size_bound 11 _ Hkeys) as Hs. revert Hs. unfold blen in Hn |- *.
      rewrite length_fmap, Hn. unfold FileSys.max_file. lia. }
  destruct (Merge_live_Ok x G HI Hq) as (x' & m & Hm & HC).
  { intros H. by rewrite H in Hn. }
  { by apply merge_fits_room. }
  exists x'. eexists _, _. split_and!; [exact Hm|eapply FileIDs_one, HC|apply HC| | |apply HC].
  - apply (compacted_Hinted x x' G m HI HC).
    + eapply Forall_impl; [exact Hkeys|]. intros k Hle. unfold max_hint_key. cbv beta in Hle. lia.
    + rewrite Hn. by vm_compute.
  - rewrite (cp_index _ _ _ _ HC), <- Ha. eapply abs_merged; [apply HI|]. apply lookup_singleton_eq.
Qed.

(** ** The whole program *)

(** What the program prints. *)
Definition expected : list line :=
  [Printf "keys before merge: %d\n" [AInt 3];
   Printf "  %-14s -> %q (present=%v)\n" [AStr (bs "user:1:name"); AStr (bs "alice"); ABool true];
   Printf "  %-14s -> %q (present=%v)\n" [AStr (bs "user:1:role"); AStr (bs "superuser"); ABool true];
   Printf "  %-14s -> %q (present=%v)\n" [AStr (bs "user:2:name"); AStr (bs "bob"); ABool true];
   Printf "  %-14s -> %q (present=%v)\n" [AStr (bs "user:2:role"); AStr []; ABool false];
   Printf "segments after merge: %d\n" [AInt 1];
   Printf "reopened store agrees with the original state" []].

Lemma shown_expected :
  [Printf "keys before merge: %d\n" [AInt 3]] ++ (value_line final <$> shown)
  ++ [Printf "segments after merge: %d\n" [AInt 1]; Printf "reopened store agrees with the original state" []]
  = expected.
Proof. by vm_compute. Qed.

Lemma call_Ok {A} (m : M World A) w w' a o :
  m w = (w', Ok a) -> call m (MkProc w o) = (MkProc w' o, Ok a).
Proof. intros H. unfold call, zoom. cbn [pworld]. by rewrite H. Qed.

Lemma print_bind {A} l (k : unit -> M Proc A) p :
  (print l ≫= k) p = k tt (MkProc (pworld p) (out p ++ [l])).
Proof. done. Qed.

Lemma Close_closed x x' G : Inv x G -> quiet x -> Store.Close x = (x', Ok tt) -> closed (st x') = true.
Proof. intros HI Hq Hc. destruct (Close_state x G HI Hq) as [h Hs]. rewrite Hc in Hs. by injection Hs as ->. Qed.

(** A fresh temporary directory. *)
Definition with_dir (d : bytes) (w : World) : World :=
  MkWorld (FileSys.MkFS ({[d]} ∪ FileSys.dirs (fs w)) (FileSys.names (fs w)) (FileSys.data (fs w))
    (FileSys.next (fs w)) (FileSys.faults (fs w))) (heap w) (hnext w).

Lemma main_body_Ok (pick : FileSys.FS -> bytes) (w : World) :
  let d := pick (fs w) in
  no_faults w -> (forall name, FileSys.names (fs w) !! (d, name) = None) ->
  (forall key ino, FileSys.names (fs w) !! key = Some (FileSys.DFile ino) ->
     (ino < FileSys.next (fs w))%nat) ->
  exists s x G, main_body pick (MkProc w []) = (MkProc (world x) expected, Ok (d, s, st x))
    /\ closed s = true /\ Inv x G /\ quiet x.
Proof.
  intros d Hq Hn Hf. unfold main_body.
  assert (Hmk : os (MkdirTemp pick) w = (with_dir d w, Ok d)).
  { apply os_Ok. unfold MkdirTemp. by rewrite FileSys.syscall_none. }
  mstep (call_Ok _ _ _ _ [] Hmk).
  destruct (Open_new (with_dir d w) d DefaultOptions Hq Hn Hf)
    as (w1 & s1 & G1 & L1 & Ho1 & HD1 & Hq1 & Hdir1 & Ha1 & Hb1).
  mstep (call_Ok _ _ _ _ [] Ho1).
  destruct (run_edits (MkState w1 s1) G1 L1 HD1 Hq1 Ha1 Hb1)
    as (x2 & G2 & L2 & He & HD2 & Hq2 & Ha2 & Hdir2 & Hb2).
  pose proof (dur_inv _ _ _ HD2) as HI2.
  mstep (method_Ok _ _ _ _ [] He). cbn [snd].
  rewrite (Count_Ok x2 G2 HI2), Ha2, final_size.
  rewrite print_bind. cbn [pworld out app].
  mstep (show_keys_Ok shown x2 G2 [Printf "keys before merge: %d\n" [AInt 3]] HI2 Hq2).
  rewrite Ha2.
  destruct (final_merge x2 G2 L2 HD2 Hq2 Ha2 Hb2) as (x3 & G3 & i & Hm & Hids & Hq3 & HH3 & Ha3 & Hdir3).
  mstep (method_Ok _ _ _ _ ([Printf "keys before merge: %d\n" [AInt 3]] ++ (value_line final <$> shown)) Hm).
  cbn [snd]. rewrite Hids, print_bind. cbn [pworld out].
  destruct (reopen_hinted x3 G3 _ DefaultOptions HH3 Hq3) as (x4 & w5 & s5 & Hc & Ho5 & HH5 & Hq5 & Hi5 & _).
  set (o := (_ ++ _) ++ _).
  mstep (method_Ok _ _ _ _ o Hc). cbn [snd].
  assert (Hd3 : dir (st x3) = d) by (by rewrite Hdir3, Hdir2).
  rewrite Hd3 in Ho5. mstep (call_Ok _ _ _ _ o Ho5).
  pose proof (hn_inv _ _ _ HH5) as HI5.
  pose proof (Get_Ok _ G3 (bs "user:1:role") HI5 Hq5) as Hget.
  cbn [st] in Hget. rewrite Hi5, Ha3 in Hget.
  mstep (method_Ok _ _ _ _ o (attempt_Ok _ _ _ _ Hget)).
  assert (Hsu : final !! bs "user:1:role" = Some superuser) by by vm_compute.
  rewrite Hsu. cbn [fst snd]. rewrite bool_decide_eq_true_2 by done. rewrite print_bind.
  exists (st x4), (MkState w5 s5), G3. split_and!; [|by apply (Close_closed x3 _ G3 (hn_inv _ _ _ HH3) Hq3)|done|done].
  rewrite <- shown_expected. unfold o. cbn [pworld out world st]. by rewrite <- !app_assoc.
Qed.

(** The deferred calls remove the directory. *)
Lemma deferred_Ok d s x G o :
  closed s = true -> Inv x G -> quiet x ->
  exists w', deferred d s (st x) (MkProc (world x) o) = (MkProc w' o, Ok tt)
    /\ (forall name, FileSys.names (fs w') !! (d, name) = None)
    /\ (forall d' name, d' <> d ->
          FileSys.names (fs w') !! (d', name) = FileSys.names (fs (world x)) !! (d', name))
    /\ d ∉ FileSys.dirs (fs w').
Proof.
  intros Hs HI Hq. destruct (Close_state x G HI Hq) as [h Hc]. unfold deferred.
  set (w1 := MkWorld (fs (world x)) h (hnext (world x))) in *.
  rewrite (M_bind_Ok _ _ _ (MkProc w1 o) tt) by (eapply ignore_Ok, (method_Ok _ _ _ _ o Hc)).
  assert (Hc2 : Store.Close (MkState w1 s) = (MkState w1 s, Ok tt)).
  { unfold Store.Close. rewrite self_bind. cbn [st]. by rewrite Hs. }
  rewrite (M_bind_Ok _ _ _ (MkProc w1 o) tt) by (eapply ignore_Ok, (method_Ok _ (MkState w1 s) _ _ o Hc2)).
  set (s2 := FileSys.MkFS (FileSys.dirs (fs w1) ∖ {[d]})
    (filter (fun '((d', _), _) => d' <> d) (FileSys.names (fs w1)))
    (FileSys.data (fs w1)) (FileSys.next (fs w1)) (FileSys.faults (fs w1))).
  exists (MkWorld s2 (heap w1) (hnext w1)). split_and!.
  - eapply ignore_Ok, call_Ok, os_Ok. unfold RemoveAll.
    by rewrite (M_bind_Ok _ _ _ _ _ (FileSys.pop_fault_none (fs w1) Hq)).
  - intros name. cbn. apply map_lookup_filter_None. right. intros e _ H. by apply H.
  - intros d' name Hne. cbn. destruct (FileSys.names (fs (world x)) !! (d', name)) as [e|] eqn:E.
    + by apply map_lookup_filter_Some.
    + apply map_lookup_filter_None. by left.
  - cbn. set_solver.
Qed.
End WithRange.
End DemoOps.
