(* ===== verification/LogTheorems.v ===== *)
(** * Properties of the log format and the hint file *)
From S2P Require Import Prelude Crc32 LogEntry LogReader Index FileSys Segment.
Import LogReader Index Segment.

Module LogTheorems.

Definition rec_a : log_record := MkRec (bs "a") (bs "one") false.
Definition rec_b : log_record := MkRec (bs "b") [] true.

Lemma rec_a_readable : readable rec_a.
Proof. unfold readable. by vm_compute. Qed.

Lemma rec_b_readable : readable rec_b.
Proof. unfold readable. by vm_compute. Qed.

(** C17: reading back a log.  From a stream that holds the frames of records
    within the payload limit, [Next] returns exactly those records, in order,
    each with the offset and size of its frame, and then [io.EOF]; the reader
    ends at the stream's length. *)
Theorem reader_returns_records xs :
  Forall readable xs ->
  reads (NewReader (MkIoReader (frames xs) EOF)) (located 0 xs)
    (MkReader (MkIoReader [] EOF) (blen (frames xs))) EOF.
Proof.
  intros H. pose proof (reads_app 0 xs [] [] (at_ (0 + blen (frames xs)) []) EOF EOF H) as Hr.
  rewrite !app_nil_r in Hr. apply Hr. apply reads_stop, Next_nil.
Qed.

Lemma reader_returns_records_witness :
  reads (NewReader (MkIoReader (frames [rec_a; rec_b]) EOF)) (located 0 [rec_a; rec_b])
    (MkReader (MkIoReader [] EOF) 39) EOF.
Proof.
  apply (reader_returns_records [rec_a; rec_b]).
  repeat constructor; [apply rec_a_readable|apply rec_b_readable].
Defined.

(** C18: a record cut short.  Of a frame cut after [n] bytes [Next] reports
    [ErrCorrupt], except when nothing is left or when the cut is right after
    the 17-byte frame header: then it reports a clean [io.EOF]. *)
Theorem next_truncated p x n :
  readable x -> (n < length (enc x))%nat ->
  (Next (MkReader (MkIoReader (take n (enc x)) EOF) p)).2
  = Err (if bool_decide (n = 0%nat \/ n = 17%nat) then EOF else LogEntry.ErrCorrupt).
Proof. intros Hx Hn. exact (f_equal snd (Next_prefix p x n Hx Hn)). Qed.

Lemma next_truncated_witness :
  (Next (MkReader (MkIoReader (take 17 (enc rec_a)) EOF) 0)).2 = Err EOF
  /\ (Next (MkReader (MkIoReader (take 16 (enc rec_a)) EOF) 0)).2 = Err LogEntry.ErrCorrupt.
Proof.
  split.
  - apply (next_truncated 0 rec_a 17); [apply rec_a_readable|apply Nat.ltb_lt; by vm_compute].
  - apply (next_truncated 0 rec_a 16); [apply rec_a_readable|apply Nat.ltb_lt; by vm_compute].
Defined.

(** C19: [Next] detects corruption.  Replacing up to four consecutive bytes of a
    frame by other bytes, anywhere outside the two length fields, makes [Next]
    report a checksum mismatch, whatever follows the frame. *)
Theorem next_detects_burst e p x pre a b q post :
  readable x -> enc x = pre ++ a ++ q ->
  length a = length b -> blen a <= 4 -> a <> b ->
  blen pre + blen a <= 4 \/ 12 <= blen pre ->
  (Next (MkReader (MkIoReader (pre ++ b ++ q ++ post) e) p)).2 = Err LogEntry.ErrChecksum.
Proof. apply Next_burst. Qed.

Lemma next_detects_burst_witness :
  (Next (MkReader (MkIoReader (take 18 (enc rec_a) ++ bs "en" ++ bs "e" ++ []) EOF) 0)).2
  = Err LogEntry.ErrChecksum.
Proof.
  apply (next_detects_burst EOF 0 rec_a (take 18 (enc rec_a)) (bs "on") (bs "en") (bs "e") []).
  - apply rec_a_readable.
  - vm_compute. reflexivity.
  - reflexivity.
  - by vm_compute.
  - discriminate.
  - right. vm_compute. discriminate.
Defined.

(** C20: encoding and decoding.  [Decode] of an encoded record, with any bytes
    after it, returns the key, value and tombstone flag and the frame's size;
    of a proper prefix of the encoding it returns [ErrCorrupt]. *)
Theorem decode_encode key value t :
  LogEntry.fits key value ->
  (forall post, LogEntry.Decode (LogEntry.Encode key value t ++ post)
     = Ok {| LogEntry.Key := key; LogEntry.Value := value; LogEntry.Tombstone := t;
             LogEntry.FileID := 0; LogEntry.Offset := 0;
             LogEntry.Size := blen (LogEntry.Encode key value t) |})
  /\ (forall n, (n < length (LogEntry.Encode key value t))%nat ->
       LogEntry.Decode (take n (LogEntry.Encode key value t)) = Err LogEntry.ErrCorrupt).
Proof.
  intros Hf. split.
  - intros post. by rewrite LogEntry.Decode_Encode, LogEntry.blen_Encode.
  - intros n Hn. by apply LogEntry.Decode_prefix.
Qed.

Lemma decode_encode_witness :
  LogEntry.Decode (LogEntry.Encode (bs "k") (bs "value") false ++ bs "junk")
  = Ok {| LogEntry.Key := bs "k"; LogEntry.Value := bs "value"; LogEntry.Tombstone := false;
          LogEntry.FileID := 0; LogEntry.Offset := 0; LogEntry.Size := 23 |}
  /\ LogEntry.Decode (take 22 (LogEntry.Encode (bs "k") (bs "value") false)) = Err LogEntry.ErrCorrupt.
Proof.
  destruct (decode_encode (bs "k") (bs "value") false) as [Ha Hb]; [by split|]. split.
  - apply Ha.
  - apply Hb. apply Nat.ltb_lt. by vm_compute.
Defined.

(** [Decode] is safe on every input.  It never panics, and when it
    succeeds the input starts with a checksum, a 13-byte header with the two
    lengths, the key and the value, and the checksum is the CRC-32 of the
    decoded header fields, key and value. *)
Theorem decode_sound data :
  match LogEntry.Decode data with
  | Ok e =>
      exists c hb post h,
        data = c ++ hb ++ LogEntry.Key e ++ LogEntry.Value e ++ post
        /\ blen c = 4 /\ blen hb = LogEntry.headerSize /\ LogEntry.decodeHeader hb = Ok h
        /\ LogEntry.keyLen h = blen (LogEntry.Key e) /\ LogEntry.valueLen h = blen (LogEntry.Value e)
        /\ LogEntry.tombstone h = LogEntry.Tombstone e
        /\ be_get c = Crc32.ChecksumIEEE
                        (LogEntry.checksumPayload h (LogEntry.Key e) (LogEntry.Value e))
  | Err _ => True
  | Panic => False
  end.
Proof.
  destruct (LogEntry.Decode data) as [e|e|] eqn:E; [|done|by apply LogEntry.Decode_not_Panic in E].
  apply LogEntry.Decode_Ok_inv in E as (c & hb & post & h & H). exists c, hb, post, h. naive_solver.
Qed.

(** Bytes [Decode] does not check.  Changing the four reserved bytes of a
    frame to anything, and a cleared flag byte to any value other than 1, does
    not change the result of [Decode]: the checksum is recomputed from the
    decoded fields. *)
Theorem decode_ignores_reserved key value t b r post :
  LogEntry.fits key value -> blen r = 4 -> (b = Byte.x01 <-> t = true) ->
  LogEntry.Decode (be_put 4 (LogEntry.ComputeCRC key value t) ++ be_put 4 (blen key)
                   ++ be_put 4 (blen value) ++ [b] ++ r ++ key ++ value ++ post)
  = LogEntry.Decode (LogEntry.Encode key value t ++ post).
Proof. apply LogEntry.Decode_flags. Qed.

Lemma decode_ignores_reserved_witness :
  LogEntry.Decode (be_put 4 (LogEntry.ComputeCRC (bs "k") (bs "v") false) ++ be_put 4 1
                   ++ be_put 4 1 ++ [Byte.x7f] ++ bs "junk" ++ bs "k" ++ bs "v" ++ [])
  = LogEntry.Decode (LogEntry.Encode (bs "k") (bs "v") false ++ []).
Proof.
  apply (decode_ignores_reserved (bs "k") (bs "v") false Byte.x7f (bs "junk") []).
  - by split.
  - reflexivity.
  - split; discriminate.
Defined.

(** Segment file names.  [ParseSegmentID] accepts exactly the names that
    [SegmentName] gives to the ids of at most ten digits, and returns the id. *)
Theorem segment_names name id :
  ParseSegmentID name = Some id <-> 0 <= id < max_id /\ name = SegmentName id.
Proof. apply ParseSegmentID_spec. Qed.

(** C21: the hint file round trip.  Loading the bytes that [WriteHint] writes
    into a buffer gives back the index, whatever the receiver held and whatever
    follows in the stream, for int64 locations, keys of at most 16 MiB and at
    most 2^28 entries; of every proper prefix of those bytes [LoadHint] reports
    [ErrHint] and keeps the receiver's index. *)
Theorem hint_round_trip i j rest e :
  Forall kl_ok (pairs i) -> Z.of_nat (base.size i) <= max_hint_count ->
  exists file,
    WriteHint i ([] : bytes) = (file, Ok tt)
    /\ LoadHint (MkIoReader (file ++ rest) e, j) = ((MkIoReader rest e, i), Ok tt)
    /\ (forall n, (n < length file)%nat ->
          exists r' err, LoadHint (MkIoReader (take n file) e, j) = ((r', j), Err err)
                         /\ hint_error err).
Proof.
  intros Hk Hs. exists (hint_bytes i). split_and!.
  - by apply (WriteHint_emit (fun a : bytes => a) (fun _ => True) i []).
  - by apply LoadHint_hint_bytes.
  - intros n Hn. by apply LoadHint_prefix.
Qed.

Definition sample_index : Index :=
  {[bs "k1" := MkLocation 1 0 25 false; bs "k2" := MkLocation 2 40 21 true]}.

Lemma hint_round_trip_witness :
  exists file,
    WriteHint sample_index ([] : bytes) = (file, Ok tt)
    /\ LoadHint (MkIoReader (file ++ bs "x") EOF, Index.New) = ((MkIoReader (bs "x") EOF, sample_index), Ok tt)
    /\ (forall n, (n < length file)%nat ->
          exists r' err, LoadHint (MkIoReader (take n file) EOF, Index.New) = ((r', Index.New), Err err)
                         /\ hint_error err).
Proof.
  apply (hint_round_trip sample_index Index.New (bs "x") EOF).
  - assert (pairs sample_index = [MkKeyLocation (bs "k1") (MkLocation 1 0 25 false);
      MkKeyLocation (bs "k2") (MkLocation 2 40 21 true)]) as -> by reflexivity.
    repeat constructor; vm_compute; discriminate.
  - by vm_compute.
Defined.

(** Keys the hint file cannot carry.  An index with a key longer than
    16 MiB is written without error, but [LoadHint] refuses the file. *)
Theorem hint_oversized_key i j e :
  Forall (fun kl => blen (Key kl) < 2 ^ 32 /\ loc_ok (Loc kl)) (pairs i) ->
  Exists (fun kl => max_hint_key < blen (Key kl)) (pairs i) ->
  Z.of_nat (base.size i) <= max_hint_count ->
  exists file r',
    WriteHint i ([] : bytes) = (file, Ok tt)
    /\ LoadHint (MkIoReader file e, j)
       = ((r', j), Err (Errorf "%w: absurd key length %d" ErrHint)).
Proof.
  intros Hk Hex Hs. destruct (LoadHint_oversized i j e Hk Hex Hs) as [r' Hr].
  exists (hint_bytes i), r'. split; [|done].
  by apply (WriteHint_emit (fun a : bytes => a) (fun _ => True) i []).
Qed.

Definition big_key : bytes := replicate (Z.to_nat (2 ^ 24 + 1)) Byte.x61.

Lemma blen_big_key : blen big_key = 2 ^ 24 + 1.
Proof. unfold blen, big_key. rewrite length_replicate. lia. Qed.

Lemma pairs_singleton k loc : pairs {[k := loc]} = [MkKeyLocation k loc].
Proof.
  unfold pairs, Keys, sort_Strings. rewrite map_to_list_singleton. cbn.
  unfold Index.Get. by rewrite lookup_singleton_eq.
Qed.

Lemma hint_oversized_key_witness :
  exists file r',
    WriteHint {[big_key := MkLocation 1 0 0 false]} ([] : bytes) = (file, Ok tt)
    /\ LoadHint (MkIoReader file EOF, Index.New)
       = ((r', Index.New), Err (Errorf "%w: absurd key length %d" ErrHint)).
Proof.
  apply (hint_oversized_key {[big_key := MkLocation 1 0 0 false]} Index.New EOF);
    rewrite ?pairs_singleton.
  - constructor; [|constructor]. cbn [Key Loc]. rewrite blen_big_key.
    split; [done|]. by vm_compute.
  - apply Exists_cons_hd. cbn [Key]. rewrite blen_big_key. done.
  - rewrite map_size_singleton. done.
Defined.
End LogTheorems.
