(* ===== verification/CrashTheorems.v ===== *)
(** * Properties of the store under crashes

    A crash is a fault after which nothing else reaches the disk: its files are
    those of an execution in which every later system call fails.  Theorems for
    every list of faults therefore cover a crash at every point. *)
From S2P Require Import Prelude LogEntry LogReader Index FileSys Segment Store Merge Wp Repr StoreOps Recovery Opening Durable Session MergeOps Promote Compaction Refine Restart Faults Sample AfterCrash CrashOps SilentCut MergeFaults MergeCrash MergeRecovery ResetCrash.
Import LogReader Index Segment Store Merge Wp Repr StoreOps Recovery Opening Durable Session MergeOps Promote Compaction Refine Restart Faults Sample AfterCrash CrashOps SilentCut MergeFaults MergeCrash MergeRecovery ResetCrash.

Module CrashTheorems.

Lemma Durable_with_faults fl x G L : Durable x G L -> Durable (with_faults fl x) G L.
Proof. intros [HI HL Hi Hh]. split; [by apply Inv_with_faults|done|done|done]. Qed.

(** C8: acknowledged writes survive a crash in the next one, on a store that has
    not been compacted.  Take a store whose index is the replay of its log and
    whose directory holds no hint file: one that has not run [Merge] since, and
    was not opened from a hint (with a hint file the writes after it are lost at
    every restart, see C6).  After any sequence of successful writes within the
    file-size and id limits, let one more [Put] or [Delete] run with arbitrary
    failing system calls (a crash is the case where all calls after some point
    fail).  It never panics, and what the next [Open] finds depends only on the
    write of the record: the old map when nothing was written, the new map when
    all of it was (even if [Put] then reports a failed sync or rotation), and a
    refusal with [ErrCorrupt] when the record was cut, except for cuts at 0 and
    17 bytes, which give the old map.  On such a store, a write reported as
    successful is there. *)
Theorem write_crash_outcome `{!GoRange Z} x G L n k l op fl o :
  Durable x G L -> quiet x -> Forall op_ok l -> bounded G n k -> op_ok op ->
  n + ops_bytes (l ++ [op]) <= FileSys.max_file -> k + Z.of_nat (length l) + 1 < max_id ->
  exists x1, run_ops l x = (x1, Ok tt) /\
    let '(x2, r) := run_op op (with_faults fl x1) in
    let A := foldl apply_op (abs G (index (st x))) l in
    r <> Panic
    /\ open_outcome (dir (st x)) o (fs (world x2)) (write_outcome (hd FileSys.FNone fl) A op)
    /\ (r = Ok tt ->
        open_outcome (dir (st x)) o (fs (world x2)) (Opens (apply_op A op))).
Proof.
  intros HD Hq Hl Hb Hop Hsz Hid. rewrite ops_bytes_app in Hsz.
  rewrite (ops_bytes_cons op []) in Hsz. change (ops_bytes []) with 0 in Hsz.
  pose proof (blen_nonneg (enc (op_record op))).
  destruct (run_ops_Ok x G L n k l HD Hq Hl Hb) as (x1 & G1 & L1 & Hrun & HD1 & _ & Ha & Hdir & Hb1);
    [lia|lia|].
  exists x1. split; [done|].
  pose proof (wp_run_op (with_faults fl x1) G1 L1 op o (Durable_with_faults _ _ _ _ HD1) Hop) as Hw.
  assert (Hroom : room (with_faults fl x1) (blen (enc (op_record op))) 1).
  { eapply (bounded_room (with_faults fl x1) G1); [apply Inv_with_faults, HD1|exact Hb1|lia|lia]. }
  specialize (Hw Hroom). destruct (run_op op (with_faults fl x1)) as [x2 r] eqn:E.
  apply (wp_result _ _ _ _ _ Hw) in E as (Hr & Ho & Hok).
  change (abs G1 (index (st (with_faults fl x1)))) with (abs G1 (index (st x1))) in Ho.
  change (dir (st (with_faults fl x1))) with (dir (st x1)) in Ho. rewrite Ha, Hdir in Ho.
  change (first_fault (fs (world (with_faults fl x1)))) with (hd FileSys.FNone fl) in *.
  split_and!; [done|done|]. intros Hrr. by rewrite (Hok Hrr) in Ho.
Qed.

Lemma write_crash_outcome_witness :
  exists x1, @run_ops order writes empty_state = (x1, Ok tt) /\
    let '(x2, r) := @run_op order (OpPut (bs "c") (bs "3"))
                      (with_faults [FileSys.FShort 18; FileSys.FFail] x1) in
    r <> Panic /\ @open_outcome order db small (fs (world x2)) (Refuses scan_error).
Proof.
  destruct empty_Durable as (G & L & HD & Hq & Hb & _).
  destruct (@write_crash_outcome order empty_state G L 0 1 writes (OpPut (bs "c") (bs "3"))
    [FileSys.FShort 18; FileSys.FFail] small HD Hq op_ok_writes Hb) as (x1 & Hrun & H).
  - split; [done|]. unfold readable. by vm_compute.
  - vm_compute. discriminate.
  - by vm_compute.
  - exists x1. split; [exact Hrun|]. destruct (run_op _ _) as [x2 r].
    destruct H as (Hr & Ho & _). split; [exact Hr|].
    assert (Hout : write_outcome (FileSys.FShort 18) (foldl apply_op (abs G (index (st empty_state))) writes)
              (OpPut (bs "c") (bs "3")) = Refuses scan_error) by reflexivity.
    cbn [hd] in Ho. rewrite Hout in Ho. exact Ho.
Defined.

(** ** Compaction *)

Lemma hintable_merged newID G idx :
  Forall (fun k => blen k <= max_hint_key) (Index.Key <$> LiveEntries idx) ->
  blen (LiveEntries idx) <= max_hint_count -> hintable (merged_index newID G idx).
Proof.
  intros Hk Hn. split.
  - intros k H%elem_of_Keys. rewrite Keys_merged in H. rewrite Forall_forall in Hk. by apply Hk.
  - rewrite <- length_pairs, <- (length_fmap Index.Key), Key_pairs, Keys_merged, length_fmap.
    exact Hn.
Qed.

(** C9: a compaction that fails or crashes at any point loses nothing silently.
    Let [Merge] run with arbitrary failing system calls on a store with live
    keys whose directory opens to its own map.  It never panics, and the next
    [Open] either finds exactly that map or refuses, because the merged segment
    ends in a torn record or the hint file is cut; it never finds another map.
    When [Merge] reports success, [Open] finds the map. *)
Theorem merge_crash_safe `{!GoRange Z} x G A fl o :
  Inv x G -> opens_by (fs (world x)) (dir (st x)) G A -> abs G (index (st x)) = A ->
  Forall readable (compact G (index (st x))) ->
  LiveEntries (index (st x)) <> [] -> merge_fits x ->
  Forall (fun k => blen k <= max_hint_key) (Index.Key <$> LiveEntries (index (st x))) ->
  blen (LiveEntries (index (st x))) <= max_hint_count ->
  let '(x', r) := Merge (with_faults fl x) in
  r <> Panic /\ safe_outcome (dir (st x)) o (fs (world x')) A
  /\ (r = Ok tt -> open_outcome (dir (st x)) o (fs (world x')) (Opens A)).
Proof.
  intros HI Hfrom HA Hr Hl Hf Hk Hn.
  destruct (merge_fits_room _ _ HI Hf) as (Hid & Hsz & _).
  destruct (inv_active _ _ HI) as (_ & Hs & Hmax).
  destruct (Merge (with_faults fl x)) as [x' r] eqn:E.
  assert (Hm : forall i, is_Some (G !! i) -> i < activeID (st x) + 1) by (intros i Hi%Hmax; lia).
  pose proof (hintable_merged (activeID (st x) + 1) G _ Hk Hn) as Hfit.
  assert (Hw : wp Merge (with_faults fl x) (fun x' r => r <> Panic
    /\ safe_outcome (dir (st x)) o (fs (world x')) A
    /\ (r = Ok tt -> open_outcome (dir (st x)) o (fs (world x')) (Opens A)))).
  { apply (wp_Merge (with_faults fl x) G); [by apply Inv_with_faults|exact Hl|exact Hid|exact Hsz|].
    intros x2 r2 Hr2 Hfiles Hdone. split_and!; [done| |intros Hok].
    - apply (merge_files_safe (fs (world x)) (fs (world x2)) (dir (st x)) G (activeID (st x) + 1)
        (index (st x))); try done; [eauto|apply HI|].
      destruct Hfiles; [by apply mf_before|by eapply mf_copying|by eapply mf_hint].
    - eapply merge_done_opens; [exact Hfrom|apply HI|exact HA|exact Hfit|by apply Hdone]. }
  exact (wp_result _ _ _ _ _ Hw E).
Qed.

(** The merged segment is complete and the hint file is cut after 20 bytes. *)
Definition hint_torn : list FileSys.fault := replicate 10 FileSys.FNone ++ [FileSys.FShort 12].

Lemma merge_crash_safe_witness :
  let '(x', r) := @Merge order (with_faults hint_torn full_state) in
  r <> Panic /\ @safe_outcome order db small (fs (world x')) {[bs "b" := bs "two"]}
  /\ (r = Ok tt -> @open_outcome order db small (fs (world x')) (Opens {[bs "b" := bs "two"]})).
Proof.
  destruct full_Durable as (G & L & HD & _ & _ & HA).
  pose proof (Durable_opens_by _ _ _ HD) as Hfrom. rewrite HA in Hfrom.
  apply (@merge_crash_safe order full_state G {[bs "b" := bs "two"]} hint_torn small).
  - apply HD.
  - exact Hfrom.
  - exact HA.
  - exact (compact_readable _ _ L HD).
  - vm_compute. discriminate.
  - vm_compute. repeat split; discriminate.
  - assert (LiveEntries (index (st full_state)) = [MkKeyLocation (bs "b") (MkLocation 1 21 21 false)])
      as -> by (vm_compute; reflexivity).
    repeat constructor. by vm_compute.
  - by vm_compute.
Defined.

(** ** What a crash breaks *)

(** Two segments whose only key is deleted: the record in segment 1, the
    tombstone in segment 2. *)
Definition dead_value : bytes := bs "a value of 24 bytes.....".

Definition dead_state : State :=
  (@run_ops order [OpPut (bs "a") dead_value; OpDelete (bs "a")] empty_state).1.

Lemma no_live_keys G idx : LiveEntries idx = [] -> abs G idx = ∅.
Proof.
  intros Hl. apply map_empty. intros k. unfold abs. rewrite lookup_omap.
  destruct (idx !! k) as [loc|] eqn:E; [|done]. cbn. destruct (Tombstone loc) eqn:Ht; [done|].
  assert (Hin : MkKeyLocation k loc ∈ LiveEntries idx) by (by apply elem_of_LiveEntries).
  rewrite Hl in Hin. inversion Hin.
Qed.

(** C10: a compaction without live keys that is interrupted can bring deleted
    keys back.  Take a store without live keys whose index is the replay of its
    log, without a hint file.  Its map is empty.  However the system calls of
    [Merge] fail, it never panics, and some of the segments, a prefix of the map
    order Go happens to iterate in, are gone; the next [Open] succeeds and finds
    the map of the records in the other segments, and the empty map when [Merge]
    reported success.  And every such prefix occurs: when the removal of the
    segment after it fails, [Merge] returns the error and [Open] finds the map
    of what is left.  So a key whose tombstone was in a removed segment and
    whose record was not is back. *)
Theorem interrupted_reset_resurrects `{!GoRange Z} x G L fl o :
  Durable x G L -> LiveEntries (index (st x)) = [] ->
  let ids := (go_range (segments (st x))).*1 in
  Rep x ∅
  /\ (let '(x', r) := Merge (with_faults fl x) in
      r <> Panic
      /\ (exists gone rest, ids = gone ++ rest
          /\ open_outcome (dir (st x)) o (fs (world x')) (Opens (log_map (without gone L))))
      /\ (r = Ok tt -> open_outcome (dir (st x)) o (fs (world x')) (Opens ∅)))
  /\ (forall gone id rest, ids = gone ++ id :: rest ->
      let '(x', r) := Merge (with_faults (fail_removal (length gone)) x) in
      r = Err (Errorf "store: remove segment %d: %w" FileSys.EIO)
      /\ open_outcome (dir (st x)) o (fs (world x')) (Opens (log_map (without gone L)))).
Proof.
  intros [HI HL _ Hh] Hl ids.
  assert (Hm : forall i, is_Some (G !! i) -> is_Some (segments (st x) !! i))
    by (intros i; apply (opens_Some _ _ _ _ (inv_opens _ _ HI))).
  split_and!.
  - exists G. split; [done|]. by rewrite no_live_keys.
  - assert (Hw : wp Merge (with_faults fl x) (fun x' r => r <> Panic
      /\ (exists gone rest, ids = gone ++ rest
          /\ open_outcome (dir (st x)) o (fs (world x')) (Opens (log_map (without gone L))))
      /\ (r = Ok tt -> open_outcome (dir (st x)) o (fs (world x')) (Opens ∅)))).
    { apply (wp_Merge_empty (with_faults fl x) G); [by apply Inv_with_faults|exact Hh|exact Hl| |].
      - intros x' e Hf. split_and!; [done| |done]. by apply (open_reset_files _ _ _ G).
      - intros x' Hn [n Hd]. split_and!; [done| |intros _].
        + apply (open_reset_files _ _ _ G _ _ Hm HL). split; [exact Hn|]. right. by exists n.
        + change (∅ : gmap bytes bytes) with (log_map [(1, [])]). rewrite <- (abs_replay _ _ (log_of_new n)).
          eapply (open_log _ _ _ _ _ 1); [exact Hd|by rewrite lookup_singleton_eq|apply log_of_new|exact Hn]. }
    destruct (Merge (with_faults fl x)) as [x' r] eqn:E. exact (wp_result _ _ _ _ _ Hw E).
  - intros gone id rest E. destruct (Merge_fails_removal x G gone id rest HI Hh Hl E) as (x' & Hr & Hn & Hd).
    rewrite Hr. split; [done|]. by apply (open_remaining _ _ _ G).
Qed.

Lemma dead_Durable : exists G L, Durable dead_state G L.
Proof.
  destruct empty_Durable as (G & L & HD & Hq & Hb & _).
  destruct (@run_ops_Ok order empty_state G L 0 1 [OpPut (bs "a") dead_value; OpDelete (bs "a")] HD Hq)
    as (x' & G' & L' & Hrun & HD' & _); [|done|by vm_compute|by vm_compute|].
  { repeat (constructor; [split; [done|unfold readable; by vm_compute]|]). constructor. }
  exists G', L'. unfold dead_state. by rewrite Hrun.
Qed.

(** The segment with the tombstone goes first here, and the removal of the one
    with the record fails: the deleted key is back. *)
Lemma interrupted_reset_resurrects_witness :
  (exists L, let '(x', r) := @Merge order (with_faults (fail_removal 1) dead_state) in
     r = Err (Errorf "store: remove segment %d: %w" FileSys.EIO)
     /\ @open_outcome order db small (fs (world x')) (Opens (log_map (without [2] L))))
  /\ let '(w, r) := @OpenWithOptions order db small
                      (boot (fs (world (@Merge order (with_faults (fail_removal 1) dead_state)).1))) in
     match r with
     | Ok s => (Store.Get (bs "a") (MkState w s)).2 = Ok (Some dead_value)
     | _ => False
     end.
Proof.
  split.
  - destruct dead_Durable as (G & L & HD). exists L.
    assert (Hl : LiveEntries (index (st dead_state)) = []) by (vm_compute; reflexivity).
    assert (Hids : (@go_range Z _ _ order _ (segments (st dead_state))).*1 = [2; 1]) by (vm_compute; reflexivity).
    destruct (@interrupted_reset_resurrects order dead_state G L [] small HD Hl) as (_ & _ & H).
    exact (H [2] 1 [] Hids).
  - vm_compute. reflexivity.
Defined.

(** C11: a cut after exactly the 17-byte frame header poisons the log.  Take a
    store whose index is the replay of its log, without a hint file and within the
    file-size and id limits, and let the write of a [Put] or [Delete] stop after
    17 bytes.  The next [Open] takes the
    cut for the end of the log and finds the old map; the next [Put] or [Delete]
    succeeds, with its effect on the map, and so does [Close].  But the [Open]
    after that reads the stray header in front of the new record and refuses the
    whole directory, acknowledged writes included: with [ErrCorrupt] when the
    header asks for more bytes than the new record has, with [ErrChecksum]
    otherwise, unless these bytes happen to carry the stray checksum. *)
Theorem silent_cut_poisons_log `{!GoRange Z} x G L op1 op2 fl o o' :
  Durable x G L -> op_ok op1 -> op_ok op2 ->
  active_size x G + 17 + blen (enc (op_record op2)) <= FileSys.max_file ->
  activeID (st x) + 1 < max_id ->
  let A := abs G (index (st x)) in
  exists x1 w s x2 x3,
    run_op op1 (with_faults (FileSys.FShort 17 :: fl) x)
      = (x1, Err (Errorf "log: append to segment %d: %w" FileSys.EIO))
    /\ OpenWithOptions (dir (st x)) o (boot (fs (world x1))) = (w, Ok s) /\ Rep (MkState w s) A
    /\ run_op op2 (MkState w s) = (x2, Ok tt) /\ Rep x2 (apply_op A op2)
    /\ Store.Close x2 = (x3, Ok tt)
    /\ (mistaken (op_record op1) (op_record op2) = false ->
        open_outcome (dir (st x)) o' (fs (world x3))
          (Refuses (Errorf "store: scan segment %d: %w" (stray_error (op_record op1) (op_record op2))))).
Proof.
  intros HD Hop1 Hop2 Hsz Hid A. pose proof (blen_nonneg (enc (op_record op2))).
  destruct (open_after_cut x G L op1 fl o HD Hop1 ltac:(lia))
    as (x1 & w & s & L0 & rs & ino & Hrun & Ho & -> & HG & HI & Hq & Hh & Hdir & Hact & Habs).
  set (y := MkState w s) in *.
  set (G1 := <[activeID (st x) := (ino, frames rs ++ take 17 (enc (op_record op1)))]> G) in *.
  assert (Hroom : room y (blen (enc (op_record op2))) 1).
  { apply (room_size y G1 _ _ HI). unfold active_size in *. change (st y) with s. rewrite Hact. rewrite HG in Hsz.
    unfold G1. rewrite lookup_insert_eq, blen_app.
    assert (blen (take 17 (enc (op_record op1))) <= 17) by (unfold blen; rewrite length_take; lia). lia. }
  destruct (run_op_Ok y G1 op2 HI Hq Hop2 Hroom) as (x2 & G2 & Hrun2 & HI2 & Hq2 & Ha2 & Hlog).
  destruct (Close_state x2 G2 HI2 Hq2) as [h Hclose].
  exists x1, w, s, x2. eexists. split_and!; [exact Hrun|exact Ho|by exists G1|exact Hrun2| |exact Hclose|].
  - exists G2. split; [done|]. rewrite Ha2. unfold A. by rewrite <- Habs.
  - intros Hm. by eapply (open_poisoned y G L0 (activeID (st x)) rs _ _ ino G2 x2);
      [apply HD|exact HG|apply Hop1|exact Hact|exact Hdir|exact Hh|exact Hlog|exact HI2| |exact Hm].
Qed.

(** A [Put] of 1 byte behind a header of 2, and of 1 byte behind one of 31. *)
Lemma silent_cut_poisons_log_witness :
  (exists x1 w s x2 x3,
    @run_op order (OpPut (bs "b") (bs "2")) (with_faults [FileSys.FShort 17] full_state)
      = (x1, Err (Errorf "log: append to segment %d: %w" FileSys.EIO))
    /\ @OpenWithOptions order db small (boot (fs (world x1))) = (w, Ok s)
    /\ @run_op order (OpPut (bs "c") (bs "3")) (MkState w s) = (x2, Ok tt)
    /\ @Store.Close order x2 = (x3, Ok tt)
    /\ @open_outcome order db small (fs (world x3))
         (Refuses (Errorf "store: scan segment %d: %w" LogEntry.ErrChecksum)))
  /\ exists x1 w s x2 x3,
    @run_op order (OpPut (bs "b") (bs "a value of thirty bytes.......")) (with_faults [FileSys.FShort 17] full_state)
      = (x1, Err (Errorf "log: append to segment %d: %w" FileSys.EIO))
    /\ @OpenWithOptions order db small (boot (fs (world x1))) = (w, Ok s)
    /\ @run_op order (OpPut (bs "c") (bs "3")) (MkState w s) = (x2, Ok tt)
    /\ @Store.Close order x2 = (x3, Ok tt)
    /\ @open_outcome order db small (fs (world x3))
         (Refuses (Errorf "store: scan segment %d: %w" LogEntry.ErrCorrupt)).
Proof.
  destruct full_Durable as (G & L & HD & _ & Hb & _).
  assert (Hok : forall k v, k <> [] -> blen k + blen v <= maxRecordPayload -> op_ok (OpPut k v)) by (by split).
  assert (Hs : active_size full_state G <= 60).
  { destruct (Inv_active full_state G (dur_inv _ _ _ HD)) as (p & ino & c & _ & _ & HG & _).
    unfold active_size. rewrite HG. by apply (Hb _ _ _ HG). }
  assert (Hc : blen (enc (op_record (OpPut (bs "c") (bs "3")))) = 19) by reflexivity.
  assert (Hmax : 60 + 17 + 19 <= FileSys.max_file) by done.
  assert (Hid : activeID (st full_state) + 1 < max_id) by (by vm_compute).
  split.
  - destruct (@silent_cut_poisons_log order full_state G L (OpPut (bs "b") (bs "2")) (OpPut (bs "c") (bs "3"))
      [] small small HD) as (x1 & w & s & x2 & x3 & H1 & H2 & _ & H3 & _ & H4 & H5);
      [by apply Hok|by apply Hok|rewrite Hc; lia|exact Hid|].
    exists x1, w, s, x2, x3.
    exact (conj H1 (conj H2 (conj H3 (conj H4 (H5 ltac:(vm_compute; reflexivity)))))).
  - destruct (@silent_cut_poisons_log order full_state G L (OpPut (bs "b") (bs "a value of thirty bytes......."))
      (OpPut (bs "c") (bs "3")) [] small small HD) as (x1 & w & s & x2 & x3 & H1 & H2 & _ & H3 & _ & H4 & H5);
      [by apply Hok|by apply Hok|rewrite Hc; lia|exact Hid|].
    exists x1, w, s, x2, x3.
    exact (conj H1 (conj H2 (conj H3 (conj H4 (H5 ltac:(vm_compute; reflexivity)))))).
Defined.
End CrashTheorems.
