(* ===== verification/ViewTheorems.v ===== *)
(** * Properties of closed stores, iterators, snapshots and backups *)
From S2P Require Import Prelude LogEntry LogReader Index FileSys Segment Store Merge Repr StoreOps Recovery Opening Durable Session MergeOps Promote Compaction Refine Restart Faults Sample Snapshot Backup Iter IterOps SnapshotOps BackupOps Cli CliOps Demo DemoOps.
Import LogReader Index Segment Store Backup Repr StoreOps Recovery Opening Durable Session Sample IterOps SnapshotOps BackupOps Cli CliOps.

Module ViewTheorems.

(** ** Closed stores *)

(** C15: what a closed store does.  [Put], [Get], [Delete], [Merge], [Snapshot]
    and [Backup] return [ErrClosed] and change nothing, and so does reading a
    value through an iterator, which then reports [ErrClosed] from [Err];
    [Close] is idempotent.  The methods without a check go on working on what
    [Close] leaves, whatever faults it meets: [FileIDs] is empty, while [Count],
    [Iter], [Prefix] and [Range] answer as they did before, from the index that
    [Close] keeps. *)
Theorem closed_store_rejects `{!GoRange Z} {St} `{!Archiver St} (a : St) key value dst start stop :
  (forall x, closed (st x) = true ->
     Store.Put key value x = (x, Err ErrClosed) /\ Store.Get key x = (x, Err ErrClosed)
     /\ Store.Delete key x = (x, Err ErrClosed) /\ Merge.Merge x = (x, Err ErrClosed)
     /\ Snapshot.Snapshot dst x = (x, Err ErrClosed) /\ Backup (x, a) = ((x, a), Err ErrClosed)
     /\ Store.Close x = (x, Ok tt)
     /\ forall it, 0 <= Iter.pos it ->
          let it' := Iter.MkIterator (Iter.entries it) (Iter.pos it)
                       (if Iter.Valid it then Some ErrClosed else Iter.err it) in
          Iter.Value (x, it) = ((x, it'), Err ErrClosed))
  /\ (forall y, closed (st y) = false ->
     (forall id p, segments (st y) !! id = Some p -> is_Some (heap (world y) !! p)) ->
     let x := (Store.Close y).1 in
     closed (st x) = true /\ FileIDs (st x) = [] /\ Count (st x) = Count (st y)
     /\ (Iter.Iter x).2 = (Iter.Iter y).2 /\ (Iter.Prefix start x).2 = (Iter.Prefix start y).2
     /\ (Iter.Range start stop x).2 = (Iter.Range start stop y).2).
Proof.
  split.
  - intros x Hc. unfold Store.Put, Store.Get, Store.Delete, Merge.Merge, Snapshot.Snapshot, Store.Close.
    rewrite !self_bind, Hc. split_and!; try done.
    + unfold Backup. rewrite (M_bind_Ok _ _ (x, a) (x, a) (st x)) by done. by rewrite Hc.
    + intros it Hp. by apply Value_closed.
  - intros y Hc Hh. destruct (Faults.Close_any_Ok y Hc Hh) as (x & r & Hcl & _ & _ & Hst & _).
    rewrite Hcl. cbv zeta. cbn [fst]. rewrite Hst. split_and!; try done.
    + by apply FileIDs_closed.
    + unfold Iter.Iter. by rewrite !self_bind, Hst.
    + by apply same_index_Prefix; rewrite Hst.
    + by apply same_index_Range; rewrite Hst.
Qed.

Lemma closed_store_rejects_witness :
  let x := (@Store.Close order full_state).1 in
  closed (st x) = true /\ Count (st x) = 1
  /\ @Store.Put order (bs "k") (bs "v") x = (x, Err ErrClosed)
  /\ @Snapshot.Snapshot order (bs "dst") x = (x, Err ErrClosed).
Proof.
  destruct (@closed_store_rejects order Memory (memory None) (MkMemory [] 0) (bs "k") (bs "v") (bs "dst")
    (bs "a") (bs "c")) as [Hr Ho]. cbv zeta.
  destruct (Ho full_state) as (Hc & _ & Hn & _).
  - reflexivity.
  - intros id p Hp. destruct full_Inv as [G HI].
    destruct (Compaction.opens_segment _ _ _ _ _ (inv_opens _ _ HI) Hp) as (ino & c & _ & Hh & _). eauto.
  - destruct (Hr _ Hc) as (Hp & _ & _ & _ & Hs & _). split_and!; [exact Hc| |exact Hp|exact Hs].
    rewrite Hn. vm_compute. reflexivity.
Defined.

(** ** Iterators *)

(** C23: iterators list the map.  Over a store that represents the map [A], the
    client loop on [Iter] sees exactly the pairs of [A], each once, in
    increasing key order, and on [Range start stop] exactly those with
    [start <= key < stop]; the loop then ends with the iterator not valid. *)
Theorem iterators_list_the_map x A start stop :
  Rep x A -> quiet x -> blen (LiveEntries (index (st x))) < 2 ^ 62 ->
  (exists it0 it l, Iter.Iter x = (x, Ok it0)
     /\ Iter.walk_all (x, it0) = ((x, it), Ok (read_all l)) /\ Iter.Valid it = false /\ lists A l)
  /\ (exists it0 it l, Iter.Range start stop x = (x, Ok it0)
     /\ Iter.walk_all (x, it0) = ((x, it), Ok (read_all l)) /\ Iter.Valid it = false
     /\ lists (filter (fun kv => bytes_leb start kv.1 && bytes_ltb kv.1 stop = true) A) l).
Proof.
  intros (G & HI & ->) Hq Hn. split.
  - destruct (walk_select x G (fun _ => True) HI Hq Hn) as (it & l & Hw & Hv & HL).
    rewrite filter_all in Hw by (apply Forall_forall; done).
    rewrite map_filter_id in HL by done.
    exists (Iter.MkIterator (LiveEntries (index (st x))) 0 None), it, l. by split_and!.
  - destruct (walk_select x G (fun k => bytes_leb start k && bytes_ltb k stop = true) HI Hq Hn)
      as (it & l & Hw & Hv & HL).
    eexists _, it, l. split_and!; [|exact Hw|done|done].
    unfold Iter.Range. rewrite self_bind.
    erewrite lift_bind_Ok; [reflexivity|].
    apply (select_filter _
      (fun kl => bytes_leb start (Index.Key kl) && bytes_ltb (Index.Key kl) stop = true)).
    intros kl. unfold mret, res_ret. f_equal.
    by destruct (bytes_leb start (Index.Key kl) && bytes_ltb (Index.Key kl) stop).
Qed.

Lemma iterators_list_the_map_witness :
  (exists it0 it l, Iter.Iter full_state = (full_state, Ok it0)
     /\ Iter.walk_all (full_state, it0) = ((full_state, it), Ok (read_all l))
     /\ Iter.Valid it = false /\ lists {[bs "b" := bs "two"]} l)
  /\ (exists it0 it l, Iter.Range (bs "b") (bs "c") full_state = (full_state, Ok it0)
     /\ Iter.walk_all (full_state, it0) = ((full_state, it), Ok (read_all l))
     /\ Iter.Valid it = false
     /\ lists (filter (fun kv => bytes_leb (bs "b") kv.1 && bytes_ltb kv.1 (bs "c") = true)
                 {[bs "b" := bs "two"]}) l).
Proof.
  apply iterators_list_the_map; [apply full_Rep|apply full_quiet|by vm_compute].
Defined.

(** C24: [Prefix] selects by suffix.  The iterator that [Prefix p] returns walks
    over exactly the pairs whose key ENDS with [p], in increasing key order:
    [keyHasPrefix] compares the last bytes of the key. *)
Theorem prefix_lists_suffixes x A p :
  Rep x A -> quiet x -> blen (LiveEntries (index (st x))) < 2 ^ 62 ->
  exists it0 it l, Iter.Prefix p x = (x, Ok it0)
    /\ Iter.walk_all (x, it0) = ((x, it), Ok (read_all l)) /\ Iter.Valid it = false
    /\ lists (filter (fun kv => p `suffix_of` kv.1) A) l.
Proof.
  intros (G & HI & ->) Hq Hn.
  destruct (walk_select x G (suffix p) HI Hq Hn) as (it & l & Hw & Hv & HL).
  eexists _, it, l. split_and!; [|exact Hw|done|done].
  unfold Iter.Prefix. rewrite self_bind.
  erewrite lift_bind_Ok; [reflexivity|].
  apply (select_filter _ (fun kl => p `suffix_of` Index.Key kl)). intros kl. apply keyHasPrefix_suffix.
Qed.

(** A store with the keys "ab" and "ba". *)
Definition two_puts : list op := [OpPut (bs "ab") (bs "1"); OpPut (bs "ba") (bs "2")].
Definition two_keys : State := (@run_ops order two_puts empty_state).1.

Lemma two_keys_Rep : Rep two_keys {[bs "ab" := bs "1"; bs "ba" := bs "2"]} /\ quiet two_keys.
Proof.
  destruct empty_Durable as (G & L & HD & Hq & Hb & Ha).
  assert (Hok : Forall op_ok two_puts)
    by (repeat (constructor; [split; [done|unfold readable; by vm_compute]|]); constructor).
  destruct (@run_ops_Ok order empty_state G L 0 1 two_puts HD Hq Hok Hb)
    as (x' & G' & L' & Hrun & HD' & Hq' & Habs & _); [by vm_compute|by vm_compute|].
  unfold two_keys. rewrite Hrun. cbn [fst]. split; [|done].
  exists G'. split; [apply HD'|]. rewrite Habs, Ha. reflexivity.
Qed.

Lemma prefix_lists_suffixes_witness :
  exists it0 it l, Iter.Prefix (bs "a") two_keys = (two_keys, Ok it0)
    /\ Iter.walk_all (two_keys, it0) = ((two_keys, it), Ok (read_all l)) /\ Iter.Valid it = false
    /\ lists (filter (fun kv => bs "a" `suffix_of` kv.1) {[bs "ab" := bs "1"; bs "ba" := bs "2"]}) l.
Proof. apply prefix_lists_suffixes; [apply two_keys_Rep|apply two_keys_Rep|by vm_compute]. Defined.

(** [Seek] lands on the first key not below the target.  On an iterator
    whose entries are in key order the binary search ends without panicking;
    every entry before the new position has a smaller key and every entry from
    it on a key at least the target, and an earlier error is cleared. *)
Theorem seek_first_at_least target it :
  StronglySorted bytes_le (Index.Key <$> Iter.entries it) -> blen (Iter.entries it) < 2 ^ 62 ->
  exists before after,
    Iter.entries it = before ++ after
    /\ Iter.Seek target it = Ok (Iter.MkIterator (Iter.entries it) (blen before) None)
    /\ Forall (fun kl => bytes_ltb (Index.Key kl) target = true) before
    /\ Forall (fun kl => bytes_leb target (Index.Key kl) = true) after.
Proof. apply Seek_sorted. Qed.

Lemma seek_first_at_least_witness :
  let it := Iter.MkIterator (LiveEntries (index (st two_keys))) 0 None in
  exists before after,
    Iter.entries it = before ++ after
    /\ Iter.Seek (bs "b") it = Ok (Iter.MkIterator (Iter.entries it) (blen before) None)
    /\ Forall (fun kl => bytes_ltb (Index.Key kl) (bs "b") = true) before
    /\ Forall (fun kl => bytes_leb (bs "b") (Index.Key kl) = true) after.
Proof.
  cbv zeta. apply (seek_first_at_least (bs "b")); [apply Sorted_LiveKeys|by vm_compute].
Defined.

(** ** Snapshots *)

(** C25: a snapshot opens as the store it was taken of.  On a store whose log is
    complete, without a hint file, [Snapshot] into a directory without files
    succeeds and leaves the store as it was; opening the new directory, with
    any options, gives a store that represents the same map. *)
Theorem snapshot_opens_equal `{!GoRange Z} x G L dst o :
  Durable x G L -> quiet x -> dst <> dir (st x) -> fresh_dir (fs (world x)) dst ->
  exists x1 w s,
    Snapshot.Snapshot dst x = (x1, Ok tt) /\ Rep x1 (abs G (index (st x))) /\ st x1 = st x
    /\ OpenWithOptions dst o (world x1) = (w, Ok s) /\ Rep (MkState w s) (abs G (index (st x))).
Proof.
  intros HD Hq Hne Hfr.
  destruct (Snapshot_opens x G L dst o HD Hq Hne Hfr)
    as (x1 & w & s & Hs & HD1 & _ & Hst & _ & _ & _ & Ho & HI & Hidx).
  exists x1, w, s. split_and!; [done| |done|done|].
  - exists G. split; [apply HD1|]. by rewrite Hst.
  - exists G. split; [done|]. cbn [st]. by rewrite Hidx.
Qed.

Definition copy : bytes := bs "copy".

Lemma full_fresh : fresh_dir (fs (world full_state)) copy.
Proof.
  intros name. destruct (FileSys.names (fs (world full_state)) !! (copy, name)) eqn:E; [|done].
  assert (Hall : map_Forall (fun key _ => key.1 <> copy) (FileSys.names (fs (world full_state))))
    by (apply (bool_decide_unpack _); by vm_compute).
  exfalso. by apply (Hall _ _ E).
Qed.

Lemma snapshot_opens_equal_witness :
  exists A x1 w s,
    @Snapshot.Snapshot order copy full_state = (x1, Ok tt) /\ Rep x1 A /\ st x1 = st full_state
    /\ @OpenWithOptions order copy small (world x1) = (w, Ok s) /\ Rep (MkState w s) A.
Proof.
  destruct full_Durable as (G & L & HD & Hq & _).
  exists (abs G (index (st full_state))).
  apply (@snapshot_opens_equal order full_state G L copy small HD Hq).
  - vm_compute. discriminate.
  - apply full_fresh.
Defined.

(** C26: a snapshot is not a point-in-time copy.  When the store does not
    rotate, a [Put] made after [Snapshot] appends to the file the snapshot
    shares: opening the snapshot afterwards gives the map WITH that write. *)
Theorem snapshot_shares_later_writes `{!GoRange Z} x G L dst o key value :
  Durable x G L -> quiet x -> dst <> dir (st x) -> fresh_dir (fs (world x)) dst ->
  MaxFileSize (opts (st x)) <= 0 -> key <> [] -> readable (MkRec key value false) ->
  room x (LogEntry.frameSize (blen key) (blen value)) 1 ->
  exists x1 x2 w s,
    Snapshot.Snapshot dst x = (x1, Ok tt) /\ Store.Put key value x1 = (x2, Ok tt)
    /\ OpenWithOptions dst o (world x2) = (w, Ok s)
    /\ Rep (MkState w s) (<[key := value]> (abs G (index (st x)))).
Proof.
  intros HD Hq Hne Hfr Hmax Hk Hr Hroom.
  destruct (Snapshot_opens x G L dst o HD Hq Hne Hfr)
    as (x1 & _ & _ & Hs & HD1 & Hq1 & Hst & Hh & Hdst & Hn & _).
  destruct (Put_after_Snapshot x1 G L dst o key value HD1 Hq1 Hdst Hn) as (x2 & G2 & w & s & Hp & Ho & HI & Ha);
    [by rewrite Hst|done|done|unfold room; by rewrite Hst, Hh|].
  exists x1, x2, w, s. split_and!; [done|done|done|]. exists G2. split; [done|].
  cbn [st]. by rewrite Ha, Hst.
Qed.

(** A new store that never rotates. *)
Definition unlimited : Options := MkOptions true 0.
Definition one_file : State :=
  default (MkState new_world a_store) (state_of (@OpenWithOptions order db unlimited new_world)).

Lemma one_file_Durable : exists G L, Durable one_file G L /\ quiet one_file.
Proof.
  destruct (@Open_new order new_world db unlimited) as (w & s & G & L & Ho & HD & Hq & _);
    [done|done|done|].
  exists G, L. unfold one_file. rewrite Ho. by cbn.
Qed.

Lemma one_file_fresh : fresh_dir (fs (world one_file)) copy.
Proof.
  intros name. destruct (FileSys.names (fs (world one_file)) !! (copy, name)) eqn:E; [|done].
  assert (Hall : map_Forall (fun key _ => key.1 <> copy) (FileSys.names (fs (world one_file))))
    by (apply (bool_decide_unpack _); by vm_compute).
  exfalso. by apply (Hall _ _ E).
Qed.

Lemma snapshot_shares_later_writes_witness :
  exists A x1 x2 w s,
    @Snapshot.Snapshot order copy one_file = (x1, Ok tt)
    /\ @Store.Put order (bs "k") (bs "v") x1 = (x2, Ok tt)
    /\ @OpenWithOptions order copy unlimited (world x2) = (w, Ok s)
    /\ Rep (MkState w s) (<[bs "k" := bs "v"]> A).
Proof.
  destruct one_file_Durable as (G & L & HD & Hq).
  exists (abs G (index (st one_file))).
  apply (@snapshot_shares_later_writes order one_file G L copy unlimited (bs "k") (bs "v") HD Hq).
  - vm_compute. discriminate.
  - apply one_file_fresh.
  - reflexivity.
  - discriminate.
  - unfold readable. by vm_compute.
  - vm_compute. split; [discriminate|done].
Defined.

(** C27: restoring a backup gives the store back.  [Backup] of a store whose log
    is complete, without a hint file, reports success and changes nothing,
    whatever closing the archive returns; with any archive writer that takes
    files as [archive/tar] promises, what it has taken when it is closed are
    entries from which [Restore] into a directory without files, on any file
    system where no call fails, succeeds, and opening that directory gives a
    store that represents the same map. *)
Theorem backup_restore_round_trip `{!GoRange Z} {St} `{!Archiver St} emit `{!ArchiverSpec emit}
    x G L w dst o :
  Durable x G L -> quiet x -> no_faults w -> fresh_dir (fs w) dst ->
  (forall key ino, FileSys.names (fs w) !! key = Some (FileSys.DFile ino) ->
     (ino < FileSys.next (fs w))%nat) ->
  exists tw s' w1 w2 s,
    Backup (x, emit []) = ((x, s'), Ok tt) /\ close_archive (emit tw) = (s', Ok tt)
    /\ Snapshot.Restore (Ok (tw, EOF)) dst w = (w1, Ok tt)
    /\ OpenWithOptions dst o w1 = (w2, Ok s) /\ Rep (MkState w2 s) (abs G (index (st x))).
Proof.
  intros HD Hq Hqw Hfr Hnext.
  destruct (Restore_Ok x G L w dst o HD Hqw Hfr Hnext) as (w1 & w2 & s & G1 & Hr & Ho & HI & Ha).
  destruct (Backup_Ok emit x G L HD Hq) as (s' & Hs & Hb).
  eexists _, s', w1, w2, s. split_and!; [exact Hb|exact Hs|exact Hr|done|].
  exists G1. by split.
Qed.

Lemma backup_restore_round_trip_witness :
  exists A tw a w1 w2 s,
    @Backup Memory (memory None) order (full_state, MkMemory [] 0) = ((full_state, a), Ok tt)
    /\ @close_archive Memory (memory None) (MkMemory tw 0) = (a, Ok tt)
    /\ Snapshot.Restore (Ok (tw, EOF)) copy new_world = (w1, Ok tt)
    /\ @OpenWithOptions order copy small w1 = (w2, Ok s) /\ Rep (MkState w2 s) A.
Proof.
  destruct full_Durable as (G & L & HD & Hq & _).
  exists (abs G (index (st full_state))).
  apply (@backup_restore_round_trip order Memory (memory None) (fun l => MkMemory l 0) (memory_Spec None)
    full_state G L new_world copy small HD Hq).
  - reflexivity.
  - intros name. reflexivity.
  - intros key ino H. discriminate H.
Defined.

(** The last bytes of the archive can be missing without an error. *)
Lemma backup_drops_close_error :
  (@gzip_Close Memory (memory (Some FileSys.EIO)) (MkMemory [] 0)).2 = Err FileSys.EIO
  /\ (@Backup Memory (memory (Some FileSys.EIO)) order (full_state, MkMemory [] 0)).2 = Ok tt.
Proof.
  split; [done|]. destruct full_Durable as (G & L & HD & Hq & _).
  destruct (@Backup_Ok order Memory (memory (Some FileSys.EIO)) (fun l => MkMemory l 0)
    (memory_Spec (Some FileSys.EIO)) full_state G L HD Hq) as (s' & _ & Hb).
  by rewrite Hb.
Qed.

(** ** Command line *)

(** C28: the program is a persistent map.  Consecutive runs of the program on
    a directory at rest, each a put, get or del whose arguments come before,
    around or after [--db <dir>] and do not start with a dash, print and exit
    as the calls on a map do (every run opens the store, does its command and
    closes it), and leave the directory at rest with the resulting map. *)
Theorem cli_is_a_map `{!GoRange Z} d l w A n k :
  rests w d A n k -> d <> [] -> is_flag d = false -> Forall cli_ok l ->
  n + ops_bytes (cli_ops l) <= FileSys.max_file ->
  k + Z.of_nat (length (cli_ops l)) < max_id ->
  exists w', run_all d l w = (w', Ok (cli_spec l A))
    /\ rests w' d (foldl apply_op A (cli_ops l)) (n + ops_bytes (cli_ops l))
         (k + Z.of_nat (length (cli_ops l))).
Proof. apply run_all_Ok. Qed.

Definition cli_sample : list (list bytes * list bytes * cli_call) :=
  [([bs "put"; bs "k"; bs "v"], [], CWrite (OpPut (bs "k") (bs "v")));
   ([], [bs "get"; bs "k"], CGetKey (bs "k"));
   ([bs "del"], [bs "k"], CWrite (OpDelete (bs "k")));
   ([bs "get"; bs "k"], [], CGetKey (bs "k"))].

Lemma cli_is_a_map_witness :
  exists w w', @run_all order db cli_sample w
    = (w', Ok [(0, [bs "OK" ++ newline]); (0, [bs "v" ++ newline]); (0, [bs "OK" ++ newline]);
               (3, [bs "NOT FOUND" ++ newline])]).
Proof.
  destruct (@session_new order db small []) as (w & _ & Hr); [constructor|done|done|].
  exists w.
  destruct (@cli_is_a_map order db cli_sample w _ _ _ Hr) as (w' & Hw & _).
  - discriminate.
  - reflexivity.
  - repeat constructor; try discriminate; unfold readable; by vm_compute.
  - by vm_compute.
  - by vm_compute.
  - exists w'. exact Hw.
Defined.

(** ** The example program *)

(** C29: the example program does what it says.  Without failing system calls,
    whatever directory the system picks (holding no files) and in whatever
    order the two maps are visited, it exits with 0 having printed three keys,
    their last values, the deleted key as absent, one segment after the merge
    and the agreement of the reopened store; and the directory is gone. *)
Theorem demo_prints `{!GoRange Z} `{!GoRange bytes} pick w :
  let d := pick (fs w) in
  no_faults w -> (forall name, FileSys.names (fs w) !! (d, name) = None) ->
  (forall key ino, FileSys.names (fs w) !! key = Some (FileSys.DFile ino) ->
     (ino < FileSys.next (fs w))%nat) ->
  exists w', Demo.main pick w = (w', Ok (0, DemoOps.expected))
    /\ (forall name, FileSys.names (fs w') !! (d, name) = None) /\ d ∉ FileSys.dirs (fs w').
Proof.
  intros d Hq Hn Hf. destruct (DemoOps.main_body_Ok pick w Hq Hn Hf) as (s & x & G & Hb & Hc & HI & Hx).
  destruct (DemoOps.deferred_Ok d s x G DemoOps.expected Hc HI Hx) as (w' & Hd & Hgone & _ & Hdir).
  exists w'. unfold Demo.main. rewrite Hb. fold d. by rewrite Hd.
Qed.

Definition a_world : World :=
  MkWorld (FileSys.MkFS {[bs "etc"]} {[(bs "etc", bs "passwd") := FileSys.DFile 0]} {[0%nat := bs "root"]} 1 []) ∅ 0.

Lemma demo_prints_witness :
  exists w', @Demo.main order key_order (fun _ => bs "bitcask-example1") a_world = (w', Ok (0, DemoOps.expected))
    /\ (forall name, FileSys.names (fs w') !! (bs "bitcask-example1", name) = None)
    /\ bs "bitcask-example1" ∉ FileSys.dirs (fs w').
Proof.
  apply (@demo_prints order key_order (fun _ => bs "bitcask-example1") a_world).
  - reflexivity.
  - intros name. cbn [a_world fs FileSys.names]. rewrite lookup_singleton_ne; [done|]. intros [=].
  - intros key ino H. cbn [a_world fs FileSys.names] in H.
    apply lookup_singleton_Some in H as [_ [= <-]]. cbn. lia.
Defined.

End ViewTheorems.
