(* ===== verification/UtilTheorems.v ===== *)
(** * Properties of the supporting packages *)
From S2P Require Import Prelude Crc32 FileSys Segment Wp Codec Cache Batch Bloom Popcount Keydir Ttl Flock Float64 Fixed FlockFile FlockOps Config.

Module UtilTheorems.

(** ** Codec *)

(** C30: the codec's encodings round-trip.  Every 64-bit value encodes as a
    varint of one to ten bytes, and both decoders, from a slice and from a byte
    stream, get the value and the number of its bytes back whatever follows
    them.  Zig-zag is a bijection between the int64 and the uint64 values; an
    int64 and a valid float64 come back from their eight bytes, and every bit
    pattern but a NaN's from the float it denotes; [PutUint64BE] stores a value
    that [Uint64BE] reads and keeps the rest of the buffer, or panics, exactly
    when the buffer is too short. *)
Theorem codec_round_trips nan :
  Fixed.is_nan nan = true ->
  (forall v, 0 <= v < 2 ^ 64 ->
     exists l, Codec.EncodeVarint v = Ok l /\ 1 <= blen l <= 10
       /\ (forall post e, Codec.ReadVarint (MkIoReader (l ++ post) e)
                          = (MkIoReader post e, (v, blen l, None)))
       /\ (forall post, Codec.DecodeVarint (l ++ post) = (v, blen l)))
  /\ (forall v, - 2 ^ 63 <= v < 2 ^ 63 ->
        Codec.ZigZagDecode (Codec.ZigZagEncode v) = v /\ Codec.BytesToInt64 (Codec.Int64ToBytes v) = Ok v)
  /\ (forall u, 0 <= u < 2 ^ 64 ->
        - 2 ^ 63 <= Codec.ZigZagDecode u < 2 ^ 63 /\ Codec.ZigZagEncode (Codec.ZigZagDecode u) = u)
  /\ (forall f, Fixed.valid f = true -> Fixed.BytesToFloat64 (Fixed.Float64ToBytes nan f) = Ok f)
  /\ (forall b, 0 <= b < 2 ^ 64 -> Fixed.is_nan b = false ->
        Fixed.Float64bits nan (Fixed.Float64frombits b) = b)
  /\ (forall b v, 0 <= v < 2 ^ 64 ->
        match Fixed.PutUint64BE b v with
        | Ok b' => Fixed.Uint64BE b' = Ok v /\ drop 8 b' = drop 8 b /\ length b' = length b
        | Err _ => False
        | Panic => blen b < 8
        end).
Proof.
  intros Hn. split_and!.
  - apply Codec.EncodeVarint_Ok.
  - intros v Hv. split; [by apply Codec.ZigZag_round_trip|by apply Codec.Int64_round_trip].
  - apply Codec.ZigZag_surjective.
  - intros f. by apply Fixed.Float64_round_trip.
  - intros b. apply Fixed.bits_frombits.
  - intros b v Hv. destruct (Fixed.PutUint64BE b v) as [b'|e|] eqn:E.
    + destruct (Fixed.get_put_be 8 v b b' E) as (Hg & Hd & Hl).
      rewrite Z.mod_small in Hg by exact Hv. by split_and!.
    + unfold Fixed.PutUint64BE, Fixed.put_be in E. by destruct (_ <? _).
    + by apply Fixed.put_be_panics in E.
Qed.

Lemma codec_round_trips_witness :
  Fixed.BytesToFloat64 (Fixed.Float64ToBytes 0x7FF8000000000001 Float64.f_001) = Ok Float64.f_001
  /\ Fixed.Float64bits 0x7FF8000000000001 (Fixed.Float64frombits 0x8000000000000001) = 0x8000000000000001.
Proof.
  destruct (codec_round_trips 0x7FF8000000000001 ltac:(by vm_compute)) as (_ & _ & _ & Hf & Hb & _).
  split; [apply Hf; by vm_compute|apply Hb; [lia|by vm_compute]].
Defined.

(** ** Cache *)

(** C31: the cache is an LRU cache.  From [New cap], for every capacity, each
    sequence of calls runs without panicking and answers as the specification:
    a list of pairs, most recently used first, where [Get] and [Put] of a
    present key move it to the front, [Put] of a new key in a full cache drops
    the last pair and [Resize] keeps the first pairs; at most [capacity] pairs
    are held when the capacity is positive. *)
Theorem cache_refines_lru cap l :
  exists c ps, Cache.run l (Cache.New cap) = Ok (c, Cache.spec_run l (cap, []))
    /\ Cache.rep c ps /\ (0 < Cache.Capacity c -> Cache.Len c <= Cache.Capacity c).
Proof.
  destruct (Cache.rep_New cap) as [HR Hc].
  destruct (Cache.run_Ok l (Cache.New cap) [] HR Hc) as (c & ps & Hrun & HR' & Hc').
  exists c, ps. split_and!; [done|done|]. intros H. unfold Cache.Len.
  rewrite (Cache.blen_pairs c ps HR'). by apply Hc'.
Qed.

(** ** Batches *)

(** C32: [Deduplicate] keeps what the batch does.  The operations it keeps are a
    subsequence with one operation per key, for the same keys, and applying
    them to any map has the effect of applying all of them. *)
Theorem deduplicate_same_effect b :
  Batch.ops (Batch.Deduplicate b) `sublist_of` Batch.ops b
  /\ NoDup (Batch.Key <$> Batch.ops (Batch.Deduplicate b))
  /\ (forall k, k ∈ Batch.Key <$> Batch.ops (Batch.Deduplicate b) <-> k ∈ Batch.Key <$> Batch.ops b)
  /\ (forall A, Batch.effect (Batch.ops (Batch.Deduplicate b)) A = Batch.effect (Batch.ops b) A).
Proof.
  rewrite Batch.Deduplicate_ops. split_and!.
  - apply Batch.survivors_sublist.
  - apply Batch.survivors_NoDup.
  - intros k. apply Batch.survivors_keys.
  - intros A. apply Batch.effect_survivors.
Qed.

(** ** Bloom filter *)

(** C33: the filter has no false negatives.  After any history of [New], [Add],
    [Union], [Reset] and of writing a filter out and reading it back, adding and
    looking up keys never panic, and a key added since (to the filter or to one
    merged into it) is reported as possibly present. *)
Theorem bloom_no_false_negatives f keys key :
  Bloom.built f keys ->
  (exists b, Bloom.MayContain key f = Ok b /\ (key ∈ keys -> b = true))
  /\ (exists f', Bloom.Add key f = (f', Ok tt) /\ Bloom.MayContain key f' = Ok true).
Proof.
  intros H. destruct (Bloom.built_contains f keys H) as [Hwf Hin]. split.
  - destruct (Bloom.MayContain_Ok f key Hwf) as (b & Hb & Hc). exists b. split; [done|].
    intros Hk. by apply Hc, Hin.
  - destruct (Bloom.Add_Ok f key Hwf) as (f' & Hadd & Hwf' & _ & _ & _ & Hkey & _).
    exists f'. split; [done|]. destruct (Bloom.MayContain_Ok f' key Hwf') as (b & -> & Hc).
    f_equal. by apply Hc.
Qed.

(** Sizing by table: 100 bits and three hashes. *)
Definition sizing : Bloom.Sizing unit := {|
  Bloom.rate_ok := fun _ => true; Bloom.rate_default := tt;
  Bloom.ceil_m := fun _ _ => 100; Bloom.round_k := fun _ _ => 3 |}.

Definition new_filter : Bloom.Filter := Bloom.MkFilter [0; 0] 100 3 0.
Definition one_key : Bloom.Filter := (Bloom.Add (bs "apple") new_filter).1.

Lemma one_key_built : Bloom.built one_key ({[bs "apple"]} ∪ ∅).
Proof.
  apply (Bloom.built_add new_filter); [|by vm_compute].
  by apply (@Bloom.built_new unit sizing 10 tt).
Qed.

Lemma bloom_no_false_negatives_witness :
  (exists b, Bloom.MayContain (bs "apple") one_key = Ok b /\ (bs "apple" ∈ {[bs "apple"]} ∪ (∅ : gset bytes) -> b = true))
  /\ (exists f', Bloom.Add (bs "apple") one_key = (f', Ok tt) /\ Bloom.MayContain (bs "apple") f' = Ok true).
Proof. apply (bloom_no_false_negatives one_key ({[bs "apple"]} ∪ ∅)). apply one_key_built. Defined.

(** C34: filters are serialised faithfully, up to a size.  A filter of at most
    [2^34] bits written to a buffer is read back the same, whatever follows it;
    but a header with a bit count within 63 of [2^64] is accepted too, and gives
    a filter without words on which every lookup panics. *)
Theorem bloom_serialised f keys out post e :
  Bloom.built f keys -> Bloom.BitSize f <= 2 ^ 34 ->
  (exists data t, Bloom.WriteTo f out = (out ++ data, Ok t)
     /\ Bloom.ReadFrom (MkIoReader (data ++ post) e) = (MkIoReader post e, Ok f))
  /\ (forall m k n, 2 ^ 64 - 63 <= m < 2 ^ 64 -> 0 < k < 2 ^ 64 -> 0 <= n < 2 ^ 64 ->
       exists g, Bloom.ReadFrom (MkIoReader ((be_put 8 m ++ be_put 8 k ++ be_put 8 n) ++ post) e)
                 = (MkIoReader post e, Ok g)
         /\ forall key, Bloom.MayContain key g = Panic).
Proof.
  intros H Hm. destruct (Bloom.built_contains f keys H) as [Hwf _]. split.
  - destruct (Bloom.WriteTo_emit (fun a => a) (fun _ => True) f out I) as (t & Hw).
    exists (Bloom.filter_bytes f), t. split; [exact Hw|]. by apply Bloom.ReadFrom_WriteTo.
  - intros m k n Hm' Hk Hn. exists (Bloom.MkFilter [] m k n).
    split; [|intros key]; by apply (Bloom.ReadFrom_wraps m k n post e).
Qed.

Lemma bloom_serialised_witness :
  exists data t, Bloom.WriteTo one_key [] = (data, Ok t)
    /\ Bloom.ReadFrom (MkIoReader (data ++ bs "rest") EOF) = (MkIoReader (bs "rest") EOF, Ok one_key).
Proof.
  apply (bloom_serialised one_key ({[bs "apple"]} ∪ ∅) [] (bs "rest") EOF).
  - apply one_key_built.
  - by vm_compute.
Defined.

(** [popcount] counts the set bits of a word, and so [FillRatio] counts
    those of the array. *)
Theorem popcount_counts_bits f :
  Forall (fun w => 0 <= w < 2 ^ 64) (Bloom.bits f) -> blen (Bloom.bits f) < 2 ^ 57 ->
  Forall (fun w => Bloom.popcount w = Popcount.weight 64 w) (Bloom.bits f)
  /\ Bloom.set_count f = Popcount.sum (Popcount.weight 64 <$> Bloom.bits f).
Proof.
  intros Hw Hn. split; [|by apply Popcount.set_count_sum].
  eapply Forall_impl; [exact Hw|]. intros w. apply Popcount.popcount_weight.
Qed.

Lemma popcount_counts_bits_witness :
  Forall (fun w => Bloom.popcount w = Popcount.weight 64 w) (Bloom.bits one_key)
  /\ Bloom.set_count one_key = Popcount.sum (Popcount.weight 64 <$> Bloom.bits one_key).
Proof.
  apply (popcount_counts_bits one_key); [|by vm_compute].
  apply Bloom.wf_words, (Bloom.built_contains one_key ({[bs "apple"]} ∪ ∅)), one_key_built.
Defined.

(** ** Key directory *)

(** C35: key directories survive the file.  A snapshot saved with [SaveToFile]
    is loaded back with the same records, and looking a key up in it finds the
    last record with that key; a file cut anywhere is refused with
    [ErrFormat]. *)
Theorem keydir_round_trip s path snap now :
  FileSys.faults s = [] -> FileSys.creatable s path ->
  Forall Keydir.rec_ok (Keydir.records snap) -> blen (Keydir.records snap) <= 2 ^ 28 ->
  blen (Keydir.snapshot_bytes (Keydir.records snap)) <= FileSys.max_file ->
  (exists s' snap', Keydir.SaveToFile path snap s = (s', Ok tt)
     /\ Keydir.LoadFromFile now path s' = (s', Ok snap')
     /\ Keydir.Records snap' = Keydir.Records snap
     /\ forall k, Keydir.Get k snap' = Ok (Keydir.last_record k (Keydir.records snap)))
  /\ (forall n e, (n < length (Keydir.snapshot_bytes (Keydir.records snap)))%nat ->
       exists rd err,
         Keydir.ReadFrom now (MkIoReader (take n (Keydir.snapshot_bytes (Keydir.records snap))) e) = (rd, Err err)
         /\ errors_Is err Keydir.ErrFormat = true).
Proof.
  intros Hq Hc Hr Hn Hb. split.
  - destruct (Keydir.keydir_Save_Load s path snap now Hq Hc Hr Hn Hb) as (s' & Hs & Hl).
    exists s', (Keydir.NewSnapshot now (Keydir.records snap)). split_and!; [done|done|done|].
    intros k. apply Keydir.Get_last.
  - intros n e Hlt. by apply Keydir.ReadFrom_prefix.
Qed.

Definition two_records : Keydir.Snapshot := Keydir.NewSnapshot 7
  [Keydir.MkRecord (bs "k") 1 0 20 false 5; Keydir.MkRecord (bs "k") 2 40 17 true 6].

Definition a_dir : FileSys.FS := FileSys.MkFS {[bs "db"]} ∅ ∅ 0 [].

Lemma keydir_round_trip_witness :
  exists s' snap', Keydir.SaveToFile (bs "db", bs "keydir") two_records a_dir = (s', Ok tt)
    /\ Keydir.LoadFromFile 9 (bs "db", bs "keydir") s' = (s', Ok snap')
    /\ Keydir.Records snap' = Keydir.Records two_records
    /\ forall k, Keydir.Get k snap' = Ok (Keydir.last_record k (Keydir.records two_records)).
Proof.
  apply (keydir_round_trip a_dir (bs "db", bs "keydir") two_records 9).
  - reflexivity.
  - unfold FileSys.creatable. cbn. by apply elem_of_singleton.
  - repeat constructor; by vm_compute.
  - by vm_compute.
  - by vm_compute.
Defined.

(** ** Expiry *)

(** C36: [Sweep] removes exactly the expired keys.  It returns the keys that are
    expired at its time, in order and each once, keeps the expiry of all the
    others, and afterwards no key is expired at that time. *)
Theorem ttl_sweep `{!GoRange bytes} now m :
  let '(m', ks) := Ttl.Sweep now m in
  StronglySorted bytes_le ks /\ NoDup ks /\ (forall k, k ∈ ks <-> Ttl.IsExpired now k m = true)
  /\ (forall k, Ttl.ExpiresAt k m' = if Ttl.IsExpired now k m then (Ttl.zero_time, false) else Ttl.ExpiresAt k m)
  /\ (forall k, Ttl.IsExpired now k m' = false).
Proof.
  pose proof (Ttl.Sweep_Ok now m) as H. destruct (Ttl.Sweep now m) as [m' ks].
  destruct H as (Hs & Hn & Hk & Hm). split_and!; [done|done|done| |].
  - intros k. unfold Ttl.ExpiresAt. rewrite Hm. by destruct (Ttl.IsExpired now k m).
  - intros k. unfold Ttl.IsExpired at 1. rewrite Hm.
    destruct (Ttl.IsExpired now k m) eqn:E; [done|]. unfold Ttl.IsExpired in E.
    by destruct (Ttl.entries m !! k).
Qed.

(** Expiry times survive encoding.  With times in the int64 range, keys
    shorter than 4 GiB and fewer than [2^32] of them, decoding what [Encode]
    wrote gives back the manager's entries, whatever order the map is visited in
    and whatever follows; and no input at all makes [Decode] panic. *)
Theorem ttl_round_trip `{!GoRange bytes} m post data :
  ((forall k t, Ttl.ExpiresAt k m = (t, true) -> Ttl.entry_ok (k, t)) -> Ttl.Len m < 2 ^ 32 ->
   Ttl.Decode (Ttl.Encode m ++ post) = Ok m)
  /\ Ttl.Decode data <> Panic.
Proof.
  split; [|apply Ttl.Decode_total]. intros Hok Hn. apply Ttl.ttl_Decode_Encode; [|done].
  intros k t Hk. apply Hok. unfold Ttl.ExpiresAt. by rewrite Hk.
Qed.

(** ** Lock file *)

(** C37: what the lock excludes.  At any time at most one process holds the lock
    of one inode, and as long as no process completes [Release], at most one
    process holds a lock at all.  With [Release] this fails: it removes the file
    after unlocking it, so a process that had it open gets the lock of an
    unlinked file while another locks a new one, and both hold the database. *)
Theorem flock_exclusion :
  (forall s p q ino, Flock.reaches (fun _ => True) s ->
     Flock.procs s p = Flock.Holding ino -> Flock.procs s q = Flock.Holding ino -> p = q)
  /\ (forall s p q i j, Flock.reaches (fun a => a <> Flock.ARemove) s ->
        Flock.procs s p = Flock.Holding i -> Flock.procs s q = Flock.Holding j -> p = q)
  /\ (exists s p q i j, Flock.reaches (fun _ => True) s /\ p <> q
        /\ Flock.procs s p = Flock.Holding i /\ Flock.procs s q = Flock.Holding j).
Proof.
  split_and!.
  - intros s p q ino Hr. apply Flock.holding_unique. by eapply Flock.reaches_lock_inv.
  - intros s p q i j Hr Hp Hq. pose proof (Flock.reaches_path_inv s Hr) as Hpath.
    assert (Hi : Flock.path s = Some i) by (apply (Hpath p); by rewrite Hp).
    assert (Hj : Flock.path s = Some j) by (apply (Hpath q); by rewrite Hq).
    assert (j = i) as -> by congruence.
    by apply (Flock.holding_unique s p q i); [eapply Flock.reaches_lock_inv|..].
  - destruct (Flock.run Flock.race Flock.init) as [s|] eqn:E; [|by vm_compute in E].
    exists s, 1%nat, 2%nat, 0%nat, 1%nat.
    split_and!; [by eapply Flock.run_reaches, E; constructor|done|..]; vm_compute in E; by injection E as <-.
Qed.

(** C39: waiting for the lock ends, and succeeds when it can.  With a positive
    interval, whatever system calls fail and whatever other processes do while
    the caller sleeps, [AcquireWithRetry] returns: with a lock that it holds,
    with a timeout ([ErrLocked]) after the deadline, or with the error of
    another failed call.  And if the lock file can be opened at every attempt
    up to the [k]-th, those before it come in time, and the lock is free at it,
    then the lock is acquired, with the owner's text in the file. *)
Theorem flock_retry_live pid stamp others dir timeout interval w :
  0 < interval ->
  (let '(w', r) := FlockFile.AcquireWithRetry pid stamp others dir timeout interval w in
   match r with
   | Ok l => exists ino, l = FlockFile.MkLock (dir, FlockFile.lockFile) (Some ino)
               /\ FlockFile.locks w' !! ino = Some pid
   | Err e => (e = FlockFile.ErrTimeout /\ errors_Is e FlockFile.ErrLocked = true
               /\ FlockFile.clock w + timeout < FlockFile.clock w')
              \/ errors_Is e FlockFile.ErrLocked = false
   | Panic => False
   end)
  /\ (forall k,
       let b i := FlockOps.before pid stamp others interval dir i w in
       (forall i, (i <= k)%nat -> FlockOps.openable dir (b i)) ->
       (forall i, (i < k)%nat -> FlockFile.clock (b i) <= FlockFile.clock w + timeout) ->
       FlockOps.lock_free dir (b k) ->
       exists w' ino,
         FlockFile.AcquireWithRetry pid stamp others dir timeout interval w
           = (w', Ok (FlockFile.MkLock (dir, FlockFile.lockFile) (Some ino)))
         /\ FlockFile.locks w' !! ino = Some pid
         /\ exists t, FileSys.content (FlockFile.files w') ino = FlockFile.owner_text pid (stamp t)).
Proof.
  intros Hi. split.
  - pose proof (FlockOps.wp_retry pid stamp others (Z.to_nat (timeout / interval) + 2) 0
      (FlockFile.clock w + timeout) interval dir w Hi ltac:(lia)
      (FlockOps.fuel_enough timeout interval _ Hi)) as H.
    unfold FlockFile.AcquireWithRetry. rewrite (M_bind_Ok get _ w w w) by done. unfold Wp.wp in H.
    destruct (FlockFile.retry _ _ _ _ _ _ _ _ w) as [w' [l|e|]]; [done| |done].
    cbn [fst snd] in H. destruct H as [[-> H]|H]; [left|by right]. by split_and!.
  - intros k b Ho Hc Hf.
    destruct (FlockOps.retry_Ok pid stamp others (Z.to_nat (timeout / interval) + 2) 0 k
      (FlockFile.clock w + timeout) interval dir w Hi ltac:(lia)) as (i & Hk & Hfree & Hr).
    + by apply FlockOps.fuel_enough.
    + intros i Hle. rewrite Nat.add_0_r. by apply Ho.
    + intros i Hlt. rewrite Nat.add_0_r. by apply Hc.
    + by rewrite Nat.add_0_r.
    + unfold FlockFile.AcquireWithRetry. rewrite (M_bind_Ok get _ w w w) by done.
      cbn [Nat.add] in Hr. eexists _, _. split_and!; [exact Hr|apply lookup_insert_eq|].
      eexists. apply FileSys.content_Some, lookup_insert_eq.
Qed.

(** A machine on which process 1 holds the lock, and gives it up while the
    caller sleeps for the second time. *)
Definition rfc (t : Z) : bytes := Segment.itoa t.
Definition held_lock : FlockFile.OS :=
  (FlockFile.Acquire 1 rfc (bs "db") (FlockFile.MkOS (FileSys.MkFS ∅ ∅ ∅ 0 []) ∅ 100)).1.
Definition hand_over (k : nat) (w : FlockFile.OS) : FlockFile.OS :=
  if bool_decide (k = 1%nat) then FlockFile.set_locks ∅ w else w.

Lemma flock_retry_live_witness :
  exists w' ino,
    FlockFile.AcquireWithRetry 2 rfc hand_over (bs "db") 50 20 held_lock
      = (w', Ok (FlockFile.MkLock (bs "db", FlockFile.lockFile) (Some ino)))
    /\ FlockFile.locks w' !! ino = Some 2
    /\ exists t, FileSys.content (FlockFile.files w') ino = FlockFile.owner_text 2 (rfc t).
Proof.
  apply (flock_retry_live 2 rfc hand_over (bs "db") 50 20 held_lock ltac:(lia)) with (k := 2%nat).
  - intros i Hi. destruct i as [|[|[|i]]]; [..|lia]; by vm_compute.
  - intros i Hi. destruct i as [|[|i]]; [..|lia]; by vm_compute.
  - by vm_compute.
Defined.

(** C38: one process's use of the lock file.  From an unlocked directory,
    [Acquire] succeeds; while the lock is held the object and the file both
    give the owner's pid, [IsHeld] is true and another [Acquire] fails with
    [ErrLocked]; [Release] succeeds, after which the file is gone, [IsHeld] is
    false and releasing again fails with [ErrNotLocked]. *)
Theorem flock_session pid q stamp dir w :
  - 2 ^ 63 <= pid < 2 ^ 63 ->
  FlockOps.openable dir w -> FlockOps.lock_free dir w ->
  exists w1 l, FlockFile.Acquire pid stamp dir w = (w1, Ok l)
    /\ FlockFile.OwnerPID l w1 = (w1, Ok pid)
    /\ FlockFile.ReadOwner dir w1 = (w1, Ok (pid, None))
    /\ FlockFile.IsHeld q dir w1 = (w1, Ok true)
    /\ (FlockFile.Acquire q stamp dir w1).2 = Err FlockFile.ErrLocked
    /\ exists w2 l2, FlockFile.Release (w1, l) = ((w2, l2), Ok tt)
       /\ FlockFile.IsHeld q dir w2 = (w2, Ok false)
       /\ FlockFile.ReadOwner dir w2 = (w2, Ok (0, Some FileSys.ErrNotExist))
       /\ FlockFile.Release (w2, l2) = ((w2, l2), Err FlockFile.ErrNotLocked).
Proof.
  intros Hp Ho Hf. destruct (FlockOps.opened_spec dir w Ho) as (_ & _ & Hq & Hn).
  set (w1 := FlockOps.acquired pid stamp dir w). set (ino := FlockOps.target dir w) in *.
  assert (Hl : FlockFile.locks w1 !! ino = Some pid) by apply lookup_insert_eq.
  assert (Htgt : FlockOps.target dir w1 = ino).
  { unfold FlockOps.target. change (FileSys.names (FlockFile.files w1))
      with (FileSys.names (FlockOps.opened dir (FlockFile.files w))). by rewrite Hn. }
  assert (Htext : FileSys.data (FlockFile.files w1) !! ino
                  = Some (FlockFile.owner_text pid (stamp (FlockFile.clock w))))
    by apply lookup_insert_eq.
  exists w1, (FlockFile.MkLock (dir, FlockFile.lockFile) (Some ino)). split_and!.
  - by apply FlockOps.Acquire_free.
  - by eapply FlockOps.OwnerPID_held.
  - by eapply FlockOps.ReadOwner_held.
  - by eapply FlockOps.IsHeld_held.
  - rewrite (FlockOps.Acquire_busy q stamp dir w1 pid); [done| |by rewrite Htgt].
    split; [done|]. change (FileSys.names (FlockFile.files w1))
      with (FileSys.names (FlockOps.opened dir (FlockFile.files w))). by rewrite Hn.
  - set (w2 := FlockOps.released dir ino w1).
    assert (Hno : FlockFile.sys (FileSys.Open dir FlockFile.lockFile) w2 = (w2, Err FileSys.ErrNotExist)).
    { apply FlockOps.not_named; [done|]. apply lookup_delete_eq. }
    exists w2, (FlockFile.MkLock (dir, FlockFile.lockFile) None). split_and!.
    + by apply FlockOps.Release_held.
    + unfold FlockFile.IsHeld. by mstep (attempt_Err _ _ _ _ Hno).
    + apply FlockOps.ReadOwner_gone; [done|]. apply lookup_delete_eq.
    + done.
Qed.

Lemma flock_session_witness :
  exists w1 l, FlockFile.Acquire 7 rfc (bs "db") (FlockFile.MkOS a_dir ∅ 0) = (w1, Ok l)
    /\ FlockFile.OwnerPID l w1 = (w1, Ok 7)
    /\ FlockFile.ReadOwner (bs "db") w1 = (w1, Ok (7, None))
    /\ FlockFile.IsHeld 8 (bs "db") w1 = (w1, Ok true)
    /\ (FlockFile.Acquire 8 rfc (bs "db") w1).2 = Err FlockFile.ErrLocked
    /\ exists w2 l2, FlockFile.Release (w1, l) = ((w2, l2), Ok tt)
       /\ FlockFile.IsHeld 8 (bs "db") w2 = (w2, Ok false)
       /\ FlockFile.ReadOwner (bs "db") w2 = (w2, Ok (0, Some FileSys.ErrNotExist))
       /\ FlockFile.Release (w2, l2) = ((w2, l2), Err FlockFile.ErrNotLocked).
Proof.
  apply (flock_session 7 8 rfc (bs "db") (FlockFile.MkOS a_dir ∅ 0)).
  - lia.
  - by split.
  - reflexivity.
Defined.

(** ** Configuration *)

(** C40: validation and layering of configurations.  Call a configuration valid
    when it is what config.go documents, the rate and the threshold being
    numbers in [0,1].  [Validate] accepts every valid configuration; what it
    accepts besides are exactly the configurations that would be valid but for a
    NaN as rate or threshold; every other one gets an error that wraps
    [ErrInvalid].  Overriding an accepted configuration with an accepted one
    gives an accepted one if the overrides do not carry a negative
    [SyncInterval], and overriding again changes nothing; but two valid
    configurations can merge into a rejected one. *)
Theorem config_validity :
  (forall c, Config.valid c -> Config.Validate c = Ok tt)
  /\ (forall c, Config.Validate c = Ok tt <-> Config.valid (Config.without_nan c))
  /\ (forall c, ~ Config.valid (Config.without_nan c) ->
        exists e, Config.Validate c = Err e /\ errors_Is e Config.ErrInvalid = true)
  /\ (exists c, Config.Validate c = Ok tt /\ ~ Config.valid c)
  /\ (forall base overrides, Config.Validate base = Ok tt -> Config.Validate overrides = Ok tt ->
        0 <= Config.SyncInterval overrides -> Config.Validate (Config.Merge base overrides) = Ok tt)
  /\ (forall base overrides, Config.Merge (Config.Merge base overrides) overrides = Config.Merge base overrides)
  /\ (exists base overrides, Config.valid base /\ Config.valid overrides
        /\ Config.Validate (Config.Merge base overrides) <> Ok tt).
Proof.
  split_and!.
  - apply Config.valid_Validate.
  - apply Config.Validate_without_nan.
  - intros c. rewrite <- Config.Validate_without_nan, Config.Validate_accepted. apply Config.Validate_error.
  - exists (Config.MkConfig 0 Config.SyncNone 0 0 0 S754_nan Float64.zero 0 0 0 0 false).
    split; [by vm_compute|]. intros Hv. by destruct (Config.v_rate _ _ Hv).
  - intros base o. rewrite !Config.Validate_accepted. apply Config.Merge_accepted.
  - apply Config.Merge_idem.
  - exists (Config.MkConfig 0 Config.SyncInterval_ 1 0 0 Float64.zero Float64.zero 0 0 0 0 false).
    exists (Config.MkConfig 0 Config.SyncNone (-1) 0 0 Float64.zero Float64.zero 0 0 0 0 false).
    split_and!; [by repeat split..|by vm_compute].
Qed.
End UtilTheorems.
