(* ===== verification/StoreTheorems.v ===== *)
(** * Properties of the store *)
From S2P Require Import Prelude LogEntry LogReader Index FileSys Segment Store Merge Repr StoreOps Recovery Opening Durable Session MergeOps Promote Compaction Refine Restart Invariant Faults ShortWrite Bounds AfterCrash Sample LogTheorems.
Import LogReader Index Segment Store Merge Repr StoreOps Recovery Opening Durable Session MergeOps Promote Compaction Refine Restart Invariant Faults ShortWrite Bounds AfterCrash Sample.

Module StoreTheorems.

(** ** Refinement *)

(** C1: the store refines a finite map.  From a state that represents the map
    [A], any sequence of [Put], [Delete], [Get], [Count] and [Merge] calls that
    stays within the file-size and id bounds, with no system call failing,
    gives exactly the answers of the same calls on the map: [Get] returns the
    last value put and not deleted since, [Count] the number of keys, an empty
    key is rejected, and [Merge] changes nothing. *)
Theorem store_refines_map `{!GoRange Z} l x A :
  Rep x A -> quiet x -> trace_fits l x -> (trace l x).2 = spec_trace l A.
Proof. apply trace_spec. Qed.

Definition sample_calls : list call :=
  [CPut (bs "a") (bs "1"); CPut (bs "bb") (bs "22"); CGet (bs "a"); CDelete (bs "a");
   CPut [] (bs "x"); CGet (bs "a"); CCount; CMerge; CGet (bs "bb"); CPut (bs "bb") (bs "");
   CGet (bs "bb"); CDelete (bs "bb"); CMerge; CCount].

Lemma store_refines_map_witness :
  (@trace order sample_calls empty_state).2 = spec_trace sample_calls ∅.
Proof.
  apply (@store_refines_map order).
  - apply empty_Rep.
  - apply empty_quiet.
  - vm_compute. repeat split; discriminate.
Defined.

(** C2: acknowledged writes survive restarts.  Sessions that each open the
    directory, write (puts and deletes of non-empty keys) and close it all
    succeed from a new directory, whatever their options, and a later [Open]
    followed by [Get] finds for every key what the writes, in order, left. *)
Theorem sessions_are_durable `{!GoRange Z} d o0 l0 ls o key :
  Forall op_ok (l0 ++ concat ls.*2) ->
  ops_bytes (l0 ++ concat ls.*2) <= FileSys.max_file ->
  1 + Z.of_nat (length (l0 ++ concat ls.*2)) < max_id ->
  exists w w',
    (session d o0 l0 ≫= fun _ => sessions d ls) new_world = (w, Ok tt)
    /\ lookup_in d o key w = (w', Ok (foldl apply_op ∅ (l0 ++ concat ls.*2) !! key)).
Proof.
  intros [Hok0 Hok]%Forall_app Hsz Hid.
  rewrite ops_bytes_app in Hsz. rewrite length_app, Nat2Z.inj_add in Hid.
  pose proof (ops_bytes_nonneg (concat ls.*2)).
  destruct (session_new d o0 l0 Hok0) as (w1 & Hs0 & Hr0); [lia|lia|].
  destruct (sessions_Ok d ls w1 _ _ _ Hr0 Hok) as (w & Hs & Hr); [lia|lia|].
  destruct (lookup_Ok w d _ _ _ o key Hr) as [w' Hl].
  exists w, w'. rewrite (M_bind_Ok _ _ _ _ _ Hs0), Hs. split; [done|].
  by rewrite foldl_app.
Qed.

Lemma sessions_are_durable_witness :
  exists w w',
    (@session order db small writes ≫= fun _ =>
     @sessions order db [(DefaultOptions, [OpPut (bs "c") (bs "3"); OpDelete (bs "b")])]) new_world
      = (w, Ok tt)
    /\ @lookup_in order db small (bs "c") w = (w', Ok (Some (bs "3"))).
Proof.
  apply (@sessions_are_durable order db small writes
    [(DefaultOptions, [OpPut (bs "c") (bs "3"); OpDelete (bs "b")])] small (bs "c")).
  - repeat (constructor; [split; [done|unfold readable; by vm_compute]|]). constructor.
  - vm_compute. discriminate.
  - vm_compute. reflexivity.
Defined.

(** ** The invariant *)

(** C3: reachable stores are well formed.  Opening a new directory, calling the
    store in any order, closing it and opening it again (with any options, and
    whether the index comes from the log or from a hint file), without failing
    system calls and within the bounds, only leads to states in which the
    active segment is the one with the largest id, every segment object has its
    own file open and knows its length, no segment file is left out, every
    index entry lies in its segment and decodes to a record of its key, and so
    [Get] of any key succeeds. *)
Theorem reachable_well_formed `{!GoRange Z} d x :
  reachable d x -> well_formed x /\ forall key, exists v, Store.Get key x = (x, Ok v).
Proof.
  intros Hr. pose proof (reachable_sound d x Hr) as Hs. destruct (sound_Inv d x Hs) as [G HI].
  split; [by eapply Inv_well_formed|]. intros key. eexists. by apply (Get_Ok x G), Hs.
Qed.

(** C4: how large a store gets.  On a new directory, a client makes fewer than
    10^10 - 1 calls whose records take at most (2^63 - 9) / 2 bytes in all, with
    keys and values whose lengths fit a uint32.  Then, after each of the calls
    and whatever the options and the compactions, no segment holds more bytes
    than the calls so far have written, the segment ids have grown by at most
    one per call, and every offset, size and id fits the integer type and the
    name format that the code gives it.  So no call runs out of room, and all
    answer as the map does: the bounds that the other theorems assume follow
    from the client's input. *)
Theorem inputs_bound_the_store `{!GoRange Z} w d o l :
  no_faults w -> (forall name, FileSys.names (fs w) !! (d, name) = None) ->
  (forall key ino, FileSys.names (fs w) !! key = Some (FileSys.DFile ino) ->
     (ino < FileSys.next (fs w))%nat) ->
  Forall call_encodes l -> 8 + 2 * calls_bytes l <= FileSys.max_file ->
  1 + Z.of_nat (length l) < max_id ->
  exists w' s, OpenWithOptions d o w = (w', Ok s) /\ let x0 := MkState w' s in
    trace_fits l x0 /\ (trace l x0).2 = spec_trace l ∅
    /\ forall l1 l2, l = l1 ++ l2 ->
         let x := (trace l1 x0).1 in
         in_range x /\ activeID (st x) <= 1 + Z.of_nat (length l1)
         /\ forall id p sg, segments (st x) !! id = Some p -> heap (world x) !! p = Some sg ->
              id <= 1 + Z.of_nat (length l1) /\ 0 <= Segment.size sg <= calls_bytes l1.
Proof.
  intros Hq Hn Hf Hl Hsz Hid. destruct (within_new w d o Hq Hn Hf) as (w' & s & Ho & Hw).
  exists w', s. split; [done|]. cbv zeta. destruct (trace_within l _ _ 0 1 Hw Hl) as [Hfits _]; [lia|lia|].
  split_and!; [done| |].
  - destruct Hw as [Hq' _ (G & HI & HA & _)]. apply trace_spec; [by exists G|done|done].
  - intros l1 l2 ->. apply Forall_app in Hl as [Hl1 _]. rewrite length_app in Hid.
    assert (Hsum : calls_bytes (l1 ++ l2) = calls_bytes l1 + calls_bytes l2) by apply totals_app.
    pose proof (calls_bytes_nonneg l2).
    destruct (trace_within l1 _ _ 0 1 Hw Hl1) as [_ Hw1]; [lia|lia|]. rewrite Z.add_0_l in Hw1.
    split_and!; [|by apply (within_active _ _ _ _ Hw1)|].
    + destruct Hw1 as [_ _ (G & HI & _)]. by eapply Inv_in_range.
    + intros id p sg. by apply (within_sizes _ _ _ _ id p sg Hw1).
Qed.

Definition reached : State := (@trace order sample_calls empty_state).1.

Lemma reached_reachable : @reachable order db reached.
Proof.
  apply (@reachable_trace order); [exact empty_reachable|].
  vm_compute. repeat split; discriminate.
Qed.

Lemma reachable_well_formed_witness :
  well_formed reached /\ exists v, Store.Get (bs "bb") reached = (reached, Ok v).
Proof.
  destruct (@reachable_well_formed order db reached reached_reachable) as [Hw Hg].
  split; [exact Hw|apply Hg].
Defined.

Lemma inputs_bound_the_store_witness :
  exists w' s, @OpenWithOptions order db small new_world = (w', Ok s)
    /\ (@trace order sample_calls (MkState w' s)).2 = spec_trace sample_calls ∅
    /\ in_range (@trace order sample_calls (MkState w' s)).1.
Proof.
  destruct (@inputs_bound_the_store order new_world db small sample_calls) as (w' & s & Ho & _ & Ha & Hin);
    [done|done|done| | | |].
  - repeat (constructor; [by vm_compute|]). constructor.
  - vm_compute. discriminate.
  - by vm_compute.
  - exists w', s. split_and!; [exact Ho|exact Ha|].
    apply (Hin sample_calls []). symmetry. apply app_nil_r.
Defined.

(** ** Compaction and restart *)

(** C5: a compaction followed by a restart keeps the map.  [Merge], [Close] and
    [Open] succeed and the reopened store represents the same map, when the live
    keys fit the hint file (16 MiB each, 2^28 of them). *)
Theorem merge_then_restart `{!GoRange Z} x A o :
  Rep x A -> quiet x -> merge_fits x ->
  Forall (fun k => blen k <= max_hint_key) (Index.Key <$> LiveEntries (index (st x))) ->
  blen (LiveEntries (index (st x))) <= max_hint_count ->
  exists x1 x2 w s,
    Merge x = (x1, Ok tt) /\ Store.Close x1 = (x2, Ok tt)
    /\ OpenWithOptions (dir (st x)) o (world x2) = (w, Ok s)
    /\ Rep (MkState w s) A /\ quiet (MkState w s).
Proof.
  intros HR Hq Hf Hk Hn. destruct (Merge_Rep x A HR Hq Hf) as (x1 & Hm & HR1 & Hq1).
  destruct HR as (G & HI & HA). destruct (decide (LiveEntries (index (st x)) = [])) as [Hl|Hl].
  - destruct (Merge_empty_Ok x G HI Hq Hl) as (x1' & n & Hm' & HD & _ & Hdir & Hi0).
    rewrite Hm in Hm'. injection Hm' as <-.
    assert (Hb : bounded {[1 := (n, [])]} 0 1).
    { intros id ino c [<- H]%lookup_singleton_Some. by simplify_eq. }
    destruct (close_rests _ _ _ _ _ HD Hq1 Hb) as (x2 & Hc & Hr). rewrite Hdir in Hr.
    destruct (rests_open _ _ _ _ _ o Hr) as (w & s & G' & L' & Ho & HD' & Hq' & _ & Ha & _).
    exists x1, x2, w, s. split_and!; try done. exists G'. split; [apply HD'|]. cbn [st].
    destruct HR1 as (G1 & _ & ->). by rewrite Ha, Hi0.
  - destruct (Merge_live_Ok x G HI Hq Hl (merge_fits_room _ _ HI Hf)) as (x1' & n & Hm' & HC).
    rewrite Hm in Hm'. injection Hm' as <-.
    pose proof (compacted_Hinted _ _ _ _ HI HC Hk Hn) as HH.
    destruct (reopen_hinted _ _ _ o HH Hq1) as (x2 & w & s & Hc & Ho & HH' & Hq' & Hidx & _).
    rewrite (cp_dir _ _ _ _ HC) in Ho. exists x1, x2, w, s. split_and!; try done.
    eexists. split; [apply HH'|]. cbn [st]. rewrite Hidx, (cp_index _ _ _ _ HC), HA.
    symmetry. eapply abs_merged; [apply HI|]. apply lookup_singleton_eq.
Qed.

Lemma merge_then_restart_witness :
  exists x1 x2 w s,
    @Merge order full_state = (x1, Ok tt) /\ @Store.Close order x1 = (x2, Ok tt)
    /\ @OpenWithOptions order (dir (st full_state)) small (world x2) = (w, Ok s)
    /\ Rep (MkState w s) {[bs "b" := bs "two"]} /\ quiet (MkState w s).
Proof.
  apply (@merge_then_restart order full_state {[bs "b" := bs "two"]} small).
  - apply full_Rep.
  - apply full_quiet.
  - vm_compute. repeat split; discriminate.
  - assert (LiveEntries (index (st full_state)) = [MkKeyLocation (bs "b") (MkLocation 1 21 21 false)])
      as -> by (vm_compute; reflexivity).
    repeat constructor. by vm_compute.
  - by vm_compute.
Defined.

(** C6: writes made after a compaction are lost by a restart.  [Merge] leaves a
    hint file that later writes do not update, and [Open] prefers it to the log:
    after [Merge], any sequence of successful writes, [Close] and [Open], the
    store represents the map as it was at the time of [Merge]. *)
Theorem writes_after_merge_are_lost `{!GoRange Z} x A l o :
  Rep x A -> quiet x -> merge_fits x -> LiveEntries (index (st x)) <> [] ->
  Forall (fun k => blen k <= max_hint_key) (Index.Key <$> LiveEntries (index (st x))) ->
  blen (LiveEntries (index (st x))) <= max_hint_count ->
  Forall op_ok l -> live_bytes (index (st x)) + ops_bytes l <= FileSys.max_file ->
  activeID (st x) + 1 + Z.of_nat (length l) < max_id ->
  exists x1 x2 x3 w s,
    Merge x = (x1, Ok tt) /\ run_ops l x1 = (x2, Ok tt) /\ Rep x2 (foldl apply_op A l)
    /\ Store.Close x2 = (x3, Ok tt) /\ OpenWithOptions (dir (st x)) o (world x3) = (w, Ok s)
    /\ Rep (MkState w s) A.
Proof.
  intros (G & HI & HA) Hq Hf Hl Hk Hn Hok Hsz Hid.
  destruct (Merge_live_Ok x G HI Hq Hl (merge_fits_room _ _ HI Hf)) as (x1 & n & Hm & HC).
  pose proof (compacted_Hinted _ _ _ _ HI HC Hk Hn) as HH.
  set (G1 := {[activeID (st x) + 1 := _]} : Contents) in *.
  assert (Ha1 : abs G1 (index (st x1)) = A).
  { rewrite (cp_index _ _ _ _ HC), HA. eapply abs_merged; [apply HI|]. apply lookup_singleton_eq. }
  assert (Hb : bounded G1 (live_bytes (index (st x))) (activeID (st x) + 1)).
  { intros id ino c [<- H]%lookup_singleton_Some. simplify_eq.
    by rewrite (live_bytes_compact G _ (inv_index _ _ HI)). }
  destruct (run_ops_Hinted x1 G1 _ _ _ l HH (cp_quiet _ _ _ _ HC) Hok Hb Hsz Hid)
    as (x2 & G2 & Hrun & HH2 & Hq2 & Habs2 & HabsI & Hdir2).
  destruct (reopen_hinted _ _ _ o HH2 Hq2) as (x3 & w & s & Hc & Ho & HH3 & _ & Hidx & _).
  rewrite Hdir2, (cp_dir _ _ _ _ HC) in Ho.
  exists x1, x2, x3, w, s. split_and!; try done.
  - exists G2. split; [apply HH2|]. by rewrite Habs2, Ha1.
  - exists G2. split; [apply HH3|]. cbn [st]. by rewrite Hidx, HabsI, Ha1.
Qed.

Lemma writes_after_merge_are_lost_witness :
  exists x1 x2 x3 w s,
    @Merge order full_state = (x1, Ok tt)
    /\ @run_ops order [OpPut (bs "c") (bs "3"); OpDelete (bs "b")] x1 = (x2, Ok tt)
    /\ Rep x2 {[bs "c" := bs "3"]}
    /\ @Store.Close order x2 = (x3, Ok tt)
    /\ @OpenWithOptions order (dir (st full_state)) small (world x3) = (w, Ok s)
    /\ Rep (MkState w s) {[bs "b" := bs "two"]}.
Proof.
  assert (Hmap : foldl apply_op {[bs "b" := bs "two"]} [OpPut (bs "c") (bs "3"); OpDelete (bs "b")]
    = {[bs "c" := bs "3"]}) by reflexivity.
  rewrite <- Hmap.
  apply (@writes_after_merge_are_lost order full_state {[bs "b" := bs "two"]}
    [OpPut (bs "c") (bs "3"); OpDelete (bs "b")] small).
  - apply full_Rep.
  - apply full_quiet.
  - vm_compute. repeat split; discriminate.
  - vm_compute. discriminate.
  - assert (LiveEntries (index (st full_state)) = [MkKeyLocation (bs "b") (MkLocation 1 21 21 false)])
      as -> by (vm_compute; reflexivity).
    repeat constructor. by vm_compute.
  - by vm_compute.
  - repeat (constructor; [split; [done|unfold readable; by vm_compute]|]). constructor.
  - vm_compute. discriminate.
  - vm_compute. reflexivity.
Defined.

(** C7: what [Merge] writes.  With live keys, the store ends with exactly one
    segment, whose id is one above the active one; its bytes are the frames of
    the live records in key order; the index locates them, and the hint file
    holds that index.  No other segment file is left in the directory. *)
Theorem merge_compacts `{!GoRange Z} x G :
  Inv x G -> quiet x -> LiveEntries (index (st x)) <> [] -> merge_fits x ->
  exists x' n,
    let id := activeID (st x) + 1 in
    let log := frames (compact G (index (st x))) in
    Merge x = (x', Ok tt) /\ FileIDs (st x') = [id] /\ activeID (st x') = id
    /\ Inv x' {[id := (n, log)]}
    /\ index (st x') = merged_index id G (index (st x))
    /\ hint_written (fs (world x')) (dir (st x)) (index (st x'))
    /\ listSegments (dir (st x)) (world x') = (world x', Ok [id]).
Proof.
  intros HI Hq Hl Hf.
  destruct (Merge_live_Ok x G HI Hq Hl (merge_fits_room _ _ HI Hf)) as (x' & n & Hm & HC).
  exists x', n. cbv zeta. pose proof (cp_inv _ _ _ _ HC) as HI'.
  pose proof (FileIDs_one _ _ _ HI') as Hids.
  assert (Hact : activeID (st x') = activeID (st x) + 1).
  { destruct (inv_active _ _ HI') as (_ & [y [-> _]%lookup_singleton_Some] & _). done. }
  split_and!; [done|done|done|done|apply HC|apply HC|].
  rewrite <- (cp_dir _ _ _ _ HC).
  rewrite (listSegments_Ok _ _ _ (inv_disk _ _ HI') (cp_quiet _ _ _ _ HC)).
  unfold sorted_ids. by rewrite map_to_list_singleton.
Qed.

Lemma merge_compacts_witness :
  exists G x' n,
    @Merge order full_state = (x', Ok tt) /\ @FileIDs order (st x') = [3]
    /\ Inv x' {[3 := (n, frames (compact G (index (st full_state))))]}.
Proof.
  destruct full_Inv as [G HI]. exists G.
  destruct (@merge_compacts order full_state G HI full_quiet) as (x' & n & Hm & Hids & _ & HI' & _).
  - vm_compute. discriminate.
  - vm_compute. repeat split; discriminate.
  - exists x', n. split_and!; [exact Hm|exact Hids|exact HI'].
Defined.

(** Without live keys [Merge] starts over.  The store ends with the single
    empty segment 1, an empty index and no hint file: the ids of the segments do
    not keep growing. *)
Theorem merge_without_live_keys `{!GoRange Z} x G :
  Inv x G -> quiet x -> LiveEntries (index (st x)) = [] ->
  exists x' n,
    Merge x = (x', Ok tt) /\ Inv x' {[1 := (n, [])]} /\ activeID (st x') = 1
    /\ index (st x') = ∅ /\ hint_free x'.
Proof.
  intros HI Hq Hl. destruct (Merge_empty_Ok x G HI Hq Hl) as (x' & n & Hm & HD & _ & _ & Hidx).
  exists x', n. split_and!; [done|apply HD| |done|apply HD].
  destruct (inv_active _ _ (dur_inv _ _ _ HD)) as (_ & [y [<- _]%lookup_singleton_Some] & _). done.
Qed.

Lemma merge_without_live_keys_witness :
  exists x' n, @Merge order empty_state = (x', Ok tt) /\ Inv x' {[1 := (n, [])]}
    /\ activeID (st x') = 1 /\ index (st x') = ∅ /\ hint_free x'.
Proof.
  destruct empty_Rep as (G & HI & _).
  apply (@merge_without_live_keys order empty_state G HI empty_quiet). by vm_compute.
Defined.

(** C22: a key that the hint file cannot carry makes a compacted store
    unreadable.  When a live key is longer than 16 MiB (and the compaction fits
    the size and id limits, with at most 2^28 live keys), [Merge] succeeds and the
    store still represents its map, but it has written a hint file that
    [LoadHint] refuses: [Close] succeeds and the next [Open], with any options,
    fails with an error about an absurd key length. *)
Theorem oversized_key_blocks_reopen `{!GoRange Z} x A key o :
  Rep x A -> quiet x -> merge_fits x -> is_Some (A !! key) -> max_hint_key < blen key ->
  blen (LiveEntries (index (st x))) <= max_hint_count ->
  exists x1 x2 w,
    Merge x = (x1, Ok tt) /\ Rep x1 A /\ Store.Close x1 = (x2, Ok tt)
    /\ OpenWithOptions (dir (st x)) o (world x2)
       = (w, Err (Errorf "store: load hint: %w" (Errorf "%w: absurd key length %d" ErrHint))).
Proof.
  intros HR Hq Hf Hkey Hlong Hn. destruct (Merge_Rep x A HR Hq Hf) as (x1 & Hm & HR1 & Hq1).
  destruct HR as (G & HI & HA).
  assert (Hin : key ∈ Index.Key <$> LiveEntries (index (st x))).
  { rewrite (dom_live x G HI), <- HA. destruct Hkey as [v Hv].
    apply list_elem_of_fmap. exists (key, v). split; [done|]. by apply elem_of_map_to_list. }
  assert (Hl : LiveEntries (index (st x)) <> []) by (intros E; rewrite E in Hin; inversion Hin).
  destruct (Merge_live_Ok x G HI Hq Hl (merge_fits_room _ _ HI Hf)) as (x1' & n & Hm' & HC).
  rewrite Hm in Hm'. injection Hm' as <-. pose proof (cp_inv _ _ _ _ HC) as HI1.
  destruct (Close_state x1 _ HI1 Hq1) as [h Hcl]. destruct (cp_hint _ _ _ _ HC) as (ino & Hna & Hda).
  assert (Hk : forall k, k ∈ Keys (index (st x1)) <-> k ∈ Index.Key <$> LiveEntries (index (st x)))
    by (intros k; by rewrite (cp_index _ _ _ _ HC), Keys_merged).
  destruct (LoadHint_oversized (index (st x1)) New EOF) as [rd Hload].
  - apply Forall_forall. intros kl Hkl%elem_of_pairs. pose proof (inv_index _ _ HI1 _ _ Hkl) as (v & ? & ? & ? & _ & _ & _ & Hfit & _).
    split; [done|]. exact (idx_ok_loc_ok _ _ _ _ _ _ (inv_disk _ _ HI1) (inv_index _ _ HI1) Hkl).
  - apply Exists_exists. apply Hk in Hin. rewrite <- Key_pairs in Hin.
    apply list_elem_of_fmap in Hin as (kl & -> & Hin). by exists kl.
  - rewrite <- length_pairs, <- (length_fmap Index.Key), Key_pairs, (cp_index _ _ _ _ HC), Keys_merged,
      length_fmap. exact Hn.
  - destruct (inv_active _ _ HI1) as (_ & Hs & _). rewrite <- (cp_dir _ _ _ _ HC) in Hna |- *.
    destruct (OpenWithOptions_bad_hint (MkWorld (fs (world x1)) h (hnext (world x1))) (dir (st x1)) o _ _ ino
      _ _ _ _ Hq1 (inv_disk _ _ HI1) Hs Hna Hda Hload) as [w Ho].
    eexists x1, _, w. split_and!; [done|done|exact Hcl|exact Ho].
Qed.

(** A store with one key of 16 MiB and a byte. *)
Definition big_state : State := (@exec order (CPut LogTheorems.LogTheorems.big_key []) empty_state).1.

Lemma one_key_state k :
  k <> [] -> blen k < 2 ^ 32 ->
  let x := (@exec order (CPut k []) empty_state).1 in
  Rep x {[k := []]} /\ quiet x /\ merge_fits x.
Proof.
  intros Hne Hk. destruct empty_Durable as (G & L & HD & Hq & Hb & Ha).
  assert (Hw : within empty_state ∅ 0 1).
  { split; [done|done|]. exists G. split_and!; [apply HD|done|done]. }
  destruct (@trace_within order [CPut k []; CMerge] _ _ _ _ Hw) as [(Hput & Hmerge & _) _].
  - by repeat constructor.
  - unfold calls_bytes, total. cbn [foldr call_bytes]. unfold LogEntry.frameSize, LogEntry.headerSize.
    change (blen []) with 0. unfold FileSys.max_file. lia.
  - by vm_compute.
  - destruct (@exec_spec order empty_state ∅ (CPut k []) empty_Rep Hq Hput) as (x & He & HR & Hqx).
    cbn [spec_call] in HR. rewrite bool_decide_eq_false_2 in HR by done.
    cbv zeta. rewrite He in Hmerge |- *. by split_and!.
Qed.

Lemma big_state_facts :
  Rep big_state {[LogTheorems.LogTheorems.big_key := []]} /\ quiet big_state /\ merge_fits big_state.
Proof.
  apply one_key_state.
  - intros E. pose proof LogTheorems.LogTheorems.blen_big_key as Hk. rewrite E in Hk. discriminate Hk.
  - rewrite LogTheorems.LogTheorems.blen_big_key. reflexivity.
Qed.

Lemma oversized_key_blocks_reopen_witness :
  exists x1 x2 w,
    @Merge order big_state = (x1, Ok tt) /\ @Store.Close order x1 = (x2, Ok tt)
    /\ @OpenWithOptions order (dir (st big_state)) small (world x2)
       = (w, Err (Errorf "store: load hint: %w" (Errorf "%w: absurd key length %d" ErrHint))).
Proof.
  destruct big_state_facts as (HR & Hq & Hf).
  destruct (@oversized_key_blocks_reopen order big_state _ LogTheorems.LogTheorems.big_key small HR Hq Hf)
    as (x1 & x2 & w & Hm & _ & Hc & Ho).
  - rewrite lookup_singleton_eq. eauto.
  - rewrite LogTheorems.LogTheorems.blen_big_key. reflexivity.
  - destruct HR as (G & HI & HA). change (Count (st big_state) <= max_hint_count).
    rewrite (Count_Ok big_state G HI), <- HA, map_size_singleton. by vm_compute.
  - exists x1, x2, w. split_and!; [exact Hm|exact Hc|exact Ho].
Defined.

(** ** Writing *)

(** C12: the effect of [Put] on disk.  It appends exactly the encoded record to
    the active segment and to no other file, indexes it at the old end of the
    segment, leaves the hint file alone, and then starts a new empty segment,
    whose id is the next one, exactly when [MaxFileSize] is positive and the
    segment has grown past it. *)
Theorem put_appends_and_rotates `{!GoRange Z} x G key value :
  Inv x G -> quiet x -> key <> [] -> LogEntry.fits key value ->
  room x (LogEntry.frameSize (blen key) (blen value)) 1 ->
  exists x' G',
    Store.Put key value x = (x', Ok tt) /\ Inv x' G'
    /\ logged x x' G G' (MkRec key value false)
    /\ let n := active_size x G + LogEntry.frameSize (blen key) (blen value) in
       if rotates (opts (st x)) n
       then activeID (st x') = activeID (st x) + 1 /\ active_size x' G' = 0
       else activeID (st x') = activeID (st x) /\ active_size x' G' = n.
Proof.
  intros HI Hq Hne Hf Hroom. rewrite <- (LogEntry.blen_Encode key value false) in *.
  destruct (Put_full x G key value HI Hq Hne Hf Hroom) as (x' & G' & H1 & H2 & _ & _ & H3 & H4).
  by exists x', G'.
Qed.

Lemma put_appends_and_rotates_witness :
  exists G x' G',
    @Store.Put order (bs "key") (bs "a value of 21 bytes..") empty_state = (x', Ok tt) /\ Inv x' G'
    /\ logged empty_state x' G G' (MkRec (bs "key") (bs "a value of 21 bytes..") false)
    /\ activeID (st x') = 2 /\ active_size x' G' = 0.
Proof.
  destruct empty_Rep as (G & HI & _).
  assert (Hs : active_size empty_state G = 0).
  { assert (Hr : room empty_state FileSys.max_file 1) by (vm_compute; split; [discriminate|done]).
    apply (room_size _ _ _ _ HI) in Hr as [Hr _]. unfold active_size in *.
    destruct (G !! activeID (st empty_state)) as [[ino c]|]; [|lia].
    pose proof (blen_nonneg c). unfold FileSys.max_file in *. lia. }
  destruct (@put_appends_and_rotates order empty_state G (bs "key") (bs "a value of 21 bytes..") HI
    empty_quiet) as (x' & G' & Hp & HI' & Hl & Hr).
  - done.
  - by split.
  - vm_compute. split; [discriminate|done].
  - exists G, x', G'. rewrite Hs in Hr. split_and!; [exact Hp|exact HI'|exact Hl| |]; apply Hr.
Defined.

(** Failing system calls in [Put].  When the write fails without writing,
    [Put] returns the wrapped error and the store and its files are as before:
    it still represents the same map.  With [SyncOnWrite], when the write
    succeeds and the sync after it fails, [Put] returns an error as well, but
    the write is not undone: the store represents the updated map. *)
Theorem put_errors `{!GoRange Z} x A fl key value :
  Rep x A -> key <> [] ->
  (FileSys.faults (fs (world x)) = FileSys.FFail :: fl ->
   exists x',
     Store.Put key value x = (x', Err (Errorf "log: append to segment %d: %w" FileSys.EIO))
     /\ st x' = st x /\ same_files (world x) (world x') /\ Rep x' A)
  /\ (FileSys.faults (fs (world x)) = FileSys.FNone :: FileSys.FFail :: fl ->
      SyncOnWrite (opts (st x)) = true -> LogEntry.fits key value ->
      room x (LogEntry.frameSize (blen key) (blen value)) 1 ->
      exists x',
        Store.Put key value x = (x', Err (Errorf "log: sync segment %d: %w" FileSys.EIO))
        /\ Rep x' (<[key := value]> A)).
Proof.
  intros (G & HI & HA) Hne. split; intros Hfl.
  - exists (with_faults fl x). split_and!; [by apply (Put_write_fails x G)|done|done|].
    exists G. split; [by apply Inv_with_faults|done].
  - intros Hs Hf Hroom. rewrite <- (LogEntry.blen_Encode key value false) in Hroom.
    destruct (Put_sync_fails x G fl key value HI Hfl Hs Hne Hf Hroom) as (x' & G' & Hp & HI' & _ & Ha).
    exists x'. split; [done|]. exists G'. by rewrite Ha, HA.
Qed.

Lemma full_Rep_faults fl : Rep (with_faults fl full_state) {[bs "b" := bs "two"]}.
Proof. destruct full_Rep as (G & HI & HA). exists G. split; [by apply Inv_with_faults|exact HA]. Qed.

Lemma put_errors_witness :
  (exists x',
     @Store.Put order (bs "c") (bs "3") (with_faults [FileSys.FFail] full_state)
       = (x', Err (Errorf "log: append to segment %d: %w" FileSys.EIO))
     /\ st x' = st (with_faults [FileSys.FFail] full_state)
     /\ same_files (world (with_faults [FileSys.FFail] full_state)) (world x')
     /\ Rep x' {[bs "b" := bs "two"]})
  /\ (exists x',
     @Store.Put order (bs "c") (bs "3") (with_faults [FileSys.FNone; FileSys.FFail] full_state)
       = (x', Err (Errorf "log: sync segment %d: %w" FileSys.EIO))
     /\ Rep x' (<[bs "c" := bs "3"]> {[bs "b" := bs "two"]})).
Proof.
  split.
  - apply (@put_errors order (with_faults [FileSys.FFail] full_state)
      {[bs "b" := bs "two"]} [] (bs "c") (bs "3")).
    + apply full_Rep_faults.
    + discriminate.
    + reflexivity.
  - apply (@put_errors order (with_faults [FileSys.FNone; FileSys.FFail] full_state)
      {[bs "b" := bs "two"]} [] (bs "c") (bs "3")).
    + apply full_Rep_faults.
    + discriminate.
    + reflexivity.
    + reflexivity.
    + by split.
    + vm_compute. split; [discriminate|done].
Defined.

(** C13: a short write breaks the record after it.  On a well-formed store within
    the file-size and id limits, when the write of a [Put] stops after [k] bytes, the [Put] fails and changes neither the store nor the
    segment object, but the file has grown by those bytes.  The next [Put] of any
    key, without a fault, returns success; it writes its record behind them, but
    indexes it at the size the object still has, which stays behind the file.
    So [Get] of the key just written decodes the stray bytes and what follows:
    it fails unless they happen to carry a matching checksum, and then returns
    the value decoded there. *)
Theorem short_write_breaks_next_put `{!GoRange Z} x G k1 v1 k2 v2 k :
  Inv x G -> k1 <> [] -> k2 <> [] ->
  let stray := take k (LogEntry.Encode k1 v1 false) in
  let e2 := LogEntry.Encode k2 v2 false in
  active_size x G + blen stray + blen e2 <= FileSys.max_file -> activeID (st x) + 1 < max_id ->
  exists p ino c x1 x2,
    segments (st x) !! activeID (st x) = Some p /\ G !! activeID (st x) = Some (ino, c)
    /\ Store.Put k1 v1 (with_faults [FileSys.FShort k] x)
       = (x1, Err (Errorf "log: append to segment %d: %w" FileSys.EIO))
    /\ st x1 = st x /\ heap (world x1) = heap (world x)
    /\ FileSys.data (fs (world x1)) !! ino = Some (c ++ stray)
    /\ Store.Put k2 v2 x1 = (x2, Ok tt)
    /\ FileSys.data (fs (world x2)) !! ino = Some (c ++ stray ++ e2)
    /\ index (st x2) !! k2 = Some (MkLocation (activeID (st x)) (blen c) (blen e2) false)
    /\ (exists sg, heap (world x2) !! p = Some sg /\ Segment.size sg = blen c + blen e2)
    /\ match LogEntry.Decode (stray ++ e2) with
       | Ok e => Store.Get k2 x2 = (x2, Ok (Some (LogEntry.Value e)))
       | _ => exists err, Store.Get k2 x2 = (x2, Err err)
       end.
Proof.
  intros HI H1 H2 stray e2 Hsz Hid. destruct (Inv_active x G HI) as (p & ino & c & Ha & Hs & HG & Hp).
  unfold active_size in Hsz. rewrite HG in Hsz.
  pose proof (Put_short x G k1 v1 k [] p ino c HI H1 Ha HG Hp) as Hput1. fold stray in Hput1.
  pose proof (cut_short_appending x G p ino c stray HI Ha Hs Hp) as Hap.
  pose proof (cut_short_next_free x G p ino c stray HI Hid Hs HG) as Hnf.
  set (x1 := cut_short [] x ino c stray) in *.
  destruct (Put_appending x1 p ino (blen c) (c ++ stray) k2 v2 Hap Hnf H2) as (x2 & Hput2 & Hr).
  { rewrite blen_app. exact Hsz. }
  pose proof (put_on_appending _ _ _ _ _ k2 v2 Hap) as Hap2.
  destruct (rotated_or_not_keeps _ _ _ _ _ _ Hap2 (put_on_next_free _ _ _ _ _ k2 v2 Hnf) Hr)
    as (Hq & Hcl & Hi & Hsg & Hh & Hda).
  fold e2 in Hda. rewrite <- app_assoc in Hda. rewrite (ap_object _ _ _ _ _ Hap2) in Hh.
  assert (Hk : index (st x2) !! k2 = Some (MkLocation (activeID (st x)) (blen c) (blen e2) false))
    by (rewrite Hi; apply lookup_insert_eq).
  exists p, ino, c, x1, x2. split_and!; try done; [apply lookup_insert_eq|by eexists|].
  assert (Hget : Store.Get k2 x2
    = (on_world (readRecordAt ino (activeID (st x)) (blen c)) ≫= fun e =>
       mret (Some (LogEntry.Value e))) x2).
  { unfold Store.Get. rewrite self_bind, Hcl. unfold Index.Get. rewrite Hk. cbn [negb orb Tombstone FileID].
    change (activeID (st (put_on _ _ _ _ _ _ _))) with (activeID (st x)) in Hsg. rewrite Hsg.
    unfold mbind, M_bind, on_world, zoom, Segment.ReadAt. unfold mbind, M_bind. by rewrite (load_Ok _ _ _ Hh). }
  rewrite Hget. pose proof (readRecordAt_any (world x2) ino (activeID (st x)) (blen c) c (stray ++ e2) Hq Hda eq_refl) as Hrd.
  destruct (LogEntry.Decode (stray ++ e2)) as [e|err|].
  - destruct Hrd as (e' & Hrd & <-). by rewrite (M_bind_Ok _ _ _ _ _ (on_world_Ok_same _ _ _ Hrd)).
  - destruct Hrd as (err' & Hrd). exists err'. apply M_bind_Err. unfold on_world, zoom. rewrite Hrd. by destruct x2.
  - destruct Hrd as (err' & Hrd). exists err'. apply M_bind_Err. unfold on_world, zoom. rewrite Hrd. by destruct x2.
Qed.

(** The 3 bytes are not a record; all 19 bytes of the failed write are one. *)
Lemma short_write_breaks_next_put_witness :
  (exists x1 x2 e1 e2, @Store.Put order (bs "a") (bs "1") (with_faults [FileSys.FShort 3] full_state) = (x1, Err e1)
     /\ @Store.Put order (bs "c") (bs "2") x1 = (x2, Ok tt) /\ Store.Get (bs "c") x2 = (x2, Err e2))
  /\ (exists x1 x2 e1, @Store.Put order (bs "a") (bs "1") (with_faults [FileSys.FShort 19] full_state) = (x1, Err e1)
     /\ @Store.Put order (bs "c") (bs "2") x1 = (x2, Ok tt) /\ Store.Get (bs "c") x2 = (x2, Ok (Some (bs "1")))).
Proof.
  destruct full_Durable as (G & L & HD & _ & Hb & _). pose proof (dur_inv _ _ _ HD) as HI.
  assert (Hs : active_size full_state G <= ops_bytes writes).
  { destruct (Inv_active full_state G HI) as (p & ino & c & _ & _ & HG & _).
    unfold active_size. rewrite HG. by apply (Hb _ _ _ HG). }
  assert (Hw : ops_bytes writes = 60) by reflexivity. rewrite Hw in Hs.
  split.
  - destruct (@short_write_breaks_next_put order full_state G (bs "a") (bs "1") (bs "c") (bs "2") 3 HI)
      as (p & ino & c & x1 & x2 & _ & _ & H1 & _ & _ & _ & H2 & _ & _ & _ & H3); [done|done| |by vm_compute|].
    + apply (Z.le_trans _ (60 + 3 + 19)); [|done].
      change (blen (take 3 _)) with 3. change (blen (LogEntry.Encode (bs "c") (bs "2") false)) with 19. lia.
    + assert (Hd : LogEntry.Decode (take 3 (LogEntry.Encode (bs "a") (bs "1") false)
                     ++ LogEntry.Encode (bs "c") (bs "2") false) = Err LogEntry.ErrCorrupt) by reflexivity.
      cbv zeta in H3. rewrite Hd in H3. destruct H3 as [err H3]. eexists x1, x2, _, err. exact (conj H1 (conj H2 H3)).
  - destruct (@short_write_breaks_next_put order full_state G (bs "a") (bs "1") (bs "c") (bs "2") 19 HI)
      as (p & ino & c & x1 & x2 & _ & _ & H1 & _ & _ & _ & H2 & _ & _ & _ & H3); [done|done| |by vm_compute|].
    + apply (Z.le_trans _ (60 + 19 + 19)); [|done].
      change (blen (take 19 _)) with 19. change (blen (LogEntry.Encode (bs "c") (bs "2") false)) with 19. lia.
    + assert (Hd : exists e, LogEntry.Decode (take 19 (LogEntry.Encode (bs "a") (bs "1") false)
                     ++ LogEntry.Encode (bs "c") (bs "2") false) = Ok e /\ LogEntry.Value e = bs "1")
        by (eexists; split; [vm_compute; reflexivity|reflexivity]).
      destruct Hd as (e & Hd & Hv). cbv zeta in H3. rewrite Hd, Hv in H3. eexists x1, x2, _. exact (conj H1 (conj H2 H3)).
Defined.

(** ** Closing *)

(** C14: [Close] always ends closed.  Whatever system calls fail, it returns
    (never panics), marks the store closed, empties the segment map, releases
    the handle of every segment and leaves the files as they are. *)
Theorem close_under_faults `{!GoRange Z} x :
  closed (st x) = false ->
  (forall id p, segments (st x) !! id = Some p -> is_Some (heap (world x) !! p)) ->
  exists x' r, Store.Close x = (x', r) /\ r <> Panic /\ same_files (world x) (world x')
    /\ st x' = set_active 0 None (set_segments ∅ (set_closed (st x)))
    /\ (forall id p, segments (st x) !! id = Some p ->
          exists sg, heap (world x') !! p = Some sg /\ f sg = None).
Proof. apply Close_any_Ok. Qed.

Lemma close_under_faults_witness :
  let x := with_faults [FileSys.FFail; FileSys.FNone] full_state in
  exists x' r, @Store.Close order x = (x', r) /\ r <> Panic /\ same_files (world x) (world x')
    /\ st x' = set_active 0 None (set_segments ∅ (set_closed (st x)))
    /\ (forall id p, segments (st x) !! id = Some p ->
          exists sg, heap (world x') !! p = Some sg /\ f sg = None).
Proof.
  cbv zeta. apply (@close_under_faults order (with_faults [FileSys.FFail; FileSys.FNone] full_state)).
  - reflexivity.
  - intros id p Hp. destruct full_Inv as [G HI].
    apply (Inv_with_faults [FileSys.FFail; FileSys.FNone]) in HI.
    destruct (opens_segment _ _ _ _ _ (inv_opens _ _ HI) Hp) as (ino & c & _ & Hh & _). eauto.
Defined.

(** ** Recovery *)

(** C16: scanning a segment always ends.  On any bytes and any read error the
    record loop stops without panicking: it indexes the records that [Next]
    returns up to the first error, and succeeds exactly when that error is the
    end of the stream. *)
Theorem scan_terminates id rd idx :
  exists es rd' err, reads (NewReader rd) es rd' err
    /\ scan_stream id rd idx
       = if errors_Is err EOF then Ok (index_entries id es idx)
         else Err (Errorf "store: scan segment %d: %w" err).
Proof. apply scan_stream_total. Qed.

(** A torn tail.  When the last record of a segment is cut after [n] bytes,
    the scan refuses the segment with [ErrCorrupt], except for a cut right at
    the end of the 17-byte frame header, which is taken for the end of the log:
    the partial record is then ignored. *)
Theorem torn_tail id rs x n idx :
  Forall readable rs -> readable x -> (n < length (enc x))%nat ->
  scan_stream id (MkIoReader (frames rs ++ take n (enc x)) EOF) idx
  = if bool_decide (n = 0%nat \/ n = 17%nat)
    then scan_stream id (MkIoReader (frames rs) EOF) idx
    else Err (Errorf "store: scan segment %d: %w" LogEntry.ErrCorrupt).
Proof.
  intros Hr Hx Hn. by rewrite scan_stream_torn, scan_stream_frames.
Qed.

Lemma torn_tail_witness :
  scan_stream 1 (MkIoReader (frames [MkRec (bs "a") (bs "1") false]
                               ++ take 17 (enc (MkRec (bs "b") (bs "2") false))) EOF) Index.New
  = scan_stream 1 (MkIoReader (frames [MkRec (bs "a") (bs "1") false]) EOF) Index.New
  /\ scan_stream 1 (MkIoReader (frames [MkRec (bs "a") (bs "1") false]
                               ++ take 18 (enc (MkRec (bs "b") (bs "2") false))) EOF) Index.New
  = Err (Errorf "store: scan segment %d: %w" LogEntry.ErrCorrupt).
Proof.
  assert (Hr : Forall readable [MkRec (bs "a") (bs "1") false])
    by (repeat constructor; unfold readable; by vm_compute).
  assert (Hx : readable (MkRec (bs "b") (bs "2") false)) by (unfold readable; by vm_compute).
  split.
  - apply (torn_tail 1 _ _ 17 Index.New Hr Hx). apply Nat.ltb_lt. by vm_compute.
  - apply (torn_tail 1 _ _ 18 Index.New Hr Hx). apply Nat.ltb_lt. by vm_compute.
Defined.
End StoreTheorems.
